(* ===== verification/_CoqProject ===== *)
-Q . S2P
Prelude.v
Bytes.v
Crypto.v
Proto.v
MlsWire.v
Transcripts.v
Keyspace.v
Store.v
StoreProps.v
Routing.v
RoutingInv.v
Homes.v
Queue.v
QueueProps.v
Maintenance.v
Lookup.v
KeyPackages.v
KeyPackagesProps.v
Contracts.v
ContractsProps.v
Dht.v
Mls.v
Frames.v
Examples.v
MlsProps.v
Forward.v
Sync.v
ForwardProps.v
Client.v
Drain.v
DrainProps.v
ClientProps.v
Session.v
Isolation.v
PresenceProps.v
StashProps.v
Attachment.v
AttachmentProps.v
Partials.v
Receiver.v
ReceiverProps.v
Resume.v
PartialsProps.v
Sharing.v
SharingProps.v
Pull.v
PullProps.v
Delivery.v
Download.v
DownloadProps.v
Sending.v
TransferExamples.v
Verdict.v
GroupPolicy.v
Groups.v
GroupHistory.v
GroupAgreement.v
GroupRequests.v
GroupJournal.v
GroupJournalProps.v
GroupConverge.v
GroupInvitations.v
GroupReceive.v
GroupReceiveProps.v
GroupExamples.v
Receipts.v
ReceiptsProps.v
Outbox.v
OutboxProps.v
MessageExamples.v
GroupSend.v
GroupSendProps.v
GroupSendExamples.v
Call.v
CallScreen.v
CallScreenProps.v
CallProps.v
CallRestart.v
CallExamples.v
