(* ===== verification/Prelude.v ===== *)
(** * Promtuz: verification of the relay, groups and delivery, attachment transfers and calls

    Promtuz is a messenger.  Clients ([libcore]) hold conversations over MLS and reach
    each other through relays ([relay]), which form a distributed hash table.  A relay's
    id is the BLAKE3 hash of its Ed25519 key.  The [K] relays nearest to a user's key,
    by XOR distance, are the user's homes: they keep the user's offline messages, key
    packages, invitations, presence and push registration.  The relay a client is
    connected to forwards what it sends to the recipient's homes and waits for a quorum
    of them.  Attachments go directly from client to client ([libcore/src/transfer]): the
    sender retains a copy, the message names its manifest's hash, and the recipient pulls
    verified chunks over authenticated streams, or from a recipient that already has
    them.  In a group every change is a commit to an MLS state; rival commits make
    branches, and all members follow the same one.  A client keeps what it sends in an
    outbox until the relay answered for each recipient, and its recipients report what they
    got and read.  A device is in at most one call, whose signals are messages of the direct
    chat and whose media goes from device to device.  [common] holds the wire forms both sides
    share.  This development models the relay's distributed hash table, its store, its sessions
    with clients, the client's groups, outbox and receipts, its attachment transfers, its calls
    up to the Android call screen, and the wire forms and checks of [common] they use.

    ** Files

    - [Prelude]: list, option and integer lemmas, tactics and hints.
    - [Bytes]: bytes as integers, big-endian integers, lexicographic order, XOR
      ([common/src/quic/xor.rs]).
    - [Crypto]: the interface of BLAKE3 and Ed25519 and the checks built on it
      ([common/src/crypto], [types/id.rs]); [Toy] is an instance to compute with.
    - [Proto], [MlsWire]: the structures, signing transcripts and verifications of
      [common/src/proto/dht_p2p.rs], [client_rel.rs] and [mls_wire.rs].  [Transcripts]:
      all signed statements together.
    - [Contracts], [ContractsProps]: [common/src/contracts], the support and inventory
      documents.
    - [Keyspace]: the interface of a fjall keyspace; [Mem] is an instance.
    - [Store], [StoreProps]: [relay/src/storage/db.rs], presence, leases, push
      registrations and sweeps.  [Maintenance]: its group commit and persist barriers as
      a step relation of a worker and its clients.
    - [Queue], [QueueProps]: the offline queue ([relay/src/storage/mod.rs],
      [relay/src/dht/store.rs]).
    - [KeyPackages], [KeyPackagesProps]: [relay/src/storage/key_packages.rs].
    - [Routing], [RoutingInv], [Homes]: [relay/src/dht/routing.rs].  [Lookup]:
      [relay/src/dht/lookup.rs].
    - [Dht]: the state of a relay and its home-side handlers ([dht/mod.rs], [home.rs],
      [queue_drain.rs], [push_replication.rs]).  [Mls], [MlsProps]: the handlers of
      [dht/mls] and the dispatcher of [dht/handler.rs].
    - [Forward], [Sync], [ForwardProps]: what a relay originates ([dht/rpc.rs],
      [forward.rs], [mls/kp_originate.rs], [mls/welcome_originate.rs], [sync/mod.rs]),
      and a cluster of relays that answer each other.
    - [Client], [Drain], [Session]: a client's session at its relay
      ([relay/src/quic/handler/client]): forwarding and its receipts, draining and
      acknowledging the queue, presence, key packages and invitations, the handshake and
      the packet dispatcher.  [ClientProps], [DrainProps], [Isolation], [PresenceProps],
      [StashProps]: what sessions, homes and the cluster guarantee together.
    - [Frames]: which keyspaces each request can write.
    - [Examples]: codecs and a relay to evaluate with.
    - [Attachment], [AttachmentProps]: [libcore/src/transfer/wire.rs], [auth.rs] and
      [v2.rs], the manifest, the identity pin and the frame codec and reader.
    - [Partials], [PartialsProps]: [transfer/store.rs], the tables, files and leases.
      [Receiver], [ReceiverProps], [Resume]: [transfer/ranges.rs], the verified ranges of
      a download.
    - [Sharing], [SharingProps]: [transfer/sharing.rs], grants to serve a received copy.
    - [Pull], [PullProps], [Delivery]: [transfer/serve.rs] and the pull of
      [transfer/pull.rs], both ends of a transfer.  [Download], [DownloadProps]: the
      retries, helpers and wakes around it.  [Sending]: [transfer/mod.rs], the sender's
      copy.  [TransferExamples]: codecs, a sender and a receiver to evaluate with.
    - [Verdict]: results that say why they refuse ([?], [ensure!]).
    - [GroupPolicy]: [libcore/src/mls/policy.rs], who may change a group.  [Groups]:
      [mls/credential.rs] and [mls/group.rs], the identity of a leaf and the judgement of
      commits and posts.  [GroupHistory]: [mls/branch_proof.rs], the signed history of a
      group.  [GroupAgreement]: the two judgements compared.  [GroupRequests]: the decisions
      of [groups.rs] and [groups/member_requests.rs] about requests.
    - [GroupJournal], [GroupJournalProps]: [mls/recovery.rs], the branches of a group and
      their election.  [GroupConverge]: members that see commits in different orders.
      [GroupInvitations]: invitations to a group one already has.  [GroupReceive],
      [GroupReceiveProps]: [groups/recovery.rs], frames that arrive and the inbox.
      [GroupExamples]: groups to evaluate with.
    - [Receipts], [ReceiptsProps]: [data/receipts.rs] and the saving of messages in
      [data/message.rs].  [Outbox], [OutboxProps]: [delivery/mod.rs] and [db/outbox.rs].
      [MessageExamples]: runs of both.
    - [GroupSend], [GroupSendProps]: how a message to a group goes out, from
      [messaging/send.rs] and [groups/recovery.rs], with the journal and the outbox as the two
      databases a stop may come between.  [GroupSendExamples]: a message sent, cut off, flushed
      and replayed.
    - [Call]: [libcore/src/call/mod.rs], the call of a device and its transitions.
      [CallScreen], [CallScreenProps]: the threads of its [apply], and
      [android/.../core/call/CallController.kt], the state of the call screen.  [CallProps]:
      timers, consent and crossed offers.  [CallRestart]: the two ends of a call that restart
      their media.  [CallExamples]: calls to evaluate with.

    ** How the code is modelled

    A [[u8; N]] is a list of integers, and a theorem that needs the length or the range
    says so ([wf_arr]).  A [u64] is an integer; saturating and wrapping operations are
    written out where the code uses them.  A clock reading, a random value, a rate
    limiter's answer and a network event are arguments.  A handler is a function from the
    relay's state to its next state and its answer, with every early return of the code.
    An operation that can fail returns an [option] or a [result].  The handlers of one
    relay run one at a time: the code takes a lock around each read and update that must
    be atomic.  Where it does not, the two halves are separate steps ([Store.sweep],
    [Maintenance]).  In the transfers a decoder that could panic answers in [option], a
    peer is whatever bytes it sends and however its streams end ([Pull.Peer]), and the
    file system and SQLite answer through [Receiver.Faults] and the like, so theorems
    about them hold whichever call fails.  A file is a name of an inode, so an open
    handle outlives a deleted name.  OpenMLS is a parameter: a group is what its accessors
    read ([Groups.MlsGroup]), its stored rows are a [Snap], and [Groups.merged] states what
    merging a commit makes of a group.  SQL tables are lists of rows in the order of their
    rows, an operation that fails leaves them as they were, and runs of operations
    ([GroupConverge.follows], [ReceiptsProps.run], [OutboxProps.acts], [GroupSendProps.gacts])
    interleave them.  A call's transition is a function to a [Call.Turn], the call it leaves with
    the commands and effects it asks for; the moves of [CallScreen.Device] are the sections of
    [apply] between its locks, so threads interleave as they may in the code.

    Three libraries are interfaces: [Crypto] (signing verifies, hashes and signatures
    have their sizes), [Keyspace] (operations act on a finite map or fail; scans follow
    key order up to their first error; a batch is applied whole) and [Codec] (what is
    serialised reads back).  Each has a concrete instance, used to evaluate.  Nothing
    assumes that hashes have no collisions: [Transcripts.transcript_binds] speaks of the
    digests a transcript contains, and the transfer theorems name the two strings that
    would have to collide ([PullProps.clash]).

    ** What the theorems show

    - Routing: tables stay well formed, a peer leaves only after
      [PING_FAILURES_BEFORE_EVICTION] failed probes in a row, selection is exact, and
      relays that know the same relays agree on the homes of every key.  Lookups are
      bounded, end, and return peers they were entitled to.
    - Storage: queues and stashes stay within their caps, batches and deletions are
      exact, accepted presence facts are never displaced by older ones, sweeps remove
      expired rows only and, repeated, all of them, key packages are handed out once,
      and a barrier that returns [Ok] covers what was written before it.
    - Wire: signing transcripts of different statements never coincide, and support and
      inventory documents decode from exactly their own encoding.
    - Homes: invitation queues are bounded and fetched exactly.
    - Sessions: an accepted dispatch is kept by a quorum or the queue, draining and
      acknowledging lose nothing, no packet of one user touches what belongs to another,
      presence is told only under consent, and a publish reported as done is readable at
      a quorum of homes.
    - Transfers: the frame codec is exact and its reader bounded, a receiver keeps its
      invariant under any arrivals and faults and resumes with the same chunks, any pull
      ends, a successful one leaves exactly the file that was sent, a willing sender's
      file arrives, a server gives out only what the peer may have, deletion and
      revocation are final, grants are bounded, drives settle their rows, and sweeps free
      orphans only.
    - Cluster: forwarding counts each home once against a quorum of the homes selected,
      a home counted as a success has the message or took it live, and drift migration
      never drops a message that fewer than [FORWARD_K_MIN] other relays took.
    - Groups: ranks come from the founder or from signed changes whose signers were
      entitled to them, what members let in joiners accept and the converse, members that
      saw the same commits follow one branch with its keys, invitations only move forward,
      every member's request to leave or to be given keys can be carried, and draining the
      inbox ends.
    - Delivery: a message shows what its recipients said, in whatever order they said it; a
      queued copy waits until its fate is known and recorded; what is pending is due again
      within five minutes, and a pass the relay answers empties the outbox.  A message to a
      group survives a stop between the databases, and is only ever replayed to those it was
      sent to.
    - Calls: the screen shows the call the core is in, media starts and the phone rings only by
      consent, offers that cross leave one call, restarts of both ends settle on one round, and
      no call hangs.
    - Counterexamples to what the code or its comments intend:
      [GroupRequests.full_group_refuses_refresh],
      [GroupInvitations.refreshed_member_locked_out],
      [GroupReceiveProps.upgrade_loses_root_epoch], [CallProps.stale_reconnect_timer],
      [MessageExamples.Retried.answered_attempts_count],
      [StoreProps.sweep_race_drops_fresh_consent], [Maintenance.barrier_shutdown_race],
      [Lookup.v4_mapped_always_dialed], [Lookup.lookup_one_peer_fills_answer],
      [MlsProps.welcome_sender_cap_bypassed], [DrainProps.drain_drops_colliding_dispatch],
      [PresenceProps.presence_tie_lost].

    ** Bounds

    [Lookup.run_iterative_loop] tests its hop count before each pass, so
    [LOOKUP_MAX_HOPS + 1] passes always suffice, and [Lookup.lookup_bounded] shows that a
    lookup always returns.  [Pull.pull_loop] has the number of chunks as fuel and answers
    [None] without it: [PullProps.pull_ends] shows that it never does.  The other loops
    recurse on what they consume: the bytes of a file, the indices of a bitmap, the budget
    of optional frames, the retries left.  [GroupJournal.path_from] and [ancestry] have one
    round more than there are branches ([path_from_enough]), and
    [GroupReceive.drain] one pass more than the inbox has frames, each of which removes one
    ([GroupReceiveProps.inbox_drain_settles]).  [Maintenance] takes request generations below
    2^64, one per write, and [CallRestart.restarts_settle] restart rounds below 2^32 - 1, as the
    code's counter is 32 bits wide.

    ** What is not modelled

    Connections, TLS, timers other than a call's, and the accept loops; the relay's STUN, TURN
    and TCP services; the resolver and the push gateway; OpenMLS itself, the sealing of
    histories and the hash that names a branch; of [libcore] the orchestration around what is
    listed above (fetching key packages, connecting, narrating, the user's conversations), pair
    groups, migration between groups, the media session of a call (str0m, sockets, codecs) and
    other media; the applications but for the state of the call screen.  Serialisation is
    postcard's and stands behind [Codec]. *)

From stdpp Require Export prelude sorting list gmap.
From Stdlib Require Export ZArith Lia.

#[global] Open Scope Z_scope.

(** ** Results

    Rust's [Result<T, E>].  [Option] is Rocq's [option]. *)
Inductive result (A E : Type) : Type :=
| Ok (a : A)
| Err (e : E).
Arguments Ok {A E} a.
Arguments Err {A E} e.

Definition is_ok {A E} (r : result A E) : bool :=
  match r with Ok _ => true | Err _ => false end.

(** ** Machine integers

    A [u64] is a [Z] between [0] and [u64_max]; the saturating operations the
    sources use are written out. *)
Definition u64_max : Z := 2 ^ 64 - 1.

Definition is_u64 (x : Z) : Prop := 0 <= x <= u64_max.

#[global] Instance is_u64_dec x : Decision (is_u64 x).
Proof. unfold is_u64. apply _. Defined.

(** [u64::saturating_add] *)
Definition sat_add (a b : Z) : Z := Z.min u64_max (a + b).

(** [u64::saturating_sub] *)
Definition sat_sub (a b : Z) : Z := Z.max 0 (a - b).

(** [u64::abs_diff] *)
Definition abs_diff (a b : Z) : Z := Z.abs (a - b).

(** [Vec::len] and [slice::len], as an integer that compares with the byte
    budgets of the sources. *)
Definition len {A} (l : list A) : Z := Z.of_nat (length l).

Lemma len_nonneg {A} (l : list A) : 0 <= len l.
Proof. unfold len. lia. Qed.

Lemma len_app {A} (l1 l2 : list A) : len (l1 ++ l2) = len l1 + len l2.
Proof. unfold len. rewrite length_app. lia. Qed.

Lemma len_cons {A} (x : A) l : len (x :: l) = 1 + len l.
Proof. unfold len. cbn. lia. Qed.

Lemma len_nil {A} : len (@nil A) = 0.
Proof. reflexivity. Qed.

(** ** Automation

    [promtuz] holds the lemmas that close the routine side conditions. *)
Create HintDb promtuz.
Create Rewrite HintDb promtuz.
#[export] Hint Resolve len_nonneg : promtuz.
#[export] Hint Rewrite @len_app @len_cons @len_nil : promtuz.

(** Turns boolean (in)equalities on [Z], [nat] and [bool_decide] into
    propositions and finishes with [lia]. *)
Ltac breflect :=
  repeat match goal with
  | H : _ && _ = true |- _ => apply andb_true_iff in H; destruct H
  | H : _ || _ = false |- _ => apply orb_false_iff in H; destruct H
  | H : negb _ = true |- _ => apply negb_true_iff in H
  | H : negb _ = false |- _ => apply negb_false_iff in H
  | H : (_ <? _)%Z = true |- _ => apply Z.ltb_lt in H
  | H : (_ <? _)%Z = false |- _ => apply Z.ltb_ge in H
  | H : (_ <=? _)%Z = true |- _ => apply Z.leb_le in H
  | H : (_ <=? _)%Z = false |- _ => apply Z.leb_gt in H
  | H : (_ =? _)%Z = true |- _ => apply Z.eqb_eq in H
  | H : (_ =? _)%Z = false |- _ => apply Z.eqb_neq in H
  | H : (_ >? _)%Z = true |- _ => rewrite Z.gtb_ltb in H; apply Z.ltb_lt in H
  | H : (_ >? _)%Z = false |- _ => rewrite Z.gtb_ltb in H; apply Z.ltb_ge in H
  | H : (_ >=? _)%Z = true |- _ => rewrite Z.geb_leb in H; apply Z.leb_le in H
  | H : (_ >=? _)%Z = false |- _ => rewrite Z.geb_leb in H; apply Z.leb_gt in H
  | H : (_ <? _)%nat = true |- _ => apply Nat.ltb_lt in H
  | H : (_ <? _)%nat = false |- _ => apply Nat.ltb_ge in H
  | H : (_ <=? _)%nat = true |- _ => apply Nat.leb_le in H
  | H : (_ <=? _)%nat = false |- _ => apply Nat.leb_gt in H
  | H : (_ =? _)%nat = true |- _ => apply Nat.eqb_eq in H
  | H : (_ =? _)%nat = false |- _ => apply Nat.eqb_neq in H
  | H : bool_decide _ = true |- _ => apply bool_decide_eq_true_1 in H
  | H : bool_decide _ = false |- _ => apply bool_decide_eq_false_1 in H
  end.

(** Splits every [if] and [match] on a variable-free scrutinee of the goal. *)
Ltac split_ifs :=
  repeat match goal with
  | |- context [if ?b then _ else _] => destruct b eqn:?
  | H : context [if ?b then _ else _] |- _ => destruct b eqn:?
  end.

(** Splits the first [match] found in [H]. *)
Ltac split_match_in H :=
  match type of H with
  | context [match ?x with _ => _ end] => destruct x eqn:?; try done
  end.

(** Splits [Forall] over appends and conses, everywhere. *)
Ltac norm_Forall :=
  repeat match goal with
  | H : context [Forall _ (_ ++ _)] |- _ => rewrite Forall_app in H
  | H : context [Forall _ (_ :: _)] |- _ => rewrite Forall_cons in H
  | |- context [Forall _ (_ ++ _)] => rewrite Forall_app
  | |- context [Forall _ (_ :: _)] => rewrite Forall_cons
  | |- context [Forall _ []] => rewrite Forall_nil
  end.

(** Proves a closed decidable proposition by evaluation. *)
Ltac by_eval := refine (bool_decide_unpack _ _); vm_compute; exact I.

(** ** Lists *)

Section lists.
Context {A : Type}.
Implicit Types (l : list A) (x : A).

(** [iter().position(f)] of a found element splits the list there. *)
Lemma list_find_split (P : A → Prop) `{!∀ x, Decision (P x)} l i x :
  list_find P l = Some (i, x) →
  ∃ l1 l2, l = l1 ++ x :: l2 ∧ length l1 = i ∧ P x ∧ Forall (λ y, ¬ P y) l1.
Proof.
  intros (Hi & HP & Hmin)%list_find_Some.
  destruct (list_elem_of_split_length l i x Hi) as (l1 & l2 & -> & ->).
  exists l1, l2. split_and!; [done..|].
  apply Forall_lookup. intros j y Hj. apply (Hmin j y).
  - rewrite lookup_app_l; [done|]. by eapply lookup_lt_Some.
  - by eapply lookup_lt_Some.
Qed.

Lemma delete_middle l1 l2 x : delete (length l1) (l1 ++ x :: l2) = l1 ++ l2.
Proof. induction l1 as [|y l1 IH]; simpl; [done|]. by f_equal. Qed.

Lemma insert_middle l1 l2 x y :
  <[length l1 := y]> (l1 ++ x :: l2) = l1 ++ y :: l2.
Proof. induction l1 as [|z l1 IH]; simpl; [done|]. by f_equal. Qed.

Lemma filter_none (P : A → Prop) `{!∀ x, Decision (P x)} l :
  Forall (λ x, ¬ P x) l → filter P l = [].
Proof. induction 1 as [|x l Hx _ IH]; [done|]. by rewrite filter_cons_False. Qed.

Lemma filter_all (P : A → Prop) `{!∀ x, Decision (P x)} l : Forall P l → filter P l = l.
Proof. induction 1 as [|x l Hx _ IH]; [done|]. by rewrite filter_cons_True, IH. Qed.

Lemma submseteq_NoDup (l1 l2 : list A) : NoDup l2 → l1 ⊆+ l2 → NoDup l1.
Proof. intros Hnd [k Hk]%submseteq_Permutation. rewrite Hk in Hnd. by apply NoDup_app in Hnd as [? _]. Qed.

Lemma sublist_map {B} (f : A → B) l1 l2 : l1 `sublist_of` l2 → map f l1 `sublist_of` map f l2.
Proof. induction 1; cbn; by constructor. Qed.

Lemma Forall_take (P : A → Prop) n l : Forall P l → Forall P (take n l).
Proof. intros H. rewrite <- (take_drop n l) in H. by apply Forall_app in H as [? _]. Qed.

End lists.

(** [u64] addition in release builds. *)
Definition wrap_add (a b : Z) : Z := (a + b) mod 2 ^ 64.

Lemma wrap_add_small a b : 0 <= a + b <= u64_max → wrap_add a b = a + b.
Proof. unfold wrap_add, u64_max. intros. apply Z.mod_small. lia. Qed.

Lemma pair_snd {A B} (p : A * B) b : p.2 = b → p = (p.1, b).
Proof. by intros <-; destruct p. Qed.
