(* ===== verification/Bytes.v ===== *)
(** * Bytes: arrays, big-endian integers, ordering and XOR

    A byte is a [Z] below [256]; [[u8; N]] is a list of [N] bytes.  Rust compares
    byte arrays lexicographically ([bytes_cmp]) and writes every integer of the wire
    and key formats big-endian ([be_bytes], [to_be_bytes] in the sources); this file
    relates both to the integer an array denotes. *)

From S2P Require Import Prelude.

Abbreviation bytes := (list Z).

Definition is_u8 (b : Z) : Prop := 0 <= b < 256.

#[global] Instance is_u8_dec b : Decision (is_u8 b).
Proof. unfold is_u8. apply _. Defined.

(** A value of type [[u8; n]]. *)
Definition wf_arr (n : nat) (l : bytes) : Prop := length l = n ∧ Forall is_u8 l.

#[global] Instance wf_arr_dec n l : Decision (wf_arr n l).
Proof. unfold wf_arr. apply _. Defined.

(** ** Big-endian integers *)

(** The integer a byte string denotes, most significant byte first
    ([u64::from_be_bytes]). *)
Fixpoint be_val (l : bytes) : Z :=
  match l with
  | [] => 0
  | b :: l' => b * 256 ^ len l' + be_val l'
  end.

(** [to_be_bytes] of an [n]-byte integer. *)
Fixpoint be_bytes (n : nat) (z : Z) : bytes :=
  match n with
  | O => []
  | S n' => (z / 256 ^ Z.of_nat n') mod 256 :: be_bytes n' z
  end.

(** ** Lexicographic order ([Ord for [u8]]) *)

Fixpoint bytes_cmp (a b : bytes) : comparison :=
  match a, b with
  | [], [] => Eq
  | [], _ :: _ => Lt
  | _ :: _, [] => Gt
  | x :: a', y :: b' =>
      match x ?= y with Eq => bytes_cmp a' b' | c => c end
  end.

Definition bytes_le (a b : bytes) : Prop := bytes_cmp a b ≠ Gt.
Definition bytes_lt (a b : bytes) : Prop := bytes_cmp a b = Lt.

#[global] Instance bytes_le_dec : RelDecision bytes_le.
Proof. intros a b. unfold bytes_le. destruct (bytes_cmp a b); [left|left|right]; congruence. Defined.

#[global] Instance bytes_lt_dec : RelDecision bytes_lt.
Proof. intros a b. unfold bytes_lt. destruct (bytes_cmp a b); [right|left|right]; congruence. Defined.

(** ** XOR *)

(** [array::from_fn(|i| a[i] ^ b[i])] *)
Definition xor_bytes (a b : bytes) : bytes := zip_with Z.lxor a b.

(** ** Facts about arrays *)

Lemma wf_arr_length n l : wf_arr n l → length l = n.
Proof. by intros [? _]. Qed.

Lemma wf_arr_u8 n l : wf_arr n l → Forall is_u8 l.
Proof. by intros [_ ?]. Qed.

Lemma wf_arr_app n m l1 l2 : wf_arr n l1 → wf_arr m l2 → wf_arr (n + m) (l1 ++ l2).
Proof.
  intros [H1 H2] [H3 H4]. split; [rewrite length_app; lia|]. by apply Forall_app.
Qed.

(** Two concatenations of fixed-width fields agree only field by field. *)
Lemma wf_arr_app_inj n a b l1 l2 :
  wf_arr n a → wf_arr n b → a ++ l1 = b ++ l2 → a = b ∧ l1 = l2.
Proof. intros [Ha _] [Hb _] H. apply app_inj_1 in H; [done|congruence]. Qed.

#[export] Hint Resolve wf_arr_length wf_arr_u8 wf_arr_app : promtuz.

(** ** Facts about big-endian integers *)

Lemma pow256_pos n : 0 < 256 ^ Z.of_nat n.
Proof. apply Z.pow_pos_nonneg; lia. Qed.

Lemma pow256_succ n : 256 ^ Z.of_nat (S n) = 256 * 256 ^ Z.of_nat n.
Proof. rewrite Nat2Z.inj_succ, Z.pow_succ_r by lia. done. Qed.

Lemma be_val_bound l : Forall is_u8 l → 0 <= be_val l < 256 ^ len l.
Proof.
  unfold len. induction 1 as [|b l Hb Hl IH]; cbn [be_val length]; [cbn; lia|].
  rewrite pow256_succ. unfold is_u8, len in *. pose proof (pow256_pos (length l)). nia.
Qed.

Lemma be_val_app l1 l2 : be_val (l1 ++ l2) = be_val l1 * 256 ^ len l2 + be_val l2.
Proof.
  induction l1 as [|b l1 IH]; cbn [be_val app]; [lia|].
  rewrite IH, len_app, Z.pow_add_r by apply len_nonneg. lia.
Qed.

Lemma length_be_bytes n z : length (be_bytes n z) = n.
Proof. induction n; cbn; congruence. Qed.

Lemma be_bytes_u8 n z : Forall is_u8 (be_bytes n z).
Proof.
  induction n as [|n IH]; cbn; constructor; [|done].
  unfold is_u8. apply Z.mod_pos_bound. lia.
Qed.

Lemma wf_be_bytes n z : wf_arr n (be_bytes n z).
Proof. split; [apply length_be_bytes|apply be_bytes_u8]. Qed.
#[export] Hint Resolve wf_be_bytes length_be_bytes be_bytes_u8 : promtuz.

(** [from_be_bytes(to_be_bytes(z))] keeps [z] modulo its width. *)
Lemma be_val_be_bytes n z : be_val (be_bytes n z) = z mod 256 ^ Z.of_nat n.
Proof.
  induction n as [|n IH]; cbn [be_val be_bytes]; [by rewrite Z.mod_1_r|].
  rewrite IH, pow256_succ. unfold len. rewrite length_be_bytes.
  pose proof (pow256_pos n).
  rewrite (Z.mul_comm 256), Z.rem_mul_r by lia. lia.
Qed.

Lemma be_val_be_bytes_small n z :
  0 <= z < 256 ^ Z.of_nat n → be_val (be_bytes n z) = z.
Proof. intros H. rewrite be_val_be_bytes. by apply Z.mod_small. Qed.

Lemma be_bytes_shift n c z : be_bytes n (c * 256 ^ Z.of_nat n + z) = be_bytes n z.
Proof.
  revert c z. induction n as [|n IH]; intros c z; cbn [be_bytes]; [done|].
  pose proof (pow256_pos n). f_equal.
  - rewrite pow256_succ.
    replace (c * (256 * 256 ^ Z.of_nat n) + z) with (z + (c * 256) * 256 ^ Z.of_nat n) by lia.
    rewrite Z.div_add by lia. by rewrite Z.mod_add by lia.
  - rewrite pow256_succ, Z.mul_assoc. apply IH.
Qed.

Lemma be_bytes_be_val l : Forall is_u8 l → be_bytes (length l) (be_val l) = l.
Proof.
  induction 1 as [|b l Hb Hl IH]; cbn [be_bytes be_val length]; [done|].
  pose proof (be_val_bound l Hl). unfold len in *. pose proof (pow256_pos (length l)).
  f_equal.
  - rewrite Z.div_add_l, Z.div_small, Z.add_0_r by lia. by apply Z.mod_small.
  - by rewrite be_bytes_shift.
Qed.

Lemma be_val_inj a b :
  length a = length b → Forall is_u8 a → Forall is_u8 b → be_val a = be_val b → a = b.
Proof.
  intros Hl Ha Hb Heq.
  rewrite <- (be_bytes_be_val a), <- (be_bytes_be_val b), Hl, Heq by done. done.
Qed.

Lemma be_bytes_inj n x y :
  0 <= x < 256 ^ Z.of_nat n → 0 <= y < 256 ^ Z.of_nat n →
  be_bytes n x = be_bytes n y → x = y.
Proof.
  intros Hx Hy H. apply (f_equal be_val) in H.
  by rewrite !be_val_be_bytes_small in H by done.
Qed.

Lemma u64_pow256 x : is_u64 x ↔ 0 <= x < 256 ^ Z.of_nat 8.
Proof. unfold is_u64, u64_max. change (256 ^ Z.of_nat 8) with (2 ^ 64). lia. Qed.

Lemma be_bytes_u64_inj x y :
  is_u64 x → is_u64 y → be_bytes 8 x = be_bytes 8 y → x = y.
Proof. rewrite !u64_pow256. apply be_bytes_inj. Qed.

(** ** Facts about the order *)

Lemma bytes_cmp_eq a b : bytes_cmp a b = Eq ↔ a = b.
Proof.
  revert b. induction a as [|x a IH]; intros [|y b]; cbn; try (split; congruence).
  destruct (Z.compare_spec x y); subst; [rewrite IH|..]; split; try congruence;
    intros [=]; lia.
Qed.

Lemma bytes_cmp_refl a : bytes_cmp a a = Eq.
Proof. by apply bytes_cmp_eq. Qed.

Lemma bytes_cmp_antisym a b : bytes_cmp b a = CompOpp (bytes_cmp a b).
Proof.
  revert b. induction a as [|x a IH]; intros [|y b]; cbn; try done.
  rewrite (Z.compare_antisym x y). destruct (x ?= y); cbn; auto.
Qed.

Lemma bytes_cmp_trans a b c o :
  bytes_cmp a b = o → bytes_cmp b c = o → bytes_cmp a c = o.
Proof.
  revert b c. induction a as [|x a IH]; intros [|y b] [|z c]; cbn; try congruence.
  destruct (Z.compare_spec x y), (Z.compare_spec y z), (Z.compare_spec x z);
    subst; try congruence; try lia; eauto.
Qed.

Lemma bytes_lt_not_le a b : bytes_lt a b ↔ ¬ bytes_le b a.
Proof.
  unfold bytes_lt, bytes_le. rewrite (bytes_cmp_antisym a b).
  destruct (bytes_cmp a b); cbn; naive_solver.
Qed.

#[global] Instance bytes_lt_trans : Transitive bytes_lt.
Proof. intros a b c. unfold bytes_lt. apply bytes_cmp_trans. Qed.

#[global] Instance bytes_lt_irrefl : Irreflexive bytes_lt.
Proof. intros a. unfold complement, bytes_lt. by rewrite bytes_cmp_refl. Qed.

Lemma bytes_le_lteq a b : bytes_le a b ↔ bytes_lt a b ∨ a = b.
Proof.
  rewrite <- (bytes_cmp_eq a b). unfold bytes_le, bytes_lt.
  destruct (bytes_cmp a b); naive_solver.
Qed.

#[global] Instance bytes_le_preorder : PreOrder bytes_le.
Proof.
  split.
  - intros a. apply bytes_le_lteq. by right.
  - intros a b c [|]%bytes_le_lteq [|]%bytes_le_lteq; subst; apply bytes_le_lteq; eauto.
    left. by etrans.
Qed.

#[global] Instance bytes_le_total : Total bytes_le.
Proof.
  intros a b. unfold bytes_le. rewrite (bytes_cmp_antisym a b).
  destruct (bytes_cmp a b); cbn; naive_solver.
Qed.

#[global] Instance bytes_le_antisymm : AntiSymm (=) bytes_le.
Proof.
  intros a b [H|]%bytes_le_lteq [H'|]%bytes_le_lteq; try done.
  exfalso. eapply (irreflexivity bytes_lt a). by etrans.
Qed.

(** On arrays of one width the lexicographic order is the order of the integers. *)
Lemma bytes_cmp_be_val a b :
  length a = length b → Forall is_u8 a → Forall is_u8 b →
  bytes_cmp a b = (be_val a ?= be_val b).
Proof.
  revert b. induction a as [|x a IH]; intros [|y b]; cbn [length be_val bytes_cmp];
    try congruence; [done|].
  intros [=Hl] [Hx Ha]%Forall_cons [Hy Hb]%Forall_cons.
  rewrite IH by done. unfold len. rewrite Hl.
  pose proof (be_val_bound a Ha). pose proof (be_val_bound b Hb).
  unfold len in *. rewrite Hl in *.
  destruct (Z.compare_spec x y); subst; symmetry.
  - destruct (Z.compare_spec (be_val a) (be_val b));
      [apply Z.compare_eq_iff|apply Z.compare_lt_iff|apply Z.compare_gt_iff]; lia.
  - apply Z.compare_lt_iff. nia.
  - apply Z.compare_gt_iff. nia.
Qed.

Lemma bytes_lt_be_val a b :
  length a = length b → Forall is_u8 a → Forall is_u8 b →
  bytes_lt a b ↔ be_val a < be_val b.
Proof. intros ???. unfold bytes_lt. rewrite bytes_cmp_be_val by done. apply Z.compare_lt_iff. Qed.

Lemma bytes_cmp_app_same p a b : bytes_cmp (p ++ a) (p ++ b) = bytes_cmp a b.
Proof. induction p as [|x p IH]; cbn; [done|]. by rewrite Z.compare_refl. Qed.

(** The first difference decides, whatever follows. *)
Lemma bytes_cmp_app_lt a b x y : length a = length b → bytes_lt a b → bytes_lt (a ++ x) (b ++ y).
Proof.
  unfold bytes_lt. revert b. induction a as [|c a IH]; intros [|d b] Hl Hlt; cbn in *; try done.
  destruct (c ?= d); [|done|done]. apply IH; [lia|done].
Qed.

(** ** Facts about XOR *)

Lemma length_xor_bytes a b : length a = length b → length (xor_bytes a b) = length a.
Proof. intros H. unfold xor_bytes. rewrite length_zip_with. lia. Qed.

(** No bit of a number below [2 ^ k] is set at or above [k]. *)
Lemma testbit_small k u n : 0 <= k → 0 <= u < 2 ^ k → k <= n → Z.testbit u n = false.
Proof.
  intros Hk Hu Hn. destruct (decide (u = 0)) as [->|]; [apply Z.bits_0|].
  apply Z.bits_above_log2; [lia|].
  apply Z.lt_le_trans with k; [|done]. apply Z.log2_lt_pow2; lia.
Qed.

(** And conversely. *)
Lemma bits_bound k x :
  0 <= k → 0 <= x → (∀ n, k <= n → Z.testbit x n = false) → x < 2 ^ k.
Proof.
  intros Hk Hx Hbits. destruct (decide (2 ^ k <= x)) as [Hge|]; [|lia]. exfalso.
  assert (0 < 2 ^ k) by (apply Z.pow_pos_nonneg; lia).
  pose proof (Z.log2_le_pow2 x k) as Hlog.
  assert (Hbit : Z.testbit x (Z.log2 x) = true) by (apply Z.bit_log2; lia).
  rewrite Hbits in Hbit; [done|]. apply Hlog; lia.
Qed.

Lemma lxor_pow2_bound k v w :
  0 <= k → 0 <= v < 2 ^ k → 0 <= w < 2 ^ k → 0 <= Z.lxor v w < 2 ^ k.
Proof.
  intros Hk Hv Hw. assert (0 <= Z.lxor v w) by (apply Z.lxor_nonneg; lia). split; [done|].
  apply bits_bound; [done..|]. intros n Hn.
  by rewrite Z.lxor_spec, !(testbit_small k) by lia.
Qed.

Lemma lxor_u8 x y : is_u8 x → is_u8 y → is_u8 (Z.lxor x y).
Proof. unfold is_u8. change 256 with (2 ^ 8). apply lxor_pow2_bound. lia. Qed.

Lemma xor_bytes_u8 a b : Forall is_u8 a → Forall is_u8 b → Forall is_u8 (xor_bytes a b).
Proof.
  unfold xor_bytes. intros Ha. revert b. induction Ha as [|x a Hx Ha IH]; intros [|y b] Hb; cbn;
    try constructor; inversion Hb; subst; auto using lxor_u8.
Qed.

Lemma wf_xor_bytes n a b : wf_arr n a → wf_arr n b → wf_arr n (xor_bytes a b).
Proof.
  intros [Ha Ha'] [Hb Hb']. split; [rewrite length_xor_bytes; congruence|].
  by apply xor_bytes_u8.
Qed.
#[export] Hint Resolve wf_xor_bytes : promtuz.

Lemma testbit_pow2_parts k c u n :
  0 <= k → 0 <= n → 0 <= u < 2 ^ k →
  Z.testbit (c * 2 ^ k + u) n = if decide (n < k) then Z.testbit u n else Z.testbit c (n - k).
Proof.
  intros Hk Hn Hu. assert (0 < 2 ^ k) by (apply Z.pow_pos_nonneg; lia).
  case_decide.
  - rewrite <- (Z.mod_pow2_bits_low (c * 2 ^ k + u) k n) by lia.
    by rewrite Z.add_comm, Z.mod_add, Z.mod_small by lia.
  - replace n with ((n - k) + k) at 1 by lia.
    rewrite <- Z.div_pow2_bits, Z.div_add_l, Z.div_small, Z.add_0_r by lia. done.
Qed.

Lemma lxor_pow2_parts k a b v w :
  0 <= k → 0 <= v < 2 ^ k → 0 <= w < 2 ^ k →
  Z.lxor (a * 2 ^ k + v) (b * 2 ^ k + w) = Z.lxor a b * 2 ^ k + Z.lxor v w.
Proof.
  intros Hk Hv Hw. apply Z.bits_inj'. intros n Hn.
  rewrite Z.lxor_spec, !testbit_pow2_parts by auto using lxor_pow2_bound.
  case_decide; by rewrite Z.lxor_spec.
Qed.

(** XOR of two arrays denotes the XOR of their integers. *)
Lemma be_val_xor a b :
  length a = length b → Forall is_u8 a → Forall is_u8 b →
  be_val (xor_bytes a b) = Z.lxor (be_val a) (be_val b).
Proof.
  revert b. induction a as [|x a IH]; intros [|y b]; cbn [length]; try congruence; [done|].
  intros [=Hl] [Hx Ha]%Forall_cons [Hy Hb]%Forall_cons.
  change (xor_bytes (x :: a) (y :: b)) with (Z.lxor x y :: xor_bytes a b).
  cbn [be_val]. rewrite IH by done. unfold len. rewrite length_xor_bytes, Hl by done.
  pose proof (be_val_bound a Ha). pose proof (be_val_bound b Hb). unfold len in *.
  rewrite Hl in *. change 256 with (2 ^ 8) in *. rewrite <- Z.pow_mul_r in * by lia.
  symmetry. apply lxor_pow2_parts; lia.
Qed.

Lemma xor_bytes_involutive a b :
  length a = length b → xor_bytes (xor_bytes a b) b = a.
Proof.
  unfold xor_bytes. revert b. induction a as [|x a IH]; intros [|y b]; cbn; try congruence.
  intros [=]. f_equal; [|auto]. by rewrite Z.lxor_assoc, Z.lxor_nilpotent, Z.lxor_0_r.
Qed.

(** XOR with a fixed array is injective on arrays of its width. *)
Lemma xor_bytes_inj_l a b t :
  length a = length t → length b = length t → xor_bytes a t = xor_bytes b t → a = b.
Proof.
  intros Ha Hb H. rewrite <- (xor_bytes_involutive a t), H by done.
  by apply xor_bytes_involutive.
Qed.

Lemma xor_bytes_comm a b : xor_bytes a b = xor_bytes b a.
Proof.
  unfold xor_bytes. revert b. induction a as [|x a IH]; intros [|y b]; cbn; try done.
  f_equal; [apply Z.lxor_comm|auto].
Qed.

#[global] Arguments be_bytes _ _ : simpl never.
