(* ===== verification/Crypto.v ===== *)
(** * Crypto: the primitives the sources call, and what they rely on

    BLAKE3 (the [blake3] crate) and Ed25519 (the [ed25519_dalek] crate) are
    parameters: a [Crypto] gives their functions and the documented facts the
    sources rely on.  [Toy] is a concrete instance, so that theorems proved for
    every [Crypto] can be evaluated. *)

From S2P Require Import Prelude Bytes.
From Stdlib Require Ascii String.
Export String.StringSyntax.

Class Crypto := {
  (** [blake3::hash(m).as_bytes()] *)
  blake3 : bytes → bytes;
  (** [VerifyingKey::from_bytes(pk).is_ok()] *)
  vk_ok : bytes → bool;
  (** [vk.verify_strict(msg, sig).is_ok()] *)
  verify_strict : bytes → bytes → bytes → bool;
  (** [SigningKey::verifying_key().to_bytes()] *)
  verifying_key : bytes → bytes;
  (** [SigningKey::sign(msg).to_bytes()] *)
  sign : bytes → bytes → bytes;
  blake3_wf : ∀ m, wf_arr 32 (blake3 m);
  verifying_key_wf : ∀ sk, wf_arr 32 (verifying_key sk);
  sign_wf : ∀ sk m, wf_arr 64 (sign sk m);
  verifying_key_ok : ∀ sk, vk_ok (verifying_key sk) = true;
  (** A signature verifies under its own key. *)
  sign_verifies : ∀ sk m, verify_strict (verifying_key sk) m (sign sk m) = true;
}.
#[export] Hint Resolve blake3_wf verifying_key_wf sign_wf : promtuz.

(** A Rust byte-string literal [b"..."]. *)
Definition str (s : String.string) : bytes :=
  map (λ c, Z.of_N (Ascii.N_of_ascii c)) (String.list_ascii_of_string s).
Arguments str s%_string_scope : simpl never.

Section crypto.
Context `{Crypto}.

(** [NodeId::new]: the full-width hash of a key. *)
Definition NodeId_new (key : bytes) : bytes := blake3 key.

(** [verify_ed25519(pubkey, msg, sig).is_ok()] *)
Definition verify_ed25519 (pubkey msg sig : bytes) : bool :=
  vk_ok pubkey && verify_strict pubkey msg sig.

(** [crate::PROTOCOL_VERSION] *)
Definition PROTOCOL_VERSION : Z := 11.

(** [crate::SIGNATURE_VERSIONS]: the current version, then the previous one. *)
Definition SIGNATURE_VERSIONS : Z * Z := (PROTOCOL_VERSION, 10).

(** [verify_versioned]: a transcript of either accepted version. *)
Definition verify_versioned (pubkey sig : bytes) (transcript : Z → bytes) : bool :=
  let '(current, previous) := SIGNATURE_VERSIONS in
  verify_ed25519 pubkey (transcript current) sig
    || verify_ed25519 pubkey (transcript previous) sig.

Lemma verify_ed25519_sign sk m : verify_ed25519 (verifying_key sk) m (sign sk m) = true.
Proof. unfold verify_ed25519. by rewrite verifying_key_ok, sign_verifies. Qed.

Lemma verify_versioned_iff pubkey sig transcript :
  verify_versioned pubkey sig transcript = true ↔
  ∃ v, (v = 11 ∨ v = 10) ∧ verify_ed25519 pubkey (transcript v) sig = true.
Proof.
  unfold verify_versioned, SIGNATURE_VERSIONS, PROTOCOL_VERSION.
  rewrite orb_true_iff. split; [intros [?|?]; eauto|intros (v & [->| ->] & ?); auto].
Qed.
End crypto.

(** A [Crypto] to evaluate with: the hash is four lanes of a multiplicative 64-bit hash,
    a public key is its secret key cut to 32 bytes, and a signature is the public key
    followed by the hash of the message. *)
Module Toy.
Definition lane (i : Z) (m : bytes) : Z :=
  fold_left (λ a b, Z.land (Z.lxor a (b + i) * 0x100000001b3) (2 ^ 64 - 1)) m 0xcbf29ce484222325.

Definition hash (m : bytes) : bytes :=
  be_bytes 8 (lane 1 m) ++ be_bytes 8 (lane 2 m) ++ be_bytes 8 (lane 3 m) ++ be_bytes 8 (lane 4 m).

Lemma hash_wf m : wf_arr 32 (hash m).
Proof. do 3 (apply (wf_arr_app 8); [apply wf_be_bytes|]). apply wf_be_bytes. Qed.

Definition public (sk : bytes) : bytes := map (λ b, b mod 256) (take 32 (sk ++ replicate 32 0)).

Lemma public_wf sk : wf_arr 32 (public sk).
Proof.
  split.
  - unfold public. rewrite length_map, length_take, length_app, length_replicate. lia.
  - unfold public. apply Forall_fmap, Forall_forall. intros b _. by apply Z.mod_pos_bound.
Qed.

#[export] Instance crypto : Crypto := {|
  blake3 := hash;
  vk_ok := λ pk, bool_decide (length pk = 32%nat);
  verify_strict := λ pk m s, bool_decide (s = pk ++ hash m);
  verifying_key := public;
  sign := λ sk m, public sk ++ hash m;
  blake3_wf := hash_wf;
  verifying_key_wf := public_wf;
  sign_wf := λ sk m, wf_arr_app 32 32 _ _ (public_wf sk) (hash_wf m);
  verifying_key_ok := λ sk, bool_decide_eq_true_2 _ (proj1 (public_wf sk));
  sign_verifies := λ sk m, bool_decide_eq_true_2 _ eq_refl;
|}.
End Toy.
