(* ===== verification/Proto.v ===== *)
(** * Proto: the relay wire types, their signing transcripts and their checks

    [common/src/proto/client_rel.rs] and [common/src/proto/dht_p2p.rs].  A
    transcript is the byte string an Ed25519 signature covers: a domain, the
    protocol version and the fields, concatenated. *)

From S2P Require Import Prelude Bytes Crypto.

(** ** Addresses ([std::net]) *)

Inductive IpAddr :=
| V4 (a b c d : Z)
| V6 (segments : list Z).

Record SocketAddr := mkAddr { ip : IpAddr; port : Z }.

#[global] Instance IpAddr_eq_dec : EqDecision IpAddr.
Proof. solve_decision. Defined.
#[global] Instance SocketAddr_eq_dec : EqDecision SocketAddr.
Proof. solve_decision. Defined.

(** ** Descriptors *)

Record NodeDescriptor := mkNode { nd_id : bytes; nd_addr : SocketAddr; nd_pubkey : bytes }.

#[global] Instance NodeDescriptor_eq_dec : EqDecision NodeDescriptor.
Proof. solve_decision. Defined.

(** ** Client-to-relay types *)

Inductive Wake := WakeNo | WakeMessage | WakeCall.

#[global] Instance Wake_eq_dec : EqDecision Wake.
Proof. solve_decision. Defined.

Definition wakes (w : Wake) : bool := bool_decide (w ≠ WakeNo).

Record DispatchP := mkDispatch {
  d_to : bytes;
  d_from : bytes;
  d_id : bytes;
  d_payload : bytes;
  d_sig : bytes;
  d_accepted_at_ms : Z;
  d_wake : Wake;
  d_ttl_ms : Z;
}.

#[global] Instance DispatchP_eq_dec : EqDecision DispatchP.
Proof. solve_decision. Defined.

(** [DispatchP::is_expired] *)
Definition is_expired (d : DispatchP) (now_ms : Z) : bool :=
  bool_decide (d_wake d ≠ WakeCall)
    && negb (d_ttl_ms d =? 0)
    && (sat_sub now_ms (d_accepted_at_ms d) >? d_ttl_ms d).

Record DeliverP := mkDeliver {
  dl_id : bytes;
  dl_from : bytes;
  dl_payload : bytes;
  dl_sig : bytes;
  dl_accepted_at_ms : Z;
  dl_ttl_ms : Z;
}.

(** [dispatch_to_deliver] *)
Definition dispatch_to_deliver (d : DispatchP) : DeliverP :=
  mkDeliver (d_id d) (d_from d) (d_payload d) (d_sig d) (d_accepted_at_ms d) (d_ttl_ms d).

Inductive PresenceState :=
| Online
| Idle (since : Z)
| Offline (last_seen : Z).

#[global] Instance PresenceState_eq_dec : EqDecision PresenceState.
Proof. solve_decision. Defined.

Record ActivityP := mkActivity {
  ac_to : bytes;
  ac_from : bytes;
  ac_group_id : bytes;
  ac_activity : Z;
  ac_timestamp : Z;
  ac_sig : bytes;
}.

Definition DISPATCH_SIG_DOMAIN : bytes := str "promtuz-dispatch-v1".
Definition ACTIVITY_SIG_DOMAIN : bytes := str "promtuz-activity-v1".

Definition client_auth_message (nonce binding : bytes) : bytes :=
  List.concat [str "relay-auth-v"; be_bytes 2 PROTOCOL_VERSION; nonce; binding].

Definition dispatch_sig_message (version : Z) (to from id payload : bytes) : bytes :=
  List.concat [DISPATCH_SIG_DOMAIN; be_bytes 2 version; to; from; id; payload].

Definition activity_sig_message (to from group_id : bytes) (activity timestamp : Z) : bytes :=
  List.concat [ACTIVITY_SIG_DOMAIN; be_bytes 2 PROTOCOL_VERSION; to; from; group_id;
               be_bytes 2 activity; be_bytes 8 timestamp].

(** ** Relay-to-relay types *)

Definition MAX_DHT_HELLO_SKEW_MS : Z := 60000.
Definition DHT_K : nat := 3.
Definition MAX_FIND_NODE_RESULTS : nat := DHT_K.
Definition PRESENCE_LEASE_MAX_MS : Z := 10 * 60 * 1000.
Definition PRESENCE_STATE_MAX_SKEW_MS : Z := 60000.
Definition MAX_FETCH_QUEUE_BATCH : nat := 64.
Definition MAX_FETCH_QUEUE_ACK_IDS : nat := MAX_FETCH_QUEUE_BATCH.

Record DhtHello := mkHello {
  h_node_id : bytes; h_pubkey : bytes; h_timestamp : Z; h_sig : bytes }.

Record PushPseudonymPublish := mkPushPub {
  pp_user_ipk : bytes; pp_pseudonym : bytes; pp_timestamp : Z; pp_user_sig : bytes }.

Record Forward := mkForward {
  fw_dispatch : DispatchP; fw_sender_relay_id : bytes; fw_timestamp : Z; fw_sig : bytes }.

Inductive ForwardOutcome :=
| Delivered | Stored | NotOwner | QueueFull | BadSig | RateLimited.

#[global] Instance ForwardOutcome_eq_dec : EqDecision ForwardOutcome.
Proof. solve_decision. Defined.

Record PresenceConsent := mkConsent {
  co_owner : bytes;
  co_recipient : bytes;
  co_version : Z;
  co_issued_at_ms : Z;
  co_granted : bool;
  co_user_sig : bytes;
}.

Record PresenceLease := mkLease {
  le_user : bytes;
  le_relay_id : bytes;
  le_version : Z;
  le_issued_at_ms : Z;
  le_expires_at_ms : Z;
  le_user_sig : bytes;
}.

#[global] Instance PresenceLease_eq_dec : EqDecision PresenceLease.
Proof. solve_decision. Defined.

Record RelayPresenceState := mkRelayPresence {
  rp_recipient : bytes;
  rp_who : bytes;
  rp_lease : PresenceLease;
  rp_state : PresenceState;
  rp_version : Z;
  rp_observed_at_ms : Z;
  rp_relay_pubkey : bytes;
  rp_relay_sig : bytes;
}.

Record LiveForward := mkLiveForward {
  lf_dispatch : DispatchP;
  lf_lease : PresenceLease;
  lf_sender_relay_id : bytes;
  lf_timestamp : Z;
  lf_sig : bytes;
}.

Record QueueFetch := mkQueueFetch {
  qf_user_ipk : bytes; qf_requester_relay_id : bytes; qf_timestamp : Z; qf_user_sig : bytes }.

Record QueueFetchAck := mkQueueFetchAck {
  qa_user_ipk : bytes;
  qa_requester_relay_id : bytes;
  qa_delivered_ids : list bytes;
  qa_timestamp : Z;
  qa_user_sig : bytes;
}.

(** ** Signing transcripts *)

Definition DHT_HELLO_SIG_DOMAIN : bytes := str "promtuz-dht-hello-v1".
Definition DHT_FORWARD_SIG_DOMAIN : bytes := str "promtuz-dht-forward-v1".
Definition DHT_PUSH_PSEUDONYM_SIG_DOMAIN : bytes := str "promtuz-dht-push-pseudonym-v1".
Definition DHT_LIVE_FORWARD_SIG_DOMAIN : bytes := str "promtuz-dht-live-forward-v1".
Definition PRESENCE_CONSENT_SIG_DOMAIN : bytes := str "promtuz-presence-consent-v1".
Definition PRESENCE_LEASE_SIG_DOMAIN : bytes := str "promtuz-presence-lease-v1".
Definition PRESENCE_STATE_SIG_DOMAIN : bytes := str "promtuz-presence-state-v1".
Definition DHT_QUEUE_FETCH_SIG_DOMAIN : bytes := str "promtuz-dht-queue-fetch-v1".
Definition DHT_QUEUE_FETCH_ACK_SIG_DOMAIN : bytes := str "promtuz-dht-queue-fetch-ack-v1".

Definition dht_hello_signing_input (node_id pubkey : bytes) (timestamp : Z)
    (binding : bytes) : bytes :=
  List.concat [DHT_HELLO_SIG_DOMAIN; be_bytes 2 PROTOCOL_VERSION; node_id; pubkey;
               be_bytes 8 timestamp; binding].

Definition push_pseudonym_signing_input (user_ipk pseudonym : bytes) (timestamp : Z) : bytes :=
  List.concat [DHT_PUSH_PSEUDONYM_SIG_DOMAIN; be_bytes 2 PROTOCOL_VERSION; user_ipk;
               pseudonym; be_bytes 8 timestamp].

Definition forward_signing_input (dispatch_id sender_relay_id : bytes) (timestamp : Z) : bytes :=
  List.concat [DHT_FORWARD_SIG_DOMAIN; be_bytes 2 PROTOCOL_VERSION; dispatch_id;
               sender_relay_id; be_bytes 8 timestamp].

Definition presence_consent_signing_input (owner recipient : bytes)
    (version issued_at_ms : Z) (granted : bool) : bytes :=
  List.concat [PRESENCE_CONSENT_SIG_DOMAIN; be_bytes 2 PROTOCOL_VERSION; owner; recipient;
               be_bytes 8 version; be_bytes 8 issued_at_ms; [Z.b2z granted]].

Definition presence_lease_signing_input (user relay_id : bytes)
    (version issued_at_ms expires_at_ms : Z) : bytes :=
  List.concat [PRESENCE_LEASE_SIG_DOMAIN; be_bytes 2 PROTOCOL_VERSION; user; relay_id;
               be_bytes 8 version; be_bytes 8 issued_at_ms; be_bytes 8 expires_at_ms].

(** The tag byte and timestamp of a state, shared with the stored row. *)
Definition presence_tag (s : PresenceState) : Z * Z :=
  match s with
  | Online => (0, 0)
  | Idle since => (1, since)
  | Offline last_seen => (2, last_seen)
  end.

Definition presence_state_signing_input (r : RelayPresenceState) : bytes :=
  let '(state, state_ts) := presence_tag (rp_state r) in
  List.concat [PRESENCE_STATE_SIG_DOMAIN; be_bytes 2 PROTOCOL_VERSION;
               rp_recipient r; rp_who r;
               le_user (rp_lease r); le_relay_id (rp_lease r);
               be_bytes 8 (le_version (rp_lease r));
               be_bytes 8 (le_issued_at_ms (rp_lease r));
               be_bytes 8 (le_expires_at_ms (rp_lease r));
               le_user_sig (rp_lease r);
               [state]; be_bytes 8 state_ts;
               be_bytes 8 (rp_version r); be_bytes 8 (rp_observed_at_ms r);
               rp_relay_pubkey r].

Definition live_forward_signing_input (dispatch_id : bytes) (lease : PresenceLease)
    (sender_relay_id : bytes) (timestamp : Z) : bytes :=
  List.concat [DHT_LIVE_FORWARD_SIG_DOMAIN; be_bytes 2 PROTOCOL_VERSION; dispatch_id;
               le_user lease; be_bytes 8 (le_version lease); le_relay_id lease;
               sender_relay_id; be_bytes 8 timestamp].

Definition queue_fetch_signing_input (user_ipk requester_relay_id : bytes)
    (timestamp : Z) : bytes :=
  List.concat [DHT_QUEUE_FETCH_SIG_DOMAIN; be_bytes 2 PROTOCOL_VERSION; user_ipk;
               requester_relay_id; be_bytes 8 timestamp].

(** [delivered_ids.len() as u32] keeps the low 32 bits. *)
Definition queue_fetch_ack_signing_input (user_ipk requester_relay_id : bytes)
    (delivered_ids : list bytes) (timestamp : Z) : bytes :=
  List.concat [DHT_QUEUE_FETCH_ACK_SIG_DOMAIN; be_bytes 2 PROTOCOL_VERSION; user_ipk;
               requester_relay_id; be_bytes 4 (len delivered_ids); List.concat delivered_ids;
               be_bytes 8 timestamp].

(** ** Checks *)

Inductive DhtHelloVerifyError := IdMismatch | MalformedPubkey | BadSignature | ClockSkew.
Inductive ForwardVerifyError :=
| BadDispatchSig | BadForwardSig | FwStaleTimestamp | FwFutureTimestamp | FwMalformedField.
Inductive QueueFetchVerifyError :=
| QfBadUserSig | QfStaleTimestamp | QfFutureTimestamp | QfMalformedField.
Inductive QueueFetchAckVerifyError :=
| QaBadUserSig | QaStaleTimestamp | QaFutureTimestamp | QaMalformedField | QaTooManyIds.

Section checks.
Context `{Crypto}.

(** [DhtHello::verify] *)
Definition hello_verify (h : DhtHello) (now_ms : Z) (binding : bytes)
    : result unit DhtHelloVerifyError :=
  if negb (bool_decide (NodeId_new (h_pubkey h) = h_node_id h)) then Err IdMismatch
  else if negb (vk_ok (h_pubkey h)) then Err MalformedPubkey
  else if negb (verify_strict (h_pubkey h)
                  (dht_hello_signing_input (h_node_id h) (h_pubkey h) (h_timestamp h) binding)
                  (h_sig h)) then Err BadSignature
  else if abs_diff now_ms (h_timestamp h) >? MAX_DHT_HELLO_SKEW_MS then Err ClockSkew
  else Ok tt.

(** [PresenceConsent::verify] *)
Definition consent_verify (c : PresenceConsent) (now_ms : Z) : bool :=
  if abs_diff now_ms (co_issued_at_ms c) >? PRESENCE_STATE_MAX_SKEW_MS then false
  else verify_ed25519 (co_owner c)
         (presence_consent_signing_input (co_owner c) (co_recipient c) (co_version c)
            (co_issued_at_ms c) (co_granted c)) (co_user_sig c).

(** [PresenceLease::verify] *)
Definition lease_verify (l : PresenceLease) (now_ms : Z) : bool :=
  if (le_expires_at_ms l <=? le_issued_at_ms l)
     || (le_expires_at_ms l - le_issued_at_ms l >? PRESENCE_LEASE_MAX_MS)
     || (now_ms >? le_expires_at_ms l)
     || (le_issued_at_ms l >? wrap_add now_ms PRESENCE_STATE_MAX_SKEW_MS)
  then false
  else verify_ed25519 (le_user l)
         (presence_lease_signing_input (le_user l) (le_relay_id l) (le_version l)
            (le_issued_at_ms l) (le_expires_at_ms l)) (le_user_sig l).

(** [RelayPresenceState::verify] *)
Definition relay_presence_verify (r : RelayPresenceState) (authenticated_relay : bytes)
    (now_ms : Z) : bool :=
  bool_decide (rp_who r = le_user (rp_lease r))
    && bool_decide (le_relay_id (rp_lease r) = authenticated_relay)
    && bool_decide (NodeId_new (rp_relay_pubkey r) = le_relay_id (rp_lease r))
    && lease_verify (rp_lease r) now_ms
    && (abs_diff now_ms (rp_observed_at_ms r) <=? PRESENCE_STATE_MAX_SKEW_MS)
    && verify_ed25519 (rp_relay_pubkey r) (presence_state_signing_input r) (rp_relay_sig r).

(** [Forward::verify] *)
Definition forward_verify (f : Forward) (sender_relay_pubkey : bytes) (now_ms : Z)
    : result unit ForwardVerifyError :=
  if negb (vk_ok sender_relay_pubkey) then Err FwMalformedField
  else if negb (verify_strict sender_relay_pubkey
                  (forward_signing_input (d_id (fw_dispatch f)) (fw_sender_relay_id f)
                     (fw_timestamp f)) (fw_sig f)) then Err BadForwardSig
  else if (now_ms >? fw_timestamp f) && (now_ms - fw_timestamp f >? MAX_DHT_HELLO_SKEW_MS)
    then Err FwStaleTimestamp
  else if (fw_timestamp f >? now_ms) && (fw_timestamp f - now_ms >? MAX_DHT_HELLO_SKEW_MS)
    then Err FwFutureTimestamp
  else Ok tt.

(** [QueueFetch::verify] *)
Definition queue_fetch_verify (q : QueueFetch) (now_ms : Z)
    : result unit QueueFetchVerifyError :=
  if negb (vk_ok (qf_user_ipk q)) then Err QfMalformedField
  else if negb (verify_strict (qf_user_ipk q)
                  (queue_fetch_signing_input (qf_user_ipk q) (qf_requester_relay_id q)
                     (qf_timestamp q)) (qf_user_sig q)) then Err QfBadUserSig
  else if (now_ms >? qf_timestamp q) && (now_ms - qf_timestamp q >? MAX_DHT_HELLO_SKEW_MS)
    then Err QfStaleTimestamp
  else if (qf_timestamp q >? now_ms) && (qf_timestamp q - now_ms >? MAX_DHT_HELLO_SKEW_MS)
    then Err QfFutureTimestamp
  else Ok tt.

(** [QueueFetchAck::verify] *)
Definition queue_fetch_ack_verify (q : QueueFetchAck) (now_ms : Z)
    : result unit QueueFetchAckVerifyError :=
  if (MAX_FETCH_QUEUE_ACK_IDS <? length (qa_delivered_ids q))%nat then Err QaTooManyIds
  else if negb (vk_ok (qa_user_ipk q)) then Err QaMalformedField
  else if negb (verify_strict (qa_user_ipk q)
                  (queue_fetch_ack_signing_input (qa_user_ipk q) (qa_requester_relay_id q)
                     (qa_delivered_ids q) (qa_timestamp q)) (qa_user_sig q))
    then Err QaBadUserSig
  else if (now_ms >? qa_timestamp q) && (now_ms - qa_timestamp q >? MAX_DHT_HELLO_SKEW_MS)
    then Err QaStaleTimestamp
  else if (qa_timestamp q >? now_ms) && (qa_timestamp q - now_ms >? MAX_DHT_HELLO_SKEW_MS)
    then Err QaFutureTimestamp
  else Ok tt.

Definition ACTIVITY_MAX_SKEW_MS : Z := 30000.

(** [verify_dispatch_user_sig] of [relay/src/dht/forward.rs] *)
Definition verify_dispatch_user_sig (d : DispatchP) : bool :=
  verify_versioned (d_from d) (d_sig d)
    (λ v, dispatch_sig_message v (d_to d) (d_from d) (d_id d) (d_payload d)).

(** [activity_is_authentic] of [relay/src/dht/forward.rs] *)
Definition activity_is_authentic (a : ActivityP) (now_ms : Z) : bool :=
  if abs_diff now_ms (ac_timestamp a) >? ACTIVITY_MAX_SKEW_MS then false
  else verify_ed25519 (ac_from a)
         (activity_sig_message (ac_to a) (ac_from a) (ac_group_id a) (ac_activity a)
            (ac_timestamp a)) (ac_sig a).

(** [valid_publish] of [relay/src/dht/push_replication.rs] *)
Definition valid_publish (p : PushPseudonymPublish) (now_ms : Z) : bool :=
  if abs_diff now_ms (pp_timestamp p) >? MAX_DHT_HELLO_SKEW_MS then false
  else verify_ed25519 (pp_user_ipk p)
         (push_pseudonym_signing_input (pp_user_ipk p) (pp_pseudonym p) (pp_timestamp p))
         (pp_user_sig p).
End checks.
