(* ===== verification/MlsWire.v ===== *)
(** * MlsWire: the MLS records relays hold, and their signing transcripts

    [common/src/proto/mls_wire.rs].  A relay never opens an MLS message: it sees
    KeyPackage records, Welcome envelopes and the requests that publish, fetch and
    acknowledge them.  [MLS_WIRE_VERSION] is a separate number from the relay
    protocol's version. *)

From S2P Require Import Prelude Bytes Crypto Proto.

Definition MLS_WIRE_VERSION : Z := 12.

Definition MAX_WELCOME_BYTES : Z := 256 * 1024.
Definition KP_STASH_TARGET : nat := 100.
Definition MAX_KP_FETCH_PER_HOUR : Z := 60.
Definition MAX_KP_SKEW_MS : Z := 60000.
Definition KEYPACKAGE_LIFETIME_MS : Z := 30 * 24 * 3600000.
Definition MAX_WELCOMES_PER_RECIPIENT : nat := 32.
Definition WELCOME_LIFETIME_MS : Z := 30 * 24 * 3600000.
Definition MAX_WELCOME_ACK_IDS : nat := MAX_WELCOMES_PER_RECIPIENT.
Definition WELCOME_ID_LEN : nat := 8.

(** ** Records and requests *)

Record KeyPackageRecord := mkKp {
  kp_ipk : bytes;
  kp_ref : bytes;
  kp_bytes : bytes;
  kp_expires_at_ms : Z;
  kp_owner_sig : bytes;
}.

#[global] Instance KeyPackageRecord_eq_dec : EqDecision KeyPackageRecord.
Proof. solve_decision. Defined.

Record KeyPackagePublishReq := mkKpPublish {
  kpp_ipk : bytes;
  kpp_records : list KeyPackageRecord;
  kpp_timestamp : Z;
  kpp_sig : bytes;
}.

Inductive KeyPackagePublishOutcome :=
| KpStored | KpBadSig | KpExpired | KpNotOwner | KpRateLimited | KpTooMany
| KpStaticFieldsConflict | KpUnavailable.

#[global] Instance KeyPackagePublishOutcome_eq_dec : EqDecision KeyPackagePublishOutcome.
Proof. solve_decision. Defined.

Record KeyPackageFetchReq := mkKpFetch {
  kpf_target_ipk : bytes; kpf_requester_relay_id : bytes; kpf_timestamp : Z }.

Record KeyPackageFetchFound := mkKpFound {
  kff_record : KeyPackageRecord; kff_remaining : Z; kff_static_hash : bytes }.

Inductive KeyPackageFetchOutcome :=
| KfFound (f : KeyPackageFetchFound) | KfNoStash | KfNotOwner | KfRateLimited | KfUnavailable.

Record Invite := mkInvite { inv_id : bytes; inv_expiry_ms : Z; inv_sig : bytes }.

Record PairingP := mkPairing { pa_invite : Invite; pa_sender_name : bytes }.

Record WelcomeEnvelopeP := mkWelcome {
  we_version : Z;
  we_group_id : bytes;
  we_sender_ipk : bytes;
  we_recipient_ipk : bytes;
  we_welcome_blob : bytes;
  we_kp_ref_used : bytes;
  we_sender_sig : bytes;
  we_pairing : option PairingP;
}.

#[global] Instance Invite_eq_dec : EqDecision Invite.
Proof. solve_decision. Defined.
#[global] Instance PairingP_eq_dec : EqDecision PairingP.
Proof. solve_decision. Defined.
#[global] Instance WelcomeEnvelopeP_eq_dec : EqDecision WelcomeEnvelopeP.
Proof. solve_decision. Defined.

Record WelcomePublishReq := mkWPublish { wp_envelope : WelcomeEnvelopeP; wp_timestamp : Z }.

Inductive WelcomePublishOutcome :=
| WpStored | WpBadSig | WpStaleTimestamp | WpNotOwner | WpQueueFull | WpRateLimited.

#[global] Instance WelcomePublishOutcome_eq_dec : EqDecision WelcomePublishOutcome.
Proof. solve_decision. Defined.

Record WelcomeFetchReq := mkWFetch {
  wf_user_ipk : bytes; wf_requester_relay_id : bytes; wf_timestamp : Z; wf_user_sig : bytes }.

Record WelcomeEntry := mkWEntry { wen_welcome_id : bytes; wen_envelope : WelcomeEnvelopeP }.

Inductive WelcomeFetchOutcome :=
| WfFound (welcomes : list WelcomeEntry) | WfBadSig | WfNotOwner | WfRateLimited.

Record WelcomeAckReq := mkWAck {
  wa_user_ipk : bytes;
  wa_requester_relay_id : bytes;
  wa_welcome_ids : list bytes;
  wa_timestamp : Z;
  wa_user_sig : bytes;
}.

(** ** Signing transcripts *)

Definition MLS_ENVELOPE_SIG_DOMAIN : bytes := str "promtuz-mls-v1 envelope".
Definition WELCOME_ENVELOPE_SIG_DOMAIN : bytes := str "promtuz-mls-v1 welcome-envelope".
Definition INVITE_SIG_DOMAIN : bytes := str "promtuz-mls-v1 invite".
Definition KP_PUBLISH_DOMAIN : bytes := str "promtuz-mls-v1 kp-publish".
Definition KP_RECORD_DOMAIN : bytes := str "promtuz-mls-v1 kp-record".
Definition WELCOME_FETCH_DOMAIN : bytes := str "promtuz-mls-v1 welcome-fetch".
Definition WELCOME_ACK_DOMAIN : bytes := str "promtuz-mls-v1 welcome-ack".
Definition KP_FETCH_WRAP_DOMAIN : bytes := str "promtuz-mls-v1 kp-fetch-wrap".
Definition WELCOME_PUBLISH_WRAP_DOMAIN : bytes := str "promtuz-mls-v1 welcome-publish-wrap".
Definition PAIR_DECLINE_SIG_DOMAIN : bytes := str "promtuz-pair-decline-v1".

Definition pair_decline_signing_input (sender_ipk recipient_ipk : bytes)
    (reason timestamp : Z) : bytes :=
  List.concat [PAIR_DECLINE_SIG_DOMAIN; be_bytes 2 MLS_WIRE_VERSION; sender_ipk;
               recipient_ipk; [reason]; be_bytes 8 timestamp].

Definition invite_signing_input (protocol_version : Z) (id : bytes) (expiry_ms : Z) : bytes :=
  List.concat [INVITE_SIG_DOMAIN; be_bytes 2 protocol_version; id; be_bytes 8 expiry_ms].

Definition group_migration_signing_input (group branch : bytes) : bytes :=
  List.concat [str "promtuz legacy group migration v1"; group; branch].

Definition kp_publish_signing_input (protocol_version : Z) (ipk records_digest : bytes)
    (record_count timestamp : Z) : bytes :=
  List.concat [KP_PUBLISH_DOMAIN; be_bytes 2 protocol_version; ipk; be_bytes 4 record_count;
               records_digest; be_bytes 8 timestamp].

Definition welcome_fetch_signing_input (protocol_version : Z) (user_ipk requester_relay_id : bytes)
    (timestamp : Z) : bytes :=
  List.concat [WELCOME_FETCH_DOMAIN; be_bytes 2 protocol_version; user_ipk;
               requester_relay_id; be_bytes 8 timestamp].

Definition kp_fetch_wrap_signing_input (protocol_version : Z) (sender_ipk target_ipk : bytes)
    (timestamp : Z) : bytes :=
  List.concat [KP_FETCH_WRAP_DOMAIN; be_bytes 2 protocol_version; sender_ipk; target_ipk;
               be_bytes 8 timestamp].

Section hashed.
Context `{Crypto}.

Definition envelope_signing_input (protocol_version : Z) (to_ipk group_id : bytes) (epoch : Z)
    (mls_message_bytes : bytes) : bytes :=
  List.concat [MLS_ENVELOPE_SIG_DOMAIN; be_bytes 2 protocol_version; to_ipk; group_id;
               be_bytes 8 epoch; blake3 mls_message_bytes].

Definition group_envelope_signing_input (version : Z) (to group : bytes) (epoch : Z)
    (branch ciphertext : bytes) : bytes :=
  List.concat [str "promtuz group envelope v1"; branch;
               envelope_signing_input version to group epoch ciphertext].

Definition welcome_envelope_signing_input (protocol_version : Z)
    (group_id sender_ipk recipient_ipk kp_ref_used welcome_blob : bytes) : bytes :=
  List.concat [WELCOME_ENVELOPE_SIG_DOMAIN; be_bytes 2 protocol_version; group_id; sender_ipk;
               recipient_ipk; kp_ref_used; blake3 welcome_blob].

(** [key_package_stash_prefix]: the hash of ["kp:"] and the key, fed in two parts. *)
Definition key_package_stash_prefix (ipk : bytes) : bytes := blake3 (str "kp:" ++ ipk).

(** [kp_ref.len() as u32] keeps the low 32 bits. *)
Definition kp_record_signing_input (protocol_version : Z) (ipk kp_ref kp_bytes : bytes)
    (expires_at_ms : Z) : bytes :=
  List.concat [KP_RECORD_DOMAIN; be_bytes 2 protocol_version; ipk; be_bytes 4 (len kp_ref);
               kp_ref; blake3 kp_bytes; be_bytes 8 expires_at_ms].

(** [kp_publish_records_digest]: the hash of the records' signing inputs, fed one
    after the other. *)
Definition kp_publish_records_digest (protocol_version : Z) (records : list KeyPackageRecord)
    : bytes :=
  blake3 (List.concat (map (λ r, kp_record_signing_input protocol_version (kp_ipk r) (kp_ref r)
                                   (kp_bytes r) (kp_expires_at_ms r)) records)).

Definition welcome_ack_signing_input (protocol_version : Z) (user_ipk requester_relay_id : bytes)
    (welcome_ids : list bytes) (timestamp : Z) : bytes :=
  List.concat [WELCOME_ACK_DOMAIN; be_bytes 2 protocol_version; user_ipk; requester_relay_id;
               be_bytes 4 (len welcome_ids); blake3 (List.concat welcome_ids);
               be_bytes 8 timestamp].

Definition welcome_publish_wrap_signing_input (protocol_version : Z) (sender_ipk welcome_blob : bytes)
    (timestamp : Z) : bytes :=
  List.concat [WELCOME_PUBLISH_WRAP_DOMAIN; be_bytes 2 protocol_version; sender_ipk;
               blake3 welcome_blob; be_bytes 8 timestamp].
End hashed.
