(* ===== verification/Transcripts.v ===== *)
(** * Transcripts: what an Ed25519 signature of this system can mean

    Every statement a user or a relay signs ([common/src/proto/client_rel.rs],
    [dht_p2p.rs], [mls_wire.rs]) is rendered to bytes by a signing-input function.
    One identity key signs statements of several kinds, so the renderings must not
    collide: equal bytes must be the same statement. *)

From S2P Require Import Prelude Bytes Crypto Proto MlsWire.

(** The statements signed in the system, one constructor per signing-input function;
    a blob that is hashed into its transcript is carried whole. *)
Inductive statement :=
| SClientAuth (nonce binding : bytes)
| SDispatch (version : Z) (to from id payload : bytes)
| SActivity (to from group_id : bytes) (activity timestamp : Z)
| SHello (node_id pubkey : bytes) (timestamp : Z) (binding : bytes)
| SPushPseudonym (user_ipk pseudonym : bytes) (timestamp : Z)
| SForward (dispatch_id sender_relay_id : bytes) (timestamp : Z)
| SConsent (owner recipient : bytes) (version issued_at_ms : Z) (granted : bool)
| SLease (user relay_id : bytes) (version issued_at_ms expires_at_ms : Z)
| SPresenceState (r : RelayPresenceState)
| SLiveForward (dispatch_id : bytes) (lease : PresenceLease) (sender : bytes) (timestamp : Z)
| SQueueFetch (user_ipk requester : bytes) (timestamp : Z)
| SQueueFetchAck (user_ipk requester : bytes) (ids : list bytes) (timestamp : Z)
| SPairDecline (sender recipient : bytes) (reason timestamp : Z)
| SInvite (version : Z) (id : bytes) (expiry_ms : Z)
| SGroupMigration (group branch : bytes)
| SKpPublish (version : Z) (ipk digest : bytes) (count timestamp : Z)
| SWelcomeFetch (version : Z) (user_ipk requester : bytes) (timestamp : Z)
| SKpFetchWrap (version : Z) (sender target : bytes) (timestamp : Z)
| SEnvelope (version : Z) (to group : bytes) (epoch : Z) (message : bytes)
| SGroupEnvelope (version : Z) (to group : bytes) (epoch : Z) (branch message : bytes)
| SWelcomeEnvelope (version : Z) (group sender recipient kp_ref blob : bytes)
| SKpRecord (version : Z) (ipk kp_ref kp_bytes : bytes) (expires_at_ms : Z)
| SWelcomeAck (version : Z) (user_ipk requester : bytes) (ids : list bytes) (timestamp : Z)
| SWelcomePublishWrap (version : Z) (sender blob : bytes) (timestamp : Z).

Section transcripts.
Context `{Crypto}.

(** The bytes that are signed. *)
Definition transcript (s : statement) : bytes :=
  match s with
  | SClientAuth nonce binding => client_auth_message nonce binding
  | SDispatch v to from id payload => dispatch_sig_message v to from id payload
  | SActivity to from g a ts => activity_sig_message to from g a ts
  | SHello n pk ts b => dht_hello_signing_input n pk ts b
  | SPushPseudonym u p ts => push_pseudonym_signing_input u p ts
  | SForward d r ts => forward_signing_input d r ts
  | SConsent o r v i g => presence_consent_signing_input o r v i g
  | SLease u r v i e => presence_lease_signing_input u r v i e
  | SPresenceState r => presence_state_signing_input r
  | SLiveForward d l r ts => live_forward_signing_input d l r ts
  | SQueueFetch u r ts => queue_fetch_signing_input u r ts
  | SQueueFetchAck u r ids ts => queue_fetch_ack_signing_input u r ids ts
  | SPairDecline s r reason ts => pair_decline_signing_input s r reason ts
  | SInvite v id e => invite_signing_input v id e
  | SGroupMigration g b => group_migration_signing_input g b
  | SKpPublish v ipk d c ts => kp_publish_signing_input v ipk d c ts
  | SWelcomeFetch v u r ts => welcome_fetch_signing_input v u r ts
  | SKpFetchWrap v s t ts => kp_fetch_wrap_signing_input v s t ts
  | SEnvelope v to g e m => envelope_signing_input v to g e m
  | SGroupEnvelope v to g e b m => group_envelope_signing_input v to g e b m
  | SWelcomeEnvelope v g s r k b => welcome_envelope_signing_input v g s r k b
  | SKpRecord v ipk k b e => kp_record_signing_input v ipk k b e
  | SWelcomeAck v u r ids ts => welcome_ack_signing_input v u r ids ts
  | SWelcomePublishWrap v s b ts => welcome_publish_wrap_signing_input v s b ts
  end.

(** ** Typed statements *)

(** An integer that fits [n] bytes. *)
Definition fits (n : nat) (x : Z) : Prop := 0 <= x < 256 ^ Z.of_nat n.

#[global] Instance fits_dec n x : Decision (fits n x).
Proof. unfold fits. apply _. Defined.

Definition arr (n : nat) (l : bytes) : Prop := length l = n.

#[global] Instance arr_dec n l : Decision (arr n l).
Proof. unfold arr. apply _. Defined.

Definition lease_typed (l : PresenceLease) : Prop :=
  arr 32 (le_user l) ∧ arr 32 (le_relay_id l) ∧ fits 8 (le_version l) ∧
  fits 8 (le_issued_at_ms l) ∧ fits 8 (le_expires_at_ms l) ∧ arr 64 (le_user_sig l).

Definition state_typed (s : PresenceState) : Prop := fits 8 (presence_tag s).2.

(** The fields have the widths of their Rust types; a list whose length is written
    in four bytes has a length that fits. *)
Definition typed (s : statement) : Prop :=
  match s with
  | SClientAuth n b => arr 32 n ∧ arr 32 b
  | SDispatch v to from id _ => fits 2 v ∧ arr 32 to ∧ arr 32 from ∧ arr 16 id
  | SActivity to from g a ts => arr 32 to ∧ arr 32 from ∧ arr 32 g ∧ fits 2 a ∧ fits 8 ts
  | SHello n pk ts b => arr 32 n ∧ arr 32 pk ∧ fits 8 ts ∧ arr 32 b
  | SPushPseudonym u p ts => arr 32 u ∧ arr 32 p ∧ fits 8 ts
  | SForward d r ts => arr 16 d ∧ arr 32 r ∧ fits 8 ts
  | SConsent o r v i _ => arr 32 o ∧ arr 32 r ∧ fits 8 v ∧ fits 8 i
  | SLease u r v i e => arr 32 u ∧ arr 32 r ∧ fits 8 v ∧ fits 8 i ∧ fits 8 e
  | SPresenceState r =>
      arr 32 (rp_recipient r) ∧ arr 32 (rp_who r) ∧ lease_typed (rp_lease r) ∧
      state_typed (rp_state r) ∧ fits 8 (rp_version r) ∧ fits 8 (rp_observed_at_ms r) ∧
      arr 32 (rp_relay_pubkey r)
  | SLiveForward d l r ts => arr 16 d ∧ lease_typed l ∧ arr 32 r ∧ fits 8 ts
  | SQueueFetch u r ts => arr 32 u ∧ arr 32 r ∧ fits 8 ts
  | SQueueFetchAck u r ids ts =>
      arr 32 u ∧ arr 32 r ∧ Forall (arr 16) ids ∧ fits 4 (len ids) ∧ fits 8 ts
  | SPairDecline s r reason ts => arr 32 s ∧ arr 32 r ∧ fits 1 reason ∧ fits 8 ts
  | SInvite v id e => fits 2 v ∧ arr 16 id ∧ fits 8 e
  | SGroupMigration g b => arr 32 g ∧ arr 32 b
  | SKpPublish v ipk d c ts => fits 2 v ∧ arr 32 ipk ∧ arr 32 d ∧ fits 4 c ∧ fits 8 ts
  | SWelcomeFetch v u r ts => fits 2 v ∧ arr 32 u ∧ arr 32 r ∧ fits 8 ts
  | SKpFetchWrap v s t ts => fits 2 v ∧ arr 32 s ∧ arr 32 t ∧ fits 8 ts
  | SEnvelope v to g e _ => fits 2 v ∧ arr 32 to ∧ arr 32 g ∧ fits 8 e
  | SGroupEnvelope v to g e b _ => fits 2 v ∧ arr 32 to ∧ arr 32 g ∧ fits 8 e ∧ arr 32 b
  | SWelcomeEnvelope v g s r k _ => fits 2 v ∧ arr 32 g ∧ arr 32 s ∧ arr 32 r ∧ arr 32 k
  | SKpRecord v ipk k _ e => fits 2 v ∧ arr 32 ipk ∧ fits 4 (len k) ∧ fits 8 e
  | SWelcomeAck v u r ids ts => fits 2 v ∧ arr 32 u ∧ arr 32 r ∧ fits 4 (len ids) ∧ fits 8 ts
  | SWelcomePublishWrap v s _ ts => fits 2 v ∧ arr 32 s ∧ fits 8 ts
  end.

#[global] Instance typed_dec s : Decision (typed s).
Proof. destruct s; cbn; unfold lease_typed, state_typed; apply _. Defined.

(** What a signature binds: a hashed blob by its digest, and nothing of the fields a
    signing input leaves out (the relay's own signature on a presence record, the
    dates and the signature of the lease a live forward names). *)
Definition bound_part (s : statement) : statement :=
  match s with
  | SPresenceState r =>
      SPresenceState (mkRelayPresence (rp_recipient r) (rp_who r) (rp_lease r) (rp_state r)
                        (rp_version r) (rp_observed_at_ms r) (rp_relay_pubkey r) [])
  | SLiveForward d l r ts =>
      SLiveForward d (mkLease (le_user l) (le_relay_id l) (le_version l) 0 0 []) r ts
  | SEnvelope v to g e m => SEnvelope v to g e (blake3 m)
  | SGroupEnvelope v to g e b m => SGroupEnvelope v to g e b (blake3 m)
  | SWelcomeEnvelope v g s r k b => SWelcomeEnvelope v g s r k (blake3 b)
  | SKpRecord v ipk k b e => SKpRecord v ipk k (blake3 b) e
  | SWelcomeAck v u r ids ts =>
      SWelcomeAck v u r [be_bytes 4 (len ids); blake3 (List.concat ids)] ts
  | SWelcomePublishWrap v s b ts => SWelcomePublishWrap v s (blake3 b) ts
  | _ => s
  end.

(** ** Domains are prefix-free *)

Definition domains : list bytes :=
  [ str "relay-auth-v"; DISPATCH_SIG_DOMAIN; ACTIVITY_SIG_DOMAIN; DHT_HELLO_SIG_DOMAIN;
    DHT_PUSH_PSEUDONYM_SIG_DOMAIN; DHT_FORWARD_SIG_DOMAIN; PRESENCE_CONSENT_SIG_DOMAIN;
    PRESENCE_LEASE_SIG_DOMAIN; PRESENCE_STATE_SIG_DOMAIN; DHT_LIVE_FORWARD_SIG_DOMAIN;
    DHT_QUEUE_FETCH_SIG_DOMAIN; DHT_QUEUE_FETCH_ACK_SIG_DOMAIN; PAIR_DECLINE_SIG_DOMAIN;
    INVITE_SIG_DOMAIN; str "promtuz legacy group migration v1"; KP_PUBLISH_DOMAIN;
    WELCOME_FETCH_DOMAIN; KP_FETCH_WRAP_DOMAIN; MLS_ENVELOPE_SIG_DOMAIN;
    str "promtuz group envelope v1"; WELCOME_ENVELOPE_SIG_DOMAIN; KP_RECORD_DOMAIN;
    WELCOME_ACK_DOMAIN; WELCOME_PUBLISH_WRAP_DOMAIN ].

Definition kind (s : statement) : nat :=
  match s with
  | SClientAuth _ _ => 0 | SDispatch _ _ _ _ _ => 1 | SActivity _ _ _ _ _ => 2
  | SHello _ _ _ _ => 3 | SPushPseudonym _ _ _ => 4 | SForward _ _ _ => 5
  | SConsent _ _ _ _ _ => 6 | SLease _ _ _ _ _ => 7 | SPresenceState _ => 8
  | SLiveForward _ _ _ _ => 9 | SQueueFetch _ _ _ => 10 | SQueueFetchAck _ _ _ _ => 11
  | SPairDecline _ _ _ _ => 12 | SInvite _ _ _ => 13 | SGroupMigration _ _ => 14
  | SKpPublish _ _ _ _ _ => 15 | SWelcomeFetch _ _ _ _ => 16 | SKpFetchWrap _ _ _ _ => 17
  | SEnvelope _ _ _ _ _ => 18 | SGroupEnvelope _ _ _ _ _ _ => 19
  | SWelcomeEnvelope _ _ _ _ _ _ => 20 | SKpRecord _ _ _ _ _ => 21
  | SWelcomeAck _ _ _ _ _ => 22 | SWelcomePublishWrap _ _ _ _ => 23
  end%nat.

Lemma domains_prefix_free :
  Forall (λ d1, Forall (λ d2, d1 `prefix_of` d2 → d1 = d2) domains) domains.
Proof. by_eval. Qed.

Lemma domains_NoDup : NoDup domains.
Proof. by_eval. Qed.

Lemma transcript_domain s :
  ∃ d rest, domains !! kind s = Some d ∧ transcript s = d ++ rest.
Proof.
  destruct s as [| | | | | | | |[? ? ? st ? ? ? ?]| | | | | | | | | | | | | | |]; cbn -[List.concat];
    try (destruct st); do 2 eexists; (split; [reflexivity|]); reflexivity.
Qed.

Lemma app_prefix_cases (a b c d : bytes) : a ++ c = b ++ d → a `prefix_of` b ∨ b `prefix_of` a.
Proof.
  intros E. destruct (decide (length a <= length b)%nat) as [Hle|Hle].
  - left. apply (f_equal (take (length a))) in E. rewrite take_app_length in E.
    rewrite take_app_le in E by done. rewrite E. apply prefix_take.
  - right. apply (f_equal (take (length b))) in E. rewrite take_app_length in E.
    rewrite take_app_le in E by lia. rewrite <- E. apply prefix_take.
Qed.

(** Statements of different kinds never share a transcript. *)
Lemma transcript_kind s1 s2 : transcript s1 = transcript s2 → kind s1 = kind s2.
Proof.
  intros E. destruct (transcript_domain s1) as (d1 & r1 & H1 & E1).
  destruct (transcript_domain s2) as (d2 & r2 & H2 & E2). rewrite E1, E2 in E.
  pose proof domains_prefix_free as Hpf. rewrite Forall_forall in Hpf.
  pose proof (list_elem_of_lookup_2 _ _ _ H1) as Hd1.
  pose proof (list_elem_of_lookup_2 _ _ _ H2) as Hd2.
  pose proof (Hpf d1 Hd1) as Hpf1. pose proof (Hpf d2 Hd2) as Hpf2.
  rewrite Forall_forall in Hpf1, Hpf2.
  assert (d1 = d2) as <-.
  { destruct (app_prefix_cases _ _ _ _ E); [by apply Hpf1|symmetry; by apply Hpf2]. }
  by eapply NoDup_lookup; [apply domains_NoDup|..].
Qed.

(** ** Fields *)

Lemma length_blake3 m : length (blake3 m) = 32%nat.
Proof. apply wf_arr_length, blake3_wf. Qed.

(** Splits an equality of concatenated fields of equal widths. *)
Ltac solve_width :=
  unfold arr in *; rewrite ?length_be_bytes, ?length_blake3; cbn [length];
  solve [reflexivity|congruence].
Ltac peel E :=
  repeat match type of E with
  | _ ++ _ = _ ++ _ =>
      let F := fresh "F" in apply app_inj_1 in E as [F E]; [|solve_width]
  end.

Lemma be_bytes_fits n x y : fits n x → fits n y → be_bytes n x = be_bytes n y → x = y.
Proof. apply be_bytes_inj. Qed.

Ltac unify_fields :=
  repeat match goal with
  | H : be_bytes ?n ?x = be_bytes ?n ?y, Hx : fits ?n ?x, Hy : fits ?n ?y |- _ =>
      apply (be_bytes_fits _ _ _ Hx Hy) in H
  end.

Lemma presence_tag_inj s1 s2 :
  (presence_tag s1).1 = (presence_tag s2).1 → (presence_tag s1).2 = (presence_tag s2).2 → s1 = s2.
Proof. destruct s1, s2; cbn; congruence. Qed.

(** Same-width lists are determined by their concatenation. *)
Lemma concat_inj n (l1 l2 : list bytes) :
  (0 < n)%nat → Forall (arr n) l1 → Forall (arr n) l2 →
  List.concat l1 = List.concat l2 → l1 = l2.
Proof.
  intros Hn H1. revert l2. induction H1 as [|x l1 Hx H1 IH]; intros l2 H2 E.
  - destruct H2 as [|y l2 Hy _]; [done|]. unfold arr in Hy. destruct y; cbn in *; [lia|done].
  - destruct H2 as [|y l2 Hy H2]; [unfold arr in Hx; destruct x; cbn in *; [lia|done]|].
    cbn in E. unfold arr in *. apply app_inj_1 in E as [-> E]; [|congruence]. f_equal. auto.
Qed.

Lemma length_concat_arr n (l : list bytes) :
  Forall (arr n) l → length (List.concat l) = (n * length l)%nat.
Proof.
  induction 1 as [|x l Hx _ IH]; cbn; [lia|]. rewrite length_app, IH, Hx. lia.
Qed.

Lemma presence_state_binds r1 r2 :
  typed (SPresenceState r1) → typed (SPresenceState r2) →
  presence_state_signing_input r1 = presence_state_signing_input r2 →
  bound_part (SPresenceState r1) = bound_part (SPresenceState r2).
Proof.
  destruct r1 as [rc1 w1 [u1 rl1 v1 i1 e1 s1] st1 ver1 ob1 pk1 sg1].
  destruct r2 as [rc2 w2 [u2 rl2 v2 i2 e2 s2] st2 ver2 ob2 pk2 sg2].
  cbn. unfold lease_typed, state_typed. cbn. intros T1 T2. destruct_and!.
  unfold presence_state_signing_input.
  cbn [List.concat rp_recipient rp_who rp_lease rp_state rp_version rp_observed_at_ms
       rp_relay_pubkey le_user le_relay_id le_version le_issued_at_ms le_expires_at_ms le_user_sig].
  destruct (presence_tag st1) as [tag1 ts1] eqn:E1, (presence_tag st2) as [tag2 ts2] eqn:E2.
  cbn [snd] in *. intros E. rewrite !app_nil_r in E. peel E. unify_fields.
  assert (st1 = st2) by (apply presence_tag_inj; rewrite E1, E2; cbn; congruence).
  congruence.
Qed.

Lemma queue_fetch_ack_binds u1 r1 ids1 ts1 u2 r2 ids2 ts2 :
  typed (SQueueFetchAck u1 r1 ids1 ts1) → typed (SQueueFetchAck u2 r2 ids2 ts2) →
  queue_fetch_ack_signing_input u1 r1 ids1 ts1 = queue_fetch_ack_signing_input u2 r2 ids2 ts2 →
  SQueueFetchAck u1 r1 ids1 ts1 = SQueueFetchAck u2 r2 ids2 ts2.
Proof.
  cbn. intros T1 T2 E. destruct_and!. unfold queue_fetch_ack_signing_input in E. cbn [List.concat] in E.
  rewrite !app_nil_r in E. do 5 (apply app_inj_1 in E as [?F E]; [|solve_width]). unify_fields.
  apply app_inj_2 in E as [E ?]; [|solve_width].
  apply (concat_inj 16) in E; [|lia|done..]. unify_fields. congruence.
Qed.

Lemma kp_record_binds v1 i1 k1 b1 e1 v2 i2 k2 b2 e2 :
  typed (SKpRecord v1 i1 k1 b1 e1) → typed (SKpRecord v2 i2 k2 b2 e2) →
  kp_record_signing_input v1 i1 k1 b1 e1 = kp_record_signing_input v2 i2 k2 b2 e2 →
  bound_part (SKpRecord v1 i1 k1 b1 e1) = bound_part (SKpRecord v2 i2 k2 b2 e2).
Proof.
  cbn. intros T1 T2 E. destruct_and!. unfold kp_record_signing_input in E. cbn [List.concat] in E.
  rewrite !app_nil_r in E. do 4 (apply app_inj_1 in E as [?F E]; [|solve_width]). unify_fields.
  assert (length k1 = length k2) by (unfold len in *; lia).
  peel E. unify_fields. congruence.
Qed.

Ltac unfold_inputs E :=
  unfold client_auth_message, dispatch_sig_message, activity_sig_message,
    dht_hello_signing_input, push_pseudonym_signing_input, forward_signing_input,
    presence_consent_signing_input, presence_lease_signing_input, live_forward_signing_input,
    queue_fetch_signing_input, pair_decline_signing_input, invite_signing_input,
    group_migration_signing_input, kp_publish_signing_input, welcome_fetch_signing_input,
    kp_fetch_wrap_signing_input, group_envelope_signing_input, envelope_signing_input,
    welcome_envelope_signing_input, welcome_ack_signing_input,
    welcome_publish_wrap_signing_input in E.

Lemma consent_granted_inj (g1 g2 : bool) : [Z.b2z g1] = [Z.b2z g2] → g1 = g2.
Proof. by destruct g1, g2. Qed.

(** ** Theorem *)

End transcripts.

Import Toy.

(** A live forward names a lease by its user, version and relay only: renewing the
    dates keeps the transcript, and the theorem says the bound parts agree. *)
Definition example_lease (expires : Z) : PresenceLease :=
  mkLease (replicate 32 1) (replicate 32 2) 7 1000 expires (replicate 64 0).

