(* ===== verification/Keyspace.v ===== *)
(** * Keyspace: the fjall store and the postcard codec, as interfaces

    The relay keeps its rows in keyspaces of the [fjall] crate and encodes values
    with the [postcard] crate.  Neither is part of the repository: a [Keyspace] and
    a [Codec] give the operations the sources call and the documented behaviour they
    rely on.  Every read and write can fail; a scan can fail at any row.  [Mem] and
    the codecs of [ToyCodec] are concrete instances to evaluate with. *)

From S2P Require Import Prelude Bytes.

(** ** Rows in key order *)

Abbreviation row := (bytes * bytes)%type.

Definition row_le (a b : row) : Prop := bytes_le a.1 b.1.

#[global] Instance row_le_dec : RelDecision row_le.
Proof. intros a b. unfold row_le. apply _. Defined.
#[global] Instance row_le_total : Total row_le.
Proof. intros a b. apply (total bytes_le). Qed.
#[global] Instance row_le_trans : Transitive row_le.
Proof. intros a b c. unfold row_le. apply transitivity. Qed.

Definition rows_where (P : bytes → Prop) `{!∀ k, Decision (P k)} (m : gmap bytes bytes)
    : list row :=
  merge_sort row_le (filter (λ r, P r.1) (map_to_list m)).

(** The rows whose key starts with [p], in lexicographic key order. *)
Definition prefix_rows (p : bytes) (m : gmap bytes bytes) : list row :=
  rows_where (λ k, p `prefix_of` k) m.

(** [Bound::Excluded(c)], or [Bound::Unbounded]. *)
Definition after (cursor : option bytes) (k : bytes) : Prop :=
  match cursor with Some c => bytes_lt c k | None => True end.

#[global] Instance after_dec c k : Decision (after c k).
Proof. destruct c; cbn; apply _. Defined.

(** The rows after [cursor], in order. *)
Definition rows_after (cursor : option bytes) (m : gmap bytes bytes) : list row :=
  rows_where (after cursor) m.

(** ** Scans *)

(** A fjall iterator: each guard gives a row or an error. *)
Abbreviation scan := (list (option row)).

(** The rows before the first error. *)
Fixpoint ok_rows (s : scan) : list row :=
  match s with
  | Some r :: s' => r :: ok_rows s'
  | _ => []
  end.

(** [s] is a possible scan of [rows]: it follows them in order up to the first error,
    it has them all when there is none, and it never invents a row. *)
Record scan_of (s : scan) (rows : list row) : Prop := {
  so_prefix : ok_rows s `prefix_of` rows;
  so_complete : None ∉ s → s = Some <$> rows;
  so_rows : ∀ r, Some r ∈ s → r ∈ rows;
}.

(** ** Keyspaces *)

(** One operation of a write batch, on the first or the second keyspace. *)
Inductive batch_op :=
| BInsert (second : bool) (k v : bytes)
| BRemove (second : bool) (k : bytes).

Class Keyspace (KS : Type) := {
  (** [get], [None] on an error. *)
  ks_get : KS → bytes → option (option bytes);
  (** [insert] and [remove], [None] on an error. *)
  ks_insert : KS → bytes → bytes → option KS;
  ks_remove : KS → bytes → option KS;
  (** [prefix(p)], [iter()] and [range((start, Unbounded))]. *)
  ks_prefix : KS → bytes → scan;
  ks_range : KS → option bytes → scan;
  (** [approximate_len] *)
  ks_approx_len : KS → Z;
  (** [Batch::commit] of operations on two keyspaces of one database. *)
  ks_commit : KS → KS → list batch_op → option (KS * KS);
  (** The rows of the keyspace. *)
  ks_view : KS → gmap bytes bytes;
  ks_get_view : ∀ s k r, ks_get s k = Some r → r = ks_view s !! k;
  ks_insert_view : ∀ s k v s', ks_insert s k v = Some s' → ks_view s' = <[k := v]> (ks_view s);
  ks_remove_view : ∀ s k s', ks_remove s k = Some s' → ks_view s' = delete k (ks_view s);
  ks_prefix_view : ∀ s p, scan_of (ks_prefix s p) (prefix_rows p (ks_view s));
  ks_range_view : ∀ s c, scan_of (ks_range s c) (rows_after c (ks_view s));
  (** A batch is applied whole. *)
  ks_commit_view : ∀ a b ops a' b', ks_commit a b ops = Some (a', b') →
    (ks_view a', ks_view b') =
    fold_left (λ m o, match o with
                      | BInsert false k v => (<[k := v]> m.1, m.2)
                      | BInsert true k v => (m.1, <[k := v]> m.2)
                      | BRemove false k => (delete k m.1, m.2)
                      | BRemove true k => (m.1, delete k m.2)
                      end) ops (ks_view a, ks_view b);
}.

(** A keyspace whose disk works: a set of states no operation fails in or leaves. *)
Class Healthy (KS : Type) `{Keyspace KS} := {
  healthy : KS → Prop;
  healthy_get : ∀ s k, healthy s → ks_get s k ≠ None;
  healthy_insert : ∀ s k v, healthy s → ∃ s', ks_insert s k v = Some s' ∧ healthy s';
  healthy_remove : ∀ s k, healthy s → ∃ s', ks_remove s k = Some s' ∧ healthy s';
  healthy_prefix : ∀ s p, healthy s → None ∉ ks_prefix s p;
  healthy_range : ∀ s c, healthy s → None ∉ ks_range s c;
  healthy_commit : ∀ a b ops, healthy a → healthy b →
    ∃ a' b', ks_commit a b ops = Some (a', b') ∧ healthy a' ∧ healthy b';
}.

(** [iter()] *)
Definition ks_iter {KS} `{Keyspace KS} (s : KS) : scan := ks_range s None.

(** ** Codecs *)

(** [ser] and [deser] of [common/src/proto/pack.rs], over postcard. *)
Class Codec (A : Type) := {
  ser : A → option bytes;
  deser : bytes → option A;
  deser_ser : ∀ a b, ser a = Some b → deser b = Some a;
}.

(** ** Facts about rows and scans *)

Section rows.
Context (P : bytes → Prop) `{!∀ k, Decision (P k)}.

Lemma elem_of_rows_where m k v : (k, v) ∈ rows_where P m ↔ m !! k = Some v ∧ P k.
Proof.
  unfold rows_where. rewrite merge_sort_Permutation, list_elem_of_filter, elem_of_map_to_list.
  naive_solver.
Qed.

Lemma rows_where_sorted m : StronglySorted row_le (rows_where P m).
Proof. apply StronglySorted_merge_sort; apply _. Qed.

Lemma rows_where_NoDup m : NoDup (rows_where P m).*1.
Proof.
  unfold rows_where. rewrite merge_sort_Permutation.
  eapply sublist_NoDup; [apply (NoDup_fst_map_to_list m)|]. apply fmap_sublist, sublist_filter.
Qed.

End rows.

Lemma elem_of_prefix_rows p m k v : (k, v) ∈ prefix_rows p m ↔ m !! k = Some v ∧ p `prefix_of` k.
Proof. apply elem_of_rows_where. Qed.

Lemma ok_rows_elem s r : r ∈ ok_rows s → Some r ∈ s.
Proof.
  induction s as [|[r'|] s IH]; cbn; [by intros ?%not_elem_of_nil| |by intros ?%not_elem_of_nil].
  rewrite !elem_of_cons. naive_solver.
Qed.

Lemma ok_rows_complete s rows : scan_of s rows → None ∉ s → ok_rows s = rows.
Proof.
  intros [_ Hc _] Hn. rewrite (Hc Hn). clear. induction rows as [|r rows IH]; cbn; [done|].
  by f_equal.
Qed.

Lemma scan_of_all rows : scan_of (Some <$> rows) rows.
Proof.
  split; [|done|].
  - clear. induction rows as [|r rows IH]; cbn; [done|]. by apply prefix_cons.
  - intros r (r' & [= ->] & ?)%list_elem_of_fmap. done.
Qed.

Lemma scan_of_error rows : scan_of [None] rows.
Proof.
  split; [apply prefix_nil|set_solver|].
  intros r [=]%list_elem_of_singleton.
Qed.

(** ** A keyspace in memory

    It serves every request, or fails every one. *)
Module Mem.
Record mem := mkMem { mem_rows : gmap bytes bytes; mem_failing : bool }.

Definition mem_of (m : gmap bytes bytes) : mem := mkMem m false.

Definition apply_batch (a b : gmap bytes bytes) (ops : list batch_op)
    : gmap bytes bytes * gmap bytes bytes :=
  fold_left (λ m o, match o with
                    | BInsert false k v => (<[k := v]> m.1, m.2)
                    | BInsert true k v => (m.1, <[k := v]> m.2)
                    | BRemove false k => (delete k m.1, m.2)
                    | BRemove true k => (m.1, delete k m.2)
                    end) ops (a, b).

#[export] Program Instance keyspace : Keyspace mem := {|
  ks_get := λ s k, if mem_failing s then None else Some (mem_rows s !! k);
  ks_insert := λ s k v, if mem_failing s then None else Some (mem_of (<[k := v]> (mem_rows s)));
  ks_remove := λ s k, if mem_failing s then None else Some (mem_of (delete k (mem_rows s)));
  ks_prefix := λ s p, if mem_failing s then [None] else Some <$> prefix_rows p (mem_rows s);
  ks_range := λ s c, if mem_failing s then [None] else Some <$> rows_after c (mem_rows s);
  ks_approx_len := λ s, Z.of_nat (size (mem_rows s));
  ks_commit := λ a b ops,
    if mem_failing a || mem_failing b then None
    else let m := apply_batch (mem_rows a) (mem_rows b) ops in Some (mem_of m.1, mem_of m.2);
  ks_view := mem_rows;
|}.
Next Obligation. intros [m []] k r; cbn; naive_solver. Qed.
Next Obligation. intros [m []] k v s'; cbn; [done|]. by intros [= <-]. Qed.
Next Obligation. intros [m []] k s'; cbn; [done|]. by intros [= <-]. Qed.
Next Obligation. intros [m []] p; cbn; [apply scan_of_error|apply scan_of_all]. Qed.
Next Obligation. intros [m []] c; cbn; [apply scan_of_error|apply scan_of_all]. Qed.
Next Obligation.
  intros [a []] [b []] ops a' b'; cbn; try done. intros [= <- <-]. cbn. symmetry. apply surjective_pairing.
Qed.

#[export] Program Instance healthy_mem : Healthy mem := {| healthy := λ s, mem_failing s = false |}.
Next Obligation. intros s k Hs. cbn. by rewrite Hs. Qed.
Next Obligation. intros s k v Hs. cbn. rewrite Hs. eauto. Qed.
Next Obligation. intros s k Hs. cbn. rewrite Hs. eauto. Qed.
Next Obligation. intros s p Hs. cbn. rewrite Hs. by intros (? & ? & _)%list_elem_of_fmap. Qed.
Next Obligation. intros s c Hs. cbn. rewrite Hs. by intros (? & ? & _)%list_elem_of_fmap. Qed.
Next Obligation. intros a b ops Ha Hb. cbn. rewrite Ha, Hb. cbn. eauto 6. Qed.
End Mem.

(** ** Codecs to evaluate with

    Fields in order, each list after its length. *)
Module ToyCodec.
Definition enc (l : bytes) : bytes := Z.of_nat (length l) :: l.

Definition dec (l : bytes) : option (bytes * bytes) :=
  match l with
  | [] => None
  | n :: l' =>
      if (n <? 0) || (len l' <? n) then None
      else Some (take (Z.to_nat n) l', drop (Z.to_nat n) l')
  end.

#[global] Arguments enc l : simpl never.
#[global] Arguments dec l : simpl never.

Lemma dec_enc l rest : dec (enc l ++ rest) = Some (l, rest).
Proof.
  unfold dec, enc. cbn [app]. unfold len. rewrite length_app.
  destruct (_ || _) eqn:E.
  - apply orb_true_iff in E as [E|E]; breflect; lia.
  - by rewrite Nat2Z.id, take_app_length, drop_app_length.
Qed.

(** The law of a codec that never fails to encode. *)
Lemma toy_law {A} (f : A → bytes) (g : bytes → option A) :
  (∀ a, g (f a) = Some a) → ∀ a b, Some (f a) = Some b → g b = Some a.
Proof. intros Hfg a b Hb. injection Hb as <-. apply Hfg. Qed.
End ToyCodec.
