(* ===== verification/Store.v ===== *)
(** * Store: the relay's keyspaces and the records kept in them

    [relay/src/storage/db.rs]: presence consent, presence state, presence leases,
    last-seen stamps, push pseudonyms and pending pushes, the expiry predicates and
    the bounded sweep.  The admission locks serialise the operations on one owner's
    rows, so each operation here runs whole; the sweep takes no such lock and is
    given in the two halves other operations can run between. *)

From S2P Require Import Prelude Bytes Crypto Proto Keyspace.

(** ** The store *)

(** The keyspaces of [Store], [key_packages] split into its two. *)
Inductive ks_name :=
| KsMessages | KsQueue | KsKpRecords | KsKpSpent | KsWelcome | KsLastSeen
| KsPresenceConsent | KsPresenceState | KsPresenceLease | KsPushPseudonym | KsPushPending.

#[global] Instance ks_name_eq_dec : EqDecision ks_name.
Proof. solve_decision. Defined.

Record MaintenanceState := mkMaint {
  persist_requested : bool;
  shutdown : bool;
  requested_gen : Z;
  persisted_gen : Z;
  persist_failed : bool;
}.

Record Store (KS : Type) := mkStore {
  space : ks_name → KS;
  maintenance : MaintenanceState;
}.
Arguments mkStore {KS} space maintenance.
Arguments space {KS} s n.
Arguments maintenance {KS} s.

(** Milliseconds, and the row cap. *)
Definition PRESENCE_STATE_TTL_MS : Z := 600000.
Definition PRESENCE_VERSION_MAX_LEAD_MS : Z := 60000.
Definition IDLE_IDENTITY_TTL_MS : Z := 90 * 24 * 60 * 60 * 1000.
Definition QUEUED_MESSAGE_TTL_MS : Z := 30 * 24 * 60 * 60 * 1000.
Definition MAX_PRESENCE_CONSENT_ROWS : Z := 1000000.
Definition MAX_SWEEP_SCAN : Z := 65536.
Definition MAX_SWEEP_REMOVALS : Z := 4096.

(** [be_u64]: the big-endian [u64] at an offset, when the value has it. *)
Definition be_u64 (value : bytes) (offset : nat) : option Z :=
  if (offset + 8 <=? length value)%nat
  then Some (be_val (take 8 (drop offset value))) else None.

#[global] Arguments be_u64 value offset : simpl never.

(** ** Expiry *)

(** [is_none_or] and [is_some_and] *)
Definition is_none_or {A} (f : A → bool) (o : option A) : bool :=
  match o with Some a => f a | None => true end.
Definition is_some_and {A} (f : A → bool) (o : option A) : bool :=
  match o with Some a => f a | None => false end.

Definition queued_message_expired (key value : bytes) (now_ms : Z) : bool :=
  is_none_or (λ accepted_at, sat_sub now_ms accepted_at >? QUEUED_MESSAGE_TTL_MS) (be_u64 key 32).

Definition last_seen_expired (key value : bytes) (now_ms : Z) : bool :=
  is_none_or (λ ts, sat_sub now_ms ts >? IDLE_IDENTITY_TTL_MS) (be_u64 value 0).

Definition presence_consent_expired (key value : bytes) (now_ms : Z) : bool :=
  is_none_or (λ issued_at, sat_sub now_ms issued_at >? IDLE_IDENTITY_TTL_MS) (be_u64 value 8).

Definition presence_state_expired (key value : bytes) (now_ms : Z) : bool :=
  let deadline :=
    match be_u64 value 25 with
    | Some d => Some d
    | None => (λ at_, sat_add at_ PRESENCE_STATE_TTL_MS) <$> be_u64 value 8
    end in
  is_none_or (λ deadline, now_ms >=? deadline) deadline.

Definition push_pseudonym_expired (key value : bytes) (now_ms : Z) : bool :=
  is_some_and (λ refreshed_at, sat_sub now_ms refreshed_at >? IDLE_IDENTITY_TTL_MS)
    (be_u64 value 32).

(** [spent_expired] of [relay/src/storage/key_packages.rs] *)
Definition spent_expired (key value : bytes) (now : Z) : bool :=
  is_some_and (λ expires, expires <=? now) (be_u64 value 0).

Definition presence_lease_expired `{Codec PresenceLease} (key value : bytes) (now_ms : Z) : bool :=
  is_none_or (λ lease, now_ms >? le_expires_at_ms lease) (deser value : option PresenceLease).

(** ** Operations *)

Section store.
Context {KS : Type} `{Keyspace KS}.
Implicit Types (s : Store KS) (n : ks_name).

Definition set_space s n (ks : KS) : Store KS :=
  mkStore (λ m, if decide (m = n) then ks else space s m) (maintenance s).

(** [Store::request_persist] *)
Definition request_persist s : Store KS * Z :=
  let m := maintenance s in
  let requested := wrap_add (requested_gen m) 1 in
  (mkStore (space s)
     (mkMaint true (shutdown m) requested (persisted_gen m) (persist_failed m)), requested).

(** [Store::put_sync]; [None] is the insert's error, which changes nothing. *)
Definition put_sync s n (key val : bytes) : option (Store KS) :=
  ks ← ks_insert (space s n) key val;
  Some (request_persist (set_space s n ks)).1.

(** [Store::put_last_seen] *)
Definition put_last_seen s (ipk : bytes) (ts_ms : Z) : option (Store KS) :=
  ks ← ks_insert (space s KsLastSeen) ipk (be_bytes 8 ts_ms);
  Some (set_space s KsLastSeen ks).

(** [Store::get_last_seen]; [try_into] wants exactly eight bytes. *)
Definition get_last_seen s (ipk : bytes) : option Z :=
  match ks_get (space s KsLastSeen) ipk with
  | Some (Some v) => if decide (length v = 8%nat) then Some (be_val v) else None
  | _ => None
  end.

(** [Store::put_presence_consent]; [None] is a store error. *)
Definition put_presence_consent s (c : PresenceConsent) : Store KS * option bool :=
  let key := co_owner c ++ co_recipient c in
  match ks_get (space s KsPresenceConsent) key with
  | None => (s, None)
  | Some stored =>
      if is_some_and (λ v, is_some_and (λ old, old >=? co_version c) (be_u64 v 0)) stored
      then (s, Some false)
      else if bool_decide (stored = None)
              && (ks_approx_len (space s KsPresenceConsent) >=? MAX_PRESENCE_CONSENT_ROWS)
      then (s, Some false)
      else
        let value := List.concat [be_bytes 8 (co_version c); be_bytes 8 (co_issued_at_ms c);
                                  [Z.b2z (co_granted c)]] in
        match put_sync s KsPresenceConsent key value with
        | Some s' => (s', Some true)
        | None => (s, None)
        end
  end.

(** The consents of a subscription; a failed one is ignored. *)
Definition put_consents s (consents : list PresenceConsent) : Store KS :=
  fold_left (λ s c, (put_presence_consent s c).1) consents s.

(** [Store::has_presence_consent] *)
Definition has_presence_consent s (ipk contact : bytes) : bool :=
  match ks_get (space s KsPresenceConsent) (ipk ++ contact) with
  | Some (Some v) => bool_decide (v !! 16%nat = Some 1)
  | _ => false
  end.

(** [Store::put_presence_state] *)
Definition put_presence_state s (recipient contact : bytes) (state : PresenceState)
    (version observed_at_ms lease_expires_at_ms : Z) : Store KS * option bool :=
  if version >? sat_add observed_at_ms PRESENCE_VERSION_MAX_LEAD_MS then (s, Some false)
  else
    let key := recipient ++ contact in
    match ks_get (space s KsPresenceState) key with
    | None => (s, None)
    | Some stored =>
        if is_some_and
             (λ v, negb (presence_state_expired [] v observed_at_ms)
                   && (is_some_and (λ old, old >=? version) (be_u64 v 0)
                       || is_some_and (λ old, old >=? observed_at_ms) (be_u64 v 8))) stored
        then (s, Some false)
        else
          let '(tag, timestamp) := presence_tag state in
          let expires_at_ms :=
            Z.min lease_expires_at_ms (sat_add observed_at_ms PRESENCE_STATE_TTL_MS) in
          let value := List.concat [be_bytes 8 version; be_bytes 8 observed_at_ms; [tag];
                                    be_bytes 8 timestamp; be_bytes 8 expires_at_ms] in
          match ks_insert (space s KsPresenceState) key value with
          | Some ks => (set_space s KsPresenceState ks, Some true)
          | None => (s, None)
          end
    end.

(** [Store::get_presence_state] *)
Definition get_presence_state s (recipient contact : bytes) (now_ms : Z) : option PresenceState :=
  match ks_get (space s KsPresenceState) (recipient ++ contact) with
  | Some (Some value) =>
      if presence_state_expired [] value now_ms then None
      else
        timestamp ← be_u64 value 17;
        tag ← value !! 16%nat;
        if tag =? 0 then Some Online
        else if tag =? 1 then Some (Idle timestamp)
        else if tag =? 2 then Some (Offline timestamp)
        else None
  | _ => None
  end.

(** [Store::put_presence_lease] *)
Definition put_presence_lease `{Codec PresenceLease} s (lease : PresenceLease)
    : Store KS * option bool :=
  match ks_get (space s KsPresenceLease) (le_user lease) with
  | None => (s, None)
  | Some stored =>
      if is_some_and (λ v, is_some_and (λ old, le_version old >=? le_version lease)
                             (deser v : option PresenceLease)) stored
      then (s, Some false)
      else
        match ser lease with
        | None => (s, Some false)
        | Some value =>
            match put_sync s KsPresenceLease (le_user lease) value with
            | Some s' => (s', Some true)
            | None => (s, None)
            end
        end
  end.

(** [Store::get_presence_lease] *)
Definition get_presence_lease `{Codec PresenceLease} s (user : bytes) : option PresenceLease :=
  match ks_get (space s KsPresenceLease) user with
  | Some (Some v) => deser v
  | _ => None
  end.

(** [Store::put_push_pseudonym] *)
Definition put_push_pseudonym s (ipk pseudonym : bytes) (now_ms : Z) : option (Store KS) :=
  put_sync s KsPushPseudonym ipk (pseudonym ++ be_bytes 8 now_ms).

(** [Store::get_push_pseudonym] *)
Definition get_push_pseudonym s (ipk : bytes) : option bytes :=
  match ks_get (space s KsPushPseudonym) ipk with
  | Some (Some v) => if (32 <=? length v)%nat then Some (take 32 v) else None
  | _ => None
  end.

(** [Store::put_pending_push] *)
Definition put_pending_push `{Codec PushPseudonymPublish} s (publish : PushPseudonymPublish)
    : option (Store KS) :=
  match ser publish with
  | None => Some s
  | Some value => put_sync s KsPushPending (pp_user_ipk publish) value
  end.

(** [Store::remove_pending_push] *)
Definition remove_pending_push s (ipk : bytes) : option (Store KS) :=
  ks ← ks_remove (space s KsPushPending) ipk;
  Some (request_persist (set_space s KsPushPending ks)).1.

(** [Store::pending_pushes] *)
Definition pending_pushes `{Codec PushPseudonymPublish} s : list PushPseudonymPublish :=
  omap (λ g, '(_, value) ← g; deser value) (ks_iter (space s KsPushPending)).

(** ** The sweep *)

(** The scan of [sweep]: the keys to remove and where the next pass resumes. *)
Fixpoint sweep_scan (expired : bytes → bytes → Z → bool) (now_ms : Z) (sc : scan)
    (scanned : Z) (dead : list bytes) : list bytes * option bytes :=
  match sc with
  | Some (key, value) :: sc' =>
      let dead := if expired key value now_ms then dead ++ [key] else dead in
      let scanned := scanned + 1 in
      if (scanned >=? MAX_SWEEP_SCAN) || (len dead >=? MAX_SWEEP_REMOVALS)
      then (dead, Some key)
      else sweep_scan expired now_ms sc' scanned dead
  | _ => (dead, None)
  end.

Definition sweep_collect (expired : bytes → bytes → Z → bool) (ks : KS)
    (cursor : option bytes) (now_ms : Z) : list bytes * option bytes :=
  sweep_scan expired now_ms (ks_range ks cursor) 0 [].

(** [let _ = ks.remove(key)]: a failed removal is ignored. *)
Definition try_remove (ks : KS) (key : bytes) : KS := default ks (ks_remove ks key).

Definition sweep_remove (ks : KS) (keys : list bytes) : KS := fold_left try_remove keys ks.

(** [sweep] *)
Definition sweep (expired : bytes → bytes → Z → bool) (ks : KS) (cursor : option bytes)
    (now_ms : Z) : KS * option bytes :=
  let '(dead, resume) := sweep_collect expired ks cursor now_ms in
  (sweep_remove ks dead, resume).
End store.
