(* ===== verification/StoreProps.v ===== *)
(** * StoreProps: correctness of the store's records and of its sweep *)

From S2P Require Import Prelude Bytes Crypto Proto Keyspace Store.

(** ** Reading a [u64] back *)

Lemma be_u64_middle pre x post n :
  length pre = n → is_u64 x → be_u64 (pre ++ be_bytes 8 x ++ post) n = Some x.
Proof.
  intros <- Hx%u64_pow256. unfold be_u64. rewrite !length_app, length_be_bytes.
  destruct (_ <=? _)%nat eqn:E; breflect; [|lia]. rewrite drop_app_length.
  rewrite <- (length_be_bytes 8 x) at 1. rewrite take_app_length.
  by rewrite be_val_be_bytes_small.
Qed.

Lemma be_u64_head x post : is_u64 x → be_u64 (be_bytes 8 x ++ post) 0 = Some x.
Proof. apply (be_u64_middle []). done. Qed.

Lemma be_u64_last pre x n :
  length pre = n → is_u64 x → be_u64 (pre ++ be_bytes 8 x) n = Some x.
Proof. intros. rewrite <- (app_nil_r (be_bytes 8 x)). by apply be_u64_middle. Qed.

Section props.
Context {KS : Type} `{Keyspace KS}.
Implicit Types (s : Store KS).

Definition view s (n : ks_name) : gmap bytes bytes := ks_view (space s n).

Lemma view_set_space s (n m : ks_name) ks :
  view (set_space s n ks) m = if decide (m = n) then ks_view ks else view s m.
Proof. unfold view, set_space. cbn. by destruct (decide (m = n)). Qed.

Lemma put_sync_view s (n : ks_name) k v s' (m : ks_name) :
  put_sync s n k v = Some s' →
  view s' m = if decide (m = n) then <[k := v]> (view s n) else view s m.
Proof.
  unfold put_sync. intros (ks & Hks & Heq)%bind_Some.
  assert (view s' m = view (set_space s n ks) m) as -> by (by inversion Heq).
  rewrite view_set_space. case_decide; [|done]. by apply ks_insert_view.
Qed.

Lemma put_sync_space s (n : ks_name) k v s' (m : ks_name) :
  put_sync s n k v = Some s' → m ≠ n → space s' m = space s m.
Proof.
  unfold put_sync. intros (ks & _ & [= <-])%bind_Some Hne. cbn. by rewrite decide_False.
Qed.

(** ** Presence consent *)

Definition consent_key (c : PresenceConsent) : bytes := co_owner c ++ co_recipient c.

Definition consent_value (c : PresenceConsent) : bytes :=
  List.concat [be_bytes 8 (co_version c); be_bytes 8 (co_issued_at_ms c); [Z.b2z (co_granted c)]].

Arguments consent_value c : simpl never.

Definition consent_typed (c : PresenceConsent) : Prop :=
  wf_arr 32 (co_owner c) ∧ wf_arr 32 (co_recipient c) ∧ is_u64 (co_version c) ∧
  is_u64 (co_issued_at_ms c).

#[global] Instance consent_typed_dec c : Decision (consent_typed c).
Proof. unfold consent_typed. apply _. Defined.

(** The version of the row under [key]. *)
Definition consent_version s (key : bytes) : option Z :=
  v ← view s KsPresenceConsent !! key; be_u64 v 0.

(** A put either changes nothing, or stores its value over a missing, unreadable or
    strictly older row. *)
Lemma put_consent_cases s c :
  let '(s', r) := put_presence_consent s c in
  (s' = s ∧ r ≠ Some true) ∨
  (r = Some true ∧
   view s' KsPresenceConsent = <[consent_key c := consent_value c]> (view s KsPresenceConsent) ∧
   ∀ old, consent_version s (consent_key c) = Some old → old < co_version c).
Proof.
  unfold put_presence_consent. fold (consent_key c). fold (consent_value c).
  destruct (ks_get _ _) as [stored|] eqn:Hget; [|by left].
  apply ks_get_view in Hget. destruct (is_some_and _ stored) eqn:Hold; [by left|].
  destruct (_ && _); [by left|].
  destruct (put_sync _ _ _ _) as [s'|] eqn:Hput; [|by left]. right. split_and!; [done| |].
  - by rewrite (put_sync_view _ _ _ _ _ _ Hput), decide_True.
  - intros old (v & Hv & Hb)%bind_Some. unfold view in Hv. rewrite <- Hget in Hv.
    rewrite Hv in Hold. cbn in Hold. rewrite Hb in Hold. cbn in Hold. breflect. lia.
Qed.

Lemma consent_value_version c : consent_typed c → be_u64 (consent_value c) 0 = Some (co_version c).
Proof. intros (_ & _ & ? & _). unfold consent_value. cbn [List.concat]. by apply be_u64_head. Qed.

Lemma consent_value_granted c : consent_value c !! 16%nat = Some (Z.b2z (co_granted c)).
Proof.
  unfold consent_value. cbn [List.concat].
  rewrite lookup_app_r, length_be_bytes by (rewrite length_be_bytes; lia).
  rewrite lookup_app_r, length_be_bytes by (rewrite length_be_bytes; lia). done.
Qed.

Lemma put_consent_monotone s c key v :
  consent_typed c → consent_version s key = Some v →
  ∃ v', consent_version (put_presence_consent s c).1 key = Some v' ∧ v <= v'.
Proof.
  intros Hc Hv. pose proof (put_consent_cases s c) as Hcase.
  destruct (put_presence_consent s c) as [s' r]. cbn [fst].
  destruct Hcase as [[-> _]|(_ & Hview & Hold)]; [eauto with lia|].
  unfold consent_version in *. rewrite Hview. destruct (decide (key = consent_key c)) as [->|Hne].
  - rewrite lookup_insert_eq. cbn. rewrite consent_value_version by done.
    eexists. split; [done|]. pose proof (Hold v Hv). lia.
  - rewrite lookup_insert_ne by done. eauto with lia.
Qed.

Lemma put_consents_monotone l : ∀ s key v,
  Forall consent_typed l → consent_version s key = Some v →
  ∃ v', consent_version (put_consents s l) key = Some v' ∧ v <= v'.
Proof.
  induction l as [|c l IH]; intros s key v Hl Hv; [eauto with lia|].
  apply Forall_cons in Hl as [Hc Hl].
  destruct (put_consent_monotone s c key v Hc Hv) as (v1 & Hv1 & ?).
  destruct (IH _ key v1 Hl Hv1) as (v2 & ? & ?). exists v2. split; [done|lia].
Qed.

Lemma put_consents_keep l : ∀ s c,
  consent_typed c →
  view s KsPresenceConsent !! consent_key c = Some (consent_value c) →
  Forall (λ c', consent_key c' = consent_key c → co_version c' <= co_version c) l →
  view (put_consents s l) KsPresenceConsent !! consent_key c = Some (consent_value c).
Proof.
  induction l as [|c' l IH]; intros s c Hc Hs Hl; [done|].
  apply Forall_cons in Hl as [Hle Hl]. cbn. apply IH; [done| |done].
  pose proof (put_consent_cases s c') as Hcase.
  destruct (put_presence_consent s c') as [s' r]. cbn [fst].
  destruct Hcase as [[-> _]|(_ & Hview & Hold)]; [done|]. rewrite Hview.
  destruct (decide (consent_key c' = consent_key c)) as [E|Hne];
    [|by rewrite lookup_insert_ne].
  exfalso. assert (co_version c < co_version c'); [|specialize (Hle E); lia].
  apply Hold. unfold consent_version. rewrite E, Hs. cbn. by apply consent_value_version.
Qed.

(** ** Presence state *)

Definition state_value (state : PresenceState) (version observed_at_ms lease_expires_at_ms : Z)
    : bytes :=
  List.concat [be_bytes 8 version; be_bytes 8 observed_at_ms; [(presence_tag state).1];
               be_bytes 8 (presence_tag state).2;
               be_bytes 8 (Z.min lease_expires_at_ms (sat_add observed_at_ms PRESENCE_STATE_TTL_MS))].

(** The deadline a stored state carries: the lease's, but at most the fixed TTL after
    it was observed. *)
Definition state_deadline (observed_at_ms lease_expires_at_ms : Z) : Z :=
  Z.min lease_expires_at_ms (sat_add observed_at_ms PRESENCE_STATE_TTL_MS).

Lemma put_state_stores s recipient contact state version observed lease s' :
  put_presence_state s recipient contact state version observed lease = (s', Some true) →
  view s' KsPresenceState
  = <[recipient ++ contact := state_value state version observed lease]> (view s KsPresenceState).
Proof.
  unfold put_presence_state. destruct (_ >? _); [done|].
  destruct (ks_get _ _) as [stored|]; [|done]. destruct (is_some_and _ stored); [done|].
  unfold state_value. destruct (presence_tag state) as [tag ts]. cbn [fst snd].
  destruct (ks_insert _ _ _) as [ks|] eqn:Hins; [|done]. intros [= <-].
  rewrite view_set_space, decide_True by done. by apply ks_insert_view.
Qed.

Lemma state_value_fields state version observed lease :
  is_u64 observed → is_u64 lease → is_u64 (presence_tag state).2 →
  let v := state_value state version observed lease in
  be_u64 v 17 = Some (presence_tag state).2 ∧ v !! 16%nat = Some (presence_tag state).1 ∧
  be_u64 v 25 = Some (state_deadline observed lease).
Proof.
  intros Ho Hl Ht v. unfold v, state_value. cbn [List.concat]. rewrite app_nil_r.
  assert (is_u64 (state_deadline observed lease)).
  { unfold is_u64, state_deadline, sat_add, PRESENCE_STATE_TTL_MS, u64_max in *. lia. }
  set (a := be_bytes 8 version). set (b := be_bytes 8 observed).
  assert (Ha : length a = 8%nat) by apply length_be_bytes.
  assert (Hb : length b = 8%nat) by apply length_be_bytes.
  rewrite !(app_assoc a). split_and!.
  - rewrite (app_assoc _ [_]). apply be_u64_middle; [|done]. rewrite !length_app, Ha, Hb. done.
  - rewrite lookup_app_r by (rewrite length_app; lia). by rewrite length_app, Ha, Hb.
  - rewrite (app_assoc _ [_]), (app_assoc _ (be_bytes 8 _)). apply be_u64_last; [|done].
    rewrite !length_app, Ha, Hb, length_be_bytes. done.
Qed.

Lemma read_state_value s recipient contact state version observed lease now :
  view s KsPresenceState !! (recipient ++ contact)
    = Some (state_value state version observed lease) →
  is_u64 observed → is_u64 lease → is_u64 (presence_tag state).2 →
  ks_get (space s KsPresenceState) (recipient ++ contact) ≠ None →
  get_presence_state s recipient contact now =
    if now >=? state_deadline observed lease then None else Some state.
Proof.
  intros Hv Ho Hl Ht Hio. unfold get_presence_state.
  destruct (ks_get _ _) as [stored|] eqn:Hget; [|done].
  apply ks_get_view in Hget. unfold view in Hv. rewrite Hv in Hget. subst stored.
  destruct (state_value_fields state version observed lease Ho Hl Ht) as (H17 & H16 & H25).
  unfold presence_state_expired. rewrite H25. cbn [is_none_or].
  destruct (_ >=? _); [done|]. rewrite H17, H16. by destruct state.
Qed.

(** ** Leases *)

Section leases.
Context `{Codec PresenceLease}.

Definition put_leases s (l : list PresenceLease) : Store KS :=
  fold_left (λ s le, (put_presence_lease s le).1) l s.

(** The lease stored for [user]. *)
Definition stored_lease s (user : bytes) : option PresenceLease :=
  v ← view s KsPresenceLease !! user; deser v.

Lemma put_lease_cases s le :
  let '(s', r) := put_presence_lease s le in
  (s' = s ∧ r ≠ Some true) ∨
  (r = Some true ∧
   (∀ user, stored_lease s' user
            = if decide (user = le_user le) then Some le else stored_lease s user) ∧
   ∀ old, stored_lease s (le_user le) = Some old → le_version old < le_version le).
Proof.
  unfold put_presence_lease. destruct (ks_get _ _) as [stored|] eqn:Hget; [|by left].
  apply ks_get_view in Hget. destruct (is_some_and _ stored) eqn:Hold; [by left|].
  destruct (ser le) as [value|] eqn:Hser; [|by left].
  destruct (put_sync _ _ _ _) as [s'|] eqn:Hput; [|by left]. right. split_and!; [done| |].
  - intros user. unfold stored_lease. rewrite (put_sync_view _ _ _ _ _ _ Hput), decide_True by done.
    case_decide as Hu; [subst user; rewrite lookup_insert_eq; cbn; by apply deser_ser|].
    by rewrite lookup_insert_ne.
  - intros old (v & Hv & Hd)%bind_Some. unfold view in Hv. rewrite <- Hget in Hv.
    rewrite Hv in Hold. cbn in Hold. rewrite Hd in Hold. cbn in Hold. breflect. lia.
Qed.

Lemma put_leases_keep l : ∀ s le,
  stored_lease s (le_user le) = Some le →
  Forall (λ le', le_user le' = le_user le → le_version le' <= le_version le) l →
  stored_lease (put_leases s l) (le_user le) = Some le.
Proof.
  induction l as [|le' l IH]; intros s le Hs Hl; [done|].
  apply Forall_cons in Hl as [Hle Hl]. cbn. apply IH; [|done].
  pose proof (put_lease_cases s le') as Hcase.
  destruct (put_presence_lease s le') as [s' r]. cbn [fst].
  destruct Hcase as [[-> _]|(_ & Hview & Hold)]; [done|]. rewrite Hview.
  case_decide as Hu; [|done]. exfalso. rewrite Hu in Hs.
  specialize (Hold _ Hs). specialize (Hle (eq_sym Hu)). lia.
Qed.
End leases.

(** ** The sweep *)

Section sweep.
Context (expired : bytes → bytes → Z → bool) (now : Z).
Implicit Types (ks : KS).

Definition is_dead (r : row) : bool := expired r.1 r.2 now.

Lemma len_snoc {A} (l : list A) x : len (l ++ [x]) = len l + 1.
Proof. rewrite len_app, len_cons, len_nil. lia. Qed.

(** What one scan does: it walks a prefix [visited] of the readable rows, collects its
    expired keys, and resumes at its last key if it ran out of budget, which takes at
    least [MAX_SWEEP_REMOVALS] rows. *)
Lemma sweep_scan_spec sc : ∀ scanned dead0 dead resume,
  sweep_scan expired now sc scanned dead0 = (dead, resume) → len dead0 <= scanned →
  ∃ visited rest, ok_rows sc = visited ++ rest ∧
    dead = dead0 ++ (filter is_dead visited).*1 ∧
    match resume with
    | None => rest = []
    | Some k => (∃ v, last visited = Some (k, v)) ∧ MAX_SWEEP_REMOVALS <= scanned + len visited
    end.
Proof.
  induction sc as [|[[k v]|] sc IH]; intros scanned dead0 dead resume Hs Hle; cbn in Hs.
  - injection Hs as <- <-. exists [], []. split_and!; [done|by rewrite filter_nil, app_nil_r|done].
  - set (dead1 := if expired k v now then dead0 ++ [k] else dead0) in *.
    assert (Hdead : dead1 = dead0 ++ (filter is_dead [(k, v)]).*1).
    { unfold dead1. rewrite filter_cons, filter_nil. unfold is_dead. cbn.
      case_decide as E; destruct (expired k v now); try done. cbn. by rewrite app_nil_r. }
    assert (Hle1 : len dead1 <= scanned + 1).
    { unfold dead1. destruct (expired k v now); rewrite ?len_snoc; lia. }
    destruct ((_ >=? _) || _) eqn:Hstop.
    + injection Hs as <- <-. exists [(k, v)], (ok_rows sc). split_and!; [done|done|by eexists|].
      rewrite len_cons, len_nil. unfold MAX_SWEEP_SCAN, MAX_SWEEP_REMOVALS in *.
      apply orb_true_iff in Hstop as [?|?]; breflect; lia.
    + destruct (IH _ _ _ _ Hs Hle1) as (vis & rest & Hrows & -> & Hres).
      exists ((k, v) :: vis), rest. split_and!.
      * cbn. by rewrite Hrows.
      * rewrite Hdead, <- app_assoc, <- fmap_app, <- filter_app. done.
      * destruct resume as [k'|]; [|done]. destruct Hres as ([v' Hl] & Hn). split.
        -- exists v'. destruct vis; [done|]. exact Hl.
        -- rewrite len_cons. lia.
  - injection Hs as <- <-. exists [], []. split_and!; [done|by rewrite filter_nil, app_nil_r|done].
Qed.

Lemma try_remove_view ks k :
  ks_view (try_remove ks k) = delete k (ks_view ks) ∨ ks_view (try_remove ks k) = ks_view ks.
Proof.
  unfold try_remove. destruct (ks_remove ks k) as [ks'|] eqn:E; cbn; [|by right].
  left. by apply ks_remove_view.
Qed.

(** Only listed keys can go. *)
Lemma sweep_remove_view keys : ∀ ks k,
  ks_view (sweep_remove ks keys) !! k = ks_view ks !! k ∨
  (ks_view (sweep_remove ks keys) !! k = None ∧ k ∈ keys).
Proof.
  induction keys as [|k0 keys IH]; intros ks k; [by left|].
  cbn. destruct (IH (try_remove ks k0) k) as [E|[E ?]].
  - fold (sweep_remove (try_remove ks k0) keys). rewrite E.
    destruct (try_remove_view ks k0) as [->| ->]; [|by left].
    destruct (decide (k = k0)) as [->|]; [|left; by apply lookup_delete_ne].
    right. rewrite lookup_delete_eq. split; [done|by left].
  - right. split; [done|by right].
Qed.

Lemma sweep_remove_healthy `{!Healthy KS} keys : ∀ ks,
  healthy ks →
  healthy (sweep_remove ks keys) ∧
  ∀ k, k ∈ keys → ks_view (sweep_remove ks keys) !! k = None.
Proof.
  induction keys as [|k0 keys IH]; intros ks Hks; [split; [done|by intros ? ?%not_elem_of_nil]|].
  cbn. destruct (healthy_remove ks k0 Hks) as (ks' & Hrm & Hks').
  assert (Htry : try_remove ks k0 = ks') by (unfold try_remove; by rewrite Hrm).
  rewrite Htry. fold (sweep_remove ks' keys). destruct (IH ks' Hks') as [? Hall].
  split; [done|]. intros k [->|?]%elem_of_cons; [|auto].
  destruct (sweep_remove_view keys ks' k0) as [->|[? _]]; [|done].
  rewrite (ks_remove_view _ _ _ Hrm). apply lookup_delete_eq.
Qed.

Lemma sweep_visited ks c ks' resume :
  sweep expired ks c now = (ks', resume) →
  ∃ visited rest, ok_rows (ks_range ks c) = visited ++ rest ∧
    ks' = sweep_remove ks (filter is_dead visited).*1 ∧
    match resume with
    | None => rest = []
    | Some k => (∃ v, last visited = Some (k, v)) ∧ MAX_SWEEP_REMOVALS <= len visited
    end.
Proof.
  unfold sweep, sweep_collect. destruct (sweep_scan _ _ _ _ _) as [dead res] eqn:E.
  intros [= <- <-]. apply sweep_scan_spec in E as (vis & rest & ? & -> & ?); [|done]. eauto.
Qed.

Lemma sweep_subset ks c ks' resume k v :
  sweep expired ks c now = (ks', resume) → ks_view ks' !! k = Some v → ks_view ks !! k = Some v.
Proof.
  intros (vis & rest & _ & -> & _)%sweep_visited Hk.
  destruct (sweep_remove_view (filter is_dead vis).*1 ks k) as [E|[E _]]; congruence.
Qed.

Lemma elem_of_rows_after c m k v : (k, v) ∈ rows_after c m ↔ m !! k = Some v ∧ after c k.
Proof. apply elem_of_rows_where. Qed.

(** Splitting the rows after a cursor at a row: the rest is exactly beyond it. *)
Lemma rows_after_split c m visited rest k v :
  rows_after c m = visited ++ rest → last visited = Some (k, v) →
  (∀ k' v', (k', v') ∈ rest → bytes_lt k k') ∧
  (∀ k' v', (k', v') ∈ visited → bytes_le k' k) ∧ after c k.
Proof.
  intros Hrows [vis ->]%last_Some. rewrite <- app_assoc in Hrows. cbn in Hrows.
  pose proof (rows_where_sorted (after c) m) as Hs. pose proof (rows_where_NoDup (after c) m) as Hnd.
  fold (rows_after c m) in Hs, Hnd. rewrite Hrows in Hs, Hnd.
  rewrite fmap_app in Hnd. apply NoDup_app in Hnd as (_ & _ & Hnd).
  cbn in Hnd. apply NoDup_cons in Hnd as [Hk _]. split_and!.
  - intros k' v' Hin. apply StronglySorted_app_1_r, StronglySorted_cons in Hs as [Hf _].
    rewrite Forall_forall in Hf. specialize (Hf _ Hin). unfold row_le in Hf. cbn in Hf.
    apply bytes_le_lteq in Hf as [?| ->]; [done|]. destruct Hk. by apply (list_elem_of_fmap_2 fst) in Hin.
  - intros k' v' [Hin|[= -> ->]%list_elem_of_singleton]%elem_of_app; [|reflexivity].
    by eapply (StronglySorted_app_1_elem_of row_le _ _ (k', v') (k, v)) in Hs; [|done|left].
  - apply (elem_of_rows_after c m k v). rewrite Hrows. apply elem_of_app. right. by left.
Qed.

Lemma not_after_le c k : ¬ after c k → ∃ c', c = Some c' ∧ bytes_le k c'.
Proof.
  destruct c as [c'|]; cbn; [|done]. intros Hn. exists c'. split; [done|].
  destruct (total bytes_le k c') as [|Hle]; [done|].
  apply bytes_le_lteq in Hle as [?| ->]; [done|reflexivity].
Qed.

Section drains.
Context `{!Healthy KS}.

(** Successive passes, each from the cursor the previous one left. *)
Fixpoint sweep_passes (n : nat) ks (c : option bytes) : KS * option bytes :=
  match n with
  | O => (ks, c)
  | S n' => let '(ks', c') := sweep expired ks c now in sweep_passes n' ks' c'
  end.

(** No expired row at or before the cursor. *)
Definition clean_upto ks (c : option bytes) : Prop :=
  ∀ k v, ks_view ks !! k = Some v → ¬ after c k → expired k v now = false.

Lemma sweep_pass ks c ks' resume :
  healthy ks → clean_upto ks c → sweep expired ks c now = (ks', resume) →
  healthy ks' ∧
  match resume with
  | None => ∀ k v, ks_view ks' !! k = Some v → expired k v now = false
  | Some k =>
      clean_upto ks' resume ∧
      len (rows_after resume (ks_view ks')) + MAX_SWEEP_REMOVALS
        <= len (rows_after c (ks_view ks))
  end.
Proof.
  intros Hks Hclean Hsw. pose proof (λ k v, sweep_subset _ _ _ _ k v Hsw) as Hsub.
  pose proof Hsw as (vis & rest & Hrows & -> & Hres)%sweep_visited.
  rewrite (ok_rows_complete _ _ (ks_range_view ks c) (healthy_range ks c Hks)) in Hrows.
  destruct (sweep_remove_healthy (filter is_dead vis).*1 ks Hks) as [Hh Hgone]. split; [done|].
  set (ks' := sweep_remove _ _) in *.
  assert (Hvis : ∀ k v, (k, v) ∈ vis → ks_view ks' !! k = Some v → expired k v now = false).
  { intros k v Hin Hk. destruct (expired k v now) eqn:E; [|done]. exfalso.
    rewrite Hgone in Hk; [done|]. apply (list_elem_of_fmap_2 fst _ (k, v)).
    apply list_elem_of_filter. unfold is_dead. cbn. by rewrite E. }
  assert (Hin : ∀ k v, ks_view ks' !! k = Some v → after c k → (k, v) ∈ vis ++ rest).
  { intros k v Hk Ha. rewrite <- Hrows. apply elem_of_rows_after. eauto. }
  destruct resume as [k|].
  - destruct Hres as ([v Hlast] & Hlen).
    destruct (rows_after_split _ _ _ _ _ _ Hrows Hlast) as (Hrest & Hle & Hak). split.
    + intros k' v' Hk' Hna. destruct (decide (after c k')) as [Ha|Hna']; [|by eapply Hclean; eauto].
      destruct (proj1 (elem_of_app _ _ _) (Hin _ _ Hk' Ha)) as [?|Hr]; [by eapply Hvis|].
      destruct Hna. cbn. by eapply Hrest.
    + rewrite Hrows, len_app.
      enough (len (rows_after (Some k) (ks_view ks')) <= len rest) by lia.
      enough (rows_after (Some k) (ks_view ks') ⊆+ rest) as Hsm%submseteq_length
        by (unfold len; lia).
      apply NoDup_submseteq; [eapply NoDup_fmap_1, rows_where_NoDup|].
      intros [k' v'] [Hk' Ha']%elem_of_rows_after. cbn in Ha'.
      assert (Hac : after c k').
      { destruct c as [c'|]; cbn in *; [|done]. by etrans. }
      destruct (proj1 (elem_of_app _ _ _) (Hin _ _ Hk' Hac)) as [Hv|?]; [|done].
      apply Hle in Hv. by apply bytes_lt_not_le in Ha'.
  - subst rest. rewrite app_nil_r in Hin. intros k v Hk.
    destruct (decide (after c k)); [by eapply Hvis; eauto|]. by eapply Hclean; eauto.
Qed.

Lemma sweep_passes_drain n : ∀ ks c,
  healthy ks → clean_upto ks c →
  len (rows_after c (ks_view ks)) < MAX_SWEEP_REMOVALS * Z.of_nat n →
  ∃ j ks', (j <= n)%nat ∧ sweep_passes j ks c = (ks', None) ∧ healthy ks' ∧
           ∀ k v, ks_view ks' !! k = Some v → expired k v now = false.
Proof.
  induction n as [|n IH]; intros ks c Hks Hclean Hlen.
  { pose proof (len_nonneg (rows_after c (ks_view ks))). lia. }
  destruct (sweep expired ks c now) as [ks1 [k|]] eqn:Hsw;
    destruct (sweep_pass _ _ _ _ Hks Hclean Hsw) as [Hks1 Hres].
  - destruct Hres as [Hc1 Hl1]. destruct (IH ks1 (Some k) Hks1 Hc1) as (j & ks' & Hj & Hp & ?); [lia|].
    exists (S j), ks'. split; [lia|]. cbn [sweep_passes]. by rewrite Hsw.
  - exists 1%nat, ks1. cbn [sweep_passes]. rewrite Hsw. split; [lia|done].
Qed.
End drains.
End sweep.

(** ** Theorems *)

(** the newest consent wins.  Once a consent is accepted, whatever consents
    follow, the stored version never falls below it; and while no newer one for the
    pair arrives, the row stays exactly the accepted one, so a revocation is not
    undone by a replay of any older grant. *)
Theorem consent_newest_wins s c s1 l :
  consent_typed c → Forall consent_typed l → put_presence_consent s c = (s1, Some true) →
  let s2 := put_consents s1 l in
  (∃ v, consent_version s2 (consent_key c) = Some v ∧ co_version c <= v) ∧
  (Forall (λ c', consent_key c' = consent_key c → co_version c' <= co_version c) l →
   view s2 KsPresenceConsent !! consent_key c = Some (consent_value c) ∧
   (has_presence_consent s2 (co_owner c) (co_recipient c) = true → co_granted c = true)).
Proof.
  intros Hc Hl Hput s2. pose proof (put_consent_cases s c) as Hcase. rewrite Hput in Hcase.
  destruct Hcase as [[_ ?]|(_ & Hview & _)]; [done|].
  assert (Hrow : view s1 KsPresenceConsent !! consent_key c = Some (consent_value c))
    by (by rewrite Hview, lookup_insert_eq).
  split.
  - apply put_consents_monotone; [done|]. unfold consent_version. rewrite Hrow. cbn.
    by apply consent_value_version.
  - intros Hle. assert (Hfin : view s2 KsPresenceConsent !! consent_key c = Some (consent_value c))
      by (by apply put_consents_keep). split; [done|].
    unfold has_presence_consent. fold (consent_key c).
    destruct (ks_get _ _) as [stored|] eqn:Hget; [|done]. apply ks_get_view in Hget.
    unfold view in Hfin. rewrite Hfin in Hget. subst stored.
    rewrite consent_value_granted. intros Hb%bool_decide_eq_true_1. by destruct (co_granted c).
Qed.

(** a presence state reads back until its deadline and not after: the deadline
    is the lease's expiry, but never more than ten minutes past the observation, so a
    relay cannot pin a user online with a distant lease. *)
Theorem presence_state_roundtrip s recipient contact state version observed lease s' now :
  is_u64 observed → is_u64 lease → is_u64 (presence_tag state).2 →
  put_presence_state s recipient contact state version observed lease = (s', Some true) →
  ks_get (space s' KsPresenceState) (recipient ++ contact) ≠ None →
  get_presence_state s' recipient contact now =
    if now >=? Z.min lease (sat_add observed 600000) then None else Some state.
Proof.
  intros Ho Hl Ht Hput Hio. apply put_state_stores in Hput.
  apply (read_state_value _ _ _ _ version); [|done..]. by rewrite Hput, lookup_insert_eq.
Qed.

(** leases only move forward: after a lease is accepted, no sequence of leases of
    at most its version displaces it, and it reads back whole. *)
Theorem lease_newest_wins `{Codec PresenceLease} s le s1 l :
  put_presence_lease s le = (s1, Some true) →
  Forall (λ le', le_user le' = le_user le → le_version le' <= le_version le) l →
  ks_get (space (put_leases s1 l) KsPresenceLease) (le_user le) ≠ None →
  get_presence_lease (put_leases s1 l) (le_user le) = Some le.
Proof.
  intros Hput Hl Hio. pose proof (put_lease_cases s le) as Hcase. rewrite Hput in Hcase.
  destruct Hcase as [[_ ?]|(_ & Hview & _)]; [done|].
  assert (Hs1 : stored_lease s1 (le_user le) = Some le) by (by rewrite Hview, decide_True).
  pose proof (put_leases_keep l s1 le Hs1 Hl) as Hfin.
  unfold get_presence_lease. destruct (ks_get _ _) as [stored|] eqn:Hget; [|done].
  apply ks_get_view in Hget. unfold stored_lease, view in Hfin. rewrite <- Hget in Hfin.
  by destruct stored.
Qed.

(** a sweep removes nothing but expired rows beyond its cursor, whatever reads
    and removals fail on the way. *)
Theorem sweep_only_removes_expired expired ks c now ks' resume k :
  sweep expired ks c now = (ks', resume) →
  ks_view ks' !! k = ks_view ks !! k ∨
  (ks_view ks' !! k = None ∧
   ∃ v, ks_view ks !! k = Some v ∧ expired k v now = true ∧ after c k).
Proof.
  intros (vis & rest & Hrows & -> & _)%sweep_visited.
  destruct (sweep_remove_view (filter (is_dead expired now) vis).*1 ks k) as [?|[? Hin]]; [by left|].
  right. split; [done|]. apply list_elem_of_fmap in Hin as ([k' v] & -> & Hin).
  apply list_elem_of_filter in Hin as [Hdead Hin]. exists v. cbn.
  assert (Hscan : (k', v) ∈ rows_after c (ks_view ks)).
  { apply (so_rows _ _ (ks_range_view ks c)), ok_rows_elem. rewrite Hrows. apply elem_of_app. by left. }
  apply elem_of_rows_after in Hscan as [? ?]. split_and!; [done| |done].
  unfold is_dead in Hdead. cbn in Hdead. by destruct (expired k' v now).
Qed.

(** a keyspace of any size drains: on a working disk, [n] bounded passes that
    resume from each other reach the end of a keyspace of fewer than 4096 [n] rows,
    and then no expired row is left. *)
Theorem sweep_drains `{!Healthy KS} expired ks now n :
  healthy ks → Z.of_nat (size (ks_view ks)) < MAX_SWEEP_REMOVALS * Z.of_nat n →
  ∃ j ks', (j <= n)%nat ∧ sweep_passes expired now j ks None = (ks', None) ∧
           ∀ k v, ks_view ks' !! k = Some v → expired k v now = false.
Proof.
  intros Hks Hsize. destruct (sweep_passes_drain expired now n ks None Hks) as (j & ks' & ? & ? & _ & ?).
  - intros k v _ Hn. by destruct Hn.
  - unfold len, rows_after, rows_where. rewrite merge_sort_Permutation.
    eapply Z.le_lt_trans; [|exact Hsize]. apply inj_le.
    etrans; [apply length_filter|]. apply Nat.eq_le_incl, length_map_to_list.
  - eauto.
Qed.

(** the sweep is not serialised with the writes it races.  If a fresh consent is
    accepted, durably, after the scan has marked its pair's old row and before the
    removals, the removals delete the fresh row. *)
Theorem sweep_race_drops_fresh_consent `{!Healthy KS} s c s1 cursor now :
  healthy (space s1 KsPresenceConsent) →
  put_presence_consent s c = (s1, Some true) →
  let dead := (sweep_collect presence_consent_expired (space s KsPresenceConsent) cursor now).1 in
  consent_key c ∈ dead →
  view s1 KsPresenceConsent !! consent_key c = Some (consent_value c) ∧
  ks_view (sweep_remove (space s1 KsPresenceConsent) dead) !! consent_key c = None.
Proof.
  intros Hh Hput dead Hin. pose proof (put_consent_cases s c) as Hcase. rewrite Hput in Hcase.
  destruct Hcase as [[_ ?]|(_ & Hview & _)]; [done|]. split; [by rewrite Hview, lookup_insert_eq|].
  by apply sweep_remove_healthy.
Qed.
End props.

(** ** Witnesses *)

Section witnesses.
Import Mem.

Definition no_rows : gmap bytes bytes := ∅.

(** A store whose consent keyspace holds [m] and whose other keyspaces are empty. *)
Definition consent_store (m : gmap bytes bytes) : Store mem :=
  mkStore (λ n, if decide (n = KsPresenceConsent) then mem_of m else mem_of no_rows)
    (mkMaint false false 0 0 false).

Definition a_consent (version issued : Z) (granted : bool) : PresenceConsent :=
  mkConsent (replicate 32 1) (replicate 32 2) version issued granted (replicate 64 0).

(** A revocation at version 5, then replays of two older grants. *)
Lemma consent_newest_wins_witness :
  let s2 := put_consents (put_presence_consent (consent_store ∅) (a_consent 5 10 false)).1
              [a_consent 4 10 true; a_consent 5 10 true] in
  view s2 KsPresenceConsent !! consent_key (a_consent 5 10 false)
  = Some (consent_value (a_consent 5 10 false)).
Proof.
  set (s := consent_store ∅). intros s2.
  apply (consent_newest_wins s (a_consent 5 10 false) (put_presence_consent s (a_consent 5 10 false)).1
           [a_consent 4 10 true; a_consent 5 10 true]).
  - by_eval.
  - by_eval.
  - apply pair_snd. vm_compute. reflexivity.
  - repeat constructor; cbn; lia.
Defined.

Lemma presence_state_roundtrip_witness :
  let s := consent_store ∅ in
  let s' := (put_presence_state s (replicate 32 1) (replicate 32 2) (Idle 7) 100 100 900).1 in
  get_presence_state s' (replicate 32 1) (replicate 32 2) 899 = Some (Idle 7) ∧
  get_presence_state s' (replicate 32 1) (replicate 32 2) 900 = None.
Proof.
  intros s s'.
  assert (Hput : put_presence_state s (replicate 32 1) (replicate 32 2) (Idle 7) 100 100 900
                 = (s', Some true)).
  { unfold s'. apply pair_snd. vm_compute. reflexivity. }
  split.
  - rewrite (presence_state_roundtrip s (replicate 32 1) (replicate 32 2) (Idle 7) 100 100 900 s' 899);
      [vm_compute; reflexivity|by_eval|by_eval|by_eval|exact Hput|vm_compute; discriminate].
  - rewrite (presence_state_roundtrip s (replicate 32 1) (replicate 32 2) (Idle 7) 100 100 900 s' 900);
      [vm_compute; reflexivity|by_eval|by_eval|by_eval|exact Hput|vm_compute; discriminate].
Defined.

(** A lease as its fields. *)
Definition raw_lease (le : PresenceLease) : bytes :=
  ToyCodec.enc (le_user le) ++ ToyCodec.enc (le_relay_id le) ++ ToyCodec.enc (le_user_sig le)
  ++ [le_version le; le_issued_at_ms le; le_expires_at_ms le].

Definition parse_lease (b : bytes) : option PresenceLease :=
  '(u, b) ← ToyCodec.dec b; '(r, b) ← ToyCodec.dec b; '(g, b) ← ToyCodec.dec b;
  match b with
  | [v; i; e] => Some (mkLease u r v i e g)
  | _ => None
  end.

Lemma parse_raw_lease le : parse_lease (raw_lease le) = Some le.
Proof.
  unfold parse_lease, raw_lease. do 3 (rewrite ToyCodec.dec_enc; cbn [mbind option_bind]).
  by destruct le.
Qed.

#[local] Instance lease_codec : Codec PresenceLease :=
  {| ser := λ le, Some (raw_lease le); deser := parse_lease;
     deser_ser := ToyCodec.toy_law raw_lease parse_lease parse_raw_lease |}.

Definition a_lease (version : Z) : PresenceLease :=
  mkLease (replicate 32 1) (replicate 32 2) version 10 20 (replicate 64 0).

Lemma lease_newest_wins_witness :
  let s1 := (put_presence_lease (consent_store ∅) (a_lease 9)).1 in
  get_presence_lease (put_leases s1 [a_lease 8; a_lease 9]) (replicate 32 1) = Some (a_lease 9).
Proof.
  intros s1. apply (lease_newest_wins (consent_store ∅) (a_lease 9) s1 [a_lease 8; a_lease 9]).
  - unfold s1. apply pair_snd. vm_compute. reflexivity.
  - repeat constructor; cbn; lia.
  - vm_compute. discriminate.
Defined.

(** Two last-seen rows, one of them older than ninety days at [now]. *)
Definition stamps : mem :=
  mem_of (<[replicate 32 1 := be_bytes 8 5]>
            (<[replicate 32 2 := be_bytes 8 IDLE_IDENTITY_TTL_MS]> ∅)).

Definition later : Z := IDLE_IDENTITY_TTL_MS + 6.

Lemma sweep_only_removes_expired_witness :
  let ks' := (sweep last_seen_expired stamps None later).1 in
  ks_view ks' !! replicate 32 1 = ks_view stamps !! replicate 32 1 ∨
  (ks_view ks' !! replicate 32 1 = None ∧
   ∃ v, ks_view stamps !! replicate 32 1 = Some v ∧ last_seen_expired (replicate 32 1) v later = true ∧
        after None (replicate 32 1)).
Proof.
  intros ks'. apply (sweep_only_removes_expired last_seen_expired stamps None later ks'
                       (sweep last_seen_expired stamps None later).2).
  apply surjective_pairing.
Defined.

Lemma sweep_drains_witness :
  ∃ j ks', (j <= 1)%nat ∧ sweep_passes last_seen_expired later j stamps None = (ks', None) ∧
           ∀ k v, ks_view ks' !! k = Some v → last_seen_expired k v later = false.
Proof. apply sweep_drains; [reflexivity|vm_compute; reflexivity]. Defined.

(** An idle pair's old row, and the consent its owner sends on reconnecting. *)
Definition idle_store : Store mem :=
  consent_store {[consent_key (a_consent 1 1 true) := consent_value (a_consent 1 1 true)]}.

Lemma sweep_race_drops_fresh_consent_witness :
  let s1 := (put_presence_consent idle_store (a_consent 2 later true)).1 in
  let dead := (sweep_collect presence_consent_expired (space idle_store KsPresenceConsent) None later).1 in
  ks_view (sweep_remove (space s1 KsPresenceConsent) dead) !! consent_key (a_consent 2 later true) = None.
Proof.
  intros s1 dead.
  apply (sweep_race_drops_fresh_consent idle_store (a_consent 2 later true) s1 None later).
  - vm_compute. reflexivity.
  - unfold s1. apply pair_snd. vm_compute. reflexivity.
  - by_eval.
Defined.
End witnesses.
