(* ===== verification/Routing.v ===== *)
(** * Routing: the Kademlia routing table of a relay

    [relay/src/dht/routing.rs], over the 256-bit XOR metric of
    [common/src/quic/xor.rs].  [Instant::now()] is an argument of the operations
    that read the clock. *)

From S2P Require Import Prelude Bytes Crypto Proto.

Definition K : nat := 3.
Definition BUCKET_SIZE : nat := 16.
Definition BUCKETS : nat := 256.
Definition BUCKET_REFRESH_MS : Z := 3600000.
Definition PING_FAILURES_BEFORE_EVICTION : Z := 3.

(** [xor32] *)
Definition xor32 (a b : bytes) : bytes := xor_bytes a b.

Record RoutingEntry := mkEntry {
  re_id : bytes;
  re_addr : SocketAddr;
  re_pubkey : bytes;
  re_last_seen : Z;
  re_failed_pings : Z;
}.

(** [RoutingEntry::descriptor] *)
Definition descriptor (e : RoutingEntry) : NodeDescriptor :=
  mkNode (re_id e) (re_addr e) (re_pubkey e).

(** [RoutingEntry::from_descriptor] *)
Definition from_descriptor (d : NodeDescriptor) (now : Z) : RoutingEntry :=
  mkEntry (nd_id d) (nd_addr d) (nd_pubkey d) now 0.

Record Bucket := mkBucket {
  entries : list RoutingEntry;
  refresh_at : Z;
  candidates : list RoutingEntry;
}.

(** [Bucket::empty] *)
Definition Bucket_empty (now : Z) : Bucket := mkBucket [] now [].

Inductive InsertOutcome :=
| IsSelf
| Refreshed
| Inserted
| PendingPing (d : NodeDescriptor)
| Discarded.

Record RoutingTable := mkTable { self_id : bytes; buckets : list Bucket }.

(** [RoutingTable::empty] *)
Definition RoutingTable_empty (self_id : bytes) (now : Z) : RoutingTable :=
  mkTable self_id (replicate BUCKETS (Bucket_empty now)).

(** ** Bucket of a peer *)

(** [u8::leading_zeros] of a non-zero byte. *)
Definition leading_zeros (b : Z) : nat := Z.to_nat (7 - Z.log2 b).

(** The loop of [bucket_for]: eight per zero byte, then the leading zeros of the
    first non-zero one. *)
Fixpoint lzc (l : bytes) : nat :=
  match l with
  | [] => 0
  | b :: l' => if b =? 0 then 8 + lzc l' else leading_zeros b
  end.

(** [bucket_for] *)
Definition bucket_for (self_id peer_id : bytes) : option nat :=
  let lzc := lzc (xor32 self_id peer_id) in
  if decide (lzc = 256%nat) then None else Some (BUCKETS - 1 - lzc)%nat.

(** ** Operations *)

Section ops.
Context `{Crypto}.

Definition set_bucket (t : RoutingTable) (i : nat) (b : Bucket) : RoutingTable :=
  mkTable (self_id t) (<[i := b]> (buckets t)).

(** [bucket.entries.iter().position(|e| e.id == id)], with the entry. *)
Definition position (id : bytes) (l : list RoutingEntry) : option (nat * RoutingEntry) :=
  list_find (λ e, re_id e = id) l.

(** [RoutingTable::insert] on the bucket of the peer. *)
Definition bucket_insert (b : Bucket) (d : NodeDescriptor) (now : Z)
    : Bucket * InsertOutcome :=
  match position (nd_id d) (entries b) with
  | Some (pos, e) =>
      let pubkey := if decide (NodeId_new (nd_pubkey d) = nd_id d)
                    then nd_pubkey d else re_pubkey e in
      let e' := mkEntry (re_id e) (nd_addr d) pubkey now (re_failed_pings e) in
      (mkBucket (delete pos (entries b) ++ [e']) now (candidates b), Refreshed)
  | None =>
      if (length (entries b) <? BUCKET_SIZE)%nat then
        (mkBucket (entries b ++ [from_descriptor d now]) now (candidates b), Inserted)
      else if (length (candidates b) <? BUCKET_SIZE)%nat then
        if existsb (λ c, bool_decide (re_id c = nd_id d)) (candidates b) then
          (mkBucket (entries b) now (candidates b), Discarded)
        else
          match entries b with
          | lru :: _ =>
              (mkBucket (entries b) now (candidates b ++ [from_descriptor d now]),
               PendingPing (descriptor lru))
          | [] => (* unreachable: the bucket is full *) (b, Discarded)
          end
      else (mkBucket (entries b) now (candidates b), Discarded)
  end.

(** [RoutingTable::insert] *)
Definition insert (t : RoutingTable) (d : NodeDescriptor) (now : Z)
    : RoutingTable * InsertOutcome :=
  match bucket_for (self_id t) (nd_id d) with
  | None => (t, IsSelf)
  | Some i =>
      match buckets t !! i with
      | Some b => let '(b', o) := bucket_insert b d now in (set_bucket t i b', o)
      | None => (t, IsSelf)
      end
  end.

Definition set_failed_pings (e : RoutingEntry) (n : Z) : RoutingEntry :=
  mkEntry (re_id e) (re_addr e) (re_pubkey e) (re_last_seen e) n.

(** [u8::saturating_add(1)] *)
Definition u8_sat_succ (n : Z) : Z := Z.min 255 (n + 1).

(** [RoutingTable::ping_failed] on the bucket of the peer. *)
Definition bucket_ping_failed (b : Bucket) (peer_id : bytes) (now : Z) : Bucket :=
  match position peer_id (entries b) with
  | None => b
  | Some (pos, e) =>
      let n := u8_sat_succ (re_failed_pings e) in
      if n <? PING_FAILURES_BEFORE_EVICTION then
        mkBucket (<[pos := set_failed_pings e n]> (entries b)) (refresh_at b) (candidates b)
      else
        match candidates b with
        | [] => mkBucket (delete pos (entries b)) (refresh_at b) []
        | c :: cs =>
            let promoted := mkEntry (re_id c) (re_addr c) (re_pubkey c) now 0 in
            mkBucket (delete pos (entries b) ++ [promoted]) (refresh_at b) cs
        end
  end.

(** [RoutingTable::ping_failed] *)
Definition ping_failed (t : RoutingTable) (peer_id : bytes) (now : Z) : RoutingTable :=
  match bucket_for (self_id t) peer_id with
  | None => t
  | Some i =>
      match buckets t !! i with
      | Some b => set_bucket t i (bucket_ping_failed b peer_id now)
      | None => t
      end
  end.

(** [RoutingTable::ping_succeeded] on the bucket of the peer. *)
Definition bucket_ping_succeeded (b : Bucket) (peer_id : bytes) (now : Z) : Bucket * bool :=
  match position peer_id (entries b) with
  | None => (b, false)
  | Some (pos, e) =>
      let e' := mkEntry (re_id e) (re_addr e) (re_pubkey e) now 0 in
      (mkBucket (delete pos (entries b) ++ [e']) now (candidates b), true)
  end.

(** [RoutingTable::ping_succeeded] *)
Definition ping_succeeded (t : RoutingTable) (peer_id : bytes) (now : Z)
    : RoutingTable * bool :=
  match bucket_for (self_id t) peer_id with
  | None => (t, false)
  | Some i =>
      match buckets t !! i with
      | Some b => let '(b', r) := bucket_ping_succeeded b peer_id now in (set_bucket t i b', r)
      | None => (t, false)
      end
  end.

(** [RoutingTable::get] *)
Definition get (t : RoutingTable) (id : bytes) : option RoutingEntry :=
  i ← bucket_for (self_id t) id;
  b ← buckets t !! i;
  snd <$> position id (entries b).

(** [self.buckets.iter().flat_map(|bucket| &bucket.entries)] *)
Definition all_entries (t : RoutingTable) : list RoutingEntry :=
  List.concat (map entries (buckets t)).

(** Order of [sort_unstable_by_key(|(dist, _)| *dist)]. *)
Definition dist_le (p q : bytes * RoutingEntry) : Prop := bytes_le p.1 q.1.

#[global] Instance dist_le_dec : RelDecision dist_le.
Proof. intros p q. unfold dist_le. apply _. Defined.

(** [slice::sort_unstable_by_key] *)
Definition sort_by_dist (l : list (bytes * RoutingEntry)) : list (bytes * RoutingEntry) :=
  merge_sort dist_le l.

(** [slice::select_nth_unstable_by_key]: some permutation that puts nothing
    greater before the index.  The model takes the fully sorted one;
    [closest_unique] shows the choice does not matter. *)
Definition select_nth (n : nat) (l : list (bytes * RoutingEntry))
    : list (bytes * RoutingEntry) :=
  sort_by_dist l.

Definition with_dist (target : bytes) (e : RoutingEntry) : bytes * RoutingEntry :=
  (xor32 (re_id e) target, e).

(** [RoutingTable::closest] *)
Definition closest (t : RoutingTable) (target : bytes) (count : nat) : list RoutingEntry :=
  let scratch := map (with_dist target) (all_entries t) in
  let scratch := if (count <? length scratch)%nat
                 then take count (select_nth count scratch) else scratch in
  map snd (sort_by_dist scratch).

(** [RoutingTable::find_closest] *)
Definition find_closest (t : RoutingTable) (target : bytes) (count : nat)
    : list NodeDescriptor :=
  map descriptor (closest t target count).

(** [RoutingTable::total_known] *)
Definition total_known (t : RoutingTable) : nat :=
  sum_list (map (λ b, length (entries b)) (buckets t)).

(** [now.checked_duration_since(refresh_at)] is [None] when [refresh_at] is later
    than [now], else an age the threshold is compared with. *)
Definition needs_refresh (now : Z) (b : Bucket) : bool :=
  match entries b with
  | [] => false
  | _ :: _ => (refresh_at b <=? now) && (BUCKET_REFRESH_MS <=? now - refresh_at b)
  end.

Fixpoint stale_from (idx : nat) (bs : list Bucket) (now : Z) : list nat :=
  match bs with
  | [] => []
  | b :: bs' =>
      if needs_refresh now b then idx :: stale_from (S idx) bs' now
      else stale_from (S idx) bs' now
  end.

(** [RoutingTable::buckets_needing_refresh] *)
Definition buckets_needing_refresh (t : RoutingTable) (now : Z) : list nat :=
  stale_from 0 (buckets t) now.

(** [RoutingTable::mark_refreshed] *)
Definition mark_refreshed (t : RoutingTable) (i : nat) (now : Z) : RoutingTable :=
  match buckets t !! i with
  | Some b => set_bucket t i (mkBucket (entries b) now (candidates b))
  | None => t
  end.

(** The mask [0x80u8 >> (bit % 8)]. *)
Definition bit_mask (bit : nat) : Z := Z.shiftr 128 (Z.of_nat (bit mod 8)).

(** [out[bit / 8] = (out[bit / 8] & !mask) | (noise[bit / 8] & mask)] *)
Definition take_bit (noise out : bytes) (bit : nat) : bytes :=
  let mask := bit_mask bit in
  alter (λ o, Z.lor (Z.ldiff o mask) (Z.land (nth (bit / 8) noise 0) mask)) (bit / 8)%nat out.

(** [random_id_in_bucket]; [noise] is what [SysRng.try_fill_bytes] wrote, [None]
    when it failed. *)
Definition random_id_in_bucket (self_id : bytes) (bucket_idx : nat) (noise : option bytes)
    : option bytes :=
  if (BUCKETS <=? bucket_idx)%nat then None
  else
    noise ← noise;
    let first_diff := (BUCKETS - 1 - bucket_idx)%nat in
    let out := alter (λ o, Z.lxor o (bit_mask first_diff)) (first_diff / 8)%nat self_id in
    Some (fold_left (take_bit noise) (seq (first_diff + 1) (BUCKETS - (first_diff + 1))) out).

(** [homes]: the remote homes of [target] and whether this relay is one. *)
Definition homes (t : RoutingTable) (node_id target : bytes) : list NodeDescriptor * bool :=
  let remote := find_closest t target K in
  let is_home :=
    match remote !! (K - 1)%nat with
    | None => true
    | Some d =>
        bool_decide (bytes_le (xor32 node_id target) (xor32 (nd_id d) target))
    end in
  (if is_home then take (K - 1) remote else remote, is_home).
End ops.

(** ** The bucket index is the integer logarithm of the XOR distance *)

Lemma log2_byte b : is_u8 b → b ≠ 0 → 0 <= Z.log2 b <= 7.
Proof.
  unfold is_u8. intros ??. pose proof (Z.log2_nonneg b).
  assert (Z.log2 b < 8); [|lia]. apply Z.log2_lt_pow2; lia.
Qed.

Lemma log2_shifted_byte b k v :
  0 < b → 0 <= k → 0 <= v < 2 ^ k → Z.log2 (b * 2 ^ k + v) = Z.log2 b + k.
Proof.
  intros Hb Hk Hv. pose proof (Z.log2_nonneg b).
  destruct (Z.log2_spec b Hb) as [Hlo Hhi].
  apply Z.log2_unique; [lia|].
  rewrite Z.pow_succ_r, Z.pow_add_r by lia. rewrite Z.pow_succ_r in Hhi by lia. nia.
Qed.

Lemma pow256_pow2 n : 256 ^ Z.of_nat n = 2 ^ (8 * Z.of_nat n).
Proof. rewrite Z.pow_mul_r by lia. done. Qed.

(** Leading zeros of a byte string, in terms of the integer it denotes. *)
Lemma lzc_spec l :
  Forall is_u8 l →
  if decide (be_val l = 0) then lzc l = (8 * length l)%nat
  else Z.of_nat (lzc l) = 8 * len l - 1 - Z.log2 (be_val l).
Proof.
  unfold len. induction 1 as [|b l Hb Hl IH]; [done|].
  pose proof (be_val_bound l Hl) as Hv. unfold len in Hv.
  cbn [be_val lzc length]. unfold len. rewrite pow256_pow2 in *.
  pose proof (Z.pow_pos_nonneg 2 (8 * Z.of_nat (length l))) as Hp.
  destruct (b =? 0) eqn:Hb0; breflect.
  - subst b. replace (0 * _ + be_val l) with (be_val l) by lia.
    destruct (decide (be_val l = 0)); lia.
  - pose proof (log2_byte b Hb Hb0). unfold is_u8 in Hb.
    rewrite decide_False by nia. rewrite log2_shifted_byte by lia.
    unfold leading_zeros. lia.
Qed.

Lemma be_val_zero l : Forall is_u8 l → be_val l = 0 → l = replicate (length l) 0.
Proof.
  intros Hl H0. apply be_val_inj; [by rewrite length_replicate|done| |].
  - apply Forall_replicate. unfold is_u8. lia.
  - rewrite H0. clear. induction (length l) as [|n IH]; cbn; [done|]. lia.
Qed.

Lemma lxor_be_val_eq a b :
  wf_arr 32 a → wf_arr 32 b → Z.lxor (be_val a) (be_val b) = 0 ↔ a = b.
Proof.
  intros [Ha Ha'] [Hb Hb']. rewrite Z.lxor_eq_0_iff. split; [|by intros ->].
  intros. apply be_val_inj; congruence.
Qed.

Lemma bucket_for_log2 a b :
  wf_arr 32 a → wf_arr 32 b →
  bucket_for a b =
    if decide (a = b) then None
    else Some (Z.to_nat (Z.log2 (Z.lxor (be_val a) (be_val b)))).
Proof.
  intros Ha Hb. pose proof (wf_xor_bytes _ _ _ Ha Hb) as [Hx Hx'].
  pose proof (lzc_spec _ Hx') as Hl. pose proof (be_val_bound _ Hx') as Hbd.
  unfold bucket_for, xor32, len, BUCKETS in *. rewrite Hx in *.
  rewrite be_val_xor in Hl, Hbd by (destruct Ha, Hb; congruence).
  destruct (decide (a = b)) as [->|Hne].
  - rewrite Z.lxor_nilpotent in Hl. by rewrite Hl, decide_True by done.
  - assert (Z.lxor (be_val a) (be_val b) ≠ 0) as Hnz by (rewrite lxor_be_val_eq by done; done).
    rewrite decide_False in Hl by done. rewrite decide_False.
    + f_equal. lia.
    + pose proof (Z.log2_nonneg (Z.lxor (be_val a) (be_val b))). lia.
Qed.

Lemma bucket_for_bound a b i : bucket_for a b = Some i → (i < BUCKETS)%nat.
Proof.
  unfold bucket_for, BUCKETS. case_decide; [done|]. intros [= <-]. lia.
Qed.

Lemma bucket_for_self a : length a = 32%nat → bucket_for a a = None.
Proof.
  intros Ha. unfold bucket_for, xor32.
  assert (xor_bytes a a = replicate (length a) 0) as ->.
  { clear Ha. induction a as [|x a IH]; cbn; [done|]. unfold xor_bytes in *. cbn.
    by rewrite Z.lxor_nilpotent, IH. }
  by rewrite Ha.
Qed.

(** ** Bits of an identifier, most significant first *)

Definition bit_at (l : bytes) (k : nat) : bool :=
  Z.testbit (nth (k / 8) l 0) (7 - Z.of_nat (k mod 8)).

Lemma bit_mask_pow2 bit : bit_mask bit = 2 ^ (7 - Z.of_nat (bit mod 8)).
Proof.
  unfold bit_mask. pose proof (Nat.mod_upper_bound bit 8).
  rewrite Z.shiftr_div_pow2 by lia. change 128 with (2 ^ 7).
  rewrite <- Z.pow_sub_r by lia. done.
Qed.

Lemma bit_mask_testbit bit n :
  0 <= n → Z.testbit (bit_mask bit) n = bool_decide (n = 7 - Z.of_nat (bit mod 8)).
Proof.
  intros Hn. rewrite bit_mask_pow2. pose proof (Nat.mod_upper_bound bit 8).
  rewrite Z.pow2_bits_eqb by lia. rewrite Z.eqb_sym.
  apply eq_true_iff_eq. rewrite Z.eqb_eq. by rewrite bool_decide_eq_true.
Qed.

Lemma bit_mask_u8 bit : is_u8 (bit_mask bit).
Proof.
  rewrite bit_mask_pow2. pose proof (Nat.mod_upper_bound bit 8). unfold is_u8. split.
  - apply Z.pow_nonneg. lia.
  - change 256 with (2 ^ 8). apply Z.pow_lt_mono_r; lia.
Qed.

Lemma bit_at_cons_lt b l k : (k < 8)%nat → bit_at (b :: l) k = Z.testbit b (7 - Z.of_nat k).
Proof.
  intros Hk. unfold bit_at. by rewrite Nat.div_small, Nat.mod_small by done.
Qed.

Lemma bit_at_cons_ge b l k : bit_at (b :: l) (8 + k) = bit_at l k.
Proof.
  unfold bit_at. replace (8 + k)%nat with (k + 1 * 8)%nat by lia.
  rewrite Nat.div_add, Nat.Div0.mod_add by lia. by rewrite Nat.add_1_r.
Qed.

(** The first set bit of a byte string counts its leading zeros. *)
Lemma lzc_first_bit l d :
  Forall is_u8 l → (∀ k, (k < d)%nat → bit_at l k = false) → bit_at l d = true → lzc l = d.
Proof.
  intros Hl. revert d. induction Hl as [|b l Hb Hl IH]; intros d Hlow Hd.
  { unfold bit_at in Hd. destruct (d / 8)%nat; cbn in Hd; by rewrite Z.bits_0 in Hd. }
  cbn [lzc]. destruct (b =? 0) eqn:Hb0; breflect.
  - subst b. destruct (decide (d < 8)%nat) as [Hlt|Hge].
    + rewrite bit_at_cons_lt, Z.bits_0 in Hd by done. done.
    + replace d with (8 + (d - 8))%nat in * by lia.
      rewrite bit_at_cons_ge in Hd. rewrite (IH (d - 8)%nat); [lia| |done].
      intros k Hk. rewrite <- (bit_at_cons_ge 0 l k). apply Hlow. lia.
  - pose proof (log2_byte b Hb Hb0) as Hlog. unfold is_u8 in Hb.
    assert (Hd8 : (d < 8)%nat).
    { destruct (decide (d < 8)%nat); [done|]. exfalso.
      specialize (Hlow (Z.to_nat (7 - Z.log2 b))). rewrite bit_at_cons_lt in Hlow by lia.
      rewrite Z2Nat.id in Hlow by lia. replace (7 - (7 - Z.log2 b)) with (Z.log2 b) in Hlow by lia.
      rewrite Z.bit_log2 in Hlow by lia. discriminate Hlow. lia. }
    rewrite bit_at_cons_lt in Hd by done.
    enough (Z.log2 b = 7 - Z.of_nat d) by (unfold leading_zeros; lia).
    apply Z.log2_bits_unique; [done|]. intros m Hm.
    destruct (decide (m < 8)) as [Hm8|]; [|apply testbit_small with 8; lia].
    specialize (Hlow (Z.to_nat (7 - m))). rewrite bit_at_cons_lt in Hlow by lia.
    replace (7 - Z.of_nat (Z.to_nat (7 - m))) with m in Hlow by lia. apply Hlow. lia.
Qed.

Lemma bit_at_alter_ne f i l k : (k / 8)%nat ≠ i → bit_at (alter f i l) k = bit_at l k.
Proof.
  intros Hk. unfold bit_at. rewrite !nth_lookup. by rewrite list_lookup_alter_ne by done.
Qed.

Lemma bit_at_alter_eq f i l k :
  (k / 8)%nat = i → (i < length l)%nat →
  bit_at (alter f i l) k = Z.testbit (f (nth i l 0)) (7 - Z.of_nat (k mod 8)).
Proof.
  intros <- Hi. unfold bit_at. rewrite !nth_lookup, list_lookup_alter_eq.
  apply lookup_lt_is_Some_2 in Hi as [x ->]. done.
Qed.

Lemma div_mod8_inj k d : (k / 8 = d / 8)%nat → (k mod 8 = d mod 8)%nat → k = d.
Proof. intros. rewrite (Nat.div_mod_eq k 8), (Nat.div_mod_eq d 8). congruence. Qed.

(** XOR with the mask of bit [d] flips that bit and no other. *)
Lemma flip_bit_at l d k :
  (d / 8 < length l)%nat →
  bit_at (alter (λ o, Z.lxor o (bit_mask d)) (d / 8)%nat l) k
  = xorb (bit_at l k) (bool_decide (k = d)).
Proof.
  intros Hd. destruct (decide ((k / 8)%nat = (d / 8)%nat)) as [E|E].
  - rewrite bit_at_alter_eq by done. pose proof (Nat.mod_upper_bound k 8).
    rewrite Z.lxor_spec, bit_mask_testbit by lia. unfold bit_at. rewrite E. f_equal.
    apply bool_decide_ext. split; [|by intros ->]. intros.
    apply div_mod8_inj; [done|]. pose proof (Nat.mod_upper_bound d 8). lia.
  - rewrite bit_at_alter_ne by done. rewrite bool_decide_eq_false_2 by congruence.
    by rewrite xorb_false_r.
Qed.

(** Drawing one bit from the noise leaves every other bit alone. *)
Lemma take_bit_ne noise l d k : k ≠ d → bit_at (take_bit noise l d) k = bit_at l k.
Proof.
  intros Hk. unfold take_bit.
  destruct (decide ((k / 8)%nat = (d / 8)%nat)) as [E|E]; [|by apply bit_at_alter_ne].
  destruct (decide (d / 8 < length l)%nat) as [Hd|Hd].
  - rewrite bit_at_alter_eq by done. pose proof (Nat.mod_upper_bound k 8).
    rewrite Z.lor_spec, Z.ldiff_spec, Z.land_spec, bit_mask_testbit by lia.
    rewrite bool_decide_eq_false_2.
    + unfold bit_at. rewrite E. by rewrite andb_true_r, andb_false_r, orb_false_r.
    + intros ?. apply Hk, div_mod8_inj; [done|]. pose proof (Nat.mod_upper_bound d 8). lia.
  - unfold bit_at. rewrite !nth_lookup, E, list_lookup_alter_eq.
    by rewrite (lookup_ge_None_2 l) by lia.
Qed.

Lemma take_bits_other noise bits l k :
  k ∉ bits → bit_at (fold_left (take_bit noise) bits l) k = bit_at l k.
Proof.
  revert l. induction bits as [|d bits IH]; intros l Hk; cbn; [done|].
  apply not_elem_of_cons in Hk as [??]. rewrite IH by done. by apply take_bit_ne.
Qed.

Lemma alter_wf n f i l :
  (∀ x, is_u8 x → is_u8 (f x)) → wf_arr n l → wf_arr n (alter f i l).
Proof.
  intros Hf [Hl Hu]. split; [by rewrite length_alter|].
  apply Forall_alter; [done|]. intros x _ Hx. auto.
Qed.

Lemma mix_bit_u8 o n d : is_u8 o → is_u8 n → is_u8 (Z.lor (Z.ldiff o (bit_mask d)) (Z.land n (bit_mask d))).
Proof.
  intros Ho Hn. pose proof (bit_mask_u8 d) as Hm. unfold is_u8 in *.
  assert (0 <= Z.lor (Z.ldiff o (bit_mask d)) (Z.land n (bit_mask d))).
  { apply Z.lor_nonneg. rewrite Z.ldiff_nonneg, Z.land_nonneg. lia. }
  split; [done|]. change 256 with (2 ^ 8). apply bits_bound; [done..|]. intros m Hmge.
  by rewrite Z.lor_spec, Z.ldiff_spec, Z.land_spec, !(testbit_small 8) by lia.
Qed.

Lemma nth_u8 l i : Forall is_u8 l → is_u8 (nth i l 0).
Proof.
  intros Hl. rewrite nth_lookup. destruct (l !! i) as [x|] eqn:E; cbn.
  - by eapply Forall_lookup in E.
  - unfold is_u8. lia.
Qed.

Lemma take_bit_wf n noise l d : Forall is_u8 noise → wf_arr n l → wf_arr n (take_bit noise l d).
Proof. intros Hn. apply alter_wf. intros. by apply mix_bit_u8; [|apply nth_u8]. Qed.

Lemma take_bits_wf n noise bits l :
  Forall is_u8 noise → wf_arr n l → wf_arr n (fold_left (take_bit noise) bits l).
Proof.
  intros Hn. revert l. induction bits as [|d bits IH]; cbn; [done|].
  intros. by apply IH, take_bit_wf.
Qed.

(** Two identifiers that first differ at bit [d] are in each other's bucket
    [BUCKETS - 1 - d]. *)
Lemma bucket_for_first_diff a b d :
  wf_arr 32 a → wf_arr 32 b → (d < BUCKETS)%nat →
  (∀ k, (k < d)%nat → bit_at b k = bit_at a k) → bit_at b d = negb (bit_at a d) →
  bucket_for a b = Some (BUCKETS - 1 - d)%nat.
Proof.
  intros Ha Hb Hd Hlow Hdiff. unfold bucket_for.
  assert (Hbits : ∀ k, bit_at (xor32 a b) k = xorb (bit_at a k) (bit_at b k)).
  { intros k. unfold bit_at, xor32, xor_bytes. rewrite !nth_lookup, lookup_zip_with.
    destruct Ha as [Ha _], Hb as [Hb _]. destruct (decide (k / 8 < 32)%nat).
    - destruct (lookup_lt_is_Some_2 a (k / 8)%nat) as [x ->]; [lia|].
      destruct (lookup_lt_is_Some_2 b (k / 8)%nat) as [y ->]; [lia|]. cbn. apply Z.lxor_spec.
    - rewrite !(lookup_ge_None_2 _ (k / 8)%nat) by lia. cbn. by rewrite !Z.bits_0. }
  rewrite (lzc_first_bit _ d); [|by eapply wf_arr_u8, wf_xor_bytes| |].
  - rewrite decide_False; [done|]. unfold BUCKETS in Hd. lia.
  - intros k Hk. by rewrite Hbits, Hlow, xorb_nilpotent by done.
  - rewrite Hbits, Hdiff. by destruct (bit_at a d).
Qed.

(** ** Properties of the bucket index *)

(** the bucket of a peer is the position of the highest bit in which its
    identifier and this relay's differ, that is the integer logarithm of their
    256-bit XOR distance; there is none exactly for this relay's own identifier,
    and the index is always one of the 256 buckets. *)
Theorem bucket_for_correct self peer :
  wf_arr 32 self → wf_arr 32 peer →
  (bucket_for self peer = None ↔ self = peer) ∧
  ∀ i, bucket_for self peer = Some i ↔
       self ≠ peer ∧ Z.of_nat i = Z.log2 (Z.lxor (be_val self) (be_val peer)) ∧
       (i < BUCKETS)%nat.
Proof.
  intros Hs Hp. pose proof (bucket_for_log2 self peer Hs Hp) as Hlog.
  pose proof (Z.log2_nonneg (Z.lxor (be_val self) (be_val peer))).
  split.
  - rewrite Hlog. destruct (decide (self = peer)); naive_solver.
  - intros i. split.
    + intros Hi. pose proof (bucket_for_bound _ _ _ Hi). rewrite Hlog in Hi.
      case_decide; simplify_eq. split_and!; [done|lia|done].
    + intros (Hne & Hi & _). rewrite Hlog, decide_False by done. f_equal. lia.
Qed.

Lemma bucket_for_correct_witness :
  bucket_for (replicate 32 0) (replicate 31 0 ++ [5]) = Some 2%nat ∧
  (replicate 32 0 ≠ replicate 31 0 ++ [5] ∧
   Z.of_nat 2 = Z.log2 (Z.lxor (be_val (replicate 32 0)) (be_val (replicate 31 0 ++ [5]))) ∧
   (2 < BUCKETS)%nat).
Proof.
  assert (E : bucket_for (replicate 32 0) (replicate 31 0 ++ [5]) = Some 2%nat) by reflexivity.
  split; [exact E|].
  apply (bucket_for_correct (replicate 32 0) (replicate 31 0 ++ [5])).
  - by_eval.
  - by_eval.
  - exact E.
Defined.

(** whatever the random bytes, a refresh target drawn for a bucket lies in
    that bucket; out-of-range buckets and a failing generator give none. *)
Theorem random_id_in_bucket_lands self i noise :
  wf_arr 32 self → wf_arr 32 noise →
  random_id_in_bucket self i None = None ∧
  match random_id_in_bucket self i (Some noise) with
  | None => (BUCKETS <= i)%nat
  | Some target => (i < BUCKETS)%nat ∧ wf_arr 32 target ∧ bucket_for self target = Some i
  end.
Proof.
  intros Hs Hn. unfold random_id_in_bucket.
  destruct (BUCKETS <=? i)%nat eqn:Hi; breflect; [done|]. split; [done|]. cbn [mbind option_bind].
  unfold BUCKETS in *. set (d := (256 - 1 - i)%nat). assert (Hd : (d < 256)%nat) by lia.
  assert (Hd8 : (d / 8 < length self)%nat).
  { rewrite (wf_arr_length _ _ Hs). apply Nat.Div0.div_lt_upper_bound. lia. }
  assert (Hseq : ∀ k, (k <= d)%nat → k ∉ seq (d + 1) (256 - (d + 1)))
    by (intros k Hk; rewrite elem_of_seq; lia).
  assert (Hwf : wf_arr 32 (alter (λ o, Z.lxor o (bit_mask d)) (d / 8)%nat self)).
  { apply alter_wf; [|done]. intros. apply lxor_u8; [done|]. apply bit_mask_u8. }
  split_and!; [lia|by apply take_bits_wf; [eapply wf_arr_u8|]|].
  replace i with (BUCKETS - 1 - d)%nat by (unfold BUCKETS; lia).
  apply bucket_for_first_diff; [done|by apply take_bits_wf; [eapply wf_arr_u8|]|done| |].
  - intros k Hk. rewrite take_bits_other, flip_bit_at by (done || apply Hseq; lia).
    rewrite bool_decide_eq_false_2 by lia. apply xorb_false_r.
  - rewrite take_bits_other, flip_bit_at by (done || apply Hseq; lia).
    rewrite bool_decide_eq_true_2 by done. apply xorb_true_r.
Qed.

Lemma random_id_in_bucket_lands_witness :
  random_id_in_bucket (replicate 32 7) 9 None = None ∧
  match random_id_in_bucket (replicate 32 7) 9 (Some (replicate 32 201)) with
  | None => (BUCKETS <= 9)%nat
  | Some target => (9 < BUCKETS)%nat ∧ wf_arr 32 target ∧
                   bucket_for (replicate 32 7) target = Some 9%nat
  end.
Proof.
  apply (random_id_in_bucket_lands (replicate 32 7) 9 (replicate 32 201));
    by_eval.
Defined.
