(* ===== verification/RoutingInv.v ===== *)
(** * RoutingInv: invariants of the routing table and its eviction policy

    The table of [Routing] after any sequence of the operations of
    [relay/src/dht/routing.rs]: bounded buckets, no duplicates, every peer in its
    own bucket, identifiers bound to keys, and no eviction short of three failed
    probes in a row. *)

From S2P Require Import Prelude Bytes Crypto Proto Routing.

(** ** Invariants *)

Record wf_bucket (self : bytes) (i : nat) (b : Bucket) : Prop := {
  wb_entries_bound : (length (entries b) <= BUCKET_SIZE)%nat;
  wb_candidates_bound : (length (candidates b) <= BUCKET_SIZE)%nat;
  wb_cache_only_when_full : candidates b ≠ [] → length (entries b) = BUCKET_SIZE;
  wb_nodup : NoDup (map re_id (entries b ++ candidates b));
  wb_peers : Forall (λ e, wf_arr 32 (re_id e) ∧ bucket_for self (re_id e) = Some i ∧
                          0 <= re_failed_pings e < PING_FAILURES_BEFORE_EVICTION)
                    (entries b ++ candidates b);
}.

Record wf_table (t : RoutingTable) : Prop := {
  wt_self : wf_arr 32 (self_id t);
  wt_length : length (buckets t) = BUCKETS;
  wt_buckets : ∀ i b, buckets t !! i = Some b → wf_bucket (self_id t) i b;
}.

(** Every entry and candidate satisfies [P]. *)
Definition table_all (P : RoutingEntry → Prop) (t : RoutingTable) : Prop :=
  Forall (λ b, Forall P (entries b ++ candidates b)) (buckets t).

(** ** Sequences of operations *)

Inductive table_op :=
| OpInsert (d : NodeDescriptor) (now : Z)
| OpPingFailed (id : bytes) (now : Z)
| OpPingSucceeded (id : bytes) (now : Z)
| OpMarkRefreshed (i : nat) (now : Z).

Section ops.
Context `{Crypto}.

Definition apply_op (t : RoutingTable) (o : table_op) : RoutingTable :=
  match o with
  | OpInsert d now => (insert t d now).1
  | OpPingFailed id now => ping_failed t id now
  | OpPingSucceeded id now => (ping_succeeded t id now).1
  | OpMarkRefreshed i now => mark_refreshed t i now
  end.

Definition run_ops (t : RoutingTable) (l : list table_op) : RoutingTable :=
  fold_left apply_op l t.

(** The identifiers an operation carries are [[u8; 32]]. *)
Definition op_typed (o : table_op) : Prop :=
  match o with
  | OpInsert d _ => wf_arr 32 (nd_id d)
  | _ => True
  end.

#[global] Instance op_typed_dec o : Decision (op_typed o).
Proof. destruct o; cbn; apply _. Defined.

(** The descriptors callers insert hash to their identifiers. *)
Definition op_bound (o : table_op) : Prop :=
  match o with
  | OpInsert d _ => NodeId_new (nd_pubkey d) = nd_id d
  | _ => True
  end.

Definition entry_bound (e : RoutingEntry) : Prop := NodeId_new (re_pubkey e) = re_id e.

(** ** Locating a peer *)

Lemma position_Some id l pos e :
  position id l = Some (pos, e) →
  ∃ l1 l2, l = l1 ++ e :: l2 ∧ length l1 = pos ∧ re_id e = id.
Proof. intros (l1 & l2 & ? & ? & ? & _)%list_find_split. eauto. Qed.

Lemma position_None id l : position id l = None ↔ id ∉ map re_id l.
Proof.
  unfold position. rewrite list_find_None, Forall_forall, list_elem_of_fmap. naive_solver.
Qed.

Lemma position_middle l1 l2 e :
  NoDup (map re_id (l1 ++ e :: l2)) → position (re_id e) (l1 ++ e :: l2) = Some (length l1, e).
Proof.
  intros Hnd. apply list_find_Some. split_and!; [by apply list_lookup_middle|done|].
  intros j y Hj Hlt Heq. rewrite lookup_app_l in Hj by done.
  rewrite map_app in Hnd. apply NoDup_app in Hnd as (_ & Hdisj & _).
  apply (Hdisj (re_id y)).
  - apply list_elem_of_fmap. exists y. split; [done|]. by eapply list_elem_of_lookup_2.
  - rewrite Heq. cbn. by left.
Qed.

(** ** Each operation on one bucket preserves the bucket's invariant *)

Lemma map_re_id_swap (l1 l2 c : list RoutingEntry) e e' :
  re_id e' = re_id e →
  map re_id ((l1 ++ e :: l2) ++ c) ≡ₚ map re_id (((l1 ++ l2) ++ [e']) ++ c).
Proof.
  intros Heq. rewrite !map_app. cbn [map]. rewrite Heq.
  apply Permutation_app_tail. by rewrite <- Permutation_cons_append, Permutation_middle.
Qed.

(** Moving an entry to the most recently seen end, with other details. *)
Lemma wf_bucket_move self i b l1 e l2 e' t' :
  wf_bucket self i b → entries b = l1 ++ e :: l2 → re_id e' = re_id e →
  0 <= re_failed_pings e' < PING_FAILURES_BEFORE_EVICTION →
  wf_bucket self i (mkBucket ((l1 ++ l2) ++ [e']) t' (candidates b)).
Proof.
  intros [H1 H2 H3 H4 H5] He Hid Hf. rewrite He in *.
  constructor; cbn [entries candidates].
  - revert H1. rewrite !length_app. cbn. lia.
  - done.
  - intros Hc. specialize (H3 Hc). revert H3. rewrite !length_app. cbn. lia.
  - by rewrite <- (map_re_id_swap l1 l2 _ e e').
  - norm_Forall. rewrite Hid. naive_solver.
Qed.

Lemma wf_bucket_refresh_at self i b t' :
  wf_bucket self i b → wf_bucket self i (mkBucket (entries b) t' (candidates b)).
Proof. by intros [????]. Qed.

Lemma bucket_insert_wf self i b d now :
  wf_bucket self i b → wf_arr 32 (nd_id d) → bucket_for self (nd_id d) = Some i →
  wf_bucket self i (bucket_insert b d now).1.
Proof.
  intros Hb Hd Hi. unfold bucket_insert.
  destruct (position _ _) as [[pos e]|] eqn:Hpos.
  - apply position_Some in Hpos as (l1 & l2 & He & <- & Hid).
    cbn [fst]. rewrite He, delete_middle.
    eapply wf_bucket_move; [done..|]. cbn.
    pose proof (wb_peers _ _ _ Hb) as Hp. rewrite He in Hp. norm_Forall. naive_solver.
  - apply position_None in Hpos. pose proof Hb as [H1 H2 H3 H4 H5].
    assert (Hnew : wf_arr 32 (nd_id d) ∧ bucket_for self (nd_id d) = Some i ∧
                   0 <= 0 < PING_FAILURES_BEFORE_EVICTION) by done.
    destruct (_ <? _)%nat eqn:Hlen; breflect; cbn [fst].
    { destruct (candidates b) as [|c cs] eqn:Hc; [|specialize (H3 ltac:(done)); lia].
      rewrite app_nil_r in H4, H5.
      constructor; cbn [entries candidates]; rewrite ?app_nil_r; [|cbn; lia|done| |].
      - rewrite length_app. cbn. lia.
      - rewrite map_app. cbn. apply NoDup_app. split_and!; [done| |apply NoDup_singleton].
        intros x Hx ->%list_elem_of_singleton. done.
      - apply Forall_app. split; [done|]. by apply Forall_singleton. }
    destruct (length (candidates b) <? _)%nat eqn:Hcl; breflect; [|by apply wf_bucket_refresh_at].
    destruct (existsb _ _) eqn:Hex; [by apply wf_bucket_refresh_at|].
    destruct (entries b) as [|lru es] eqn:Hes; cbn [fst]; [cbn in Hlen; unfold BUCKET_SIZE in Hlen; lia|].
    rewrite <- Hes in *. constructor; cbn [entries candidates]; [lia| |lia| |].
    + rewrite length_app. cbn. lia.
    + rewrite app_assoc, map_app. apply NoDup_app. split_and!; [done| |apply NoDup_singleton].
      intros x Hx ->%list_elem_of_singleton. rewrite map_app, elem_of_app in Hx.
      destruct Hx as [?|(c & Hc & Hin)%list_elem_of_fmap]; [done|].
      apply not_true_iff_false in Hex. apply Hex, existsb_exists. exists c.
      split; [by apply list_elem_of_In|]. by apply bool_decide_eq_true_2.
    + rewrite app_assoc. apply Forall_app. split; [done|]. by apply Forall_singleton.
Qed.

Lemma bucket_ping_succeeded_wf self i b id now :
  wf_bucket self i b → wf_bucket self i (bucket_ping_succeeded b id now).1.
Proof.
  intros Hb. unfold bucket_ping_succeeded.
  destruct (position _ _) as [[pos e]|] eqn:Hpos; [|done].
  apply position_Some in Hpos as (l1 & l2 & He & <- & Hid). cbn [fst].
  rewrite He, delete_middle. eapply wf_bucket_move; [done..|]. done.
Qed.

Lemma bucket_ping_failed_wf self i b id now :
  wf_bucket self i b → wf_bucket self i (bucket_ping_failed b id now).
Proof.
  intros Hb. unfold bucket_ping_failed.
  destruct (position _ _) as [[pos e]|] eqn:Hpos; [|done].
  apply position_Some in Hpos as (l1 & l2 & He & <- & Hid).
  pose proof Hb as [H1 H2 H3 H4 H5]. rewrite He in *.
  rewrite insert_middle, delete_middle. unfold u8_sat_succ.
  destruct (_ <? _) eqn:Hf; breflect.
  - constructor; cbn [entries candidates]; revert H1 H3 H4 H5;
      rewrite ?map_app, ?length_app; cbn; auto.
    intros. norm_Forall. cbn. split_and!; naive_solver lia.
  - destruct (candidates b) as [|c cs] eqn:Hc.
    + constructor; cbn [entries candidates]; [|cbn; lia|done| |].
      * revert H1. rewrite !length_app. cbn. lia.
      * rewrite app_nil_r in *. eapply sublist_NoDup; [exact H4|]. rewrite !map_app. cbn.
        apply sublist_app; [done|]. by constructor.
      * norm_Forall. naive_solver.
    + specialize (H3 ltac:(done)). constructor; cbn [entries candidates].
      * revert H1. rewrite !length_app. cbn. lia.
      * cbn in H2. lia.
      * revert H3. rewrite !length_app. cbn. lia.
      * eapply sublist_NoDup; [exact H4|].
        rewrite !map_app. cbn [map]. rewrite <- !app_assoc. cbn [app re_id].
        apply sublist_app; [done|]. by constructor.
      * norm_Forall. naive_solver.
Qed.

(** ** The table *)

Lemma bucket_for_lookup t id i :
  wf_table t → bucket_for (self_id t) id = Some i → ∃ b, buckets t !! i = Some b.
Proof.
  intros [_ Hlen _] Hi%bucket_for_bound. rewrite <- Hlen in Hi.
  by apply lookup_lt_is_Some_2 in Hi.
Qed.

Lemma set_bucket_wf t i b :
  wf_table t → wf_bucket (self_id t) i b → wf_table (set_bucket t i b).
Proof.
  intros [Hs Hl Hb] Hi. constructor; cbn; [done|by rewrite length_insert|].
  intros j b' Hj. destruct (decide (i = j)) as [->|Hne].
  - rewrite list_lookup_insert in Hj. case_decide; naive_solver.
  - rewrite list_lookup_insert_ne in Hj by done. eauto.
Qed.

Lemma empty_wf self now : wf_arr 32 self → wf_table (RoutingTable_empty self now).
Proof.
  intros Hs. constructor; [done|apply length_replicate|].
  intros i b [-> _]%lookup_replicate. constructor; cbn; try done; try lia.
  apply NoDup_nil_2.
Qed.

Lemma apply_op_wf t o : wf_table t → op_typed o → wf_table (apply_op t o).
Proof.
  intros Hwf Ho. pose proof Hwf as [Hs Hl Hb].
  destruct o as [d now|id now|id now|j now]; cbn [apply_op op_typed] in *.
  - unfold insert. destruct (bucket_for _ _) as [i|] eqn:Hi; [|done].
    destruct (buckets t !! i) as [b|] eqn:Hbi; [|done].
    pose proof (bucket_insert_wf _ _ _ d now (Hb _ _ Hbi) Ho Hi).
    destruct (bucket_insert b d now). by apply set_bucket_wf.
  - unfold ping_failed. destruct (bucket_for _ _) as [i|] eqn:Hi; [|done].
    destruct (buckets t !! i) as [b|] eqn:Hbi; [|done].
    by apply set_bucket_wf, bucket_ping_failed_wf, Hb.
  - unfold ping_succeeded. destruct (bucket_for _ _) as [i|] eqn:Hi; [|done].
    destruct (buckets t !! i) as [b|] eqn:Hbi; [|done].
    pose proof (bucket_ping_succeeded_wf _ _ _ id now (Hb _ _ Hbi)).
    destruct (bucket_ping_succeeded b id now). by apply set_bucket_wf.
  - unfold mark_refreshed. destruct (buckets t !! j) as [b|] eqn:Hbj; [|done].
    by apply set_bucket_wf, wf_bucket_refresh_at, Hb.
Qed.

Lemma run_ops_wf t l : wf_table t → Forall op_typed l → wf_table (run_ops t l).
Proof.
  intros Hwf Hl. revert t Hwf. induction Hl as [|o l Ho Hl IH]; intros t Hwf; cbn; [done|].
  apply IH. by apply apply_op_wf.
Qed.

Lemma apply_op_self t o : self_id (apply_op t o) = self_id t.
Proof.
  destruct o; cbn; unfold insert, ping_failed, ping_succeeded, mark_refreshed;
    repeat (case_match; cbn); done.
Qed.

Lemma run_ops_self t l : self_id (run_ops t l) = self_id t.
Proof.
  revert t. induction l as [|o l IH]; intros t; cbn; [done|].
  unfold run_ops in IH. by rewrite IH, apply_op_self.
Qed.

(** A predicate of the identifier and the key alone survives the bookkeeping of
    every operation, and holds of what is inserted. *)
Lemma bucket_op_entry_bound b o :
  op_bound o → Forall entry_bound (entries b ++ candidates b) →
  let b' := match o with
            | OpInsert d now => (bucket_insert b d now).1
            | OpPingFailed id now => bucket_ping_failed b id now
            | OpPingSucceeded id now => (bucket_ping_succeeded b id now).1
            | OpMarkRefreshed _ now => mkBucket (entries b) now (candidates b)
            end in
  Forall entry_bound (entries b' ++ candidates b').
Proof.
  intros Ho Hb. destruct o as [d now|id now|id now|j now]; cbn [op_bound] in *; [..|done].
  - unfold bucket_insert. destruct (position _ _) as [[pos e]|] eqn:Hpos.
    + apply position_Some in Hpos as (l1 & l2 & He & <- & Hid). cbn.
      rewrite He in *. rewrite delete_middle. norm_Forall. unfold entry_bound in *. cbn.
      rewrite decide_True by done. destruct_and!; split_and!; congruence || done.
    + repeat (case_match; cbn); norm_Forall; unfold entry_bound in *; cbn; naive_solver.
  - unfold bucket_ping_failed. destruct (position _ _) as [[pos e]|] eqn:Hpos; [|done].
    apply position_Some in Hpos as (l1 & l2 & He & <- & Hid).
    rewrite He in *. rewrite insert_middle, delete_middle.
    repeat (case_match; cbn); norm_Forall; unfold entry_bound in *; cbn; naive_solver.
  - unfold bucket_ping_succeeded. destruct (position _ _) as [[pos e]|] eqn:Hpos; [|done].
    apply position_Some in Hpos as (l1 & l2 & He & <- & Hid). cbn.
    rewrite He in *. rewrite delete_middle. norm_Forall. unfold entry_bound in *. cbn. naive_solver.
Qed.

Lemma set_bucket_all P t i b :
  table_all P t → Forall P (entries b ++ candidates b) → table_all P (set_bucket t i b).
Proof. intros Ht Hb. unfold table_all, set_bucket. cbn. by apply Forall_insert. Qed.

Lemma table_all_lookup P t i b :
  table_all P t → buckets t !! i = Some b → Forall P (entries b ++ candidates b).
Proof. intros Ht Hi. exact (Forall_lookup_1 _ _ _ _ Ht Hi). Qed.

Lemma apply_op_bound t o :
  op_bound o → table_all entry_bound t → table_all entry_bound (apply_op t o).
Proof.
  intros Ho Ht.
  assert (Hop : ∀ i b, buckets t !! i = Some b → _) by
    (intros i b Hib; exact (bucket_op_entry_bound b o Ho (table_all_lookup _ _ _ _ Ht Hib))).
  destruct o as [d now|id now|id now|j now]; cbn [apply_op] in *.
  - unfold insert. destruct (bucket_for _ _) as [i|]; [|done].
    destruct (buckets t !! i) as [b|] eqn:Hbi; [|done]. specialize (Hop _ _ Hbi).
    destruct (bucket_insert b d now). by apply set_bucket_all.
  - unfold ping_failed. destruct (bucket_for _ _) as [i|]; [|done].
    destruct (buckets t !! i) as [b|] eqn:Hbi; [|done]. by apply set_bucket_all; [|apply (Hop _ _ Hbi)].
  - unfold ping_succeeded. destruct (bucket_for _ _) as [i|]; [|done].
    destruct (buckets t !! i) as [b|] eqn:Hbi; [|done]. specialize (Hop _ _ Hbi).
    destruct (bucket_ping_succeeded b id now). by apply set_bucket_all.
  - unfold mark_refreshed. destruct (buckets t !! j) as [b|] eqn:Hbj; [|done].
    by apply set_bucket_all; [|apply (Hop _ _ Hbj)].
Qed.

Lemma run_ops_bound t l :
  Forall op_bound l → table_all entry_bound t → table_all entry_bound (run_ops t l).
Proof.
  intros Hl. revert t. induction Hl as [|o l Ho Hl IH]; intros t Ht; cbn; [done|].
  by apply IH, apply_op_bound.
Qed.

(** ** What [get] finds after each operation *)

(** [entries.iter().find(|e| e.id == id)] *)
Definition find_id (id : bytes) (l : list RoutingEntry) : option RoutingEntry :=
  snd <$> position id l.

Arguments find_id _ _ : simpl never.

Lemma find_id_None id l : find_id id l = None ↔ id ∉ map re_id l.
Proof. unfold find_id. by rewrite fmap_None, position_None. Qed.

Lemma find_id_Some id l e : find_id id l = Some e → e ∈ l ∧ re_id e = id.
Proof.
  unfold find_id. intros ([pos e'] & (l1 & l2 & -> & _ & ?)%position_Some & ->)%fmap_Some.
  split; [|done]. apply elem_of_app. right. by left.
Qed.

Lemma find_id_cons id e l : find_id id (e :: l) = if decide (re_id e = id) then Some e else find_id id l.
Proof.
  unfold find_id, position. cbn. case_decide; [done|]. by destruct (list_find _ l).
Qed.

Lemma find_id_app id l1 l2 :
  find_id id (l1 ++ l2) = match find_id id l1 with Some e => Some e | None => find_id id l2 end.
Proof.
  induction l1 as [|e l1 IH]; cbn [app]; [done|].
  rewrite !find_id_cons. by case_decide.
Qed.

Lemma find_id_unique id l e :
  NoDup (map re_id l) → e ∈ l → re_id e = id → find_id id l = Some e.
Proof.
  intros Hnd (l1 & l2 & ->)%list_elem_of_split <-. unfold find_id.
  by rewrite position_middle.
Qed.

Lemma get_lookup t id i b :
  bucket_for (self_id t) id = Some i → buckets t !! i = Some b →
  get t id = find_id id (entries b).
Proof. intros Hi Hb. unfold get. by rewrite Hi; cbn; rewrite Hb. Qed.

Lemma get_set_bucket t i b b' id :
  buckets t !! i = Some b →
  get (set_bucket t i b') id =
    if decide (bucket_for (self_id t) id = Some i) then find_id id (entries b') else get t id.
Proof.
  intros Hb. pose proof (lookup_lt_Some _ _ _ Hb) as Hlt. unfold get, set_bucket. cbn.
  destruct (bucket_for _ id) as [j|]; cbn; [|done]. case_decide as Hj.
  - injection Hj as ->. by rewrite list_lookup_insert_eq.
  - rewrite list_lookup_insert_ne by congruence. done.
Qed.

(** An entry other than the one an operation is about stays in its bucket. *)
Lemma find_id_move id l1 e l2 e' :
  re_id e ≠ id → re_id e' = re_id e → find_id id ((l1 ++ l2) ++ [e']) = find_id id (l1 ++ e :: l2).
Proof.
  intros Hne Heq. rewrite !find_id_app, !find_id_cons, !decide_False by congruence.
  destruct (find_id id l1), (find_id id l2); done.
Qed.

Lemma bucket_insert_other b d now id e :
  id ≠ nd_id d → find_id id (entries b) = Some e →
  find_id id (entries (bucket_insert b d now).1) = Some e.
Proof.
  intros Hne Hget. unfold bucket_insert. destruct (position _ _) as [[pos e0]|] eqn:Hpos.
  - apply position_Some in Hpos as (l1 & l2 & He & <- & Hid). cbn.
    rewrite He, delete_middle in *. rewrite <- Hget. apply find_id_move; [congruence|done].
  - repeat case_match; cbn [fst entries]; first [congruence|by rewrite find_id_app, Hget].
Qed.

Lemma bucket_insert_known b d now e :
  NoDup (map re_id (entries b)) → find_id (nd_id d) (entries b) = Some e →
  ∃ e', find_id (nd_id d) (entries (bucket_insert b d now).1) = Some e' ∧
        re_failed_pings e' = re_failed_pings e ∧ re_addr e' = nd_addr d.
Proof.
  intros Hnd Hget. unfold bucket_insert. unfold find_id in Hget.
  destruct (position _ _) as [[pos e0]|] eqn:Hpos; cbn in Hget; simplify_eq.
  apply position_Some in Hpos as (l1 & l2 & He & <- & Hid). cbn.
  rewrite He, delete_middle in *. rewrite find_id_app.
  rewrite (proj2 (find_id_None _ _)).
  - rewrite find_id_cons. cbn. rewrite decide_True by done. eauto.
  - rewrite <- Hid. rewrite map_app in *. cbn in Hnd.
    apply NoDup_app in Hnd as (_ & Hd & [? _]%NoDup_cons).
    rewrite not_elem_of_app. split; [|done]. intros Hin. apply (Hd _ Hin). by left.
Qed.

Lemma bucket_ping_failed_other b id0 now id e :
  id ≠ id0 → find_id id (entries b) = Some e →
  find_id id (entries (bucket_ping_failed b id0 now)) = Some e.
Proof.
  intros Hne Hget. unfold bucket_ping_failed.
  destruct (position _ _) as [[pos e0]|] eqn:Hpos; [|done].
  apply position_Some in Hpos as (l1 & l2 & He & <- & Hid).
  rewrite He, insert_middle, delete_middle.
  rewrite He, find_id_app, find_id_cons, decide_False in Hget by congruence.
  repeat case_match; cbn; rewrite ?find_id_app, ?find_id_cons; cbn;
    rewrite ?decide_False by congruence; repeat case_match; naive_solver.
Qed.

(** Splits a bucket known to hold [id] at its entry. *)
Lemma find_id_split id l e :
  NoDup (map re_id l) → find_id id l = Some e →
  ∃ l1 l2, l = l1 ++ e :: l2 ∧ position id l = Some (length l1, e) ∧ re_id e = id ∧
           find_id id (l1 ++ l2) = None.
Proof.
  intros Hnd Hget. unfold find_id in Hget.
  destruct (position _ _) as [[pos e0]|] eqn:Hpos; cbn in Hget; simplify_eq.
  pose proof Hpos as (l1 & l2 & -> & <- & Hid)%position_Some.
  exists l1, l2. split_and!; [done..|]. apply find_id_None. rewrite <- Hid.
  rewrite map_app in *. cbn in Hnd. apply NoDup_app in Hnd as (_ & Hd & [? _]%NoDup_cons).
  rewrite not_elem_of_app. split; [|done]. intros Hin. apply (Hd _ Hin). by left.
Qed.

Lemma bucket_ping_failed_same b id now e :
  NoDup (map re_id (entries b ++ candidates b)) → find_id id (entries b) = Some e →
  0 <= re_failed_pings e < PING_FAILURES_BEFORE_EVICTION →
  find_id id (entries (bucket_ping_failed b id now)) =
    if re_failed_pings e + 1 <? PING_FAILURES_BEFORE_EVICTION
    then Some (set_failed_pings e (re_failed_pings e + 1)) else None.
Proof.
  intros Hnd Hget Hf. rewrite map_app in Hnd. pose proof Hnd as (Hnd1 & Hdisj & _)%NoDup_app.
  destruct (find_id_split _ _ _ Hnd1 Hget) as (l1 & l2 & He & Hpos & Hid & Hnone).
  unfold bucket_ping_failed. rewrite Hpos, He, insert_middle, delete_middle.
  replace (u8_sat_succ (re_failed_pings e)) with (re_failed_pings e + 1)
    by (unfold u8_sat_succ, PING_FAILURES_BEFORE_EVICTION in *; lia).
  rewrite find_id_app in Hnone. destruct (find_id id l1) eqn:H1; [done|].
  destruct (_ <? _); cbn [entries].
  - rewrite find_id_app, H1, find_id_cons. cbn. by rewrite decide_True by done.
  - destruct (candidates b) as [|c cs] eqn:Hc; cbn [entries].
    + by rewrite find_id_app, H1.
    + rewrite !find_id_app, H1, Hnone, find_id_cons. cbn. rewrite decide_False; [done|].
      intros Hcid. apply (Hdisj id); [|by rewrite <- Hcid; left].
      rewrite He, map_app, elem_of_app. right. rewrite <- Hid. by left.
Qed.

Lemma bucket_ping_succeeded_get b id0 now id e :
  NoDup (map re_id (entries b)) → find_id id (entries b) = Some e →
  find_id id (entries (bucket_ping_succeeded b id0 now).1) =
    Some (if decide (id = id0)
          then mkEntry (re_id e) (re_addr e) (re_pubkey e) now 0 else e).
Proof.
  intros Hnd Hget. unfold bucket_ping_succeeded.
  destruct (decide (id = id0)) as [->|Hne].
  - destruct (find_id_split _ _ _ Hnd Hget) as (l1 & l2 & He & Hpos & Hid & Hnone).
    rewrite Hpos, He. cbn. rewrite delete_middle, find_id_app, Hnone, find_id_cons. cbn.
    by rewrite decide_True.
  - destruct (position _ _) as [[pos e0]|] eqn:Hpos; [|done].
    apply position_Some in Hpos as (l1 & l2 & He & <- & Hid). cbn.
    rewrite He, delete_middle in *. rewrite <- Hget. by apply find_id_move; [congruence|].
Qed.

(** ** Survival of a known peer *)

(** The consecutive failed probes of [id] along a sequence, starting from [n], stay
    below the eviction threshold. *)
Fixpoint survives (id : bytes) (n : Z) (l : list table_op) : bool :=
  match l with
  | [] => true
  | OpPingFailed id' _ :: l' =>
      if decide (id' = id)
      then (n + 1 <? PING_FAILURES_BEFORE_EVICTION) && survives id (n + 1) l'
      else survives id n l'
  | OpPingSucceeded id' _ :: l' =>
      if decide (id' = id) then survives id 0 l' else survives id n l'
  | _ :: l' => survives id n l'
  end.

(** [n] after one operation. *)
Definition next_failed (id : bytes) (n : Z) (o : table_op) : Z :=
  match o with
  | OpPingFailed id' _ => if decide (id' = id) then n + 1 else n
  | OpPingSucceeded id' _ => if decide (id' = id) then 0 else n
  | _ => n
  end.

Lemma survives_cons id n o l :
  survives id n (o :: l) = true →
  (∀ now, o = OpPingFailed id now → n + 1 < PING_FAILURES_BEFORE_EVICTION) ∧
  survives id (next_failed id n o) l = true.
Proof.
  destruct o; cbn; repeat case_decide; intros; breflect; split; auto; intros; simplify_eq; done.
Qed.

Lemma get_wf t id e i b :
  wf_table t → bucket_for (self_id t) id = Some i → buckets t !! i = Some b →
  find_id id (entries b) = Some e →
  NoDup (map re_id (entries b)) ∧ 0 <= re_failed_pings e < PING_FAILURES_BEFORE_EVICTION.
Proof.
  intros Hwf Hi Hb Hget. destruct (wt_buckets _ Hwf _ _ Hb) as [_ _ _ Hnd Hp]. split.
  - rewrite map_app in Hnd. by apply NoDup_app in Hnd as [? _].
  - apply find_id_Some in Hget as [Hin _]. rewrite Forall_forall in Hp.
    apply Hp. apply elem_of_app. by left.
Qed.

Lemma get_find t id e :
  get t id = Some e →
  ∃ i b, bucket_for (self_id t) id = Some i ∧ buckets t !! i = Some b ∧
         find_id id (entries b) = Some e.
Proof.
  unfold get. intros (i & Hi & (b & Hb & He)%bind_Some)%bind_Some. eauto.
Qed.

Lemma step_keeps t o id e :
  wf_table t → get t id = Some e →
  (∀ now, o = OpPingFailed id now → re_failed_pings e + 1 < PING_FAILURES_BEFORE_EVICTION) →
  ∃ e', get (apply_op t o) id = Some e' ∧
        re_failed_pings e' = next_failed id (re_failed_pings e) o.
Proof.
  intros Hwf Hget Hok. pose proof Hget as (i & b & Hi & Hb & Hf)%get_find.
  destruct (get_wf _ _ _ _ _ Hwf Hi Hb Hf) as [Hnd Hn].
  destruct (wt_buckets _ Hwf _ _ Hb) as [_ _ _ Hnd' _].
  destruct o as [d now|id0 now|id0 now|j now]; cbn [apply_op next_failed].
  - unfold insert. destruct (bucket_for _ (nd_id d)) as [j|] eqn:Hj; [|by eauto].
    destruct (buckets t !! j) as [bj|] eqn:Hbj; [|by eauto].
    destruct (bucket_insert bj d now) as [b' out] eqn:Hins. cbn [fst].
    rewrite (get_set_bucket _ _ _ _ _ Hbj). case_decide as Hd; [|by eauto].
    simplify_eq. replace b' with (bucket_insert b d now).1 by (by rewrite Hins).
    destruct (decide (id = nd_id d)) as [->|Hne].
    + destruct (bucket_insert_known b d now e Hnd Hf) as (e' & ? & ? & _). eauto.
    + erewrite bucket_insert_other by done. eauto.
  - unfold ping_failed. destruct (bucket_for _ id0) as [j|] eqn:Hj;
      [|rewrite decide_False by congruence; eauto].
    destruct (buckets t !! j) as [bj|] eqn:Hbj; [|rewrite decide_False by congruence; eauto].
    rewrite (get_set_bucket _ _ _ _ _ Hbj). case_decide as Hd; cycle 1.
    { rewrite decide_False by congruence. eauto. }
    simplify_eq. destruct (decide (id0 = id)) as [->|Hne].
    + rewrite (bucket_ping_failed_same _ _ _ e) by done.
      specialize (Hok now eq_refl). apply Z.ltb_lt in Hok as ->. eauto.
    + erewrite bucket_ping_failed_other by done. eauto.
  - unfold ping_succeeded. destruct (bucket_for _ id0) as [j|] eqn:Hj;
      [|rewrite decide_False by congruence; eauto].
    destruct (buckets t !! j) as [bj|] eqn:Hbj; [|rewrite decide_False by congruence; eauto].
    destruct (bucket_ping_succeeded bj id0 now) as [b' out] eqn:Hp. cbn [fst].
    rewrite (get_set_bucket _ _ _ _ _ Hbj). case_decide as Hd; cycle 1.
    { rewrite decide_False by congruence. eauto. }
    simplify_eq. replace b' with (bucket_ping_succeeded b id0 now).1 by (by rewrite Hp).
    erewrite bucket_ping_succeeded_get by done. eexists. split; [done|].
    repeat case_decide; naive_solver.
  - unfold mark_refreshed. destruct (buckets t !! j) as [bj|] eqn:Hbj; [|by eauto].
    rewrite (get_set_bucket _ _ _ _ _ Hbj). case_decide as Hd; [|by eauto].
    simplify_eq. eauto.
Qed.

Lemma run_keeps l : ∀ t id e,
  wf_table t → Forall op_typed l → get t id = Some e →
  survives id (re_failed_pings e) l = true → is_Some (get (run_ops t l) id).
Proof.
  induction l as [|o l IH]; intros t id e Hwf Hl Hget Hs; [by eexists|].
  apply Forall_cons in Hl as [Ho Hl]. apply survives_cons in Hs as [Hok Hs].
  destruct (step_keeps _ o _ _ Hwf Hget Hok) as (e' & Hget' & Hf).
  cbn. apply (IH _ _ e'); [by apply apply_op_wf|done..|]. by rewrite Hf.
Qed.

Lemma all_entries_set_bucket t i b b' :
  buckets t !! i = Some b → entries b' = entries b →
  all_entries (set_bucket t i b') = all_entries t.
Proof.
  intros (l1 & l2 & Hl & ->)%list_elem_of_split_length He. unfold all_entries, set_bucket. cbn.
  by rewrite Hl, insert_middle, !map_app, !map_cons, He.
Qed.

Lemma insert_other t d now id e :
  wf_table t → id ≠ nd_id d → get t id = Some e → get (insert t d now).1 id = Some e.
Proof.
  intros Hwf Hne Hget. pose proof Hget as (i & b & Hi & Hb & Hf)%get_find. unfold insert.
  destruct (bucket_for _ (nd_id d)) as [j|] eqn:Hj; [|done].
  destruct (buckets t !! j) as [bj|] eqn:Hbj; [|done].
  destruct (bucket_insert bj d now) as [b' out] eqn:Hins. cbn [fst].
  rewrite (get_set_bucket _ _ _ _ _ Hbj). case_decide as Hd'; [|done]. simplify_eq.
  replace b' with (bucket_insert b d now).1 by (by rewrite Hins). by apply bucket_insert_other.
Qed.

Lemma bucket_insert_outcome b d now :
  NoDup (map re_id (entries b)) →
  let b' := (bucket_insert b d now).1 in
  match (bucket_insert b d now).2 with
  | IsSelf => False
  | Refreshed =>
      ∃ e e', find_id (nd_id d) (entries b) = Some e ∧ find_id (nd_id d) (entries b') = Some e' ∧
              re_addr e' = nd_addr d ∧ re_failed_pings e' = re_failed_pings e
  | Inserted => find_id (nd_id d) (entries b) = None ∧
                find_id (nd_id d) (entries b') = Some (from_descriptor d now)
  | PendingPing lru =>
      find_id (nd_id d) (entries b) = None ∧ entries b' = entries b ∧
      ∃ e, e ∈ entries b ∧ lru = descriptor e
  | Discarded => find_id (nd_id d) (entries b) = None ∧ entries b' = entries b
  end.
Proof.
  intros Hnd. pose proof (bucket_insert_known b d now) as Hknown.
  destruct (find_id (nd_id d) (entries b)) as [e|] eqn:Hf.
  - destruct (Hknown e Hnd eq_refl) as (e' & He' & ? & ?).
    unfold find_id in Hf. unfold bucket_insert in *.
    destruct (position _ _) as [[pos e0]|]; [|done]. cbn in *. exists e, e'. done.
  - unfold bucket_insert. unfold find_id in Hf.
    destruct (position _ _) as [[pos e0]|] eqn:Hpos; [done|]. fold (find_id (nd_id d)).
    assert (find_id (nd_id d) (entries b) = None) as Hn by (unfold find_id; by rewrite Hpos).
    repeat case_match; simplify_eq/=; eauto using list_elem_of_here.
    split; [done|]. rewrite find_id_app, Hn, find_id_cons. cbn. by rewrite decide_True.
Qed.

(** ** Theorems *)

(** C1: whatever the operations, the routing table stays well-formed: 256 buckets
    of at most 16 entries and 16 parked candidates, candidates only beside a full
    bucket, no identifier twice, every peer in the bucket of its XOR distance,
    and failure counts below the eviction threshold.  When every inserted
    descriptor hashes to its identifier, so does every key in the table. *)
Theorem routing_table_invariant self now l :
  wf_arr 32 self → Forall op_typed l →
  let t := run_ops (RoutingTable_empty self now) l in
  wf_table t ∧ self_id t = self ∧ (Forall op_bound l → table_all entry_bound t).
Proof.
  intros Hs Hl. split_and!.
  - apply run_ops_wf; [by apply empty_wf|done].
  - by rewrite run_ops_self.
  - intros Hb. apply run_ops_bound; [done|]. unfold table_all, RoutingTable_empty.
    by apply Forall_replicate.
Qed.

(** C2: a known peer is not displaced.  Over any sequence of operations, inserts of
    any number of other descriptors included, a peer in the table is still in it
    unless three probes of it failed with no success between them. *)
Theorem known_peer_survives t id e l :
  wf_table t → Forall op_typed l → get t id = Some e →
  survives id (re_failed_pings e) l = true →
  is_Some (get (run_ops t l) id).
Proof. apply run_keeps. Qed.

(** a third failed probe does evict the peer, and the oldest parked candidate
    takes the slot with a clean failure count; before that, a failed probe only
    counts. *)
Theorem ping_failed_evicts t id e now :
  wf_table t → get t id = Some e →
  let t' := ping_failed t id now in
  if re_failed_pings e + 1 <? PING_FAILURES_BEFORE_EVICTION
  then get t' id = Some (set_failed_pings e (re_failed_pings e + 1))
  else get t' id = None ∧
       ∀ i b c cs, bucket_for (self_id t) id = Some i → buckets t !! i = Some b →
         candidates b = c :: cs →
         get t' (re_id c) = Some (mkEntry (re_id c) (re_addr c) (re_pubkey c) now 0).
Proof.
  intros Hwf Hget t'. pose proof Hget as (i & b & Hi & Hb & Hf)%get_find.
  destruct (get_wf _ _ _ _ _ Hwf Hi Hb Hf) as [Hnd Hn].
  destruct (wt_buckets _ Hwf _ _ Hb) as [_ _ _ Hnd' Hp].
  pose proof (bucket_ping_failed_same _ _ now _ Hnd' Hf Hn) as Hself.
  assert (Hg : get t' id = find_id id (entries (bucket_ping_failed b id now))).
  { unfold t', ping_failed. rewrite Hi, Hb, (get_set_bucket _ _ _ _ _ Hb).
    by rewrite decide_True. }
  rewrite Hself in Hg. destruct (_ <? _) eqn:Hlt; [done|]. split; [done|].
  intros i' b' c cs Hi' Hb' Hc. simplify_eq.
  rewrite Hc in Hp, Hnd'. norm_Forall. destruct Hp as (_ & (_ & Hci & _) & _).
  unfold t', ping_failed. rewrite Hi, Hb, (get_set_bucket _ _ _ _ _ Hb), decide_True by done.
  destruct (find_id_split _ _ _ Hnd Hf) as (l1 & l2 & He & Hpos & Hid & Hnone).
  unfold bucket_ping_failed. rewrite Hpos, Hc, He, delete_middle.
  replace (u8_sat_succ (re_failed_pings e)) with (re_failed_pings e + 1)
    by (unfold u8_sat_succ, PING_FAILURES_BEFORE_EVICTION in *; lia).
  rewrite Hlt. cbn [entries]. apply find_id_unique; [|apply elem_of_app; right; by left|done].
  eapply sublist_NoDup; [exact Hnd'|]. rewrite He, !map_app. cbn [map].
  rewrite <- !app_assoc. apply sublist_app; [done|]. cbn. apply sublist_cons.
  apply sublist_app; [done|]. apply sublist_skip, sublist_nil_l.
Qed.

(** every branch of [insert].  The relay itself is refused; a known peer is
    refreshed in place; a new peer enters a bucket with room; at a full bucket the
    newcomer is parked or dropped, no entry of the table changes, and the probe the
    caller must make names a peer the table holds.  No branch touches another peer. *)
Theorem insert_outcomes t d now :
  wf_table t → wf_arr 32 (nd_id d) →
  let t' := (insert t d now).1 in
  (∀ id e, id ≠ nd_id d → get t id = Some e → get t' id = Some e) ∧
  match (insert t d now).2 with
  | IsSelf => nd_id d = self_id t ∧ t' = t
  | Refreshed =>
      ∃ e e', get t (nd_id d) = Some e ∧ get t' (nd_id d) = Some e' ∧
              re_addr e' = nd_addr d ∧ re_failed_pings e' = re_failed_pings e
  | Inserted => get t (nd_id d) = None ∧ get t' (nd_id d) = Some (from_descriptor d now)
  | PendingPing lru =>
      get t (nd_id d) = None ∧ all_entries t' = all_entries t ∧
      ∃ e, get t (nd_id lru) = Some e ∧ lru = descriptor e
  | Discarded => get t (nd_id d) = None ∧ all_entries t' = all_entries t
  end.
Proof.
  intros Hwf Hd. pose proof Hwf as [Hs _ _].
  split; [intros; by apply insert_other|].
  unfold insert. destruct (bucket_for _ _) as [i|] eqn:Hi; cycle 1.
  { cbn. split; [|done]. rewrite bucket_for_log2 in Hi by done. by case_decide. }
  destruct (bucket_for_lookup _ _ _ Hwf Hi) as [b Hb]. rewrite Hb.
  pose proof (wt_buckets _ Hwf _ _ Hb) as [_ _ _ Hnd Hp].
  rewrite map_app in Hnd. apply NoDup_app in Hnd as [Hnd _].
  pose proof (bucket_insert_outcome b d now Hnd) as Hout.
  destruct (bucket_insert b d now) as [b' out]. cbn [fst snd] in *.
  rewrite (get_lookup _ _ _ _ Hi Hb), (get_set_bucket _ _ _ b' (nd_id d) Hb), decide_True by done.
  destruct out as [| | |lru|]; try done.
  - destruct Hout as (? & He & e & Hin & ->). split_and!; [done|by eapply all_entries_set_bucket|].
    exists e. split; [|done]. norm_Forall. destruct Hp as [Hp _].
    rewrite Forall_forall in Hp. destruct (Hp _ Hin) as (_ & Hei & _). cbn.
    rewrite (get_lookup _ _ _ _ Hei Hb). by apply find_id_unique.
  - destruct Hout. split; [done|]. by eapply all_entries_set_bucket.
Qed.
End ops.

(** ** A concrete table *)

Import Toy.

Module Example.
Definition me : bytes := replicate 32 0.

(** A peer in the farthest bucket. *)
Definition far (n : Z) : bytes := replicate 31 128 ++ [n].

Definition peer (n : Z) : NodeDescriptor := mkNode (far n) (mkAddr (V4 127 0 0 1) 1) (replicate 32 0).

(** Seventeen peers of one bucket: sixteen entries, one parked. *)
Definition fill : list table_op :=
  map (λ n, OpInsert (peer (Z.of_nat n)) 5) (seq 0 17).

Definition table : RoutingTable := run_ops (RoutingTable_empty me 0) fill.

Lemma table_wf : wf_table table.
Proof. apply run_ops_wf; [apply empty_wf; by_eval|by_eval]. Qed.
End Example.

Import Example.

Lemma routing_table_invariant_witness :
  let t := run_ops (RoutingTable_empty me 0) fill in
  wf_table t ∧ self_id t = me ∧ (Forall op_bound fill → table_all entry_bound t).
Proof. apply (routing_table_invariant me 0 fill); by_eval. Defined.

(** Two failures, an answer, two more failures, and sixteen newcomers. *)
Definition two_streaks : list table_op :=
  [OpPingFailed (far 0) 6; OpPingFailed (far 0) 7; OpPingSucceeded (far 0) 8;
   OpPingFailed (far 0) 9; OpPingFailed (far 0) 9]
  ++ map (λ n, OpInsert (peer (Z.of_nat n)) 10) (seq 100 16).

Lemma known_peer_survives_witness : is_Some (get (run_ops table two_streaks) (far 0)).
Proof.
  apply (known_peer_survives table (far 0) (mkEntry (far 0) (mkAddr (V4 127 0 0 1) 1)
           (replicate 32 0) 5 0) two_streaks).
  - apply table_wf.
  - by_eval.
  - vm_compute. reflexivity.
  - vm_compute. reflexivity.
Defined.

(** The table after two failed probes of [far 0]. *)
Definition two_failed : RoutingTable :=
  run_ops table [OpPingFailed (far 0) 6; OpPingFailed (far 0) 7].

Lemma ping_failed_evicts_witness : get (ping_failed two_failed (far 0) 8) (far 0) = None.
Proof.
  assert (Hwf : wf_table two_failed) by (apply run_ops_wf; [apply table_wf|by_eval]).
  pose (e := mkEntry (far 0) (mkAddr (V4 127 0 0 1) 1) (replicate 32 0) 5 2).
  assert (Hget : get two_failed (far 0) = Some e) by (vm_compute; reflexivity).
  pose proof (ping_failed_evicts two_failed (far 0) e 8 Hwf Hget) as H. cbv zeta in H.
  change (re_failed_pings e + 1 <? PING_FAILURES_BEFORE_EVICTION) with false in H.
  exact (proj1 H).
Defined.

Lemma insert_outcomes_witness :
  get table (far 99) = None ∧ all_entries (insert table (peer 99) 6).1 = all_entries table ∧
  ∃ e, get table (nd_id (peer 0)) = Some e ∧ peer 0 = descriptor e.
Proof.
  assert (Hd : wf_arr 32 (nd_id (peer 99))) by by_eval.
  assert (Ho : (insert table (peer 99) 6).2 = PendingPing (peer 0)) by (vm_compute; reflexivity).
  pose proof (insert_outcomes table (peer 99) 6 table_wf Hd) as [_ H]. rewrite Ho in H. exact H.
Defined.
