(* ===== verification/Homes.v ===== *)
(** * Homes: exactness of [closest] and agreement on a key's homes

    [closest] and [homes] of [relay/src/dht/routing.rs] return exactly the peers
    that are nearest in the XOR metric, whatever the unstable selection and sort do
    with ties, so relays that know the same peers choose the same homes. *)

From S2P Require Import Prelude Bytes Crypto Proto Routing RoutingInv.

(** ** The [k] nearest elements of a list *)

Section nearest.
Context {A : Type} `{EqDecision A} (d : A → bytes).
Implicit Types (all H s : list A).

(** [H] is, in some order, the [k] elements of [all] nearest by [d]. *)
Definition nearest_set (k : nat) all H : Prop :=
  NoDup H ∧ (∀ x, x ∈ H → x ∈ all) ∧ length H = min k (length all) ∧
  ∀ x y, x ∈ H → y ∈ all → y ∉ H → bytes_lt (d x) (d y).

Lemma bytes_lt_asym a b : bytes_lt a b → bytes_lt b a → False.
Proof. intros H1 H2. apply (irreflexivity bytes_lt a). by etrans. Qed.

Lemma not_all_elem_of (l k : list A) :
  ¬ (∀ x, x ∈ l → x ∈ k) → ∃ y, y ∈ l ∧ y ∉ k.
Proof.
  intros Hn. destruct (decide (Forall (λ x, x ∈ k) l)) as [Hf|Hf].
  - rewrite Forall_forall in Hf. done.
  - apply not_Forall_Exists in Hf; [|apply _]. apply Exists_exists in Hf as (y & ? & ?). eauto.
Qed.

#[global] Instance nearest_set_proper k : Proper ((≡ₚ) ==> (=) ==> iff) (nearest_set k).
Proof.
  intros l1 l2 Hl ? s ->. unfold nearest_set. rewrite Hl.
  split; intros (? & Hin & ? & Hlt); split_and!; try done.
  - intros x Hx. rewrite <- Hl. auto.
  - intros x y ? Hy ?. apply Hlt; [done| |done]. by rewrite Hl.
  - intros x Hx. rewrite Hl. auto.
  - intros x y ? Hy ?. apply Hlt; [done| |done]. by rewrite <- Hl.
Qed.

(** There is only one such set. *)
Lemma nearest_set_unique k all1 all2 H1 H2 :
  all1 ≡ₚ all2 → nearest_set k all1 H1 → nearest_set k all2 H2 → H1 ≡ₚ H2.
Proof.
  intros Hall (Hnd1 & Hin1 & Hlen1 & Hlt1) (Hnd2 & Hin2 & Hlen2 & Hlt2).
  assert (Hlen : length H1 = length H2) by (by rewrite Hlen1, Hlen2, Hall).
  destruct (decide (Forall (λ x, x ∈ H2) H1)) as [Hf|Hf].
  - apply submseteq_length_Permutation; [|lia].
    apply NoDup_submseteq; [done|]. by apply Forall_forall.
  - exfalso. apply not_Forall_Exists in Hf; [|apply _].
    apply Exists_exists in Hf as (x & Hx1 & Hx2).
    destruct (not_all_elem_of H2 H1) as (y & Hy2 & Hy1).
    { intros Hsub. assert (H2 ≡ₚ H1) as E.
      { apply submseteq_length_Permutation; [by apply NoDup_submseteq|lia]. }
      apply Hx2. by rewrite E. }
    apply (bytes_lt_asym (d x) (d y)).
    + apply Hlt1; [done|rewrite Hall; auto|done].
    + apply Hlt2; [done|rewrite <- Hall; auto|done].
Qed.

Definition by_d (x y : A) : Prop := bytes_le (d x) (d y).

Lemma NoDup_map_inv {B} (f : A → B) l : NoDup (map f l) → NoDup l.
Proof. apply NoDup_fmap_1. Qed.

Lemma map_NoDup_inj {B} (f : A → B) l x y :
  NoDup (map f l) → x ∈ l → y ∈ l → f x = f y → x = y.
Proof.
  intros Hnd (i & Hi)%list_elem_of_lookup_1 (j & Hj)%list_elem_of_lookup_1 Heq.
  assert (i = j); [|congruence]. eapply NoDup_lookup; [exact Hnd|..].
  - erewrite list_lookup_fmap, Hi. done.
  - erewrite list_lookup_fmap, Hj. cbn. by rewrite Heq.
Qed.

Lemma NoDup_map_take {B} (f : A → B) k l : NoDup (map f l) → NoDup (map f (take k l)).
Proof. intros Hnd. rewrite <- firstn_map. eapply sublist_NoDup; [exact Hnd|]. apply sublist_take. Qed.

Lemma StronglySorted_take (R : relation A) k l : StronglySorted R l → StronglySorted R (take k l).
Proof. intros Hs. rewrite <- (take_drop k l) in Hs. by apply StronglySorted_app_1_l in Hs. Qed.

(** Two elements of a list with distinct distances, ordered, are strictly so. *)
Lemma by_d_lt l x y :
  NoDup (map d l) → x ∈ l → y ∈ l → x ≠ y → by_d x y → bytes_lt (d x) (d y).
Proof.
  intros Hnd Hx Hy Hne [|E]%bytes_le_lteq; [done|]. by eapply map_NoDup_inj in E.
Qed.

(** A prefix of the list sorted by distance is the nearest set. *)
Lemma nearest_take k all s :
  NoDup (map d all) → s ≡ₚ all → StronglySorted by_d s → nearest_set k all (take k s).
Proof.
  intros Hnd Hs Hsort. assert (Hnds : NoDup s) by (rewrite Hs; by eapply NoDup_map_inv).
  rewrite <- (take_drop k s) in Hnds. apply NoDup_app in Hnds as (Ht & Hdisj & _).
  split_and!; [done| |by rewrite length_take, Hs|].
  - intros x Hx. rewrite <- Hs. by eapply elem_of_take in Hx as (? & ?%list_elem_of_lookup_2 & _).
  - intros x y Hx Hy Hny. rewrite <- Hs, <- (take_drop k s), elem_of_app in Hy.
    destruct Hy as [|Hy]; [done|].
    apply (by_d_lt all); [done| | |intros ->; naive_solver|].
    + rewrite <- Hs, <- (take_drop k s). apply elem_of_app. by left.
    + rewrite <- Hs, <- (take_drop k s). apply elem_of_app. by right.
    + rewrite <- (take_drop k s) in Hsort. by eapply StronglySorted_app_1_elem_of.
Qed.

(** Strictly sorted lists with the same elements are equal. *)
Lemma sorted_by_d_unique s1 s2 :
  NoDup (map d s1) → s1 ≡ₚ s2 → StronglySorted by_d s1 → StronglySorted by_d s2 → s1 = s2.
Proof.
  intros Hnd Hp H1 H2. eapply StronglySorted_unique_strong; [|done..].
  intros x y Hx Hy Hxy Hyx. eapply (map_NoDup_inj d s1); [done..|by rewrite Hp|].
  by apply (anti_symm bytes_le).
Qed.
(** A set whose members are all at most as far as every other element, when
    distances are distinct. *)
Lemma nearest_set_intro k all H s' :
  NoDup (map d all) → all ≡ₚ H ++ s' → length H = min k (length all) →
  (∀ x y, x ∈ H → y ∈ s' → by_d x y) → nearest_set k all H.
Proof.
  intros Hnd Hall Hlen Hle.
  pose proof (NoDup_map_inv d _ Hnd) as Hndall. rewrite Hall in Hndall.
  pose proof Hndall as (HndH & Hdisj & _)%NoDup_app.
  split_and!; [done| |done|].
  - intros x Hx. rewrite Hall. apply elem_of_app. by left.
  - intros x y Hx Hy Hny. rewrite Hall in Hy. apply elem_of_app in Hy as [|Hy]; [done|].
    apply (by_d_lt all); [done| | |intros ->; done|auto]; rewrite Hall, elem_of_app; auto.
Qed.

(** Adding one candidate to a sorted list: it takes the last of the places when it
    is at least as near as the one that holds it. *)
Lemma nearest_with_self k self s :
  NoDup (map d (self :: s)) → StronglySorted (by_d) s →
  nearest_set (S k) (self :: s)
    match s !! k with
    | Some x => if bool_decide (by_d self x) then take k s ++ [self] else take (S k) s
    | None => take k s ++ [self]
    end.
Proof.
  intros Hnd Hs. destruct (s !! k) as [x|] eqn:Hx; cycle 1.
  { apply lookup_ge_None in Hx. apply (nearest_set_intro _ _ _ []); [done| | |].
    - by rewrite app_nil_r, take_ge, <- Permutation_cons_append by done.
    - rewrite length_app, length_take. cbn. lia.
    - by intros ?? _ ?%not_elem_of_nil. }
  pose proof (lookup_lt_Some _ _ _ Hx) as Hlt. pose proof (take_drop_middle _ _ _ Hx) as Hsplit.
  set (s1 := take k s) in *. set (s2 := drop (S k) s) in *.
  assert (Hlen : length s1 = k) by (apply length_take_le; lia). rewrite <- Hsplit in Hs.
  assert (H1 : ∀ y z, y ∈ s1 → z ∈ x :: s2 → by_d y z)
    by (intros; by eapply StronglySorted_app_1_elem_of).
  apply StronglySorted_app_1_r, StronglySorted_cons in Hs as [Hx2 _].
  rewrite Forall_forall in Hx2.
  case_bool_decide as Hself.
  - apply (nearest_set_intro _ _ _ (x :: s2)); [done| | |].
    + rewrite <- Hsplit. solve_Permutation.
    + rewrite length_app. cbn. lia.
    + intros y z [Hy| ->%list_elem_of_singleton]%elem_of_app Hz; [auto|].
      apply elem_of_cons in Hz as [->|Hz]; [done|]. unfold by_d in *. etrans; [done|]. auto.
  - rewrite (take_S_r _ _ x) by done. fold s1.
    assert (by_d x self) by (destruct (total bytes_le (d self) (d x)); [done|done]).
    apply (nearest_set_intro _ _ _ (self :: s2)); [done| | |].
    + rewrite <- Hsplit. solve_Permutation.
    + rewrite length_app. cbn. lia.
    + intros y z Hy Hz. assert (by_d y x) as Hyx.
      { apply elem_of_app in Hy as [Hy| ->%list_elem_of_singleton]; [apply H1; [done|by left]|].
        unfold by_d. reflexivity. }
      apply elem_of_cons in Hz as [->|Hz]; unfold by_d in *; (etrans; [done|auto]).
Qed.
End nearest.

(** ** The entries of a well-formed table *)

Section homes.
Context `{Crypto}.

#[global] Instance RoutingEntry_eq_dec : EqDecision RoutingEntry.
Proof. solve_decision. Defined.

Lemma concat_entries_NoDup self bs k :
  (∀ i b, bs !! i = Some b →
     NoDup (map re_id (entries b)) ∧
     ∀ e, e ∈ entries b → bucket_for self (re_id e) = Some (k + i)%nat) →
  NoDup (map re_id (List.concat (map entries bs))) ∧
  ∀ e, e ∈ List.concat (map entries bs) →
       ∃ i, bucket_for self (re_id e) = Some (k + i)%nat.
Proof.
  revert k. induction bs as [|b bs IH]; intros k Hbs; cbn.
  { split; [apply NoDup_nil_2|]. by intros e ?%not_elem_of_nil. }
  destruct (Hbs 0%nat b eq_refl) as [Hnd Hb].
  destruct (IH (S k)) as [IHnd IHin].
  { intros i b' Hb'. destruct (Hbs (S i) b' Hb') as [? He]. split; [done|].
    intros e ?. rewrite (He e) by done. f_equal. lia. }
  split.
  - rewrite map_app. apply NoDup_app. split_and!; [done| |done].
    intros id (e & -> & He)%list_elem_of_fmap (e' & Heq & [i He']%IHin)%list_elem_of_fmap.
    specialize (Hb e He). rewrite Heq, He' in Hb. injection Hb. lia.
  - intros e [He|[i He]%IHin]%elem_of_app; [exists 0%nat; auto|].
    exists (S i). rewrite He. f_equal. lia.
Qed.

Lemma wf_bucket_entries self i b :
  wf_bucket self i b →
  NoDup (map re_id (entries b)) ∧
  ∀ e, e ∈ entries b → bucket_for self (re_id e) = Some i ∧ wf_arr 32 (re_id e).
Proof.
  intros [_ _ _ Hnd Hp]. rewrite map_app in Hnd. apply NoDup_app in Hnd as [? _].
  split; [done|]. norm_Forall. destruct Hp as [Hp _]. rewrite Forall_forall in Hp.
  intros e He. destruct (Hp e He) as (? & ? & _). done.
Qed.

Lemma all_entries_NoDup t : wf_table t → NoDup (map re_id (all_entries t)).
Proof.
  intros [_ _ Hb]. apply (concat_entries_NoDup (self_id t) (buckets t) 0).
  intros i b Hi. destruct (wf_bucket_entries _ _ _ (Hb i b Hi)). naive_solver.
Qed.

Lemma elem_of_all_entries t e :
  e ∈ all_entries t ↔ ∃ i b, buckets t !! i = Some b ∧ e ∈ entries b.
Proof.
  unfold all_entries. induction (buckets t) as [|b bs IH]; cbn.
  { split; [by intros ?%not_elem_of_nil|]. intros (i & b & Hb & _).
    by rewrite lookup_nil in Hb. }
  rewrite elem_of_app, IH. split.
  - intros [He|(i & b' & ? & ?)]; [exists 0%nat, b; done|exists (S i), b'; done].
  - intros ([|i] & b' & Hb & He); cbn in Hb; [simplify_eq; auto|]. right. eauto.
Qed.

Lemma all_entries_wf t e :
  wf_table t → e ∈ all_entries t → wf_arr 32 (re_id e) ∧ re_id e ≠ self_id t.
Proof.
  intros [Hs _ Hb] (i & b & Hi & He)%elem_of_all_entries.
  destruct (wf_bucket_entries _ _ _ (Hb i b Hi)) as [_ Hp]. destruct (Hp e He) as [Hbi Hw].
  split; [done|]. intros Heq. rewrite Heq, bucket_for_self in Hbi; [done|]. by destruct Hs.
Qed.

(** Distances to one target identify the peers of the table. *)
Lemma map_xor_NoDup ids target :
  wf_arr 32 target → Forall (wf_arr 32) ids → NoDup ids →
  NoDup (map (λ id, xor32 id target) ids).
Proof.
  intros [Ht _] Hids Hnd. apply NoDup_fmap_2_strong; [|done].
  intros x y Hx Hy. rewrite Forall_forall in Hids.
  destruct (Hids x Hx) as [? _], (Hids y Hy) as [? _].
  apply xor_bytes_inj_l; congruence.
Qed.

Lemma all_entries_dist_NoDup t target :
  wf_table t → wf_arr 32 target →
  NoDup (map (λ e, xor32 (re_id e) target) (all_entries t)).
Proof.
  intros Hwf Ht. rewrite <- (map_map re_id (λ id, xor32 id target)).
  apply map_xor_NoDup; [done| |by apply all_entries_NoDup].
  apply Forall_forall. intros id (e & -> & He)%list_elem_of_fmap.
  by destruct (all_entries_wf _ _ Hwf He).
Qed.

(** ** [closest] *)

#[global] Instance dist_le_total : Total dist_le.
Proof. intros p q. apply (total bytes_le). Qed.

#[global] Instance dist_le_trans : Transitive dist_le.
Proof. intros p q r. unfold dist_le. apply transitivity. Qed.

Definition entry_dist (target : bytes) (e : RoutingEntry) : bytes := xor32 (re_id e) target.

Lemma sorted_snd target l :
  Forall (λ p, p.1 = entry_dist target p.2) l → StronglySorted dist_le l →
  StronglySorted (by_d (entry_dist target)) (map snd l).
Proof.
  intros Hl. induction 1 as [|p l Hs IH Hp]; cbn; [constructor|].
  apply Forall_cons in Hl as [Hpd Hl]. constructor; [auto|].
  rewrite Forall_fmap. rewrite Forall_forall in Hp, Hl |- *. intros q Hq. unfold by_d. cbn.
  rewrite <- Hpd, <- (Hl q Hq). by apply Hp.
Qed.

Lemma sort_by_dist_spec target l :
  Forall (λ p, p.1 = entry_dist target p.2) l →
  map snd (sort_by_dist l) ≡ₚ map snd l ∧
  StronglySorted (by_d (entry_dist target)) (map snd (sort_by_dist l)).
Proof.
  intros Hl. unfold sort_by_dist. split; [by rewrite merge_sort_Permutation|].
  apply sorted_snd; [by rewrite merge_sort_Permutation|]. by apply StronglySorted_merge_sort; apply _.
Qed.

(** [closest] is a prefix of the table sorted by distance. *)
Lemma closest_sorted t target count :
  wf_table t → wf_arr 32 target →
  ∃ s, s ≡ₚ all_entries t ∧ StronglySorted (by_d (entry_dist target)) s ∧
       closest t target count = take count s.
Proof.
  intros Hwf Ht. pose proof (all_entries_dist_NoDup t target Hwf Ht) as Hnd. unfold closest, select_nth.
  set (scratch := map (with_dist target) (all_entries t)).
  assert (Hscr : Forall (λ p, p.1 = entry_dist target p.2) scratch).
  { apply Forall_fmap, Forall_forall. done. }
  assert (Hsnd : map snd scratch = all_entries t).
  { unfold scratch. rewrite map_map. apply map_id. }
  destruct (sort_by_dist_spec _ _ Hscr) as [Hp Hs]. rewrite Hsnd in Hp.
  exists (map snd (sort_by_dist scratch)). split_and!; [done..|].
  destruct (count <? length scratch)%nat eqn:Hc; breflect.
  - assert (Hsub : Forall (λ p, p.1 = entry_dist target p.2) (take count (sort_by_dist scratch))).
    { apply Forall_take. unfold sort_by_dist. by rewrite merge_sort_Permutation. }
    destruct (sort_by_dist_spec _ _ Hsub) as [Hp' Hs']. rewrite <- firstn_map in Hp'.
    apply (sorted_by_d_unique (entry_dist target)); [|done|done|by apply StronglySorted_take].
    rewrite Hp'. apply NoDup_map_take. by rewrite Hp.
  - rewrite take_ge; [done|]. unfold sort_by_dist.
    by rewrite length_map, (Permutation_length (merge_sort_Permutation _ _)).
Qed.

(** ** Theorems *)

(** [closest] answers in exact XOR order: its result is the one list that holds
    the [count] nearest entries of the table (all of them when it has fewer), none
    twice, sorted by distance.  Nothing depends on how the unstable selection and
    the unstable sort order their input. *)
Theorem closest_exact t target count r :
  wf_table t → wf_arr 32 target →
  closest t target count = r ↔
  nearest_set (entry_dist target) count (all_entries t) r ∧
  StronglySorted (by_d (entry_dist target)) r.
Proof.
  intros Hwf Ht. pose proof (all_entries_dist_NoDup t target Hwf Ht) as Hnd.
  destruct (closest_sorted t target count Hwf Ht) as (s & Hp & Hs & ->).
  pose proof (nearest_take _ count _ s Hnd Hp Hs) as Hnear.
  pose proof (StronglySorted_take _ count _ Hs) as Hst.
  split; [intros <-; done|]. intros [Hr Hsr].
  assert (Hpr : take count s ≡ₚ r) by (by apply (nearest_set_unique (entry_dist target) count (all_entries t) (all_entries t))).
  eapply sorted_by_d_unique; [|done..].
  apply NoDup_map_take. by rewrite Hp.
Qed.

Definition id_dist (target id : bytes) : bytes := xor32 id target.

(** Every relay this table knows, this one included. *)
Definition known_ids (t : RoutingTable) : list bytes := self_id t :: map re_id (all_entries t).

(** The homes of [target] as [homes] reports them: the remote ones, and this relay
    when the flag says so. *)
Definition home_ids (t : RoutingTable) (target : bytes) : list bytes :=
  let '(remote, is_home) := homes t (self_id t) target in
  map nd_id remote ++ (if is_home then [self_id t] else []).


Lemma known_ids_wf t :
  wf_table t → Forall (wf_arr 32) (known_ids t) ∧ NoDup (known_ids t).
Proof.
  intros Hwf. split.
  - apply Forall_cons. split; [by destruct Hwf|]. apply Forall_fmap, Forall_forall.
    intros e He. by destruct (all_entries_wf _ _ Hwf He).
  - apply NoDup_cons. split; [|by apply all_entries_NoDup].
    intros (e & Heq & He)%list_elem_of_fmap. by destruct (all_entries_wf _ _ Hwf He).
Qed.

(** [homes] reports a sorted list of the table's identifiers, cut at [K] places of
    which this relay takes the last when it is as near. *)
Lemma home_ids_sorted t target :
  wf_table t → wf_arr 32 target →
  ∃ s, self_id t :: s ≡ₚ known_ids t ∧ StronglySorted (by_d (id_dist target)) s ∧
       home_ids t target =
         match s !! 2%nat with
         | Some x => if bool_decide (by_d (id_dist target) (self_id t) x)
                     then take 2 s ++ [self_id t] else take 3 s
         | None => take 2 s ++ [self_id t]
         end.
Proof.
  intros Hwf Ht. destruct (closest_sorted t target K Hwf Ht) as (s & Hp & Hs & Hc).
  exists (map re_id s). split_and!.
  - unfold known_ids. by rewrite Hp.
  - clear -Hs. induction Hs as [|e s Hs IH He]; cbn; constructor; [done|]. by apply Forall_fmap.
  - unfold home_ids, homes, find_closest. rewrite Hc. unfold K. cbn [Nat.sub].
    rewrite !list_lookup_fmap, lookup_take.
    rewrite decide_True by lia. unfold by_d, id_dist.
    destruct (s !! 2%nat) as [e|] eqn:He; cbn [fmap option_fmap option_map nd_id descriptor].
    + case_bool_decide as Hb; cbn.
      * rewrite bool_decide_eq_true_2 by done. by rewrite <- !firstn_map, take_take, map_map.
      * rewrite bool_decide_eq_false_2 by done. by rewrite map_map, app_nil_r, <- firstn_map.
    + by rewrite <- !firstn_map, take_take, map_map.
Qed.

Lemma home_ids_nearest t target :
  wf_table t → wf_arr 32 target →
  nearest_set (id_dist target) K (known_ids t) (home_ids t target).
Proof.
  intros Hwf Ht. destruct (known_ids_wf t Hwf) as [Hids Hnd].
  destruct (home_ids_sorted t target Hwf Ht) as (s & Hp & Hs & ->).
  rewrite <- Hp. apply nearest_with_self; [|done]. rewrite Hp. by apply map_xor_NoDup.
Qed.

(** the homes of a key are exactly the [K] relays nearest to it among this one
    and those it knows (all of them when fewer are known), this relay counted in
    exactly when it is one of them. *)
Theorem homes_exact t target remote is_home :
  wf_table t → wf_arr 32 target → homes t (self_id t) target = (remote, is_home) →
  nearest_set (id_dist target) K (known_ids t)
    (map nd_id remote ++ (if is_home then [self_id t] else [])).
Proof.
  intros Hwf Ht Hh. pose proof (home_ids_nearest t target Hwf Ht) as Hn.
  unfold home_ids in Hn. by rewrite Hh in Hn.
Qed.

(** C3: relays agree on homes.  Two relays whose tables, with themselves, hold the
    same relays report the same set of homes for every key, so a dispatch one
    forwards is queued where the other looks for it. *)
Theorem homes_agree t1 t2 target :
  wf_table t1 → wf_table t2 → wf_arr 32 target → known_ids t1 ≡ₚ known_ids t2 →
  home_ids t1 target ≡ₚ home_ids t2 target.
Proof.
  intros Hwf1 Hwf2 Ht Hk.
  eapply (nearest_set_unique (id_dist target)); [exact Hk|by apply home_ids_nearest..].
Qed.
End homes.

(** ** Witnesses *)

Import Toy Example.

Lemma closest_exact_witness :
  let r := closest table (far 3) 2 in
  map re_id r = [far 3; far 2] ∧
  nearest_set (entry_dist (far 3)) 2 (all_entries table) r ∧
  StronglySorted (by_d (entry_dist (far 3))) r.
Proof.
  assert (Ht : wf_arr 32 (far 3)) by by_eval.
  split; [vm_compute; reflexivity|].
  apply (closest_exact table (far 3) 2 _ table_wf Ht). reflexivity.
Defined.

Lemma homes_exact_witness :
  let '(remote, is_home) := homes table (self_id table) (far 3) in
  nearest_set (id_dist (far 3)) K (known_ids table)
    (map nd_id remote ++ (if is_home then [self_id table] else [])).
Proof.
  assert (Ht : wf_arr 32 (far 3)) by by_eval.
  destruct (homes table (self_id table) (far 3)) as [remote is_home] eqn:E.
  exact (homes_exact table (far 3) remote is_home table_wf Ht E).
Defined.

(** The same relays seen from a peer of the network. *)
Definition table_of (self : bytes) (ids : list bytes) : RoutingTable :=
  run_ops (RoutingTable_empty self 0)
    (map (λ id, OpInsert (mkNode id (mkAddr (V4 10 0 0 1) 4433) id) 1) ids).

Lemma homes_agree_witness :
  home_ids (table_of me [far 1; far 2; far 3; far 4]) (far 7)
  ≡ₚ home_ids (table_of (far 2) [far 1; far 4; me; far 3]) (far 7).
Proof.
  apply homes_agree.
  - apply run_ops_wf; [apply empty_wf; by_eval|by_eval].
  - apply run_ops_wf; [apply empty_wf; by_eval|by_eval].
  - by_eval.
  - vm_compute. solve_Permutation.
Defined.
