(* ===== verification/Queue.v ===== *)
(** * Queue: the offline queue of a home

    [relay/src/storage/mod.rs] (the rows) and [relay/src/dht/store.rs] (admission,
    enqueueing, batches, deletion and drift).  A row of [dht_queue] is a dispatch under
    the key [recipient || acceptance time || id].  [_admission] makes a check and the
    write it admits one step, which is how [enqueue_for_home] is given. *)

From S2P Require Import Prelude Bytes Crypto Proto Keyspace Store Routing.

(** ** Rows *)

Definition MAX_QUEUED_PER_RECIPIENT : Z := 1024.

Record MessageKey := mkKey { mk_recipient : bytes; mk_ts_be : bytes; mk_id : bytes }.

#[global] Instance MessageKey_eq_dec : EqDecision MessageKey.
Proof. solve_decision. Defined.

Module MessageKey.
Definition SIZE : nat := 56.

(** [MessageKey::new] *)
Definition new (recipient : bytes) (ts_ms : Z) (id : bytes) : MessageKey :=
  mkKey recipient (be_bytes 8 ts_ms) id.

(** [MessageKey::as_bytes]: the packed fields. *)
Definition as_bytes (k : MessageKey) : bytes := mk_recipient k ++ mk_ts_be k ++ mk_id k.

(** [MessageKey::parse]: only a value of exactly [SIZE] bytes. *)
Definition parse (b : bytes) : option MessageKey :=
  if decide (length b = SIZE)
  then Some (mkKey (take 32 b) (take 8 (drop 32 b)) (drop 40 b)) else None.
End MessageKey.

(** The row shapes older relays wrote. *)
Record UntimedDispatch := mkUntimed {
  ud_to : bytes; ud_from : bytes; ud_id : bytes; ud_payload : bytes; ud_sig : bytes;
  ud_accepted_at_ms : Z; ud_wake : Wake }.

Record Delivered := mkDelivered {
  de_id : bytes; de_from : bytes; de_payload : bytes; de_sig : bytes; de_accepted_at_ms : Z }.

(** postcard, for the four shapes of a row. *)
Class QueueCodecs := {
  #[global] codec_dispatch :: Codec DispatchP;
  #[global] codec_untimed :: Codec UntimedDispatch;
  #[global] codec_delivered_ttl :: Codec (Delivered * Z);
  #[global] codec_delivered :: Codec Delivered;
}.

Section rows.
Context `{QueueCodecs}.

(** [queued_dispatch] *)
Definition queued_dispatch (recipient value : bytes) : option DispatchP :=
  match (deser value : option DispatchP) with
  | Some dispatch => Some dispatch
  | None =>
      match (deser value : option UntimedDispatch) with
      | Some u =>
          Some (mkDispatch (ud_to u) (ud_from u) (ud_id u) (ud_payload u) (ud_sig u)
                  (ud_accepted_at_ms u) (ud_wake u) 0)
      | None =>
          '(d, ttl_ms) ← match (deser value : option (Delivered * Z)) with
                         | Some dt => Some dt
                         | None => (λ d, (d, 0)) <$> (deser value : option Delivered)
                         end;
          Some (mkDispatch recipient (de_from d) (de_id d) (de_payload d) (de_sig d)
                  (de_accepted_at_ms d) WakeNo ttl_ms)
      end
  end.
End rows.

(** ** Admission *)

Definition MAX_QUEUED_PER_SENDER : Z := 128.
Definition SENDER_SCAN_BYTE_BUDGET : Z := 8 * 1024 * 1024.

Inductive QueueAdmission :=
| Insert | AlreadyQueued | IdTakenByOther | Full | ScanFailed.

#[global] Instance QueueAdmission_eq_dec : EqDecision QueueAdmission.
Proof. solve_decision. Defined.

Section queue.
Context {KS : Type} `{Keyspace KS} `{QueueCodecs}.
Implicit Types (s : Store KS).

(** The loop of [admit_to_queue]: an early return, or the counts at its end. *)
Fixpoint admit_scan (recipient dispatch_id sender : bytes) (sc : scan)
    (total from_sender attributed_bytes : Z) : QueueAdmission + (Z * Z) :=
  match sc with
  | [] => inr (total, from_sender)
  | None :: _ => inl ScanFailed
  | Some (key_bytes, value) :: sc' =>
      if negb (bool_decide (length key_bytes = MessageKey.SIZE))
      then admit_scan recipient dispatch_id sender sc' total from_sender attributed_bytes
      else
        let attributable := attributed_bytes <? SENDER_SCAN_BYTE_BUDGET in
        let same_sender :=
          attributable
          && is_some_and (λ queued, bool_decide (d_from queued = sender))
               (queued_dispatch recipient value) in
        let attributed_bytes :=
          if attributable then attributed_bytes + len value else attributed_bytes in
        if bool_decide (drop 40 key_bytes = dispatch_id)
        then inl (if same_sender then AlreadyQueued else IdTakenByOther)
        else
          let total := total + 1 in
          let from_sender := if same_sender then from_sender + 1 else from_sender in
          if same_sender && (from_sender >=? MAX_QUEUED_PER_SENDER)
          then inr (total, from_sender)
          else if total >=? MAX_QUEUED_PER_RECIPIENT + 1
          then inr (total, from_sender)
          else admit_scan recipient dispatch_id sender sc' total from_sender attributed_bytes
  end.

(** [admit_to_queue] *)
Definition admit_to_queue (ks : KS) (recipient dispatch_id sender : bytes) : QueueAdmission :=
  match admit_scan recipient dispatch_id sender (ks_prefix ks recipient) 0 0 0 with
  | inl a => a
  | inr (total, from_sender) =>
      if (total >=? MAX_QUEUED_PER_RECIPIENT) || (from_sender >=? MAX_QUEUED_PER_SENDER)
      then Full else Insert
  end.

(** ** Operations of a home *)

(** [enqueue_for_home] *)
Definition enqueue_for_home s (user_ipk : bytes) (dispatch : DispatchP) (now_ms : Z)
    : Store KS * ForwardOutcome :=
  match admit_to_queue (space s KsQueue) user_ipk (d_id dispatch) (d_from dispatch) with
  | AlreadyQueued => (s, Stored)
  | IdTakenByOther | ScanFailed => (s, BadSig)
  | Full => (s, QueueFull)
  | Insert =>
      let key := MessageKey.new user_ipk now_ms (d_id dispatch) in
      match ser dispatch with
      | None => (s, BadSig)
      | Some value =>
          match put_sync s KsQueue (MessageKey.as_bytes key) value with
          | None => (s, BadSig)
          | Some s' => (s', Stored)
          end
      end
  end.

(** [MAX_FRAME_BYTES] of [common/src/proto/pack.rs] *)
Definition MAX_FRAME_BYTES : Z := 1024 * 1024.
Definition QUEUE_BATCH_MAX_BYTES : Z := MAX_FRAME_BYTES - 64 * 1024.

(** The loop of [queue_batch_for_user]: the batch, the keys to drop, and whether every
    drainable row is in the batch. *)
Fixpoint batch_scan (user_ipk : bytes) (max now_ms : Z) (sc : scan)
    (out : list (MessageKey * DispatchP)) (used : Z) (dead : list bytes)
    : list (MessageKey * DispatchP) * list bytes * bool :=
  match sc with
  | [] => (out, dead, true)
  | None :: _ => (out, dead, false)
  | Some (key_bytes, value) :: sc' =>
      match MessageKey.parse key_bytes with
      | None => batch_scan user_ipk max now_ms sc' out used dead
      | Some key =>
          if len value >? QUEUE_BATCH_MAX_BYTES
          then batch_scan user_ipk max now_ms sc' out used (dead ++ [key_bytes])
          else
            match queued_dispatch user_ipk value with
            | None => batch_scan user_ipk max now_ms sc' out used dead
            | Some dispatch =>
                if is_expired dispatch now_ms
                then batch_scan user_ipk max now_ms sc' out used (dead ++ [key_bytes])
                else if (len out >=? max) || (sat_add used (len value) >? QUEUE_BATCH_MAX_BYTES)
                then (out, dead, false)
                else batch_scan user_ipk max now_ms sc' (out ++ [(key, dispatch)])
                       (used + len value) dead
            end
      end
  end.

(** [queue_batch_for_user] *)
Definition queue_batch_for_user s (user_ipk : bytes) (max now_ms : Z)
    : Store KS * (list (MessageKey * DispatchP) * bool) :=
  if max =? 0 then (s, ([], false))
  else
    let '(out, dead, exhausted) :=
      batch_scan user_ipk max now_ms (ks_prefix (space s KsQueue) user_ipk) [] 0 [] in
    (set_space s KsQueue (sweep_remove (space s KsQueue) dead), (out, exhausted)).

(** The scan of [delete_queue_entries]: it stops at the first unreadable row. *)
Fixpoint victims_scan (target : list bytes) (sc : scan) : list bytes :=
  match sc with
  | Some (key_bytes, _) :: sc' =>
      match MessageKey.parse key_bytes with
      | Some key =>
          if bool_decide (mk_id key ∈ target) then key_bytes :: victims_scan target sc'
          else victims_scan target sc'
      | None => victims_scan target sc'
      end
  | _ => []
  end.

(** Removes the keys one by one and counts the removals that worked. *)
Fixpoint remove_counting (ks : KS) (keys : list bytes) : KS * Z :=
  match keys with
  | [] => (ks, 0)
  | k :: keys' =>
      match ks_remove ks k with
      | Some ks' => let '(ks'', n) := remove_counting ks' keys' in (ks'', n + 1)
      | None => remove_counting ks keys'
      end
  end.

(** [delete_queue_entries] *)
Definition delete_queue_entries s (user_ipk : bytes) (dispatch_ids : list bytes) : Store KS * Z :=
  match dispatch_ids with
  | [] => (s, 0)
  | _ =>
      let victims := victims_scan dispatch_ids (ks_prefix (space s KsQueue) user_ipk) in
      let '(ks, count) := remove_counting (space s KsQueue) victims in
      (set_space s KsQueue ks, count)
  end.

(** ** Drift *)

Section drift.
Context `{Crypto} (routing : RoutingTable) (node_id : bytes).

(** [plan_drift_migrations]'s loop; an unreadable row is skipped.  The [drifted] cache
    of the source holds, per recipient, the value [homes] gives again. *)
Fixpoint drift_scan (max : Z) (sc : scan) (out : list (MessageKey * DispatchP))
    : list (MessageKey * DispatchP) :=
  match sc with
  | [] => out
  | None :: sc' => drift_scan max sc' out
  | Some (key_bytes, value) :: sc' =>
      match MessageKey.parse key_bytes with
      | None => drift_scan max sc' out
      | Some key =>
          if (homes routing node_id (mk_recipient key)).2 then drift_scan max sc' out
          else
            match queued_dispatch (mk_recipient key) value with
            | None => drift_scan max sc' out
            | Some dispatch =>
                let out := out ++ [(key, dispatch)] in
                if len out >=? max then out else drift_scan max sc' out
            end
      end
  end.

(** [plan_drift_migrations] *)
Definition plan_drift_migrations s (max : Z) : list (MessageKey * DispatchP) :=
  if max =? 0 then [] else drift_scan max (ks_iter (space s KsQueue)) [].
End drift.

(** [delete_migrated_entry] *)
Definition delete_migrated_entry s (key : MessageKey) : Store KS * bool :=
  match ks_remove (space s KsQueue) (MessageKey.as_bytes key) with
  | Some ks => (set_space s KsQueue ks, true)
  | None => (s, false)
  end.
End queue.
