(* ===== verification/QueueProps.v ===== *)
(** * QueueProps: correctness of the home queue

    Caps and uniqueness over every reachable queue, idempotent retries, and what a
    batch and a deletion return and remove. *)

From S2P Require Import Prelude Bytes Crypto Proto Keyspace Store StoreProps Routing Queue.

(** ** Keys *)

Lemma as_bytes_new_length recipient ts id :
  length recipient = 32%nat → length id = 16%nat →
  length (MessageKey.as_bytes (MessageKey.new recipient ts id)) = MessageKey.SIZE.
Proof.
  intros Hr Hi. unfold MessageKey.as_bytes. cbn. rewrite !length_app, length_be_bytes, Hr, Hi. done.
Qed.

Lemma parse_as_bytes_new recipient ts id :
  length recipient = 32%nat → length id = 16%nat →
  MessageKey.parse (MessageKey.as_bytes (MessageKey.new recipient ts id))
  = Some (MessageKey.new recipient ts id).
Proof.
  intros Hr Hi. unfold MessageKey.parse. rewrite decide_True by (by apply as_bytes_new_length).
  unfold MessageKey.as_bytes, MessageKey.new. cbn [mk_recipient mk_ts_be mk_id].
  assert (Hts : length (be_bytes 8 ts) = 8%nat) by apply length_be_bytes.
  rewrite take_app_length', drop_app_length' by done.
  rewrite take_app_length' by done. rewrite app_assoc, drop_app_length'; [done|].
  rewrite length_app. lia.
Qed.

Lemma parse_Some b key :
  MessageKey.parse b = Some key →
  length b = MessageKey.SIZE ∧ MessageKey.as_bytes key = b ∧ mk_id key = drop 40 b ∧
  length (mk_recipient key) = 32%nat ∧ length (mk_ts_be key) = 8%nat.
Proof.
  unfold MessageKey.parse. case_decide as Hl; [|done]. intros [= <-].
  unfold MessageKey.as_bytes, MessageKey.SIZE in *. cbn.
  split_and!; [done| |done|rewrite length_take; lia|rewrite length_take, length_drop; lia].
  replace (drop 40 b) with (drop 8 (drop 32 b)) by (by rewrite drop_drop).
  by rewrite !take_drop.
Qed.

Lemma parse_recipient b key p :
  MessageKey.parse b = Some key → length p = 32%nat → p `prefix_of` b → mk_recipient key = p.
Proof.
  unfold MessageKey.parse. case_decide; [|done]. intros [= <-] Hp [rest ->]. cbn.
  by rewrite take_app_length'.
Qed.

(** ** The rows of one recipient *)

Definition is_queue_key (k : bytes) : Prop := length k = MessageKey.SIZE.

#[global] Instance is_queue_key_dec k : Decision (is_queue_key k).
Proof. unfold is_queue_key. apply _. Defined.

Definition queue_rows (m : gmap bytes bytes) (recipient : bytes) : list row :=
  filter (λ r, is_queue_key r.1) (prefix_rows recipient m).

Lemma elem_of_queue_rows m recipient k v :
  (k, v) ∈ queue_rows m recipient ↔
  m !! k = Some v ∧ recipient `prefix_of` k ∧ is_queue_key k.
Proof.
  unfold queue_rows. rewrite list_elem_of_filter, elem_of_prefix_rows. naive_solver.
Qed.

Lemma queue_rows_NoDup m recipient : NoDup (queue_rows m recipient).
Proof.
  apply NoDup_filter. eapply NoDup_fmap_1, (rows_where_NoDup (λ k, recipient `prefix_of` k)).
Qed.

(** At most [MAX_QUEUED_PER_RECIPIENT] rows per recipient, one per dispatch id. *)
Definition queue_ok (m : gmap bytes bytes) : Prop :=
  ∀ recipient, length recipient = 32%nat →
    len (queue_rows m recipient) <= MAX_QUEUED_PER_RECIPIENT ∧
    ∀ k1 v1 k2 v2, (k1, v1) ∈ queue_rows m recipient → (k2, v2) ∈ queue_rows m recipient →
      drop 40 k1 = drop 40 k2 → k1 = k2.

(** Removing rows keeps it. *)
Lemma queue_ok_subset m m' :
  (∀ k v, m' !! k = Some v → m !! k = Some v) → queue_ok m → queue_ok m'.
Proof.
  intros Hsub Hok recipient Hr. destruct (Hok recipient Hr) as [Hlen Hid].
  assert (Hin : ∀ k v, (k, v) ∈ queue_rows m' recipient → (k, v) ∈ queue_rows m recipient).
  { intros k v. rewrite !elem_of_queue_rows. naive_solver. }
  split.
  - enough (queue_rows m' recipient ⊆+ queue_rows m recipient) as ?%submseteq_length
      by (unfold len in *; lia).
    apply NoDup_submseteq; [apply queue_rows_NoDup|]. intros [k v]. apply Hin.
  - intros k1 v1 k2 v2 H1 H2. by apply (Hid k1 v1 k2 v2); apply Hin.
Qed.

(** Inserting a row whose id the recipient does not have keeps it, below the cap. *)
Lemma queue_ok_insert m recipient k v :
  queue_ok m → length recipient = 32%nat → recipient `prefix_of` k → is_queue_key k →
  len (queue_rows m recipient) < MAX_QUEUED_PER_RECIPIENT →
  (∀ k' v', (k', v') ∈ queue_rows m recipient → drop 40 k' ≠ drop 40 k) →
  queue_ok (<[k := v]> m).
Proof.
  intros Hok Hr Hp Hk Hlt Hfresh r Hr'. destruct (Hok r Hr') as [Hlen Hid].
  assert (Hin : ∀ k' v', (k', v') ∈ queue_rows (<[k := v]> m) r →
                         (r = recipient ∧ k' = k ∧ v' = v) ∨ (k' ≠ k ∧ (k', v') ∈ queue_rows m r)).
  { intros k' v'. rewrite !elem_of_queue_rows. intros (Hl & Hpr & Hq).
    destruct (decide (k' = k)) as [->|Hne].
    - left. rewrite lookup_insert_eq in Hl. split_and!; [|done|congruence].
      destruct Hp as [x ->], Hpr as [y E]. by apply app_inj_1 in E as [-> _]; [|congruence].
    - right. by rewrite lookup_insert_ne in Hl. }
  destruct (decide (r = recipient)) as [->|Hne].
  - split.
    + enough (queue_rows (<[k := v]> m) recipient ⊆+ (k, v) :: queue_rows m recipient)
        as Hs%submseteq_length by (cbn in Hs; unfold len in *; lia).
      apply NoDup_submseteq; [apply queue_rows_NoDup|].
      intros [k' v'] [(_ & -> & ->)|[_ ?]]%Hin; [by left|by right].
    + intros k1 v1 k2 v2 [(_ & -> & ->)|[_ H1]]%Hin [(_ & -> & ->)|[_ H2]]%Hin E; [done| | |].
      * by apply Hfresh in H2.
      * by apply Hfresh in H1.
      * by apply (Hid k1 v1 k2 v2).
  - split.
    + enough (queue_rows (<[k := v]> m) r ⊆+ queue_rows m r) as Hs%submseteq_length
        by (unfold len in *; lia).
      apply NoDup_submseteq; [apply queue_rows_NoDup|].
      intros [k' v'] [(? & _)|[_ ?]]%Hin; done.
    + intros k1 v1 k2 v2 [(? & _)|[_ H1]]%Hin [(? & _)|[_ H2]]%Hin; try done. by apply (Hid k1 v1 k2 v2).
Qed.

(** ** Admission *)

Section queue.
Context {KS : Type} `{Keyspace KS} `{QueueCodecs}.
Implicit Types (s : Store KS).

(** A scan that ends below both caps has read every row, and no row has the id. *)
Lemma admit_scan_below sc : ∀ recipient id sender total fs att t f,
  admit_scan recipient id sender sc total fs att = inr (t, f) →
  t < MAX_QUEUED_PER_RECIPIENT → f < MAX_QUEUED_PER_SENDER →
  (None ∉ sc) ∧
  (∀ k v, Some (k, v) ∈ sc → is_queue_key k → drop 40 k ≠ id) ∧
  t = total + len (filter (λ r, is_queue_key r.1) (ok_rows sc)).
Proof.
  induction sc as [|[[k v]|] sc IH]; intros recipient id sender total fs att t f Hs Ht Hf;
    cbn -[MessageKey.SIZE is_queue_key] in Hs; [| |done].
  { injection Hs as <- <-. split_and!; [by intros ?%not_elem_of_nil| |].
    - by intros k v ?%not_elem_of_nil.
    - cbn. rewrite len_nil. lia. }
  cbn [ok_rows]. rewrite filter_cons. cbn [fst].
  case_bool_decide as Hk; cbn [negb] in Hs.
  - rewrite decide_True by done. case_bool_decide as Hid; [done|].
    assert (Hgo : ∀ fs' att' , admit_scan recipient id sender sc (total + 1) fs' att' = inr (t, f) →
      (None ∉ Some (k, v) :: sc) ∧
      (∀ k0 v0, Some (k0, v0) ∈ Some (k, v) :: sc → is_queue_key k0 → drop 40 k0 ≠ id) ∧
      t = total + len ((k, v) :: filter (λ r, is_queue_key r.1) (ok_rows sc))).
    { intros fs' att' Hs'. destruct (IH _ _ _ _ _ _ _ _ Hs' Ht Hf) as (Hn & Hids & ->).
      rewrite len_cons. split_and!; [by intros [?|?]%elem_of_cons| |lia].
      intros k0 v0 [[= -> ->]|Hin]%elem_of_cons; [done|]. by eapply Hids. }
    destruct (_ && (_ >=? MAX_QUEUED_PER_SENDER)) eqn:Hshare.
    { injection Hs as <- <-. breflect. lia. }
    destruct (_ >=? MAX_QUEUED_PER_RECIPIENT + 1) eqn:Hcap; [injection Hs as <- <-; breflect; lia|].
    by eapply Hgo.
  - rewrite decide_False by done.
    destruct (IH _ _ _ _ _ _ _ _ Hs Ht Hf) as (Hn & Hids & ->).
    split_and!; [by intros [?|?]%elem_of_cons| |done].
    intros k0 v0 [[= -> ->]|Hin]%elem_of_cons; [done|]. by eapply Hids.
Qed.

Lemma admit_scan_not_insert recipient id sender sc : ∀ total fs att,
  admit_scan recipient id sender sc total fs att ≠ inl Insert.
Proof.
  induction sc as [|[[k v]|] sc IH]; intros total fs att; cbn -[MessageKey.SIZE]; try done.
  repeat case_match; done || apply IH.
Qed.

(** An admitted dispatch joins a queue below the cap that has no row with its id. *)
Lemma admit_insert ks recipient id sender :
  admit_to_queue ks recipient id sender = Insert →
  len (queue_rows (ks_view ks) recipient) < MAX_QUEUED_PER_RECIPIENT ∧
  ∀ k v, (k, v) ∈ queue_rows (ks_view ks) recipient → drop 40 k ≠ id.
Proof.
  unfold admit_to_queue. destruct (admit_scan _ _ _ _ _ _ _) as [a|[t f]] eqn:Hs.
  { intros ->. by apply admit_scan_not_insert in Hs. }
  destruct (_ || _) eqn:Hcap; [done|]. breflect. intros _.
  destruct (admit_scan_below _ _ _ _ _ _ _ _ _ Hs) as (Hn & Hids & Hlen); [done..|].
  pose proof (ok_rows_complete _ _ (ks_prefix_view ks recipient) Hn) as Hrows.
  rewrite Hrows in Hlen. unfold queue_rows. split; [lia|].
  intros k v Hin. apply elem_of_queue_rows in Hin as (Hl & Hp & Hk). apply (Hids k v); [|done].
  apply ok_rows_elem. rewrite Hrows. by apply elem_of_prefix_rows.
Qed.

(** [enqueue_for_home] writes one fresh row under the cap, or nothing. *)
Lemma enqueue_cases s user dispatch now :
  length user = 32%nat → length (d_id dispatch) = 16%nat →
  let '(s', o) := enqueue_for_home s user dispatch now in
  s' = s ∨
  (o = Stored ∧
   ∃ value, ser dispatch = Some value ∧
     let key := MessageKey.as_bytes (MessageKey.new user now (d_id dispatch)) in
     view s' KsQueue = <[key := value]> (view s KsQueue) ∧
     user `prefix_of` key ∧ is_queue_key key ∧
     len (queue_rows (view s KsQueue) user) < MAX_QUEUED_PER_RECIPIENT ∧
     ∀ k v, (k, v) ∈ queue_rows (view s KsQueue) user → drop 40 k ≠ drop 40 key).
Proof.
  intros Hu Hi. unfold enqueue_for_home. destruct (admit_to_queue _ _ _ _) eqn:Ha; [|by left..].
  destruct (ser dispatch) as [value|] eqn:Hser; [|by left].
  destruct (put_sync _ _ _ _) as [s'|] eqn:Hput; [|by left]. right. split; [done|].
  exists value. split; [done|]. cbv zeta. apply admit_insert in Ha as [Hlen Hids].
  split_and!; [by rewrite (put_sync_view _ _ _ _ _ _ Hput), decide_True|by eexists| |done|].
  - by apply as_bytes_new_length.
  - intros k v Hin. apply Hids in Hin. intros E. apply Hin. rewrite E.
    unfold MessageKey.as_bytes. cbn. rewrite app_assoc, drop_app_length'; [done|].
    by rewrite length_app, length_be_bytes, Hu.
Qed.

(** ** Operations that only remove *)

Lemma sweep_remove_subset (ks : KS) keys k v :
  ks_view (sweep_remove ks keys) !! k = Some v → ks_view ks !! k = Some v.
Proof. destruct (sweep_remove_view keys ks k) as [E|[E _]]; congruence. Qed.

Lemma remove_counting_view keys : ∀ (ks : KS) k,
  ks_view (remove_counting ks keys).1 !! k = ks_view ks !! k ∨
  (ks_view (remove_counting ks keys).1 !! k = None ∧ k ∈ keys).
Proof.
  induction keys as [|k0 keys IH]; intros ks k; cbn; [by left|].
  destruct (ks_remove ks k0) as [ks'|] eqn:Hrm.
  - destruct (IH ks' k) as [E|[E ?]]; destruct (remove_counting ks' keys) as [ks'' n]; cbn in *.
    + rewrite E, (ks_remove_view _ _ _ Hrm). destruct (decide (k = k0)) as [->|];
        [right; rewrite lookup_delete_eq; split; [done|by left]|left; by apply lookup_delete_ne].
    + right. split; [done|by right].
  - destruct (IH ks k) as [?|[? ?]]; [by left|]. right. split; [done|by right].
Qed.

Lemma remove_counting_healthy `{!Healthy KS} keys : ∀ (ks : KS),
  healthy ks →
  (remove_counting ks keys).2 = len keys ∧
  ∀ k, k ∈ keys → ks_view (remove_counting ks keys).1 !! k = None.
Proof.
  induction keys as [|k0 keys IH]; intros ks Hks; cbn; [split; [done|by intros ? ?%not_elem_of_nil]|].
  destruct (healthy_remove ks k0 Hks) as (ks' & Hrm & Hks'). rewrite Hrm.
  destruct (IH ks' Hks') as [Hn Hgone]. pose proof (remove_counting_view keys ks' k0) as Hk0.
  destruct (remove_counting ks' keys) as [ks'' n]. cbn in *. split; [rewrite len_cons; lia|].
  intros k [->|?]%elem_of_cons; [|auto]. destruct Hk0 as [->|[? _]]; [|done].
  rewrite (ks_remove_view _ _ _ Hrm). apply lookup_delete_eq.
Qed.

Lemma batch_subset s user max now k v :
  view (queue_batch_for_user s user max now).1 KsQueue !! k = Some v →
  view s KsQueue !! k = Some v.
Proof.
  unfold queue_batch_for_user. destruct (max =? 0); [done|].
  destruct (batch_scan _ _ _ _ _ _ _) as [[out dead] ex]. cbn [fst].
  rewrite view_set_space, decide_True by done. apply sweep_remove_subset.
Qed.

Lemma delete_subset s user ids k v :
  view (delete_queue_entries s user ids).1 KsQueue !! k = Some v → view s KsQueue !! k = Some v.
Proof.
  unfold delete_queue_entries. destruct ids as [|i ids]; [done|].
  pose proof (remove_counting_view (victims_scan (i :: ids) (ks_prefix (space s KsQueue) user))
                (space s KsQueue) k) as Hv.
  destruct (remove_counting _ _) as [ks n]. cbn [fst] in *.
  rewrite view_set_space, decide_True by done. unfold view. destruct Hv as [?|[? _]]; congruence.
Qed.

(** ** Reachable queues *)

(** One operation on the queue keyspace: the handlers', and the maintenance sweep. *)
Inductive queue_step : Store KS → Store KS → Prop :=
| StepEnqueue s user dispatch now :
    length user = 32%nat → length (d_id dispatch) = 16%nat →
    queue_step s (enqueue_for_home s user dispatch now).1
| StepBatch s user max now : queue_step s (queue_batch_for_user s user max now).1
| StepDelete s user ids : queue_step s (delete_queue_entries s user ids).1
| StepMigrated s key : queue_step s (delete_migrated_entry s key).1
| StepSweep s cursor now :
    queue_step s (set_space s KsQueue
                    (sweep queued_message_expired (space s KsQueue) cursor now).1).

Lemma queue_step_ok s s' :
  queue_step s s' → queue_ok (view s KsQueue) → queue_ok (view s' KsQueue).
Proof.
  intros [s0 user dispatch now Hu Hi|s0 user max now|s0 user ids|s0 key|s0 cursor now] Hok.
  - pose proof (enqueue_cases s0 user dispatch now Hu Hi) as Hc.
    destruct (enqueue_for_home s0 user dispatch now) as [s1 o]. cbn.
    destruct Hc as [->|(_ & value & _ & Hv & Hp & Hk & Hlen & Hids)]; [done|].
    rewrite Hv. by eapply queue_ok_insert.
  - eapply queue_ok_subset; [|exact Hok]. apply batch_subset.
  - eapply queue_ok_subset; [|exact Hok]. apply delete_subset.
  - unfold delete_migrated_entry. destruct (ks_remove _ _) as [ks|] eqn:Hrm; [|done].
    eapply queue_ok_subset; [|exact Hok]. intros k v. cbn [fst].
    rewrite view_set_space, decide_True, (ks_remove_view _ _ _ Hrm) by done.
    intros Hk. apply lookup_delete_Some in Hk as [_ Hk]. exact Hk.
  - eapply queue_ok_subset; [|exact Hok]. intros k v.
    rewrite view_set_space, decide_True by done.
    destruct (sweep _ _ _ _) as [ks' resume] eqn:Hsw. by eapply sweep_subset.
Qed.

(** ** Batches *)

(** What a readable row contributes to a batch. *)
Definition drainable (user : bytes) (now : Z) (r : row) : option (MessageKey * DispatchP) :=
  key ← MessageKey.parse r.1;
  if len r.2 >? QUEUE_BATCH_MAX_BYTES then None
  else
    dispatch ← queued_dispatch user r.2;
    if is_expired dispatch now then None else Some (key, dispatch).

Arguments drainable user now r : simpl never.

(** A row that can never be drained: too big to frame, or past its sender's deadline. *)
Definition dead_row (user : bytes) (now : Z) (r : row) : Prop :=
  is_Some (MessageKey.parse r.1) ∧
  (len r.2 > QUEUE_BATCH_MAX_BYTES ∨
   ∃ dispatch, queued_dispatch user r.2 = Some dispatch ∧ is_expired dispatch now = true).

(** The bytes the drainable rows among [rows] take. *)
Fixpoint drainable_bytes (user : bytes) (now : Z) (rows : list row) : Z :=
  match rows with
  | [] => 0
  | r :: rows' =>
      match drainable user now r with
      | Some _ => len r.2 + drainable_bytes user now rows'
      | None => drainable_bytes user now rows'
      end
  end.

Lemma drainable_bytes_nonneg user now rows : 0 <= drainable_bytes user now rows.
Proof.
  induction rows as [|r rows IH]; cbn; [lia|].
  pose proof (len_nonneg r.2). destruct (drainable user now r); lia.
Qed.

Lemma drainable_Some user now k v key d :
  drainable user now (k, v) = Some (key, d) ↔
  MessageKey.parse k = Some key ∧ len v <= QUEUE_BATCH_MAX_BYTES ∧
  queued_dispatch user v = Some d ∧ is_expired d now = false.
Proof.
  unfold drainable. cbn. destruct (MessageKey.parse k) as [key0|]; cbn; [|naive_solver].
  destruct (_ >? _) eqn:E; breflect; [naive_solver lia|].
  destruct (queued_dispatch user v) as [d0|]; cbn; [|naive_solver].
  destruct (is_expired d0 now) eqn:E'; split; try done.
  - intros (_ & _ & [= ->] & ?). congruence.
  - by intros [= <- <-].
  - by intros ([= ->] & _ & [= ->] & _).
Qed.

(** What the scan did: it walked [visited], took its drainable rows, marked only dead
    rows, and stopped because the rows ended, a read failed, or the next drainable row
    does not fit. *)
Record batch_result (user : bytes) (max now : Z) (sc : scan) (out : list (MessageKey * DispatchP))
    (used : Z) (dead : list bytes) (out' : list (MessageKey * DispatchP)) (dead' : list bytes)
    (ex : bool) (visited rest : list row) : Prop := {
  br_rows : ok_rows sc = visited ++ rest;
  br_out : out' = out ++ omap (drainable user now) visited;
  br_bytes : used + drainable_bytes user now visited <= QUEUE_BATCH_MAX_BYTES;
  br_max : len out' <= max;
  br_dead : ∃ d, dead' = dead ++ d ∧
              Forall (λ k, ∃ v, (k, v) ∈ visited ∧ dead_row user now (k, v)) d;
  br_end : if ex then rest = [] ∧ (None ∉ sc)
           else None ∈ sc ∨
                ∃ r rest' p, rest = r :: rest' ∧ drainable user now r = Some p ∧
                  (max <= len out' ∨
                   QUEUE_BATCH_MAX_BYTES < used + drainable_bytes user now visited + len r.2);
}.

(** One more visited row. *)
Lemma batch_result_cons user max now sc r out used dead1 out' dead' ex visited rest dead :
  batch_result user max now sc
    (match drainable user now r with Some p => out ++ [p] | None => out end)
    (match drainable user now r with Some _ => used + len r.2 | None => used end)
    dead1 out' dead' ex visited rest →
  (dead1 = dead ∨ dead1 = dead ++ [r.1] ∧ dead_row user now r) →
  batch_result user max now (Some r :: sc) out used dead out' dead' ex (r :: visited) rest.
Proof.
  intros [H1 H2 H3 H4 (d & -> & Hd) H6] Hdead. constructor.
  - cbn. by rewrite H1.
  - rewrite H2. cbn. destruct (drainable user now r); [by rewrite <- app_assoc|done].
  - cbn. destruct (drainable user now r); lia.
  - done.
  - assert (Hd' : Forall (λ k, ∃ v, (k, v) ∈ r :: visited ∧ dead_row user now (k, v)) d).
    { eapply Forall_impl; [exact Hd|]. intros k (v & ? & ?). exists v. split; [by right|done]. }
    destruct Hdead as [->|[-> Hr]]; [by exists d|]. exists (r.1 :: d). rewrite <- app_assoc.
    split; [done|]. constructor; [|done]. exists r.2. destruct r. split; [by left|done].
  - destruct ex.
    + destruct H6 as [-> ?]. split; [done|]. by intros [?|?]%elem_of_cons.
    + destruct H6 as [?|(r' & rest' & p & -> & Hp & Hlim)]; [left; by right|]. right.
      exists r', rest', p. split_and!; [done..|]. cbn. destruct (drainable user now r); lia.
Qed.

Lemma batch_scan_spec user max now sc : ∀ out used dead out' dead' ex,
  batch_scan user max now sc out used dead = (out', dead', ex) →
  0 <= used → used <= QUEUE_BATCH_MAX_BYTES → len out <= max →
  ∃ visited rest, batch_result user max now sc out used dead out' dead' ex visited rest.
Proof.
  induction sc as [|[[k v]|] sc IH]; intros out used dead out' dead' ex Hs Hu0 Hu Hmax; cbn in Hs.
  - injection Hs as <- <- <-. exists [], []. constructor; cbn; rewrite ?app_nil_r; try done; [lia| |].
    + exists []. by rewrite app_nil_r.
    + split; [done|]. by intros ?%not_elem_of_nil.
  - assert (Hskip : ∀ dead1, drainable user now (k, v) = None →
      (dead1 = dead ∨ dead1 = dead ++ [k] ∧ dead_row user now (k, v)) →
      batch_scan user max now sc out used dead1 = (out', dead', ex) →
      ∃ visited rest,
        batch_result user max now (Some (k, v) :: sc) out used dead out' dead' ex visited rest).
    { intros dead1 Hnone Hdead Hs1.
      destruct (IH _ _ _ _ _ _ Hs1 Hu0 Hu Hmax) as (vis & rest & Hbr).
      exists ((k, v) :: vis), rest. eapply batch_result_cons; [|exact Hdead]. by rewrite Hnone. }
    unfold drainable in Hskip. cbn [fst snd] in Hskip.
    destruct (MessageKey.parse k) as [key|] eqn:Hkey; [|by apply (Hskip dead); [|left|]].
    cbn [mbind option_bind] in Hskip. destruct (len v >? _) eqn:Hbig.
    { apply (Hskip _ eq_refl) in Hs; [done|]. right. split; [done|]. split; [by eexists|].
      left. cbn. breflect. lia. }
    destruct (queued_dispatch user v) as [dispatch|] eqn:Hq; [|by apply (Hskip dead); [|left|]].
    cbn in Hskip. destruct (is_expired dispatch now) eqn:Hexp.
    { apply (Hskip _ eq_refl) in Hs; [done|]. right. split; [done|]. split; [by eexists|].
      right. by exists dispatch. }
    clear Hskip. assert (Hdr : drainable user now (k, v) = Some (key, dispatch)).
    { unfold drainable. cbn. rewrite Hkey. cbn. rewrite Hbig, Hq. cbn. by rewrite Hexp. }
    assert (Hsat : sat_add used (len v) = used + len v ∨ sat_add used (len v) = u64_max)
      by (unfold sat_add; lia).
    destruct (_ || _) eqn:Hfull.
    + injection Hs as <- <- <-. exists [], ((k, v) :: ok_rows sc).
      constructor; cbn; rewrite ?app_nil_r; try done; [lia| |].
      * exists []. by rewrite app_nil_r.
      * right. exists (k, v), (ok_rows sc), (key, dispatch). split_and!; [done..|]. cbn.
        apply orb_true_iff in Hfull as [?|?]; breflect; [lia|]. right.
        unfold sat_add, QUEUE_BATCH_MAX_BYTES, MAX_FRAME_BYTES, u64_max in *. lia.
    + breflect. pose proof (len_nonneg v).
      destruct (IH _ _ _ _ _ _ Hs) as (vis & rest & Hbr); [lia| |rewrite len_snoc; lia|].
      { unfold sat_add, QUEUE_BATCH_MAX_BYTES, MAX_FRAME_BYTES, u64_max in *. lia. }
      exists ((k, v) :: vis), rest. eapply batch_result_cons; [|by left]. by rewrite Hdr.
  - injection Hs as <- <- <-. exists [], []. constructor; cbn; rewrite ?app_nil_r; try done; [lia| |].
    + exists []. by rewrite app_nil_r.
    + left. by left.
Qed.

Lemma omap_prefix {A B} (f : A → option B) l1 l2 : l1 `prefix_of` l2 → omap f l1 `prefix_of` omap f l2.
Proof. intros [k ->]. rewrite omap_app. by eexists. Qed.

Lemma prefix_rows_key user m k v :
  (k, v) ∈ prefix_rows user m → m !! k = Some v ∧ user `prefix_of` k.
Proof. apply elem_of_prefix_rows. Qed.

(** Keys of one recipient in lexicographic order are in order of acceptance time. *)
Lemma key_order user k1 k2 key1 key2 :
  length user = 32%nat → user `prefix_of` k1 → user `prefix_of` k2 →
  Forall is_u8 k1 → Forall is_u8 k2 →
  MessageKey.parse k1 = Some key1 → MessageKey.parse k2 = Some key2 →
  bytes_le k1 k2 → be_val (mk_ts_be key1) <= be_val (mk_ts_be key2).
Proof.
  intros Hu Hp1 Hp2 Hu1 Hu2 H1 H2 Hle.
  pose proof (parse_recipient _ _ _ H1 Hu Hp1) as Hr1.
  pose proof (parse_recipient _ _ _ H2 Hu Hp2) as Hr2.
  apply parse_Some in H1 as (_ & <- & _ & _ & Ht1), H2 as (_ & <- & _ & _ & Ht2).
  unfold MessageKey.as_bytes in *. rewrite Hr1, Hr2 in *.
  rewrite !Forall_app in Hu1, Hu2. destruct Hu1 as (_ & Hu1 & _), Hu2 as (_ & Hu2 & _).
  unfold bytes_le in Hle. rewrite bytes_cmp_app_same in Hle.
  destruct (Z.le_gt_cases (be_val (mk_ts_be key1)) (be_val (mk_ts_be key2))) as [|Hgt]; [done|].
  apply bytes_lt_be_val in Hgt; [|congruence|done..].
  apply (bytes_cmp_app_lt _ _ (mk_id key2) (mk_id key1)), bytes_lt_not_le in Hgt; [done|congruence].
Qed.

Lemma batch_sorted user m now visited :
  length user = 32%nat → (∀ k v, m !! k = Some v → Forall is_u8 k) →
  visited `prefix_of` prefix_rows user m →
  StronglySorted (λ a b : MessageKey * DispatchP, be_val (mk_ts_be a.1) <= be_val (mk_ts_be b.1))
    (omap (drainable user now) visited).
Proof.
  intros Hu Hbytes [rest Hrows].
  pose proof (rows_where_sorted (λ k, user `prefix_of` k) m) as Hs. fold (prefix_rows user m) in Hs.
  assert (Hin : ∀ k v, (k, v) ∈ visited → Forall is_u8 k ∧ user `prefix_of` k).
  { intros k v Hv. assert ((k, v) ∈ prefix_rows user m) as [? ?]%elem_of_prefix_rows
      by (rewrite Hrows; apply elem_of_app; by left). eauto. }
  rewrite Hrows in Hs. apply StronglySorted_app_1_l in Hs. clear Hrows.
  induction Hs as [|[k v] visited Hs IH Hf]; cbn; [constructor|].
  assert (Hin' : ∀ k v, (k, v) ∈ visited → Forall is_u8 k ∧ user `prefix_of` k)
    by (intros k' v' ?; apply (Hin k' v'); by right).
  destruct (drainable user now (k, v)) as [[key d]|] eqn:Hd; [|by apply IH].
  constructor; [by apply IH|]. apply Forall_forall. intros [key' d'].
  rewrite list_elem_of_omap. intros ([k' v'] & Hin2 & Hd'). cbn.
  rewrite Forall_forall in Hf. specialize (Hf _ Hin2). unfold row_le in Hf. cbn in Hf.
  apply drainable_Some in Hd as (? & _), Hd' as (? & _).
  destruct (Hin k v) as [? ?]; [by left|]. destruct (Hin' k' v' Hin2) as [? ?].
  by eapply (key_order user k k').
Qed.

(** ** Deletion *)

Lemma elem_of_victims_scan target sc k :
  k ∈ victims_scan target sc ↔
  ∃ v, (k, v) ∈ ok_rows sc ∧ is_queue_key k ∧ drop 40 k ∈ target.
Proof.
  assert (Hparse : ∀ k', match MessageKey.parse k' with
                         | Some key => is_queue_key k' ∧ mk_id key = drop 40 k'
                         | None => ¬ is_queue_key k'
                         end).
  { intros k'. unfold MessageKey.parse, is_queue_key. by case_decide. }
  induction sc as [|[[k0 v0]|] sc IH]; cbn.
  - split; [by intros ?%not_elem_of_nil|]. by intros (? & ?%not_elem_of_nil & _).
  - specialize (Hparse k0). destruct (MessageKey.parse k0) as [key|].
    + destruct Hparse as [Hk Hid]. rewrite Hid. case_bool_decide as Hin.
      * rewrite elem_of_cons, IH. split.
        -- intros [->|(v & ? & ? & ?)]; [exists v0|exists v]; (split_and!; [|done..]);
             [by left|by right].
        -- intros (v & [[= -> ->]|?]%elem_of_cons & ? & ?); [by left|]. right. eauto.
      * rewrite IH. split.
        -- intros (v & ? & ? & ?). exists v. split_and!; [by right|done..].
        -- intros (v & [[= -> ->]|?]%elem_of_cons & ? & ?); [done|]. eauto.
    + rewrite IH. split.
      * intros (v & ? & ? & ?). exists v. split_and!; [by right|done..].
      * intros (v & [[= -> ->]|?]%elem_of_cons & ? & ?); [done|]. eauto.
  - split; [by intros ?%not_elem_of_nil|]. by intros (? & ?%not_elem_of_nil & _).
Qed.

(** ** Retries *)

(** The rows of [rows] whose sender is [sender]. *)
Definition from_sender_rows (user sender : bytes) (rows : list row) : list row :=
  filter (λ r, is_queue_key r.1 ∧ (d_from <$> queued_dispatch user r.2) = Some sender) rows.

Fixpoint rows_bytes (rows : list row) : Z :=
  match rows with [] => 0 | r :: rows' => len r.2 + rows_bytes rows' end.

Lemma rows_bytes_nonneg rows : 0 <= rows_bytes rows.
Proof. induction rows as [|r rows IH]; cbn; [lia|]. pose proof (len_nonneg r.2). lia. Qed.

Lemma rows_bytes_app rows1 rows2 : rows_bytes (rows1 ++ rows2) = rows_bytes rows1 + rows_bytes rows2.
Proof. induction rows1 as [|r rows1 IH]; cbn; lia. Qed.

Lemma rows_bytes_submseteq rows1 rows2 : rows1 ⊆+ rows2 → rows_bytes rows1 <= rows_bytes rows2.
Proof.
  induction 1; cbn; try lia. pose proof (len_nonneg x.2). lia.
Qed.

Lemma same_sender_decide user sender v :
  is_some_and (λ queued, bool_decide (d_from queued = sender)) (queued_dispatch user v)
  = bool_decide ((d_from <$> queued_dispatch user v) = Some sender).
Proof.
  destruct (queued_dispatch user v) as [d|]; cbn; [|by rewrite bool_decide_eq_false_2].
  apply bool_decide_ext. naive_solver.
Qed.

(** Within the byte budget every row is attributed, so the share is counted exactly. *)
Lemma admit_scan_share user id sender rows : ∀ total fs att t f,
  admit_scan user id sender (Some <$> rows) total fs att = inr (t, f) →
  t < MAX_QUEUED_PER_RECIPIENT → f < MAX_QUEUED_PER_SENDER →
  att + rows_bytes rows < SENDER_SCAN_BYTE_BUDGET →
  f = fs + len (from_sender_rows user sender rows).
Proof.
  induction rows as [|[k v] rows IH]; intros total fs att t f Hs Ht Hf Hb;
    cbn -[MessageKey.SIZE is_queue_key] in Hs.
  { injection Hs as <- <-. unfold from_sender_rows. rewrite filter_nil, len_nil. lia. }
  cbn in Hb. pose proof (len_nonneg v). pose proof (rows_bytes_nonneg rows).
  unfold from_sender_rows. rewrite filter_cons. cbn [fst snd].
  fold (from_sender_rows user sender rows). rewrite same_sender_decide in Hs.
  replace (att <? SENDER_SCAN_BYTE_BUDGET) with true in Hs by (symmetry; apply Z.ltb_lt; lia).
  cbn [andb] in Hs. case_bool_decide as Hk; cbn [negb] in Hs; cycle 1.
  { rewrite decide_False by naive_solver. by apply (IH _ _ _ _ _ Hs); [..|lia]. }
  case_bool_decide as Hid; [done|].
  case_bool_decide as Hsame; cbn [andb] in Hs.
  - rewrite decide_True by done. rewrite len_cons.
    destruct (_ >=? MAX_QUEUED_PER_SENDER) eqn:E1; [injection Hs as <- <-; breflect; lia|].
    destruct (_ >=? MAX_QUEUED_PER_RECIPIENT + 1) eqn:E2; [injection Hs as <- <-; breflect; lia|].
    rewrite (IH _ _ _ _ _ Hs); lia.
  - rewrite decide_False by naive_solver.
    destruct (_ >=? MAX_QUEUED_PER_RECIPIENT + 1) eqn:E2; [injection Hs as <- <-; breflect; lia|].
    by rewrite (IH _ _ _ _ _ Hs); [|lia..].
Qed.

(** A row with the sender's id is recognised when the rows before it are within the
    caps and the budget. *)
Lemma admit_scan_found user id sender k v sc pre : ∀ total fs att,
  is_queue_key k → drop 40 k = id → (d_from <$> queued_dispatch user v) = Some sender →
  (∀ k' v', (k', v') ∈ pre → is_queue_key k' → drop 40 k' ≠ id) →
  total + len (filter (λ r, is_queue_key r.1) pre) <= MAX_QUEUED_PER_RECIPIENT →
  fs + len (from_sender_rows user sender pre) < MAX_QUEUED_PER_SENDER →
  att + rows_bytes pre < SENDER_SCAN_BYTE_BUDGET →
  admit_scan user id sender ((Some <$> pre) ++ Some (k, v) :: sc) total fs att = inl AlreadyQueued.
Proof.
  induction pre as [|[k' v'] pre IH]; intros total fs att Hk Hid Hsame Hpre Ht Hf Hb;
    cbn -[MessageKey.SIZE is_queue_key].
  - cbn in Hb. rewrite bool_decide_eq_true_2 by done. cbn [negb].
    rewrite (bool_decide_eq_true_2 _ Hid), same_sender_decide, bool_decide_eq_true_2 by done.
    by replace (att <? SENDER_SCAN_BYTE_BUDGET) with true by (symmetry; apply Z.ltb_lt; lia).
  - cbn in Hb. pose proof (len_nonneg v'). pose proof (rows_bytes_nonneg pre).
    unfold from_sender_rows in Hf. rewrite filter_cons in Hf, Ht. cbn [fst snd] in Hf, Ht.
    fold (from_sender_rows user sender pre) in Hf. rewrite same_sender_decide.
    replace (att <? SENDER_SCAN_BYTE_BUDGET) with true by (symmetry; apply Z.ltb_lt; lia).
    cbn [andb]. pose proof (len_nonneg (from_sender_rows user sender pre)).
    pose proof (len_nonneg (filter (λ r, is_queue_key r.1) pre)).
    assert (Hpre' : ∀ k' v', (k', v') ∈ pre → is_queue_key k' → drop 40 k' ≠ id)
      by (intros k0 v0 ?; apply (Hpre k0 v0); by right).
    case_bool_decide as Hk'; cbn [negb]; cycle 1.
    { rewrite decide_False in Ht by done. rewrite decide_False in Hf by naive_solver.
      apply IH; try done; lia. }
    rewrite decide_True, len_cons in Ht by done.
    rewrite bool_decide_eq_false_2 by (apply (Hpre k' v'); [by left|done]).
    case_bool_decide as Hsame'; cbn [andb].
    + rewrite decide_True, len_cons in Hf by done.
      destruct (_ >=? MAX_QUEUED_PER_SENDER) eqn:E1; [breflect; lia|].
      destruct (_ >=? MAX_QUEUED_PER_RECIPIENT + 1) eqn:E2; [breflect; lia|].
      apply IH; try done; lia.
    + rewrite decide_False in Hf by naive_solver.
      destruct (_ >=? MAX_QUEUED_PER_RECIPIENT + 1) eqn:E2; [breflect; lia|].
      apply IH; try done; lia.
Qed.

Lemma prefix_rows_NoDup user m : NoDup (prefix_rows user m).
Proof. eapply NoDup_fmap_1, (rows_where_NoDup (λ k, user `prefix_of` k)). Qed.

(** Counting under a filter is monotone in the rows. *)
Lemma len_filter_subset (P : row → Prop) `{!∀ r, Decision (P r)} l1 l2 :
  NoDup l1 → (∀ r, r ∈ l1 → r ∈ l2) → len (filter P l1) <= len (filter P l2).
Proof.
  intros Hnd Hsub. enough (filter P l1 ⊆+ filter P l2) as ?%submseteq_length by (unfold len; lia).
  apply NoDup_submseteq; [by apply NoDup_filter|]. intros r. rewrite !list_elem_of_filter. naive_solver.
Qed.

(** The verdict [Insert], with the sender's share counted. *)
Lemma admit_insert_share ks user id sender :
  admit_to_queue ks user id sender = Insert →
  rows_bytes (prefix_rows user (ks_view ks)) < SENDER_SCAN_BYTE_BUDGET →
  len (from_sender_rows user sender (prefix_rows user (ks_view ks))) < MAX_QUEUED_PER_SENDER.
Proof.
  unfold admit_to_queue. destruct (admit_scan _ _ _ _ _ _ _) as [a|[t f]] eqn:Hs.
  { intros ->. by apply admit_scan_not_insert in Hs. }
  destruct (_ || _) eqn:Hcap; [done|]. breflect. intros _ Hb.
  destruct (admit_scan_below _ _ _ _ _ _ _ _ _ Hs) as (Hn & _ & _); [done..|].
  rewrite (so_complete _ _ (ks_prefix_view ks user) Hn) in Hs.
  apply admit_scan_share in Hs; [lia|done..].
Qed.

(** After an insert, the same dispatch is recognised as queued. *)
Lemma admit_after_insert `{!Healthy KS} (ks ks1 : KS) user dispatch now value :
  length user = 32%nat → length (d_id dispatch) = 16%nat → ser dispatch = Some value →
  healthy ks1 →
  admit_to_queue ks user (d_id dispatch) (d_from dispatch) = Insert →
  let key := MessageKey.as_bytes (MessageKey.new user now (d_id dispatch)) in
  ks_view ks1 = <[key := value]> (ks_view ks) →
  rows_bytes (prefix_rows user (ks_view ks1)) < SENDER_SCAN_BYTE_BUDGET →
  admit_to_queue ks1 user (d_id dispatch) (d_from dispatch) = AlreadyQueued.
Proof.
  intros Hu Hi Hser Hh Ha key Hv Hb. pose proof (admit_insert _ _ _ _ Ha) as [Hlen Hids].
  assert (Hkey : is_queue_key key) by (by apply as_bytes_new_length).
  assert (Hid : drop 40 key = d_id dispatch).
  { unfold key, MessageKey.as_bytes. cbn. rewrite app_assoc, drop_app_length'; [done|].
    by rewrite length_app, length_be_bytes, Hu. }
  assert (Hpre : user `prefix_of` key) by (by eexists).
  assert (Hfresh : ks_view ks !! key = None).
  { destruct (ks_view ks !! key) as [v|] eqn:E; [|done]. exfalso.
    apply (Hids key v); [by apply elem_of_queue_rows|done]. }
  assert (Hmono : ∀ r, r ∈ prefix_rows user (ks_view ks) → r ∈ prefix_rows user (ks_view ks1)).
  { intros [k v]. rewrite !elem_of_prefix_rows, Hv. intros [Hk ?]. split; [|done].
    rewrite lookup_insert_ne; [done|congruence]. }
  assert (Hshare := admit_insert_share _ _ _ _ Ha).
  assert (Hb0 : rows_bytes (prefix_rows user (ks_view ks)) < SENDER_SCAN_BYTE_BUDGET).
  { eapply Z.le_lt_trans; [|exact Hb]. apply rows_bytes_submseteq.
    apply NoDup_submseteq; [apply prefix_rows_NoDup|done]. }
  specialize (Hshare Hb0).
  assert (Hin : (key, value) ∈ prefix_rows user (ks_view ks1)).
  { apply elem_of_prefix_rows. by rewrite Hv, lookup_insert_eq. }
  unfold admit_to_queue.
  rewrite (so_complete _ _ (ks_prefix_view ks1 user) (healthy_prefix ks1 user Hh)).
  pose proof (prefix_rows_NoDup user (ks_view ks1)) as Hnd.
  apply list_elem_of_split in Hin as (pre & post & Hrows). rewrite Hrows in *.
  assert (Hold : ∀ r, r ∈ pre → r ∈ prefix_rows user (ks_view ks)).
  { intros [k v] Hr. assert (Hr1 : (k, v) ∈ prefix_rows user (ks_view ks1))
      by (rewrite Hrows; apply elem_of_app; by left).
    apply elem_of_prefix_rows in Hr1 as [Hk ?]. apply elem_of_prefix_rows. split; [|done].
    rewrite Hv in Hk. destruct (decide (k = key)) as [->|]; [|by rewrite lookup_insert_ne in Hk].
    rewrite lookup_insert_eq in Hk. injection Hk as <-. apply NoDup_app in Hnd as (_ & Hd & _).
    destruct (Hd _ Hr). by left. }
  apply NoDup_app in Hnd as (Hndp & _ & _).
  rewrite fmap_app, fmap_cons. erewrite admit_scan_found; [done|done|done| | | | |].
  - unfold queued_dispatch. by rewrite (deser_ser _ _ Hser).
  - intros k' v' Hr Hk'. apply (Hids k' v'), elem_of_queue_rows.
    apply Hold, elem_of_prefix_rows in Hr as [? ?]. done.
  - pose proof (len_filter_subset (λ r, is_queue_key r.1) _ _ Hndp Hold). unfold queue_rows in Hlen. lia.
  - unfold from_sender_rows in *.
    pose proof (len_filter_subset (λ r, is_queue_key r.1 ∧ (d_from <$> queued_dispatch user r.2)
                                        = Some (d_from dispatch)) _ _ Hndp Hold). lia.
  - rewrite rows_bytes_app in Hb. cbn in Hb. pose proof (rows_bytes_nonneg post).
    pose proof (len_nonneg value). lia.
Qed.

(** ** Theorems *)

(** whatever the order of enqueues, batches, deletions, migrations and sweeps, a
    recipient never has more than 1024 queued rows, and never two rows with one
    dispatch id. *)
Theorem queue_reachable_ok s0 s :
  view s0 KsQueue = ∅ → rtc queue_step s0 s → queue_ok (view s KsQueue).
Proof.
  intros Hempty Hrtc. assert (Hok : queue_ok (view s0 KsQueue)).
  { rewrite Hempty. intros recipient _. assert (queue_rows ∅ recipient = []) as ->.
    { unfold queue_rows, prefix_rows, rows_where. by rewrite map_to_list_empty. }
    split; [done|]. by intros k1 v1 k2 v2 ?%not_elem_of_nil. }
  clear Hempty. induction Hrtc as [|s0 s1 s Hstep _ IH]; [done|].
  apply IH. by eapply queue_step_ok.
Qed.

(** a retry is idempotent.  After a dispatch is [Stored], sending it again, at any
    time, answers [Stored] and changes nothing, as long as the recipient's rows are
    within the eight-megabyte budget that lets each be attributed to its sender. *)
Theorem enqueue_retry_idempotent `{!Healthy KS} s user dispatch now s1 now' :
  length user = 32%nat → length (d_id dispatch) = 16%nat →
  healthy (space s1 KsQueue) →
  enqueue_for_home s user dispatch now = (s1, Stored) →
  rows_bytes (prefix_rows user (view s1 KsQueue)) < SENDER_SCAN_BYTE_BUDGET →
  enqueue_for_home s1 user dispatch now' = (s1, Stored).
Proof.
  intros Hu Hi Hh Henq Hb. unfold enqueue_for_home in *.
  destruct (admit_to_queue (space s KsQueue) _ _ _) eqn:Ha; try done; cycle 1.
  { injection Henq as <-. by rewrite Ha. }
  destruct (ser dispatch) as [value|] eqn:Hser; [|done].
  destruct (put_sync _ _ _ _) as [s'|] eqn:Hput; [|done]. injection Henq as ->.
  pose proof (put_sync_view _ _ _ _ _ KsQueue Hput) as Hv. rewrite decide_True in Hv by done.
  unfold view in Hv, Hb.
  by rewrite (admit_after_insert (space s KsQueue) (space s1 KsQueue) user dispatch now value).
Qed.

(** a batch is the oldest drainable rows.  It is a prefix, in key order, of the
    recipient's rows that decode, have not outlived their sender's deadline and fit a
    frame; it respects the row and byte limits; when it reports the queue exhausted it
    holds every drainable row, and when it does not, on a working disk, it holds at
    least one, so the head of a queue can never block it.  Nothing is deleted but rows
    that can never be drained. *)
Theorem queue_batch_correct s user max now s' out exhausted :
  0 < max → queue_batch_for_user s user max now = (s', (out, exhausted)) →
  let rows := prefix_rows user (view s KsQueue) in
  (∃ visited, visited `prefix_of` rows ∧ out = omap (drainable user now) visited ∧
              drainable_bytes user now visited <= QUEUE_BATCH_MAX_BYTES) ∧
  len out <= max ∧
  (exhausted = true → out = omap (drainable user now) rows) ∧
  (exhausted = false → None ∉ ks_prefix (space s KsQueue) user → out ≠ []) ∧
  ∀ k, view s' KsQueue !! k = view s KsQueue !! k ∨
       (view s' KsQueue !! k = None ∧
        ∃ v, view s KsQueue !! k = Some v ∧ dead_row user now (k, v)).
Proof.
  intros Hmax. unfold queue_batch_for_user. destruct (max =? 0) eqn:E0; [breflect; lia|].
  destruct (batch_scan _ _ _ _ _ _ _) as [[out' dead'] ex] eqn:Hs. intros [= <- <- <-].
  apply batch_scan_spec in Hs as (vis & rest & [H1 -> H3 H4 (d & -> & Hd) H6]);
    [|unfold QUEUE_BATCH_MAX_BYTES, MAX_FRAME_BYTES; rewrite ?len_nil; lia..].
  pose proof (ks_prefix_view (space s KsQueue) user) as Hscan. cbn [app] in *.
  assert (Hpre : vis `prefix_of` prefix_rows user (view s KsQueue)).
  { etrans; [|apply (so_prefix _ _ Hscan)]. rewrite H1. by eexists. }
  split_and!; [exists vis; split_and!; [done..|lia]|done| | |].
  - intros ->. destruct H6 as [-> Hn]. rewrite (ok_rows_complete _ _ Hscan Hn), app_nil_r in H1.
    by rewrite <- H1.
  - intros -> Hn Hout. destruct H6 as [?|(r & rest' & p & -> & Hp & Hlim)]; [done|].
    rewrite Hout, len_nil in Hlim. destruct r as [k v], p as [key dsp].
    apply drainable_Some in Hp as (_ & Hsz & _). cbn in Hlim.
    assert (drainable_bytes user now vis = 0); [|lia].
    clear -Hout. induction vis as [|r vis IH]; cbn in *; [done|].
    destruct (drainable user now r); [done|]. auto.
  - intros k. unfold view. cbn [set_space space]. rewrite decide_True by done.
    destruct (sweep_remove_view d (space s KsQueue) k) as [?|[? Hin]]; [by left|].
    right. split; [done|]. rewrite Forall_forall in Hd. destruct (Hd _ Hin) as (v & Hv & Hdead).
    exists v. split; [|done]. destruct Hpre as [x Hx].
    assert ((k, v) ∈ prefix_rows user (view s KsQueue)) as [? _]%elem_of_prefix_rows; [|done].
    rewrite Hx. apply elem_of_app. by left.
Qed.

(** a batch is in order of acceptance: the home's own acceptance times, read from
    the keys, never decrease along it. *)
Theorem queue_batch_in_order s user max now s' out exhausted :
  length user = 32%nat → 0 < max →
  (∀ k v, view s KsQueue !! k = Some v → Forall is_u8 k) →
  queue_batch_for_user s user max now = (s', (out, exhausted)) →
  StronglySorted (λ a b : MessageKey * DispatchP, be_val (mk_ts_be a.1) <= be_val (mk_ts_be b.1)) out.
Proof.
  intros Hu Hmax Hbytes. unfold queue_batch_for_user. destruct (max =? 0) eqn:E0; [breflect; lia|].
  destruct (batch_scan _ _ _ _ _ _ _) as [[out' dead'] ex] eqn:Hs. intros [= <- <- <-].
  apply batch_scan_spec in Hs as (vis & rest & [H1 -> _ _ _ _]);
    [|unfold QUEUE_BATCH_MAX_BYTES, MAX_FRAME_BYTES; rewrite ?len_nil; lia..]. cbn [app].
  apply (batch_sorted user (view s KsQueue)); [done..|].
  etrans; [|apply (so_prefix _ _ (ks_prefix_view (space s KsQueue) user))]. rewrite H1. by eexists.
Qed.

(** on a working disk, acknowledging ids deletes exactly the recipient's rows with
    those ids; every other row, of this or another recipient, is untouched. *)
Theorem delete_queue_entries_exact `{!Healthy KS} s user ids k :
  healthy (space s KsQueue) → ids ≠ [] →
  view (delete_queue_entries s user ids).1 KsQueue !! k =
    if bool_decide (user `prefix_of` k ∧ is_queue_key k ∧ drop 40 k ∈ ids)
    then None else view s KsQueue !! k.
Proof.
  intros Hh Hne. unfold delete_queue_entries. destruct ids as [|i ids]; [done|].
  set (target := i :: ids) in *. set (victims := victims_scan _ _).
  assert (Hvict : ∀ k, k ∈ victims ↔
            is_Some (view s KsQueue !! k) ∧ user `prefix_of` k ∧ is_queue_key k ∧ drop 40 k ∈ target).
  { intros k'. unfold victims. rewrite elem_of_victims_scan.
    rewrite (ok_rows_complete _ _ (ks_prefix_view (space s KsQueue) user)) by (by apply healthy_prefix).
    unfold is_Some. setoid_rewrite elem_of_prefix_rows. unfold view. naive_solver. }
  destruct (remove_counting_healthy victims (space s KsQueue) Hh) as [_ Hgone].
  pose proof (remove_counting_view victims (space s KsQueue) k) as Hk.
  destruct (remove_counting (space s KsQueue) victims) as [ks n]. cbn [fst] in *.
  rewrite view_set_space, decide_True by done. unfold view in *. case_bool_decide as Hc.
  - destruct (ks_view (space s KsQueue) !! k) as [v|] eqn:E.
    + apply Hgone, Hvict. unfold view. rewrite E. naive_solver.
    + destruct Hk as [?|[? _]]; congruence.
  - destruct Hk as [?|[_ Hin]]; [done|]. apply Hvict in Hin. naive_solver.
Qed.
End queue.

(** ** Codecs and a queue to evaluate with *)

Module ToyQueue.
Import Mem ToyCodec.

Definition wake_tag (w : Wake) : Z :=
  match w with WakeNo => 0 | WakeMessage => 1 | WakeCall => 2 end.

Definition raw_dispatch (d : DispatchP) : bytes :=
  enc (d_to d) ++ enc (d_from d) ++ enc (d_id d) ++ enc (d_payload d) ++ enc (d_sig d)
  ++ [d_accepted_at_ms d; wake_tag (d_wake d); d_ttl_ms d].

Definition parse_dispatch (b : bytes) : option DispatchP :=
  '(to, b) ← dec b; '(from, b) ← dec b; '(id, b) ← dec b; '(payload, b) ← dec b;
  '(sig, b) ← dec b;
  match b with
  | [at_; w; ttl] =>
      Some (mkDispatch to from id payload sig at_
              (if w =? 0 then WakeNo else if w =? 1 then WakeMessage else WakeCall) ttl)
  | _ => None
  end.

Lemma parse_raw_dispatch d : parse_dispatch (raw_dispatch d) = Some d.
Proof.
  unfold parse_dispatch, raw_dispatch. do 5 (rewrite dec_enc; cbn [mbind option_bind]).
  by destruct d as [? ? ? ? ? ? []].
Qed.

(** A codec for a shape nobody writes. *)
Definition no_codec (A : Type) : Codec A :=
  {| ser := λ _, None; deser := λ _, None; deser_ser := λ _ _, ltac:(discriminate) |}.

#[export] Instance dispatch_codec : Codec DispatchP :=
  {| ser := λ d, Some (raw_dispatch d); deser := parse_dispatch;
     deser_ser := toy_law raw_dispatch parse_dispatch parse_raw_dispatch |}.

#[export] Instance queue_codecs : QueueCodecs :=
  {| codec_dispatch := dispatch_codec; codec_untimed := no_codec _;
     codec_delivered_ttl := no_codec _; codec_delivered := no_codec _ |}.

(** A dispatch to [to] with the id [n]; [ttl] zero never expires. *)
Definition a_dispatch (to : bytes) (n ttl : Z) : DispatchP :=
  mkDispatch to (replicate 32 9) (replicate 16 n) [1; 2; 3] (replicate 64 0) 5 WakeMessage ttl.

Definition alice : bytes := replicate 32 1.

Definition empty_store : Store Mem.mem :=
  mkStore (λ _, Mem.mem_of ∅) (mkMaint false false 0 0 false).

(** Three dispatches accepted at times 30, 10 and 20; the last one lives one
    millisecond. *)
Definition one_queued : Store Mem.mem :=
  (enqueue_for_home empty_store alice (a_dispatch alice 3 0) 30).1.
Definition two_queued : Store Mem.mem :=
  (enqueue_for_home one_queued alice (a_dispatch alice 1 0) 10).1.
Definition queued_store : Store Mem.mem :=
  (enqueue_for_home two_queued alice (a_dispatch alice 2 1) 20).1.
End ToyQueue.

Import Mem ToyQueue.

Lemma queue_reachable_ok_witness : queue_ok (view queued_store KsQueue).
Proof.
  apply (queue_reachable_ok empty_store); [reflexivity|].
  apply (rtc_l _ _ one_queued); [by apply StepEnqueue|].
  apply (rtc_l _ _ two_queued); [by apply StepEnqueue|].
  apply rtc_once. by apply StepEnqueue.
Defined.

Lemma enqueue_retry_idempotent_witness :
  enqueue_for_home queued_store alice (a_dispatch alice 2 1) 99 = (queued_store, Stored).
Proof.
  assert (Hst : (enqueue_for_home two_queued alice (a_dispatch alice 2 1) 20).2 = Stored)
    by (vm_compute; reflexivity).
  apply (enqueue_retry_idempotent two_queued alice (a_dispatch alice 2 1) 20 queued_store 99).
  - reflexivity.
  - reflexivity.
  - vm_compute. reflexivity.
  - exact (pair_snd _ _ Hst).
  - vm_compute. reflexivity.
Defined.

(** At time 50 the expired dispatch is dropped and the other two come oldest first. *)
Lemma queue_batch_correct_witness :
  let '(s', (out, exhausted)) := queue_batch_for_user queued_store alice 64 50 in
  map (λ p, mk_id p.1) out = [replicate 16 1; replicate 16 3] ∧ exhausted = true ∧
  out = omap (drainable alice 50) (prefix_rows alice (view queued_store KsQueue)).
Proof.
  destruct (queue_batch_for_user queued_store alice 64 50) as [s' [out exhausted]] eqn:E.
  assert (Hout : (queue_batch_for_user queued_store alice 64 50).2 = (out, exhausted)) by (by rewrite E).
  vm_compute in Hout. injection Hout as Hout Hex.
  destruct (queue_batch_correct queued_store alice 64 50 s' out exhausted)
    as (_ & _ & Hall & _); [reflexivity|exact E|].
  split; [rewrite <- Hout; reflexivity|]. split; [by rewrite <- Hex|]. apply Hall. by rewrite <- Hex.
Defined.

Lemma queue_batch_in_order_witness :
  StronglySorted (λ a b : MessageKey * DispatchP, be_val (mk_ts_be a.1) <= be_val (mk_ts_be b.1))
    (queue_batch_for_user queued_store alice 64 50).2.1.
Proof.
  assert (Hkeys : map_Forall (λ k _, Forall is_u8 k) (view queued_store KsQueue)) by by_eval.
  eapply (queue_batch_in_order queued_store alice 64 50
            (queue_batch_for_user queued_store alice 64 50).1 _
            (queue_batch_for_user queued_store alice 64 50).2.2).
  - reflexivity.
  - reflexivity.
  - exact Hkeys.
  - by destruct (queue_batch_for_user queued_store alice 64 50) as [? []].
Defined.

Lemma delete_queue_entries_exact_witness :
  view (delete_queue_entries queued_store alice [replicate 16 3]).1 KsQueue
    !! MessageKey.as_bytes (MessageKey.new alice 30 (replicate 16 3)) = None.
Proof.
  rewrite (delete_queue_entries_exact queued_store alice [replicate 16 3]).
  - vm_compute. reflexivity.
  - vm_compute. reflexivity.
  - discriminate.
Defined.
