(* ===== verification/Maintenance.v ===== *)
(** * Maintenance: the group-commit thread and the persist barrier

    [relay/src/storage/db.rs]: [Store::request_persist], [run_maintenance]'s commit
    loop, [PersistBarrier::wait_blocking] and [Drop for Store], as a step relation.
    Each step is one critical section of the maintenance lock, one insert or one call
    of fjall's [persist]; they interleave freely. *)

From S2P Require Import Prelude Bytes Keyspace Store.

(** Where the worker is in its loop. *)
Inductive worker :=
| Waiting                                     (* in the condition-variable loop *)
| Syncing (covered : Z) (stop : bool) (start : Z)  (* inside [db.persist], begun after [start] inserts *)
| Synced (covered : Z) (stop ok : bool)            (* [db.persist] returned *)
| Stopped.

(** The shared state; inserts are numbered, and [marks] records, for each generation
    handed out, how many inserts had been made. *)
Record gstate := mkG {
  g_maint : MaintenanceState;
  g_inserted : Z;
  g_durable : Z;
  g_marks : list (Z * Z);
  g_worker : worker;
}.

Definition g_init : gstate := mkG (mkMaint false false 0 0 false) 0 0 [] Waiting.

(** [request_persist]'s critical section. *)
Definition request (m : MaintenanceState) : MaintenanceState :=
  mkMaint true (shutdown m) (wrap_add (requested_gen m) 1) (persisted_gen m) (persist_failed m).

(** The worker's first critical section: it takes the request flag and snapshots the
    generation the commit covers. *)
Definition take_request (m : MaintenanceState) : MaintenanceState :=
  mkMaint false (shutdown m) (requested_gen m) (persisted_gen m) (persist_failed m).

(** The worker's second critical section. *)
Definition publish (m : MaintenanceState) (covered : Z) (ok : bool) : MaintenanceState :=
  mkMaint (persist_requested m) (shutdown m) (requested_gen m) covered
    (if ok then persist_failed m else true).

(** [PersistBarrier::wait_blocking]: [None] while it waits, then whether it is [Ok]. *)
Definition wait_blocking (m : MaintenanceState) (target : Z) : option bool :=
  if (persisted_gen m <? target) && negb (shutdown m) then None
  else Some (negb (persist_failed m)).

(** A step of any thread but the worker. *)
Inductive client_step : gstate → gstate → Prop :=
| CInsert g : client_step g (mkG (g_maint g) (g_inserted g + 1) (g_durable g) (g_marks g) (g_worker g))
| CRequest g :
    requested_gen (g_maint g) < u64_max →
    client_step g
      (mkG (request (g_maint g)) (g_inserted g) (g_durable g)
         ((requested_gen (request (g_maint g)), g_inserted g) :: g_marks g) (g_worker g))
| CShutdown g :
    let m := g_maint g in
    client_step g
      (mkG (mkMaint (persist_requested m) true (requested_gen m) (persisted_gen m) (persist_failed m))
         (g_inserted g) (g_durable g) (g_marks g) (g_worker g)).

(** A step of [run_maintenance].  A wake-up for the sweep alone persists nothing. *)
Inductive worker_step : gstate → gstate → Prop :=
| WTake g :
    g_worker g = Waiting →
    persist_requested (g_maint g) || shutdown (g_maint g) = true →
    worker_step g
      (mkG (take_request (g_maint g)) (g_inserted g) (g_durable g) (g_marks g)
         (Syncing (requested_gen (g_maint g)) (shutdown (g_maint g)) (g_inserted g)))
| WPersistOk g covered stop start durable :
    g_worker g = Syncing covered stop start →
    start <= durable → g_durable g <= durable → durable <= g_inserted g →
    worker_step g (mkG (g_maint g) (g_inserted g) durable (g_marks g) (Synced covered stop true))
| WPersistErr g covered stop start :
    g_worker g = Syncing covered stop start →
    worker_step g (mkG (g_maint g) (g_inserted g) (g_durable g) (g_marks g) (Synced covered stop false))
| WPublish g covered stop ok :
    g_worker g = Synced covered stop ok →
    worker_step g
      (mkG (publish (g_maint g) covered ok) (g_inserted g) (g_durable g) (g_marks g)
         (if stop then Stopped else Waiting)).

Definition g_step (g g' : gstate) : Prop := client_step g g' ∨ worker_step g g'.

(** ** Invariant *)

(** Every insert marked at or below generation [c] is among the first [n]. *)
Definition marks_within (g : gstate) (c n : Z) : Prop :=
  ∀ gen k, (gen, k) ∈ g_marks g → gen <= c → k <= n.

Record g_inv (g : gstate) : Prop := {
  gi_range : 0 <= persisted_gen (g_maint g) <= requested_gen (g_maint g) ∧
             requested_gen (g_maint g) <= u64_max;
  gi_marks : ∀ gen k, (gen, k) ∈ g_marks g →
               gen <= requested_gen (g_maint g) ∧ k <= g_inserted g;
  gi_durable : persist_failed (g_maint g) = false →
               marks_within g (persisted_gen (g_maint g)) (g_durable g);
  gi_count : g_durable g <= g_inserted g;
  gi_worker :
    match g_worker g with
    | Waiting => persist_requested (g_maint g) = false →
                 persisted_gen (g_maint g) = requested_gen (g_maint g)
    | Syncing covered stop start =>
        persisted_gen (g_maint g) <= covered <= requested_gen (g_maint g) ∧
        marks_within g covered start ∧ start <= g_inserted g ∧
        (persist_requested (g_maint g) = false → covered = requested_gen (g_maint g)) ∧
        (stop = true → shutdown (g_maint g) = true)
    | Synced covered stop ok =>
        persisted_gen (g_maint g) <= covered <= requested_gen (g_maint g) ∧
        (ok = true → marks_within g covered (g_durable g)) ∧
        (persist_requested (g_maint g) = false → covered = requested_gen (g_maint g)) ∧
        (stop = true → shutdown (g_maint g) = true)
    | Stopped => shutdown (g_maint g) = true
    end;
}.

Lemma g_inv_init : g_inv g_init.
Proof.
  constructor; cbn; try done.
  - intros gen k ?%not_elem_of_nil. done.
  - intros _ gen k ?%not_elem_of_nil. done.
Qed.

(** A new mark is above every generation the worker may cover. *)
Lemma marks_within_new g c n gen k :
  marks_within g c n → c < gen →
  ∀ m ins d w, marks_within (mkG m ins d ((gen, k) :: g_marks g) w) c n.
Proof. intros Hm Hlt m ins d w gen' k' [[= -> ->]|Hin]%elem_of_cons Hle; [lia|by eapply Hm]. Qed.

Lemma client_step_inv g g' : client_step g g' → g_inv g → g_inv g'.
Proof.
  intros [g0|g0 Hlt|g0 m] [Hr Hm Hd Hc Hw]; destruct g0 as [mt ins dur marks w]; cbn in *.
  - constructor; cbn; [done| |done|lia|].
    + intros gen k Hin. destruct (Hm gen k Hin). lia.
    + destruct w; try done. destruct_and!. split_and!; done || lia.
  - assert (Hnext : wrap_add (requested_gen mt) 1 = requested_gen mt + 1).
    { apply wrap_add_small. unfold u64_max in *. lia. }
    assert (Hwithin : ∀ c n, c <= requested_gen mt → marks_within (mkG mt ins dur marks w) c n →
      marks_within (mkG (request mt) ins dur
        ((wrap_add (requested_gen mt) 1, ins) :: marks) w) c n).
    { intros c n Hcle Hmw. refine (marks_within_new _ c n _ _ Hmw _ _ _ _ _). lia. }
    constructor; cbn.
    + rewrite Hnext. lia.
    + intros gen k [[= -> ->]|Hin]%elem_of_cons; [lia|]. rewrite Hnext. destruct (Hm gen k Hin). lia.
    + intros Hf. apply Hwithin; [lia|]. by apply Hd.
    + done.
    + destruct w as [|c st n|c st ok|]; cbn in *; [done| | |done].
      * destruct Hw as (? & Hmw & ? & ? & ?). split_and!; [lia|rewrite Hnext; lia| |done..].
        apply Hwithin; [lia|done].
      * destruct Hw as (? & Hmw & ? & ?). split_and!; [lia|rewrite Hnext; lia| |done..].
        intros Hok. apply Hwithin; [lia|auto].
  - constructor; cbn; [done..|]. destruct w; naive_solver.
Qed.

Lemma worker_step_inv g g' : worker_step g g' → g_inv g → g_inv g'.
Proof.
  intros [g0 Hw0 Hreq|g0 c st n d Hw0 Hsd Hdd Hdi|g0 c st n Hw0|g0 c st ok Hw0] [Hr Hm Hd Hc Hw];
    rewrite Hw0 in Hw; destruct g0 as [mt ins dur marks w]; cbn in *.
  - constructor; cbn; [done..|]. split_and!; try lia; try done. intros gen k Hin _. by destruct (Hm gen k Hin).
  - destruct Hw as (? & Hmw & ? & ? & ?). constructor; cbn; [done|done| |lia|].
    + intros Hf gen k Hin Hle. pose proof (Hd Hf gen k Hin Hle). cbn in *. lia.
    + split_and!; [lia|lia| |done..]. intros _ gen k Hin Hle. pose proof (Hmw gen k Hin Hle). cbn in *. lia.
  - destruct Hw as (? & Hmw & ? & ? & ?). constructor; cbn; [done..|]. split_and!; done || lia.
  - destruct Hw as (? & Hmw & Hcov & Hst). constructor; cbn; [lia|done| |done|].
    + intros Hf. destruct ok; [|done]. by apply Hmw.
    + destruct st; [by apply Hst|]. done.
Qed.

Lemma steps_inv g g' : rtc g_step g g' → g_inv g → g_inv g'.
Proof.
  induction 1 as [|g1 g2 g3 [Hs|Hs] _ IH]; [done|..]; intros Hinv; apply IH;
    [by eapply client_step_inv|by eapply worker_step_inv].
Qed.

Lemma reachable_inv g : rtc g_step g_init g → g_inv g.
Proof. intros Hrtc. eapply steps_inv; [exact Hrtc|apply g_inv_init]. Qed.

(** ** Theorems *)

(** the barrier is a durability point.  In every reachable state of a store that
    is not shutting down, a barrier that resolves [Ok] covers every insert made before
    its generation was requested: all of them are on disk. *)
Theorem barrier_is_durable g target n :
  rtc g_step g_init g → (target, n) ∈ g_marks g → shutdown (g_maint g) = false →
  wait_blocking (g_maint g) target = Some true → n <= g_durable g.
Proof.
  intros Hrtc Hin Hsd Hw. destruct (reachable_inv g Hrtc) as [_ _ Hd _ _].
  unfold wait_blocking in Hw. rewrite Hsd in Hw. cbn in Hw. rewrite andb_true_r in Hw.
  destruct (_ <? _) eqn:E; [done|]. breflect. injection Hw as Hf. apply negb_true_iff in Hf.
  by eapply Hd.
Qed.

(** A commit from the waiting loop covers every generation requested so far. *)
Lemma commit_from_waiting g :
  g_worker g = Waiting → persist_requested (g_maint g) || shutdown (g_maint g) = true →
  ∃ g', nsteps worker_step 3 g g' ∧ persisted_gen (g_maint g') = requested_gen (g_maint g).
Proof.
  intros Hw Hreq. eexists. split.
  - eapply nsteps_l; [by apply WTake|]. eapply nsteps_l; [by eapply WPersistErr|].
    eapply nsteps_l; [by eapply WPublish|]. apply nsteps_O.
  - done.
Qed.

Lemma resolved g target : target <= persisted_gen (g_maint g) → wait_blocking (g_maint g) target ≠ None.
Proof.
  intros Hle. unfold wait_blocking. destruct (_ <? _) eqn:E; [breflect; lia|]. done.
Qed.

(** Publishing and, when that is not enough, one more commit. *)
Lemma resolve_from_synced g covered stop ok target :
  g_inv g → g_worker g = Synced covered stop ok → shutdown (g_maint g) = false →
  target <= requested_gen (g_maint g) →
  ∃ g' j, (j <= 4)%nat ∧ nsteps worker_step j g g' ∧ wait_blocking (g_maint g') target ≠ None.
Proof.
  intros [_ _ _ _ Hi] Hw Hsd Ht. rewrite Hw in Hi. destruct Hi as (_ & _ & Hcov & Hst).
  assert (stop = false) as -> by (destruct stop; [specialize (Hst eq_refl); congruence|done]).
  pose proof (WPublish g covered false ok Hw) as Hpub.
  destruct (Z.le_gt_cases target covered) as [Hle|Hgt].
  - eexists _, 1%nat. split; [lia|]. split; [by apply nsteps_once|]. by apply resolved.
  - match type of Hpub with worker_step _ ?g1 => destruct (commit_from_waiting g1) as (g' & Hg' & Hp) end.
    + done.
    + cbn. destruct (persist_requested (g_maint g)); [done|]. specialize (Hcov eq_refl). lia.
    + exists g', 4%nat. split; [lia|]. split; [by eapply nsteps_l|].
      apply resolved. rewrite Hp. exact Ht.
Qed.

(** no barrier waits forever.  From every reachable state, the worker's own steps
    alone (at most five) bring any requested barrier to an answer: no wake-up is lost
    and no generation is skipped. *)
Theorem barrier_resolves g target n :
  rtc g_step g_init g → (target, n) ∈ g_marks g →
  ∃ g' j, (j <= 5)%nat ∧ nsteps worker_step j g g' ∧ wait_blocking (g_maint g') target ≠ None.
Proof.
  intros Hrtc Hin. pose proof (reachable_inv g Hrtc) as Hinv.
  destruct (gi_marks _ Hinv _ _ Hin) as [Ht _]. pose proof (gi_worker _ Hinv) as Hw.
  destruct (wait_blocking (g_maint g) target) as [b|] eqn:Hnow.
  { exists g, 0%nat. split; [lia|]. split; [apply nsteps_O|]. by rewrite Hnow. }
  unfold wait_blocking in Hnow. destruct (_ && _) eqn:E; [|done]. breflect.
  destruct (g_worker g) as [|covered stop start|covered stop ok|] eqn:Hph; [| | |congruence].
  - destruct (commit_from_waiting g Hph) as (g' & Hg' & Hp).
    { destruct (persist_requested (g_maint g)); [done|]. specialize (Hw eq_refl). lia. }
    exists g', 3%nat. split; [lia|]. split; [done|]. apply resolved. lia.
  - pose proof (WPersistErr g covered stop start Hph) as Herr.
    pose proof (worker_step_inv _ _ Herr Hinv) as Hinv'.
    destruct (resolve_from_synced _ covered stop false target Hinv') as (g' & j & Hj & Hg' & Hr); [done..|].
    exists g', (S j). split; [lia|]. split; [by eapply nsteps_l|done].
  - destruct (resolve_from_synced g covered stop ok target Hinv) as (g' & j & Hj & Hg' & Hr); [done..|].
    exists g', j. split; [lia|]. done.
Qed.

(** shutting down breaks the promise.  [Drop for Store] sets the flag before the
    final commit has run, and a waiting barrier then resolves [Ok] although the insert
    it covers is not on disk yet. *)
Theorem barrier_shutdown_race :
  ∃ g target n, rtc g_step g_init g ∧ (target, n) ∈ g_marks g ∧
    wait_blocking (g_maint g) target = Some true ∧ g_durable g < n.
Proof.
  pose (g1 := mkG (g_maint g_init) 1 0 [] Waiting).
  pose (g2 := mkG (request (g_maint g1)) 1 0 [(1, 1)] Waiting).
  pose (g3 := mkG (mkMaint true true 1 0 false) 1 0 [(1, 1)] Waiting).
  exists g3, 1, 1. split_and!; [|by left|done|done].
  apply (rtc_l _ _ g1); [left; apply (CInsert g_init)|].
  apply (rtc_l _ _ g2); [left; apply (CRequest g1); done|].
  apply rtc_once. left. apply (CShutdown g2).
Qed.

(** ** Witnesses *)

(** One insert, its request, and a full commit. *)
Definition g_inserted1 : gstate := mkG (g_maint g_init) 1 0 [] Waiting.
Definition g_requested : gstate := mkG (request (g_maint g_init)) 1 0 [(1, 1)] Waiting.
Definition g_syncing : gstate := mkG (mkMaint false false 1 0 false) 1 0 [(1, 1)] (Syncing 1 false 1).
Definition g_synced : gstate := mkG (mkMaint false false 1 0 false) 1 1 [(1, 1)] (Synced 1 false true).
Definition g_committed : gstate := mkG (mkMaint false false 1 1 false) 1 1 [(1, 1)] Waiting.

Lemma g_requested_reachable : rtc g_step g_init g_requested.
Proof.
  apply (rtc_l _ _ g_inserted1); [left; apply (CInsert g_init)|].
  apply rtc_once. left. apply (CRequest g_inserted1). done.
Qed.

Lemma barrier_is_durable_witness : 1 <= g_durable g_committed.
Proof.
  apply (barrier_is_durable g_committed 1 1).
  - etrans; [apply g_requested_reachable|].
    apply (rtc_l _ _ g_syncing); [right; by apply (WTake g_requested)|].
    apply (rtc_l _ _ g_synced); [right; by apply (WPersistOk g_syncing 1 false 1 1)|].
    apply rtc_once. right. by apply (WPublish g_synced 1 false true).
  - by left.
  - reflexivity.
  - reflexivity.
Defined.

Lemma barrier_resolves_witness :
  ∃ g' j, (j <= 5)%nat ∧ nsteps worker_step j g_requested g' ∧ wait_blocking (g_maint g') 1 ≠ None.
Proof. apply (barrier_resolves g_requested 1 1); [apply g_requested_reachable|by left]. Defined.
