(* ===== verification/Lookup.v ===== *)
(** * The iterative lookup: [relay/src/dht/lookup.rs]

    Which peer addresses the relay agrees to dial, and the walk that looks for the
    peers nearest an id.  The network is an argument ([Net]): whether the deadline
    has passed when a round starts, and, for a round's batch, the results that
    arrived before the round ended, in arrival order ([None] when the deadline
    passed inside the round).  Replies are arbitrary, so every theorem holds
    against peers that lie. *)

From stdpp Require Import list sorting gmap.
From S2P Require Import Prelude.
From S2P Require Import Bytes.
From S2P Require Import Crypto.
From S2P Require Import Proto.
From S2P Require Import Routing.
From S2P Require Import RoutingInv.
From S2P Require Import Homes.
Open Scope Z_scope.

Definition ALPHA : nat := 3.
Definition LOOKUP_MAX_HOPS : nat := 8.
Definition MAX_LOOKUP_CANDIDATES : nat := 64.

Inductive LookupError := Timeout | MaxHopsExceeded | NoCandidates.

(** ** Addresses *)

(** [Ipv4Addr]'s predicates *)
Definition v4_is_unspecified (a b c d : Z) : bool := (a =? 0) && (b =? 0) && (c =? 0) && (d =? 0).
Definition v4_is_multicast (a : Z) : bool := (224 <=? a) && (a <=? 239).
Definition v4_is_broadcast (a b c d : Z) : bool :=
  (a =? 255) && (b =? 255) && (c =? 255) && (d =? 255).
Definition v4_is_link_local (a b : Z) : bool := (a =? 169) && (b =? 254).
Definition v4_is_documentation (a b c : Z) : bool :=
  ((a =? 192) && (b =? 0) && (c =? 2)) || ((a =? 198) && (b =? 51) && (c =? 100))
  || ((a =? 203) && (b =? 0) && (c =? 113)).
Definition v4_is_loopback (a : Z) : bool := a =? 127.
Definition v4_is_private (a b : Z) : bool :=
  (a =? 10) || ((a =? 172) && (16 <=? b) && (b <=? 31)) || ((a =? 192) && (b =? 168)).

(** [Ipv6Addr]'s predicates *)
Definition v6_is_unspecified (s : list Z) : bool := bool_decide (s = replicate 8 0).
Definition v6_is_loopback (s : list Z) : bool := bool_decide (s = replicate 7 0 ++ [1]).
Definition v6_is_multicast (s : list Z) : bool := Z.land (nth 0 s 0) 0xff00 =? 0xff00.

(** [is_dialable_peer_addr] *)
Definition is_dialable_peer_addr (addr : SocketAddr) (allow_local : bool) : bool :=
  if port addr =? 0 then false else
  match ip addr with
  | V4 a b c d =>
      if v4_is_unspecified a b c d || v4_is_multicast a || v4_is_broadcast a b c d
         || v4_is_link_local a b || v4_is_documentation a b c then false
      else allow_local || negb (v4_is_loopback a || v4_is_private a b)
  | V6 s =>
      if v6_is_unspecified s || v6_is_multicast s then false else
      let head := nth 0 s 0 in
      if Z.land head 0xffc0 =? 0xfe80 then false
      else allow_local || negb (v6_is_loopback s || (Z.land head 0xfe00 =? 0xfc00))
  end.

(** ** The walk *)

Record Candidate := mkCandidate { desc : NodeDescriptor; cd_distance : bytes }.

Definition distance (target peer : bytes) : bytes := xor32 target peer.

Definition candidate (target : bytes) (d : NodeDescriptor) : Candidate :=
  mkCandidate d (distance target (nd_id d)).

Definition cand_id (c : Candidate) : bytes := nd_id (desc c).

(** [candidates.sort_by_key(|a| a.distance)], a stable sort. *)
Definition cand_le (a b : Candidate) : Prop := bytes_le (cd_distance a) (cd_distance b).

#[global] Instance cand_le_dec : RelDecision cand_le.
Proof. intros a b. unfold cand_le. apply _. Defined.
#[global] Instance cand_le_total : Total cand_le.
Proof. intros a b. unfold cand_le. apply total, _. Qed.
#[global] Instance cand_le_trans : Transitive cand_le.
Proof. intros a b c. unfold cand_le. apply transitivity. Qed.

Definition sort_candidates (l : list Candidate) : list Candidate := merge_sort cand_le l.

(** [integrate_descriptors]: [known] is read before the loop. *)
Definition integrate_descriptors (target : bytes) (candidates : list Candidate)
    (new : list NodeDescriptor) (allow_local : bool) : list Candidate :=
  let known := map cand_id candidates in
  candidates ++
  map (candidate target)
    (filter (λ d, (nd_id d ∉ known) ∧ is_dialable_peer_addr (nd_addr d) allow_local = true)
       (take MAX_FIND_NODE_RESULTS new)).

Inductive RpcResult := FindNodeReply (closer : list NodeDescriptor) | Failed.

Record Net := mkNet {
  late : nat → bool;
  replies : nat → list NodeDescriptor → option (list RpcResult)
}.

Record Walk := mkWalk {
  candidates : list Candidate;
  queried : list bytes;
  closest_so_far : list Candidate;
  hops : nat
}.

(** The first [ALPHA] candidates not asked yet. *)
Definition next_batch (w : Walk) : list NodeDescriptor :=
  take ALPHA (map desc (filter (λ c, cand_id c ∉ queried w) (candidates w))).

Definition integrate_reply (target : bytes) (allow_local : bool) (cs : list Candidate)
    (r : RpcResult) : list Candidate :=
  match r with
  | FindNodeReply closer => integrate_descriptors target cs closer allow_local
  | Failed => cs
  end.

Definition integrate_replies (target : bytes) (allow_local : bool) (cs : list Candidate)
    (rs : list RpcResult) : list Candidate :=
  foldl (integrate_reply target allow_local) cs rs.

(** A candidate that was not asked and is nearer than the farthest of the result. *)
Definition closer_unqueried (w : Walk) (c : Candidate) : bool :=
  bool_decide (cand_id c ∉ queried w) &&
  match last (closest_so_far w) with
  | Some f => bool_decide (bytes_lt (cd_distance c) (cd_distance f))
  | None => true
  end.

(** The state after a round whose results are [rs]. *)
Definition end_round (target : bytes) (allow_local : bool) (w : Walk) (rs : list RpcResult) : Walk :=
  let cs := take MAX_LOOKUP_CANDIDATES
              (sort_candidates (integrate_replies target allow_local (candidates w) rs)) in
  mkWalk cs (map nd_id (next_batch w) ++ queried w) (take K cs) (S (hops w)).

(** What a pass of the outer loop ends with. *)
Inductive pass :=
| Return (r : result unit LookupError) (w : Walk)
| Again (w : Walk).

(** One pass of [run_iterative_loop]: the peers it asked, and how it ended. *)
Definition one_pass (net : Net) (target : bytes) (allow_local : bool) (w : Walk)
    : list NodeDescriptor * pass :=
  if late net (hops w) then ([], Return (Err Timeout) w) else
  if (LOOKUP_MAX_HOPS <=? hops w)%nat then ([], Return (Err MaxHopsExceeded) w) else
  let batch := next_batch w in
  match batch with
  | [] => ([], Return (Ok tt) w)
  | _ =>
      match replies net (hops w) batch with
      | None =>
          let asked := map nd_id batch ++ queried w in
          (batch, Return (Err Timeout) (mkWalk (candidates w) asked (closest_so_far w) (hops w)))
      | Some rs =>
          let w' := end_round target allow_local w rs in
          (batch, if existsb (closer_unqueried w') (candidates w') then Again w'
                  else Return (Ok tt) w')
      end
  end.

(** [run_iterative_loop], with the batches it asked, first to last. *)
Fixpoint run_iterative_loop (fuel : nat) (net : Net) (target : bytes) (allow_local : bool)
    (w : Walk) : option (result unit LookupError * Walk * list (list NodeDescriptor)) :=
  match fuel with
  | O => None
  | S fuel =>
      match one_pass net target allow_local w with
      | (batch, Return r w') => Some (r, w', [batch])
      | (batch, Again w') =>
          match run_iterative_loop fuel net target allow_local w' with
          | Some (r, w'', batches) => Some (r, w'', batch :: batches)
          | None => None
          end
      end
  end.

Definition start_walk (node_id target : bytes) (initial : list NodeDescriptor) : Walk :=
  mkWalk (sort_candidates (map (candidate target) initial)) [node_id] [] 0.

(** [lookup_node].  The loop tests [hops] before each pass, so [LOOKUP_MAX_HOPS + 1]
    passes always suffice. *)
Definition lookup_node (net : Net) (t : RoutingTable) (node_id target : bytes) (allow_local : bool)
    : option (result (list NodeDescriptor) LookupError * list (list NodeDescriptor)) :=
  let initial := find_closest t target (K * 2) in
  match initial with
  | [] => Some (Err NoCandidates, [])
  | _ =>
      match run_iterative_loop (S LOOKUP_MAX_HOPS) net target allow_local
              (start_walk node_id target initial) with
      | Some (Ok _, w, batches) => Some (Ok (map desc (take K (closest_so_far w))), batches)
      | Some (Err e, _, batches) => Some (Err e, batches)
      | None => None
      end
  end.

(** [record_liveness]: what a finished request does to the routing table. *)
Definition record_liveness (t : RoutingTable) (peer : bytes) (alive : bool) (now : Z) : RoutingTable :=
  if alive then (ping_succeeded t peer now).1 else ping_failed t peer now.

(** ** Walks *)

Section walks.
Context (net : Net) (target : bytes) (allow_local : bool).

Local Abbreviation run := (λ fuel w, run_iterative_loop fuel net target allow_local w).

(** Some candidate has not been asked. *)
Definition pending (w : Walk) : Prop := ∃ c, c ∈ candidates w ∧ cand_id c ∉ queried w.

Lemma pending_batch w : pending w ↔ next_batch w ≠ [].
Proof.
  unfold next_batch. split.
  - intros (c & Hc & Hq). assert (c ∈ filter (λ c, cand_id c ∉ queried w) (candidates w)) as Hin.
    { by apply list_elem_of_filter. }
    by destruct (filter _ _); [apply not_elem_of_nil in Hin|].
  - destruct (filter _ _) as [|c l] eqn:Hf; [done|]. intros _. exists c.
    assert (c ∈ c :: l) as Hin by left. rewrite <- Hf in Hin.
    apply list_elem_of_filter in Hin. tauto.
Qed.

Lemma next_batch_length w : (length (next_batch w) <= ALPHA)%nat.
Proof. unfold next_batch. rewrite length_take. lia. Qed.

Lemma next_batch_unqueried w d : d ∈ next_batch w → nd_id d ∉ queried w.
Proof.
  unfold next_batch. intros Hd%elem_of_take. destruct Hd as (i & Hi & _).
  apply list_elem_of_lookup_2, list_elem_of_fmap in Hi as (c & -> & Hc).
  apply list_elem_of_filter in Hc. unfold cand_id in Hc. tauto.
Qed.

(** The ways a pass ends. *)
Lemma one_pass_cases w b p :
  one_pass net target allow_local w = (b, p) →
  (b = [] ∧ ∃ r, p = Return r w ∧ (r = Ok tt → ¬ pending w)) ∨
  (b = next_batch w ∧ pending w ∧ (hops w < LOOKUP_MAX_HOPS)%nat ∧
   ((∃ e w', p = Return (Err e) w') ∨
    ∃ rs, replies net (hops w) b = Some rs ∧
      let w' := end_round target allow_local w rs in
      if existsb (closer_unqueried w') (candidates w') then p = Again w' else p = Return (Ok tt) w')).
Proof.
  unfold one_pass. destruct (late net (hops w)).
  { intros [= <- <-]. left. split; [done|]. by eexists. }
  destruct (LOOKUP_MAX_HOPS <=? hops w)%nat eqn:Hh; breflect.
  { intros [= <- <-]. left. split; [done|]. by eexists. }
  destruct (next_batch w) as [|d l] eqn:Hb.
  { intros [= <- <-]. left. split; [done|]. eexists. split; [done|]. intros _ Hp%pending_batch. done. }
  assert (pending w) by (apply pending_batch; by rewrite Hb).
  destruct (replies net (hops w) (d :: l)) as [rs|] eqn:Hr; intros [= <- <-]; right;
    (split_and!; [done..|]); [right|left; eauto].
  exists rs. split; [done|]. cbn zeta. by destruct (existsb _ _).
Qed.

Lemma closer_unqueried_pending w :
  existsb (closer_unqueried w) (candidates w) = true → pending w.
Proof.
  intros (c & Hc & Hcu)%existsb_exists. unfold closer_unqueried in Hcu. breflect.
  exists c. split; [by apply list_elem_of_In|done].
Qed.

(** A descriptor some reply of the walk offered, the [i]-th batch being asked in round
    [h + i]: within the reply's cap, at an address the relay dials. *)
Definition in_reply (rs : list RpcResult) (d : NodeDescriptor) : Prop :=
  ∃ closer, FindNodeReply closer ∈ rs ∧ d ∈ take MAX_FIND_NODE_RESULTS closer ∧
            is_dialable_peer_addr (nd_addr d) allow_local = true.

Definition offered (h : nat) (bs : list (list NodeDescriptor)) (d : NodeDescriptor) : Prop :=
  ∃ i b rs, bs !! i = Some b ∧ b ≠ [] ∧ replies net (h + i) b = Some rs ∧ in_reply rs d.

Lemma offered_cons h b bs d :
  offered h (b :: bs) d ↔
  (b ≠ [] ∧ ∃ rs, replies net h b = Some rs ∧ in_reply rs d) ∨ offered (S h) bs d.
Proof.
  unfold offered. split.
  - intros ([|i] & b' & rs & Hi & ? & Hr & ?); cbn in Hi; simplify_eq.
    + left. rewrite Nat.add_0_r in Hr. eauto.
    + right. exists i, b', rs. by replace (S h + i)%nat with (h + S i)%nat by lia.
  - intros [(? & rs & ? & ?)|(i & b' & rs & ? & ? & Hr & ?)].
    + exists 0%nat, b, rs. by rewrite Nat.add_0_r.
    + exists (S i), b', rs. by replace (h + S i)%nat with (S h + i)%nat by lia.
Qed.

Lemma offered_nil h d : ¬ offered h [] d.
Proof. intros (i & b & rs & Hi & _). by rewrite lookup_nil in Hi. Qed.

Lemma integrate_elem cs new c :
  c ∈ integrate_descriptors target cs new allow_local →
  c ∈ cs ∨ ∃ d, d ∈ take MAX_FIND_NODE_RESULTS new ∧
                is_dialable_peer_addr (nd_addr d) allow_local = true ∧ c = candidate target d.
Proof.
  unfold integrate_descriptors. rewrite elem_of_app. intros [?|Hc]; [by left|right].
  apply list_elem_of_fmap in Hc as (d & -> & Hd). apply list_elem_of_filter in Hd as [[_ ?] ?]. eauto.
Qed.

Lemma integrate_replies_elem cs rs c :
  c ∈ integrate_replies target allow_local cs rs →
  c ∈ cs ∨ ∃ d, in_reply rs d ∧ c = candidate target d.
Proof.
  revert cs. induction rs as [|r rs IH]; intros cs; cbn; [by left|].
  intros [Hc|(d & (closer & Hcl & Hd) & ->)]%IH.
  - destruct r as [closer|]; cbn in Hc; [|by left].
    apply integrate_elem in Hc as [?|(d & ? & ? & ->)]; [by left|right].
    exists d. split; [|done]. exists closer. split; [left|done].
  - right. exists d. split; [|done]. exists closer. split; [by right|done].
Qed.

Lemma integrate_replies_mono cs rs :
  ∃ new, integrate_replies target allow_local cs rs = cs ++ new.
Proof.
  revert cs. induction rs as [|r rs IH]; intros cs.
  { exists []. by rewrite app_nil_r. }
  destruct (IH (integrate_reply target allow_local cs r)) as [new Hnew].
  unfold integrate_replies in *. cbn [foldl]. rewrite Hnew. destruct r as [closer|]; cbn.
  - unfold integrate_descriptors. rewrite <- app_assoc. eauto.
  - eauto.
Qed.

Lemma integrate_replies_covers cs rs d :
  in_reply rs d →
  ∃ c, c ∈ integrate_replies target allow_local cs rs ∧ cand_id c = nd_id d.
Proof.
  intros (closer & Hcl & Hd & Hdial). revert cs. induction rs as [|r rs IH]; intros cs.
  { by apply not_elem_of_nil in Hcl. }
  apply elem_of_cons in Hcl as [<-|Hcl].
  - change (integrate_replies target allow_local cs (FindNodeReply closer :: rs))
      with (integrate_replies target allow_local (integrate_descriptors target cs closer allow_local) rs).
    destruct (integrate_replies_mono (integrate_descriptors target cs closer allow_local) rs) as [new ->].
    setoid_rewrite elem_of_app. unfold integrate_descriptors. setoid_rewrite elem_of_app.
    destruct (decide (nd_id d ∈ map cand_id cs)) as [Hin|Hin].
    + apply list_elem_of_fmap in Hin as (c & ? & ?). exists c. auto.
    + exists (candidate target d). split; [|done]. left. right.
      apply list_elem_of_fmap_2, list_elem_of_filter. done.
  - exact (IH Hcl (integrate_reply target allow_local cs r)).
Qed.

(** The [n] nearest of a set, [D] being a distance. *)
Lemma sorted_take_or s n c :
  StronglySorted cand_le s → c ∈ s →
  c ∈ take n s ∨ (length (take n s) = n ∧ ∀ x, x ∈ take n s → cand_le x c).
Proof.
  intros Hs Hc. rewrite <- (take_drop n s) in Hs, Hc. apply elem_of_app in Hc as [?|Hc]; [by left|right].
  split.
  - rewrite length_take. enough (drop n s ≠ []) as Hd.
    { destruct (decide (n <= length s)%nat); [lia|]. by rewrite drop_ge in Hd by lia. }
    intros Hd. rewrite Hd in Hc. by apply not_elem_of_nil in Hc.
  - intros x Hx. by eapply StronglySorted_app_1_elem_of.
Qed.

Lemma sorted_take_le s n (D : bytes) cs new :
  StronglySorted cand_le s → s ≡ₚ cs ++ new → length cs = n →
  (∀ c, c ∈ cs → bytes_le (cd_distance c) D) →
  ∀ x, x ∈ take n s → bytes_le (cd_distance x) D.
Proof.
  intros Hs Hp Hn Hcs x Hx. apply dec_stable. intros HxD.
  apply elem_of_take in Hx as (i & Hi & Hlt).
  set (P := λ c, bytes_le (cd_distance c) D).
  assert (Hfew : (length (filter P s) <= i)%nat).
  { assert (length (take i s) <= i)%nat as Hlen by (rewrite length_take; lia).
    pose proof (take_drop_middle s i x Hi) as Hsplit. rewrite <- Hsplit in Hs |- *.
    revert Hlen Hs. generalize (take i s) (drop (S i) s). intros s1 s2 Hlen Hs.
    apply StronglySorted_app_1_r in Hs. inversion Hs as [|? ? Hs' Hall]; subst.
    rewrite filter_app, length_app, (filter_none P (x :: s2)).
    { cbn. pose proof (length_filter P s1). lia. }
    rewrite Forall_cons, Forall_forall in *. split; [done|].
    intros y Hy Hyd. apply HxD. etrans; [by apply Hall|done]. }
  rewrite Hp, filter_app, length_app in Hfew. rewrite (filter_all P cs) in Hfew; [lia|].
  by apply Forall_forall.
Qed.

(** [d] is among the candidates, or they are full of nearer ones. *)
Definition covered (w : Walk) (d : NodeDescriptor) : Prop :=
  (∃ c, c ∈ candidates w ∧ cand_id c = nd_id d) ∨
  (length (candidates w) = MAX_LOOKUP_CANDIDATES ∧
   ∀ c, c ∈ candidates w → bytes_le (cd_distance c) (distance target (nd_id d))).

Definition good (w : Walk) : Prop :=
  Forall (λ c, cd_distance c = distance target (cand_id c)) (candidates w).

(** What asking the batches [bs] from the state [w] did to it. *)
Record walked (w : Walk) (bs : list (list NodeDescriptor)) (w' : Walk) : Prop := {
  walked_good : good w';
  walked_sorted : StronglySorted cand_le (candidates w');
  walked_closest : closest_so_far w' = take K (candidates w');
  walked_from : ∀ c, c ∈ candidates w' →
    c ∈ candidates w ∨ ∃ d, offered (hops w) bs d ∧ c = candidate target d;
  walked_covers : ∀ d, covered w d ∨ offered (hops w) bs d → covered w' d;
  walked_asked : ∀ id, id ∈ queried w' → id ∈ queried w ∨ id ∈ map nd_id (concat bs)
}.

Lemma end_round_covered w rs d :
  good w → covered w d ∨ in_reply rs d → covered (end_round target allow_local w rs) d.
Proof.
  intros Hg Hd. unfold covered, end_round, sort_candidates. cbn.
  set (all := integrate_replies target allow_local (candidates w) rs).
  pose proof (StronglySorted_merge_sort cand_le all) as Hs.
  pose proof (merge_sort_Permutation cand_le all) as Hp.
  destruct (integrate_replies_mono (candidates w) rs) as [new Hnew].
  assert (Hall : good (mkWalk all [] [] 0)).
  { apply Forall_forall. intros c [Hc|(e & _ & ->)]%integrate_replies_elem; [|done].
    by eapply Forall_forall in Hg. }
  assert ((∃ c, c ∈ all ∧ cand_id c = nd_id d) ∨
          (length (candidates w) = MAX_LOOKUP_CANDIDATES ∧
           ∀ c, c ∈ candidates w → bytes_le (cd_distance c) (distance target (nd_id d)))) as [(c & Hc & Hid)|[Hfull Hle]].
  { destruct Hd as [[(c & Hc & Hid)|?]|Hd]; [left|by right|].
    - exists c. split; [|done]. unfold all. rewrite Hnew. apply elem_of_app. by left.
    - left. by apply integrate_replies_covers. }
  - destruct (sorted_take_or _ MAX_LOOKUP_CANDIDATES c Hs) as [Hin|[Hlen Hle]]; [by rewrite Hp|by eauto|].
    right. split; [done|]. intros x Hx. apply Hle in Hx. unfold cand_le in Hx.
    eapply Forall_forall in Hall; [|exact Hc]. cbn in Hall. by rewrite Hall, Hid in Hx.
  - right. assert (Hpn : merge_sort cand_le all ≡ₚ candidates w ++ new) by (by rewrite Hp; unfold all; rewrite Hnew).
    split; [|by eapply sorted_take_le].
    rewrite length_take, (Permutation_length Hpn), length_app. unfold MAX_LOOKUP_CANDIDATES in *. lia.
Qed.

Lemma walked_round w rs :
  good w → replies net (hops w) (next_batch w) = Some rs → pending w →
  walked w [next_batch w] (end_round target allow_local w rs).
Proof.
  intros Hg Hr Hp%pending_batch.
  assert (Hoff : ∀ d, in_reply rs d ↔ offered (hops w) [next_batch w] d).
  { intros d. rewrite offered_cons. split; [eauto|].
    intros [(_ & rs' & ? & ?)|?%offered_nil]; [by simplify_eq|done]. }
  assert (Hfrom : ∀ c, c ∈ candidates (end_round target allow_local w rs) →
    c ∈ candidates w ∨ ∃ d, offered (hops w) [next_batch w] d ∧ c = candidate target d).
  { cbn. intros c Hc. apply elem_of_take in Hc as (i & Hc%list_elem_of_lookup_2 & _).
    unfold sort_candidates in Hc. rewrite merge_sort_Permutation in Hc.
    apply integrate_replies_elem in Hc as [?|(d & ?%Hoff & ->)]; eauto. }
  split; [| | |done| |].
  - apply Forall_forall. intros c [Hc|(d & _ & ->)]%Hfrom; [|done]. by eapply Forall_forall in Hg.
  - cbn. apply StronglySorted_take. apply StronglySorted_merge_sort; apply _.
  - done.
  - intros d. rewrite <- Hoff. by apply end_round_covered.
  - intros id. cbn. rewrite elem_of_app, app_nil_r. tauto.
Qed.

Lemma walked_cons w b w1 bs w2 :
  walked w [b] w1 → hops w1 = S (hops w) → walked w1 bs w2 → walked w (b :: bs) w2.
Proof.
  intros H1 Hh H2. destruct H1 as [_ _ _ Hf1 Hc1 Ha1], H2 as [Hg Hs Hcl Hf2 Hc2 Ha2].
  assert (Hoff : ∀ d, offered (hops w) (b :: bs) d ↔ offered (hops w) [b] d ∨ offered (hops w1) bs d).
  { intros d. rewrite Hh, !offered_cons. pose proof (offered_nil (S (hops w)) d). tauto. }
  split; [done..| | |].
  - setoid_rewrite Hoff. intros c [[?|(d & ? & ->)]%Hf1|(d & ? & ->)]%Hf2; eauto.
  - intros d. rewrite Hoff. specialize (Hc1 d). specialize (Hc2 d). tauto.
  - intros id [Hq|?]%Ha2; cbn; rewrite map_app, elem_of_app; [|tauto].
    apply Ha1 in Hq. cbn in Hq. rewrite app_nil_r in Hq. tauto.
Qed.

Lemma run_ok fuel w w' bs :
  pending w → good w → run fuel w = Some (Ok tt, w', bs) →
  walked w bs w' ∧ existsb (closer_unqueried w') (candidates w') = false.
Proof.
  revert w bs. induction fuel as [|fuel IH]; intros w bs Hp Hg; cbn; [done|].
  destruct (one_pass net target allow_local w) as [b p] eqn:Hpass.
  apply one_pass_cases in Hpass as [(-> & r & -> & Hr)|(-> & _ & _ & [(e & w1 & ->)|(rs & Hrs & Hend)])].
  - intros [= -> <- <-]. by destruct (Hr eq_refl).
  - done.
  - pose proof (walked_round w rs Hg Hrs Hp) as Hw. cbn zeta in Hend.
    destruct (existsb (closer_unqueried (end_round target allow_local w rs)) _) eqn:Hex; subst p.
    + destruct (run_iterative_loop fuel _ _ _ _) as [[[r w2] bs2]|] eqn:Hrun; [|done].
      intros [= -> -> <-]. apply IH in Hrun as [Hw2 ?]; [|by eapply closer_unqueried_pending|apply Hw].
      split; [|done]. by eapply walked_cons.
    + intros [= <- <-]. done.
Qed.

Lemma run_total fuel w :
  (hops w <= LOOKUP_MAX_HOPS < fuel + hops w)%nat →
  ∃ r w' bs, run fuel w = Some (r, w', bs) ∧
    (length (concat bs) <= ALPHA * (LOOKUP_MAX_HOPS - hops w))%nat.
Proof.
  revert w. induction fuel as [|fuel IH]; intros w Hf.
  { lia. }
  cbn. destruct (one_pass net target allow_local w) as [b p] eqn:Hpass.
  pose proof (next_batch_length w) as Hlen.
  apply one_pass_cases in Hpass as [(-> & r & -> & Hr)|(-> & Hp & Hh & Hend)].
  - do 3 eexists. split; [done|]. cbn. lia.
  - destruct p as [r w'|w'].
    + do 3 eexists. split; [done|]. cbn [concat]. rewrite app_nil_r. unfold ALPHA, LOOKUP_MAX_HOPS in *. lia.
    + assert (hops w' = S (hops w)) as Hs.
      { destruct Hend as [(? & ? & ?)|(rs & _ & Hend)]; [done|]. cbn zeta in Hend.
        destruct (existsb _ _); by simplify_eq. }
      destruct (IH w') as (r & w2 & bs & -> & Hb); [lia|].
      do 3 eexists. split; [done|]. cbn [concat]. rewrite length_app. unfold ALPHA, LOOKUP_MAX_HOPS in *. lia.
Qed.

(** No id is in two of the batches. *)
Definition batches_disjoint (bs : list (list NodeDescriptor)) : Prop :=
  ∀ i j bi bj d e, (i < j)%nat → bs !! i = Some bi → bs !! j = Some bj →
    d ∈ bi → e ∈ bj → nd_id d ≠ nd_id e.

Lemma run_asks fuel w r w' bs :
  run fuel w = Some (r, w', bs) →
  (∀ d, d ∈ concat bs → nd_id d ∉ queried w) ∧ batches_disjoint bs.
Proof.
  revert w bs. induction fuel as [|fuel IH]; intros w bs; cbn; [done|].
  destruct (one_pass net target allow_local w) as [b p] eqn:Hpass.
  assert (Hb : ∀ d, d ∈ b → nd_id d ∉ queried w).
  { apply one_pass_cases in Hpass as [(-> & _)|(-> & _)]; [by intros d ?%not_elem_of_nil|].
    apply next_batch_unqueried. }
  destruct p as [r0 w0|w0].
  { intros [= -> -> <-]. cbn. rewrite app_nil_r. split; [done|].
    intros [|i] [|j]; cbn; intros; try lia; by rewrite ?lookup_nil in *. }
  destruct (run_iterative_loop fuel _ _ _ _) as [[[r2 w2] bs2]|] eqn:Hrun; [|done].
  intros [= -> -> <-]. apply IH in Hrun as [Hd Hpair].
  assert (Hq : queried w0 = map nd_id b ++ queried w).
  { apply one_pass_cases in Hpass as [(-> & ? & [=] & _)|(-> & _ & _ & [(? & ? & [=])|(rs & _ & Hend)])].
    cbn zeta in Hend. destruct (existsb _ _); by simplify_eq. }
  rewrite Hq in Hd. setoid_rewrite elem_of_app in Hd. split.
  - intros d. cbn. rewrite elem_of_app. intros [?|?]; [by apply Hb|]. specialize (Hd d). tauto.
  - intros [|i] [|j] bi bj d e Hij; cbn; intros Hi Hj; [lia| |lia|]; [|eapply Hpair; [|done..]; lia].
    intros Hdi Hej Heq. simplify_eq. apply (Hd e).
    + apply list_elem_of_In, in_concat. exists bj.
      split; apply list_elem_of_In; [by eapply list_elem_of_lookup_2|done].
    + left. rewrite <- Heq. by apply list_elem_of_fmap_2.
Qed.
End walks.

(** ** Lookups *)

Lemma find_closest_others t target n d :
  wf_table t → wf_arr 32 target → d ∈ find_closest t target n → nd_id d ≠ self_id t.
Proof.
  intros Hwf Ht Hd. unfold find_closest in Hd. apply list_elem_of_fmap in Hd as (e & -> & He).
  destruct (closest_sorted t target n Hwf Ht) as (s & Hp & _ & Hc). rewrite Hc in He.
  apply elem_of_take in He as (i & He%list_elem_of_lookup_2 & _). rewrite Hp in He.
  by apply all_entries_wf in He as [_ ?].
Qed.

Lemma start_walk_elem node_id target initial c :
  c ∈ candidates (start_walk node_id target initial) ↔
  ∃ d, d ∈ initial ∧ c = candidate target d.
Proof.
  cbn. unfold sort_candidates. rewrite merge_sort_Permutation, list_elem_of_fmap. naive_solver.
Qed.

(** The answer, from the last state of a walk that converged. *)
Section result.
Context (target : bytes) (w : Walk).
Context (Hgood : good target w) (Hsorted : StronglySorted cand_le (candidates w)).

Local Abbreviation ds := (map desc (take K (candidates w))).
Local Abbreviation dist := (λ d, distance target (nd_id d)).

Lemma result_elem d :
  d ∈ ds ↔ ∃ c, c ∈ take K (candidates w) ∧ d = desc c ∧ cd_distance c = dist d.
Proof.
  rewrite list_elem_of_fmap. split; [|naive_solver]. intros (c & -> & Hc). exists c.
  split_and!; [done..|]. unfold good in Hgood. rewrite Forall_forall in Hgood. apply Hgood.
  by apply elem_of_take in Hc as (i & ?%list_elem_of_lookup_2 & _).
Qed.

Lemma result_sorted : StronglySorted (λ a b, bytes_le (dist a) (dist b)) ds.
Proof.
  pose proof (StronglySorted_take _ K _ Hsorted) as Hs. pose proof (Forall_take _ K _ Hgood) as Hg.
  induction Hs as [|c l _ IH Hc]; [constructor|]. apply Forall_cons in Hg as [Hcd Hg].
  cbn. constructor; [by apply IH|]. apply Forall_fmap, Forall_forall. intros x Hx.
  rewrite Forall_forall in Hc, Hg. specialize (Hc x Hx). unfold cand_le in Hc. cbn.
  by rewrite Hcd, (Hg x Hx) in Hc.
Qed.

(** The farthest of the answer. *)
Lemma result_farthest f d :
  last (take K (candidates w)) = Some f → d ∈ ds → bytes_le (dist d) (cd_distance f).
Proof.
  intros Hf (c & Hc & -> & <-)%result_elem. apply last_Some in Hf as [l Hl].
  pose proof (StronglySorted_take _ K _ Hsorted) as Hs. rewrite Hl in Hs, Hc.
  apply elem_of_app in Hc as [Hc| ->%list_elem_of_singleton]; [|done].
  exact (StronglySorted_app_1_elem_of _ _ _ _ _ Hs Hc (list_elem_of_here _ _)).
Qed.

Lemma result_converged d :
  closest_so_far w = take K (candidates w) →
  existsb (closer_unqueried w) (candidates w) = false →
  d ∈ ds → nd_id d ∈ queried w ∨ ∀ e, e ∈ ds → bytes_le (dist e) (dist d).
Proof.
  intros Hcl Hex Hd. pose proof Hd as (c & Hc & -> & Hcd)%result_elem.
  destruct (decide (nd_id (desc c) ∈ queried w)) as [|Hq]; [by left|right]. intros e He.
  assert (closer_unqueried w c = false) as Hcu.
  { apply not_true_is_false. intros Ht. apply not_true_iff_false in Hex. apply Hex, existsb_exists.
    exists c. split; [|done]. apply list_elem_of_In.
    by apply elem_of_take in Hc as (i & ?%list_elem_of_lookup_2 & _). }
  unfold closer_unqueried in Hcu. rewrite (bool_decide_eq_true_2 (cand_id c ∉ queried w)), Hcl in Hcu by done.
  cbn [andb] in Hcu. destruct (last (take K _)) as [f|] eqn:Hf; [|done].
  breflect. apply (result_farthest f) in He; [|done]. etrans; [exact He|].
  rewrite <- Hcd. rewrite bytes_lt_not_le in Hcu. by apply dec_stable.
Qed.

Lemma result_covers d :
  covered target w d → (∃ e, e ∈ ds ∧ nd_id e = nd_id d) ∨ ∀ e, e ∈ ds → bytes_le (dist e) (dist d).
Proof.
  intros [(c & Hc & Hid)|[_ Hle]].
  - destruct (sorted_take_or _ K c Hsorted Hc) as [Hin|[_ Hle]].
    + left. exists (desc c). split; [by apply list_elem_of_fmap_2|done].
    + right. intros e (x & Hx & -> & <-)%result_elem. apply Hle in Hx. unfold cand_le in Hx.
      unfold good in Hgood. rewrite Forall_forall in Hgood. by rewrite (Hgood c Hc), Hid in Hx.
  - right. intros e (x & Hx & -> & <-)%result_elem. apply Hle.
    by apply elem_of_take in Hx as (i & ?%list_elem_of_lookup_2 & _).
Qed.
End result.

(** A lookup always returns, whatever the peers answer: it asks at most
    [ALPHA * LOOKUP_MAX_HOPS] peers over at most [LOOKUP_MAX_HOPS] rounds, never this
    relay itself, and no id in two different rounds. *)
Theorem lookup_bounded net t node_id target allow_local :
  ∃ r batches,
    lookup_node net t node_id target allow_local = Some (r, batches) ∧
    (length (concat batches) <= ALPHA * LOOKUP_MAX_HOPS)%nat ∧
    (node_id ∉ map nd_id (concat batches)) ∧
    batches_disjoint batches.
Proof.
  unfold lookup_node. destruct (find_closest t target (K * 2)) as [|d0 ds].
  { do 2 eexists. split_and!; [done|cbn; lia|apply not_elem_of_nil|].
    intros i j bi bj d e _ Hi. by rewrite lookup_nil in Hi. }
  set (w := start_walk node_id target (d0 :: ds)).
  destruct (run_total net target allow_local (S LOOKUP_MAX_HOPS) w) as (r & w' & bs & Hrun & Hlen).
  { cbn. unfold LOOKUP_MAX_HOPS. lia. }
  pose proof (run_asks _ _ _ _ _ _ _ _ Hrun) as [Hself Hdis].
  rewrite Hrun. assert (Hq : node_id ∉ map nd_id (concat bs)).
  { intros (d & -> & Hd)%list_elem_of_fmap. apply (Hself d Hd). left. }
  destruct r as [u|e]; do 2 eexists; (split_and!; [done|exact Hlen|done|done]).
Qed.

(** What a successful lookup returns: at most [K] peers, in order of their
    distance to the target, each from this relay's own table or offered by an asked
    peer at an address the relay dials.  The walk has converged: every returned peer
    was asked, unless none of the others is farther.  And it missed nobody it heard
    of: a peer of the starting set or of any reply is in the result, or no returned
    peer is farther than it. *)
Theorem lookup_result net t target allow_local ds batches :
  wf_table t → wf_arr 32 target →
  lookup_node net t (self_id t) target allow_local = Some (Ok ds, batches) →
  let initial := find_closest t target (K * 2) in
  let dist d := distance target (nd_id d) in
  (length ds <= K)%nat ∧
  StronglySorted (λ a b, bytes_le (dist a) (dist b)) ds ∧
  (∀ d, d ∈ ds → d ∈ initial ∨ offered net allow_local 0 batches d) ∧
  (∀ d, d ∈ ds → nd_id d ∈ self_id t :: map nd_id (concat batches) ∨
                 ∀ e, e ∈ ds → bytes_le (dist e) (dist d)) ∧
  (∀ d, d ∈ initial ∨ offered net allow_local 0 batches d →
        (∃ e, e ∈ ds ∧ nd_id e = nd_id d) ∨ ∀ e, e ∈ ds → bytes_le (dist e) (dist d)).
Proof.
  intros Hwf Ht. unfold lookup_node. cbn zeta. set (initial := find_closest t target (K * 2)).
  assert (Hothers : ∀ d, d ∈ initial → nd_id d ≠ self_id t) by (by intros; eapply find_closest_others).
  destruct initial as [|d0 l] eqn:Hi; [done|]. rewrite <- Hi in *.
  set (w0 := start_walk (self_id t) target initial).
  assert (Hg : good target w0).
  { apply Forall_forall. by intros c (d & _ & ->)%start_walk_elem. }
  assert (Hp : pending w0).
  { exists (candidate target d0). split; [apply start_walk_elem; exists d0; rewrite Hi; split; [left|done]|].
    cbn. rewrite list_elem_of_singleton. apply Hothers. rewrite Hi. left. }
  destruct (run_iterative_loop _ _ _ _ w0) as [[[[[]|e] w] bs]|] eqn:Hrun; [|done..].
  destruct (run_ok _ _ _ _ _ _ _ Hp Hg Hrun) as [[Hgood Hs Hcl Hfrom Hcov Hask] Hex].
  rewrite Hcl, take_take, Nat.min_id. intros [= <- <-].
  assert (Hin0 : ∀ d, d ∈ initial → covered target w0 d).
  { intros d Hd. left. exists (candidate target d). split; [apply start_walk_elem; eauto|done]. }
  split_and!.
  - rewrite length_map, length_take. lia.
  - by apply result_sorted.
  - intros d (c & Hc & -> & _)%(result_elem target w Hgood).
    apply elem_of_take in Hc as (i & Hc%list_elem_of_lookup_2 & _).
    apply Hfrom in Hc as [(d & ? & ->)%start_walk_elem|(d & ? & ->)]; [by left|by right].
  - intros d Hd. destruct (result_converged target w Hgood Hs d Hcl Hex Hd) as [Hq|?]; [left|by right].
    apply Hask in Hq as [Hq|?]; [|by right]. cbn in Hq. apply list_elem_of_singleton in Hq as ->. left.
  - intros d Hd. apply (result_covers target w Hgood Hs), Hcov. destruct Hd; eauto.
Qed.

Import Toy RoutingInv.Example.

(** A network of four relays around [me].  The peer [far 4] answers with three copies
    of one descriptor; the others answer with what they know. *)
Module Walks.
Definition public (n : Z) : NodeDescriptor := mkNode (far n) (mkAddr (V4 1 1 1 n) 4433) (far n).
Definition table4 : RoutingTable :=
  run_ops (RoutingTable_empty me 0) (map (λ n, OpInsert (public n) 1) [1; 2; 3; 4]).
Definition honest : Net := mkNet (λ _, false)
  (λ _ batch, Some (map (λ _, FindNodeReply [public 5; public 6; public 1]) batch)).
Definition liar : Net := mkNet (λ _, false)
  (λ _ batch, Some (map (λ d, if decide (nd_id d = far 4)
                              then FindNodeReply [public 7; public 7; public 7] else Failed) batch)).

Lemma table4_wf : wf_table table4.
Proof. apply run_ops_wf; [apply empty_wf; by_eval|by_eval]. Qed.
End Walks.

Import Walks.

Lemma lookup_result_witness :
  let ds := [public 5; public 4; public 6] in
  let batches := [[public 4; public 1; public 3]; [public 5; public 6; public 2]] in
  let dist d := distance (far 5) (nd_id d) in
  lookup_node honest table4 me (far 5) false = Some (Ok ds, batches) ∧
  (length ds <= K)%nat ∧
  StronglySorted (λ a b, bytes_le (dist a) (dist b)) ds ∧
  (∀ d, d ∈ ds → d ∈ find_closest table4 (far 5) (K * 2) ∨ offered honest false 0 batches d) ∧
  (∀ d, d ∈ ds → nd_id d ∈ me :: map nd_id (concat batches) ∨
                 ∀ e, e ∈ ds → bytes_le (dist e) (dist d)) ∧
  (∀ d, d ∈ find_closest table4 (far 5) (K * 2) ∨ offered honest false 0 batches d →
        (∃ e, e ∈ ds ∧ nd_id e = nd_id d) ∨ ∀ e, e ∈ ds → bytes_le (dist e) (dist d)).
Proof.
  cbn zeta. split; [vm_compute; reflexivity|]. 
  apply (lookup_result honest table4 (far 5) false); [exact table4_wf|by_eval|vm_compute; reflexivity].
Defined.

(** [integrate_descriptors] compares a reply only with the candidates known before
    it, not with itself.  One reply that repeats a descriptor therefore fills the whole
    answer: here the relay knows four live peers, and the lookup returns one peer [K]
    times, without having asked it. *)
Theorem lookup_one_peer_fills_answer :
  wf_table table4 ∧
  lookup_node liar table4 (self_id table4) (far 7) false
  = Some (Ok [public 7; public 7; public 7],
          [[public 4; public 3; public 2]]).
Proof. split; [exact table4_wf|vm_compute; reflexivity]. Qed.

(** ** The address policy *)

(** An address as a number, and a CIDR block [base/len] of [w]-bit addresses. *)
Definition v4_num (a b c d : Z) : Z := a * 2 ^ 24 + b * 2 ^ 16 + c * 2 ^ 8 + d.

Definition v6_num (s : list Z) : Z := foldl (λ acc x, acc * 2 ^ 16 + x) 0 s.

Definition in_block (w : Z) (block : Z * Z) (n : Z) : Prop :=
  n / 2 ^ (w - block.2) = block.1 / 2 ^ (w - block.2).

(** The blocks never dialed, and the local ones. *)
Definition v4_special : list (Z * Z) :=
  [(v4_num 0 0 0 0, 32); (v4_num 224 0 0 0, 4); (v4_num 255 255 255 255, 32);
   (v4_num 169 254 0 0, 16); (v4_num 192 0 2 0, 24); (v4_num 198 51 100 0, 24);
   (v4_num 203 0 113 0, 24)].
Definition v4_local : list (Z * Z) :=
  [(v4_num 127 0 0 0, 8); (v4_num 10 0 0 0, 8); (v4_num 172 16 0 0, 12); (v4_num 192 168 0 0, 16)].
Definition v6_special : list (Z * Z) :=
  [(0, 128); (v6_num [0xff00; 0; 0; 0; 0; 0; 0; 0], 8); (v6_num [0xfe80; 0; 0; 0; 0; 0; 0; 0], 10)].
Definition v6_local : list (Z * Z) :=
  [(1, 128); (v6_num [0xfc00; 0; 0; 0; 0; 0; 0; 0], 7)].

Definition ip_blocked (special_v4 special_v6 : list (Z * Z)) (i : IpAddr) : Prop :=
  match i with
  | V4 a b c d => Exists (λ bl, in_block 32 bl (v4_num a b c d)) special_v4
  | V6 s => Exists (λ bl, in_block 128 bl (v6_num s)) special_v6
  end.

Definition wf_ip (i : IpAddr) : Prop :=
  match i with
  | V4 a b c d => Forall is_u8 [a; b; c; d]
  | V6 s => length s = 8%nat ∧ Forall (λ x, 0 <= x < 2 ^ 16) s
  end.

(** An aligned block is an interval. *)
Lemma in_block_range w base l n size :
  size = 2 ^ (w - l) → 0 < size → base mod size = 0 →
  in_block w (base, l) n ↔ base <= n < base + size.
Proof.
  intros -> Hpos Hal. unfold in_block. cbn [fst snd]. generalize dependent (2 ^ (w - l)). intros size Hpos Hal.
  pose proof (Z.div_mod base size ltac:(lia)) as Hb. pose proof (Z.div_mod n size ltac:(lia)) as Hn.
  pose proof (Z.mod_pos_bound n size Hpos). rewrite Hal in Hb. split; [intros Heq; rewrite Heq in Hn; nia|].
  intros Hr. symmetry. apply (Z.div_unique_pos _ _ _ (n - base)); lia.
Qed.

Lemma or_iff_compat (P Q P' Q' : Prop) : (P ↔ P') → (Q ↔ Q') → (P ∨ Q) ↔ (P' ∨ Q').
Proof. tauto. Qed.

Lemma or_iff_last (P P' : Prop) : (P ↔ P') → P ↔ (P' ∨ False).
Proof. tauto. Qed.

Ltac block_iff :=
  rewrite in_block_range; [|reflexivity|reflexivity|reflexivity];
  rewrite ?andb_true_iff, ?Z.eqb_eq, ?Z.leb_le; change (v4_num ?a ?b ?c ?d) with (a * 16777216 + b * 65536 + c * 256 + d);
  cbn [Z.pow_pos Z.sub Z.add Z.opp Z.pos_sub]; lia.

Lemma v4_special_iff a b c d :
  Forall is_u8 [a; b; c; d] →
  v4_is_unspecified a b c d || v4_is_multicast a || v4_is_broadcast a b c d
  || v4_is_link_local a b || v4_is_documentation a b c = true
  ↔ ip_blocked v4_special v6_special (V4 a b c d).
Proof.
  intros Hw. unfold v4_special. cbn [ip_blocked]. rewrite !Exists_cons, Exists_nil.
  unfold v4_is_unspecified, v4_is_multicast, v4_is_broadcast, v4_is_link_local, v4_is_documentation.
  norm_Forall. destruct Hw as (Ha & Hb & Hc & Hd & _). unfold is_u8 in *.
  rewrite !orb_true_iff, !Logic.or_assoc.
  repeat first [apply or_iff_last; block_iff|apply or_iff_compat; [block_iff|]].
Qed.

Lemma v4_local_iff a b c d :
  Forall is_u8 [a; b; c; d] →
  v4_is_loopback a || v4_is_private a b = true ↔ ip_blocked v4_local v6_local (V4 a b c d).
Proof.
  intros Hw. unfold v4_local. cbn [ip_blocked]. rewrite !Exists_cons, Exists_nil.
  unfold v4_is_loopback, v4_is_private.
  norm_Forall. destruct Hw as (Ha & Hb & Hc & Hd & _). unfold is_u8 in *.
  rewrite !orb_true_iff, !Logic.or_assoc.
  repeat first [apply or_iff_last; block_iff|apply or_iff_compat; [block_iff|]].
Qed.

(** A 16-bit mask of the bits from [k] up compares the high part only. *)
Lemma head_mask h k v :
  0 <= h < 2 ^ 16 → 0 <= k →
  Z.land h (Z.ldiff (Z.ones 16) (Z.ones k)) = v * 2 ^ k ↔ h / 2 ^ k = v.
Proof.
  intros Hh Hk.
  assert (Z.land h (Z.ldiff (Z.ones 16) (Z.ones k)) = h / 2 ^ k * 2 ^ k) as ->.
  { rewrite <- Z.shiftr_div_pow2, <- Z.shiftl_mul_pow2, <- Z.ldiff_ones_r by done.
    rewrite <- (Z.mod_small h (2 ^ 16)) at 2 by done. rewrite <- Z.land_ones by done.
    apply Z.bits_inj'. intros n _. by rewrite !Z.ldiff_spec, !Z.land_spec, Z.ldiff_spec, andb_assoc. }
  pose proof (Z.pow_pos_nonneg 2 k). split; [nia|by intros ->].
Qed.

(** The first segment is the top of the number. *)
Lemma v6_num_head h rest :
  length rest = 7%nat → Forall (λ x, 0 <= x < 2 ^ 16) rest →
  v6_num (h :: rest) = h * 2 ^ 112 + v6_num rest ∧ 0 <= v6_num rest < 2 ^ 112.
Proof.
  intros Hl Hr. do 8 (destruct rest as [|? rest]; try done). norm_Forall. destruct_and!.
  unfold v6_num. cbn [foldl]. lia.
Qed.

Lemma v6_num_block_top h rest k v :
  length rest = 7%nat → Forall (λ x, 0 <= x < 2 ^ 16) rest → 0 <= k <= 16 →
  in_block 128 (v6_num [v * 2 ^ k; 0; 0; 0; 0; 0; 0; 0], 16 - k) (v6_num (h :: rest)) ↔ h / 2 ^ k = v.
Proof.
  intros Hl Hr Hk. destruct (v6_num_head h rest Hl Hr) as [-> Hb]. unfold in_block. cbn [fst snd].
  replace (128 - (16 - k)) with (112 + k) by lia.
  replace (v6_num [v * 2 ^ k; 0; 0; 0; 0; 0; 0; 0]) with (v * 2 ^ k * 2 ^ 112) by (unfold v6_num; cbn [foldl]; lia).
  rewrite Z.pow_add_r, <- !Z.div_div, Z.div_mul, Z.div_mul by lia.
  by rewrite Z.div_add_l, (Z.div_small (v6_num rest)), Z.add_0_r by lia.
Qed.

Lemma v6_num_inj s1 s2 :
  length s1 = length s2 → Forall (λ x, 0 <= x < 2 ^ 16) s1 → Forall (λ x, 0 <= x < 2 ^ 16) s2 →
  v6_num s1 = v6_num s2 → s1 = s2.
Proof.
  revert s2. induction s1 as [|x s1 IH] using rev_ind; intros s2; destruct s2 as [|y s2 _] using rev_ind;
    rewrite ?length_app; cbn; intros Hl; try lia; [done|].
  unfold v6_num. rewrite !foldl_app, !Forall_app, !Forall_singleton. cbn [foldl]. fold (v6_num s1) (v6_num s2).
  intros [H1 Hx] [H2 Hy] Heq. assert (v6_num s1 = v6_num s2 ∧ x = y) as [He ->] by lia.
  f_equal. apply IH; [lia|done..].
Qed.

Lemma v6_block_one v s :
  length s = 8%nat → Forall (λ x, 0 <= x < 2 ^ 16) s → 0 <= v < 2 ^ 16 →
  in_block 128 (v, 128) (v6_num s) ↔ s = replicate 7 0 ++ [v].
Proof.
  intros Hl Hs Hv. unfold in_block. cbn [fst snd]. rewrite Z.sub_diag, !Z.div_1_r. split.
  - intros Heq. apply v6_num_inj; [by rewrite Hl|done| |by rewrite Heq].
    rewrite Forall_app, Forall_singleton. split; [|done]. apply Forall_replicate. lia.
  - by intros ->.
Qed.

Lemma v6_special_iff s :
  length s = 8%nat → Forall (λ x, 0 <= x < 2 ^ 16) s →
  v6_is_unspecified s || v6_is_multicast s || (Z.land (nth 0 s 0) 0xffc0 =? 0xfe80) = true
  ↔ ip_blocked v4_special v6_special (V6 s).
Proof.
  intros Hl Hs. cbn [ip_blocked]. unfold v6_special. rewrite !Exists_cons, Exists_nil.
  unfold v6_is_unspecified, v6_is_multicast. rewrite !orb_true_iff, bool_decide_eq_true, !Z.eqb_eq, !Logic.or_assoc.
  rewrite v6_block_one by done. destruct s as [|h rest]; [done|]. apply Forall_cons in Hs as [Hh Hr].
  cbn [nth]. apply or_iff_compat; [done|apply or_iff_compat; [|apply or_iff_last]].
  - etrans; [exact (head_mask h 8 255 Hh ltac:(lia))|symmetry].
    apply (v6_num_block_top h rest 8 255); [cbn in Hl; lia|done|lia].
  - etrans; [exact (head_mask h 6 0x3fa Hh ltac:(lia))|symmetry].
    apply (v6_num_block_top h rest 6 0x3fa); [cbn in Hl; lia|done|lia].
Qed.

Lemma v6_local_iff s :
  length s = 8%nat → Forall (λ x, 0 <= x < 2 ^ 16) s →
  v6_is_loopback s || (Z.land (nth 0 s 0) 0xfe00 =? 0xfc00) = true
  ↔ ip_blocked v4_local v6_local (V6 s).
Proof.
  intros Hl Hs. cbn [ip_blocked]. unfold v6_local. rewrite !Exists_cons, Exists_nil.
  unfold v6_is_loopback. rewrite !orb_true_iff, bool_decide_eq_true, !Z.eqb_eq.
  rewrite v6_block_one by done. destruct s as [|h rest]; [done|]. apply Forall_cons in Hs as [Hh Hr].
  cbn [nth]. apply or_iff_compat; [done|apply or_iff_last].
  etrans; [exact (head_mask h 9 0x7e Hh ltac:(lia))|symmetry].
  apply (v6_num_block_top h rest 9 0x7e); [cbn in Hl; lia|done|lia].
Qed.

(** The dialing policy in terms of address blocks: a peer address is dialed exactly
    when its port is not zero, it is in no special block (unspecified, multicast,
    broadcast, link-local, documentation), and, unless local addresses are allowed, in
    no loopback, private or unique-local block.  The octet and mask tests of the code
    cover the CIDR blocks exactly. *)
Theorem dialable_iff_blocks addr allow_local :
  wf_ip (ip addr) →
  is_dialable_peer_addr addr allow_local = true ↔
  port addr ≠ 0 ∧ ¬ ip_blocked v4_special v6_special (ip addr) ∧
  (allow_local = true ∨ ¬ ip_blocked v4_local v6_local (ip addr)).
Proof.
  unfold is_dialable_peer_addr. intros Hw. destruct (Z.eqb_spec (port addr) 0) as [|Hp]; [naive_solver|].
  destruct (ip addr) as [a b c d|s].
  - rewrite <- v4_special_iff, <- v4_local_iff, !not_true_iff_false by exact Hw.
    destruct (_ || v4_is_documentation a b c); [naive_solver|].
    rewrite orb_true_iff, negb_true_iff. naive_solver.
  - destruct Hw as [Hl Hs]. rewrite <- v6_special_iff, <- v6_local_iff, !not_true_iff_false by done.
    destruct (v6_is_unspecified s || v6_is_multicast s); [naive_solver|]. cbn [orb].
    destruct (Z.land _ 0xffc0 =? 0xfe80); [naive_solver|]. rewrite orb_true_iff, negb_true_iff. naive_solver.
Qed.

Lemma dialable_iff_blocks_witness :
  is_dialable_peer_addr (mkAddr (V4 172 31 0 9) 4433) false = true ↔
  4433 ≠ 0 ∧ ¬ ip_blocked v4_special v6_special (V4 172 31 0 9) ∧
  (false = true ∨ ¬ ip_blocked v4_local v6_local (V4 172 31 0 9)).
Proof. apply (dialable_iff_blocks (mkAddr (V4 172 31 0 9) 4433) false). by_eval. Defined.

(** An IPv4 address written as an IPv6 one: [::ffff:a.b.c.d]. *)
Definition v4_mapped (a b c d : Z) : IpAddr := V6 [0; 0; 0; 0; 0; 0xffff; a * 256 + b; c * 256 + d].

(** The policy does not look inside IPv4-mapped IPv6 addresses: with local
    addresses refused, [::ffff:a.b.c.d] is dialed for every [a.b.c.d], although the
    same loopback, private or link-local host is refused as an IPv4 address. *)
Theorem v4_mapped_always_dialed a b c d p :
  p ≠ 0 →
  is_dialable_peer_addr (mkAddr (v4_mapped a b c d) p) false = true ∧
  is_dialable_peer_addr (mkAddr (V4 127 b c d) p) false = false.
Proof.
  intros Hp. unfold is_dialable_peer_addr, v4_mapped. cbn [ip port]. apply Z.eqb_neq in Hp as ->.
  split; [|by rewrite orb_comm; destruct (_ || _)]. cbn [nth].
  assert (∀ s t, nth 5 s 0 = 0xffff → nth 5 t 0 = 0 → bool_decide (s = t) = false) as Hne.
  { intros s t Hs Ht. apply bool_decide_eq_false. intros ->. by rewrite Hs in Ht. }
  unfold v6_is_unspecified, v6_is_loopback. by rewrite !Hne.
Qed.

Lemma v4_mapped_always_dialed_witness :
  is_dialable_peer_addr (mkAddr (v4_mapped 127 0 0 1) 4433) false = true ∧
  is_dialable_peer_addr (mkAddr (V4 127 0 0 1) 4433) false = false.
Proof. apply (v4_mapped_always_dialed 127 0 0 1 4433). by_eval. Defined.
