(* ===== verification/KeyPackages.v ===== *)
(** * KeyPackages: one-shot custody of MLS key packages

    [relay/src/storage/key_packages.rs].  A stash is the rows of one keyspace under
    an owner's prefix; a second keyspace remembers what was consumed.  The owner's
    stripe lock makes each operation run whole, so an operation is one function.
    Rust's [BTreeMap] is a [gmap] read in key order ([btree_iter]). *)

From S2P Require Import Prelude Bytes Crypto Proto MlsWire Keyspace Store StoreProps.

Inductive Error := Conflict | Full | Invalid | Storage.

Record KeyPackages (KS : Type) := mkKeyPackages { records : KS; spent : KS }.
Arguments mkKeyPackages {KS} records spent.
Arguments records {KS} k.
Arguments spent {KS} k.

Abbreviation stash := (gmap bytes KeyPackageRecord).

Definition key_le (a b : bytes * KeyPackageRecord) : Prop := bytes_le a.1 b.1.

#[global] Instance key_le_dec : RelDecision key_le.
Proof. intros a b. unfold key_le. apply _. Defined.

(** [BTreeMap::into_iter] *)
Definition btree_iter (m : stash) : list (bytes * KeyPackageRecord) := merge_sort key_le (map_to_list m).

Section operations.
Context `{Crypto} `{Codec KeyPackageRecord} {KS : Type} `{Keyspace KS}.
Implicit Types (s : KeyPackages KS).

(** [KeyPackages::key] *)
Definition stash_key (ipk reference : bytes) : result bytes Error :=
  if decide (length reference = 32%nat)
  then Ok (key_package_stash_prefix ipk ++ reference) else Err Invalid.

(** The loop of [KeyPackages::entries]. *)
Fixpoint entries_scan (ipk : bytes) (sc : scan) (found : stash) : result stash Error :=
  match sc with
  | [] => Ok found
  | None :: _ => Err Storage
  | Some (key, value) :: sc' =>
      if decide (length key ≠ 64%nat) then Err Invalid else
      match deser value with
      | None => Err Invalid
      | Some record =>
          if decide (kp_ipk record ≠ ipk) then Err Invalid else
          match stash_key ipk (kp_ref record) with
          | Err e => Err e
          | Ok k =>
              if decide (k ≠ key) then Err Invalid else
              let found := <[key := record]> found in
              if (KP_STASH_TARGET <? size found)%nat then Err Full
              else entries_scan ipk sc' found
          end
      end
  end.

(** [KeyPackages::entries] *)
Definition entries s (ipk : bytes) : result stash Error :=
  entries_scan ipk (ks_prefix (records s) (key_package_stash_prefix ipk)) ∅.

(** [map.get(&key).is_some_and(|old| old != record)] *)
Definition differs (m : stash) (key : bytes) (record : KeyPackageRecord) : bool :=
  match m !! key with Some old => bool_decide (old ≠ record) | None => false end.

(** The loop of [KeyPackages::publish]. *)
Fixpoint publish_check s (ipk : bytes) (existing : stash) (incoming : list KeyPackageRecord)
    (final_records : stash) : result stash Error :=
  match incoming with
  | [] => Ok final_records
  | record :: incoming' =>
      if decide (kp_ipk record ≠ ipk) then Err Invalid else
      match stash_key ipk (kp_ref record) with
      | Err e => Err e
      | Ok key =>
          match ser record with
          | None => Err Invalid
          | Some bytes =>
              match ks_get (spent s) key with
              | None => Err Storage
              | Some (Some marker) =>
                  if decide (length marker ≠ 40%nat) then Err Invalid
                  else if decide (drop 8 marker ≠ NodeId_new bytes) then Err Conflict
                  else publish_check s ipk existing incoming' final_records
              | Some None =>
                  if differs existing key record || differs final_records key record
                  then Err Conflict
                  else publish_check s ipk existing incoming' (<[key := record]> final_records)
              end
          end
      end
  end.

(** [batch.insert(&self.records, key, record.ser()?)] for every record. *)
Fixpoint insert_ops (l : list (bytes * KeyPackageRecord)) : option (list batch_op) :=
  match l with
  | [] => Some []
  | (key, record) :: l' =>
      value ← ser record; ops ← insert_ops l'; Some (BInsert false key value :: ops)
  end.

Definition commit s (ops : list batch_op) : option (KeyPackages KS) :=
  '(r, sp) ← ks_commit (records s) (spent s) ops; Some (mkKeyPackages r sp).

(** [KeyPackages::publish] *)
Definition publish s (ipk : bytes) (incoming : list KeyPackageRecord)
    : KeyPackages KS * result unit Error :=
  if (KP_STASH_TARGET <? length incoming)%nat then (s, Err Full) else
  match entries s ipk with
  | Err e => (s, Err e)
  | Ok existing =>
      match publish_check s ipk existing incoming ∅ with
      | Err e => (s, Err e)
      | Ok final_records =>
          let removes := map (BRemove false)
            (filter (λ k, final_records !! k = None) (map fst (btree_iter existing))) in
          match insert_ops (btree_iter final_records) with
          | None => (s, Err Invalid)
          | Some inserts =>
              match commit s (removes ++ inserts) with
              | None => (s, Err Storage)
              | Some s' => (s', Ok tt)
              end
          end
      end
  end.

(** [min_by_key]: the first element of least distance. *)
Fixpoint nearest (selector : bytes) (l : list (bytes * KeyPackageRecord))
    : option (bytes * KeyPackageRecord) :=
  match l with
  | [] => None
  | x :: l' =>
      match nearest selector l' with
      | None => Some x
      | Some y =>
          if decide (bytes_le (xor_bytes (drop 32 x.1) selector) (xor_bytes (drop 32 y.1) selector))
          then Some x else Some y
      end
  end.

Definition expired_at (now : Z) (r : bytes * KeyPackageRecord) : bool := kp_expires_at_ms r.2 <=? now.

(** What a consumed record leaves behind: its expiry and its digest. *)
Definition marker_of (record : KeyPackageRecord) : option bytes :=
  value ← ser record; Some (be_bytes 8 (kp_expires_at_ms record) ++ NodeId_new value).

(** [KeyPackages::take] *)
Definition take_package s (ipk selector : bytes) (now : Z)
    : KeyPackages KS * result (option (KeyPackageRecord * Z)) Error :=
  match entries s ipk with
  | Err e => (s, Err e)
  | Ok found =>
      let all := btree_iter found in
      let removes := map (λ r, BRemove false r.1) (filter (λ r, expired_at now r = true) all) in
      let available := filter (λ r, expired_at now r = false) all in
      match nearest selector available with
      | None =>
          match commit s removes with
          | None => (s, Err Storage)
          | Some s' => (s', Ok None)
          end
      | Some (key, record) =>
          match marker_of record with
          | None => (s, Err Invalid)
          | Some marker =>
              match commit s (removes ++ [BInsert true key marker; BRemove false key]) with
              | None => (s, Err Storage)
              | Some s' => (s', Ok (Some (record, len available - 1)))
              end
          end
      end
  end.

(** [collect] of the references, each of which must be 32 bytes. *)
Fixpoint collect_refs (l : list KeyPackageRecord) : result (list bytes) Error :=
  match l with
  | [] => Ok []
  | r :: l' =>
      if decide (length (kp_ref r) = 32%nat) then
        match collect_refs l' with Ok rs => Ok (kp_ref r :: rs) | Err e => Err e end
      else Err Invalid
  end.

(** [KeyPackages::inventory] *)
Definition inventory s (ipk : bytes) (now : Z) : result (list bytes) Error :=
  match entries s ipk with
  | Err e => Err e
  | Ok found => collect_refs (filter (λ r, (kp_expires_at_ms r >? now) = true) (map snd (btree_iter found)))
  end.
End operations.

(** ** Maps in key order and batches *)

Lemma elem_of_btree_iter (m : stash) k r : (k, r) ∈ btree_iter m ↔ m !! k = Some r.
Proof. unfold btree_iter. by rewrite merge_sort_Permutation, elem_of_map_to_list. Qed.

Lemma btree_iter_NoDup (m : stash) : NoDup (btree_iter m).*1.
Proof. unfold btree_iter. rewrite merge_sort_Permutation. apply NoDup_fst_map_to_list. Qed.

Lemma apply_removes ks : ∀ a b : gmap bytes bytes,
  (Mem.apply_batch a b (map (BRemove false) ks)).2 = b ∧
  ∀ k, (Mem.apply_batch a b (map (BRemove false) ks)).1 !! k = if decide (k ∈ ks) then None else a !! k.
Proof.
  induction ks as [|k0 ks IH]; intros a b; cbn.
  { split; [done|]. intros k. by rewrite decide_False by apply not_elem_of_nil. }
  destruct (IH (delete k0 a) b) as [H2 H1]. split; [exact H2|]. intros k. etrans; [apply H1|].
  destruct (decide (k ∈ ks)); [by rewrite decide_True by (by right)|].
  destruct (decide (k = k0)) as [->|Hne].
  - rewrite decide_True by left. apply lookup_delete_eq.
  - rewrite decide_False by (by rewrite elem_of_cons; intros [|]). by apply lookup_delete_ne.
Qed.

Lemma apply_app a b ops1 ops2 :
  Mem.apply_batch a b (ops1 ++ ops2)
  = Mem.apply_batch (Mem.apply_batch a b ops1).1 (Mem.apply_batch a b ops1).2 ops2.
Proof. unfold Mem.apply_batch. rewrite fold_left_app. by destruct (fold_left _ ops1 _). Qed.

Section facts.
Context `{Crypto} `{Codec KeyPackageRecord} {KS : Type} `{Keyspace KS}.
Implicit Types (s : KeyPackages KS).

(** The rows of the two keyspaces. *)
Definition stored s : gmap bytes bytes := ks_view (records s).
Definition markers s : gmap bytes bytes := ks_view (spent s).

Lemma apply_inserts l : ∀ ops (a b : gmap bytes bytes),
  insert_ops l = Some ops → NoDup l.*1 →
  (Mem.apply_batch a b ops).2 = b ∧
  ∀ k v, (Mem.apply_batch a b ops).1 !! k = Some v ↔
         (∃ r, (k, r) ∈ l ∧ ser r = Some v) ∨ ((k ∉ l.*1) ∧ a !! k = Some v).
Proof.
  induction l as [|[k0 r0] l IH]; intros ops a b Hops Hnd; cbn in Hops.
  { injection Hops as <-. split; [done|]. intros k v. cbn. split; [right; split; [apply not_elem_of_nil|done]|].
    intros [(r & ?%not_elem_of_nil & _)|[_ ?]]; done. }
  apply bind_Some in Hops as (v0 & Hv0 & (ops' & Hops' & [= <-])%bind_Some).
  apply NoDup_cons in Hnd as [Hk0 Hnd]. destruct (IH _ (<[k0 := v0]> a) b Hops' Hnd) as [H2' H1'].
  split; [exact H2'|]. intros k v. cbn [fmap list_fmap fst]. etrans; [apply H1'|].
  setoid_rewrite elem_of_cons. destruct (decide (k = k0)) as [->|Hne].
  - rewrite lookup_insert_eq. split.
    + intros [(r & Hr & ?)|[_ [= ->]]]; [|by left; eauto].
      by destruct Hk0; apply list_elem_of_fmap; exists (k0, r).
    + intros [(r & [[= ->]|Hr] & Hs)|[Hn _]]; [|by destruct Hk0; apply list_elem_of_fmap; exists (k0, r)|].
      * right. split; [done|congruence].
      * by destruct Hn; left.
  - rewrite lookup_insert_ne by done. naive_solver.
Qed.

Lemma commit_view s ops s' :
  commit s ops = Some s' →
  stored s' = (Mem.apply_batch (stored s) (markers s) ops).1 ∧
  markers s' = (Mem.apply_batch (stored s) (markers s) ops).2.
Proof.
  unfold commit. intros ([r sp] & Hc & [= <-])%bind_Some. apply ks_commit_view in Hc.
  unfold Mem.apply_batch, stored, markers. cbn. rewrite <- Hc. done.
Qed.

(** A batch that removes rows and then writes a stash. *)
Lemma replace_view s gone l ins s' :
  insert_ops l = Some ins → NoDup l.*1 → commit s (map (BRemove false) gone ++ ins) = Some s' →
  markers s' = markers s ∧
  ∀ k v, stored s' !! k = Some v ↔
         (∃ r, (k, r) ∈ l ∧ ser r = Some v) ∨ ((k ∉ l.*1) ∧ (k ∉ gone) ∧ stored s !! k = Some v).
Proof.
  intros Hins Hnd Hc. apply commit_view in Hc as [Hst Hmk]. rewrite apply_app in Hst, Hmk.
  destruct (apply_removes gone (stored s) (markers s)) as [Hm1 Hr1].
  destruct (apply_inserts l ins (Mem.apply_batch (stored s) (markers s) (map (BRemove false) gone)).1
              (Mem.apply_batch (stored s) (markers s) (map (BRemove false) gone)).2 Hins Hnd) as [Hm2 Hr2].
  split; [by rewrite Hmk, Hm2|]. intros k v. rewrite Hst, Hr2, Hr1.
  destruct (decide (k ∈ gone)); naive_solver.
Qed.

(** ** Reading a stash *)

Definition prefix_of_owner (ipk : bytes) : bytes := key_package_stash_prefix ipk.

(** What [entries] promises about its answer. *)
Record is_stash s (ipk : bytes) (found : stash) : Prop := {
  st_rows : ∀ k v, stored s !! k = Some v → prefix_of_owner ipk `prefix_of` k →
    ∃ r, deser v = Some r ∧ found !! k = Some r;
  st_sound : ∀ k r, found !! k = Some r →
    (∃ v, stored s !! k = Some v ∧ deser v = Some r) ∧
    kp_ipk r = ipk ∧ stash_key ipk (kp_ref r) = Ok k;
  st_size : (size found <= KP_STASH_TARGET)%nat
}.

Lemma entries_scan_spec ipk sc : ∀ found found',
  entries_scan ipk sc found = Ok found' →
  (None ∉ sc) ∧
  (∀ k v, Some (k, v) ∈ sc → ∃ r, deser v = Some r) ∧
  (∀ k, k ∉ (ok_rows sc).*1 → found' !! k = found !! k) ∧
  (NoDup (ok_rows sc).*1 → ∀ k v r, (k, v) ∈ ok_rows sc → deser v = Some r →
     found' !! k = Some r ∧ kp_ipk r = ipk ∧ stash_key ipk (kp_ref r) = Ok k) ∧
  ((size found <= KP_STASH_TARGET)%nat → (size found' <= KP_STASH_TARGET)%nat).
Proof.
  induction sc as [|[[k v]|] sc IH]; intros found found' Hs; cbn [entries_scan] in Hs; [|repeat case_decide; try done|done].
  { injection Hs as <-. split_and!; [apply not_elem_of_nil|by intros ? ? ?%not_elem_of_nil|done| |done].
    by intros _ ? ? ? ?%not_elem_of_nil. }
  destruct (deser v) as [r|] eqn:Hd; [|done]. case_decide as Hipk; [done|].
  destruct (stash_key ipk (kp_ref r)) as [k'|] eqn:Hk; [|done]. case_decide as Hkk; [done|]. subst k'. destruct (_ <? _)%nat eqn:Hsz; [done|]. breflect.
  apply IH in Hs as (Hn & Hdes & Hout & Hin & Hsize). cbn [ok_rows fmap list_fmap fst]. split_and!.
  - by intros [|]%elem_of_cons.
  - intros k1 v1 [[= -> ->]|]%elem_of_cons; eauto.
  - intros k1 [Hne Hk1]%not_elem_of_cons. rewrite Hout by done. by apply lookup_insert_ne.
  - intros [Hk0 Hnd]%NoDup_cons k1 v1 r1 [[= -> ->]|Hr1]%elem_of_cons Hd1; [|by eapply Hin].
    rewrite Hd in Hd1. injection Hd1 as <-. rewrite Hout by done. by rewrite lookup_insert_eq.
  - intros _. by apply Hsize.
Qed.

Lemma entries_ok s ipk found : entries s ipk = Ok found → is_stash s ipk found.
Proof.
  unfold entries. intros (Hn & Hdes & Hout & Hin & Hsize)%entries_scan_spec.
  pose proof (ks_prefix_view (records s) (key_package_stash_prefix ipk)) as Hsc.
  rewrite (ok_rows_complete _ _ Hsc Hn) in Hout, Hin.
  pose proof (rows_where_NoDup (prefix (key_package_stash_prefix ipk)) (ks_view (records s))) as Hnd.
  specialize (Hin Hnd). pose proof (so_complete _ _ Hsc Hn) as Hall. split.
  - intros k v Hk Hp. assert ((k, v) ∈ prefix_rows (key_package_stash_prefix ipk) (ks_view (records s))) as Hrow
      by (by apply elem_of_prefix_rows).
    destruct (Hdes k v) as [r Hr]; [rewrite Hall; by apply list_elem_of_fmap_2|]. exists r.
    split; [done|]. by eapply Hin.
  - intros k r Hk. destruct (decide (k ∈ (prefix_rows (key_package_stash_prefix ipk) (ks_view (records s))).*1)) as [Hi|Hi].
    + apply list_elem_of_fmap in Hi as ([k1 v] & -> & Hrow). cbn in *.
      destruct (Hdes k1 v) as [r1 Hr1]; [rewrite Hall; by apply list_elem_of_fmap_2|].
      destruct (Hin _ _ _ Hrow Hr1) as (Hf & ? & ?). rewrite Hk in Hf. injection Hf as <-.
      apply elem_of_prefix_rows in Hrow as [? _]. eauto.
    + by rewrite Hout, lookup_empty in Hk.
  - apply Hsize. rewrite map_size_empty. unfold KP_STASH_TARGET. lia.
Qed.

Lemma stash_key_inj ipk ref k : stash_key ipk ref = Ok k → k = prefix_of_owner ipk ++ ref.
Proof. unfold stash_key. case_decide; [|done]. by intros [= <-]. Qed.

Lemma stash_key_prefix ipk ref k : stash_key ipk ref = Ok k → prefix_of_owner ipk `prefix_of` k.
Proof. intros ->%stash_key_inj. apply prefix_app_r. done. Qed.

(** ** Publishing *)

Lemma differs_false m k r : differs m k r = false → m !! k = None ∨ m !! k = Some r.
Proof.
  unfold differs. destruct (m !! k) as [old|]; [|by left]. intros Hd%bool_decide_eq_false.
  right. f_equal. by apply dec_stable.
Qed.

(** A record to be stored under [k], and one already consumed. *)
Definition fresh s (ipk k : bytes) (r : KeyPackageRecord) : Prop :=
  stash_key ipk (kp_ref r) = Ok k ∧ markers s !! k = None.

Lemma publish_check_spec s ipk existing incoming : ∀ final0 final,
  publish_check s ipk existing incoming final0 = Ok final →
  (∀ k r, final !! k = Some r ↔ final0 !! k = Some r ∨ (r ∈ incoming ∧ fresh s ipk k r)) ∧
  (∀ k r, r ∈ incoming → kp_ipk r = ipk ∧
     (fresh s ipk k r → existing !! k = None ∨ existing !! k = Some r)) ∧
  (∀ k r m, r ∈ incoming → stash_key ipk (kp_ref r) = Ok k → markers s !! k = Some m →
     ∃ v, ser r = Some v ∧ drop 8 m = NodeId_new v).
Proof.
  induction incoming as [|r0 incoming IH]; intros final0 final Hc; cbn [publish_check] in Hc.
  { injection Hc as <-. split_and!; intros.
    - split; [by left|]. by intros [|[?%not_elem_of_nil _]].
    - by apply not_elem_of_nil in H2.
    - by apply not_elem_of_nil in H2. }
  case_decide as Hipk; [done|]. destruct (stash_key ipk (kp_ref r0)) as [k0|] eqn:Hk0; [|done].
  destruct (ser r0) as [v0|] eqn:Hv0; [|done].
  destruct (ks_get (spent s) k0) as [got|] eqn:Hget; [|done]. apply ks_get_view in Hget.
  assert (Hkeys : ∀ k r, fresh s ipk k r → r = r0 → k = k0).
  { intros k r [Hk _] ->. congruence. }
  destruct got as [m0|]; fold (markers s) in Hget.
  - case_decide; [done|]. case_decide as Hdig; [done|].
    apply IH in Hc as (Hiff & Hmem & Hspent). setoid_rewrite elem_of_cons. split_and!.
    + intros k r. rewrite Hiff. split; [naive_solver|]. intros [?|[[->|?] Hf]]; [by left| |by right].
      destruct (Hkeys _ _ Hf eq_refl). destruct Hf as [_ Hf]. congruence.
    + intros k r [->|?]; [|by apply Hmem]. split; [done|]. intros Hf.
      destruct (Hkeys _ _ Hf eq_refl). destruct Hf as [_ Hf]. congruence.
    + intros k r m [->|?] Hk Hm; [|by eapply Hspent]. exists v0. split; [done|]. congruence.
  - destruct (_ || _) eqn:Hdiff; [done|]. breflect.
    apply IH in Hc as (Hiff & Hmem & Hspent). setoid_rewrite elem_of_cons.
    assert (Hf0 : fresh s ipk k0 r0) by done. split_and!.
    + intros k r. rewrite Hiff. destruct (decide (k = k0)) as [->|Hne].
      * rewrite lookup_insert_eq. pose proof (differs_false final0 k0 r0 ltac:(done)). naive_solver.
      * rewrite lookup_insert_ne by done. naive_solver.
    + intros k r [->|?]; [|by apply Hmem]. split; [done|]. intros Hf.
      rewrite (Hkeys _ _ Hf eq_refl). by apply differs_false.
    + intros k r m [->|?] Hk Hm; [congruence|by eapply Hspent].
Qed.

Lemma publish_ok s ipk incoming s' :
  publish s ipk incoming = (s', Ok tt) →
  markers s' = markers s ∧
  ∃ existing, is_stash s ipk existing ∧
  (∀ k, ¬ prefix_of_owner ipk `prefix_of` k → stored s' !! k = stored s !! k) ∧
  (∀ k v, prefix_of_owner ipk `prefix_of` k → stored s' !! k = Some v ↔
     ∃ r, r ∈ incoming ∧ fresh s ipk k r ∧ ser r = Some v) ∧
  (∀ k r, r ∈ incoming → kp_ipk r = ipk ∧ (fresh s ipk k r → existing !! k = None ∨ existing !! k = Some r)) ∧
  (length incoming <= KP_STASH_TARGET)%nat.
Proof.
  unfold publish. destruct (_ <? _)%nat eqn:Hlen; [done|]. breflect.
  destruct (entries s ipk) as [existing|] eqn:He; [|done]. apply entries_ok in He as Hst.
  destruct (publish_check _ _ _ _ _) as [final|] eqn:Hc; [|done].
  apply publish_check_spec in Hc as (Hiff & Hmem & _).
  destruct (insert_ops (btree_iter final)) as [ins|] eqn:Hins; [|done].
  destruct (commit _ _) as [s''|] eqn:Hcom; [|done]. intros [= <-].
  change (map fst (btree_iter existing)) with (btree_iter existing).*1 in Hcom.
  apply (replace_view _ _ _ _ _ Hins (btree_iter_NoDup _)) in Hcom as [Hmk Hst'].
  assert (Hfin : ∀ k r, final !! k = Some r ↔ r ∈ incoming ∧ fresh s ipk k r).
  { intros k r. rewrite Hiff, lookup_empty. naive_solver. }
  split; [done|]. exists existing. split; [done|]. split_and!; [| |done|done].
  - intros k Hk. apply option_eq. intros v. rewrite Hst'.
    assert (k ∉ (btree_iter final).*1).
    { intros ([k1 r] & -> & [_ [Hf _]]%elem_of_btree_iter%Hfin)%list_elem_of_fmap. by apply stash_key_prefix in Hf. }
    assert (k ∉ filter (λ k, final !! k = None) (btree_iter existing).*1).
    { intros [_ ([k1 r] & -> & Hr%elem_of_btree_iter)%list_elem_of_fmap]%list_elem_of_filter.
      apply (st_sound _ _ _ Hst) in Hr as (_ & _ & Hr). by apply stash_key_prefix in Hr. }
    split; [|naive_solver]. intros [(r & Hr & _)|?]; [|naive_solver].
    by destruct H2; apply list_elem_of_fmap; exists (k, r).
  - intros k v Hp. rewrite Hst'. setoid_rewrite elem_of_btree_iter. split.
    + intros [(r & [? ?]%Hfin & ?)|(Hn1 & Hn2 & Hk)]; [by exists r|].
      destruct (st_rows _ _ _ Hst k v Hk Hp) as (r & _ & Hr). destruct Hn2.
      apply list_elem_of_filter. split.
      * destruct (final !! k) as [r'|] eqn:Hf; [|done]. destruct Hn1.
        apply list_elem_of_fmap. exists (k, r'). by rewrite elem_of_btree_iter.
      * apply list_elem_of_fmap. exists (k, r). by rewrite elem_of_btree_iter.
    + intros (r & Hr & Hf & Hv). left. exists r. split; [by apply Hfin|done].
Qed.

(** ** Taking *)

(** The distance of a stash key to the fetcher's selector. *)
Definition ref_distance (selector k : bytes) : bytes := xor_bytes (drop 32 k) selector.

Lemma nearest_none selector l : nearest selector l = None → l = [].
Proof. destruct l as [|x l]; cbn; [done|]. destruct (nearest selector l); [by case_decide|done]. Qed.

Lemma nearest_some selector l x :
  nearest selector l = Some x →
  x ∈ l ∧ ∀ y, y ∈ l → bytes_le (ref_distance selector x.1) (ref_distance selector y.1).
Proof.
  revert x. induction l as [|z l IH]; intros x; cbn; [done|]. unfold ref_distance in *.
  destruct (nearest selector l) as [y|] eqn:Hn.
  - destruct (IH y eq_refl) as [Hy Hle]. case_decide as Hd; intros [= <-].
    + split; [left|]. intros w [->|Hw]%elem_of_cons; [done|]. etrans; [exact Hd|by apply Hle].
    + split; [by right|]. intros w [->|Hw]%elem_of_cons; [|by apply Hle].
      destruct (total bytes_le (xor_bytes (drop 32 z.1) selector) (xor_bytes (drop 32 y.1) selector)); [done|done].
  - apply nearest_none in Hn as ->. intros [= <-]. split; [left|].
    intros w [->|?%not_elem_of_nil]%elem_of_cons; done.
Qed.

(** What a take leaves of the stash [found], apart from the taken row. *)
Definition drops_expired s s' (found : stash) (now : Z) (taken : option bytes) : Prop :=
  ∀ k v, stored s' !! k = Some v ↔
    stored s !! k = Some v ∧ Some k ≠ taken ∧ (∀ r, found !! k = Some r → now < kp_expires_at_ms r).

Lemma expired_rows found now k :
  k ∈ map fst (filter (λ r, expired_at now r = true) (btree_iter found)) ↔
  ∃ r, found !! k = Some r ∧ kp_expires_at_ms r <= now.
Proof.
  rewrite list_elem_of_fmap. unfold expired_at. split.
  - intros ([k1 r] & -> & [He Hr%elem_of_btree_iter]%list_elem_of_filter). cbn in *. breflect. eauto.
  - intros (r & Hr & He). exists (k, r). rewrite list_elem_of_filter, elem_of_btree_iter. split; [done|].
    split; [|done]. cbn. by apply Z.leb_le.
Qed.

Lemma available_rows found now k r :
  (k, r) ∈ filter (λ r, expired_at now r = false) (btree_iter found) ↔
  found !! k = Some r ∧ now < kp_expires_at_ms r.
Proof.
  rewrite list_elem_of_filter, elem_of_btree_iter. unfold expired_at. cbn. rewrite Z.leb_gt. tauto.
Qed.

Lemma take_commit s gone key marker s' :
  commit s (map (BRemove false) gone ++ [BInsert true key marker; BRemove false key]) = Some s' →
  markers s' = <[key := marker]> (markers s) ∧
  ∀ k, stored s' !! k = if decide (k ∈ key :: gone) then None else stored s !! k.
Proof.
  intros [Hst Hmk]%commit_view. rewrite apply_app in Hst, Hmk.
  destruct (apply_removes gone (stored s) (markers s)) as [Hm1 Hr1]. cbn in Hst, Hmk.
  split; [by rewrite Hmk, Hm1|]. intros k. rewrite Hst. destruct (decide (k = key)) as [->|Hne].
  - rewrite decide_True by left. apply lookup_delete_eq.
  - rewrite lookup_delete_ne, Hr1 by done.
    destruct (decide (k ∈ gone)); [by rewrite decide_True by (by right)|].
    rewrite decide_False; [done|]. by intros [|]%elem_of_cons.
Qed.

Lemma take_ok s ipk selector now s' res :
  take_package s ipk selector now = (s', Ok res) →
  ∃ found, is_stash s ipk found ∧
  match res with
  | None => markers s' = markers s ∧ drops_expired s s' found now None ∧
            ∀ k r, found !! k = Some r → kp_expires_at_ms r <= now
  | Some (r, n) =>
      ∃ k m, found !! k = Some r ∧ now < kp_expires_at_ms r ∧
             (∀ k' r', found !! k' = Some r' → now < kp_expires_at_ms r' →
                bytes_le (ref_distance selector k) (ref_distance selector k')) ∧
             n = len (filter (λ r, expired_at now r = false) (btree_iter found)) - 1 ∧
             marker_of r = Some m ∧ markers s' = <[k := m]> (markers s) ∧
             drops_expired s s' found now (Some k)
  end.
Proof.
  unfold take_package. destruct (entries s ipk) as [found|] eqn:He; [|done]. apply entries_ok in He.
  set (gone := map fst (filter (λ r, expired_at now r = true) (btree_iter found))).
  assert (Hrem : map (λ r, BRemove false r.1) (filter (λ r, expired_at now r = true) (btree_iter found))
                 = map (BRemove false) gone) by (unfold gone; by rewrite map_map).
  rewrite Hrem. clear Hrem.
  assert (Hgone : ∀ k, k ∉ gone ↔ ∀ r, found !! k = Some r → now < kp_expires_at_ms r).
  { intros k. unfold gone. rewrite expired_rows. split; [|intros Hr (r & ?%Hr & ?); lia].
    intros Hn r Hr. apply Z.nle_gt. eauto. }
  destruct (nearest selector _) as [[k r]|] eqn:Hnear.
  - apply nearest_some in Hnear as [Hin Hle]. apply available_rows in Hin as [Hk Hexp].
    destruct (marker_of r) as [m|] eqn:Hm; [|done]. destruct (commit _ _) as [s''|] eqn:Hc; [|done].
    intros [= <- <-]. apply take_commit in Hc as [Hmk Hst]. exists found. split; [done|]. exists k, m.
    split_and!; [done|done| |done|done|done|].
    + intros k' r' Hk' Hr'. apply (Hle (k', r')). by apply available_rows.
    + intros k' v. rewrite Hst, <- Hgone. destruct (decide _) as [Hd|Hd]; rewrite elem_of_cons in Hd; naive_solver.
  - apply nearest_none in Hnear. destruct (commit _ _) as [s''|] eqn:Hc; [|done]. intros [= <- <-].
    exists found. split; [done|]. rewrite <- (app_nil_r (map _ gone)) in Hc.
    apply (replace_view s gone [] [] s'') in Hc as [Hmk Hst]; [|done|constructor].
    split_and!; [done| |].
    + intros k v. rewrite Hst, <- Hgone. pose proof (not_elem_of_nil k). cbn. set_solver.
    + intros k r Hk. apply Z.nlt_ge. intros Hlt.
      assert (Hav : (k, r) ∈ filter (λ r, expired_at now r = false) (btree_iter found)) by (by apply available_rows).
      rewrite Hnear in Hav. by apply not_elem_of_nil in Hav.
Qed.

Lemma publish_err s ipk incoming s' e : publish s ipk incoming = (s', Err e) → s' = s.
Proof.
  unfold publish. intros Hp. repeat split_match_in Hp; by injection Hp.
Qed.

Lemma take_err s ipk selector now s' e : take_package s ipk selector now = (s', Err e) → s' = s.
Proof.
  unfold take_package. intros Hp. repeat split_match_in Hp; by injection Hp.
Qed.
End facts.
