(* ===== verification/KeyPackagesProps.v ===== *)
(** * KeyPackagesProps: what the key package custody guarantees

    The operations of [KeyPackages] run in any order, beside the sweep of the spent
    markers, which takes no lock: it collects the expired markers first and removes
    them one by one later ([KSweepCollect], [KSweepRemove]).  Times are those of the
    relay's clock, which is assumed not to step back. *)

From S2P Require Import Prelude Bytes Crypto Proto MlsWire Keyspace Store StoreProps KeyPackages.

Section custody.
Context `{Crypto} `{Codec KeyPackageRecord} {KS : Type} `{Keyspace KS}.

(** [expires_at_ms] is a [u64]. *)
Context (typed : ∀ v r, deser v = Some r → is_u64 (kp_expires_at_ms r)).

Inductive kp_op :=
| KPublish (ipk : bytes) (incoming : list KeyPackageRecord)
| KTake (ipk selector : bytes)
| KSweepCollect (cursor : option bytes)
| KSweepRemove.

(** The store, the sweep's pending removals, the clock, and every record handed out. *)
Record custody := mkCustody {
  kp : KeyPackages KS;
  pending_dead : list bytes;
  clock : Z;
  vended : list KeyPackageRecord
}.

Definition kp_step (c : custody) (timed : Z * kp_op) : custody :=
  let '(now, op) := timed in
  match op with
  | KPublish ipk incoming => mkCustody (publish (kp c) ipk incoming).1 (pending_dead c) now (vended c)
  | KTake ipk selector =>
      match take_package (kp c) ipk selector now with
      | (s, Ok (Some (r, _))) => mkCustody s (pending_dead c) now (r :: vended c)
      | (s, _) => mkCustody s (pending_dead c) now (vended c)
      end
  | KSweepCollect cursor =>
      match pending_dead c with
      | [] => mkCustody (kp c) (sweep_collect spent_expired (spent (kp c)) cursor now).1 now (vended c)
      | _ => mkCustody (kp c) (pending_dead c) now (vended c)
      end
  | KSweepRemove =>
      match pending_dead c with
      | [] => mkCustody (kp c) [] now (vended c)
      | k :: dead => mkCustody (mkKeyPackages (records (kp c)) (try_remove (spent (kp c)) k)) dead now (vended c)
      end
  end.

Definition kp_run (c : custody) (ops : list (Z * kp_op)) : custody := fold_left kp_step ops c.

(** The times of the operations do not step back. *)
Fixpoint in_order (t : Z) (ops : list (Z * kp_op)) : Prop :=
  match ops with
  | [] => True
  | (now, _) :: ops' => t <= now ∧ in_order now ops'
  end.

(** A marker whose record has expired. *)
Definition dead_marker (now : Z) (v : bytes) : Prop := ∃ e, be_u64 v 0 = Some e ∧ e <= now.

Record custody_inv (c : custody) : Prop := {
  ci_apart : ∀ k v, markers (kp c) !! k = Some v → stored (kp c) !! k = None;
  ci_dead : NoDup (pending_dead c) ∧
    ∀ k, k ∈ pending_dead c → ∃ v, markers (kp c) !! k = Some v ∧ dead_marker (clock c) v;
  ci_vended : ∀ r, r ∈ vended c →
    kp_expires_at_ms r <= clock c ∨
    ∃ k v, stash_key (kp_ipk r) (kp_ref r) = Ok k ∧ markers (kp c) !! k = Some v ∧
           be_u64 v 0 = Some (kp_expires_at_ms r);
  ci_once : NoDup (vended c)
}.

Lemma dead_marker_later t now v : t <= now → dead_marker t v → dead_marker now v.
Proof. intros Ht (e & He & Hle). exists e. split; [done|lia]. Qed.

(** Writing to the records what is unmarked keeps the invariant. *)
Lemma custody_inv_records c s now :
  custody_inv c → clock c <= now → markers s = markers (kp c) →
  (∀ k v, markers (kp c) !! k = Some v → stored s !! k = None) →
  custody_inv (mkCustody s (pending_dead c) now (vended c)).
Proof.
  intros [Ha [Hnd Hd] Hv Ho] Hnow Hm Hs. split; cbn; rewrite ?Hm; [done| | |done].
  - split; [done|]. intros k (v & ? & ?)%Hd. exists v. split; [done|]. by eapply dead_marker_later.
  - intros r [?|(k & v & ?)]%Hv; [left; lia|right; eauto].
Qed.

Lemma publish_inv c now ipk incoming :
  custody_inv c → clock c <= now → custody_inv (kp_step c (now, KPublish ipk incoming)).
Proof.
  intros Hi Hnow. cbn. destruct (publish (kp c) ipk incoming) as [s' [[]|e]] eqn:Hp; cbn.
  - apply publish_ok in Hp as (Hm & existing & Hst & Hout & Hin & _). apply custody_inv_records; [done..|].
    intros k v Hk. destruct (decide (prefix_of_owner ipk `prefix_of` k)) as [Hpre|Hpre].
    + apply eq_None_not_Some. intros [v' (r & _ & [_ Hf] & _)%Hin]; [congruence|done].
    + rewrite Hout by done. by apply (ci_apart _ Hi k v).
  - apply publish_err in Hp as ->. apply custody_inv_records; [done..|]. apply Hi.
Qed.

Lemma marker_expiry r m :
  is_u64 (kp_expires_at_ms r) → marker_of r = Some m → be_u64 m 0 = Some (kp_expires_at_ms r).
Proof. unfold marker_of. intros Hu (v & _ & [= <-])%bind_Some. by apply be_u64_head. Qed.

Lemma take_inv c now ipk selector :
  custody_inv c → clock c <= now → custody_inv (kp_step c (now, KTake ipk selector)).
Proof.
  intros Hi Hnow. cbn. destruct (take_package (kp c) ipk selector now) as [s' [[[r n]|]|e]] eqn:Ht; cbn.
  - apply take_ok in Ht as (found & Hst & k & m & Hk & Hexp & _ & _ & Hm & Hmk & Hdrop).
    destruct (st_sound _ _ _ Hst k r Hk) as ((v0 & Hv0 & Hd0) & Hipk & Hkey).
    assert (Hnone : markers (kp c) !! k = None).
    { destruct (markers (kp c) !! k) as [v|] eqn:E; [|done]. rewrite (ci_apart _ Hi k v E) in Hv0. done. }
    assert (Hm0 : be_u64 m 0 = Some (kp_expires_at_ms r)) by (eapply marker_expiry; eauto).
    assert (Hnew : r ∉ vended c).
    { intros [?|(k' & v & Hk' & Hv & _)]%(ci_vended _ Hi); [lia|].
      rewrite Hipk, Hkey in Hk'. injection Hk' as <-. congruence. }
    destruct Hi as [Ha [Hnd Hd] Hv Ho]. split; cbn; rewrite ?Hmk; [| | |by constructor].
    + intros k' v Hk'. apply eq_None_not_Some. intros [v' (Hs' & Hne & _)%Hdrop].
      destruct (decide (k' = k)) as [->|]; [done|]. rewrite lookup_insert_ne in Hk' by done.
      rewrite (Ha _ _ Hk') in Hs'. done.
    + split; [done|]. intros k' (v & Hk' & Hdm)%Hd. exists v. rewrite lookup_insert_ne by congruence.
      split; [done|]. by eapply dead_marker_later.
    + intros r' [->|Hr']%elem_of_cons.
      * right. exists k, m. rewrite Hipk, lookup_insert_eq. done.
      * destruct (Hv r' Hr') as [?|(k' & v & Hk' & Hv' & ?)]; [left; lia|right].
        exists k', v. rewrite lookup_insert_ne by congruence. done.
  - apply take_ok in Ht as (found & _ & Hm & Hdrop & _). apply custody_inv_records; [done..|].
    intros k v Hk. apply eq_None_not_Some. intros [v' (Hs' & _)%Hdrop].
    rewrite (ci_apart _ Hi k v Hk) in Hs'. done.
  - apply take_err in Ht as ->. apply custody_inv_records; [done..|]. apply Hi.
Qed.

Lemma custody_inv_later c now :
  custody_inv c → clock c <= now → custody_inv (mkCustody (kp c) (pending_dead c) now (vended c)).
Proof. intros Hi Hnow. apply custody_inv_records; [done..|]. apply Hi. Qed.

Lemma collect_dead (ks : KS) cursor now dead resume :
  sweep_collect spent_expired ks cursor now = (dead, resume) →
  NoDup dead ∧ ∀ k, k ∈ dead → ∃ v, ks_view ks !! k = Some v ∧ dead_marker now v.
Proof.
  unfold sweep_collect. intros (vis & rest & Hrows & -> & _)%sweep_scan_spec; [|done].
  destruct (so_prefix _ _ (ks_range_view ks cursor)) as [more Hmore]. rewrite Hrows in Hmore. cbn.
  pose proof (rows_where_NoDup (after cursor) (ks_view ks)) as Hnd.
  assert (Hsub : filter (is_dead spent_expired now) vis `sublist_of` rows_after cursor (ks_view ks)).
  { rewrite Hmore, <- app_assoc. apply sublist_inserts_r, sublist_filter. }
  split.
  - eapply sublist_NoDup; [exact Hnd|]. by apply (sublist_map fst).
  - intros k ([k1 v] & -> & Hr)%list_elem_of_fmap. cbn. exists v.
    pose proof Hr as [Hdead _]%list_elem_of_filter.
    eapply elem_of_sublist in Hr as [? _]%elem_of_rows_after; [|exact Hsub].
    split; [done|]. unfold is_dead, spent_expired, is_some_and in Hdead. cbn in Hdead.
    destruct (be_u64 v 0) as [e|] eqn:He; [|done]. exists e. split; [done|]. by apply Z.leb_le, Is_true_true.
Qed.

Lemma collect_inv c now cursor :
  custody_inv c → clock c <= now → custody_inv (kp_step c (now, KSweepCollect cursor)).
Proof.
  intros Hi Hnow. cbn. destruct (pending_dead c) as [|k l] eqn:Hp.
  - destruct (sweep_collect _ _ _ _) as [dead resume] eqn:Hs. apply collect_dead in Hs.
    destruct (custody_inv_later c now Hi Hnow) as [Ha _ Hv Ho]. by split.
  - rewrite <- Hp. by apply custody_inv_later.
Qed.

Lemma remove_inv c now :
  custody_inv c → clock c <= now → custody_inv (kp_step c (now, KSweepRemove)).
Proof.
  intros Hi Hnow. apply (custody_inv_later c now) in Hi as [Ha [Hnd Hd] Hv Ho]; [|done]. cbn in *.
  destruct (pending_dead c) as [|k l]; [by split|]. apply NoDup_cons in Hnd as [Hk Hnd].
  assert (Hrm : ∀ k' v, k' ≠ k → ks_view (spent (kp c)) !! k' = Some v →
                        ks_view (try_remove (spent (kp c)) k) !! k' = Some v).
  { intros k' v Hne Hv'. destruct (try_remove_view (spent (kp c)) k) as [->| ->]; [|done].
    by rewrite lookup_delete_ne. }
  assert (Hsub : ∀ k' v, ks_view (try_remove (spent (kp c)) k) !! k' = Some v → markers (kp c) !! k' = Some v).
  { intros k' v. destruct (try_remove_view (spent (kp c)) k) as [->| ->]; [|done].
    by intros [_ ?]%lookup_delete_Some. }
  split; cbn; [|split; [done|]| |done].
  - intros k' v Hk'. exact (Ha k' v (Hsub _ _ Hk')).
  - intros k' Hk'. destruct (Hd k') as (v & ? & ?); [by right|]. exists v. split; [|done].
    apply Hrm; [by intros ->|done].
  - intros r Hr. destruct (Hv r Hr) as [?|(k' & v & Hkey & Hm & He)]; [by left|].
    destruct (decide (k' = k)) as [->|Hne]; [left|right; exists k', v; split_and!; [done|by apply Hrm|done]].
    destruct (Hd k) as (v' & Hv' & e & He' & Hle); [left|]. congruence.
Qed.

Lemma kp_run_inv ops : ∀ c, custody_inv c → in_order (clock c) ops → custody_inv (kp_run c ops).
Proof.
  induction ops as [|[now op] ops IH]; intros c Hi Ho; [done|]. destruct Ho as [Hnow Ho].
  assert (clock (kp_step c (now, op)) = now) as Hclock.
  { destruct op; cbn; [done| |by destruct (pending_dead c)..].
    by destruct (take_package _ _ _ _) as [? [[[]|]|]]. }
  apply (IH (kp_step c (now, op))); [|by rewrite Hclock].
  destruct op; [by apply publish_inv|by apply take_inv|by apply collect_inv|by apply remove_inv].
Qed.
End custody.

(** ** Stashes stay readable and bounded *)

Section readable.
Context `{Crypto} `{Codec KeyPackageRecord} {KS : Type} `{Keyspace KS, !Healthy KS}.
Implicit Types (s : KeyPackages KS).

(** The owners in play; their stash prefixes, which are hashes, do not collide. *)
Context (owners : list bytes).
Context (no_collision : ∀ a b, a ∈ owners → b ∈ owners → prefix_of_owner a = prefix_of_owner b → a = b).

Lemma prefix_of_owner_length a : length (prefix_of_owner a) = 32%nat.
Proof. apply (wf_arr_length 32), blake3_wf. Qed.

Lemma prefix_same_owner a b k :
  a ∈ owners → b ∈ owners → prefix_of_owner a `prefix_of` k → prefix_of_owner b `prefix_of` k → a = b.
Proof.
  intros Ha Hb [t1 Hk1] [t2 Hk2]. apply no_collision; [done..|]. rewrite Hk1 in Hk2.
  apply app_inj_1 in Hk2 as [? _]; [done|]. by rewrite !prefix_of_owner_length.
Qed.

Definition good_row (k v : bytes) : Prop :=
  ∃ r, kp_ipk r ∈ owners ∧ deser v = Some r ∧ stash_key (kp_ipk r) (kp_ref r) = Ok k.

Record stash_inv s : Prop := {
  si_healthy : healthy (records s) ∧ healthy (spent s);
  si_rows : ∀ k v, stored s !! k = Some v → good_row k v;
  si_bound : ∀ a, a ∈ owners → (length (prefix_rows (prefix_of_owner a) (stored s)) <= KP_STASH_TARGET)%nat
}.

Lemma entries_scan_complete ipk rows : ∀ found,
  ipk ∈ owners →
  (∀ k v, (k, v) ∈ rows → good_row k v ∧ prefix_of_owner ipk `prefix_of` k) →
  (size found + length rows <= KP_STASH_TARGET)%nat →
  ∃ found', entries_scan ipk (Some <$> rows) found = Ok found'.
Proof.
  induction rows as [|[k v] rows IH]; intros found Ho Hrows Hlen; [by eexists|].
  destruct (Hrows k v) as [(r & Hr & Hd & Hk) Hp]; [left|].
  assert (kp_ipk r = ipk) as Hipk.
  { eapply prefix_same_owner; [done|done| |exact Hp]. by eapply stash_key_prefix. }
  cbn [fmap list_fmap entries_scan]. rewrite decide_False.
  2:{ unfold stash_key in Hk. case_decide as Href; [|done]. injection Hk as <-.
      intros Hne. apply Hne. rewrite length_app, Href.
      pose proof (prefix_of_owner_length (kp_ipk r)) as Hl. unfold prefix_of_owner in Hl. lia. }
  rewrite Hd, decide_False by auto. rewrite Hipk in Hk. rewrite Hk, decide_False by auto.
  assert (size (<[k := r]> found) <= S (size found))%nat as Hsz.
  { rewrite map_size_insert. by destruct (found !! k); cbn; lia. }
  cbn in Hlen. destruct (_ <? _)%nat eqn:E; breflect; [lia|]. apply IH; [done| |lia].
  intros k' v' Hk'. apply Hrows. by right.
Qed.

Lemma entries_complete s ipk :
  stash_inv s → ipk ∈ owners → ∃ found, entries s ipk = Ok found ∧ is_stash s ipk found.
Proof.
  intros [[Hh _] Hrows Hb] Ho. pose proof (ks_prefix_view (records s) (prefix_of_owner ipk)) as Hsc.
  destruct (entries_scan_complete ipk (prefix_rows (prefix_of_owner ipk) (stored s)) ∅ Ho) as [found Hf].
  - intros k v [Hk Hp]%elem_of_prefix_rows. split; [by apply Hrows|done].
  - rewrite map_size_empty. by apply Hb.
  - assert (entries s ipk = Ok found) as He; [|exists found; split; [done|by apply entries_ok]].
    unfold entries. change (key_package_stash_prefix ipk) with (prefix_of_owner ipk).
    rewrite (so_complete _ _ Hsc); [done|]. by apply healthy_prefix.
Qed.

(** Keeping fewer rows keeps the bound. *)
Lemma prefix_rows_shrink (p : bytes) (m m' : gmap bytes bytes) :
  (∀ k v, p `prefix_of` k → m' !! k = Some v → m !! k = Some v) →
  (length (prefix_rows p m') <= length (prefix_rows p m))%nat.
Proof.
  intros Hsub. apply submseteq_length, NoDup_submseteq.
  - eapply NoDup_fmap_1, (rows_where_NoDup (prefix p)).
  - intros [k v] [Hk Hp]%elem_of_prefix_rows. apply elem_of_prefix_rows. split; [by apply Hsub|done].
Qed.

Lemma prefix_rows_bound (p : bytes) (m : gmap bytes bytes) (keys : list bytes) :
  (∀ k v, p `prefix_of` k → m !! k = Some v → k ∈ keys) → (length (prefix_rows p m) <= length keys)%nat.
Proof.
  intros Hk. rewrite <- (length_fmap fst). apply submseteq_length, NoDup_submseteq.
  - apply (rows_where_NoDup (prefix p)).
  - intros k ([k1 v] & -> & [? ?]%elem_of_prefix_rows)%list_elem_of_fmap. by eapply Hk.
Qed.

Lemma commit_healthy s ops s' :
  healthy (records s) ∧ healthy (spent s) → commit s ops = Some s' → healthy (records s') ∧ healthy (spent s').
Proof.
  intros [Hr Hs]. unfold commit. destruct (healthy_commit (records s) (spent s) ops Hr Hs) as (a & b & -> & ? & ?).
  by intros [= <-].
Qed.

Lemma publish_healthy s ipk incoming :
  healthy (records s) ∧ healthy (spent s) →
  healthy (records (publish s ipk incoming).1) ∧ healthy (spent (publish s ipk incoming).1).
Proof.
  intros Hh. destruct (publish s ipk incoming) as [s' r] eqn:Hp. cbn. unfold publish in Hp.
  repeat split_match_in Hp; injection Hp as <- _; try done. by eapply commit_healthy.
Qed.

Lemma take_healthy s ipk selector now :
  healthy (records s) ∧ healthy (spent s) →
  healthy (records (take_package s ipk selector now).1) ∧ healthy (spent (take_package s ipk selector now).1).
Proof.
  intros Hh. destruct (take_package s ipk selector now) as [s' r] eqn:Hp. cbn. unfold take_package in Hp.
  repeat split_match_in Hp; injection Hp as <- _; try done; by eapply commit_healthy.
Qed.

Lemma publish_stash_inv s ipk incoming :
  stash_inv s → ipk ∈ owners → stash_inv (publish s ipk incoming).1.
Proof.
  intros Hi Ho. pose proof (publish_healthy s ipk incoming (si_healthy _ Hi)) as Hh.
  destruct (publish s ipk incoming) as [s' [[]|e]] eqn:Hp; cbn in *; [|by apply publish_err in Hp as ->].
  apply publish_ok in Hp as (_ & existing & _ & Hout & Hin & Hmem & Hlen). split; [done| |].
  - intros k v Hk. destruct (decide (prefix_of_owner ipk `prefix_of` k)) as [Hpre|Hpre].
    + apply Hin in Hk as (r & Hr & [Hkey _] & Hs); [|done]. destruct (Hmem k r Hr) as [Hipk _].
      exists r. rewrite Hipk. split_and!; [done|by apply deser_ser|done].
    + rewrite Hout in Hk by done. by apply Hi.
  - intros a Ha. destruct (decide (a = ipk)) as [->|Hne].
    + etrans; [|exact Hlen]. rewrite <- (length_fmap (λ r, prefix_of_owner ipk ++ kp_ref r) incoming).
      apply prefix_rows_bound. intros k v Hpre Hk. apply Hin in Hk as (r & Hr & [Hkey _] & _); [|done].
      apply stash_key_inj in Hkey as ->. apply list_elem_of_fmap. by exists r.
    + etrans; [|by apply (si_bound _ Hi a)]. apply prefix_rows_shrink. intros k v Hpre Hk.
      rewrite Hout in Hk; [done|]. intros Hpre'. by destruct Hne; eapply prefix_same_owner.
Qed.

Lemma take_stash_inv s ipk selector now :
  stash_inv s → stash_inv (take_package s ipk selector now).1.
Proof.
  intros Hi. pose proof (take_healthy s ipk selector now (si_healthy _ Hi)) as Hh.
  destruct (take_package s ipk selector now) as [s' [res|e]] eqn:Hp; cbn in *; [|by apply take_err in Hp as ->].
  apply take_ok in Hp as (found & _ & Hres).
  assert (∃ taken, drops_expired s s' found now taken) as [taken Hd].
  { destruct res as [[r n]|]; [|naive_solver]. destruct Hres as (k & m & _ & _ & _ & _ & _ & _ & ?). eauto. }
  assert (Hsub : ∀ k v, stored s' !! k = Some v → stored s !! k = Some v) by (by intros k v [? _]%Hd).
  split; [done|by intros k v Hk; apply Hi, Hsub|].
  intros a Ha. etrans; [|by apply (si_bound _ Hi a)]. apply prefix_rows_shrink. auto.
Qed.

(** The operation publishes, if it does, for an owner in play. *)
Definition publishes_for (timed : Z * kp_op) : Prop :=
  match timed.2 with KPublish ipk _ => ipk ∈ owners | _ => True end.

Lemma kp_run_stash_inv ops : ∀ c : custody,
  stash_inv (kp c) → Forall publishes_for ops → stash_inv (kp (kp_run c ops)).
Proof.
  induction ops as [|[now op] ops IH]; intros c Hi Hops; [done|]. apply Forall_cons in Hops as [Hop Hops].
  apply (IH (kp_step c (now, op))); [|done]. destruct op as [ipk incoming|ipk selector|cursor|]; cbn.
  - by apply publish_stash_inv.
  - pose proof (take_stash_inv (kp c) ipk selector now Hi) as Ht.
    by destruct (take_package _ _ _ _) as [? [[[]|]|]].
  - by destruct (pending_dead c).
  - destruct (pending_dead c) as [|k dead]; [done|]. destruct Hi as [[Hr Hsp] Hrows Hb]. split; [|done..].
    split; [done|]. cbn. unfold try_remove. by destruct (healthy_remove (spent (kp c)) k Hsp) as (s' & -> & ?).
Qed.

Lemma collect_refs_all l :
  Forall (λ r, length (kp_ref r) = 32%nat) l → collect_refs l = Ok (map kp_ref l).
Proof. induction 1 as [|r l Hr _ IH]; cbn; [done|]. by rewrite decide_True, IH. Qed.

Lemma inventory_exact s ipk found now :
  entries s ipk = Ok found → is_stash s ipk found →
  ∃ refs, inventory s ipk now = Ok refs ∧ NoDup refs ∧ (length refs <= KP_STASH_TARGET)%nat ∧
    ∀ ref, ref ∈ refs ↔ ∃ k v r, stored s !! k = Some v ∧ prefix_of_owner ipk `prefix_of` k ∧
                                 deser v = Some r ∧ kp_ref r = ref ∧ now < kp_expires_at_ms r.
Proof.
  intros He Hst. unfold inventory. rewrite He.
  set (l := filter (λ r, (kp_expires_at_ms r >? now) = true) (map snd (btree_iter found))).
  assert (Hl : ∀ r, r ∈ l ↔ (∃ k, found !! k = Some r) ∧ now < kp_expires_at_ms r).
  { intros r. unfold l. rewrite list_elem_of_filter, list_elem_of_fmap, Z.gtb_lt. split.
    - intros [? ([k r'] & -> & ?%elem_of_btree_iter)]. eauto.
    - intros [[k ?%elem_of_btree_iter] ?]. split; [done|]. by exists (k, r). }
  rewrite collect_refs_all.
  2:{ apply Forall_forall. intros r [[k Hk] _]%Hl. apply (st_sound _ _ _ Hst) in Hk as (_ & _ & Hk).
      unfold stash_key in Hk. by case_decide. }
  assert (Hsub : l `sublist_of` map snd (btree_iter found)) by apply sublist_filter.
  exists (map kp_ref l). split; [done|]. split_and!.
  - eapply sublist_NoDup; [|by apply (sublist_map kp_ref)]. rewrite map_map.
    apply (NoDup_fmap_1 (λ ref, prefix_of_owner ipk ++ ref)). rewrite <- list_fmap_compose.
    erewrite list_fmap_ext; [apply (btree_iter_NoDup found)|].
    intros i [k r] Hi%list_elem_of_lookup_2%elem_of_btree_iter. cbn.
    apply (st_sound _ _ _ Hst) in Hi as (_ & _ & Hi). symmetry. by apply stash_key_inj.
  - rewrite length_map. etrans; [by apply sublist_length|]. rewrite length_map.
    unfold btree_iter. rewrite (Permutation_length (merge_sort_Permutation _ _)), length_map_to_list.
    apply (st_size _ _ _ Hst).
  - intros ref. rewrite list_elem_of_fmap. split.
    + intros (r & -> & [[k Hk] ?]%Hl). pose proof Hk as ((v & ? & ?) & _ & Hkey)%(st_sound _ _ _ Hst).
      exists k, v, r. split_and!; [done|by eapply stash_key_prefix|done..].
    + intros (k & v & r & Hk & Hp & Hd & <- & ?). exists r. split; [done|]. apply Hl. split; [|done].
      destruct (st_rows _ _ _ Hst k v Hk Hp) as (r' & Hd' & ?). exists k. congruence.
Qed.
End readable.

(** ** Theorems *)

Section theorems.
Context `{Crypto} `{Codec KeyPackageRecord} {KS : Type} `{Keyspace KS}.
Implicit Types (s : KeyPackages KS).

(** A key package is handed out at most once.  Whatever publishes (retries
    included), takes and sweeps run in whatever order, no record is vended twice, from
    a store where nothing consumed is on offer: a consumed record leaves a marker in
    the same batch that removes it, a publish skips what has a marker, and the sweep
    drops a marker only once its record has expired, even though it removes keys it
    collected earlier without a lock. *)
Theorem kp_one_shot s t ops :
  (∀ v r, deser v = Some r → is_u64 (kp_expires_at_ms r)) →
  (∀ k v, markers s !! k = Some v → stored s !! k = None) →
  in_order t ops →
  NoDup (vended (kp_run (mkCustody s [] t []) ops)).
Proof.
  intros Ht Hs Ho. apply ci_once, kp_run_inv; [done| |done]. split; cbn; [done| | |constructor].
  - split; [constructor|]. by intros k ?%not_elem_of_nil.
  - by intros r ?%not_elem_of_nil.
Qed.

(** Publishing replaces the stash or does nothing.  On any error the store is
    unchanged.  On success the owner's rows are exactly the offered records that were
    not consumed, the rows of other owners and the spent markers are untouched, and no
    record changed under a reference that was already on offer. *)
Theorem kp_publish_exact s ipk incoming :
  match publish s ipk incoming with
  | (s', Err _) => s' = s
  | (s', Ok _) =>
      markers s' = markers s ∧
      (∀ k, ¬ prefix_of_owner ipk `prefix_of` k → stored s' !! k = stored s !! k) ∧
      (∀ k v, prefix_of_owner ipk `prefix_of` k → stored s' !! k = Some v ↔
         ∃ r, r ∈ incoming ∧ fresh s ipk k r ∧ ser r = Some v) ∧
      (∀ k v v' r r', prefix_of_owner ipk `prefix_of` k →
         stored s !! k = Some v → deser v = Some r → stored s' !! k = Some v' → deser v' = Some r' → r' = r)
  end.
Proof.
  destruct (publish s ipk incoming) as [s' [[]|e]] eqn:Hp; [|by eapply publish_err].
  apply publish_ok in Hp as (Hm & existing & Hst & Hout & Hin & Hmem & _).
  split_and!; [done..|]. intros k v v' r r' Hpre Hk Hd Hk' Hd'.
  apply Hin in Hk' as (r1 & Hr1 & Hf & Hs1); [|done]. apply deser_ser in Hs1.
  destruct (st_rows _ _ _ Hst k v Hk Hpre) as (r0 & Hd0 & He).
  destruct (Hmem k r1 Hr1) as [_ [?|?]]; [done|congruence|congruence].
Qed.

(** Taking hands out the unexpired record whose reference is nearest the
    selector, removes it together with every expired record of the stash, and marks it
    spent with its expiry and digest; the count returned is how many unexpired records
    remain.  It answers [None] exactly when nothing is unexpired, and on an error
    nothing has changed. *)
Theorem kp_take_exact s ipk selector now :
  match take_package s ipk selector now with
  | (s', Err _) => s' = s
  | (s', Ok res) =>
      ∃ found, is_stash s ipk found ∧
      match res with
      | None => markers s' = markers s ∧ drops_expired s s' found now None ∧
                ∀ k r, found !! k = Some r → kp_expires_at_ms r <= now
      | Some (r, n) =>
          ∃ k m, found !! k = Some r ∧ now < kp_expires_at_ms r ∧
                 (∀ k' r', found !! k' = Some r' → now < kp_expires_at_ms r' →
                    bytes_le (ref_distance selector k) (ref_distance selector k')) ∧
                 n = len (filter (λ r, expired_at now r = false) (btree_iter found)) - 1 ∧
                 marker_of r = Some m ∧ markers s' = <[k := m]> (markers s) ∧
                 drops_expired s s' found now (Some k)
      end
  end.
Proof.
  destruct (take_package s ipk selector now) as [s' [res|e]] eqn:Hp; [|by eapply take_err].
  by apply take_ok in Hp.
Qed.

(** Stashes stay within their bound and readable.  From an empty store on a
    working disk, after any sequence of publishes, takes and sweeps for owners whose
    stash prefixes do not collide, reading any owner's stash succeeds, and the
    inventory lists exactly the unexpired references, each once, at most
    [KP_STASH_TARGET] of them. *)
Theorem kp_stash_readable `{!Healthy KS} owners s t ops ipk now :
  (∀ a b, a ∈ owners → b ∈ owners → prefix_of_owner a = prefix_of_owner b → a = b) →
  stored s = ∅ → healthy (records s) → healthy (spent s) →
  Forall (publishes_for owners) ops →
  ipk ∈ owners →
  let s' := kp (kp_run (mkCustody s [] t []) ops) in
  ∃ refs, inventory s' ipk now = Ok refs ∧ NoDup refs ∧ (length refs <= KP_STASH_TARGET)%nat ∧
    ∀ ref, ref ∈ refs ↔ ∃ k v r, stored s' !! k = Some v ∧ prefix_of_owner ipk `prefix_of` k ∧
                                 deser v = Some r ∧ kp_ref r = ref ∧ now < kp_expires_at_ms r.
Proof.
  intros Hcol Hs Hr Hsp Hops Hipk s'. assert (stash_inv owners s) as Hi0.
  { split; [done| |].
    - intros k v Hk. by rewrite Hs, lookup_empty in Hk.
    - intros a _. rewrite Hs. etrans; [apply (prefix_rows_bound _ _ [])|cbn; lia].
      intros k v _ Hk. by rewrite lookup_empty in Hk. }
  assert (stash_inv owners s') as Hi by (by apply kp_run_stash_inv).
  destruct (entries_complete owners Hcol s' ipk Hi Hipk) as (found & He & Hst).
  by eapply inventory_exact.
Qed.
End theorems.

(** ** Examples *)

Module KpExample.
Import Toy Mem.

Definition raw_kp (r : KeyPackageRecord) : bytes :=
  ToyCodec.enc (kp_ipk r) ++ ToyCodec.enc (kp_ref r) ++ ToyCodec.enc (kp_bytes r)
  ++ ToyCodec.enc (kp_owner_sig r) ++ [kp_expires_at_ms r].

Definition parse_kp (b : bytes) : option KeyPackageRecord :=
  '(i, b) ← ToyCodec.dec b; '(r, b) ← ToyCodec.dec b; '(k, b) ← ToyCodec.dec b; '(g, b) ← ToyCodec.dec b;
  match b with
  | [e] => if decide (is_u64 e) then Some (mkKp i r k e g) else None
  | _ => None
  end.

Definition ser_kp (r : KeyPackageRecord) : option bytes :=
  if decide (is_u64 (kp_expires_at_ms r)) then Some (raw_kp r) else None.

Lemma parse_ser_kp r b : ser_kp r = Some b → parse_kp b = Some r.
Proof.
  unfold ser_kp. case_decide as Hu; [|done]. intros [= <-]. unfold parse_kp, raw_kp.
  do 4 (rewrite ToyCodec.dec_enc; cbn [mbind option_bind]). rewrite decide_True by done. by destruct r.
Qed.

#[export] Instance kp_codec : Codec KeyPackageRecord :=
  {| ser := ser_kp; deser := parse_kp; deser_ser := parse_ser_kp |}.

Lemma parse_kp_typed v r : parse_kp v = Some r → is_u64 (kp_expires_at_ms r).
Proof.
  unfold parse_kp. intros ([i b1] & _ & ([f b2] & _ & ([k b3] & _ & ([g b4] & _ & Hp)%bind_Some)%bind_Some)%bind_Some)%bind_Some.
  destruct b4 as [|e [|]]; [done| |done]. case_decide; [|done]. by injection Hp as <-.
Qed.

Definition owner : bytes := replicate 32 7.
Definition package (n expires : Z) : KeyPackageRecord :=
  mkKp owner (replicate 32 n) [n] expires (replicate 64 3).
Definition empty_kp : KeyPackages mem := mkKeyPackages (mem_of ∅) (mem_of ∅).

(** Two packages; one is taken, published again, taken again; its marker is swept once
    it expired, and it is published once more. *)
Definition life : list (Z * kp_op) :=
  let both := [package 1 100; package 2 500] in
  [(10, KPublish owner both); (20, KTake owner (replicate 32 1)); (30, KPublish owner both);
   (40, KTake owner (replicate 32 1)); (50, KTake owner (replicate 32 1)); (150, KSweepCollect None);
   (160, KSweepRemove); (170, KPublish owner both); (180, KTake owner (replicate 32 1))].
End KpExample.

Import Toy Mem KpExample.

Lemma kp_one_shot_witness :
  let c := kp_run (mkCustody empty_kp [] 0 []) life in
  vended c = [package 2 500; package 1 100] ∧ NoDup (vended c).
Proof.
  cbn zeta. split; [vm_compute; reflexivity|]. refine (kp_one_shot empty_kp 0 life parse_kp_typed _ _).
  - intros k v Hk. exfalso. exact (eq_None_ne_Some_1 _ v (lookup_empty k) Hk).
  - unfold life. cbn. lia.
Defined.

Lemma kp_stash_readable_witness :
  let s' := kp (kp_run (mkCustody empty_kp [] 0 []) (take 3 life)) in
  ∃ refs, inventory s' owner 30 = Ok refs ∧ NoDup refs ∧ (length refs <= KP_STASH_TARGET)%nat ∧
    ∀ ref, ref ∈ refs ↔ ∃ k v r, stored s' !! k = Some v ∧ prefix_of_owner owner `prefix_of` k ∧
                                 deser v = Some r ∧ kp_ref r = ref ∧ 30 < kp_expires_at_ms r.
Proof.
  apply (kp_stash_readable [owner] empty_kp 0 (take 3 life) owner 30);
    [|reflexivity|reflexivity|reflexivity|repeat constructor|by_eval].
  intros a b Ha Hb _. apply list_elem_of_singleton in Ha as ->, Hb as ->. reflexivity.
Defined.
