(* ===== verification/Contracts.v ===== *)
(** * Contracts: relay service contracts and the key package inventory

    [common/src/contracts/mod.rs] and [common/src/contracts/services/key_inventory.rs]:
    two hand-written wire formats.  Each reader is a parser in a small state and error
    monad; its theorem says that it accepts exactly the bytes the writer produces. *)

From S2P Require Import Prelude Bytes Crypto.

Declare Scope parser_scope.
Delimit Scope parser_scope with parser.

Inductive ContractError :=
| Malformed
| Limit
| DocumentVersion (version : Z)
| NegotiationFormat (version : Z).

(** ** Readers *)

(** [Input]: the bytes left, or the error. *)
Definition parser (A : Type) : Type := bytes → result (A * bytes) ContractError.

Definition pret {A} (a : A) : parser A := λ b, Ok (a, b).
Definition pfail {A} (e : ContractError) : parser A := λ _, Err e.
Definition pbind {A B} (p : parser A) (f : A → parser B) : parser B := λ b,
  match p b with
  | Ok (a, rest) => f a rest
  | Err e => Err e
  end.

Notation "'let*' x ':=' p 'in' q" := (pbind p (λ x, q))
  (at level 10, x name, p at level 100, q at level 200) : parser_scope.
Open Scope parser_scope.

(** [split_first_chunk::<N>()] *)
Definition take_chunk (n : nat) : parser bytes := λ b,
  if (n <=? length b)%nat then Ok (take n b, drop n b) else Err Malformed.

Definition take_uint (n : nat) : parser Z := let* b := take_chunk n in pret (be_val b).

(** A loop of [count] reads. *)
Fixpoint ploop {A} (count : nat) (step : list A → parser A) (acc : list A) : parser (list A) :=
  match count with
  | O => pret acc
  | S count => let* a := step acc in ploop count step (acc ++ [a])
  end.

(** [finish]: nothing may be left. *)
Definition run_all {A} (p : parser A) (b : bytes) : result A ContractError :=
  match p b with
  | Ok (a, []) => Ok a
  | Ok (_, _ :: _) => Err Malformed
  | Err e => Err e
  end.

(** ** Service support *)

Module Support.
Definition FORMAT : Z := 1.
Definition MAX_CONTRACTS : nat := 32.
Definition MAX_VERSIONS : nat := 8.

(** The [BTreeMap], in key order. *)
Abbreviation support := (list (Z * list Z)).

(** [v.windows(2).any(|p| p[0] >= p[1])] *)
Fixpoint unsorted {A} (key : A → Z) (v : list A) : bool :=
  match v with
  | a :: ((b :: _) as v') => (key a >=? key b) || unsorted key v'
  | _ => false
  end.

(** [BTreeMap::insert]: the map, and whether the key was there. *)
Fixpoint btree_insert (id : Z) (versions : list Z) (m : support) : support * bool :=
  match m with
  | [] => ([(id, versions)], false)
  | (k, v) :: m' =>
      if id <? k then ((id, versions) :: m, false)
      else if id =? k then ((id, versions) :: m', true)
      else let '(m'', present) := btree_insert id versions m' in ((k, v) :: m'', present)
  end.

Fixpoint new_loop (contracts : support) (m : support) : result support ContractError :=
  match contracts with
  | [] => Ok m
  | (id, versions) :: contracts' =>
      if (id =? 0) || match versions with [] => true | v :: _ => v =? 0 end
         || unsorted (λ v, v) versions then Err Malformed
      else if (MAX_VERSIONS <? length versions)%nat || (MAX_CONTRACTS <=? length m)%nat then Err Limit
      else let '(m', present) := btree_insert id versions m in
           if present then Err Malformed else new_loop contracts' m'
  end.

(** [Support::new] *)
Definition new (contracts : support) : result support ContractError := new_loop contracts [].

(** [Support::supports]; on the sorted list [binary_search] finds what is there. *)
Definition supports (s : support) (id version : Z) : bool :=
  match list_find (λ c, c.1 = id) s with
  | Some (_, (_, versions)) => bool_decide (version ∈ versions)
  | None => false
  end.

Definition put (value : Z) : bytes := be_bytes 2 value.

Definition put_versions (versions : list Z) : bytes := mjoin (put <$> versions).

Definition put_contract (c : Z * list Z) : bytes :=
  put c.1 ++ put (len c.2) ++ put_versions c.2.

(** [Support::encode] *)
Definition encode (s : support) : bytes :=
  put FORMAT ++ put (len s) ++ mjoin (put_contract <$> s).

Definition u16 : parser Z := take_uint 2.

Definition format : parser unit :=
  let* version := u16 in
  if version =? FORMAT then pret tt else pfail (NegotiationFormat version).

Definition bounded_count (max : nat) : parser nat :=
  let* count := u16 in
  if count >? Z.of_nat max then pfail Limit else pret (Z.to_nat count).

Definition read_contract (offers : support) : parser (Z * list Z) :=
  let* id := u16 in
  if id <=? match last offers with Some (previous, _) => previous | None => 0 end
  then pfail Malformed else
  let* count := bounded_count MAX_VERSIONS in
  let* versions := ploop count (λ _, u16) [] in
  pret (id, versions).

Definition read_support : parser support :=
  let* _ := format in
  let* count := bounded_count MAX_CONTRACTS in
  ploop count read_contract [].

(** [Support::decode] *)
Definition decode (b : bytes) : result support ContractError :=
  match run_all read_support b with
  | Ok offers => new offers
  | Err e => Err e
  end.
End Support.

(** ** Key package inventory *)

Module Inventory.
Definition VERSION : Z := 1.
Definition MAX_HOMES : nat := 4.
Definition MAX_REFERENCES : nat := 100.
Definition MAX_SKEW_MS : Z := 60000.
Definition HEADER : bytes := str "PZKI" ++ [0; 1].
Definition REQUEST_BYTES : nat := 6 + 32 + 32 + 8 + 64.
Definition MAX_RESPONSE_BYTES : Z := 6 + 32 + 8 + 1 + 4 * (32 + 1 + 8 + 1 + 100 * 32).

Record Request := mkRequest { rq_owner : bytes; rq_delegate : bytes; rq_timestamp : Z; rq_signature : bytes }.

Record Snapshot := mkSnapshot { observed_at_ms : Z; references : list bytes }.

Record Home := mkHome { node : bytes; snapshot : option Snapshot }.

Record Inventory := mkInventory { inv_owner : bytes; request_timestamp : Z; homes : list Home }.

(** [Request::signing_input] *)
Definition signing_input (r : Request) : bytes :=
  List.concat [str "promtuz-key-package-inventory"; HEADER; rq_owner r; rq_delegate r;
               be_bytes 8 (rq_timestamp r)].

(** [Request::encode] *)
Definition encode_request (r : Request) : bytes :=
  List.concat [HEADER; rq_owner r; rq_delegate r; be_bytes 8 (rq_timestamp r); rq_signature r].

(** [Input::new]: the magic, then the document version. *)
Definition input_new : parser unit := λ b,
  if decide (take 4 b = str "PZKI") then
    (let* version := take_uint 2 in
     if version =? VERSION then pret tt else pfail (DocumentVersion version)) (drop 4 b)
  else Err Malformed.

(** [Input::count] *)
Definition count (limit : nat) : parser nat :=
  let* c := take_uint 1 in
  if c >? Z.of_nat limit then pfail Limit else pret (Z.to_nat c).

Definition read_request : parser Request :=
  let* _ := input_new in
  let* owner := take_chunk 32 in
  let* delegate := take_chunk 32 in
  let* timestamp := take_uint 8 in
  let* signature := take_chunk 64 in
  pret (mkRequest owner delegate timestamp signature).

(** [Request::decode] *)
Definition decode_request (b : bytes) : result Request ContractError :=
  if decide (length b ≠ REQUEST_BYTES) then Err Malformed
  else match read_request b with
       | Ok (r, _) => Ok r
       | Err e => Err e
       end.

(** [v.windows(2).any(|p| p[0] >= p[1])] on byte arrays. *)
Fixpoint unsorted {A} (key : A → bytes) (v : list A) : bool :=
  match v with
  | a :: ((b :: _) as v') => bool_decide (bytes_le (key b) (key a)) || unsorted key v'
  | _ => false
  end.

(** [Inventory::complete] *)
Definition complete (i : Inventory) : bool :=
  bool_decide (homes i ≠ []) && forallb (λ h, bool_decide (is_Some (snapshot h))) (homes i).

Definition encode_snapshot (s : option Snapshot) : result bytes ContractError :=
  match s with
  | None => Ok [0]
  | Some s =>
      if (MAX_REFERENCES <? length (references s))%nat then Err Limit
      else if unsorted (λ r, r) (references s) then Err Malformed
      else Ok ([1] ++ be_bytes 8 (observed_at_ms s) ++ [len (references s)] ++ mjoin (references s))
  end.

Fixpoint encode_homes (l : list Home) : result bytes ContractError :=
  match l with
  | [] => Ok []
  | h :: l' =>
      match encode_snapshot (snapshot h) with
      | Err e => Err e
      | Ok s => match encode_homes l' with
                | Err e => Err e
                | Ok rest => Ok (node h ++ s ++ rest)
                end
      end
  end.

(** [Inventory::encode] *)
Definition encode (i : Inventory) : result bytes ContractError :=
  if bool_decide (homes i = []) || (MAX_HOMES <? length (homes i))%nat then Err Limit
  else if unsorted node (homes i) then Err Malformed
  else match encode_homes (homes i) with
       | Err e => Err e
       | Ok hs => Ok (HEADER ++ inv_owner i ++ be_bytes 8 (request_timestamp i) ++ [len (homes i)] ++ hs)
       end.

Definition read_reference (acc : list bytes) : parser bytes :=
  let* reference := take_chunk 32 in
  match last acc with
  | Some previous => if decide (bytes_le reference previous) then pfail Malformed else pret reference
  | None => pret reference
  end.

Definition read_snapshot : parser (option Snapshot) :=
  let* tag := take_uint 1 in
  if tag =? 0 then pret None
  else if tag =? 1 then
    let* observed := take_uint 8 in
    let* n := count MAX_REFERENCES in
    let* refs := ploop n read_reference [] in
    pret (Some (mkSnapshot observed refs))
  else pfail Malformed.

Definition read_home (acc : list Home) : parser Home :=
  let* n := take_chunk 32 in
  if match last acc with Some h => bool_decide (bytes_le n (node h)) | None => false end
  then pfail Malformed else
  let* s := read_snapshot in
  pret (mkHome n s).

Definition read_inventory : parser Inventory :=
  let* _ := input_new in
  let* owner := take_chunk 32 in
  let* timestamp := take_uint 8 in
  let* n := count MAX_HOMES in
  if (n =? 0)%nat then pfail Malformed else
  let* hs := ploop n read_home [] in
  pret (mkInventory owner timestamp hs).

(** [Inventory::decode] *)
Definition decode (b : bytes) : result Inventory ContractError :=
  if len b >? MAX_RESPONSE_BYTES then Err Limit else run_all read_inventory b.

(** [Inventory::matches] *)
Definition matches (i : Inventory) (r : Request) : bool :=
  bool_decide (inv_owner i = rq_owner r) && (request_timestamp i =? rq_timestamp r)
  && forallb (λ h, match snapshot h with
                   | Some s => abs_diff (observed_at_ms s) (rq_timestamp r) <=? MAX_SKEW_MS
                   | None => true
                   end) (homes i).
End Inventory.
