(* ===== verification/ContractsProps.v ===== *)
(** * ContractsProps: the contract readers accept exactly what the writers produce *)

From S2P Require Import Prelude Bytes Crypto Contracts.
Local Open Scope parser_scope.

(** ** Exact readers *)

(** On bytes, [p] reads a value satisfying [ok] off the front of the input exactly when
    the input starts with its encoding. *)
Definition exact {A} (p : parser A) (ok : A → Prop) (e : A → bytes) : Prop :=
  ∀ b a rest, Forall is_u8 b → p b = Ok (a, rest) ↔ ok a ∧ b = e a ++ rest.

Lemma Forall_app_r {A} (P : A → Prop) l1 l2 l : Forall P l → l = l1 ++ l2 → Forall P l2.
Proof. intros Hl ->. by apply Forall_app in Hl as [_ ?]. Qed.

Lemma Forall_tail {A} (P : A → Prop) l1 l2 : Forall P (l1 ++ l2) → Forall P l2.
Proof. intros Hl. by eapply Forall_app_r. Qed.

Section combinators.
Context {A B : Type}.
Implicit Types (p : parser A) (b rest : bytes).

Lemma pret_iff (a a' : A) b rest : pret a b = Ok (a', rest) ↔ a = a' ∧ b = rest.
Proof. unfold pret. naive_solver. Qed.

Lemma pfail_iff e (a : A) b rest : pfail e b = Ok (a, rest) ↔ False.
Proof. done. Qed.

Lemma pbind_iff p ok e (f : A → parser B) b c rest :
  exact p ok e → Forall is_u8 b →
  pbind p f b = Ok (c, rest) ↔
  ∃ a b', ok a ∧ b = e a ++ b' ∧ Forall is_u8 b' ∧ f a b' = Ok (c, rest).
Proof.
  intros Hp Hb. unfold pbind. destruct (p b) as [[a b']|err] eqn:E.
  - apply Hp in E as [Ha Hb']; [|done]. split.
    + intros Hf. exists a, b'. split_and!; [done..|by eapply Forall_app_r|done].
    + intros (a2 & b2 & Ha2 & Hb2 & _ & Hf). assert (p b = Ok (a2, b2)) as E2 by (by apply Hp).
      assert (p b = Ok (a, b')) as E1 by (by apply Hp). congruence.
  - split; [done|]. intros (a & b' & Ha & Hb' & _). assert (p b = Ok (a, b')) by (by apply Hp). congruence.
Qed.
End combinators.

Lemma take_chunk_exact n : exact (take_chunk n) (wf_arr n) (λ c, c).
Proof.
  intros b a rest Hb. unfold take_chunk. destruct (n <=? length b)%nat eqn:E; breflect.
  - split.
    + intros [= <- <-]. rewrite take_drop. split; [split|done].
      * rewrite length_take. lia.
      * by apply Forall_take.
    + intros [[Hl _] ->]. subst n. by rewrite take_app_length, drop_app_length.
  - split; [done|]. intros [[Hl _] ->]. rewrite length_app in E. lia.
Qed.

Lemma take_uint_exact n : exact (take_uint n) (λ z, 0 <= z < 256 ^ Z.of_nat n) (be_bytes n).
Proof.
  intros b z rest Hb. unfold take_uint.
  rewrite (pbind_iff _ _ _ _ _ _ _ (take_chunk_exact n) Hb). setoid_rewrite pret_iff. split.
  - intros (c & b' & [Hl Hc] & -> & _ & <- & <-). split.
    + pose proof (be_val_bound c Hc) as Hv. unfold len in Hv. by rewrite Hl in Hv.
    + rewrite <- Hl. by rewrite be_bytes_be_val.
  - intros [Hz ->]. exists (be_bytes n z), rest. split_and!; [apply wf_be_bytes|done| |by apply be_val_be_bytes_small|done].
    by eapply Forall_tail.
Qed.

(** Each element is acceptable after the ones before it. *)
Fixpoint chain {A} (ok : list A → A → Prop) (acc l : list A) : Prop :=
  match l with
  | [] => True
  | x :: l' => ok acc x ∧ chain ok (acc ++ [x]) l'
  end.

Lemma ploop_iff {A} (step : list A → parser A) ok e n : ∀ acc b l rest,
  (∀ acc, exact (step acc) (ok acc) e) → Forall is_u8 b →
  ploop n step acc b = Ok (l, rest) ↔
  ∃ new, l = acc ++ new ∧ length new = n ∧ chain ok acc new ∧ b = mjoin (e <$> new) ++ rest.
Proof.
  induction n as [|n IH]; intros acc b l rest Hstep Hb; cbn [ploop].
  - rewrite pret_iff. split.
    + intros [<- <-]. exists []. by rewrite app_nil_r.
    + intros ([|] & -> & ? & _ & ->); [|done]. by rewrite app_nil_r.
  - rewrite (pbind_iff _ _ _ _ _ _ _ (Hstep acc) Hb). split.
    + intros (a & b' & Ha & -> & Hb' & (new & -> & Hl & Hc & ->)%IH); [|done..].
      exists (a :: new). cbn. rewrite <- !app_assoc. by rewrite Hl.
    + intros ([|a new] & -> & Hl & Hc & ->); [done|]. destruct Hc as [Ha Hc].
      exists a, (mjoin (e <$> new) ++ rest). split_and!; [done| | |].
      * cbn. by rewrite <- app_assoc.
      * cbn in Hb. rewrite <- app_assoc in Hb. by apply Forall_app in Hb as [_ ?].
      * apply IH; [done| |].
        { cbn in Hb. rewrite <- app_assoc in Hb. by apply Forall_app in Hb as [_ ?]. }
        exists new. rewrite <- app_assoc. cbn in Hl. split_and!; [done|lia|done|done].
Qed.

(** Reads step by step. *)
Ltac pstep lem := rewrite (pbind_iff _ _ _ _ _ _ _ lem); [|done].

(** The next value read, in the hypothesis [Hf] about bytes [Hb]. *)
Ltac pread lem Hb Hf :=
  rewrite (pbind_iff _ _ _ _ _ _ _ lem Hb) in Hf;
  let Hb' := fresh "Hb" in destruct Hf as (? & ? & ? & -> & Hb' & Hf); clear Hb; rename Hb' into Hb.

(** The next value to be read is [x]. *)
Ltac pwrite lem Hb x Hx :=
  rewrite (pbind_iff _ _ _ _ _ _ _ lem Hb); eexists x, _;
  refine (conj Hx (conj eq_refl (conj (Forall_tail _ _ _ Hb) _))); apply Forall_tail in Hb.

(** ** Service support *)

Module SupportProps.
Import Support.

Definition is_u16 (x : Z) : Prop := 0 <= x < 256 ^ Z.of_nat 2.

Lemma u16_exact : exact u16 is_u16 put.
Proof. apply (take_uint_exact 2). Qed.

Lemma format_exact : exact format (λ _, True) (λ _, put FORMAT).
Proof.
  intros b [] rest Hb. unfold format. pstep u16_exact. split.
  - intros (v & b' & _ & -> & _ & Hf). destruct (v =? FORMAT) eqn:E; breflect; [|done].
    subst v. apply pret_iff in Hf as [_ <-]. done.
  - intros [_ ->]. exists FORMAT, rest. split_and!; [by_eval|done|by eapply Forall_tail|done].
Qed.

Lemma bounded_count_exact max :
  Z.of_nat max < 65536 → exact (bounded_count max) (λ n, (n <= max)%nat) (λ n, put (Z.of_nat n)).
Proof.
  intros Hmax b n rest Hb. unfold bounded_count. pstep u16_exact. split.
  - intros (v & b' & Hv & -> & _ & Hf). destruct (v >? Z.of_nat max) eqn:E; breflect; [by apply pfail_iff in Hf|].
    apply pret_iff in Hf as [<- <-]. unfold is_u16 in Hv. split; [lia|]. by rewrite Z2Nat.id by lia.
  - intros [Hn ->]. exists (Z.of_nat n), rest. split_and!; [unfold is_u16; lia|done|by eapply Forall_tail|].
    rewrite Nat2Z.id. destruct (_ >? _) eqn:E; breflect; [lia|done].
Qed.

Definition last_id (offers : support) : Z :=
  match last offers with Some (previous, _) => previous | None => 0 end.

Definition contract_ok (offers : support) (c : Z * list Z) : Prop :=
  last_id offers < c.1 ∧ is_u16 c.1 ∧ (length c.2 <= MAX_VERSIONS)%nat ∧ Forall is_u16 c.2.

Lemma chain_all {A} (P : A → Prop) acc l : chain (λ _, P) acc l ↔ Forall P l.
Proof.
  revert acc. induction l as [|x l IH]; intros acc; cbn; [done|]. by rewrite Forall_cons, IH.
Qed.

Lemma read_contract_exact offers : exact (read_contract offers) (contract_ok offers) put_contract.
Proof.
  intros b [id vs] rest Hb. unfold read_contract, contract_ok, put_contract. cbn [fst snd].
  fold (last_id offers). pstep u16_exact. split.
  - intros (i & b' & Hi & -> & Hb' & Hf). destruct (i <=? _) eqn:E; breflect; [done|].
    rewrite (pbind_iff _ _ _ _ _ _ _ (bounded_count_exact MAX_VERSIONS ltac:(done)) Hb') in Hf.
    destruct Hf as (n & b2 & Hn & -> & Hb2 & Hf). unfold pbind in Hf.
    destruct (ploop n _ _ b2) as [[l r]|] eqn:El; [|done]. apply pret_iff in Hf as [Heq <-].
    apply (ploop_iff _ (λ _, is_u16) put) in El as (new & -> & Hl & Hc & ->); [|intros _; apply u16_exact|done].
    injection Heq as <- <-. cbn. rewrite chain_all in Hc. split_and!; [lia|done|lia|done|].
    unfold put_versions, len. rewrite Hl, <- !app_assoc. done.
  - intros [(Hlt & Hi & Hn & Hvs) ->]. rewrite <- !app_assoc in *. eexists id, _. split_and!; [done|done|by eapply Forall_tail|].
    apply Forall_app in Hb as [_ Hb]. destruct (id <=? last_id offers) eqn:E; breflect; [lia|].
    rewrite (pbind_iff _ _ _ _ _ _ _ (bounded_count_exact MAX_VERSIONS ltac:(done)) Hb).
    eexists (length vs), _. split_and!; [done|done|by eapply Forall_tail|].
    apply Forall_app in Hb as [_ Hb]. unfold pbind.
    assert (ploop (length vs) (λ _, u16) [] (put_versions vs ++ rest) = Ok (vs, rest)) as ->; [|done].
    apply (ploop_iff _ (λ _, is_u16) put); [intros _; apply u16_exact|done|].
    exists vs. split_and!; [done|done|by apply chain_all|done].
Qed.

Definition versions_ok (c : Z * list Z) : Prop :=
  (∃ v vs, c.2 = v :: vs ∧ v ≠ 0) ∧ unsorted (λ v, v) c.2 = false.

(** What [Support::new] keeps: at most [MAX_CONTRACTS] contracts in strictly increasing
    id order, each with a non-empty, bounded, strictly increasing version list. *)
Definition wf_support (s : support) : Prop :=
  (length s <= MAX_CONTRACTS)%nat ∧ chain contract_ok [] s ∧ Forall versions_ok s.

Lemma btree_insert_last id vs (m : support) :
  Forall (λ c, c.1 < id) m → btree_insert id vs m = (m ++ [(id, vs)], false).
Proof.
  induction 1 as [|[k v] m Hk _ IH]; cbn in *; [done|].
  destruct (id <? k) eqn:E; breflect; [lia|]. destruct (id =? k) eqn:E2; breflect; [lia|]. by rewrite IH.
Qed.

Lemma last_id_snoc m c : last_id (m ++ [c]) = c.1.
Proof. unfold last_id. rewrite last_snoc. by destruct c. Qed.

Lemma new_loop_iff cs : ∀ m s,
  chain contract_ok m cs → Forall (λ c, c.1 <= last_id m) m → 0 <= last_id m →
  (length m + length cs <= MAX_CONTRACTS)%nat →
  new_loop cs m = Ok s ↔ s = m ++ cs ∧ Forall versions_ok cs.
Proof.
  induction cs as [|[id vs] cs IH]; intros m s Hc Hm H0 Hl; cbn [new_loop].
  { rewrite app_nil_r. split; [|naive_solver]. intros [= <-]. done. }
  destruct Hc as [(Hid & Hu & Hn & Hvs) Hc]. cbn [fst snd] in *. rewrite Forall_cons.
  assert (Hok : versions_ok (id, vs) ↔
    (id =? 0) || match vs with [] => true | v :: _ => v =? 0 end || unsorted (λ v, v) vs = false).
  { unfold versions_ok. cbn [snd]. rewrite !orb_false_iff, Z.eqb_neq. split.
    - intros [(v & l & -> & ?) ?]. split_and!; [lia|by apply Z.eqb_neq|done].
    - intros [[_ Hv] ?]. split; [|done]. destruct vs as [|v l]; [done|]. exists v, l. split; [done|]. by apply Z.eqb_neq. }
  destruct (_ || unsorted _ vs) eqn:E.
  { split; [done|]. intros (_ & Hv & _). apply Hok in Hv. congruence. }
  cbn in Hl. destruct (_ || (MAX_CONTRACTS <=? length m)%nat) eqn:E2.
  { apply orb_true_iff in E2 as [?|?]; breflect; lia. }
  rewrite btree_insert_last.
  2:{ eapply Forall_impl; [exact Hm|]. cbn. intros c ?. lia. }
  rewrite (IH (m ++ [(id, vs)]) s); [|done|rewrite last_id_snoc; cbn..|rewrite length_app; cbn; lia].
  - rewrite <- app_assoc. cbn. tauto.
  - rewrite Forall_app, Forall_singleton. split; [|cbn; lia].
    eapply Forall_impl; [exact Hm|]. cbn. intros c ?. lia.
  - lia.
Qed.

Lemma read_support_iff b s rest :
  Forall is_u8 b →
  read_support b = Ok (s, rest) ↔
  (length s <= MAX_CONTRACTS)%nat ∧ chain contract_ok [] s ∧ b = encode s ++ rest.
Proof.
  intros Hb. unfold read_support, encode. pstep format_exact.
  pose proof (bounded_count_exact MAX_CONTRACTS ltac:(done)) as Hcnt. split.
  - intros ([] & b1 & _ & -> & Hb1 & Hf). rewrite (pbind_iff _ _ _ _ _ _ _ Hcnt Hb1) in Hf.
    destruct Hf as (n & b2 & Hn & -> & Hb2 & Hf).
    apply (ploop_iff _ _ _ _ _ _ _ _ read_contract_exact Hb2) in Hf as (new & -> & Hl & Hc & ->). cbn.
    split_and!; [lia|done|]. unfold len. rewrite Hl, <- !app_assoc. done.
  - intros (Hn & Hc & ->). rewrite <- !app_assoc in *. eexists tt, _. split_and!; [done|done|by eapply Forall_tail|].
    apply Forall_tail in Hb. rewrite (pbind_iff _ _ _ _ _ _ _ Hcnt Hb).
    eexists (length s), _. split_and!; [done|done|by eapply Forall_tail|]. apply Forall_tail in Hb.
    apply (ploop_iff _ _ _ _ _ _ _ _ read_contract_exact Hb). by exists s.
Qed.

Lemma run_all_iff {A} (p : parser A) b a : run_all p b = Ok a ↔ p b = Ok (a, []).
Proof. unfold run_all. destruct (p b) as [[a' [|]]|]; naive_solver. Qed.

(** The service advertisement has one encoding.  [Support::decode] accepts a byte
    string exactly when it is the encoding of a well-formed advertisement, and returns
    that one; every other byte string, with trailing bytes, unordered or repeated ids,
    empty or unordered version lists or counts above the bounds, is refused. *)
Theorem support_encoding_exact b s :
  Forall is_u8 b → decode b = Ok s ↔ wf_support s ∧ encode s = b.
Proof.
  intros Hb. unfold decode, wf_support. split.
  - destruct (run_all read_support b) as [offers|] eqn:E; [|done].
    apply run_all_iff in E. apply read_support_iff in E as (Hn & Hc & ->); [|done].
    unfold new. intros [-> Hv]%new_loop_iff; [|done|done|done|done]. cbn. by rewrite app_nil_r.
  - intros [(Hn & Hc & Hv) <-].
    assert (run_all read_support (encode s) = Ok s) as ->.
    { apply run_all_iff, read_support_iff; [done|]. by rewrite app_nil_r. }
    by apply new_loop_iff.
Qed.

(** What the relay advertises. *)
Definition key_services : support := [(1, [1]); (2, [1])].

Lemma support_encoding_exact_witness :
  decode [0; 1; 0; 2; 0; 1; 0; 1; 0; 1; 0; 2; 0; 1; 0; 1] = Ok key_services ↔
  wf_support key_services ∧ encode key_services = [0; 1; 0; 2; 0; 1; 0; 1; 0; 1; 0; 2; 0; 1; 0; 1].
Proof. apply support_encoding_exact. by_eval. Defined.
End SupportProps.

(** ** Key package inventory *)

Module InventoryProps.
Import Inventory.

(** Nothing may be at or below the element before it. *)
Definition above {A} (key : A → bytes) (acc : list A) (x : A) : Prop :=
  match last acc with Some y => ¬ bytes_le (key x) (key y) | None => True end.

Lemma chain_sorted_after {A} (P : A → Prop) (key : A → bytes) l : ∀ acc y,
  last acc = Some y →
  chain (λ acc x, P x ∧ above key acc x) acc l ↔ Forall P l ∧ unsorted key (y :: l) = false.
Proof.
  induction l as [|x l IH]; intros acc y Hy; [done|].
  cbn [chain]. rewrite (IH (acc ++ [x]) x) by apply last_snoc. unfold above. rewrite Hy, Forall_cons.
  change (unsorted key (y :: x :: l)) with (bool_decide (bytes_le (key x) (key y)) || unsorted key (x :: l)).
  rewrite orb_false_iff, bool_decide_eq_false. tauto.
Qed.

Lemma chain_sorted {A} (P : A → Prop) (key : A → bytes) l :
  chain (λ acc x, P x ∧ above key acc x) [] l ↔ Forall P l ∧ unsorted key l = false.
Proof.
  destruct l as [|x l]; [done|]. cbn [chain app].
  rewrite (chain_sorted_after P key l [x] x) by done. rewrite Forall_cons. unfold above. cbn [last]. tauto.
Qed.

Lemma input_new_exact : exact input_new (λ _, True) (λ _, HEADER).
Proof.
  intros b [] rest Hb. unfold input_new, HEADER. pose proof (take_uint_exact 2) as Hu. split.
  - case_decide as Hm; [|done].
    assert (Hb2 : Forall is_u8 (drop 4 b)) by (apply (Forall_tail _ (take 4 b)); by rewrite take_drop).
    rewrite (pbind_iff _ _ _ _ _ _ _ Hu Hb2). intros (v & b' & _ & Hd & _ & Hf).
    destruct (v =? VERSION) eqn:E; breflect; [|done]. apply pret_iff in Hf as [_ <-]. subst v. split; [done|].
    rewrite <- (take_drop 4 b), Hm, Hd, <- app_assoc. done.
  - intros [_ ->]. rewrite <- app_assoc. change (take 4 (str "PZKI" ++ [0; 1] ++ rest)) with (str "PZKI").
    rewrite decide_True by done. change (drop 4 (str "PZKI" ++ [0; 1] ++ rest)) with ([0; 1] ++ rest).
    rewrite <- app_assoc in Hb. apply Forall_tail in Hb.
    rewrite (pbind_iff _ _ _ _ _ _ _ Hu Hb). exists 1, rest.
    refine (conj _ (conj _ (conj _ _))); [by_eval|done|by eapply Forall_tail|done].
Qed.

Lemma take_u8_exact : exact (take_uint 1) is_u8 (λ v, [v]).
Proof.
  intros b v rest Hb. rewrite (take_uint_exact 1 b v rest Hb). change (256 ^ Z.of_nat 1) with 256.
  unfold is_u8. assert (He : 0 <= v < 256 → be_bytes 1 v = [v]).
  { intros Hv. unfold be_bytes. change (256 ^ Z.of_nat 0) with 1. by rewrite Z.div_1_r, Z.mod_small. }
  split; (intros [Hv ->]; split; [done|]); by rewrite He.
Qed.

Lemma count_exact limit :
  Z.of_nat limit < 256 → exact (count limit) (λ n, (n <= limit)%nat) (λ n, [Z.of_nat n]).
Proof.
  intros Hlim b n rest Hb. unfold count. split.
  - intros Hf. pread take_u8_exact Hb Hf. destruct (_ >? _) eqn:E; breflect; [done|].
    apply pret_iff in Hf as [<- <-]. unfold is_u8 in *. split; [lia|]. by rewrite Z2Nat.id by lia.
  - intros [Hn ->]. assert (Hu : is_u8 (Z.of_nat n)) by (unfold is_u8; lia).
    pwrite take_u8_exact Hb (Z.of_nat n) Hu.
    rewrite Nat2Z.id. destruct (_ >? _) eqn:E; breflect; [lia|done].
Qed.

(** *** Requests *)

Definition typed_request (r : Request) : Prop :=
  wf_arr 32 (rq_owner r) ∧ wf_arr 32 (rq_delegate r) ∧ is_u64 (rq_timestamp r) ∧ wf_arr 64 (rq_signature r).

Lemma take_u64_exact : exact (take_uint 8) is_u64 (be_bytes 8).
Proof.
  intros b z rest Hb. rewrite (take_uint_exact 8 b z rest Hb). by rewrite u64_pow256.
Qed.

Lemma read_request_exact : exact read_request typed_request encode_request.
Proof.
  intros b r rest Hb. unfold read_request. split.
  - intros Hf. pread input_new_exact Hb Hf. pread (take_chunk_exact 32) Hb Hf. pread (take_chunk_exact 32) Hb Hf.
    pread take_u64_exact Hb Hf. pread (take_chunk_exact 64) Hb Hf. apply pret_iff in Hf as [<- <-].
    split; [done|]. unfold encode_request. cbn. by rewrite app_nil_r, <- !app_assoc.
  - intros [(Ho & Hd & Ht & Hg) ->]. unfold encode_request in *. cbn [List.concat] in *.
    rewrite app_nil_r, <- !app_assoc in *. destruct r as [o d t g]; cbn in *.
    pwrite input_new_exact Hb tt I. pwrite (take_chunk_exact 32) Hb o Ho. pwrite (take_chunk_exact 32) Hb d Hd.
    pwrite take_u64_exact Hb t Ht. pwrite (take_chunk_exact 64) Hb g Hg. done.
Qed.

Lemma encode_request_length r : typed_request r → length (encode_request r) = REQUEST_BYTES.
Proof.
  intros ([Ho _] & [Hd _] & _ & [Hg _]). unfold encode_request. cbn [List.concat].
  rewrite !length_app, Ho, Hd, Hg, length_be_bytes. done.
Qed.

(** *** Snapshots and homes *)

Definition snapshot_ok (s : option Snapshot) : Prop :=
  match s with
  | None => True
  | Some s => is_u64 (observed_at_ms s) ∧ (length (references s) <= MAX_REFERENCES)%nat ∧
              Forall (wf_arr 32) (references s) ∧ unsorted (λ r, r) (references s) = false
  end.

Definition snapshot_bytes (s : option Snapshot) : bytes :=
  match encode_snapshot s with Ok b => b | Err _ => [] end.

Lemma encode_snapshot_ok s : snapshot_ok s → encode_snapshot s = Ok (snapshot_bytes s).
Proof.
  unfold snapshot_bytes. destruct s as [s|]; [|done]. intros (_ & Hl & _ & Hs). unfold encode_snapshot.
  destruct (_ <? _)%nat eqn:E; breflect; [lia|]. by rewrite Hs.
Qed.

Lemma read_reference_exact acc :
  exact (read_reference acc) (λ r, wf_arr 32 r ∧ above (λ r, r) acc r) (λ r, r).
Proof.
  intros b r rest Hb. unfold read_reference, above. split.
  - intros Hf. pread (take_chunk_exact 32) Hb Hf.
    destruct (last acc) as [p|]; [case_decide; [done|]|]; apply pret_iff in Hf as [<- <-]; done.
  - intros [[Hr Ha] ->]. pwrite (take_chunk_exact 32) Hb r Hr.
    destruct (last acc) as [p|]; [by rewrite decide_False|done].
Qed.


Definition refs_count_exact := count_exact MAX_REFERENCES eq_refl.
Definition homes_count_exact := count_exact MAX_HOMES eq_refl.

Lemma u8_01 : is_u8 0 ∧ is_u8 1.
Proof. split; by_eval. Qed.

Lemma read_snapshot_exact : exact read_snapshot snapshot_ok snapshot_bytes.
Proof.
  intros b s rest Hb. unfold read_snapshot. split.
  - intros Hf. pread take_u8_exact Hb Hf. destruct (_ =? 0) eqn:E0; breflect.
    { apply pret_iff in Hf as [<- <-]. by subst. }
    destruct (_ =? 1) eqn:E1; breflect; [|done]. subst. pread take_u64_exact Hb Hf.
    pread refs_count_exact Hb Hf. unfold pbind in Hf.
    destruct (ploop _ _ _ _) as [[refs r]|] eqn:El; [|done]. apply pret_iff in Hf as [<- <-].
    apply (ploop_iff _ _ _ _ _ _ _ _ read_reference_exact Hb) in El as (new & -> & Hl & Hc & ->).
    apply chain_sorted in Hc as [Hw Hs]. assert (snapshot_ok (Some (mkSnapshot x ([] ++ new)))) as Hok.
    { split_and!; [done|cbn; lia|done|done]. }
    split; [done|]. apply encode_snapshot_ok in Hok. unfold snapshot_bytes, encode_snapshot in *.
    split_ifs; [done..|]. cbn. unfold len. rewrite Hl, list_fmap_id, <- !app_assoc. done.
  - intros [Hok ->]. pose proof (encode_snapshot_ok s Hok) as He. unfold snapshot_bytes, encode_snapshot in *.
    destruct s as [[t refs]|]; [|by pwrite take_u8_exact Hb 0 (proj1 u8_01)].
    destruct Hok as (Ht & Hl & Hw & Hs). cbn [observed_at_ms references] in *. split_ifs; [done..|].
    rewrite <- !app_assoc in *. pwrite take_u8_exact Hb 1 (proj2 u8_01). cbn [Z.eqb Pos.eqb].
    pwrite take_u64_exact Hb t Ht. pwrite refs_count_exact Hb (length refs) Hl.
    unfold pbind. assert (ploop (length refs) read_reference [] (mjoin refs ++ rest) = Ok (refs, rest)) as ->; [|done].
    apply (ploop_iff _ _ _ _ _ _ _ _ read_reference_exact Hb). exists refs. rewrite list_fmap_id.
    split_and!; [done|done|by apply chain_sorted|done].
Qed.

Definition home_ok (h : Home) : Prop := wf_arr 32 (node h) ∧ snapshot_ok (snapshot h).

Definition home_bytes (h : Home) : bytes := node h ++ snapshot_bytes (snapshot h).

Lemma read_home_exact acc : exact (read_home acc) (λ h, home_ok h ∧ above node acc h) home_bytes.
Proof.
  intros b h rest Hb. unfold read_home, above, home_ok, home_bytes. split.
  - intros Hf. pread (take_chunk_exact 32) Hb Hf. 
    destruct (match last acc with Some h => bool_decide (bytes_le x (node h)) | None => false end) eqn:E; [done|].
    pread read_snapshot_exact Hb Hf. apply pret_iff in Hf as [<- <-]. cbn. rewrite <- app_assoc.
    split; [|done]. split; [done|]. destruct (last acc); [|done]. by apply bool_decide_eq_false in E.
  - intros [[[Hn Hs] Ha] ->]. destruct h as [n s]; cbn in *. rewrite <- app_assoc in *.
    pwrite (take_chunk_exact 32) Hb n Hn.
    assert (match last acc with Some h => bool_decide (bytes_le n (node h)) | None => false end = false) as ->.
    { destruct (last acc); [|done]. by apply bool_decide_eq_false. }
    by pwrite read_snapshot_exact Hb s Hs.
Qed.

Lemma encode_homes_ok l : Forall home_ok l → encode_homes l = Ok (mjoin (home_bytes <$> l)).
Proof.
  induction 1 as [|h l [_ Hs] _ IH]; [done|]. cbn. rewrite (encode_snapshot_ok _ Hs), IH.
  unfold home_bytes. by rewrite <- app_assoc.
Qed.

(** *** Inventories *)

Definition typed_inventory (i : Inventory) : Prop :=
  wf_arr 32 (inv_owner i) ∧ is_u64 (request_timestamp i) ∧
  Forall (λ h, wf_arr 32 (node h) ∧
               match snapshot h with
               | Some s => is_u64 (observed_at_ms s) ∧ Forall (wf_arr 32) (references s)
               | None => True
               end) (homes i).

Lemma encode_snapshot_inv s b :
  match s with
  | Some s => is_u64 (observed_at_ms s) ∧ Forall (wf_arr 32) (references s)
  | None => True
  end → encode_snapshot s = Ok b → snapshot_ok s.
Proof.
  destruct s as [s|]; [|done]. unfold encode_snapshot. intros [Ht Hw]. split_ifs; [done..|]. breflect. done.
Qed.

Lemma encode_homes_inv l : ∀ b,
  Forall (λ h, wf_arr 32 (node h) ∧
               match snapshot h with
               | Some s => is_u64 (observed_at_ms s) ∧ Forall (wf_arr 32) (references s)
               | None => True
               end) l →
  encode_homes l = Ok b → Forall home_ok l ∧ b = mjoin (home_bytes <$> l).
Proof.
  induction l as [|h l IH]; intros b Hl He; [split; [done|]; by injection He|].
  apply Forall_cons in Hl as [[Hn Hs] Hl]. cbn in He.
  destruct (encode_snapshot (snapshot h)) as [sb|] eqn:Es; [|done].
  destruct (encode_homes l) as [rest|] eqn:Er; [|done]. injection He as <-.
  destruct (IH rest Hl eq_refl) as [Hok ->]. pose proof (encode_snapshot_inv _ _ Hs Es) as Hsok.
  split; [by constructor|]. cbn. unfold home_bytes. rewrite (encode_snapshot_ok _ Hsok) in Es.
  injection Es as <-. by rewrite <- app_assoc.
Qed.

(** What an accepted inventory is. *)
Definition inventory_ok (i : Inventory) : Prop :=
  wf_arr 32 (inv_owner i) ∧ is_u64 (request_timestamp i) ∧
  homes i ≠ [] ∧ (length (homes i) <= MAX_HOMES)%nat ∧
  Forall home_ok (homes i) ∧ unsorted node (homes i) = false.

Definition inventory_bytes (i : Inventory) : bytes :=
  HEADER ++ inv_owner i ++ be_bytes 8 (request_timestamp i) ++ [len (homes i)] ++ mjoin (home_bytes <$> homes i).

Lemma encode_iff i b :
  typed_inventory i ∧ encode i = Ok b ↔ inventory_ok i ∧ b = inventory_bytes i.
Proof.
  unfold encode, inventory_ok, typed_inventory. split.
  - intros [(Ho & Ht & Hh) He]. destruct (_ || _) eqn:E1; [done|]. destruct (unsorted _ _) eqn:E2; [done|].
    breflect. destruct (encode_homes (homes i)) as [hs|] eqn:E3; [|done]. injection He as <-.
    destruct (encode_homes_inv _ _ Hh E3) as [Hok ->]. done.
  - intros [(Ho & Ht & Hne & Hl & Hok & Hs) ->]. split.
    + split_and!; [done..|]. eapply Forall_impl; [exact Hok|]. intros h [Hn Hsn]. split; [done|].
      destruct (snapshot h); [|done]. by destruct Hsn as (? & _ & ? & _).
    + rewrite bool_decide_eq_false_2 by done. cbn [orb]. destruct (_ <? _)%nat eqn:E; breflect; [lia|].
      by rewrite Hs, (encode_homes_ok _ Hok).
Qed.

Lemma read_inventory_exact : exact read_inventory inventory_ok inventory_bytes.
Proof.
  intros b i rest Hb. unfold read_inventory, inventory_bytes. split.
  - intros Hf. pread input_new_exact Hb Hf. pread (take_chunk_exact 32) Hb Hf. pread take_u64_exact Hb Hf.
    pread homes_count_exact Hb Hf. destruct (_ =? 0)%nat eqn:E; [done|]. breflect. unfold pbind in Hf.
    destruct (ploop _ _ _ _) as [[hs r]|] eqn:El; [|done]. apply pret_iff in Hf as [<- <-].
    apply (ploop_iff _ _ _ _ _ _ _ _ read_home_exact Hb) in El as (new & -> & Hl & Hc & ->).
    apply chain_sorted in Hc as [Hok Hs]. cbn. unfold len. rewrite Hl, <- !app_assoc. split; [|done].
    split_and!; [done|done|by destruct new|cbn; lia|done|done].
  - intros [(Ho & Ht & Hne & Hl & Hok & Hs) ->]. destruct i as [o t hs]. cbn [inv_owner request_timestamp homes] in *.
    rewrite <- !app_assoc in *. pwrite input_new_exact Hb tt I. pwrite (take_chunk_exact 32) Hb o Ho. pwrite take_u64_exact Hb t Ht.
    pwrite homes_count_exact Hb (length hs) Hl. destruct (_ =? 0)%nat eqn:E; breflect; [by destruct hs|].
    unfold pbind. assert (ploop (length hs) read_home [] (mjoin (home_bytes <$> hs) ++ rest) = Ok (hs, rest)) as ->; [|done].
    apply (ploop_iff _ _ _ _ _ _ _ _ read_home_exact Hb). exists hs. split_and!; [done|done|by apply chain_sorted|done].
Qed.

(** The writer stays within the reader's size limit. *)
Lemma mjoin_bound {A} (f : A → bytes) l n :
  0 <= n → Forall (λ x, len (f x) <= n) l → len (mjoin (f <$> l)) <= len l * n.
Proof.
  intros Hn. induction 1 as [|x l Hx _ IH]; [done|]. cbn [fmap list_fmap mjoin list_join].
  rewrite len_app, len_cons. etrans; [apply Z.add_le_mono; [exact Hx|exact IH]|lia].
Qed.

Lemma home_bytes_bound h : home_ok h → len (home_bytes h) <= 32 + 1 + 8 + 1 + 100 * 32.
Proof.
  intros [[Hn _] Hs]. unfold home_bytes, len at 1. rewrite length_app, Hn.
  unfold snapshot_bytes, encode_snapshot.
  destruct (snapshot h) as [s|]; [|cbn; lia]. destruct Hs as (_ & Hl & Hw & Hu). destruct (_ <? _)%nat eqn:E; breflect; [lia|]. rewrite Hu.
  rewrite !length_app, length_be_bytes.
  pose proof (mjoin_bound (λ r, r) (references s) 32 ltac:(lia)) as Hb. rewrite list_fmap_id in Hb.
  unfold MAX_REFERENCES in Hl. unfold len in Hb. cbn [length].
  enough (Z.of_nat (length (mjoin (references s))) <= Z.of_nat (length (references s)) * 32) by lia.
  apply Hb. eapply Forall_impl; [exact Hw|]. cbn. intros r [-> _]. lia.
Qed.

Lemma inventory_bytes_bound i : inventory_ok i → len (inventory_bytes i) <= MAX_RESPONSE_BYTES.
Proof.
  intros ([Ho _] & _ & _ & Hl & Hok & _). unfold inventory_bytes, MAX_RESPONSE_BYTES.
  rewrite !len_app. unfold len at 1 2 3 4. rewrite Ho, length_be_bytes. cbn [length HEADER].
  pose proof (mjoin_bound home_bytes (homes i) (32 + 1 + 8 + 1 + 100 * 32) ltac:(lia)) as Hb.
  assert (len (mjoin (home_bytes <$> homes i)) <= len (homes i) * (32 + 1 + 8 + 1 + 100 * 32)) as Hm.
  { apply Hb. eapply Forall_impl; [exact Hok|]. apply home_bytes_bound. }
  assert (len (homes i) <= 4) by (unfold len, MAX_HOMES in *; lia).
  change (length HEADER) with 6%nat. lia.
Qed.

(** The inventory wire format is exact.  [Inventory::decode] accepts a byte string
    exactly when [Inventory::encode] produces it, and returns the encoded value: reading
    inverts writing, every accepted string has one writer, and what the writer emits
    always fits the reader's size limit.  The same holds of requests. *)
Theorem inventory_encoding_exact b i r :
  Forall is_u8 b →
  (decode b = Ok i ↔ typed_inventory i ∧ encode i = Ok b) ∧
  (decode_request b = Ok r ↔ typed_request r ∧ encode_request r = b).
Proof.
  intros Hb. split.
  - rewrite encode_iff. unfold decode. split.
    + destruct (_ >? _); [done|]. intros Hf%SupportProps.run_all_iff.
      apply read_inventory_exact in Hf as [? ->]; [|done]. by rewrite app_nil_r.
    + intros [Hok ->]. pose proof (inventory_bytes_bound i Hok). destruct (_ >? _) eqn:E; breflect; [lia|].
      apply SupportProps.run_all_iff, read_inventory_exact; [done|]. by rewrite app_nil_r.
  - unfold decode_request. split.
    + case_decide as Hl; [done|]. destruct (read_request b) as [[r' rest]|] eqn:E; [|done]. intros [= ->].
      apply read_request_exact in E as [Hok ->]; [|done]. split; [done|].
      rewrite length_app, encode_request_length in Hl by done. destruct rest; [by rewrite app_nil_r|cbn in Hl; lia].
    + intros [Hok <-]. rewrite decide_False by (rewrite encode_request_length; auto).
      assert (read_request (encode_request r) = Ok (r, [])) as ->; [|done].
      apply read_request_exact; [done|]. by rewrite app_nil_r.
Qed.

(** One home with two references. *)
Definition an_inventory : Inventory :=
  mkInventory (replicate 32 1) 7
    [mkHome (replicate 32 2) (Some (mkSnapshot 9 [replicate 32 3; replicate 32 4])); mkHome (replicate 32 5) None].
Definition a_request : Request := mkRequest (replicate 32 1) (replicate 32 2) 7 (replicate 64 9).

Lemma inventory_encoding_exact_witness :
  (decode (inventory_bytes an_inventory) = Ok an_inventory ↔
   typed_inventory an_inventory ∧ encode an_inventory = Ok (inventory_bytes an_inventory)) ∧
  (decode_request (inventory_bytes an_inventory) = Ok a_request ↔
   typed_request a_request ∧ encode_request a_request = inventory_bytes an_inventory).
Proof. apply inventory_encoding_exact. by_eval. Defined.
End InventoryProps.
