(* ===== verification/Dht.v ===== *)
(** * Dht: the state of a relay in the DHT and the requests it serves as a home

    [relay/src/dht/mod.rs], [handler.rs], [home.rs], [queue_drain.rs],
    [push_replication.rs] and [mls/]: every [DhtRequest] and the handler that answers
    it.  A handler maps the relay's state to its next state and an answer.  What it
    learns from outside is an argument ([Env]): whether a rate limiter admits the
    request, whether the persist barrier succeeds, whether a connected client takes a
    packet or acknowledges a live delivery, what another relay answers to a nested
    request and the clock that request is stamped with. *)

From S2P Require Import Prelude Bytes Crypto Proto MlsWire Keyspace Store Routing Queue KeyPackages Contracts.

(** ** Requests and answers ([common/src/proto/dht_p2p.rs]) *)

Record FindNode := mkFindNode { fn_target : bytes; fn_requester : bytes }.
Record QueueFetchResp := mkQueueFetchResp { messages : list DispatchP; exhausted : bool }.

Inductive DhtRequest :=
| RqServiceCapabilities
| RqKeyPackageInventory (request : bytes)
| RqFindNode (f : FindNode)
| RqForward (f : Forward)
| RqActivityForward (a : ActivityP)
| RqPresenceConsent (c : PresenceConsent)
| RqPresenceState (r : RelayPresenceState)
| RqPresenceLease (l : PresenceLease)
| RqLiveForward (f : LiveForward)
| RqPushPseudonymPublish (p : PushPseudonymPublish)
| RqQueueFetch (q : QueueFetch)
| RqQueueFetchAck (q : QueueFetchAck)
| RqKeyPackagePublish (r : KeyPackagePublishReq)
| RqKeyPackageFetch (r : KeyPackageFetchReq)
| RqWelcomePublish (r : WelcomePublishReq)
| RqWelcomeFetch (r : WelcomeFetchReq)
| RqWelcomeAck (r : WelcomeAckReq).

Inductive DhtResponse :=
| RsServiceCapabilities (supported : bytes)
| RsKeyPackageInventory (inventory : bytes)
| RsFindNode (closer : list NodeDescriptor)
| RsForward (outcome : ForwardOutcome)
| RsActivityForward (delivered : bool)
| RsPresence (accepted : bool)
| RsLiveForward (delivered : bool)
| RsPushPseudonymPublish (accepted : bool)
| RsQueueFetch (r : QueueFetchResp)
| RsQueueFetchAck (ok : bool)
| RsKeyPackagePublish (outcome : KeyPackagePublishOutcome)
| RsKeyPackageFetch (outcome : KeyPackageFetchOutcome)
| RsWelcomePublish (outcome : WelcomePublishOutcome)
| RsWelcomeFetch (outcome : WelcomeFetchOutcome)
| RsWelcomeAck (ok : bool).

(** ** Rate limiting ([rate_limit.rs]) *)

Inductive RpcClass := Cheap | Expensive | Bulk.

(** [RpcClass::for_request] *)
Definition for_request (req : DhtRequest) : RpcClass :=
  match req with
  | RqFindNode _ | RqServiceCapabilities => Cheap
  | RqQueueFetchAck _ | RqForward _ | RqActivityForward _ | RqPresenceConsent _ | RqPresenceState _
  | RqPresenceLease _ | RqLiveForward _ | RqPushPseudonymPublish _ | RqQueueFetch _
  | RqKeyPackagePublish _ | RqKeyPackageFetch _ | RqKeyPackageInventory _ => Expensive
  | RqWelcomePublish _ | RqWelcomeFetch _ | RqWelcomeAck _ => Bulk
  end.

(** The stored forms. *)
Class RelayCodecs := {
  rc_queue :: QueueCodecs;
  rc_lease :: Codec PresenceLease;
  rc_push :: Codec PushPseudonymPublish;
  rc_kp :: Codec KeyPackageRecord;
  rc_welcome :: Codec WelcomeEnvelopeP;
}.

(** ** State *)

Section dht.
Context `{Crypto} `{RelayCodecs} {KS : Type} `{Keyspace KS}.

(** [Dht]: what the handlers read and write of it.  [clients] are the connected users,
    each with the stable id of its connection, [peer_conns] the keys proved on live
    connections, [wakes_sent] the wakes triggered. *)
Record Dht := mkDht {
  routing : RoutingTable;
  store : Store KS;
  peer_conns : gmap bytes bytes;
  node_id : bytes;
  signing_key : bytes;
  clients : gmap bytes Z;
  presence_leases : gmap bytes PresenceLease;
  wakes_sent : list (bytes * Wake);
}.

Definition set_store (d : Dht) (s : Store KS) : Dht :=
  mkDht (routing d) s (peer_conns d) (node_id d) (signing_key d) (clients d) (presence_leases d) (wakes_sent d).

Definition set_routing (d : Dht) (t : RoutingTable) : Dht :=
  mkDht t (store d) (peer_conns d) (node_id d) (signing_key d) (clients d) (presence_leases d) (wakes_sent d).

Record Env := mkEnv {
  admit_ok : bool;
  durable : bool;
  deliver : bytes → DeliverP → bool;
  push_ok : bytes → bool;
  nested_rpc : NodeDescriptor → DhtRequest → option DhtResponse;
  in_time : bool;
  wake_ok : bool;
  clock : Z;
}.

(** [clients.contains_key] *)
Definition online (d : Dht) (ipk : bytes) : bool := bool_decide (is_Some (clients d !! ipk)).

(** [homes(dht, target)] *)
Definition dht_homes (d : Dht) (target : bytes) : list NodeDescriptor * bool :=
  homes (routing d) (node_id d) target.

(** [Dht::trigger_wake]: a wake goes out for a registered recipient while the endpoint,
    the wake quota and the gateway directory allow it ([wake_ok]). *)
Definition trigger_wake (e : Env) (d : Dht) (recipient : bytes) (class : Wake) : Dht :=
  match get_push_pseudonym (store d) recipient with
  | Some pseudonym =>
      if wake_ok e
      then mkDht (routing d) (store d) (peer_conns d) (node_id d) (signing_key d) (clients d)
             (presence_leases d) ((pseudonym, class) :: wakes_sent d)
      else d
  | None => d
  end.

(** ** Home side of forwarding ([home.rs]) *)

(** [resolve_sender_pubkey]: an all-zero key is unknown. *)
Definition resolve_sender_pubkey (d : Dht) (sender_relay_id : bytes) : option bytes :=
  let known pk := bool_decide (pk ≠ replicate 32 0) in
  match get (routing d) sender_relay_id with
  | Some e => if known (re_pubkey e) then Some (re_pubkey e)
              else pk ← peer_conns d !! sender_relay_id; if known pk then Some pk else None
  | None => pk ← peer_conns d !! sender_relay_id; if known pk then Some pk else None
  end.

(** [is_primary_home] *)
Definition is_primary_home (d : Dht) (recipient : bytes) : bool :=
  match closest (routing d) recipient 1 with
  | [] => true
  | peer :: _ => bool_decide (bytes_lt (xor32 (node_id d) recipient) (xor32 (re_id peer) recipient))
  end.

(** [forward_via_active_lease], which reads the clock itself. *)
Definition forward_via_active_lease (e : Env) (d : Dht) (dispatch : DispatchP) (lease : PresenceLease)
    : bool :=
  let now := clock e in
  match get (routing d) (le_relay_id lease) with
  | None => false
  | Some entry =>
      let sig := sign (signing_key d) (live_forward_signing_input (d_id dispatch) lease (node_id d) now) in
      match nested_rpc e (descriptor entry)
              (RqLiveForward (mkLiveForward dispatch lease (node_id d) now sig)) with
      | Some (RsLiveForward true) => true
      | _ => false
      end
  end.

(** The stored lease of a user, if it verifies. *)
Definition active_lease (d : Dht) (user : bytes) (now_ms : Z) : option PresenceLease :=
  lease ← get_presence_lease (store d) user; if lease_verify lease now_ms then Some lease else None.

(** [handle_activity_forward_rpc] *)
Definition handle_activity_forward_rpc (e : Env) (d : Dht) (activity : ActivityP) (now_ms : Z) : bool :=
  if negb (activity_is_authentic activity now_ms) then false
  else online d (ac_to activity) && push_ok e (ac_to activity).

(** [handle_presence_consent_rpc] *)
Definition handle_presence_consent_rpc (d : Dht) (consent : PresenceConsent) (now_ms : Z) : Dht * bool :=
  if negb (consent_verify consent now_ms) then (d, false)
  else let '(s, r) := put_presence_consent (store d) consent in (set_store d s, default false r).

(** [handle_presence_state_rpc]; the push to a connected recipient changes nothing here. *)
Definition handle_presence_state_rpc (d : Dht) (record : RelayPresenceState) (authenticated_relay : bytes)
    (now_ms : Z) : Dht * bool :=
  if negb (relay_presence_verify record authenticated_relay now_ms)
     || negb (has_presence_consent (store d) (rp_who record) (rp_recipient record)) then (d, false)
  else
    let '(s, r) := put_presence_state (store d) (rp_recipient record) (rp_who record) (rp_state record)
                     (rp_version record) (rp_observed_at_ms record) (le_expires_at_ms (rp_lease record)) in
    (set_store d s, bool_decide (is_Some r)).

(** [handle_presence_lease_rpc] *)
Definition handle_presence_lease_rpc (d : Dht) (lease : PresenceLease) (authenticated_relay : bytes)
    (now_ms : Z) : Dht * bool :=
  if bool_decide (le_relay_id lease ≠ authenticated_relay) || negb (lease_verify lease now_ms) then (d, false)
  else let '(s, r) := put_presence_lease (store d) lease in (set_store d s, default false r).

(** [handle_live_forward_rpc] *)
Definition handle_live_forward_rpc (e : Env) (d : Dht) (f : LiveForward) (authenticated_relay : bytes)
    (now_ms : Z) : bool :=
  let dispatch := lf_dispatch f in
  let lease := lf_lease f in
  if bool_decide (d_to dispatch ≠ le_user lease)
     || bool_decide (lf_sender_relay_id f ≠ authenticated_relay)
     || bool_decide (le_relay_id lease ≠ node_id d)
     || negb (lease_verify lease now_ms)
     || (abs_diff now_ms (lf_timestamp f) >? MAX_DHT_HELLO_SKEW_MS)
     || negb (verify_dispatch_user_sig dispatch)
     || bool_decide (presence_leases d !! le_user lease ≠ Some lease) then false
  else
    match resolve_sender_pubkey d (lf_sender_relay_id f) with
    | None => false
    | Some pk =>
        if negb (verify_ed25519 pk
                   (live_forward_signing_input (d_id dispatch) lease (lf_sender_relay_id f) (lf_timestamp f))
                   (lf_sig f)) then false
        else online d (d_to dispatch) && deliver e (d_to dispatch) (dispatch_to_deliver dispatch)
    end.

(** The live half of [handle_forward_rpc], cut off by [FORWARD_LIVE_DELIVERY_MS]. *)
Definition deliver_live (e : Env) (d : Dht) (dispatch : DispatchP) (now_ms : Z) : bool :=
  in_time e &&
  ((online d (d_to dispatch) && deliver e (d_to dispatch) (dispatch_to_deliver dispatch))
   || (is_primary_home d (d_to dispatch) &&
       match active_lease d (d_to dispatch) now_ms with
       | Some lease => forward_via_active_lease e d dispatch lease
       | None => false
       end)).

(** [handle_forward_rpc] *)
Definition handle_forward_rpc (e : Env) (d : Dht) (fwd : Forward) (now_ms : Z) : Dht * ForwardOutcome :=
  match resolve_sender_pubkey d (fw_sender_relay_id fwd) with
  | None => (d, BadSig)
  | Some sender_pubkey =>
      if negb (is_ok (forward_verify fwd sender_pubkey now_ms)) then (d, BadSig)
      else
        let dispatch := fw_dispatch fwd in
        let recipient_ipk := d_to dispatch in
        if negb (dht_homes d recipient_ipk).2 then (d, NotOwner)
        else if negb (verify_dispatch_user_sig dispatch) then (d, BadSig)
        else if deliver_live e d dispatch now_ms then (d, Proto.Delivered)
        else
          let '(s, outcome) := enqueue_for_home (store d) recipient_ipk dispatch now_ms in
          let d' := set_store d s in
          if decide (outcome = Stored) then
            if negb (durable e) then (d', BadSig)
            else ((if wakes (d_wake dispatch) then trigger_wake e d' recipient_ipk (d_wake dispatch) else d'),
                  outcome)
          else (d', outcome)
  end.

(** ** Queues ([queue_drain.rs]) *)

(** [handle_queue_fetch_rpc] *)
Definition handle_queue_fetch_rpc (d : Dht) (req : QueueFetch) (authenticated_peer_id : bytes) (now_ms : Z)
    : Dht * QueueFetchResp :=
  let refused := mkQueueFetchResp [] true in
  if bool_decide (qf_requester_relay_id req ≠ authenticated_peer_id) then (d, refused)
  else if negb (is_ok (queue_fetch_verify req now_ms)) then (d, refused)
  else if negb (dht_homes d (qf_user_ipk req)).2 then (d, refused)
  else
    let '(s, (batch, exhausted)) :=
      queue_batch_for_user (store d) (qf_user_ipk req) (Z.of_nat MAX_FETCH_QUEUE_BATCH) now_ms in
    (set_store d s, mkQueueFetchResp (map snd batch) exhausted).

(** [handle_queue_fetch_ack_rpc] *)
Definition handle_queue_fetch_ack_rpc (d : Dht) (req : QueueFetchAck) (authenticated_peer_id : bytes)
    (now_ms : Z) : Dht * bool :=
  if bool_decide (qa_requester_relay_id req ≠ authenticated_peer_id) then (d, false)
  else if negb (is_ok (queue_fetch_ack_verify req now_ms)) then (d, false)
  else let '(s, _) := delete_queue_entries (store d) (qa_user_ipk req) (qa_delivered_ids req) in
       (set_store d s, true).

(** ** Push pseudonyms ([push_replication.rs]) *)

(** [handle_publish] *)
Definition handle_push_publish (d : Dht) (publish : PushPseudonymPublish) (now_ms : Z) : Dht * bool :=
  if negb (valid_publish publish now_ms) || negb (dht_homes d (pp_user_ipk publish)).2 then (d, false)
  else match put_push_pseudonym (store d) (pp_user_ipk publish) (pp_pseudonym publish) now_ms with
       | Some s => (set_store d s, true)
       | None => (d, false)
       end.
End dht.
