(* ===== verification/Mls.v ===== *)
(** * Mls: the key package and welcome stashes at their homes, and the dispatcher

    [relay/src/dht/mls/mod.rs], [kp.rs], [welcome.rs], [inventory.rs]: the admission of
    the stash requests, their handlers, and [handle_dht_request] of
    [relay/src/dht/handler.rs], which routes every request to its handler. *)

From S2P Require Import Prelude Bytes Crypto Proto MlsWire Keyspace Store Routing Queue KeyPackages Contracts Dht.

Inductive Reject := RBinding | RSkew | RRateLimited | RNotOwner.

Inductive KeyPackageVerifyError := KvMalformed | KvBadSig | KvExpired.
Inductive WelcomeVerifyError := WvMalformed | WvBadSig.

Definition KP_REF_LEN : nat := 32.
Definition STASH_PREFIX_LEN : nat := 32.
Definition STORAGE_KEY_LEN : nat := STASH_PREFIX_LEN + WELCOME_ID_LEN.
Definition MAX_WELCOMES_PER_SENDER : nat := 4.
Definition WELCOME_FETCH_MAX_BYTES : Z := MAX_FRAME_BYTES - 64 * 1024.

Section mls.
Context `{Crypto} `{RelayCodecs} {KS : Type} `{Keyspace KS}.
Local Abbreviation dht := (Dht (KS := KS)).
Implicit Types (d : dht) (e : Env).

(** [stash_gate]; the limiter is spent only on a fresh request. *)
Definition stash_gate e d (peer : bytes) (requester : option bytes) (timestamp now_ms : Z) (stash : bytes)
    : result unit Reject :=
  if match requester with Some r => bool_decide (r ≠ peer) | None => false end then Err RBinding
  else if abs_diff now_ms timestamp >? MAX_KP_SKEW_MS then Err RSkew
  else if negb (admit_ok e) then Err RRateLimited
  else if negb (dht_homes d stash).2 then Err RNotOwner
  else Ok tt.

(** ** Key packages ([kp.rs]) *)

(** [verify_record] *)
Definition verify_record (rec : KeyPackageRecord) (now_ms : Z) : result unit KeyPackageVerifyError :=
  if decide (length (kp_ref rec) ≠ KP_REF_LEN) then Err KvMalformed
  else if decide (kp_bytes rec = []) then Err KvMalformed
  else if negb (verify_ed25519 (kp_ipk rec)
                  (kp_record_signing_input MLS_WIRE_VERSION (kp_ipk rec) (kp_ref rec) (kp_bytes rec)
                     (kp_expires_at_ms rec)) (kp_owner_sig rec)) then Err KvBadSig
  else if kp_expires_at_ms rec <=? now_ms then Err KvExpired
  else if kp_expires_at_ms rec >? sat_add (sat_add now_ms KEYPACKAGE_LIFETIME_MS) MAX_KP_SKEW_MS
    then Err KvMalformed
  else Ok tt.

(** [verify_outer_sig] *)
Definition verify_outer_sig (publisher_ipk outer_sig : bytes) (records : list KeyPackageRecord)
    (timestamp now_ms : Z) : bool :=
  if abs_diff now_ms timestamp >? MAX_KP_SKEW_MS then false
  else verify_ed25519 publisher_ipk
         (kp_publish_signing_input MLS_WIRE_VERSION publisher_ipk
            (kp_publish_records_digest MLS_WIRE_VERSION records) (len records) timestamp) outer_sig.

(** [pop_selector] *)
Definition pop_selector (requester target_ipk : bytes) : bytes := NodeId_new (requester ++ target_ipk).

(** [compute_static_hash] *)
Definition compute_static_hash (rec : KeyPackageRecord) : bytes :=
  NodeId_new (kp_ipk rec ++ kp_ref rec ++ NodeId_new (kp_bytes rec)).

(** [dht.store.key_packages] *)
Definition kp_store d : KeyPackages KS :=
  mkKeyPackages (space (store d) KsKpRecords) (space (store d) KsKpSpent).

Definition set_kp_store d (k : KeyPackages KS) : dht :=
  set_store d (set_space (set_space (store d) KsKpRecords (records k)) KsKpSpent (spent k)).

(** The per-record loop of [handle_keypackage_publish]. *)
Fixpoint verify_records (ipk : bytes) (records : list KeyPackageRecord) (now_ms : Z)
    : option KeyPackagePublishOutcome :=
  match records with
  | [] => None
  | rec :: records' =>
      if decide (kp_ipk rec ≠ ipk) then Some KpBadSig
      else match verify_record rec now_ms with
           | Ok _ => verify_records ipk records' now_ms
           | Err KvExpired => Some KpExpired
           | Err _ => Some KpBadSig
           end
  end.

(** [handle_keypackage_publish] *)
Definition handle_keypackage_publish e d (r : KeyPackagePublishReq) (now_ms : Z)
    : dht * KeyPackagePublishOutcome :=
  let ipk := kpp_ipk r in
  let records := kpp_records r in
  if (KP_STASH_TARGET <? length records)%nat then (d, KpTooMany)
  else if negb (verify_outer_sig ipk (kpp_sig r) records (kpp_timestamp r) now_ms) then (d, KpBadSig)
  else if negb (dht_homes d (key_package_stash_prefix ipk)).2 then (d, KpNotOwner)
  else match verify_records ipk records now_ms with
       | Some outcome => (d, outcome)
       | None =>
           match publish (kp_store d) ipk records with
           | (k, Ok _) => (set_kp_store d k, if durable e then KpStored else KpUnavailable)
           | (k, Err Conflict) => (set_kp_store d k, KpStaticFieldsConflict)
           | (k, Err Full) => (set_kp_store d k, KpTooMany)
           | (k, Err _) => (set_kp_store d k, KpUnavailable)
           end
       end.

(** [handle_keypackage_fetch] *)
Definition handle_keypackage_fetch e d (req : KeyPackageFetchReq) (peer : bytes) (now_ms : Z)
    : dht * KeyPackageFetchOutcome :=
  let target := kpf_target_ipk req in
  match stash_gate e d peer (Some (kpf_requester_relay_id req)) (kpf_timestamp req) now_ms
          (key_package_stash_prefix target) with
  | Err RNotOwner => (d, KfNotOwner)
  | Err _ => (d, KfRateLimited)
  | Ok _ =>
      let selector := pop_selector (kpf_requester_relay_id req) target in
      match take_package (kp_store d) target selector now_ms with
      | (k, Ok (Some (record, remaining))) =>
          (set_kp_store d k,
           if durable e then KfFound (mkKpFound record remaining (compute_static_hash record))
           else KfUnavailable)
      | (k, Ok None) => (set_kp_store d k, KfNoStash)
      | (k, Err _) => (set_kp_store d k, KfUnavailable)
      end
  end.

(** ** Welcomes ([welcome.rs]) *)

(** [stash_prefix] *)
Definition welcome_prefix (ipk : bytes) : bytes := NodeId_new (str "welcome:" ++ ipk).

(** [storage_key] *)
Definition storage_key (ipk welcome_id : bytes) : bytes := welcome_prefix ipk ++ welcome_id.

(** [welcome_id] *)
Definition welcome_id (env : WelcomeEnvelopeP) : bytes :=
  take WELCOME_ID_LEN
    (NodeId_new (we_recipient_ipk env ++ we_group_id env ++ we_kp_ref_used env
                 ++ NodeId_new (we_welcome_blob env))).

(** [verify_welcome_envelope] *)
Definition verify_welcome_envelope (env : WelcomeEnvelopeP) : result unit WelcomeVerifyError :=
  if decide (we_welcome_blob env = []) then Err WvMalformed
  else if len (we_welcome_blob env) >? MAX_WELCOME_BYTES then Err WvMalformed
  else if verify_ed25519 (we_sender_ipk env)
            (welcome_envelope_signing_input MLS_WIRE_VERSION (we_group_id env) (we_sender_ipk env)
               (we_recipient_ipk env) (we_kp_ref_used env) (we_welcome_blob env)) (we_sender_sig env)
  then Ok tt else Err WvBadSig.

(** A readable row: its key, envelope, expiry and size. *)
Record WelcomeRow := mkWRow { wr_key : bytes; wr_env : WelcomeEnvelopeP; wr_expires : Z; wr_len : Z }.

Definition parse_welcome (key value : bytes) : option WelcomeRow :=
  if decide (length key ≠ STORAGE_KEY_LEN) then None
  else if decide (length value < 8)%nat then None
  else env ← deser (drop 8 value); Some (mkWRow key env (be_val (take 8 value)) (len value)).

(** The loop of [iterate_welcomes]: unreadable rows are skipped, an error ends it. *)
Fixpoint welcomes_scan (sc : scan) : list WelcomeRow :=
  match sc with
  | Some (key, value) :: sc' =>
      match parse_welcome key value with
      | Some row => row :: welcomes_scan sc'
      | None => welcomes_scan sc'
      end
  | _ => []
  end.

(** [iterate_welcomes] *)
Definition iterate_welcomes d (ipk : bytes) : list WelcomeRow :=
  welcomes_scan (ks_prefix (space (store d) KsWelcome) (welcome_prefix ipk)).

(** The loop of [welcome_queue_full]: [None] when the key is already stored. *)
Fixpoint count_welcomes (sender_ipk key : bytes) (rows : list WelcomeRow) (total from_sender : nat)
    : option (nat * nat) :=
  match rows with
  | [] => Some (total, from_sender)
  | r :: rows' =>
      if decide (wr_key r = key) then None
      else count_welcomes sender_ipk key rows' (S total)
             (if decide (we_sender_ipk (wr_env r) = sender_ipk) then S from_sender else from_sender)
  end.

(** [welcome_queue_full] *)
Definition welcome_queue_full d (ipk sender_ipk key : bytes) : bool :=
  match count_welcomes sender_ipk key (iterate_welcomes d ipk) 0 0 with
  | None => false
  | Some (total, from_sender) =>
      (MAX_WELCOMES_PER_RECIPIENT <=? total)%nat || (MAX_WELCOMES_PER_SENDER <=? from_sender)%nat
  end.

(** [handle_welcome_publish] *)
Definition handle_welcome_publish e d (req : WelcomePublishReq) (peer : bytes) (now_ms : Z)
    : dht * WelcomePublishOutcome :=
  let env := wp_envelope req in
  let recipient := we_recipient_ipk env in
  match stash_gate e d peer None (wp_timestamp req) now_ms (welcome_prefix recipient) with
  | Err RSkew => (d, WpStaleTimestamp)
  | Err RRateLimited => (d, WpRateLimited)
  | Err (RBinding | RNotOwner) => (d, WpNotOwner)
  | Ok _ =>
      if negb (is_ok (verify_welcome_envelope env)) then (d, WpBadSig)
      else
        match ser env with
        | None => (d, WpBadSig)
        | Some envelope_bytes =>
            let value := be_bytes 8 (sat_add now_ms WELCOME_LIFETIME_MS) ++ envelope_bytes in
            let key := storage_key recipient (welcome_id env) in
            if welcome_queue_full d recipient (we_sender_ipk env) key then (d, WpQueueFull)
            else
              match put_sync (store d) KsWelcome key value with
              | None => (d, WpBadSig)
              | Some s => (set_store d s, if durable e then WpStored else WpBadSig)
              end
        end
  end.

(** The loop of [handle_welcome_fetch]. *)
Fixpoint collect_welcomes (rows : list WelcomeRow) (now_ms : Z) (to_evict : list bytes)
    (welcomes : list WelcomeEntry) (used : Z) : list bytes * list WelcomeEntry :=
  match rows with
  | [] => (to_evict, welcomes)
  | r :: rows' =>
      if wr_expires r <=? now_ms then collect_welcomes rows' now_ms (to_evict ++ [wr_key r]) welcomes used
      else if (MAX_WELCOMES_PER_RECIPIENT <=? length welcomes)%nat
              || (sat_add used (wr_len r) >? WELCOME_FETCH_MAX_BYTES) then (to_evict, welcomes)
      else collect_welcomes rows' now_ms to_evict
             (welcomes ++ [mkWEntry (drop STASH_PREFIX_LEN (wr_key r)) (wr_env r)]) (used + wr_len r)
  end.

(** [handle_welcome_fetch] *)
Definition handle_welcome_fetch e d (req : WelcomeFetchReq) (peer : bytes) (now_ms : Z)
    : dht * WelcomeFetchOutcome :=
  let user := wf_user_ipk req in
  match stash_gate e d peer (Some (wf_requester_relay_id req)) (wf_timestamp req) now_ms (welcome_prefix user) with
  | Err RRateLimited => (d, WfRateLimited)
  | Err RNotOwner => (d, WfNotOwner)
  | Err (RBinding | RSkew) => (d, WfBadSig)
  | Ok _ =>
      if negb (verify_ed25519 user
                 (welcome_fetch_signing_input MLS_WIRE_VERSION user (wf_requester_relay_id req) (wf_timestamp req))
                 (wf_user_sig req)) then (d, WfBadSig)
      else
        let '(to_evict, welcomes) := collect_welcomes (iterate_welcomes d user) now_ms [] [] 0 in
        let ks := sweep_remove (space (store d) KsWelcome) to_evict in
        (set_store d (set_space (store d) KsWelcome ks), WfFound welcomes)
  end.

(** Removes the keys one by one; whether every removal worked. *)
Fixpoint remove_all (ks : KS) (keys : list bytes) : KS * bool :=
  match keys with
  | [] => (ks, true)
  | k :: keys' =>
      match ks_remove ks k with
      | Some ks' => remove_all ks' keys'
      | None => let '(ks', _) := remove_all ks keys' in (ks', false)
      end
  end.

(** [handle_welcome_ack] *)
Definition handle_welcome_ack e d (req : WelcomeAckReq) (peer : bytes) (now_ms : Z) : dht * bool :=
  let user := wa_user_ipk req in
  if (MAX_WELCOME_ACK_IDS <? length (wa_welcome_ids req))%nat
     || negb (is_ok (stash_gate e d peer (Some (wa_requester_relay_id req)) (wa_timestamp req) now_ms
                       (welcome_prefix user))) then (d, false)
  else if negb (verify_ed25519 user
                  (welcome_ack_signing_input MLS_WIRE_VERSION user (wa_requester_relay_id req)
                     (wa_welcome_ids req) (wa_timestamp req)) (wa_user_sig req)) then (d, false)
  else
    let '(ks, all_ok) := remove_all (space (store d) KsWelcome) (map (storage_key user) (wa_welcome_ids req)) in
    (set_store d (set_space (store d) KsWelcome ks), all_ok).

(** ** Inventory ([inventory.rs]) *)

(** [authorized] *)
Definition authorized (request : Inventory.Request) (authenticated_delegate : bytes) (now : Z) : bool :=
  if bool_decide (Inventory.rq_delegate request ≠ authenticated_delegate)
     || (abs_diff now (Inventory.rq_timestamp request) >? Inventory.MAX_SKEW_MS) then false
  else verify_ed25519 (Inventory.rq_owner request) (Inventory.signing_input request)
         (Inventory.rq_signature request).

(** [read_home] *)
Definition read_home_inventory e d (request : Inventory.Request) (authenticated_delegate : bytes) (now : Z)
    : Inventory.Inventory :=
  let owner := Inventory.rq_owner request in
  let snapshot :=
    if authorized request authenticated_delegate now && (dht_homes d (key_package_stash_prefix owner)).2
    then match inventory (kp_store d) owner now with
         | Ok references => if durable e then Some (Inventory.mkSnapshot now references) else None
         | Err _ => None
         end
    else None in
  Inventory.mkInventory owner (Inventory.rq_timestamp request) [Inventory.mkHome (node_id d) snapshot].

(** [handle] *)
Definition handle_inventory e d (b : bytes) (authenticated_delegate : bytes) (now : Z) : bytes :=
  match Inventory.decode_request b with
  | Err _ => []
  | Ok request =>
      match Inventory.encode (read_home_inventory e d request authenticated_delegate now) with
      | Ok bytes => bytes
      | Err _ => []
      end
  end.

(** [services] of [common/src/contracts/services.rs] *)
Definition KEY_PACKAGE_CUSTODY : Z := 1.
Definition KEY_PACKAGE_CUSTODY_VERSION : Z := 1.
Definition KEY_PACKAGE_INVENTORY : Z := 2.
Definition KEY_PACKAGE_INVENTORY_VERSION : Z := 1.

(** [service_support] *)
Definition service_support : list (Z * list Z) :=
  [(KEY_PACKAGE_CUSTODY, [KEY_PACKAGE_CUSTODY_VERSION]);
   (KEY_PACKAGE_INVENTORY, [KEY_PACKAGE_INVENTORY_VERSION])].

(** ** The dispatcher ([handler.rs]) *)

(** [closest_excluding] *)
Definition closest_excluding (t : RoutingTable) (target exclude : bytes) : list NodeDescriptor :=
  take MAX_FIND_NODE_RESULTS
    (filter (λ n, nd_id n ≠ exclude) (find_closest t target (S MAX_FIND_NODE_RESULTS))).

(** [handle_dht_request] *)
Definition handle_dht_request e d (req : DhtRequest) (peer : bytes) (now : Z) : dht * DhtResponse :=
  match req with
  | RqServiceCapabilities => (d, RsServiceCapabilities (Support.encode service_support))
  | RqKeyPackageInventory request => (d, RsKeyPackageInventory (handle_inventory e d request peer now))
  | RqFindNode f => (d, RsFindNode (closest_excluding (routing d) (fn_target f) (fn_requester f)))
  | RqForward fwd => let '(d', r) := handle_forward_rpc e d fwd now in (d', RsForward r)
  | RqActivityForward a => (d, RsActivityForward (handle_activity_forward_rpc e d a now))
  | RqPresenceConsent c => let '(d', r) := handle_presence_consent_rpc d c now in (d', RsPresence r)
  | RqPresenceState s => let '(d', r) := handle_presence_state_rpc d s peer now in (d', RsPresence r)
  | RqPresenceLease l => let '(d', r) := handle_presence_lease_rpc d l peer now in (d', RsPresence r)
  | RqLiveForward f => (d, RsLiveForward (handle_live_forward_rpc e d f peer now))
  | RqPushPseudonymPublish p => let '(d', r) := handle_push_publish d p now in (d', RsPushPseudonymPublish r)
  | RqQueueFetch q => let '(d', r) := handle_queue_fetch_rpc d q peer now in (d', RsQueueFetch r)
  | RqQueueFetchAck q => let '(d', r) := handle_queue_fetch_ack_rpc d q peer now in (d', RsQueueFetchAck r)
  | RqKeyPackagePublish r => let '(d', o) := handle_keypackage_publish e d r now in (d', RsKeyPackagePublish o)
  | RqKeyPackageFetch r => let '(d', o) := handle_keypackage_fetch e d r peer now in (d', RsKeyPackageFetch o)
  | RqWelcomePublish r => let '(d', o) := handle_welcome_publish e d r peer now in (d', RsWelcomePublish o)
  | RqWelcomeFetch r => let '(d', o) := handle_welcome_fetch e d r peer now in (d', RsWelcomeFetch o)
  | RqWelcomeAck r => let '(d', o) := handle_welcome_ack e d r peer now in (d', RsWelcomeAck o)
  end.
End mls.
