(* ===== verification/Frames.v ===== *)
(** * Frames: which keyspaces an operation can write

    Every request of [handle_dht_request] writes the keyspaces [writes] lists and leaves
    the others, and the rest of the relay but its wakes, as they are. *)

From S2P Require Import Prelude Bytes Crypto Proto MlsWire Keyspace Store StoreProps Routing Queue KeyPackages Contracts Dht Mls.

Definition writes (req : DhtRequest) : list ks_name :=
  match req with
  | RqForward _ | RqQueueFetch _ | RqQueueFetchAck _ => [KsQueue]
  | RqPresenceConsent _ => [KsPresenceConsent]
  | RqPresenceState _ => [KsPresenceState]
  | RqPresenceLease _ => [KsPresenceLease]
  | RqPushPseudonymPublish _ => [KsPushPseudonym]
  | RqKeyPackagePublish _ | RqKeyPackageFetch _ => [KsKpRecords; KsKpSpent]
  | RqWelcomePublish _ | RqWelcomeFetch _ | RqWelcomeAck _ => [KsWelcome]
  | RqServiceCapabilities | RqKeyPackageInventory _ | RqFindNode _ | RqActivityForward _ | RqLiveForward _ => []
  end.

Section frames.
Context `{Crypto} `{RelayCodecs} {KS : Type} `{Keyspace KS}.
Local Abbreviation dht := (Dht (KS := KS)).
Implicit Types (d : dht) (e : Env) (s : Store KS) (n : ks_name).

(** [d'] differs from [d] in the keyspaces [ns] and the wakes sent only. *)
Record touches (ns : list ks_name) (d d' : dht) : Prop := {
  to_space : ∀ n, n ∉ ns → space (store d') n = space (store d) n;
  to_routing : routing d' = routing d;
  to_node_id : node_id d' = node_id d;
  to_signing_key : signing_key d' = signing_key d;
  to_clients : clients d' = clients d;
  to_leases : presence_leases d' = presence_leases d;
}.

#[export] Instance touches_preorder ns : PreOrder (touches ns).
Proof.
  split; [by constructor|]. intros d1 d2 d3 [] []. constructor; try congruence.
  intros n Hn. rewrite to_space1 by done. auto.
Qed.

Lemma touches_store ns d s :
  (∀ n, n ∉ ns → space s n = space (store d) n) → touches ns d (set_store d s).
Proof. intros Hs. by constructor. Qed.

Lemma touches_weaken ns ns' d d' : ns ⊆ ns' → touches ns d d' → touches ns' d d'.
Proof. intros Hs []. constructor; try done. intros n Hn. apply to_space0. set_solver. Qed.

Ltac frame :=
  let n := fresh "n" in let Hn := fresh "Hn" in
  intros n Hn; rewrite ?not_elem_of_cons in Hn;
  repeat match goal with
  | |- context [match ?x with _ => _ end] => destruct x eqn:?; try reflexivity
  | Hp : put_sync _ _ _ _ = Some ?s |- _ => apply (put_sync_space _ _ _ _ _ n) in Hp; [|by set_solver]
  end; cbn; try done; rewrite ?decide_False by set_solver; try done.

Lemma put_consent_frame s c : ∀ n, n ∉ [KsPresenceConsent] → space (put_presence_consent s c).1 n = space s n.
Proof. unfold put_presence_consent. frame. Qed.

Lemma put_state_frame s r w st v o l :
  ∀ n, n ∉ [KsPresenceState] → space (put_presence_state s r w st v o l).1 n = space s n.
Proof. unfold put_presence_state. frame. Qed.

Lemma put_lease_frame s l : ∀ n, n ∉ [KsPresenceLease] → space (put_presence_lease s l).1 n = space s n.
Proof. unfold put_presence_lease. frame. Qed.

Lemma enqueue_frame s u dp now : ∀ n, n ∉ [KsQueue] → space (enqueue_for_home s u dp now).1 n = space s n.
Proof. unfold enqueue_for_home. frame. Qed.

Lemma batch_frame s u m now : ∀ n, n ∉ [KsQueue] → space (queue_batch_for_user s u m now).1 n = space s n.
Proof. unfold queue_batch_for_user. frame. Qed.

Lemma delete_frame s u ids : ∀ n, n ∉ [KsQueue] → space (delete_queue_entries s u ids).1 n = space s n.
Proof. unfold delete_queue_entries. frame. Qed.

Lemma set_kp_frame d k : touches [KsKpRecords; KsKpSpent] d (set_kp_store d k).
Proof. apply touches_store. intros n Hn. cbn. by rewrite !decide_False by set_solver. Qed.

Lemma set_space_frame s n (ks : KS) : ∀ m, m ∉ [n] → space (set_space s n ks) m = space s m.
Proof. intros m Hm. cbn. by rewrite decide_False by set_solver. Qed.

Lemma wake_touches e d r c : touches [] d (trigger_wake e d r c).
Proof. unfold trigger_wake. destruct (get_push_pseudonym _ _); [destruct (wake_ok e)|]; by constructor. Qed.

Lemma forward_touches e d f now : touches [KsQueue] d (handle_forward_rpc e d f now).1.
Proof.
  unfold handle_forward_rpc. destruct (resolve_sender_pubkey _ _); [|done].
  destruct (negb _); [done|]. destruct (negb _); [done|]. destruct (negb _); [done|].
  destruct (deliver_live _ _ _ _); [done|].
  pose proof (touches_store _ d _ (enqueue_frame (store d) (d_to (fw_dispatch f)) (fw_dispatch f) now)) as Hf.
  destruct (enqueue_for_home _ _ _ _) as [s o]. cbn [fst] in *. case_decide; [|exact Hf].
  destruct (negb _); [exact Hf|]. cbn [fst]. destruct (wakes _); [|exact Hf].
  etrans; [exact Hf|]. apply (touches_weaken []); [set_solver|apply wake_touches].
Qed.

(** The frame of every request. *)
Lemma request_touches e d req peer now : touches (writes req) d (handle_dht_request e d req peer now).1.
Proof.
  destruct req; cbn [handle_dht_request writes]; try done.
  - pose proof (forward_touches e d f now) as Hf. by destruct (handle_forward_rpc _ _ _ _).
  - unfold handle_presence_consent_rpc. destruct (negb _); [done|].
    pose proof (touches_store _ d _ (put_consent_frame (store d) c)). by destruct (put_presence_consent _ _).
  - unfold handle_presence_state_rpc. destruct (_ || _); [done|].
    pose proof (touches_store _ d _ (put_state_frame (store d) (rp_recipient r) (rp_who r) (rp_state r)
      (rp_version r) (rp_observed_at_ms r) (le_expires_at_ms (rp_lease r)))).
    by destruct (put_presence_state _ _ _ _ _ _ _).
  - unfold handle_presence_lease_rpc. destruct (_ || _); [done|].
    pose proof (touches_store _ d _ (put_lease_frame (store d) l)). by destruct (put_presence_lease _ _).
  - unfold handle_push_publish. destruct (_ || _); [done|].
    destruct (put_push_pseudonym _ _ _ _) as [s|] eqn:Hp; [|done].
    apply touches_store. intros n Hn. eapply put_sync_space; [exact Hp|set_solver].
  - unfold handle_queue_fetch_rpc. destruct (bool_decide _); [done|]. destruct (negb _); [done|].
    destruct (negb _); [done|].
    pose proof (touches_store _ d _ (batch_frame (store d) (qf_user_ipk q) (Z.of_nat MAX_FETCH_QUEUE_BATCH) now)).
    by destruct (queue_batch_for_user _ _ _ _) as [s [b x]].
  - unfold handle_queue_fetch_ack_rpc. destruct (bool_decide _); [done|]. destruct (negb _); [done|].
    pose proof (touches_store _ d _ (delete_frame (store d) (qa_user_ipk q) (qa_delivered_ids q))).
    by destruct (delete_queue_entries _ _ _).
  - unfold handle_keypackage_publish. destruct (_ <? _)%nat; [done|]. destruct (negb _); [done|].
    destruct (negb _); [done|]. destruct (verify_records _ _ _); [done|].
    destruct (publish _ _ _) as [k [|[]]]; apply set_kp_frame.
  - unfold handle_keypackage_fetch. destruct (stash_gate _ _ _ _ _ _ _) as [|[]]; [|done..].
    destruct (take_package _ _ _ _) as [k [[[]|]|]]; apply set_kp_frame.
  - unfold handle_welcome_publish. destruct (stash_gate _ _ _ _ _ _ _) as [|[]]; [|done..].
    destruct (negb _); [done|]. destruct (ser _); [|done]. destruct (welcome_queue_full _ _ _ _); [done|].
    destruct (put_sync _ _ _ _) as [s|] eqn:Hp; [|done].
    apply touches_store. intros n Hn. eapply put_sync_space; [exact Hp|set_solver].
  - unfold handle_welcome_fetch. destruct (stash_gate _ _ _ _ _ _ _) as [|[]]; [|done..].
    destruct (negb _); [done|]. destruct (collect_welcomes _ _ _ _ _). apply touches_store, set_space_frame.
  - unfold handle_welcome_ack. destruct (_ || _); [done|]. destruct (negb _); [done|].
    destruct (remove_all _ _). apply touches_store, set_space_frame.
Qed.
End frames.
