(* ===== verification/Examples.v ===== *)
(** * Examples: a relay to evaluate with

    Codecs for the stored forms and a relay on an in-memory store, alone in its network
    and so the home of everything. *)

From S2P Require Import Prelude Bytes Crypto Proto MlsWire Keyspace Store StoreProps Routing Queue QueueProps KeyPackages KeyPackagesProps Contracts Dht.
Import Toy Mem KpExample ToyQueue.

Module ToyRelay.
Definition raw_pairing (p : option PairingP) : bytes :=
  match p with
  | None => [0]
  | Some p => 1 :: inv_expiry_ms (pa_invite p)
              :: ToyCodec.enc (inv_id (pa_invite p)) ++ ToyCodec.enc (inv_sig (pa_invite p))
              ++ ToyCodec.enc (pa_sender_name p)
  end.

Definition parse_pairing (b : bytes) : option (option PairingP) :=
  match b with
  | [0] => Some None
  | 1 :: e :: b =>
      '(i, b) ← ToyCodec.dec b; '(g, b) ← ToyCodec.dec b; '(n, b) ← ToyCodec.dec b;
      match b with [] => Some (Some (mkPairing (mkInvite i e g) n)) | _ => None end
  | _ => None
  end.

Definition raw_welcome (w : WelcomeEnvelopeP) : bytes :=
  ToyCodec.enc (we_group_id w) ++ ToyCodec.enc (we_sender_ipk w) ++ ToyCodec.enc (we_recipient_ipk w)
  ++ ToyCodec.enc (we_welcome_blob w) ++ ToyCodec.enc (we_kp_ref_used w) ++ ToyCodec.enc (we_sender_sig w)
  ++ [we_version w] ++ raw_pairing (we_pairing w).

Definition parse_welcome_env (b : bytes) : option WelcomeEnvelopeP :=
  '(g, b) ← ToyCodec.dec b; '(s, b) ← ToyCodec.dec b; '(r, b) ← ToyCodec.dec b;
  '(w, b) ← ToyCodec.dec b; '(k, b) ← ToyCodec.dec b; '(x, b) ← ToyCodec.dec b;
  match b with
  | v :: b => p ← parse_pairing b; Some (mkWelcome v g s r w k x p)
  | [] => None
  end.

Lemma parse_raw_pairing p : parse_pairing (raw_pairing p) = Some p.
Proof.
  destruct p as [[[i e g] n]|]; [|done]. cbn [raw_pairing parse_pairing pa_invite pa_sender_name inv_id inv_sig inv_expiry_ms].
  do 2 (rewrite ToyCodec.dec_enc; cbn [mbind option_bind]).
  rewrite <- (app_nil_r (ToyCodec.enc n)), ToyCodec.dec_enc. done.
Qed.

Lemma parse_raw_welcome w : parse_welcome_env (raw_welcome w) = Some w.
Proof.
  unfold parse_welcome_env, raw_welcome. do 6 (rewrite ToyCodec.dec_enc; cbn [mbind option_bind]).
  cbn [app]. rewrite parse_raw_pairing. by destruct w.
Qed.

#[export] Instance welcome_codec : Codec WelcomeEnvelopeP :=
  {| ser := λ w, Some (raw_welcome w); deser := parse_welcome_env;
     deser_ser := ToyCodec.toy_law raw_welcome parse_welcome_env parse_raw_welcome |}.

#[export] Instance relay_codecs : RelayCodecs :=
  {| rc_queue := queue_codecs; rc_lease := lease_codec; rc_push := no_codec PushPseudonymPublish;
     rc_kp := kp_codec; rc_welcome := welcome_codec |}.

(** The relay with signing key [sk], knowing the relays [peers]. *)
Definition relay_id (sk : bytes) : bytes := NodeId_new (verifying_key sk).

Definition relay (sk : bytes) (t : RoutingTable) : Dht (KS := mem) :=
  mkDht t empty_store ∅ (relay_id sk) sk ∅ ∅ [].

Definition secret (n : Z) : bytes := replicate 32 n.

Definition lone_relay : Dht (KS := mem) := relay (secret 1) (RoutingTable_empty (relay_id (secret 1)) 0).

(** Everything works and nobody is connected. *)
Definition quiet : Env := mkEnv true true (λ _ _, false) (λ _, false) (λ _ _, None) true false 0.
End ToyRelay.
