(* ===== verification/MlsProps.v ===== *)
(** * MlsProps: what the welcome queue guarantees

    A recipient's queue stays within its cap whatever requests arrive, and a fetch
    answers the oldest-key prefix of the unexpired invitations. *)

From S2P Require Import Prelude Bytes Crypto Proto MlsWire Keyspace Store StoreProps Routing Queue KeyPackages KeyPackagesProps Contracts Dht Mls QueueProps Frames Examples.

Section frames.
Context `{Crypto} `{RelayCodecs} {KS : Type} `{Keyspace KS}.
Local Abbreviation dht := (Dht (KS := KS)).
Implicit Types (d : dht) (e : Env).

(** The welcome keyspace of a relay. *)
Definition welcome_ks d : KS := space (store d) KsWelcome.
Definition welcome_view d : gmap bytes bytes := ks_view (welcome_ks d).

(** Requests other than the welcome ones leave the welcome keyspace alone. *)
Definition is_welcome_request (req : DhtRequest) : bool :=
  match req with RqWelcomePublish _ | RqWelcomeFetch _ | RqWelcomeAck _ => true | _ => false end.

Lemma request_frame e d req peer now :
  is_welcome_request req = false → welcome_ks (handle_dht_request e d req peer now).1 = welcome_ks d.
Proof. intros Hr. apply (to_space _ _ _ (request_touches e d req peer now)). destruct req; set_solver. Qed.
End frames.

(** ** The cap *)

Section cap.
Context `{Crypto} `{RelayCodecs} {KS : Type} `{Keyspace KS, !Healthy KS}.
Local Abbreviation dht := (Dht (KS := KS)).
Implicit Types (d : dht) (e : Env).

Record welcome_inv d : Prop := {
  wi_healthy : healthy (welcome_ks d);
  wi_rows : ∀ k v, welcome_view d !! k = Some v → is_Some (parse_welcome k v);
  wi_cap : ∀ ipk, (length (prefix_rows (welcome_prefix ipk) (welcome_view d)) <= MAX_WELCOMES_PER_RECIPIENT)%nat
}.

Lemma parse_welcome_key k v r : parse_welcome k v = Some r → wr_key r = k.
Proof.
  unfold parse_welcome. case_decide; [done|]. case_decide; [done|]. by intros (env & _ & [= <-])%bind_Some.
Qed.

Lemma welcomes_scan_all rows :
  (∀ k v, (k, v) ∈ rows → is_Some (parse_welcome k v)) →
  map wr_key (welcomes_scan (Some <$> rows)) = rows.*1 ∧
  ∀ k v r, (k, v) ∈ rows → parse_welcome k v = Some r → r ∈ welcomes_scan (Some <$> rows).
Proof.
  induction rows as [|[k v] rows IH]; intros Hp; [split; [done|]; by intros ? ? ? ?%not_elem_of_nil|].
  destruct (Hp k v) as [r Hr]; [left|]. destruct IH as [Hk Hin]; [intros; apply Hp; by right|].
  pose proof (parse_welcome_key _ _ _ Hr) as Hkey.
  cbn. rewrite Hr. cbn. split; [by f_equal|].
  intros k' v' r' [[= -> ->]|Hk']%elem_of_cons Hr'; [|right; by eapply Hin].
  rewrite Hr in Hr'. injection Hr' as ->. left.
Qed.

(** Whatever is read is stored. *)
Lemma iterate_stored d ipk r :
  r ∈ iterate_welcomes d ipk → ∃ v, welcome_view d !! wr_key r = Some v ∧ parse_welcome (wr_key r) v = Some r.
Proof.
  unfold iterate_welcomes. fold (welcome_ks d). intros Hr.
  assert (∃ k v, Some (k, v) ∈ ks_prefix (welcome_ks d) (welcome_prefix ipk) ∧ parse_welcome k v = Some r)
    as (k & v & Hk & Hp).
  { revert Hr. induction (ks_prefix (welcome_ks d) (welcome_prefix ipk)) as [|[[k v]|] sc IH]; cbn;
      [by intros ?%not_elem_of_nil| |by intros ?%not_elem_of_nil].
    destruct (parse_welcome k v) as [r'|] eqn:Hp.
    - intros [->|(k' & v' & ? & ?)%IH]%elem_of_cons; [exists k, v; split; [left|done]|].
      exists k', v'. split; [by right|done].
    - intros (k' & v' & ? & ?)%IH. exists k', v'. split; [by right|done]. }
  rewrite (parse_welcome_key _ _ _ Hp). exists v. split; [|done].
  apply (so_rows _ _ (ks_prefix_view (welcome_ks d) (welcome_prefix ipk))), elem_of_prefix_rows in Hk. apply Hk.
Qed.

(** The keys read are the keys stored. *)
Lemma iterate_keys d ipk :
  welcome_inv d → map wr_key (iterate_welcomes d ipk) = (prefix_rows (welcome_prefix ipk) (welcome_view d)).*1.
Proof.
  intros [Hh Hp _]. unfold iterate_welcomes. fold (welcome_ks d).
  rewrite (so_complete _ _ (ks_prefix_view (welcome_ks d) (welcome_prefix ipk))).
  - apply welcomes_scan_all. intros k v [Hk _]%elem_of_prefix_rows. by apply Hp.
  - by apply healthy_prefix.
Qed.

Lemma count_welcomes_spec sender key rows : ∀ total fs,
  match count_welcomes sender key rows total fs with
  | None => key ∈ map wr_key rows
  | Some (t, _) => (key ∉ map wr_key rows) ∧ t = (total + length rows)%nat
  end.
Proof.
  induction rows as [|r rows IH]; intros total fs; cbn; [split; [apply not_elem_of_nil|lia]|].
  case_decide as Hk; [subst; left|].
  specialize (IH (S total) (if decide (we_sender_ipk (wr_env r) = sender) then S fs else fs)).
  destruct (count_welcomes _ _ _ _ _) as [[t f]|]; [|by right].
  destruct IH as [Hn ->]. split; [|lia]. by intros [|]%elem_of_cons.
Qed.

Lemma welcome_prefix_length ipk : length (welcome_prefix ipk) = 32%nat.
Proof. apply (wf_arr_length 32), blake3_wf. Qed.

Lemma welcome_id_length env : length (welcome_id env) = 8%nat.
Proof.
  unfold welcome_id. rewrite length_take. unfold NodeId_new. rewrite (wf_arr_length 32) by apply blake3_wf. done.
Qed.

Lemma storage_key_length ipk env : length (storage_key ipk (welcome_id env)) = STORAGE_KEY_LEN.
Proof. unfold storage_key. by rewrite length_app, welcome_prefix_length, welcome_id_length. Qed.

Lemma parse_published ipk env b expires :
  ser env = Some b →
  ∃ r, parse_welcome (storage_key ipk (welcome_id env)) (be_bytes 8 expires ++ b) = Some r ∧ wr_env r = env.
Proof.
  intros Hs. unfold parse_welcome. rewrite decide_False by (rewrite storage_key_length; auto).
  rewrite decide_False by (rewrite length_app, length_be_bytes; lia).
  rewrite (drop_app_length' _ _ 8) by (by rewrite length_be_bytes). rewrite (deser_ser _ _ Hs). cbn. by eexists.
Qed.

(** Inserting a row under a prefix. *)
Lemma prefix_rows_insert (p : bytes) (m : gmap bytes bytes) (k v : bytes) (n : nat) :
  (length (prefix_rows p m) <= n)%nat → (k ∈ (prefix_rows p m).*1 ∨ (length (prefix_rows p m) < n)%nat ∨ ¬ p `prefix_of` k) →
  (length (prefix_rows p (<[k := v]> m)) <= n)%nat.
Proof.
  intros Hn Hk. destruct (decide (p `prefix_of` k ∧ k ∉ (prefix_rows p m).*1)) as [[Hp Hnew]|Hold].
  - etrans; [apply (prefix_rows_bound _ _ (k :: (prefix_rows p m).*1))|].
    + intros k' v' Hp' [[-> _]|[_ Hk']]%lookup_insert_Some; [left|right].
      apply list_elem_of_fmap. exists (k', v'). split; [done|]. by apply elem_of_prefix_rows.
    + cbn. rewrite length_fmap. destruct Hk as [?|[?|?]]; [done|lia|done].
  - etrans; [apply (prefix_rows_bound _ _ (prefix_rows p m).*1)|by rewrite length_fmap].
    intros k' v' Hp' [[<- _]|[_ Hk']]%lookup_insert_Some.
    + apply dec_stable. intros Hnew. by apply Hold.
    + apply list_elem_of_fmap. exists (k', v'). split; [done|]. by apply elem_of_prefix_rows.
Qed.

Lemma publish_welcome_inv e d req peer now :
  welcome_inv d → welcome_inv (handle_welcome_publish e d req peer now).1.
Proof.
  intros Hi. unfold handle_welcome_publish. destruct (stash_gate _ _ _ _ _ _ _) as [|[]]; [|done..].
  set (env := wp_envelope req). destruct (negb _); [done|]. destruct (ser env) as [b|] eqn:Hb; [|done].
  set (key := storage_key (we_recipient_ipk env) (welcome_id env)).
  set (value := be_bytes 8 (sat_add now WELCOME_LIFETIME_MS) ++ b).
  destruct (welcome_queue_full _ _ _ _) eqn:Hfull; [done|].
  destruct (put_sync (store d) KsWelcome key value) as [s|] eqn:Hput; [|done].
  unfold put_sync in Hput. apply bind_Some in Hput as (ks & Hins & [= <-]).
  destruct (healthy_insert (welcome_ks d) key value (wi_healthy _ Hi)) as (ks' & Hins' & Hh).
  assert (ks' = ks) as -> by (unfold welcome_ks in Hins'; congruence).
  pose proof (ks_insert_view _ _ _ _ Hins) as Hv. fold (welcome_ks d) in Hv. fold (welcome_view d) in Hv.
  match goal with |- welcome_inv (?d', _).1 => assert (Hks : welcome_ks d' = ks) by reflexivity;
    assert (Hview : welcome_view d' = <[key := value]> (welcome_view d)) by exact Hv end.
  cbn [fst]. split; rewrite ?Hks, ?Hview.
  - done.
  - intros k v [[<- <-]|[_ Hk]]%lookup_insert_Some; [|by apply (wi_rows _ Hi)].
    destruct (parse_published (we_recipient_ipk env) env b (sat_add now WELCOME_LIFETIME_MS) Hb) as (r & Hr & _). eauto.
  - intros ipk. apply prefix_rows_insert; [by apply (wi_cap _ Hi)|].
    destruct (decide (welcome_prefix ipk `prefix_of` key)) as [Hp|Hp]; [|auto].
    assert (Heq : welcome_prefix ipk = welcome_prefix (we_recipient_ipk env)).
    { destruct Hp as [t Ht]. unfold key, storage_key in Ht. apply app_inj_1 in Ht as [? _]; [done|].
      by rewrite !welcome_prefix_length. }
    rewrite Heq. rewrite <- (iterate_keys d _ Hi).
    unfold welcome_queue_full in Hfull.
    pose proof (count_welcomes_spec (we_sender_ipk env) key (iterate_welcomes d (we_recipient_ipk env)) 0 0) as Hc.
    destruct (count_welcomes _ _ _ _ _) as [[t f]|]; [|by left]. destruct Hc as [_ Ht]. breflect.
    right; left. pose proof (iterate_keys d (we_recipient_ipk env) Hi) as Hk.
    apply (f_equal length) in Hk. rewrite length_map, length_fmap in Hk. rewrite <- Hk. cbn in Ht. lia.
Qed.

(** Removing rows keeps the invariant. *)
Lemma welcome_inv_shrink d ks :
  welcome_inv d → healthy ks → (∀ k v, ks_view ks !! k = Some v → welcome_view d !! k = Some v) →
  welcome_inv (set_store d (set_space (store d) KsWelcome ks)).
Proof.
  intros Hi Hh Hsub. split; unfold welcome_view, welcome_ks; cbn.
  - done.
  - intros k v Hk%Hsub. by apply (wi_rows _ Hi).
  - intros ipk. etrans; [|by apply (wi_cap _ Hi)]. apply prefix_rows_shrink. intros k v _. apply Hsub.
Qed.

Lemma remove_all_spec keys : ∀ ks : KS,
  healthy ks → healthy (remove_all ks keys).1 ∧ (remove_all ks keys).2 = true ∧
  ∀ k, ks_view (remove_all ks keys).1 !! k = if decide (k ∈ keys) then None else ks_view ks !! k.
Proof.
  induction keys as [|k0 keys IH]; intros ks Hh; cbn.
  { split_and!; [done..|]. intros k. by rewrite decide_False by apply not_elem_of_nil. }
  destruct (healthy_remove ks k0 Hh) as (ks' & Hrm & Hh'). rewrite Hrm.
  destruct (IH ks' Hh') as (? & ? & Hv). split_and!; [done..|]. intros k. rewrite Hv, (ks_remove_view _ _ _ Hrm).
  destruct (decide (k ∈ keys)); [by rewrite decide_True by (by right)|].
  destruct (decide (k = k0)) as [->|]; [rewrite decide_True by left; apply lookup_delete_eq|].
  rewrite decide_False by (by rewrite elem_of_cons; intros [|]). by apply lookup_delete_ne.
Qed.

Lemma request_inv e d req peer now : welcome_inv d → welcome_inv (handle_dht_request e d req peer now).1.
Proof.
  intros Hi. destruct (is_welcome_request req) eqn:Hw.
  - destruct req; try done; cbn.
    + pose proof (publish_welcome_inv e d r peer now Hi). by destruct (handle_welcome_publish _ _ _ _ _).
    + unfold handle_welcome_fetch. destruct (stash_gate _ _ _ _ _ _ _) as [|[]]; [|done..].
      destruct (negb _); [done|]. destruct (collect_welcomes _ _ _ _ _) as [ev ws]. cbn.
      destruct (sweep_remove_healthy ev (welcome_ks d) (wi_healthy _ Hi)) as [Hh _].
      apply welcome_inv_shrink; [done|exact Hh|]. intros k v Hk.
      destruct (sweep_remove_view ev (welcome_ks d) k) as [E|[E _]]; unfold welcome_ks in *; [by rewrite E in Hk|congruence].
    + unfold handle_welcome_ack. destruct (_ || _); [done|]. destruct (negb _); [done|].
      destruct (remove_all_spec (map (storage_key (wa_user_ipk r)) (wa_welcome_ids r)) (welcome_ks d) (wi_healthy _ Hi))
        as (Hh & _ & Hv). unfold welcome_ks in *. destruct (remove_all _ _) as [ks ok]. cbn in *.
      apply welcome_inv_shrink; [done|done|]. intros k v Hk. rewrite Hv in Hk. by case_decide.
  - pose proof (request_frame e d req peer now Hw) as Hf. destruct Hi as [Hh Hr Hc].
    split; unfold welcome_view; rewrite Hf; done.
Qed.

(** Requests served one after the other. *)
Record served := mkServed { sv_env : Env; sv_req : DhtRequest; sv_peer : bytes; sv_now : Z }.

Definition serve d (l : list served) : dht :=
  fold_left (λ d x, (handle_dht_request (sv_env x) d (sv_req x) (sv_peer x) (sv_now x)).1) l d.

Lemma serve_inv l : ∀ d, welcome_inv d → welcome_inv (serve d l).
Proof. induction l as [|x l IH]; intros d Hi; [done|]. apply IH, request_inv, Hi. Qed.

Lemma welcome_inv_empty d : healthy (welcome_ks d) → welcome_view d = ∅ → welcome_inv d.
Proof.
  intros Hh Hv. split; rewrite ?Hv; [done| |].
  - intros k v Hk. by rewrite lookup_empty in Hk.
  - intros ipk. etrans; [apply (prefix_rows_bound _ _ [])|cbn; lia].
    intros k v _ Hk. by rewrite lookup_empty in Hk.
Qed.

(** ** Fetching *)

Definition entry_of (r : WelcomeRow) : WelcomeEntry := mkWEntry (drop STASH_PREFIX_LEN (wr_key r)) (wr_env r).

Definition live_rows (now : Z) (rows : list WelcomeRow) : list WelcomeRow :=
  filter (λ r, now < wr_expires r) rows.

Fixpoint size_of (rows : list WelcomeRow) : Z :=
  match rows with [] => 0 | r :: rows' => wr_len r + size_of rows' end.

Lemma collect_spec rows now : ∀ ev ws used ev' ws',
  collect_welcomes rows now ev ws used = (ev', ws') →
  (∃ n, ws' = ws ++ map entry_of (take n (live_rows now rows)) ∧
     ((length (live_rows now rows) <= n)%nat ∨
      ∃ r, live_rows now rows !! n = Some r ∧
           ((MAX_WELCOMES_PER_RECIPIENT <= length ws + n)%nat ∨
            WELCOME_FETCH_MAX_BYTES < used + size_of (take n (live_rows now rows)) + wr_len r))) ∧
  (∀ k, k ∈ ev' → k ∈ ev ∨ ∃ r, r ∈ rows ∧ wr_key r = k ∧ wr_expires r <= now).
Proof.
  induction rows as [|r rows IH]; intros ev ws used ev' ws'; cbn [collect_welcomes].
  { intros [= <- <-]. split; [|by left]. exists 0%nat. cbn. rewrite app_nil_r. split; [done|left; lia]. }
  destruct (wr_expires r <=? now) eqn:Hexp; breflect.
  - unfold live_rows. rewrite filter_cons_False by lia. intros (Hws & Hev)%IH. split; [done|].
    intros k [[?|Hk]%elem_of_app|(r' & ? & ?)]%Hev; [by left| |right; exists r'; split; [by right|done]].
    apply list_elem_of_singleton in Hk as ->. right. exists r. split; [left|done].
  - unfold live_rows. rewrite filter_cons_True by lia. fold (live_rows now rows).
    destruct (_ || _) eqn:Hstop.
    + intros [= <- <-]. split; [|by left]. exists 0%nat. cbn. rewrite app_nil_r. split; [done|right].
      exists r. split; [done|]. apply orb_true_iff in Hstop as [?|Hb]; breflect; [left; lia|right].
      unfold sat_add, u64_max, WELCOME_FETCH_MAX_BYTES, MAX_FRAME_BYTES in *. lia.
    + intros [(n & -> & Hn) Hev]%IH. split.
      * exists (S n). cbn. rewrite <- app_assoc. split; [done|].
        destruct Hn as [?|(r' & Hr' & Hn)]; [left; lia|right]. exists r'. split; [done|].
        rewrite length_app in Hn. cbn in Hn. destruct Hn as [?|?]; [left; lia|right; lia].
      * intros k [?|(r' & ? & ?)]%Hev; [by left|right; exists r'; split; [by right|done]].
Qed.
End cap.

(** ** Theorems *)

Section theorems.
Context `{Crypto} `{RelayCodecs} {KS : Type} `{Keyspace KS, !Healthy KS}.
Local Abbreviation dht := (Dht (KS := KS)).
Implicit Types (d : dht) (e : Env).

(** The welcome queue keeps its bound.  Whatever requests of whatever kind a relay
    serves from an empty queue, no recipient ever has more than
    [MAX_WELCOMES_PER_RECIPIENT] invitations stored. *)
Theorem welcome_queue_bounded d l ipk :
  healthy (welcome_ks d) → welcome_view d = ∅ →
  (length (prefix_rows (welcome_prefix ipk) (welcome_view (serve d l))) <= MAX_WELCOMES_PER_RECIPIENT)%nat ∧
  (length (iterate_welcomes (serve d l) ipk) <= MAX_WELCOMES_PER_RECIPIENT)%nat.
Proof.
  intros Hh Hv. assert (welcome_inv (serve d l)) as Hi by (by apply serve_inv, welcome_inv_empty).
  pose proof (wi_cap _ Hi ipk) as Hc. split; [done|].
  rewrite <- (length_map wr_key), (iterate_keys _ _ Hi), length_fmap. done.
Qed.

(** What a recipient's fetch answers and deletes, in every state the requests can
    reach.  The answer is the unexpired invitations in key order, cut only where the next one
    would overflow the frame; only expired invitations are deleted, so whatever was left
    out comes back on the next fetch. *)
Theorem welcome_fetch_exact d l e req peer now d' ws :
  healthy (welcome_ks d) → welcome_view d = ∅ →
  handle_welcome_fetch e (serve d l) req peer now = (d', WfFound ws) →
  let live := live_rows now (iterate_welcomes (serve d l) (wf_user_ipk req)) in
  (∃ n, ws = map entry_of (take n live) ∧
     ((length live <= n)%nat ∨
      ∃ r, live !! n = Some r ∧ WELCOME_FETCH_MAX_BYTES < size_of (take n live) + wr_len r)) ∧
  (∀ k v, welcome_view d' !! k = Some v → welcome_view (serve d l) !! k = Some v) ∧
  (∀ k v r, welcome_view (serve d l) !! k = Some v → parse_welcome k v = Some r → now < wr_expires r →
            welcome_view d' !! k = Some v).
Proof.
  intros Hh Hv. assert (welcome_inv (serve d l)) as Hi by (by apply serve_inv, welcome_inv_empty).
  generalize dependent (serve d l). intros d1 Hi. unfold handle_welcome_fetch.
  destruct (stash_gate _ _ _ _ _ _ _) as [|[]]; [|done..]. destruct (negb _); [done|].
  destruct (collect_welcomes _ _ _ _ _) as [ev ws'] eqn:Hc. intros [= <- <-]. cbn zeta.
  apply collect_spec in Hc as [(n & -> & Hn) Hev]. set (rows := iterate_welcomes d1 (wf_user_ipk req)) in *.
  assert (Hcap : (length (live_rows now rows) <= MAX_WELCOMES_PER_RECIPIENT)%nat).
  { etrans; [apply length_filter|]. unfold rows. rewrite <- (length_map wr_key), (iterate_keys _ _ Hi), length_fmap.
    apply (wi_cap _ Hi). }
  pose proof (sweep_remove_view ev (welcome_ks d1)) as Hrm.
  match goal with |- context [welcome_view ?d2 !! _ = Some _ → welcome_view d1 !! _ = Some _] =>
    assert (Hview : welcome_view d2 = ks_view (sweep_remove (welcome_ks d1) ev)) by reflexivity; rewrite Hview end.
  fold (welcome_view d1) in Hrm. split_and!.
  - exists n. split; [done|]. destruct Hn as [?|(r & Hr & [Hfull|?])]; [by left| |right; by exists r].
    exfalso. apply lookup_lt_Some in Hr. cbn in Hfull. lia.
  - intros k v Hk. destruct (Hrm k) as [E|[E _]]; congruence.
  - intros k v r Hk Hr Hexp. destruct (Hrm k) as [E|[_ Hin]]; [by rewrite E|]. exfalso.
    apply Hev in Hin as [?%not_elem_of_nil|(r' & Hr' & <- & Hle)]; [done|].
    destruct (iterate_stored _ _ _ Hr') as (v' & Hv' & Hp').
    rewrite Hk in Hv'. injection Hv' as <-. rewrite Hr in Hp'. injection Hp' as ->. lia.
Qed.
End theorems.

(** ** Examples *)

Module WelcomeExample.
Import Toy Mem KpExample ToyQueue ToyRelay.

Definition bob : bytes := verifying_key (secret 9).

(** The invitation number [n] of the holder of [sk] to [bob]. *)
Definition invitation (sk : bytes) (n : Z) : WelcomeEnvelopeP :=
  let from := verifying_key sk in
  let sig := sign sk (welcome_envelope_signing_input MLS_WIRE_VERSION (replicate 32 5) from bob (replicate 32 6) [n]) in
  mkWelcome MLS_WIRE_VERSION (replicate 32 5) from bob [n] (replicate 32 6) sig None.

Definition publish_at (now : Z) (w : WelcomeEnvelopeP) : served :=
  mkServed quiet (RqWelcomePublish (mkWPublish w now)) (relay_id (secret 2)) now.

Definition fetch_request (now : Z) : WelcomeFetchReq :=
  let peer := relay_id (secret 2) in
  mkWFetch bob peer now (sign (secret 9) (welcome_fetch_signing_input MLS_WIRE_VERSION bob peer now)).

(** Alice invites four times and Carol once; then Eve signs the same five invitations. *)
Definition takeover : list served :=
  map (λ n, publish_at 10 (invitation (secret 3) n)) [1; 2; 3; 4] ++
  [publish_at 10 (invitation (secret 4) 5)] ++
  map (λ n, publish_at 20 (invitation (secret 5) n)) [1; 2; 3; 4; 5].

(** The answers along the way, and the relay at the end. *)
Fixpoint answers (d : Dht (KS := mem)) (l : list served) : list DhtResponse * Dht (KS := mem) :=
  match l with
  | [] => ([], d)
  | x :: l' =>
      let '(d', r) := handle_dht_request (sv_env x) d (sv_req x) (sv_peer x) (sv_now x) in
      let '(rs, d'') := answers d' l' in (r :: rs, d'')
  end.

(** How many of the stored invitations are from the holder of [sk]. *)
Definition rows_from (sk : bytes) (rows : list WelcomeRow) : nat :=
  length (filter (λ r, we_sender_ipk (wr_env r) = verifying_key sk) rows).
End WelcomeExample.

Import Toy Mem KpExample ToyQueue ToyRelay WelcomeExample.

Lemma welcome_queue_bounded_witness :
  (length (prefix_rows (welcome_prefix bob) (welcome_view (serve lone_relay takeover))) <= MAX_WELCOMES_PER_RECIPIENT)%nat ∧
  (length (iterate_welcomes (serve lone_relay takeover) bob) <= MAX_WELCOMES_PER_RECIPIENT)%nat.
Proof. apply (welcome_queue_bounded lone_relay takeover bob); reflexivity. Defined.

Lemma welcome_fetch_exact_witness :
  let d := serve lone_relay takeover in
  let '(d', r) := handle_welcome_fetch quiet d (fetch_request 30) (relay_id (secret 2)) 30 in
  let live := live_rows 30 (iterate_welcomes d bob) in
  ∃ ws, r = WfFound ws ∧ length ws = 5%nat ∧
  (∃ n, ws = map entry_of (take n live) ∧
     ((length live <= n)%nat ∨
      ∃ r, live !! n = Some r ∧ WELCOME_FETCH_MAX_BYTES < size_of (take n live) + wr_len r)) ∧
  (∀ k v, welcome_view d' !! k = Some v → welcome_view d !! k = Some v) ∧
  (∀ k v r, welcome_view d !! k = Some v → parse_welcome k v = Some r → 30 < wr_expires r →
            welcome_view d' !! k = Some v).
Proof.
  cbn zeta. destruct (handle_welcome_fetch quiet (serve lone_relay takeover) (fetch_request 30) (relay_id (secret 2)) 30)
    as [d' r] eqn:Hr.
  assert (∃ ws, r = WfFound ws ∧ length ws = 5%nat) as (ws & -> & Hlen).
  { change r with (d', r).2. rewrite <- Hr. eexists. split; [vm_compute; reflexivity|reflexivity]. }
  exists ws. split; [reflexivity|]. split; [exact Hlen|].
  apply (welcome_fetch_exact lone_relay takeover quiet (fetch_request 30) (relay_id (secret 2)) 30 d' ws);
    [reflexivity|reflexivity|exact Hr].
Defined.

(** The per-inviter share of a recipient's queue can be exceeded.  The id of an
    invitation does not cover its sender, and a publish under a stored id skips the caps:
    an inviter who signs copies of others' invitations takes their rows over and ends up
    with more than [MAX_WELCOMES_PER_SENDER] of them, each publish answered [Stored]. *)
Theorem welcome_sender_cap_bypassed :
  let '(rs, d) := answers lone_relay takeover in
  let rows := iterate_welcomes d bob in
  rs = replicate 10 (RsWelcomePublish WpStored) ∧
  rows_from (secret 5) rows = S MAX_WELCOMES_PER_SENDER ∧ rows_from (secret 3) rows = 0%nat.
Proof. vm_compute. split_and!; reflexivity. Qed.
