(* ===== verification/Forward.v ===== *)
(** * Forward: the requests a relay originates

    [relay/src/dht/rpc.rs], [forward.rs], [mls/kp_originate.rs],
    [mls/welcome_originate.rs], [mls/inventory.rs], [push_replication.rs],
    [queue_drain.rs] and the drift migration of [sync/mod.rs].  The other relays are a
    [Network]: asking one may change it and may go unanswered.  The order replies arrive
    in is the network's choice. *)

From S2P Require Import Prelude Bytes Crypto Proto MlsWire Keyspace Store Routing Queue KeyPackages Contracts Dht Mls.

(** ** The network *)

Class Network (N : Type) := {
  (** One request on a connection to the peer; [None] is a failure or a missed budget. *)
  net_exchange : N → NodeDescriptor → DhtRequest → N * option DhtResponse;
  (** The services remembered for the connection to the peer, and remembering them, which
      a closed connection ignores. *)
  net_services : N → NodeDescriptor → option (list (Z * list Z));
  net_remember : N → NodeDescriptor → list (Z * list Z) → N;
  (** The order a fan-out's tasks finish in. *)
  net_order : N → list NodeDescriptor → list NodeDescriptor;
  net_order_perm : ∀ n l, net_order n l ≡ₚ l;
}.

Definition FORWARD_K_MIN : nat := 2.

(** [write_quorum] *)
Definition write_quorum (home_count : nat) : nat := if decide (home_count = 1%nat) then 1 else FORWARD_K_MIN.

(** [required_service] *)
Definition required_service (req : DhtRequest) : option (Z * Z) :=
  match req with
  | RqKeyPackagePublish _ | RqKeyPackageFetch _ => Some (KEY_PACKAGE_CUSTODY, KEY_PACKAGE_CUSTODY_VERSION)
  | RqKeyPackageInventory _ => Some (KEY_PACKAGE_INVENTORY, KEY_PACKAGE_INVENTORY_VERSION)
  | _ => None
  end.

Section net.
Context {N : Type} `{Network N}.

(** [peer_services] *)
Definition peer_services (n : N) (peer : NodeDescriptor) : N * option (list (Z * list Z)) :=
  match net_services n peer with
  | Some support => (n, Some support)
  | None =>
      let '(n1, r) := net_exchange n peer RqServiceCapabilities in
      match r with
      | Some (RsServiceCapabilities supported) =>
          match Support.decode supported with
          | Ok support => (net_remember n1 peer support, Some support)
          | Err _ => (n1, None)
          end
      | _ => (n1, None)
      end
  end.

(** [rpc] *)
Definition rpc (n : N) (peer : NodeDescriptor) (req : DhtRequest) : N * option DhtResponse :=
  match required_service req with
  | Some (id, version) =>
      let '(n1, support) := peer_services n peer in
      if is_some_and (λ s, Support.supports s id version) support then net_exchange n1 peer req
      else (n1, None)
  | None => net_exchange n peer req
  end.

Fixpoint fan_out_loop (n : N) (peers : list NodeDescriptor) (req : DhtRequest)
    : N * list (bytes * DhtResponse) :=
  match peers with
  | [] => (n, [])
  | peer :: peers' =>
      let '(n1, r) := rpc n peer req in
      let '(n2, replies) := fan_out_loop n1 peers' req in
      (n2, match r with Some r => (nd_id peer, r) :: replies | None => replies end)
  end.

(** [fan_out] *)
Definition fan_out (n : N) (peers : list NodeDescriptor) (req : DhtRequest) : N * list (bytes * DhtResponse) :=
  fan_out_loop n (net_order n peers) req.
End net.

(** ** Forwarding a dispatch *)

Record ForwardSummary := mkSummary {
  homes_tried : list bytes;
  delivered_at : list bytes;
  stored_at : list bytes;
  failed_at : list (bytes * ForwardOutcome);
}.

Definition summary_default : ForwardSummary := mkSummary [] [] [] [].

Definition success_count (s : ForwardSummary) : nat := length (delivered_at s) + length (stored_at s).

Definition any_delivered (s : ForwardSummary) : bool := bool_decide (delivered_at s ≠ []).

Definition meets_k_min (s : ForwardSummary) : bool :=
  (write_quorum (length (homes_tried s)) <=? success_count s)%nat.

(** [ForwardSummary::record] *)
Definition record (s : ForwardSummary) (node : bytes) (outcome : ForwardOutcome) : ForwardSummary :=
  match outcome with
  | Proto.Delivered => mkSummary (homes_tried s) (delivered_at s ++ [node]) (stored_at s) (failed_at s)
  | Stored => mkSummary (homes_tried s) (delivered_at s) (stored_at s ++ [node]) (failed_at s)
  | other => mkSummary (homes_tried s) (delivered_at s) (stored_at s) (failed_at s ++ [(node, other)])
  end.

Definition record_replies (s : ForwardSummary) (replies : list (bytes * DhtResponse)) : ForwardSummary :=
  fold_left (λ s x, match x with (node, RsForward outcome) => record s node outcome | _ => s end) replies s.

Section originate.
Context `{Crypto} `{RelayCodecs} {KS : Type} `{Keyspace KS} {N : Type} `{Network N}.
Local Abbreviation dht := (Dht (KS := KS)).
Implicit Types (d : dht) (e : Env) (n : N).

(** [build_signed_forward] *)
Definition build_signed_forward d (dispatch : DispatchP) (timestamp : Z) : Forward :=
  let sig := sign (signing_key d) (forward_signing_input (d_id dispatch) (node_id d) timestamp) in
  mkForward dispatch (node_id d) timestamp sig.

(** What a relay that is itself a home does with the dispatch. *)
Definition forward_to_self e d (dispatch : DispatchP) (now_ms : Z) : dht * ForwardOutcome :=
  let user := d_to dispatch in
  let delivered := match active_lease d user now_ms with
                   | Some lease => forward_via_active_lease e d dispatch lease
                   | None => false
                   end in
  if delivered then (d, Proto.Delivered)
  else
    let '(s, stored) := enqueue_for_home (store d) user dispatch now_ms in
    let d' := set_store d s in
    let outcome := if decide (stored = Stored) then if durable e then stored else BadSig else stored in
    ((if decide (outcome = Stored) then
        if wakes (d_wake dispatch) then trigger_wake e d' user (d_wake dispatch) else d'
      else d'), outcome).

(** [forward_to_homes]; [Err] carries the summary of too few replicas. *)
Definition forward_to_homes e d n (dispatch : DispatchP) (now_ms : Z)
    : dht * N * result ForwardSummary ForwardSummary :=
  let '(descriptors, self_is_home) := dht_homes d (d_to dispatch) in
  let homes := map nd_id descriptors ++ (if self_is_home then [node_id d] else []) in
  let '(d1, summary) :=
    if self_is_home
    then let '(d1, outcome) := forward_to_self e d dispatch now_ms in
         (d1, record summary_default (node_id d) outcome)
    else (d, summary_default) in
  let forward := RqForward (build_signed_forward d1 dispatch now_ms) in
  let '(n1, replies) := fan_out n descriptors forward in
  let summary := record_replies summary replies in
  let summary := mkSummary homes (delivered_at summary) (stored_at summary) (failed_at summary) in
  (d1, n1, if meets_k_min summary then Ok summary else Err summary).

(** [to_homes] *)
Definition to_homes d n (user : bytes) (req : DhtRequest) : N := (fan_out n (dht_homes d user).1 req).1.

(** [forward_activity_to_homes] *)
Definition forward_activity_to_homes d n (activity : ActivityP) : N :=
  to_homes d n (ac_to activity) (RqActivityForward activity).

(** [forward_presence_consent] *)
Definition forward_presence_consent d n (consent : PresenceConsent) : N :=
  to_homes d n (co_recipient consent) (RqPresenceConsent consent).

(** [forward_presence_lease] *)
Definition forward_presence_lease d n (lease : PresenceLease) (now : Z) : dht * N :=
  let d' := (handle_presence_lease_rpc d lease (node_id d) now).1 in
  (d', to_homes d' n (le_user lease) (RqPresenceLease lease)).

(** [forward_presence_state] *)
Definition forward_presence_state d n (r : RelayPresenceState) (now : Z) : dht * N :=
  let d' := (handle_presence_state_rpc d r (node_id d) now).1 in
  (d', to_homes d' n (rp_recipient r) (RqPresenceState r)).

(** ** Asking the homes *)

(** [ask_homes]: this relay, when a home, answers through its own dispatcher first. *)
Definition ask_homes e d n (target : bytes) (req : DhtRequest) (now : Z)
    : dht * N * (list bytes * list (bytes * DhtResponse)) :=
  let '(peers, is_home) := dht_homes d target in
  let asked := map nd_id peers ++ (if is_home then [node_id d] else []) in
  let '(d1, local) :=
    if is_home
    then let '(d1, reply) := handle_dht_request e d req (node_id d) now in (d1, [(node_id d, reply)])
    else (d, []) in
  let '(n1, replies) := fan_out n peers req in
  (d1, n1, (asked, local ++ replies)).

Record KpPublishQuorum := mkKpQuorum { homes_succeeded : Z; quorum_met : bool }.

Definition is_kp_stored (r : bytes * DhtResponse) : bool :=
  match r.2 with RsKeyPackagePublish KpStored => true | _ => false end.

(** [originate_publish]; [succeeded as u8] keeps the low eight bits. *)
Definition originate_publish e d n (ipk : bytes) (records : list KeyPackageRecord) (timestamp : Z)
    (sig : bytes) (now : Z) : dht * N * KpPublishQuorum :=
  let req := RqKeyPackagePublish (mkKpPublish ipk records timestamp sig) in
  let '(d1, n1, (asked, replies)) := ask_homes e d n (key_package_stash_prefix ipk) req now in
  let succeeded := length (List.filter is_kp_stored replies) in
  (d1, n1, mkKpQuorum (Z.of_nat succeeded mod 2 ^ 8) (write_quorum (length asked) <=? succeeded)%nat).

Record KpFetchResult := mkKpFetchResult {
  kr_unavailable : bool;
  kr_record : option KeyPackageRecord;
  kr_remaining : Z;
  kr_static_hash : bytes;
}.

(** What one reply of [originate_fetch] does: stop with a result, or go on with the flag. *)
Definition fetch_reply (unavailable : bool) (reply : option DhtResponse) : KpFetchResult + bool :=
  match reply with
  | Some (RsKeyPackageFetch (KfFound f)) =>
      inl (mkKpFetchResult false (Some (kff_record f)) (kff_remaining f) (kff_static_hash f))
  | Some (RsKeyPackageFetch KfNoStash) | Some (RsKeyPackageFetch KfNotOwner) => inr unavailable
  | _ => inr true
  end.

Fixpoint fetch_loop n (peers : list NodeDescriptor) (req : DhtRequest) (unavailable : bool)
    : N * KpFetchResult :=
  match peers with
  | [] => (n, mkKpFetchResult unavailable None 0 (replicate 32 0))
  | peer :: peers' =>
      let '(n1, reply) := rpc n peer req in
      match fetch_reply unavailable reply with
      | inl r => (n1, r)
      | inr u => fetch_loop n1 peers' req u
      end
  end.

(** [originate_fetch]: one home at a time, this relay first, until one finds a package. *)
Definition originate_fetch e d n (target_ipk : bytes) (now_ms : Z) : dht * N * KpFetchResult :=
  let '(peers, is_home) := dht_homes d (key_package_stash_prefix target_ipk) in
  let req := RqKeyPackageFetch (mkKpFetch target_ipk (node_id d) now_ms) in
  if is_home then
    let '(d1, reply) := handle_dht_request e d req (node_id d) now_ms in
    match fetch_reply false (Some reply) with
    | inl r => (d1, n, r)
    | inr u => let '(n1, r) := fetch_loop n peers req u in (d1, n1, r)
    end
  else let '(n1, r) := fetch_loop n peers req false in (d, n1, r).

Definition is_welcome_stored (r : bytes * DhtResponse) : bool :=
  match r.2 with RsWelcomePublish WpStored => true | _ => false end.

(** [originate_welcome_publish] *)
Definition originate_welcome_publish e d n (envelope : WelcomeEnvelopeP) (timestamp now : Z) : dht * N * bool :=
  let '(d1, n1, (asked, replies)) :=
    ask_homes e d n (welcome_prefix (we_recipient_ipk envelope)) (RqWelcomePublish (mkWPublish envelope timestamp))
      now in
  (d1, n1, (write_quorum (length asked) <=? length (List.filter is_welcome_stored replies))%nat).

(** One entry of the merge: the first with its [(group_id, kp_ref_used)] stays. *)
Definition merge_entry (merged : list WelcomeEntry) (entry : WelcomeEntry) : list WelcomeEntry :=
  let key w := (we_group_id (wen_envelope w), we_kp_ref_used (wen_envelope w)) in
  if bool_decide (key entry ∈ map key merged) then merged else merged ++ [entry].

Definition merge_reply (merged : list WelcomeEntry) (reply : bytes * DhtResponse) : list WelcomeEntry :=
  match reply.2 with
  | RsWelcomeFetch (WfFound welcomes) => fold_left merge_entry welcomes merged
  | _ => merged
  end.

(** [originate_welcome_fetch] *)
Definition originate_welcome_fetch e d n (user_ipk : bytes) (timestamp : Z) (sig : bytes) (now : Z)
    : dht * N * list WelcomeEntry :=
  let req := RqWelcomeFetch (mkWFetch user_ipk (node_id d) timestamp sig) in
  let '(d1, n1, (_, replies)) := ask_homes e d n (welcome_prefix user_ipk) req now in
  (d1, n1, fold_left merge_reply replies []).

(** [originate_welcome_ack] *)
Definition originate_welcome_ack e d n (user_ipk : bytes) (welcome_ids : list bytes) (timestamp : Z)
    (sig : bytes) (now : Z) : dht * N :=
  let req := RqWelcomeAck (mkWAck user_ipk (node_id d) welcome_ids timestamp sig) in
  (ask_homes e d n (welcome_prefix user_ipk) req now).1.

(** The snapshot a reply to an inventory request contributes for its home. *)
Definition reply_snapshot (request : Inventory.Request) (node inventory : bytes) : option Inventory.Snapshot :=
  match Inventory.decode inventory with
  | Ok i =>
      match Inventory.homes i with
      | [h] => if Inventory.matches i request && bool_decide (Inventory.node h = node)
               then Inventory.snapshot h else None
      | _ => None
      end
  | Err _ => None
  end.

(** The [BTreeMap] of [originate]: ascending keys. *)
Fixpoint home_insert (node : bytes) (s : option Inventory.Snapshot) (l : list Inventory.Home)
    : list Inventory.Home :=
  match l with
  | [] => [Inventory.mkHome node s]
  | h :: l' =>
      if bool_decide (node = Inventory.node h) then Inventory.mkHome node s :: l'
      else if bool_decide (bytes_lt node (Inventory.node h)) then Inventory.mkHome node s :: l
      else h :: home_insert node s l'
  end.

(** [originate] of [mls/inventory.rs] *)
Definition originate_inventory e d n (request : Inventory.Request) (now : Z)
    : dht * N * option Inventory.Inventory :=
  if negb (authorized request (node_id d) now) then (d, n, None)
  else
    let owner := Inventory.rq_owner request in
    let req := RqKeyPackageInventory (Inventory.encode_request request) in
    let '(d1, n1, (asked, replies)) := ask_homes e d n (key_package_stash_prefix owner) req now in
    let homes := fold_left (λ l node, home_insert node None l) asked [] in
    let homes :=
      fold_left (λ l r, match r with
                        | (node, RsKeyPackageInventory inventory) =>
                            home_insert node (reply_snapshot request node inventory) l
                        | _ => l
                        end) replies homes in
    (d1, n1, match homes with
             | [] => None
             | _ => Some (Inventory.mkInventory owner (Inventory.rq_timestamp request) homes)
             end).
End originate.
