(* ===== verification/Sync.v ===== *)
(** * Sync: replication of push registrations, remote drains and the scheduled sweeps

    [relay/src/dht/push_replication.rs], the requesting half of [queue_drain.rs], and the
    bucket refresh and drift migration of [sync/mod.rs].  The migrations of a sweep run
    concurrently in the source; here they run one at a time. *)

From S2P Require Import Prelude Bytes Crypto Proto MlsWire Keyspace Store Routing Queue KeyPackages Contracts Lookup Dht Mls Forward.

Definition MAX_PENDING_PUSHES : nat := 4096.
Definition MAX_PENDING_RETRIES_PER_SWEEP : nat := 32.
Definition MAX_MIGRATE_PER_SWEEP : Z := 256.
Definition MAX_BUCKET_REFRESH_PER_SCAN : nat := 4.

(** ** Bucket refresh *)

(** What a refresh learns from outside: the random bytes, the peers' replies, and which
    peers answered at all. *)
Record RefreshEnv := mkRefreshEnv {
  rf_noise : option bytes;
  rf_net : Net;
  rf_answered : bytes → bool;
}.

(** One bucket of [run_bucket_refresh]: the walk's liveness feedback, then the mark when
    the walk succeeds. *)
Definition refresh_bucket (t : RoutingTable) (node_id : bytes) (allow_local : bool) (now : Z)
    (idx : nat) (f : RefreshEnv) : RoutingTable :=
  match random_id_in_bucket node_id idx (rf_noise f) with
  | None => t
  | Some target =>
      match lookup_node (rf_net f) t node_id target allow_local with
      | Some (r, batches) =>
          let t' := foldl (λ t p, record_liveness t (nd_id p) (rf_answered f (nd_id p)) now) t
                      (List.concat batches) in
          match r with Ok _ => mark_refreshed t' idx now | Err _ => t' end
      | None => t
      end
  end.

(** [run_bucket_refresh] *)
Definition run_bucket_refresh (t : RoutingTable) (node_id : bytes) (allow_local : bool) (now : Z)
    (env : nat → RefreshEnv) : RoutingTable :=
  foldl (λ t idx, refresh_bucket t node_id allow_local now idx (env idx)) t
    (take MAX_BUCKET_REFRESH_PER_SCAN (buckets_needing_refresh t now)).

Section sync.
Context `{Crypto} `{RelayCodecs} {KS : Type} `{Keyspace KS} {N : Type} `{Network N}.
Local Abbreviation dht := (Dht (KS := KS)).
Implicit Types (d : dht) (e : Env) (n : N).

(** ** Push registrations *)

(** [persist_pending]: a failed read counts as a new user, and the scan's errors count
    as rows. *)
Definition persist_pending d (publish : PushPseudonymPublish) : dht * bool :=
  let pending := space (store d) KsPushPending in
  let is_new := match ks_get pending (pp_user_ipk publish) with Some (Some _) => false | _ => true end in
  if is_new && (MAX_PENDING_PUSHES <=? length (take MAX_PENDING_PUSHES (ks_iter pending)))%nat then (d, false)
  else match put_pending_push (store d) publish with
       | Some s => (set_store d s, true)
       | None => (d, false)
       end.

(** A store operation whose failure is ignored. *)
Definition try_store d (op : Store KS → option (Store KS)) : dht :=
  match op (store d) with Some s => set_store d s | None => d end.

Definition is_accepted (r : bytes * DhtResponse) : bool :=
  match r.2 with RsPushPseudonymPublish true => true | _ => false end.

(** [replicate_to_homes] *)
Definition replicate_to_homes d n (publish : PushPseudonymPublish) (now_ms : Z) : dht * N :=
  let '(d1, pending) := persist_pending d publish in
  if negb pending then (d1, n)
  else
    let user := pp_user_ipk publish in
    let '(homes, self_is_home) := dht_homes d1 user in
    let d2 := if self_is_home
              then try_store d1 (λ s, put_push_pseudonym s user (pp_pseudonym publish) now_ms) else d1 in
    let '(n1, replies) := fan_out n homes (RqPushPseudonymPublish publish) in
    ((if self_is_home || existsb is_accepted replies
      then try_store d2 (λ s, remove_pending_push s user) else d2), n1).

Fixpoint retry_loop d n (pending : list PushPseudonymPublish) (now_ms : Z) : dht * N :=
  match pending with
  | [] => (d, n)
  | publish :: pending' =>
      if abs_diff now_ms (pp_timestamp publish) >? MAX_DHT_HELLO_SKEW_MS
      then retry_loop (try_store d (λ s, remove_pending_push s (pp_user_ipk publish))) n pending' now_ms
      else let '(d1, n1) := replicate_to_homes d n publish now_ms in retry_loop d1 n1 pending' now_ms
  end.

(** The records a sweep replays: [min] of them from [start] on, wrapping. *)
Definition retry_window {A} (pending : list A) (start : nat) : list A :=
  omap (λ i, pending !! ((start + i) mod length pending)%nat)
    (seq 0 (Nat.min (length pending) MAX_PENDING_RETRIES_PER_SWEEP)).

(** [retry_pending_sweep]; the cursor is far below its 64-bit wrap. *)
Definition retry_pending_sweep d n (cursor : nat) (now_ms : Z) : dht * N * nat :=
  match pending_pushes (store d) with
  | [] => (d, n, cursor)
  | pending => (retry_loop d n (retry_window pending cursor) now_ms, (cursor + MAX_PENDING_RETRIES_PER_SWEEP)%nat)
  end.

(** ** Remote drains *)

(** What one reply adds to a drain: the dispatches with ids not seen before. *)
Definition merge_dispatch (out : list DispatchP) (x : DispatchP) : list DispatchP :=
  if bool_decide (d_id x ∈ map d_id out) then out else out ++ [x].

Definition merge_batch (out : list DispatchP) (reply : bytes * DhtResponse) : list DispatchP :=
  match reply.2 with
  | RsQueueFetch r => fold_left merge_dispatch (messages r) out
  | _ => out
  end.

(** [fetch_remote_queues] *)
Definition fetch_remote_queues d n (user_ipk : bytes) (timestamp : Z) (sig : bytes)
    (homes : list NodeDescriptor) : N * list DispatchP :=
  let fetch := RqQueueFetch (mkQueueFetch user_ipk (node_id d) timestamp sig) in
  let '(n1, replies) := fan_out n homes fetch in
  (n1, fold_left merge_batch replies []).

(** [ack_remote_queues] *)
Definition ack_remote_queues d n (user_ipk : bytes) (delivered_ids : list bytes) (timestamp : Z) (sig : bytes)
    (homes : list NodeDescriptor) : N :=
  let ack := RqQueueFetchAck (mkQueueFetchAck user_ipk (node_id d) delivered_ids timestamp sig) in
  (fan_out n homes ack).1.

(** ** Drift migration *)

Definition attested d (id : bytes) : bool :=
  bool_decide (id ≠ node_id d) && is_some_and (λ pk, bool_decide (NodeId_new pk = id)) (peer_conns d !! id).

(** [handover_is_durable] *)
Definition handover_is_durable d (summary : ForwardSummary) : bool :=
  (FORWARD_K_MIN <=? length (List.filter (attested d) (delivered_at summary ++ stored_at summary)))%nat.

(** [migrate_one]; [peers] are the connections when the forward has returned, which its
    dials may have added to. *)
Definition migrate_one e d n (peers : gmap bytes bytes) (key : MessageKey) (dispatch : DispatchP) (now_ms : Z)
    : dht * N :=
  let '(d1, n1, r) := forward_to_homes e d n dispatch now_ms in
  let d1 := mkDht (routing d1) (store d1) peers (node_id d1) (signing_key d1) (clients d1)
              (presence_leases d1) (wakes_sent d1) in
  match r with
  | Ok summary =>
      if handover_is_durable d1 summary
      then (set_store d1 (delete_migrated_entry (store d1) key).1, n1) else (d1, n1)
  | Err _ => (d1, n1)
  end.

Fixpoint migrate_all e d n (peers : gmap bytes bytes) (candidates : list (MessageKey * DispatchP)) (now_ms : Z)
    : dht * N :=
  match candidates with
  | [] => (d, n)
  | (key, dispatch) :: rest =>
      let '(d1, n1) := migrate_one e d n peers key dispatch now_ms in migrate_all e d1 n1 peers rest now_ms
  end.

(** [run_drift_migration_sweep] *)
Definition run_drift_migration_sweep e d n (peers : gmap bytes bytes) (now_ms : Z) : dht * N :=
  migrate_all e d n peers (plan_drift_migrations (routing d) (node_id d) (store d) MAX_MIGRATE_PER_SWEEP) now_ms.
End sync.
