(* ===== verification/ForwardProps.v ===== *)
(** * ForwardProps: quorum, custody and migration

    What [forward_to_homes] reports is what the homes answered, each home counted once.
    In a [Cluster], where the peers are relays running the modelled dispatcher behind a
    lossy network, a home counted as a success holds the dispatch or took it live, and a
    drift migration drops a row only when enough attested homes did. *)

From S2P Require Import Prelude Bytes Crypto Proto MlsWire Keyspace Store StoreProps Routing RoutingInv Homes Queue QueueProps KeyPackages KeyPackagesProps Contracts Lookup Dht Mls Forward Sync Examples.

(** ** Any network *)

(** Every home a summary mentions. *)
Definition mentioned (s : ForwardSummary) : list bytes := delivered_at s ++ stored_at s ++ map fst (failed_at s).

Lemma record_mentioned s node outcome : mentioned (record s node outcome) ≡ₚ node :: mentioned s.
Proof.
  destruct outcome; unfold mentioned; cbn; rewrite ?map_app; cbn; solve_Permutation.
Qed.

Lemma record_replies_mentioned replies : ∀ s,
  mentioned (record_replies s replies) ⊆+ mentioned s ++ map fst replies.
Proof.
  induction replies as [|[node r] replies IH]; intros s; cbn; [by rewrite app_nil_r|].
  etrans; [apply IH|]. rewrite <- Permutation_middle, app_comm_cons.
  destruct r; try (apply submseteq_skips_r, submseteq_cons; done).
  apply submseteq_skips_r. by rewrite record_mentioned.
Qed.

Section any_network.
Context {N : Type} `{Network N}.

Lemma fan_out_loop_ids req peers : ∀ n, map fst (fan_out_loop n peers req).2 `sublist_of` map nd_id peers.
Proof.
  induction peers as [|p peers IH]; intros n; [done|]. cbn [fan_out_loop].
  destruct (rpc n p req) as [n1 [r|]]; specialize (IH n1); destruct (fan_out_loop n1 peers req) as [n2 rs];
    cbn in *; by constructor.
Qed.

Lemma fan_out_ids req peers n : map fst (fan_out n peers req).2 ⊆+ map nd_id peers.
Proof.
  etrans; [apply sublist_submseteq, fan_out_loop_ids|]. by rewrite net_order_perm.
Qed.
End any_network.

(** The homes a relay selects are distinct and, but for itself, other relays. *)
Lemma homes_NoDup t id target :
  wf_table t → wf_arr 32 target → NoDup (map nd_id (homes t id target).1).
Proof.
  intros Hwf Ht. unfold homes, find_closest. cbn [fst].
  destruct (closest_sorted t target K Hwf Ht) as (s & Hp & _ & ->).
  assert (Hnd : NoDup (map nd_id (map descriptor (take K s)))).
  { rewrite map_map. cbn. apply NoDup_map_take. rewrite Hp. by apply all_entries_NoDup. }
  match goal with |- context [if ?b then _ else _] => destruct b end; [by apply NoDup_map_take|done].
Qed.

Lemma homes_not_self t id target x :
  wf_table t → wf_arr 32 target → x ∈ map nd_id (homes t id target).1 → x ≠ self_id t.
Proof.
  intros Hwf Ht Hx. assert (Hin : x ∈ map nd_id (find_closest t target K)).
  { unfold homes in Hx. cbn [fst] in Hx.
    match type of Hx with context [if ?b then _ else _] => destruct b end; [|done].
    apply list_elem_of_fmap in Hx as (y & -> & (i & Hy%list_elem_of_lookup_2 & _)%elem_of_take). by apply list_elem_of_fmap_2. }
  unfold find_closest in Hin. destruct (closest_sorted t target K Hwf Ht) as (s & Hp & _ & Hc). rewrite Hc in Hin.
  rewrite map_map in Hin. apply list_elem_of_fmap in Hin as (y & -> & (i & Hy%list_elem_of_lookup_2 & _)%elem_of_take).
  rewrite Hp in Hy. by destruct (all_entries_wf _ _ Hwf Hy).
Qed.

(** ** A cluster of relays *)

Section cluster.
Context `{Crypto} `{RelayCodecs} {KS : Type} `{!Keyspace KS}.
Local Abbreviation dht := (Dht (KS := KS)).

(** What the world does around one request: what the asked relay's handler learns from
    outside, its clock, and whether the request and the reply get through. *)
Record World := mkWorld {
  w_env : bytes → Env;
  w_now : bytes → Z;
  w_arrives : bytes → bool;
  w_answered : bytes → bool;
}.

(** The relays [c_sender] can ask, by id, and the world at each step. *)
Record Cluster := mkCluster {
  c_sender : bytes;
  c_relays : gmap bytes dht;
  c_services : gmap bytes (list (Z * list Z));
  c_step : nat;
  c_world : nat → World;
  c_order : nat → list NodeDescriptor → list NodeDescriptor;
  c_order_perm : ∀ i l, c_order i l ≡ₚ l;
}.

Definition c_next (c : Cluster) (relays : gmap bytes dht) : Cluster :=
  mkCluster (c_sender c) relays (c_services c) (S (c_step c)) (c_world c) (c_order c) (c_order_perm c).

Definition c_exchange (c : Cluster) (peer : NodeDescriptor) (req : DhtRequest) : Cluster * option DhtResponse :=
  let w := c_world c (c_step c) in
  let id := nd_id peer in
  match c_relays c !! id with
  | Some d =>
      if w_arrives w id then
        let '(d', r) := handle_dht_request (w_env w id) d req (c_sender c) (w_now w id) in
        (c_next c (<[id := d']> (c_relays c)), if w_answered w id then Some r else None)
      else (c_next c (c_relays c), None)
  | None => (c_next c (c_relays c), None)
  end.

#[export] Program Instance cluster_network : Network Cluster := {|
  net_exchange := c_exchange;
  net_services c peer := c_services c !! nd_id peer;
  net_remember c peer s :=
    mkCluster (c_sender c) (c_relays c) (<[nd_id peer := s]> (c_services c)) (c_step c) (c_world c) (c_order c)
      (c_order_perm c);
  net_order c := c_order c (c_step c);
|}.
Next Obligation. intros c l. cbn. apply c_order_perm. Qed.

(** ** What forwarding leaves alone *)

(** [d'] is [d] with more queued messages: queued rows stay, and everything a live
    delivery depends on is the same. *)
Record grows (d d' : dht) : Prop := {
  gr_rows : ∀ k v, is_queue_key k → view (store d) KsQueue !! k = Some v → view (store d') KsQueue !! k = Some v;
  gr_space : ∀ n, n ≠ KsQueue → space (store d') n = space (store d) n;
  gr_routing : routing d' = routing d;
  gr_node_id : node_id d' = node_id d;
  gr_signing_key : signing_key d' = signing_key d;
  gr_clients : clients d' = clients d;
}.

#[export] Instance grows_preorder : PreOrder grows.
Proof.
  split; [by constructor|]. intros d1 d2 d3 [] []. constructor; try congruence; eauto.
  intros n Hn. rewrite gr_space1 by done. auto.
Qed.

Lemma enqueue_space s user x now n : n ≠ KsQueue → space (enqueue_for_home (KS := KS) s user x now).1 n = space s n.
Proof.
  intros Hn. unfold enqueue_for_home. destruct (admit_to_queue _ _ _ _); try done.
  destruct (ser x); [|done]. destruct (put_sync _ _ _ _) as [s'|] eqn:E; [|done].
  cbn. by eapply put_sync_space.
Qed.

Definition dispatch_typed (x : DispatchP) : Prop := wf_arr 32 (d_to x) ∧ wf_arr 16 (d_id x).

(** A fresh row never takes the place of another. *)
Lemma enqueue_rows s x now k v :
  dispatch_typed x → is_queue_key k → view s KsQueue !! k = Some v →
  view (enqueue_for_home (KS := KS) s (d_to x) x now).1 KsQueue !! k = Some v.
Proof.
  intros [Ht%wf_arr_length Hi%wf_arr_length] Hk Hv. pose proof (enqueue_cases s (d_to x) x now Ht Hi) as Hc.
  destruct (enqueue_for_home s (d_to x) x now) as [s' o]. cbn. destruct Hc as [->|(_ & value & _ & Hw & Hp & _ & _ & Hids)]; [done|].
  rewrite Hw. rewrite lookup_insert_ne; [done|]. intros <-.
  refine (Hids _ v _ eq_refl). by apply elem_of_queue_rows.
Qed.

Lemma trigger_wake_grows e d user w : grows d (trigger_wake (KS := KS) e d user w).
Proof. unfold trigger_wake. destruct (get_push_pseudonym _ _); [destruct (wake_ok e)|]; by constructor. Qed.

Lemma enqueue_grows d x now :
  dispatch_typed x → grows d (set_store d (enqueue_for_home (KS := KS) (store d) (d_to x) x now).1).
Proof. intros Hx. constructor; try done; cbn; [intros; by apply enqueue_rows|intros; by apply enqueue_space]. Qed.

Lemma handle_forward_grows e d f now :
  dispatch_typed (fw_dispatch f) → grows d (handle_forward_rpc (KS := KS) e d f now).1.
Proof.
  intros Hx. unfold handle_forward_rpc. destruct (resolve_sender_pubkey _ _); [|done].
  destruct (negb _); [done|]. destruct (negb _); [done|]. destruct (negb _); [done|].
  destruct (deliver_live _ _ _ _); [done|].
  pose proof (enqueue_grows d (fw_dispatch f) now Hx) as Hg.
  destruct (enqueue_for_home _ _ _ _) as [s o]. cbn in Hg. case_decide; [|done].
  destruct (durable e); [|done]. cbn [negb fst]. destruct (wakes _); [|done].
  etrans; [exact Hg|apply trigger_wake_grows].
Qed.

(** ** Custody *)

(** The queue has a row of this sender's dispatch. *)
Definition holds (m : gmap bytes bytes) (x : DispatchP) : Prop :=
  ∃ k v q, (k, v) ∈ queue_rows m (d_to x) ∧ drop 40 k = d_id x ∧
           queued_dispatch (d_to x) v = Some q ∧ d_from q = d_from x.

Lemma admit_scan_already user id sender sc : ∀ total fs att,
  admit_scan user id sender sc total fs att = inl AlreadyQueued →
  ∃ k v q, Some (k, v) ∈ sc ∧ is_queue_key k ∧ drop 40 k = id ∧
           queued_dispatch user v = Some q ∧ d_from q = sender.
Proof.
  induction sc as [|[[k v]|] sc IH]; intros total fs att; cbn; [done| |done].
  case_bool_decide as Hk; cbn; cycle 1.
  { intros (k' & v' & q & ? & ?)%IH. exists k', v', q. split; [by right|done]. }
  case_bool_decide as Hid.
  - destruct (att <? _); cbn; [|done]. destruct (queued_dispatch user v) as [q|] eqn:Hq; cbn; [|done].
    case_bool_decide; [|done]. intros _. exists k, v, q. split; [by left|done].
  - destruct (_ && _); [done|]. destruct (_ >=? _); [done|].
    intros (k' & v' & q & ? & ?)%IH. exists k', v', q. split; [by right|done].
Qed.

(** A row just written, and one an admission recognised. *)
Lemma put_holds s n x now value s' :
  dispatch_typed x → ser x = Some value →
  put_sync s n (MessageKey.as_bytes (MessageKey.new (d_to x) now (d_id x))) value = Some s' →
  holds (view (KS := KS) s' n) x.
Proof.
  intros [Ht%wf_arr_length Hi%wf_arr_length] Hser Hput.
  eexists _, value, x. rewrite elem_of_queue_rows, (put_sync_view _ _ _ _ _ _ Hput), decide_True by done.
  split_and!; [apply lookup_insert_eq|by eexists|by apply as_bytes_new_length| | |done].
  - unfold MessageKey.as_bytes. cbn. rewrite app_assoc, drop_app_length'; [done|].
    by rewrite length_app, length_be_bytes, Ht.
  - unfold queued_dispatch. by rewrite (deser_ser _ _ Hser).
Qed.

Lemma admit_holds s n x :
  admit_to_queue (space s n) (d_to x) (d_id x) (d_from x) = AlreadyQueued → holds (view (KS := KS) s n) x.
Proof.
  unfold admit_to_queue. destruct (admit_scan _ _ _ _ _ _ _) as [a|[t f]] eqn:Hs; [|by destruct (_ || _)].
  intros ->. apply admit_scan_already in Hs as (k & v & q & Hin & Hk & Hid & Hq & Hf).
  exists k, v, q. split; [|done]. apply (so_rows _ _ (ks_prefix_view _ _)) in Hin.
  apply elem_of_prefix_rows in Hin as [??]. by apply elem_of_queue_rows.
Qed.

Lemma enqueue_holds s x now s' :
  dispatch_typed x → enqueue_for_home (KS := KS) s (d_to x) x now = (s', Stored) → holds (view s' KsQueue) x.
Proof.
  intros Hx. unfold enqueue_for_home. destruct (admit_to_queue _ _ _ _) eqn:Ha; try done.
  - destruct (ser x) as [value|] eqn:Hser; [|done]. destruct (put_sync _ _ _ _) as [s1|] eqn:Hput; [|done].
    intros [= <-]. by eapply put_holds.
  - intros [= <-]. by apply admit_holds.
Qed.

Lemma holds_grows d d' x : grows d d' → holds (view (store d) KsQueue) x → holds (view (store d') KsQueue) x.
Proof.
  intros Hg (k & v & q & (Hv & Hp & Hk)%elem_of_queue_rows & ?). exists k, v, q.
  rewrite elem_of_queue_rows. split; [|done]. split; [by apply Hg|done].
Qed.

Lemma deliver_live_grows e d d' x now : grows d d' → deliver_live (KS := KS) e d' x now = deliver_live e d x now.
Proof.
  intros [_ Hs Hr Hn Hk Hc].
  unfold deliver_live, online, is_primary_home, active_lease, get_presence_lease, forward_via_active_lease.
  by rewrite Hs, Hr, Hn, Hk, Hc.
Qed.

(** A home answers [Stored] only when it holds the dispatch, [Delivered] only when it
    took it live. *)
Lemma handle_forward_success e d f now d' o :
  dispatch_typed (fw_dispatch f) → handle_forward_rpc (KS := KS) e d f now = (d', o) →
  (o = Stored → holds (view (store d') KsQueue) (fw_dispatch f) ∧ durable e = true) ∧
  (o = Proto.Delivered → deliver_live e d (fw_dispatch f) now = true).
Proof.
  intros Hx. unfold handle_forward_rpc. destruct (resolve_sender_pubkey _ _); [|by intros [= <- <-]].
  destruct (negb _); [by intros [= <- <-]|]. destruct (negb _); [by intros [= <- <-]|].
  destruct (negb _); [by intros [= <- <-]|]. destruct (deliver_live _ _ _ _) eqn:Hl; [by intros [= <- <-]|].
  destruct (enqueue_for_home _ _ _ _) as [s o1] eqn:Henq. case_decide as Ho; [subst o1|].
  - destruct (durable e); cbn [negb]; intros [= <- <-]; [|done]. split; [intros _|done]. split; [|done].
    apply (holds_grows (set_store d s)); [|by eapply enqueue_holds].
    destruct (wakes _); [apply trigger_wake_grows|done].
  - intros [= <- <-]. split; [done|]. intros ->. exfalso. revert Henq. unfold enqueue_for_home.
    destruct (admit_to_queue _ _ _ _); try done. destruct (ser _); [|done]. by destruct (put_sync _ _ _ _).
Qed.

(** Later states of a cluster in which only dispatches were forwarded. *)
Record evolves (c c' : Cluster) : Prop := {
  ev_world : c_world c' = c_world c;
  ev_relays : ∀ id, option_Forall2 grows (c_relays c !! id) (c_relays c' !! id);
}.

#[export] Instance evolves_preorder : PreOrder evolves.
Proof.
  split.
  - intros c. constructor; [done|]. intros id. destruct (c_relays c !! id); by constructor.
  - intros c1 c2 c3 [Hw1 Hr1] [Hw2 Hr2]. constructor; [congruence|]. intros id.
    specialize (Hr1 id). specialize (Hr2 id). destruct Hr1; inversion Hr2; constructor. by etrans.
Qed.

(** Between [c] and [c'] the relay [id] came to hold the dispatch, or took it live. *)
Definition custody (c c' : Cluster) (x : DispatchP) (id : bytes) : Prop :=
  ∃ r r', c_relays c !! id = Some r ∧ c_relays c' !! id = Some r' ∧
    (holds (view (store r') KsQueue) x ∨
     ∃ i, deliver_live (w_env (c_world c i) id) r x (w_now (c_world c i) id) = true).

Lemma custody_weaken c0 c c' c1 x id :
  evolves c0 c → evolves c' c1 → custody c c' x id → custody c0 c1 x id.
Proof.
  intros [Hw Ho] [_ Hl] (r & r' & Hr & Hr' & Hc). specialize (Ho id). specialize (Hl id).
  rewrite Hr in Ho. rewrite Hr' in Hl. inversion Ho as [r0 ? Hg0 E0 E0'|]; inversion Hl as [? r1 Hg1 E1 E1'|]; subst.
  exists r0, r1. split_and!; [done..|]. destruct Hc as [Hh|[i Hi]].
  - left. by eapply holds_grows.
  - right. exists i. by rewrite <- Hw, <- (deliver_live_grows _ _ _ _ _ Hg0).
Qed.

Definition succeeded (o : ForwardOutcome) : Prop := o = Stored ∨ o = Proto.Delivered.

Lemma c_next_evolves c relays :
  (∀ id, option_Forall2 grows (c_relays c !! id) (relays !! id)) → evolves c (c_next c relays).
Proof. by constructor. Qed.

Lemma exchange_forward c peer f c' r :
  dispatch_typed (fw_dispatch f) → c_exchange c peer (RqForward f) = (c', r) →
  evolves c c' ∧ ∀ o, r = Some (RsForward o) → succeeded o → custody c c' (fw_dispatch f) (nd_id peer).
Proof.
  intros Hx. unfold c_exchange.
  assert (Hidle : evolves c (c_next c (c_relays c))).
  { apply c_next_evolves. intros id. destruct (c_relays c !! id); by constructor. }
  destruct (c_relays c !! nd_id peer) as [d|] eqn:Hd; [|by intros [= <- <-]].
  set (w := c_world c (c_step c)). destruct (w_arrives w (nd_id peer)); [|by intros [= <- <-]].
  cbn [handle_dht_request]. pose proof (handle_forward_grows (w_env w (nd_id peer)) d f (w_now w (nd_id peer)) Hx) as Hg.
  destruct (handle_forward_rpc _ d f _) as [d' o] eqn:Hh. intros [= <- <-]. split.
  - apply c_next_evolves. intros id. destruct (decide (id = nd_id peer)) as [->|Hne].
    + rewrite Hd, lookup_insert_eq. by constructor.
    + rewrite lookup_insert_ne by done. destruct (c_relays c !! id); by constructor.
  - destruct (w_answered w _); [|done]. intros o' [= <-] Ho. exists d, d'. cbn. rewrite lookup_insert_eq.
    split_and!; [done..|]. destruct (handle_forward_success _ _ _ _ _ _ Hx Hh) as [Hst Hde].
    destruct Ho as [->| ->]; [left; by apply Hst|right; exists (c_step c); by apply Hde].
Qed.

Lemma fan_out_loop_forward f peers : ∀ c c' replies,
  dispatch_typed (fw_dispatch f) → fan_out_loop c peers (RqForward f) = (c', replies) →
  evolves c c' ∧ ∀ id o, (id, RsForward o) ∈ replies → succeeded o → custody c c' (fw_dispatch f) id.
Proof.
  induction peers as [|p peers IH]; intros c c' replies Hx; cbn.
  { intros [= <- <-]. split; [done|]. by intros ?? ?%not_elem_of_nil. }
  destruct (c_exchange c p (RqForward f)) as [c1 r] eqn:Hex.
  destruct (fan_out_loop c1 peers _) as [c2 rs] eqn:Hrest. intros [= <- <-].
  destruct (exchange_forward _ _ _ _ _ Hx Hex) as [Hev1 Hc1]. destruct (IH _ _ _ Hx Hrest) as [Hev2 Hc2].
  split; [by etrans|]. intros id o Hin Ho.
  assert (Hcase : r = Some (RsForward o) ∧ id = nd_id p ∨ (id, RsForward o) ∈ rs).
  { destruct r; [apply elem_of_cons in Hin as [[= -> <-]|]; auto|auto]. }
  destruct Hcase as [[-> ->]|Hin'].
  - apply (custody_weaken c c c1 c2); [done..|]. by eapply Hc1.
  - apply (custody_weaken c c1 c2 c2); [done..|]. by eapply Hc2.
Qed.

(** ** Forwarding *)

(** The homes that acknowledged a dispatch. *)
Definition successes (s : ForwardSummary) : list bytes := delivered_at s ++ stored_at s.

Lemma successes_mentioned s : successes s ⊆+ mentioned s.
Proof. unfold successes, mentioned. rewrite (app_assoc (delivered_at s)). by apply submseteq_inserts_r. Qed.

Lemma record_successes s node o id :
  id ∈ successes (record s node o) → id ∈ successes s ∨ id = node ∧ succeeded o.
Proof. unfold successes, succeeded. destruct o; cbn; set_solver. Qed.

Lemma record_replies_successes id replies : ∀ s,
  id ∈ successes (record_replies s replies) →
  id ∈ successes s ∨ ∃ o, (id, RsForward o) ∈ replies ∧ succeeded o.
Proof.
  induction replies as [|[node r] replies IH]; intros s; cbn; [auto|]. intros [Hin|(o & Hin & Ho)]%IH.
  - destruct r; auto. apply record_successes in Hin as [Hin|[-> Ho]]; [auto|]. right. exists outcome. split; [by left|done].
  - right. exists o. split; [by right|done].
Qed.

(** How a relay that is a home of the recipient keeps the dispatch itself. *)
Definition own_custody (e : Env) (d d' : dht) (x : DispatchP) (now : Z) : Prop :=
  holds (view (store d') KsQueue) x ∨
  ∃ lease, active_lease d (d_to x) now = Some lease ∧ forward_via_active_lease e d x lease = true.

Lemma forward_to_self_spec e d x now d' o :
  dispatch_typed x → forward_to_self e d x now = (d', o) →
  grows d d' ∧ (succeeded o → own_custody e d d' x now).
Proof.
  intros Hx. unfold forward_to_self.
  destruct (match active_lease _ _ _ with Some _ => _ | None => _ end) eqn:Hl.
  { intros [= <- <-]. split; [done|]. intros _. right.
    destruct (active_lease d (d_to x) now) as [lease|] eqn:He; [|done]. by exists lease. }
  pose proof (enqueue_grows d x now Hx) as Hg. pose proof (enqueue_holds (store d) x now) as Hh.
  destruct (enqueue_for_home _ _ _ _) as [s st] eqn:Henq. cbn in Hg. intros [= <- <-].
  destruct (decide (st = Stored)) as [->|Hst].
  - destruct (durable e); (destruct (decide _); [|split; [done|by intros [|]]]); [|done].
    assert (Hw : grows (set_store d s) (if wakes (d_wake x)
      then trigger_wake e (set_store d s) (d_to x) (d_wake x) else set_store d s)).
    { destruct (wakes _); [apply trigger_wake_grows|done]. }
    split; [by etrans|]. intros _. left. eapply holds_grows; [exact Hw|]. by eapply Hh.
  - rewrite decide_False by done. split; [done|]. intros [?| ->]; [done|]. exfalso. revert Henq.
    unfold enqueue_for_home. destruct (admit_to_queue _ _ _ _); try done.
    destruct (ser _); [|done]. by destruct (put_sync _ _ _ _).
Qed.

Lemma fan_out_forward c f peers c' replies :
  dispatch_typed (fw_dispatch f) → fan_out c peers (RqForward f) = (c', replies) →
  evolves c c' ∧ ∀ id o, (id, RsForward o) ∈ replies → succeeded o → custody c c' (fw_dispatch f) id.
Proof. apply fan_out_loop_forward. Qed.

(** What a forward leaves behind, acknowledged or not. *)
Lemma forward_spec e d (c : Cluster) x now d' c' r :
  dispatch_typed x → forward_to_homes e d c x now = (d', c', r) →
  grows d d' ∧ evolves c c' ∧
  ∀ s, r = Ok s → ∀ id, id ∈ successes s →
    custody c c' x id ∨
    id = node_id d ∧ (dht_homes d (d_to x)).2 = true ∧ own_custody e d d' x now.
Proof.
  intros Hx. unfold forward_to_homes. destruct (dht_homes d (d_to x)) as [peers self] eqn:Hh.
  destruct (if self then _ else _) as [d1 s0] eqn:Hself.
  assert (H1 : grows d d1 ∧ ∀ id, id ∈ successes s0 → id = node_id d ∧ self = true ∧ own_custody e d d1 x now).
  { destruct self; cycle 1.
    { injection Hself as <- <-. split; [done|]. by intros id ?%not_elem_of_nil. }
    destruct (forward_to_self e d x now) as [d2 o] eqn:Hf. injection Hself as <- <-.
    destruct (forward_to_self_spec _ _ _ _ _ _ Hx Hf) as [Hg Ho]. split; [done|].
    intros id [?%not_elem_of_nil|[-> ?]]%record_successes; [done|]. auto. }
  destruct (fan_out c peers _) as [c1 rs] eqn:Hfan. intros [= <- <- <-].
  apply fan_out_forward in Hfan as [Hev Hc]; [|done]. split_and!; [apply H1|done|].
  intros s. destruct (meets_k_min _); [|done]. intros [= <-] id Hid.
  change (id ∈ successes (record_replies s0 rs)) in Hid.
  apply record_replies_successes in Hid as [Hid|(o & Hin & Ho)]; [right; by apply H1|left; by eapply Hc].
Qed.

Section summary.
Context {N : Type} `{Network N}.

Lemma forward_summary e d (n : N) x now d' n' r :
  forward_to_homes e d n x now = (d', n', r) →
  ∃ s, r = (if meets_k_min s then Ok s else Err s) ∧
    homes_tried s = map nd_id (dht_homes d (d_to x)).1 ++ (if (dht_homes d (d_to x)).2 then [node_id d] else []) ∧
    mentioned s ⊆+ homes_tried s.
Proof.
  unfold forward_to_homes. destruct (dht_homes d (d_to x)) as [peers self].
  destruct (if self then _ else _) as [d1 s0] eqn:Hself.
  assert (Hs0 : mentioned s0 = if self then [node_id d] else []).
  { destruct self; [|by injection Hself as <- <-].
    destruct (forward_to_self e d x now) as [d2 o]. injection Hself as <- <-. by destruct o. }
  destruct (fan_out n peers _) as [n1 rs] eqn:Hfan. intros [= <- <- <-].
  eexists. split_and!; [done..|]. cbn [homes_tried fst snd].
  etrans; [apply (record_replies_mentioned rs s0)|]. rewrite Hs0, Permutation_app_comm.
  apply submseteq_skips_r. pose proof (fan_out_ids (RqForward (build_signed_forward d1 x now)) peers n) as Hids.
  by rewrite Hfan in Hids.
Qed.

Lemma homes_tried_NoDup d target :
  wf_table (routing d) → self_id (routing d) = node_id d → wf_arr 32 target →
  NoDup (map nd_id (dht_homes d target).1 ++ (if (dht_homes (KS := KS) d target).2 then [node_id d] else [])).
Proof.
  intros Hwf Hid Ht. unfold dht_homes. apply NoDup_app. split_and!; [by apply homes_NoDup| |].
  - intros id Hin Hself. apply homes_not_self in Hin; [|done..].
    destruct (homes _ _ _).2; [apply list_elem_of_singleton in Hself; congruence|by apply not_elem_of_nil in Hself].
  - destruct (homes _ _ _).2; [apply NoDup_singleton|apply NoDup_nil_2].
Qed.
End summary.

(** ** Migration *)

(** [FORWARD_K_MIN] distinct other relays, each with the key it is named by proved on a
    connection, came to hold the dispatch or took it live. *)
Definition handed_over (peers : gmap bytes bytes) (self : bytes) (c c' : Cluster) (x : DispatchP) : Prop :=
  ∃ ids, NoDup ids ∧ (FORWARD_K_MIN <= length ids)%nat ∧
    ∀ id, id ∈ ids → id ≠ self ∧ (∃ pk, peers !! id = Some pk ∧ NodeId_new pk = id) ∧ custody c c' x id.

Lemma handed_over_weaken peers self c0 c c' c1 x :
  evolves c0 c → evolves c' c1 → handed_over peers self c c' x → handed_over peers self c0 c1 x.
Proof.
  intros He0 He1 (ids & Hnd & Hlen & Hids). exists ids. split_and!; [done..|].
  intros id Hin. destruct (Hids id Hin) as (? & ? & ?). split_and!; [done..|]. by apply (custody_weaken c0 c c' c1).
Qed.

Lemma attested_spec d id :
  attested (KS := KS) d id = true → id ≠ node_id d ∧ ∃ pk, peer_conns d !! id = Some pk ∧ NodeId_new pk = id.
Proof.
  unfold attested, is_some_and. intros [?%bool_decide_eq_true_1 Hpk]%andb_true_iff. split; [done|].
  destruct (peer_conns d !! id) as [pk|]; [|done]. exists pk. split; [done|]. by apply bool_decide_eq_true_1 in Hpk.
Qed.

Lemma delete_migrated_view (s : Store KS) key k v :
  view s KsQueue !! k = Some v → view (delete_migrated_entry s key).1 KsQueue !! k = Some v ∨ k = MessageKey.as_bytes key.
Proof.
  intros Hv. unfold delete_migrated_entry. destruct (ks_remove _ _) as [ks|] eqn:Hrm; [|by left].
  destruct (decide (k = MessageKey.as_bytes key)) as [|Hne]; [by right|left].
  cbn. rewrite view_set_space, decide_True, (ks_remove_view _ _ _ Hrm) by done. by rewrite lookup_delete_ne.
Qed.

(** The routing table a relay starts its migrations with. *)
Definition well_placed (d : dht) : Prop := wf_table (routing d) ∧ self_id (routing d) = node_id d.

Lemma handover_handed e d (c : Cluster) peers x now d' c' s (d1 : dht) :
  dispatch_typed x → well_placed d → forward_to_homes e d c x now = (d', c', Ok s) →
  peer_conns d1 = peers → node_id d1 = node_id d → handover_is_durable d1 s = true →
  handed_over peers (node_id d) c c' x.
Proof.
  intros Hx [Hwf Hid] Hf Hp Hn Hdur. exists (List.filter (attested d1) (successes s)).
  destruct (forward_summary _ _ _ _ _ _ _ _ Hf) as (s' & Hr & Hh & Hm).
  destruct (meets_k_min s'); [injection Hr as <-|done].
  destruct (forward_spec _ _ _ _ _ _ _ _ Hx Hf) as (_ & _ & Hc). split_and!.
  - apply NoDup_ListNoDup, List.NoDup_filter, NoDup_ListNoDup. eapply submseteq_NoDup; [|etrans; [apply successes_mentioned|exact Hm]].
    rewrite Hh. by apply homes_tried_NoDup; [..|apply Hx].
  - by apply Nat.leb_le in Hdur.
  - intros id [Hin Ha]%list_elem_of_In%filter_In. apply attested_spec in Ha as [Hne Hpk]. rewrite Hn in Hne. rewrite Hp in Hpk.
    split_and!; [done..|]. apply list_elem_of_In in Hin. by destruct (Hc s eq_refl id Hin) as [|[? _]].
Qed.

(** One migration: a queued row stays, or it is the migrated one and was handed over. *)
Lemma migrate_one_spec e d c peers key x now d' c' :
  dispatch_typed x → well_placed d → migrate_one e d c peers key x now = (d', c') →
  well_placed d' ∧ node_id d' = node_id d ∧ evolves c c' ∧
  ∀ k v, is_queue_key k → view (store d) KsQueue !! k = Some v →
    view (store d') KsQueue !! k = Some v ∨
    k = MessageKey.as_bytes key ∧ handed_over peers (node_id d) c c' x.
Proof.
  intros Hx Hd. unfold migrate_one. destruct (forward_to_homes e d c x now) as [[d1 c1] r] eqn:Hf.
  destruct (forward_spec _ _ _ _ _ _ _ _ Hx Hf) as (Hg & Hev & _). set (d2 := mkDht _ _ peers _ _ _ _ _).
  assert (Hd2 : well_placed d2) by (unfold well_placed; cbn; rewrite (gr_routing _ _ Hg), (gr_node_id _ _ Hg); done).
  pose proof (gr_node_id _ _ Hg) as Hn.
  assert (Hkeep : ∀ k v, is_queue_key k → view (store d) KsQueue !! k = Some v → view (store d2) KsQueue !! k = Some v)
    by apply Hg.
  destruct r as [s|s]; [|intros [= <- <-]; split_and!; eauto].
  destruct (handover_is_durable d2 s) eqn:Hdur; intros [= <- <-]; split_and!; eauto.
  intros k v Hk Hv. destruct (delete_migrated_view (store d2) key k v) as [|Hkey]; [auto|by left|].
  right. split; [done|]. by eapply handover_handed; [..|exact Hdur].
Qed.

(** A row's dispatch, as [queued_dispatch] reads it. *)
Definition row_dispatch (k v : bytes) : option DispatchP := queued_dispatch (take 32 k) v.

(** What a planned migration carries: the dispatch of a queued row. *)
Definition planned (m : gmap bytes bytes) (p : MessageKey * DispatchP) : Prop :=
  ∃ v, m !! MessageKey.as_bytes p.1 = Some v ∧ row_dispatch (MessageKey.as_bytes p.1) v = Some p.2.

Lemma parse_take b key : MessageKey.parse b = Some key → mk_recipient key = take 32 b.
Proof. unfold MessageKey.parse. case_decide; [|done]. by intros [= <-]. Qed.

Lemma drift_scan_planned t id max m sc : ∀ out p,
  (∀ r, Some r ∈ sc → m !! r.1 = Some r.2) → (∀ p, p ∈ out → planned m p) →
  p ∈ drift_scan t id max sc out → planned m p.
Proof.
  induction sc as [|[[k v]|] sc IH]; intros out p Hsc Hout; cbn [drift_scan]; [auto| |]; cycle 1.
  { apply IH; [|done]. intros r Hr. apply Hsc. by right. }
  assert (Hsc' : ∀ r, Some r ∈ sc → m !! r.1 = Some r.2) by (intros r Hr; apply Hsc; by right).
  destruct (MessageKey.parse k) as [key|] eqn:Hkey; [|by apply IH].
  destruct (homes t id (mk_recipient key)).2; [by apply IH|]. destruct (queued_dispatch _ v) as [x|] eqn:Hq; [|by apply IH].
  assert (Hout' : ∀ p, p ∈ out ++ [(key, x)] → planned m p).
  { intros q [Hq'|Hq']%elem_of_app; [auto|]. apply list_elem_of_singleton in Hq' as ->.
    exists v. unfold row_dispatch. cbn [fst snd]. rewrite (parse_take _ _ Hkey) in Hq.
    apply parse_Some in Hkey as (_ & -> & _). split; [|done]. apply (Hsc (k, v)). by left. }
  destruct (_ >=? _); [apply Hout'|by apply IH].
Qed.

Lemma plan_planned d max p :
  p ∈ plan_drift_migrations (routing d) (node_id d) (store d) max → planned (view (store d) KsQueue) p.
Proof.
  unfold plan_drift_migrations. destruct (max =? 0); [by intros ?%not_elem_of_nil|].
  apply drift_scan_planned; [|by intros ? ?%not_elem_of_nil]. intros [k v] Hr.
  apply (so_rows _ _ (ks_range_view _ _)) in Hr. by apply elem_of_rows_after in Hr as [? _].
Qed.

Lemma migrate_all_evolves e peers now l : ∀ d c d' c',
  well_placed d → (∀ p, p ∈ l → dispatch_typed p.2) → migrate_all e d c peers l now = (d', c') → evolves c c'.
Proof.
  induction l as [|[key x] l IH]; intros d c d' c' Hd Hl; cbn [migrate_all]; [by intros [= <- <-]|].
  destruct (migrate_one e d c peers key x now) as [d1 c1] eqn:Hone. intros Hall.
  assert (Hx : dispatch_typed x) by (apply (Hl (key, x)); by left).
  destruct (migrate_one_spec _ _ _ _ _ _ _ _ _ Hx Hd Hone) as (Hd1 & _ & Hev & _).
  etrans; [exact Hev|]. eapply IH; [exact Hd1| |exact Hall]. intros p Hp. apply Hl. by right.
Qed.

(** A row survives the migrations, or was handed over by one of them. *)
Lemma migrate_all_spec e peers now k v l : ∀ d c d' c',
  well_placed d → is_queue_key k → view (store d) KsQueue !! k = Some v →
  (∀ p, p ∈ l → dispatch_typed p.2 ∧ (MessageKey.as_bytes p.1 = k → row_dispatch k v = Some p.2)) →
  migrate_all e d c peers l now = (d', c') →
  view (store d') KsQueue !! k = Some v ∨
  ∃ x, row_dispatch k v = Some x ∧ handed_over peers (node_id d) c c' x.
Proof.
  induction l as [|[key x] l IH]; intros d c d' c' Hd Hk Hv Hl; cbn [migrate_all].
  { intros [= <- <-]. by left. }
  destruct (migrate_one e d c peers key x now) as [d1 c1] eqn:Hone. intros Hall.
  destruct (Hl (key, x)) as [Hx Hkey]; [by left|]. cbn in Hx.
  destruct (migrate_one_spec _ _ _ _ _ _ _ _ _ Hx Hd Hone) as (Hd1 & Hn1 & Hev & Hrows).
  assert (Hl' : ∀ p, p ∈ l → dispatch_typed p.2 ∧ (MessageKey.as_bytes p.1 = k → row_dispatch k v = Some p.2))
    by (intros p Hp; apply Hl; by right).
  assert (Hrest : evolves c1 c') by (eapply migrate_all_evolves; [exact Hd1|by intros p [? _]%Hl'|exact Hall]).
  destruct (Hrows k v Hk Hv) as [Hv1|[-> Hh]].
  - destruct (IH _ _ _ _ Hd1 Hk Hv1 Hl' Hall) as [?|(y & Hy & Hh)]; [by left|]. right. exists y. split; [done|].
    rewrite Hn1 in Hh. by apply (handed_over_weaken _ _ c c1 c' c').
  - right. exists x. split; [by apply Hkey|]. by apply (handed_over_weaken _ _ c c c1 c').
Qed.

(** Every row that reads as a dispatch has one of the right shape, which its type fixes. *)
Definition rows_typed (m : gmap bytes bytes) : Prop :=
  ∀ k v x, m !! k = Some v → row_dispatch k v = Some x → dispatch_typed x.


(** ** Theorems *)

(** [forward_to_homes] over any network: the homes are distinct, every home is
    counted at most once and only among those selected, and the call returns [Ok] exactly
    when the successes reach [write_quorum] of the homes selected, however many
    answered. *)
Theorem forward_quorum {N : Type} `{Network N} e d (n : N) x now d' n' r :
  well_placed d → wf_arr 32 (d_to x) → forward_to_homes e d n x now = (d', n', r) →
  ∃ s, let homes := homes_tried s in
    homes = map nd_id (dht_homes d (d_to x)).1 ++ (if (dht_homes d (d_to x)).2 then [node_id d] else []) ∧
    NoDup homes ∧ mentioned s ⊆+ homes ∧
    (r = Ok s ∧ (write_quorum (length homes) <= length (successes s))%nat ∨
     r = Err s ∧ (length (successes s) < write_quorum (length homes))%nat).
Proof.
  intros [Hwf Hid] Ht Hf. destruct (forward_summary _ _ _ _ _ _ _ _ Hf) as (s & -> & Hh & Hm). exists s. cbv zeta.
  split_and!; [done|rewrite Hh; by apply homes_tried_NoDup|done|].
  unfold meets_k_min, success_count, successes. rewrite length_app.
  destruct (_ <=? _)%nat eqn:E; breflect; [left|right]; auto.
Qed.

(** An acknowledged dispatch is kept.  When [forward_to_homes] returns [Ok] in a
    cluster, every home it counts holds a durable row of the sender's dispatch, or took
    it live, however requests and replies were lost. *)
Theorem forward_acknowledged e d (c : Cluster) x now d' c' s id :
  dispatch_typed x → forward_to_homes e d c x now = (d', c', Ok s) → id ∈ successes s →
  custody c c' x id ∨
  id = node_id d ∧ (dht_homes d (d_to x)).2 = true ∧ own_custody e d d' x now.
Proof. intros Hx Hf. by apply (forward_spec _ _ _ _ _ _ _ _ Hx Hf). Qed.

(** C4: A drift migration loses no message.  After [run_drift_migration_sweep] each row
    of the queue is still there, or [FORWARD_K_MIN] distinct other relays, each attested
    by a key proved on a live connection, hold its dispatch at the end of the sweep or
    took it live. *)
Theorem drift_sweep_keeps_messages e d (c : Cluster) peers now d' c' k v :
  well_placed d → rows_typed (view (store d) KsQueue) → is_queue_key k → view (store d) KsQueue !! k = Some v →
  run_drift_migration_sweep e d c peers now = (d', c') →
  view (store d') KsQueue !! k = Some v ∨
  ∃ x, row_dispatch k v = Some x ∧ handed_over peers (node_id d) c c' x.
Proof.
  intros Hd Hty Hk Hv. apply migrate_all_spec; [done..|]. intros p (v' & Hv' & Hx)%plan_planned.
  split; [by eapply Hty|]. intros E. rewrite E in Hv', Hx. by simplify_eq.
Qed.
End cluster.

(** ** Examples *)

Module Quartet.
Import Toy Mem KpExample ToyQueue ToyRelay.

Definition node (n : Z) : NodeDescriptor :=
  mkNode (relay_id (secret n)) (mkAddr (V4 203 0 113 n) 443) (verifying_key (secret n)).

Definition knowing (n : Z) (peers : list Z) : RoutingTable :=
  run_ops (RoutingTable_empty (relay_id (secret n)) 0) (map (λ p, OpInsert (node p) 1) peers).

Definition peers : gmap bytes bytes := list_to_map (map (λ n, (relay_id (secret n), verifying_key (secret n))) [2; 3; 4]).

(** A user whose nearest relays are 2, 3 and 4. *)
Definition dave : bytes := relay_id (secret 2).

Definition letter : DispatchP :=
  let from := verifying_key (secret 7) in
  mkDispatch dave from (replicate 16 9) [1; 2; 3]
    (sign (secret 7) (dispatch_sig_message PROTOCOL_VERSION dave from (replicate 16 9) [1; 2; 3])) 40 WakeNo 0.

(** Relay 1, with the letter in its queue. *)
Definition drifted : Dht (KS := mem) :=
  set_store (relay (secret 1) (knowing 1 [2; 3; 4])) (enqueue_for_home empty_store dave letter 40).1.

(** The other three; the request to relay 4 is lost. *)
Definition others : Cluster :=
  mkCluster (relay_id (secret 1))
    (list_to_map (map (λ n, (relay_id (secret n), relay (secret n) (knowing n [1]))) [2; 3; 4])) ∅ 0
    (λ _, mkWorld (λ _, quiet) (λ _, 50) (λ id, negb (bool_decide (id = relay_id (secret 4)))) (λ _, true))
    (λ _ l, reverse l) (λ _ l, reverse_Permutation l).

Lemma drifted_placed : well_placed drifted.
Proof.
  split; [|by_eval]. apply run_ops_wf; [apply empty_wf, blake3_wf|by_eval].
Qed.

Lemma letter_typed : dispatch_typed letter.
Proof. split; [apply blake3_wf|by_eval]. Qed.

(** The key and the row of the letter. *)
Definition letter_key : bytes := MessageKey.as_bytes (MessageKey.new dave 40 (d_id letter)).
Definition letter_row : bytes := raw_dispatch letter.

Lemma drifted_rows : view (store drifted) KsQueue = {[letter_key := letter_row]}.
Proof. vm_compute. reflexivity. Qed.

Lemma drifted_typed : rows_typed (view (store drifted) KsQueue).
Proof.
  intros k v x. rewrite drifted_rows. intros [<- <-]%lookup_singleton_Some Hx.
  assert (Some x = Some letter) as [= ->] by (rewrite <- Hx; vm_compute; reflexivity). apply letter_typed.
Qed.
End Quartet.

Import Toy Mem KpExample ToyQueue ToyRelay Quartet.

Lemma forward_quorum_witness :
  let r := forward_to_homes quiet drifted others letter 50 in
  ∃ s, let homes := homes_tried s in
    homes = map nd_id (dht_homes drifted (d_to letter)).1
            ++ (if (dht_homes drifted (d_to letter)).2 then [node_id drifted] else []) ∧
    NoDup homes ∧ mentioned s ⊆+ homes ∧
    (r.2 = Ok s ∧ (write_quorum (length homes) <= length (successes s))%nat ∨
     r.2 = Err s ∧ (length (successes s) < write_quorum (length homes))%nat).
Proof.
  cbv zeta. destruct (forward_to_homes quiet drifted others letter 50) as [[d' c'] r] eqn:Hf. cbn [snd].
  exact (forward_quorum quiet drifted others letter 50 d' c' r drifted_placed (proj1 letter_typed) Hf).
Defined.

Lemma forward_acknowledged_witness :
  let '(d', c', r) := forward_to_homes quiet drifted others letter 50 in
  ∃ s, r = Ok s ∧ length (successes s) = 2%nat ∧ ∀ id, id ∈ successes s →
    custody others c' letter id ∨
    id = node_id drifted ∧ (dht_homes drifted (d_to letter)).2 = true ∧ own_custody quiet drifted d' letter 50.
Proof.
  destruct (forward_to_homes quiet drifted others letter 50) as [[d' c'] r] eqn:Hf.
  assert (∃ s, r = Ok s ∧ length (successes s) = 2%nat) as (s & -> & Hlen).
  { change r with (d', c', r).2. rewrite <- Hf. eexists. split; [vm_compute; reflexivity|reflexivity]. }
  exists s. split; [reflexivity|]. split; [exact Hlen|]. intros id Hid.
  exact (forward_acknowledged quiet drifted others letter 50 d' c' s id letter_typed Hf Hid).
Defined.

Lemma drift_sweep_keeps_messages_witness :
  let '(d', c') := run_drift_migration_sweep quiet drifted others peers 50 in
  view (store d') KsQueue !! letter_key = None ∧
  (view (store d') KsQueue !! letter_key = Some letter_row ∨
   ∃ x, row_dispatch letter_key letter_row = Some x ∧ handed_over peers (node_id drifted) others c' x).
Proof.
  destruct (run_drift_migration_sweep quiet drifted others peers 50) as [d' c'] eqn:Hs. split.
  - change d' with (d', c').1. rewrite <- Hs. vm_compute. reflexivity.
  - apply (drift_sweep_keeps_messages quiet drifted others peers 50 d' c' letter_key letter_row drifted_placed drifted_typed);
      [vm_compute; reflexivity|rewrite drifted_rows; apply lookup_singleton_eq|exact Hs].
Defined.
