(* ===== verification/Client.v ===== *)
(** * Client: the session of a connected client

    [relay/src/quic/handler/client/events]: accepting a dispatch ([forward.rs]), draining
    the queues and acknowledging a drain ([drain.rs], [drain_auth.rs]).  The relay's store
    is the one its [Dht] uses.  [ClientContext] keeps the fields these handlers change.
    Whether a limiter admits a packet, a connection is gone or a deadline was met is an
    argument. *)

From S2P Require Import Prelude Bytes Crypto Proto MlsWire Keyspace Store Routing Queue KeyPackages Contracts Dht Mls Forward Sync.

Inductive DispatchAckP :=
| AckQueued (accepted_at_ms : Z)
| AckDelivered (accepted_at_ms : Z)
| AckNotFound
| AckInvalidSig
| AckQueueFull
| AckForwarded (accepted_at_ms : Z)
| AckError (reason : bytes).

Record DrainAuth := mkDrainAuth { da_timestamp : Z; da_sig : bytes }.

Inductive DrainAuthError := DaStaleTimestamp | DaFutureTimestamp | DaBadSig.

Record RemoteDrainState := mkRemoteDrain { rd_ids : list bytes; rd_homes : list NodeDescriptor }.

(** [cx_dht]: whether the relay takes part in the DHT. *)
Record ClientContext := mkCtx {
  cx_ipk : bytes;
  cx_dht : bool;
  pending_drain : list MessageKey;
  drain_auth : option DrainAuth;
  pending_remote_drain : option RemoteDrainState;
}.

Definition set_pending_drain cx keys :=
  mkCtx (cx_ipk cx) (cx_dht cx) keys (drain_auth cx) (pending_remote_drain cx).
Definition set_remote_drain cx r := mkCtx (cx_ipk cx) (cx_dht cx) (pending_drain cx) (drain_auth cx) r.
Definition set_drain_auth cx a :=
  mkCtx (cx_ipk cx) (cx_dht cx) (pending_drain cx) (Some a) (pending_remote_drain cx).

(** What the session learns from outside. *)
Record ClientEnv := mkClientEnv {
  ce_env : Env;
  ce_admit : bool;
  ce_gone : bool;
  ce_route_in_time : bool;
}.

Section client.
Context `{Crypto} `{RelayCodecs} {KS : Type} `{Keyspace KS} {N : Type} `{Network N}.
Local Abbreviation dht := (Dht (KS := KS)).
Implicit Types (d : dht) (n : N) (s : Store KS) (cx : ClientContext).

(** ** Accepting a dispatch ([forward.rs]) *)

(** [store_in_rocks]; [ok] is the persist barrier's answer, [None] an error returned. *)
Definition store_in_rocks s (dispatch : DispatchP) (ok : bool) : Store KS * option DispatchAckP :=
  let queued := if ok then Some (AckQueued (d_accepted_at_ms dispatch)) else None in
  match admit_to_queue (space s KsMessages) (d_to dispatch) (d_id dispatch) (d_from dispatch) with
  | Insert =>
      let key := MessageKey.new (d_to dispatch) (d_accepted_at_ms dispatch) (d_id dispatch) in
      match ser dispatch with
      | None => (s, None)
      | Some value =>
          match put_sync s KsMessages (MessageKey.as_bytes key) value with
          | None => (s, None)
          | Some s' => (s', queued)
          end
      end
  | AlreadyQueued => (s, queued)
  | IdTakenByOther => (s, Some (AckError (str "dispatch id already queued")))
  | ScanFailed => (s, Some (AckError (str "queue scan failed")))
  | Queue.Full => (s, Some AckQueueFull)
  end.

(** [ack_for_summary] *)
Definition ack_for_summary (summary : ForwardSummary) (accepted_at_ms : Z) : DispatchAckP :=
  if any_delivered summary then AckDelivered accepted_at_ms else AckForwarded accepted_at_ms.

Definition set_clients d (cs : gmap bytes Z) : dht :=
  mkDht (routing d) (store d) (peer_conns d) (node_id d) (signing_key d) cs (presence_leases d) (wakes_sent d).

(** [remove_client_if_same] *)
Definition remove_client_if_same d (ipk : bytes) (owned : Z) : dht * bool :=
  if bool_decide (clients d !! ipk = Some owned) then (set_clients d (delete ipk (clients d)), true)
  else (d, false).

(** [route_dispatch] *)
Definition route_dispatch (ce : ClientEnv) cx d n (fwd : DispatchP) : dht * N * option DispatchAckP :=
  let e := ce_env ce in
  let accepted := d_accepted_at_ms fwd in
  let to := d_to fwd in
  if online d to && deliver e to (dispatch_to_deliver fwd) then (d, n, Some (AckDelivered accepted))
  else
    let d := match clients d !! to with
             | Some conn => if ce_gone ce then (remove_client_if_same d to conn).1 else d
             | None => d
             end in
    if cx_dht cx then
      let '(d', n', r) := forward_to_homes e d n fwd accepted in
      (d', n', match r with Ok summary => Some (ack_for_summary summary accepted) | Err _ => None end)
    else (d, n, None).

(** The rows [retire_local_copy] removes; [None] when the scan fails. *)
Fixpoint retire_scan (fwd : DispatchP) (sc : scan) : option (list bytes) :=
  match sc with
  | [] => Some []
  | None :: _ => None
  | Some (key, value) :: sc' =>
      rest ← retire_scan fwd sc';
      match MessageKey.parse key with
      | None => Some rest
      | Some fields =>
          if bool_decide (mk_id fields = d_id fwd)
             && is_some_and (λ q, bool_decide (d_from q = d_from fwd) && bool_decide (d_payload q = d_payload fwd)
                                  && bool_decide (d_sig q = d_sig fwd))
                  (queued_dispatch (d_to fwd) value)
          then Some (key :: rest) else Some rest
      end
  end.

(** [retire_local_copy]: all or nothing. *)
Definition retire_local_copy s (fwd : DispatchP) : Store KS :=
  match retire_scan fwd (ks_prefix (space s KsMessages) (d_to fwd)) with
  | None => s
  | Some keys =>
      match ks_commit (space s KsMessages) (space s KsQueue) (map (BRemove false) keys) with
      | None => s
      | Some (m, q) => set_space (set_space s KsMessages m) KsQueue q
      end
  end.

(** [accept_dispatch] after [store_in_rocks] gave [queued].  A route that misses its
    deadline keeps the effects it had and loses its answer. *)
Definition accept_dispatch (ce : ClientEnv) cx d n (fwd : DispatchP) (queued : DispatchAckP)
    : dht * N * DispatchAckP :=
  match queued with
  | AckQueued _ =>
      let '(d', n', r) := route_dispatch ce cx d n fwd in
      match (if ce_route_in_time ce then r else None) with
      | Some (AckDelivered _) | Some (AckForwarded _) =>
          (set_store d' (retire_local_copy (store d') fwd), n', queued)
      | _ => (d', n', queued)
      end
  | AckQueueFull =>
      let '(d', n', r) := route_dispatch ce cx d n fwd in
      (d', n', default queued (if ce_route_in_time ce then r else None))
  | _ => (d, n, queued)
  end.

(** [handle_forward]: the answer sent, [None] when the handler fails first. *)
Definition handle_forward (ce : ClientEnv) cx d n (fwd : DispatchP) (now : Z)
    : dht * N * option DispatchAckP :=
  if bool_decide (d_from fwd ≠ cx_ipk cx) then (d, n, Some AckInvalidSig)
  else if negb (ce_admit ce) then (d, n, Some AckQueueFull)
  else if negb (verify_dispatch_user_sig fwd) then (d, n, Some AckInvalidSig)
  else
    let fwd := mkDispatch (d_to fwd) (d_from fwd) (d_id fwd) (d_payload fwd) (d_sig fwd) now (d_wake fwd)
                 (d_ttl_ms fwd) in
    let '(s, queued) := store_in_rocks (store d) fwd (durable (ce_env ce)) in
    let d := set_store d s in
    match queued with
    | None => (d, n, None)
    | Some queued => let '(d', n', a) := accept_dispatch ce cx d n fwd queued in (d', n', Some a)
    end.

(** [handle_activity]; a push to a connected recipient changes nothing here. *)
Definition handle_activity (ce : ClientEnv) cx d n (eph : ActivityP) (now : Z) : N :=
  if negb (ce_admit ce) then n
  else if bool_decide (ac_from eph ≠ cx_ipk cx) then n
  else if negb (activity_is_authentic eph now) then n
  else if online d (ac_to eph) then n
  else if cx_dht cx then forward_activity_to_homes d n eph else n.
End client.
