(* ===== verification/Drain.v ===== *)
(** * Drain: handing a connected client its queued messages

    [relay/src/quic/handler/client/events/drain.rs] and [drain_auth.rs].  A drain sends
    the local copies of both keyspaces, then what the other homes hold, and remembers the
    keys and ids it sent; an [AckDrain] deletes those the client names and asks the homes
    to.  The stream to the client takes [dr_room] more packets before a send fails. *)

From S2P Require Import Prelude Bytes Crypto Proto MlsWire Keyspace Store Routing Queue KeyPackages Contracts Dht Mls Forward Sync Client.

Definition DRAIN_MAX_BATCH_BYTES : Z := 8 * 1024 * 1024.
Definition DRAIN_MAX_BATCH_IDS : Z := 16 * 1024.

Record DrainBatch := mkBatch { seen : list bytes; bytes_sent : Z }.

Definition batch_default : DrainBatch := mkBatch [] 0.

(** [DrainBatch::is_full] *)
Definition is_full (b : DrainBatch) : bool :=
  (bytes_sent b >=? DRAIN_MAX_BATCH_BYTES) || (len (seen b) >=? DRAIN_MAX_BATCH_IDS).

(** [DrainBatch::admit]: [None] when the id already went out. *)
Definition admit_id (b : DrainBatch) (id : bytes) (size : Z) : option DrainBatch :=
  if bool_decide (id ∈ seen b) then None else Some (mkBatch (id :: seen b) (sat_add (bytes_sent b) size)).

Section drain.
Context `{Crypto} `{RelayCodecs} {KS : Type} `{Keyspace KS} {N : Type} `{Network N}.
Local Abbreviation dht := (Dht (KS := KS)).
Implicit Types (d : dht) (n : N) (ks : KS) (cx : ClientContext).

(** [collect_keys]: up to the first unreadable row. *)
Fixpoint collect_keys (sc : scan) : list MessageKey :=
  match sc with
  | [] | None :: _ => []
  | Some (key_bytes, _) :: sc' =>
      match MessageKey.parse key_bytes with
      | Some key => key :: collect_keys sc'
      | None => collect_keys sc'
      end
  end.

(** A drain in progress: the batch, the keys to delete on the ack, the ids sent from this
    keyspace, the packets written, and how many more the stream takes. *)
Record Progress := mkProgress {
  dr_batch : DrainBatch;
  dr_keys : list MessageKey;
  dr_sent : list bytes;
  dr_wire : list DeliverP;
  dr_room : option nat;
}.

(** [SRelayPacket::Deliver(..).send(tx)]; [None] is a failed send. *)
Definition send_deliver (p : Progress) (x : DeliverP) : option Progress :=
  match dr_room p with
  | Some O => None
  | Some (S r) => Some (mkProgress (dr_batch p) (dr_keys p) (dr_sent p) (dr_wire p ++ [x]) (Some r))
  | None => Some (mkProgress (dr_batch p) (dr_keys p) (dr_sent p) (dr_wire p ++ [x]) None)
  end.

(** The loop of [stream_keyspace]; [false] when a send failed. *)
Fixpoint stream_loop ks (recipient : bytes) (now_ms : Z) (keys : list MessageKey) (p : Progress)
    : KS * Progress * bool :=
  match keys with
  | [] => (ks, p, true)
  | key :: keys' =>
      if is_full (dr_batch p) then (ks, p, true)
      else
        match ks_get ks (MessageKey.as_bytes key) with
        | Some (Some value) =>
            match queued_dispatch recipient value with
            | None => stream_loop ks recipient now_ms keys' p
            | Some dispatch =>
                if is_expired dispatch now_ms
                then stream_loop (try_remove ks (MessageKey.as_bytes key)) recipient now_ms keys' p
                else
                  let p := mkProgress (dr_batch p) (dr_keys p ++ [key]) (dr_sent p) (dr_wire p) (dr_room p) in
                  match admit_id (dr_batch p) (d_id dispatch) (len value) with
                  | None => stream_loop ks recipient now_ms keys' p
                  | Some batch =>
                      let p := mkProgress batch (dr_keys p) (dr_sent p ++ [d_id dispatch]) (dr_wire p) (dr_room p) in
                      match send_deliver p (dispatch_to_deliver dispatch) with
                      | Some p => stream_loop ks recipient now_ms keys' p
                      | None => (ks, p, false)
                      end
                  end
            end
        | _ => stream_loop ks recipient now_ms keys' p
        end
  end.

(** [stream_keyspace]; [dr_sent] restarts with each keyspace. *)
Definition stream_keyspace ks (recipient : bytes) (now_ms : Z) (p : Progress) : KS * Progress * bool :=
  stream_loop ks recipient now_ms (collect_keys (ks_prefix ks recipient))
    (mkProgress (dr_batch p) (dr_keys p) [] (dr_wire p) (dr_room p)).

(** The dispatches of the other homes; [dr_sent] are the ids sent. *)
Fixpoint stream_remote (now_ms : Z) (msgs : list DispatchP) (p : Progress) : Progress * bool :=
  match msgs with
  | [] => (p, true)
  | dispatch :: msgs' =>
      if is_full (dr_batch p) then (p, true)
      else if is_expired dispatch now_ms then stream_remote now_ms msgs' p
      else
        let x := dispatch_to_deliver dispatch in
        match admit_id (dr_batch p) (dl_id x) (len (dl_payload x)) with
        | None => stream_remote now_ms msgs' p
        | Some batch =>
            match send_deliver (mkProgress batch (dr_keys p) (dr_sent p) (dr_wire p) (dr_room p)) x with
            | Some p => stream_remote now_ms msgs'
                          (mkProgress (dr_batch p) (dr_keys p) (dr_sent p ++ [dl_id x]) (dr_wire p) (dr_room p))
            | None => (mkProgress batch (dr_keys p) (dr_sent p) (dr_wire p) (dr_room p), false)
            end
        end
  end.

(** The homes a drain adds to those already remembered. *)
Definition add_homes (homes extra : list NodeDescriptor) : list NodeDescriptor :=
  fold_left (λ l h, if existsb (λ x, bool_decide (nd_id x = nd_id h)) l then l else l ++ [h]) extra homes.

Definition remember_remote (pending : option RemoteDrainState) (ids : list bytes) (homes : list NodeDescriptor)
    : option RemoteDrainState :=
  match ids with
  | [] => pending
  | _ => let st := default (mkRemoteDrain [] []) pending in
         Some (mkRemoteDrain (rd_ids st ++ ids) (add_homes (rd_homes st) homes))
  end.

(** [handle_drain_queue]: the packets written, and [false] when a send failed. *)
Definition handle_drain_queue cx d n (now_ms : Z) (room : option nat)
    : ClientContext * dht * N * list DeliverP * bool :=
  let me := cx_ipk cx in
  let '(remote_homes, i_am_home) := if cx_dht cx then dht_homes d me else ([], true) in
  let cx := set_remote_drain cx None in
  let '(m, p, ok) := stream_keyspace (space (store d) KsMessages) me now_ms
                       (mkProgress batch_default [] [] [] room) in
  let d := set_store d (set_space (store d) KsMessages m) in
  if negb ok then (cx, d, n, dr_wire p, false)
  else
    let '(q, p, ok) :=
      if i_am_home && cx_dht cx then stream_keyspace (space (store d) KsQueue) me now_ms p
      else (space (store d) KsQueue, mkProgress (dr_batch p) (dr_keys p) [] (dr_wire p) (dr_room p), true) in
    let d := set_store d (set_space (store d) KsQueue q) in
    if negb ok then (cx, d, n, dr_wire p, false)
    else
      let cx := match dr_sent p, remote_homes with
                | _ :: _, _ :: _ => set_remote_drain cx (Some (mkRemoteDrain (dr_sent p) remote_homes))
                | _, _ => cx
                end in
      let '(n, remote) :=
        match drain_auth cx with
        | Some auth =>
            if negb (is_full (dr_batch p)) && cx_dht cx
            then fetch_remote_queues d n me (da_timestamp auth) (da_sig auth) remote_homes else (n, [])
        | None => (n, [])
        end in
      let '(p, ok) := stream_remote now_ms remote
                        (mkProgress (dr_batch p) (dr_keys p) [] (dr_wire p) (dr_room p)) in
      if negb ok then (cx, d, n, dr_wire p, false)
      else
        let cx := set_remote_drain cx (remember_remote (pending_remote_drain cx) (dr_sent p) remote_homes) in
        (set_pending_drain cx (dr_keys p), d, n, dr_wire p, true).

(** ** Acknowledging a drain *)

(** The ids without their repetitions. *)
Definition dedup_ids (ids : list bytes) : list bytes :=
  fold_left (λ out id, if bool_decide (id ∈ out) then out else out ++ [id]) ids [].

(** [run_remote_ack_round]; [auth] is the client's signature over the request, [None]
    when the request or the answer was lost. *)
Definition run_remote_ack_round cx d n (st : RemoteDrainState) (auth : option DrainAuth) : N :=
  let ids := take MAX_FETCH_QUEUE_ACK_IDS (dedup_ids (rd_ids st)) in
  match auth with
  | Some a => if cx_dht cx
              then ack_remote_queues d n (cx_ipk cx) ids (da_timestamp a) (da_sig a) (rd_homes st) else n
  | None => n
  end.

(** The batch of [handle_ack_drain]: each key is removed from both keyspaces. *)
Definition ack_ops (keys : list MessageKey) : list batch_op :=
  flat_map (λ key, [BRemove false (MessageKey.as_bytes key); BRemove true (MessageKey.as_bytes key)]) keys.

(** [handle_ack_drain]; [false] when the batch failed. *)
Definition handle_ack_drain cx d n (ids : list bytes) (auth : option DrainAuth)
    : ClientContext * dht * N * bool :=
  let keys := filter (λ key, mk_id key ∈ ids) (pending_drain cx) in
  let cx := set_pending_drain cx [] in
  let committed :=
    match keys with
    | [] => Some d
    | _ =>
        '(m, q) ← ks_commit (space (store d) KsMessages) (space (store d) KsQueue) (ack_ops keys);
        Some (set_store d (set_space (set_space (store d) KsMessages m) KsQueue q))
    end in
  match committed with
  | None => (cx, d, n, false)
  | Some d =>
      let n :=
        match pending_remote_drain cx with
        | None => n
        | Some st =>
            let st := mkRemoteDrain (filter (λ id, id ∈ ids) (rd_ids st)) (rd_homes st) in
            match rd_ids st with [] => n | _ => run_remote_ack_round cx d n st auth end
        end in
      (set_remote_drain cx None, d, n, true)
  end.

(** ** Drain permission ([drain_auth.rs]) *)

(** [verify_drain_auth] *)
Definition verify_drain_auth (user_ipk relay_id : bytes) (now_ms timestamp : Z) (sig : bytes)
    : result DrainAuth DrainAuthError :=
  if (now_ms >? timestamp) && (now_ms - timestamp >? MAX_DHT_HELLO_SKEW_MS) then Err DaStaleTimestamp
  else if (timestamp >? now_ms) && (timestamp - now_ms >? MAX_DHT_HELLO_SKEW_MS) then Err DaFutureTimestamp
  else if negb (verify_ed25519 user_ipk (queue_fetch_signing_input user_ipk relay_id timestamp) sig)
  then Err DaBadSig
  else Ok (mkDrainAuth timestamp sig).

(** [handle_drain_auth] *)
Definition handle_drain_auth cx d (now_ms timestamp : Z) (sig : bytes) : ClientContext :=
  if negb (cx_dht cx) then cx
  else match verify_drain_auth (cx_ipk cx) (node_id d) now_ms timestamp sig with
       | Ok auth => set_drain_auth cx auth
       | Err _ => cx
       end.
End drain.
