(* ===== verification/DrainProps.v ===== *)
(** * DrainProps: a drain and its acknowledgement lose nothing

    Between a drain and its ack, a stored row disappears only when it had expired or when
    the drain sent its id and the client acknowledged it.  An id goes out once, and a
    drain that is not full sent every readable row.  Two dispatches of different senders
    under one id are the exception: the second is deleted unsent. *)

From S2P Require Import Prelude Bytes Crypto Proto MlsWire Keyspace Store StoreProps Routing RoutingInv Homes Queue QueueProps KeyPackages KeyPackagesProps Contracts Dht Mls Forward Sync Examples ForwardProps Client Drain.

Section stream.
Context `{Crypto} `{RelayCodecs} {KS : Type} `{!Keyspace KS}.
Implicit Types (ks : KS) (p : Progress).

(** The ids of the packets written are the ids seen, each once. *)
Definition wire_ok p : Prop :=
  NoDup (seen (dr_batch p)) ∧ map dl_id (dr_wire p) ≡ₚ seen (dr_batch p).

Definition id_sent p (id : bytes) : Prop := id ∈ seen (dr_batch p).

Lemma id_sent_wire p id : wire_ok p → id_sent p id ↔ ∃ x, x ∈ dr_wire p ∧ dl_id x = id.
Proof.
  intros [_ Hw]. unfold id_sent. rewrite <- Hw, list_elem_of_fmap. naive_solver.
Qed.

(** The unexpired dispatch of a row. *)
Definition live_row (me : bytes) (now : Z) (v : bytes) (x : DispatchP) : Prop :=
  queued_dispatch me v = Some x ∧ is_expired x now = false.

Definition expired_row (me : bytes) (now : Z) (v : bytes) : Prop :=
  ∃ x, queued_dispatch me v = Some x ∧ is_expired x now = true.

(** What streaming [keys] does, whether or not a send failed. *)
Record streamed (me : bytes) (now : Z) ks (keys : list MessageKey) p ks' p' (ok : bool) : Prop := {
  st_removed : ∀ k, ks_view ks' !! k = ks_view ks !! k ∨
    ks_view ks' !! k = None ∧ ∃ v, ks_view ks !! k = Some v ∧ expired_row me now v;
  st_keys : ∀ key, key ∈ dr_keys p' → key ∈ dr_keys p ∨ key ∈ keys ∧
    ∃ v x, ks_view ks !! MessageKey.as_bytes key = Some v ∧ live_row me now v x ∧ id_sent p' (d_id x);
  st_seen : ∀ id, id_sent p id → id_sent p' id;
  st_more : ∀ key, key ∈ dr_keys p → key ∈ dr_keys p';
  st_wire : ok = true → wire_ok p → wire_ok p';
}.

Lemma streamed_refl me now ks p ok : streamed me now ks [] p ks p ok.
Proof. constructor; auto. Qed.

(** A key passed over, with the keyspace and the progress the step leaves. *)
Lemma streamed_step me now ks key keys p ks1 p1 ks' p' ok :
  (∀ k, ks_view ks1 !! k = ks_view ks !! k ∨
        ks_view ks1 !! k = None ∧ ∃ v, ks_view ks !! k = Some v ∧ expired_row me now v) →
  (∀ key', key' ∈ dr_keys p1 → key' ∈ dr_keys p ∨ key' = key ∧
     ∃ v x, ks_view ks !! MessageKey.as_bytes key' = Some v ∧ live_row me now v x ∧ id_sent p1 (d_id x)) →
  (∀ id, id_sent p id → id_sent p1 id) → (∀ key', key' ∈ dr_keys p → key' ∈ dr_keys p1) →
  (wire_ok p → wire_ok p1) →
  streamed me now ks1 keys p1 ks' p' ok → streamed me now ks (key :: keys) p ks' p' ok.
Proof.
  intros Hr Hk Hs Hm Hw [Hr' Hk' Hs' Hm' Hw']. constructor.
  - intros k. destruct (Hr' k) as [->|[-> (v & Hv & ?)]]; [auto|]. right. split; [done|].
    exists v. split; [|done]. destruct (Hr k) as [<-|[Hn _]]; congruence.
  - intros key' [Hin|(Hin & v & x & Hv & Hl & Hi)]%Hk'.
    + apply Hk in Hin as [?|(-> & v & x & ? & ? & ?)]; [by left|right]. split; [by left|eauto 10].
    + right. split; [by right|]. exists v, x. split; [|done]. destruct (Hr (MessageKey.as_bytes key')) as [<-|[Hn _]]; congruence.
  - auto.
  - auto.
  - auto.
Qed.

Lemma wire_ok_admit p id size batch x r keys sent :
  wire_ok p → admit_id (dr_batch p) id size = Some batch → dl_id x = id →
  wire_ok (mkProgress batch keys sent (dr_wire p ++ [x]) r).
Proof.
  intros [Hn Hp]. unfold admit_id. case_bool_decide as Hi; [done|]. intros [= <-] Hx. split; cbn.
  - by apply NoDup_cons.
  - rewrite map_app. cbn. rewrite Hx, Hp. by rewrite Permutation_app_comm.
Qed.

Lemma admit_id_seen b id size b' : admit_id b id size = Some b' → seen b' = id :: seen b.
Proof. unfold admit_id. case_bool_decide; [done|]. by intros [= <-]. Qed.

(** The step that takes up the row [v] of [key]: its id has been sent, now or before. *)
Lemma streamed_take me now ks key keys p v x p1 ks' p' ok :
  ks_view ks !! MessageKey.as_bytes key = Some v → live_row me now v x →
  dr_keys p1 = dr_keys p ++ [key] → (∀ id, id_sent p id → id_sent p1 id) → id_sent p1 (d_id x) →
  (wire_ok p → wire_ok p1) →
  streamed me now ks keys p1 ks' p' ok → streamed me now ks (key :: keys) p ks' p' ok.
Proof.
  intros Hv Hl Hk Hs Hi Hw Hrec. eapply streamed_step; [..|exact Hrec]; auto; rewrite Hk; [|set_solver].
  intros key' [?|Hin]%elem_of_app; [by left|]. apply list_elem_of_singleton in Hin as ->. right.
  split; [done|]. by exists v, x.
Qed.

Lemma streamed_skip me now ks key keys p ks' p' ok :
  streamed me now ks keys p ks' p' ok → streamed me now ks (key :: keys) p ks' p' ok.
Proof. apply streamed_step; auto. Qed.

Lemma streamed_drop me now ks key keys p v ks' p' ok :
  ks_view ks !! MessageKey.as_bytes key = Some v → expired_row me now v →
  streamed me now (try_remove ks (MessageKey.as_bytes key)) keys p ks' p' ok →
  streamed me now ks (key :: keys) p ks' p' ok.
Proof.
  intros Hv Hx. apply streamed_step; auto. intros k.
  destruct (try_remove_view ks (MessageKey.as_bytes key)) as [->| ->]; [|by left].
  destruct (decide (k = MessageKey.as_bytes key)) as [->|]; [|left; by apply lookup_delete_ne].
  right. rewrite lookup_delete_eq. eauto.
Qed.

Lemma stream_loop_spec me now keys : ∀ ks p ks' p' ok,
  stream_loop ks me now keys p = (ks', p', ok) → streamed me now ks keys p ks' p' ok.
Proof.
  induction keys as [|key keys IH]; intros ks p ks' p' ok; cbn [stream_loop].
  { intros [= <- <- <-]. apply streamed_refl. }
  destruct (is_full (dr_batch p)); [intros [= <- <- <-]; constructor; auto|].
  destruct (ks_get ks (MessageKey.as_bytes key)) as [[v|]|] eqn:Hget; [|intros ?%IH; by apply streamed_skip..].
  apply ks_get_view in Hget. symmetry in Hget.
  destruct (queued_dispatch me v) as [x|] eqn:Hq; [|intros ?%IH; by apply streamed_skip].
  destruct (is_expired x now) eqn:Hx; [intros ?%IH; eapply streamed_drop; [done| |done]; by exists x|].
  assert (Hl : live_row me now v x) by done.
  destruct (admit_id _ _ _) as [batch|] eqn:Ha; cbn [dr_batch dr_keys dr_sent dr_wire dr_room] in *; cycle 1.
  { intros ?%IH. eapply streamed_take; [done|exact Hl|..|done]; auto. revert Ha. unfold admit_id. by case_bool_decide. }
  pose proof (admit_id_seen _ _ _ _ Ha) as Hs. set (p1 := mkProgress _ _ _ _ _).
  destruct (send_deliver p1 _) as [p2|] eqn:Hsend.
  - intros ?%IH. assert (p2 = mkProgress batch (dr_keys p ++ [key]) (dr_sent p ++ [d_id x])
      (dr_wire p ++ [dispatch_to_deliver x]) (dr_room p2)) as Hp2.
    { revert Hsend. unfold send_deliver, p1. cbn. by destruct (dr_room p) as [[|r]|]; intros [= <-]. }
    eapply streamed_take; [done|exact Hl|..|done]; rewrite Hp2; unfold id_sent; cbn; rewrite ?Hs; [done|set_solver..|].
    intros Hw. by eapply wire_ok_admit.
  - intros [= <- <- <-]. unfold p1. constructor; unfold id_sent; cbn; rewrite ?Hs; [auto| |set_solver..|done].
    intros key' [?|Hin]%elem_of_app; [by left|]. apply list_elem_of_singleton in Hin as ->. right.
    split; [by left|]. exists v, x. split_and!; [done..|]. by left.
Qed.

Lemma collect_keys_parse key sc : key ∈ collect_keys sc → MessageKey.parse (MessageKey.as_bytes key) = Some key.
Proof.
  induction sc as [|[[k v]|] sc IH]; cbn; try (by intros ?%not_elem_of_nil).
  destruct (MessageKey.parse k) as [key'|] eqn:Hk; [|done].
  intros [->|?]%elem_of_cons; [|auto]. by destruct (parse_Some _ _ Hk) as (_ & -> & _).
Qed.

(** Every well-formed key of a complete scan. *)
Lemma collect_keys_all (key : MessageKey) v sc k :
  None ∉ sc → Some (k, v) ∈ sc → MessageKey.parse k = Some key → key ∈ collect_keys sc.
Proof.
  induction sc as [|[[k' v']|] sc IH]; intros Hn Hin Hk; cbn.
  - by apply not_elem_of_nil in Hin.
  - apply not_elem_of_cons in Hn as [_ Hn]. apply elem_of_cons in Hin as [[= <- <-]|Hin].
    + rewrite Hk. by left.
    + destruct (MessageKey.parse k'); [right|]; by apply IH.
  - by destruct Hn; left.
Qed.

(** ** How much a stream can send *)

(** The bytes of the rows under [keys]. *)
Fixpoint keys_bytes (m : gmap bytes bytes) (keys : list MessageKey) : Z :=
  match keys with
  | [] => 0
  | key :: keys' => len (default [] (m !! MessageKey.as_bytes key)) + keys_bytes m keys'
  end.

Lemma keys_bytes_mono m m' keys :
  (∀ k, m' !! k = m !! k ∨ m' !! k = None) → keys_bytes m' keys <= keys_bytes m keys.
Proof.
  intros Hm. induction keys as [|key keys IH]; cbn [keys_bytes]; [done|].
  pose proof (len_nonneg (default [] (m !! MessageKey.as_bytes key))).
  destruct (Hm (MessageKey.as_bytes key)) as [->| ->]; [lia|].
  change (len (default [] None)) with 0. lia.
Qed.

Lemma keys_bytes_nonneg m keys : 0 <= keys_bytes m keys.
Proof.
  induction keys as [|key keys IH]; cbn [keys_bytes]; [done|].
  pose proof (len_nonneg (default [] (m !! MessageKey.as_bytes key))). lia.
Qed.

Lemma collect_keys_bytes (m : gmap bytes bytes) l :
  (∀ r, r ∈ l → m !! r.1 = Some r.2) →
  keys_bytes m (collect_keys (Some <$> l)) <= rows_bytes l ∧ len (collect_keys (Some <$> l)) <= len l.
Proof.
  induction l as [|[k v] l IH]; intros Hm; cbn [fmap list_fmap collect_keys rows_bytes]; [done|].
  destruct IH as [IHb IHl]; [intros r Hr; apply Hm; by right|]. pose proof (len_nonneg v). rewrite len_cons.
  destruct (MessageKey.parse k) as [key|] eqn:Hk; [|cbn [snd]; split; lia]. cbn [keys_bytes]. rewrite len_cons.
  apply parse_Some in Hk as (_ & -> & _). assert (Hv : m !! k = Some v) by (apply (Hm (k, v)); by left).
  rewrite Hv. change (default [] (Some v)) with v. cbn [snd]. lia.
Qed.

Lemma sat_add_le a b : sat_add a b <= a + b.
Proof. unfold sat_add. lia. Qed.

Lemma stream_loop_bounds me now keys : ∀ ks p ks' p' ok,
  stream_loop ks me now keys p = (ks', p', ok) →
  bytes_sent (dr_batch p') <= bytes_sent (dr_batch p) + keys_bytes (ks_view ks) keys ∧
  len (seen (dr_batch p')) <= len (seen (dr_batch p)) + len keys.
Proof.
  induction keys as [|key keys IH]; intros ks p ks' p' ok; cbn [stream_loop keys_bytes]; rewrite ?len_cons.
  { intros [= <- <- <-]. change (len (A := MessageKey) []) with 0. lia. }
  pose proof (len_nonneg keys). pose proof (keys_bytes_nonneg (ks_view ks) keys).
  pose proof (len_nonneg (default [] (ks_view ks !! MessageKey.as_bytes key))).
  destruct (is_full (dr_batch p)); [intros [= <- <- <-]; lia|].
  destruct (ks_get ks (MessageKey.as_bytes key)) as [[v|]|] eqn:Hget; [|intros ?%IH; lia..].
  apply ks_get_view in Hget as Hv. rewrite <- Hv in *. change (default [] (Some v)) with v in *.
  destruct (queued_dispatch me v) as [x|]; [|intros ?%IH; lia].
  destruct (is_expired x now).
  { assert (Hm : keys_bytes (ks_view (try_remove ks (MessageKey.as_bytes key))) keys <= keys_bytes (ks_view ks) keys).
    { apply keys_bytes_mono. intros k. destruct (try_remove_view ks (MessageKey.as_bytes key)) as [->| ->]; [|by left].
      rewrite lookup_delete. case_decide; auto. }
    intros ?%IH. lia. }
  destruct (admit_id _ _ _) as [b|] eqn:Ha; [|intros ?%IH; cbn [dr_batch] in *; lia].
  assert (Hb : bytes_sent b <= bytes_sent (dr_batch p) + len v ∧ len (seen b) = len (seen (dr_batch p)) + 1).
  { revert Ha. unfold admit_id. case_bool_decide; [done|]. intros [= <-]. cbn [bytes_sent seen]. rewrite len_cons.
    split; [apply sat_add_le|cbn [dr_batch]; lia]. }
  destruct (send_deliver _ _) as [p2|] eqn:Hs; [|intros [= <- <- <-]; cbn [dr_batch]; lia].
  assert (dr_batch p2 = b) as Hp2.
  { revert Hs. unfold send_deliver. cbn. by destruct (dr_room p) as [[|]|]; intros [= <-]. }
  intros ?%IH. rewrite Hp2 in *. lia.
Qed.

Lemma stream_loop_room me now keys : ∀ ks p ks' p' ok,
  dr_room p = None → stream_loop ks me now keys p = (ks', p', ok) → ok = true ∧ dr_room p' = None.
Proof.
  induction keys as [|key keys IH]; intros ks p ks' p' ok Hr; cbn [stream_loop]; [by intros [= <- <- <-]|].
  destruct (is_full _); [by intros [= <- <- <-]|]. destruct (ks_get _ _) as [[v|]|]; [|by apply IH..].
  destruct (queued_dispatch me v); [|by apply IH]. destruct (is_expired _ _); [by apply IH|].
  destruct (admit_id _ _ _); [|by apply IH]. unfold send_deliver. cbn [dr_room]. rewrite Hr. by apply IH.
Qed.

Lemma stream_remote_room now msgs : ∀ p p' ok,
  dr_room p = None → stream_remote now msgs p = (p', ok) → ok = true.
Proof.
  induction msgs as [|x msgs IH]; intros p p' ok Hr; cbn [stream_remote]; [by intros [= <- <-]|].
  destruct (is_full _); [by intros [= <- <-]|]. destruct (is_expired _ _); [by apply IH|].
  destruct (admit_id _ _ _); [|by apply IH]. unfold send_deliver. cbn [dr_room]. rewrite Hr. by apply IH.
Qed.

(** ** A healthy keyspace is streamed whole *)

Section whole.
Context `{!Healthy KS}.

Lemma try_remove_live me now ks k v0 k0 x0 :
  (∃ v, ks_view ks !! k = Some v ∧ expired_row me now v) →
  ks_view ks !! k0 = Some v0 → live_row me now v0 x0 → ks_view (try_remove ks k) !! k0 = Some v0.
Proof.
  intros (v & Hv & y & Hy & Hx) Hv0 [Hq0 Hx0].
  destruct (try_remove_view ks k) as [->| ->]; [|done]. rewrite lookup_delete_ne; [done|]. intros <-.
  congruence.
Qed.

Lemma try_remove_healthy ks k : healthy ks → healthy (try_remove ks k).
Proof. intros Hh. unfold try_remove. by destruct (healthy_remove ks k Hh) as (ks' & -> & ?). Qed.

Lemma stream_loop_whole me now keys : ∀ ks p ks' p',
  healthy ks → stream_loop ks me now keys p = (ks', p', true) → is_full (dr_batch p') = false →
  ∀ key v x, key ∈ keys → ks_view ks !! MessageKey.as_bytes key = Some v → live_row me now v x →
  id_sent p' (d_id x).
Proof.
  induction keys as [|key keys IH]; intros ks p ks' p' Hh Hrun Hfull k0 v0 x0 Hin Hv0 Hl0.
  { by apply not_elem_of_nil in Hin. }
  revert Hrun. cbn [stream_loop].
  destruct (is_full (dr_batch p)) eqn:Hf; [intros [= <- <-]; congruence|].
  destruct (ks_get ks (MessageKey.as_bytes key)) as [r|] eqn:Hget; [|by destruct (healthy_get ks (MessageKey.as_bytes key))].
  apply ks_get_view in Hget as ->.
  apply elem_of_cons in Hin as [->|Hin].
  - pose proof Hl0 as [Hq Hx]. rewrite Hv0, Hq, Hx. destruct (admit_id _ _ _) as [b|] eqn:Ha.
    + destruct (send_deliver _ _) as [p2|] eqn:Hs; [|done]. intros [_ _ Hseen _ _]%stream_loop_spec. apply Hseen.
      assert (Hb : dr_batch p2 = b).
      { revert Hs. unfold send_deliver. cbn. by destruct (dr_room p) as [[|]|]; intros [= <-]. }
      unfold id_sent. rewrite Hb, (admit_id_seen _ _ _ _ Ha). by left.
    + intros [_ _ Hseen _ _]%stream_loop_spec. apply Hseen. revert Ha. unfold admit_id. by case_bool_decide.
  - destruct (ks_view ks !! MessageKey.as_bytes key) as [v|] eqn:Hv; [|intros; by eapply IH].
    destruct (queued_dispatch me v) as [x|] eqn:Hq; [|intros; by eapply IH].
    destruct (is_expired x now) eqn:Hx.
    + intros Hrec. eapply IH; [by apply try_remove_healthy|exact Hrec|done..| |done].
      eapply try_remove_live; [|done..]. exists v. split; [done|]. by exists x.
    + destruct (admit_id _ _ _); [destruct (send_deliver _ _); [|done]|]; intros; by eapply IH.
Qed.
End whole.

Lemma stream_remote_spec now msgs : ∀ p p' ok,
  stream_remote now msgs p = (p', ok) →
  dr_keys p' = dr_keys p ∧ (∀ id, id_sent p id → id_sent p' id) ∧ (ok = true → wire_ok p → wire_ok p').
Proof.
  induction msgs as [|x msgs IH]; intros p p' ok; cbn [stream_remote]; [by intros [= <- <-]|].
  destruct (is_full _); [by intros [= <- <-]|]. destruct (is_expired x now); [apply IH|].
  destruct (admit_id _ _ _) as [b|] eqn:Ha; [|apply IH]. pose proof (admit_id_seen _ _ _ _ Ha) as Hs.
  destruct (send_deliver _ _) as [p2|] eqn:Hsend.
  - assert (p2 = mkProgress b (dr_keys p) (dr_sent p) (dr_wire p ++ [dispatch_to_deliver x]) (dr_room p2)) as ->.
    { revert Hsend. unfold send_deliver. cbn. by destruct (dr_room p) as [[|r]|]; intros [= <-]. }
    intros (Hk & Hi & Hw)%IH. cbn in *. split_and!; [done| |].
    + intros id Hid. apply Hi. unfold id_sent. cbn. rewrite Hs. by right.
    + intros Hok Hp. apply Hw; [done|]. by eapply wire_ok_admit.
  - intros [= <- <-]. split_and!; [done| |done]. intros id Hid. unfold id_sent. cbn. rewrite Hs. by right.
Qed.
End stream.

Section drain.
Context `{Crypto} `{RelayCodecs} {KS : Type} `{!Keyspace KS} {N : Type} `{!Network N}.
Local Abbreviation dht := (Dht (KS := KS)).
Implicit Types (d : dht) (n : N) (cx : ClientContext).

(** The two keyspaces that hold messages. *)
Definition local_space (name : ks_name) : Prop := name = KsMessages ∨ name = KsQueue.

(** What a drain that wrote all its packets leaves. *)
Record drained cx d now cx' d' (wire : list DeliverP) : Prop := {
  dn_ipk : cx_ipk cx' = cx_ipk cx;
  dn_once : NoDup (map dl_id wire);
  dn_removed : ∀ name k, view (store d') name !! k = view (store d) name !! k ∨
    local_space name ∧ view (store d') name !! k = None ∧
    ∃ v, view (store d) name !! k = Some v ∧ expired_row (cx_ipk cx) now v;
  dn_pending : ∀ key, key ∈ pending_drain cx' →
    MessageKey.parse (MessageKey.as_bytes key) = Some key ∧
    ∃ name v x y, local_space name ∧ view (store d) name !! MessageKey.as_bytes key = Some v ∧
      live_row (cx_ipk cx) now v x ∧ y ∈ wire ∧ dl_id y = d_id x;
}.

Lemma stream_keyspace_spec (ks : KS) me now p ks' p' ok :
  stream_keyspace ks me now p = (ks', p', ok) →
  let keys := collect_keys (ks_prefix ks me) in
  streamed me now ks keys (mkProgress (dr_batch p) (dr_keys p) [] (dr_wire p) (dr_room p)) ks' p' ok.
Proof. apply stream_loop_spec. Qed.

Lemma wire_ok_default room : wire_ok (mkProgress batch_default [] [] [] room).
Proof. split; [apply NoDup_nil_2|done]. Qed.

Lemma wire_ok_reset p : wire_ok p → wire_ok (mkProgress (dr_batch p) (dr_keys p) [] (dr_wire p) (dr_room p)).
Proof. done. Qed.

(** The progress through a drain, with the rows read from the state it started in. *)
Definition progress_ok cx d now p : Prop :=
  ∀ key, key ∈ dr_keys p →
    MessageKey.parse (MessageKey.as_bytes key) = Some key ∧
    ∃ name v x, local_space name ∧ view (store d) name !! MessageKey.as_bytes key = Some v ∧
      live_row (cx_ipk cx) now v x ∧ id_sent p (d_id x).

Lemma progress_stream cx d now name (ks : KS) p p' ok :
  local_space name → stream_keyspace (space (store d) name) (cx_ipk cx) now p = (ks, p', ok) →
  progress_ok cx d now p → progress_ok cx d now p'.
Proof.
  intros Hn [_ Hk Hs _ _]%stream_keyspace_spec Hp key [Hin|(Hin & v & x & Hv & Hl & Hi)]%Hk.
  - destruct (Hp key Hin) as (? & nm & v & x & ? & ? & ? & ?). split; [done|]. exists nm, v, x. split_and!; try done.
    by apply Hs.
  - split; [by eapply collect_keys_parse|]. by exists name, v, x.
Qed.

Lemma progress_remote cx d now msgs p p' ok :
  stream_remote now msgs p = (p', ok) → progress_ok cx d now p → progress_ok cx d now p'.
Proof.
  intros (Hk & Hs & _)%stream_remote_spec Hp key. rewrite Hk. intros Hin.
  destruct (Hp key Hin) as (? & nm & v & x & ? & ? & ? & ?). split; [done|]. exists nm, v, x. split_and!; try done.
  by apply Hs.
Qed.

(** What the queue part of a drain does, streamed or skipped. *)
Lemma drain_queue_part (b : bool) cx d now p q p' ok :
  (if b then stream_keyspace (space (store d) KsQueue) (cx_ipk cx) now p
   else (space (store d) KsQueue, mkProgress (dr_batch p) (dr_keys p) [] (dr_wire p) (dr_room p), true))
  = (q, p', ok) →
  (∀ k, ks_view q !! k = view (store d) KsQueue !! k ∨
        ks_view q !! k = None ∧ ∃ v, view (store d) KsQueue !! k = Some v ∧ expired_row (cx_ipk cx) now v) ∧
  (progress_ok cx d now p → progress_ok cx d now p') ∧ (ok = true → wire_ok p → wire_ok p').
Proof.
  destruct b.
  - intros Hs. pose proof (stream_keyspace_spec _ _ _ _ _ _ _ Hs) as [Hr _ _ _ Hw].
    split_and!; [done|by eapply progress_stream; [right|]|done].
  - intros [= <- <- <-]. split_and!; [by left|done..].
Qed.

Lemma drain_spec cx d n now room cx' d' n' wire :
  handle_drain_queue cx d n now room = (cx', d', n', wire, true) → drained cx d now cx' d' wire.
Proof.
  unfold handle_drain_queue. destruct (if cx_dht cx then _ else _) as [homes home].
  destruct (stream_keyspace (space (store d) KsMessages) _ _ _) as [[m p1] ok1] eqn:H1.
  destruct ok1; [|done]. cbn [negb]. set (d1 := set_store d _).
  destruct (if home && _ then _ else _) as [[q p2] ok2] eqn:H2. destruct ok2; [|done]. cbn [negb].
  match goal with |- (let '(_, _) := ?X in _) = _ → _ => destruct X as [n1 msgs] end.
  destruct (stream_remote now msgs _) as [p3 ok3] eqn:H3. destruct ok3; [|done]. cbn [negb].
  intros [= <- <- <- <-].
  assert (Hp1 : progress_ok cx d now p1).
  { eapply progress_stream; [by left|exact H1|]. by intros key ?%not_elem_of_nil. }
  pose proof (stream_keyspace_spec _ _ _ _ _ _ _ H1) as [Hr1 _ _ _ Hw1].
  change (space (store d1) KsQueue) with (space (store d) KsQueue) in H2.
  apply drain_queue_part in H2 as (Hr2 & Hp2 & Hw2).
  assert (Hp3 : progress_ok cx d now p3) by (eapply progress_remote; [exact H3|]; exact (Hp2 Hp1)).
  apply stream_remote_spec in H3 as (_ & _ & Hw3).
  assert (Hw : wire_ok p3) by (apply Hw3; [done|]; apply Hw2; [done|]; apply Hw1; [done|]; apply wire_ok_default).
  constructor.
  - by destruct (dr_sent p2), homes.
  - rewrite (proj2 Hw). apply Hw.
  - intros name k. unfold d1. cbn [store set_store]. rewrite !view_set_space.
    destruct (decide (name = KsQueue)) as [->|]; [destruct (Hr2 k) as [?|[? ?]]; [by left|right; split; [by right|done]]|].
    destruct (decide (name = KsMessages)) as [->|]; [destruct (Hr1 k) as [?|[? ?]]; [by left|right; split; [by left|done]]|by left].
  - intros key Hin. destruct (Hp3 key Hin) as (Hk & nm & v & x & ? & ? & ? & Hi).
    apply (id_sent_wire _ _ Hw) in Hi as (y & ? & ?). split; [done|]. by exists nm, v, x, y.
Qed.

(** ** The acknowledgement *)

Lemma ack_ops_view keys : ∀ (a b : gmap bytes bytes) k,
  let m := Mem.apply_batch a b (ack_ops keys) in
  m.1 !! k = (if decide (k ∈ map MessageKey.as_bytes keys) then None else a !! k) ∧
  m.2 !! k = (if decide (k ∈ map MessageKey.as_bytes keys) then None else b !! k).
Proof.
  induction keys as [|key keys IH]; intros a b k; cbv zeta; [done|].
  change (Mem.apply_batch a b (ack_ops (key :: keys))) with
    (Mem.apply_batch (delete (MessageKey.as_bytes key) a) (delete (MessageKey.as_bytes key) b) (ack_ops keys)).
  cbn [map]. destruct (IH (delete (MessageKey.as_bytes key) a) (delete (MessageKey.as_bytes key) b) k) as [-> ->].
  rewrite !lookup_delete. repeat case_decide; set_solver.
Qed.

(** The keys an acknowledgement of [ids] deletes. *)
Definition acked_keys cx (ids : list bytes) : list bytes :=
  map MessageKey.as_bytes (filter (λ key, mk_id key ∈ ids) (pending_drain cx)).

Lemma ack_spec cx d n ids auth cx' d' n' ok name k :
  handle_ack_drain cx d n ids auth = (cx', d', n', ok) →
  pending_drain cx' = [] ∧
  view (store d') name !! k =
    (if decide (ok = true ∧ local_space name ∧ k ∈ acked_keys cx ids) then None else view (store d) name !! k).
Proof.
  unfold handle_ack_drain, acked_keys. cbn [pending_drain set_pending_drain].
  set (keys := filter _ (pending_drain cx)). destruct (decide (keys = [])) as [->|Hne].
  { intros [= <- <- <- <-]. split; [done|]. rewrite decide_False; [done|]. by intros (_ & _ & ?%not_elem_of_nil). }
  assert (Hc : match keys with [] => Some d | _ =>
      '(m, q) ← ks_commit (space (store d) KsMessages) (space (store d) KsQueue) (ack_ops keys);
      Some (set_store d (set_space (set_space (store d) KsMessages m) KsQueue q)) end =
    ('(m, q) ← ks_commit (space (store d) KsMessages) (space (store d) KsQueue) (ack_ops keys);
      Some (set_store d (set_space (set_space (store d) KsMessages m) KsQueue q)))) by (by destruct keys).
  rewrite Hc. clear Hc. destruct (ks_commit _ _ _) as [[m q]|] eqn:Hcommit; cbn [mbind option_bind].
  - intros [= <- <- <- <-]. split; [done|]. cbn [store set_store]. rewrite !view_set_space.
    apply ks_commit_view in Hcommit. change (fold_left _ _ _) with
      (Mem.apply_batch (view (store d) KsMessages) (view (store d) KsQueue) (ack_ops keys)) in Hcommit.
    destruct (ack_ops_view keys (view (store d) KsMessages) (view (store d) KsQueue) k) as [Hm Hq].
    rewrite <- Hcommit in Hm, Hq. cbn [fst snd] in Hm, Hq. unfold local_space.
    destruct (decide (name = KsQueue)) as [->|]; [rewrite Hq; repeat case_decide; naive_solver|].
    destruct (decide (name = KsMessages)) as [->|]; [rewrite Hm; repeat case_decide; naive_solver|].
    rewrite decide_False; [done|]. naive_solver.
  - intros [= <- <- <- <-]. split; [done|]. rewrite decide_False; [done|]. by intros [? _].
Qed.

(** Rows are filed under the id of their dispatch, as both writers do. *)
Definition rows_named (m : gmap bytes bytes) : Prop :=
  ∀ me k v x, m !! k = Some v → queued_dispatch me v = Some x → d_id x = drop 40 k.

(** C6: A drain and its acknowledgement lose nothing.  The drain writes no id twice, and
    after both a message row of either keyspace is still there, or it had expired, or a
    packet with its id was written and the client acknowledged that id.  A failed batch
    deletes nothing. *)
Theorem drain_ack_no_loss cx d n now room cx1 d1 n1 wire ids auth cx2 d2 n2 ok :
  rows_named (view (store d) KsMessages) → rows_named (view (store d) KsQueue) →
  handle_drain_queue cx d n now room = (cx1, d1, n1, wire, true) →
  handle_ack_drain cx1 d1 n1 ids auth = (cx2, d2, n2, ok) →
  NoDup (map dl_id wire) ∧
  ∀ name k v, local_space name → view (store d) name !! k = Some v →
    view (store d2) name !! k = Some v ∨ expired_row (cx_ipk cx) now v ∨
    ok = true ∧ drop 40 k ∈ ids ∧ ∃ y, y ∈ wire ∧ dl_id y = drop 40 k.
Proof.
  intros Hnm Hnq [_ Hnd Hr Hp]%drain_spec Hack. split; [done|]. intros name k v Hn Hv.
  destruct (ack_spec _ _ _ _ _ _ _ _ _ name k Hack) as [_ ->].
  destruct (Hr name k) as [Heq|(_ & _ & v' & Hv' & Hx)]; [|right; left; congruence].
  destruct (decide _) as [(Hok & _ & Hin)|_]; [|left; congruence]. right. right.
  apply list_elem_of_fmap in Hin as (key & -> & (Hid & Hkey)%list_elem_of_filter).
  destruct (Hp key Hkey) as (Hparse & nm & v' & x & y & Hnm' & Hv' & [Hq _] & Hy & Hyid).
  assert (Hmk : mk_id key = drop 40 (MessageKey.as_bytes key)) by (by apply parse_Some in Hparse as (_ & _ & ? & _)).
  assert (Hxid : d_id x = drop 40 (MessageKey.as_bytes key)).
  { destruct Hnm' as [-> | ->]; [eapply Hnm|eapply Hnq]; done. }
  split_and!; [done|by rewrite <- Hmk|]. exists y. split; [done|]. by rewrite Hyid.
Qed.

(** ** Completeness *)

(** What [me] has stored in a keyspace, in bytes and rows. *)
Definition stored_bytes (m : gmap bytes bytes) (me : bytes) : Z := rows_bytes (prefix_rows me m).
Definition stored_rows (m : gmap bytes bytes) (me : bytes) : Z := len (prefix_rows me m).

Section whole.
Context `{!Healthy KS}.

Lemma healthy_scan (ks : KS) me : healthy ks → ks_prefix ks me = Some <$> prefix_rows me (ks_view ks).
Proof. intros Hh. apply (so_complete _ _ (ks_prefix_view _ _)). by apply healthy_prefix. Qed.

Lemma is_queue_key_parse k : is_queue_key k → ∃ key, MessageKey.parse k = Some key.
Proof. intros Hk. unfold MessageKey.parse. rewrite decide_True by done. eauto. Qed.

Lemma stream_keyspace_whole (ks : KS) me now p ks' p' ok :
  healthy ks → dr_room p = None → stream_keyspace ks me now p = (ks', p', ok) →
  bytes_sent (dr_batch p) + stored_bytes (ks_view ks) me < DRAIN_MAX_BATCH_BYTES →
  len (seen (dr_batch p)) + stored_rows (ks_view ks) me < DRAIN_MAX_BATCH_IDS →
  ok = true ∧ dr_room p' = None ∧
  bytes_sent (dr_batch p') <= bytes_sent (dr_batch p) + stored_bytes (ks_view ks) me ∧
  len (seen (dr_batch p')) <= len (seen (dr_batch p)) + stored_rows (ks_view ks) me ∧
  ∀ k v x, (k, v) ∈ queue_rows (ks_view ks) me → live_row me now v x → id_sent p' (d_id x).
Proof.
  intros Hh Hroom Hs Hb Hn. unfold stream_keyspace in Hs.
  pose proof Hs as [-> Hroom']%stream_loop_room; [|exact Hroom].
  destruct (stream_loop_bounds _ _ _ _ _ _ _ _ Hs) as [Hb' Hn'].
  rewrite (healthy_scan _ me Hh) in Hs, Hb', Hn'.
  destruct (collect_keys_bytes (ks_view ks) (prefix_rows me (ks_view ks))) as [Hcb Hcn].
  { intros [k v] [? _]%elem_of_prefix_rows. done. }
  unfold stored_bytes, stored_rows in *. cbn [dr_batch] in *.
  split_and!; [done..|lia|lia|]. intros k v x (Hv & Hp & Hk)%elem_of_queue_rows Hl.
  destruct (is_queue_key_parse k Hk) as [key Hkey]. pose proof (parse_Some _ _ Hkey) as (_ & Has & _).
  refine (stream_loop_whole me now _ _ _ _ _ Hh Hs _ key v x _ _ Hl); [| |by rewrite Has].
  - unfold is_full. apply orb_false_iff. split; rewrite Z.geb_leb; apply Z.leb_gt; lia.
  - eapply collect_keys_all; [|by apply list_elem_of_fmap_2, elem_of_prefix_rows|exact Hkey].
    intros (? & ? & _)%list_elem_of_fmap. done.
Qed.

(** The home queue within the budget the messages left. *)
Lemma drain_queue_whole (b : bool) cx d now p q p' ok :
  healthy (space (store d) KsQueue) → dr_room p = None →
  (if b then stream_keyspace (space (store d) KsQueue) (cx_ipk cx) now p
   else (space (store d) KsQueue, mkProgress (dr_batch p) (dr_keys p) [] (dr_wire p) (dr_room p), true))
  = (q, p', ok) →
  bytes_sent (dr_batch p) + stored_bytes (view (store d) KsQueue) (cx_ipk cx) < DRAIN_MAX_BATCH_BYTES →
  len (seen (dr_batch p)) + stored_rows (view (store d) KsQueue) (cx_ipk cx) < DRAIN_MAX_BATCH_IDS →
  ok = true ∧ dr_room p' = None ∧ (∀ id, id_sent p id → id_sent p' id) ∧
  (b = true → ∀ k v x, (k, v) ∈ queue_rows (view (store d) KsQueue) (cx_ipk cx) →
     live_row (cx_ipk cx) now v x → id_sent p' (d_id x)).
Proof.
  intros Hh Hr Hs Hb Hn. destruct b; [|by injection Hs as <- <- <-].
  pose proof (stream_keyspace_spec _ _ _ _ _ _ _ Hs) as [_ _ Hseen _ _].
  apply stream_keyspace_whole in Hs as (? & ? & _ & _ & Hall); [|done..]. split_and!; [done..|]. by intros _.
Qed.

(** A drain within its budget delivers everything.  When the rows a user has at a
    working relay fit [DRAIN_MAX_BATCH_BYTES] and [DRAIN_MAX_BATCH_IDS] and the stream
    takes every packet, the drain succeeds and writes a packet for every unexpired row of
    the message keyspace and, at a home, of the home queue. *)
Theorem drain_sends_all cx d n now cx' d' n' wire ok :
  let me := cx_ipk cx in
  let m := view (store d) KsMessages in
  let q := view (store d) KsQueue in
  healthy (space (store d) KsMessages) → healthy (space (store d) KsQueue) →
  stored_bytes m me + stored_bytes q me < DRAIN_MAX_BATCH_BYTES →
  stored_rows m me + stored_rows q me < DRAIN_MAX_BATCH_IDS →
  handle_drain_queue cx d n now None = (cx', d', n', wire, ok) →
  ok = true ∧
  ∀ k v x, (k, v) ∈ queue_rows m me ∨
           cx_dht cx = true ∧ (dht_homes d me).2 = true ∧ (k, v) ∈ queue_rows q me →
    live_row me now v x → ∃ y, y ∈ wire ∧ dl_id y = d_id x.
Proof.
  cbv zeta. intros Hhm Hhq Hb Hn. unfold handle_drain_queue.
  pose proof (rows_bytes_nonneg (prefix_rows (cx_ipk cx) (view (store d) KsQueue))) as Hbq.
  pose proof (len_nonneg (prefix_rows (cx_ipk cx) (view (store d) KsQueue))) as Hnq.
  fold (stored_bytes (view (store d) KsQueue) (cx_ipk cx)) in Hbq.
  fold (stored_rows (view (store d) KsQueue) (cx_ipk cx)) in Hnq.
  assert (Hfm : bytes_sent batch_default + stored_bytes (view (store d) KsMessages) (cx_ipk cx) < DRAIN_MAX_BATCH_BYTES).
  { cbn [bytes_sent batch_default]. lia. }
  assert (Hfr : len (seen batch_default) + stored_rows (view (store d) KsMessages) (cx_ipk cx) < DRAIN_MAX_BATCH_IDS).
  { change (len (seen batch_default)) with 0. lia. }
  destruct (if cx_dht cx then _ else _) as [homes home] eqn:Hhome.
  destruct (stream_keyspace (space (store d) KsMessages) _ _ _) as [[m1 p1] ok1] eqn:H1.
  pose proof (stream_keyspace_spec _ _ _ _ _ _ _ H1) as [_ _ _ _ Hw1].
  apply stream_keyspace_whole in H1 as (-> & Hr1 & Hb1 & Hn1 & Hall1); [|done..|exact Hfm|exact Hfr].
  cbn [dr_batch] in Hb1, Hn1.
  change (bytes_sent batch_default) with 0 in Hb1. change (len (seen batch_default)) with 0 in Hn1.
  fold (view (store d) KsMessages) in Hb1, Hn1, Hall1.
  cbn [negb]. set (d1 := set_store d _).
  destruct (if home && _ then _ else _) as [[q p2] ok2] eqn:H2.
  change (space (store d1) KsQueue) with (space (store d) KsQueue) in H2.
  change (cx_dht (set_remote_drain cx None)) with (cx_dht cx) in H2.
  pose proof H2 as (_ & _ & Hw2)%(drain_queue_part _ cx d now).
  destruct (drain_queue_whole _ _ _ _ _ _ _ _ Hhq Hr1 H2) as (-> & Hr2 & Hs2 & Hall2); [lia..|].
  cbn [negb].
  match goal with |- (let '(_, _) := ?X in _) = _ → _ => destruct X as [n1 msgs] end.
  destruct (stream_remote now msgs _) as [p3 ok3] eqn:H3.
  pose proof (stream_remote_room _ _ (mkProgress (dr_batch p2) (dr_keys p2) [] (dr_wire p2) (dr_room p2)) _ _ Hr2 H3) as ->.
  apply stream_remote_spec in H3 as (_ & Hs3 & Hw3). cbn [negb]. intros [= <- <- <- <- <-]. split; [done|].
  assert (Hw : wire_ok p3) by (apply Hw3; [done|]; apply Hw2; [done|]; apply Hw1; [done|]; apply wire_ok_default).
  intros k v x Hin Hl. apply (id_sent_wire _ _ Hw). apply Hs3. destruct Hin as [Hin|(Hd & Hh & Hin)].
  - by eapply Hs2, Hall1.
  - eapply Hall2; [|done..]. rewrite Hd in Hhome |- *. rewrite Hhome in Hh. cbn in Hh. by rewrite Hh.
Qed.
End whole.
End drain.

(** ** Examples *)

Module Mailbox.
Import Toy Mem KpExample ToyQueue ToyRelay Quartet.

Definition session (sk : bytes) : ClientContext := mkCtx (verifying_key sk) true [] None None.

(** Nobody is connected, every deadline is met and every packet admitted. *)
Definition calm : ClientEnv := mkClientEnv quiet true false true.

(** A cluster without other relays. *)
Definition alone : Cluster (KS := mem) :=
  mkCluster (relay_id (secret 1)) ∅ ∅ 0
    (λ _, mkWorld (λ _, quiet) (λ _, 50) (λ _, true) (λ _, true)) (λ _ l, l) (λ _ l, Permutation_refl l).

(** The message [text] of the holder of [sk] to [bob], under the id of sixteen [i]s. *)
Definition note (sk : bytes) (i text : Z) : DispatchP :=
  let from := verifying_key sk in
  let bob := verifying_key (secret 9) in
  mkDispatch bob from (replicate 16 i) [text]
    (sign sk (dispatch_sig_message PROTOCOL_VERSION bob from (replicate 16 i) [text])) 0 WakeNo 0.

Definition submit (sk : bytes) (i text now : Z) (dn : Dht (KS := mem) * Cluster (KS := mem))
    : Dht (KS := mem) * Cluster (KS := mem) * option DispatchAckP :=
  handle_forward calm (session sk) dn.1 dn.2 (note sk i text) now.

(** Alice sends under id 7; Eve then sends under the same id. *)
Definition after_alice := submit (secret 3) 7 1 40 (lone_relay, alone).
Definition after_eve := submit (secret 5) 7 2 41 after_alice.1.

(** Bob drains and acknowledges the id. *)
Abbreviation drain_now := (handle_drain_queue (session (secret 9)) after_eve.1.1 after_eve.1.2 50 None).
Definition ack_now :=
  let '(cx, d, n, _, _) := drain_now in handle_ack_drain cx d n [replicate 16 7] None.

Definition stamped (x : DispatchP) (now : Z) : DispatchP :=
  mkDispatch (d_to x) (d_from x) (d_id x) (d_payload x) (d_sig x) now (d_wake x) (d_ttl_ms x).

(** The key and the row of a note accepted at [now]. *)
Definition note_key (sk : bytes) (i text now : Z) : bytes :=
  MessageKey.as_bytes (MessageKey.new (d_to (note sk i text)) now (d_id (note sk i text))).
Definition note_row (sk : bytes) (i text now : Z) : bytes := raw_dispatch (stamped (note sk i text) now).

Lemma eve_messages : view (store after_eve.1.1) KsMessages = {[note_key (secret 5) 7 2 41 := note_row (secret 5) 7 2 41]}.
Proof. vm_compute. reflexivity. Qed.

Lemma alice_queue : view (store after_eve.1.1) KsQueue = {[note_key (secret 3) 7 1 40 := note_row (secret 3) 7 1 40]}.
Proof. vm_compute. reflexivity. Qed.

Lemma note_named sk i text now :
  d_id (note sk i text) = drop 40 (note_key sk i text now) →
  rows_named {[note_key sk i text now := note_row sk i text now]}.
Proof.
  intros Hid me k v x [<- <-]%lookup_singleton_Some. unfold queued_dispatch, note_row.
  cbn [deser codec_dispatch rc_queue relay_codecs queue_codecs dispatch_codec].
  rewrite parse_raw_dispatch. intros [= <-]. exact Hid.
Qed.

Lemma eve_named : rows_named (view (store after_eve.1.1) KsMessages).
Proof. rewrite eve_messages. apply note_named; vm_compute; reflexivity. Qed.

Lemma alice_named : rows_named (view (store after_eve.1.1) KsQueue).
Proof. rewrite alice_queue. apply note_named; vm_compute; reflexivity. Qed.

Lemma drain_ok : drain_now.2 = true.
Proof. vm_compute. reflexivity. Qed.

Lemma bob_healthy : healthy (space (store after_eve.1.1) KsMessages) ∧ healthy (space (store after_eve.1.1) KsQueue).
Proof. vm_compute. split; reflexivity. Qed.

Lemma bob_fits :
  stored_bytes (view (store after_eve.1.1) KsMessages) (verifying_key (secret 9))
  + stored_bytes (view (store after_eve.1.1) KsQueue) (verifying_key (secret 9)) < DRAIN_MAX_BATCH_BYTES ∧
  stored_rows (view (store after_eve.1.1) KsMessages) (verifying_key (secret 9))
  + stored_rows (view (store after_eve.1.1) KsQueue) (verifying_key (secret 9)) < DRAIN_MAX_BATCH_IDS.
Proof. rewrite eve_messages, alice_queue. vm_compute. split; reflexivity. Qed.
End Mailbox.

Import Toy Mem KpExample ToyQueue ToyRelay Quartet Mailbox.

Lemma drain_ack_no_loss_witness :
  let '(cx1, d1, n1, wire, ok1) := drain_now in
  let '(cx2, d2, n2, ok) := handle_ack_drain cx1 d1 n1 [replicate 16 7] None in
  ok1 = true ∧ NoDup (map dl_id wire) ∧
  ∀ name k v, local_space name → view (store after_eve.1.1) name !! k = Some v →
    view (store d2) name !! k = Some v ∨ expired_row (verifying_key (secret 9)) 50 v ∨
    ok = true ∧ drop 40 k ∈ [replicate 16 7] ∧ ∃ y, y ∈ wire ∧ dl_id y = drop 40 k.
Proof.
  destruct drain_now as [[[[cx1 d1] n1] wire] ok1] eqn:Hd.
  destruct (handle_ack_drain cx1 d1 n1 [replicate 16 7] None) as [[[cx2 d2] n2] ok] eqn:Ha.
  pose proof drain_ok as Hok. rewrite Hd in Hok. cbn in Hok. subst ok1. split; [reflexivity|].
  exact (drain_ack_no_loss (session (secret 9)) after_eve.1.1 after_eve.1.2 50 None cx1 d1 n1 wire
    [replicate 16 7] None cx2 d2 n2 ok eve_named alice_named Hd Ha).
Defined.

Lemma drain_sends_all_witness :
  let '(cx1, d1, n1, wire, ok1) := drain_now in
  ok1 = true ∧
  ∀ k v x, (k, v) ∈ queue_rows (view (store after_eve.1.1) KsMessages) (verifying_key (secret 9)) ∨
           true = true ∧ (dht_homes after_eve.1.1 (verifying_key (secret 9))).2 = true ∧
           (k, v) ∈ queue_rows (view (store after_eve.1.1) KsQueue) (verifying_key (secret 9)) →
    live_row (verifying_key (secret 9)) 50 v x → ∃ y, y ∈ wire ∧ dl_id y = d_id x.
Proof.
  destruct drain_now as [[[[cx1 d1] n1] wire] ok1] eqn:Hd.
  exact (drain_sends_all (session (secret 9)) after_eve.1.1 after_eve.1.2 50 cx1 d1 n1 wire ok1
    (proj1 bob_healthy) (proj2 bob_healthy) (proj1 bob_fits) (proj2 bob_fits) Hd).
Defined.

(** A dispatch can be dropped by another sender's dispatch under the same id.  Alice's
    dispatch is accepted and kept in the home queue; Eve's, under the same id, is accepted
    in the message keyspace, where admission does not look for it.  Bob's drain sends
    Eve's and skips Alice's unexpired one, yet remembers both keys, and Bob's
    acknowledgement of the id deletes both. *)
Theorem drain_drops_colliding_dispatch :
  let '(cx1, d1, n1, wire, ok1) := drain_now in
  let '(cx2, d2, n2, ok) := handle_ack_drain cx1 d1 n1 [replicate 16 7] None in
  after_alice.2 = Some (AckQueued 40) ∧ after_eve.2 = Some (AckQueued 41) ∧ ok1 = true ∧
  map dl_from wire = [verifying_key (secret 5)] ∧
  live_row (verifying_key (secret 9)) 50 (note_row (secret 3) 7 1 40) (stamped (note (secret 3) 7 1) 40) ∧
  view (store after_eve.1.1) KsQueue !! note_key (secret 3) 7 1 40 = Some (note_row (secret 3) 7 1 40) ∧
  view (store d2) KsQueue !! note_key (secret 3) 7 1 40 = None.
Proof.
  rewrite alice_queue, lookup_singleton_eq. vm_compute. split_and!; reflexivity.
Qed.
