(* ===== verification/ClientProps.v ===== *)
(** * ClientProps: what accepting a dispatch promises

    A dispatch answered [Queued] is kept: its row stays in the message keyspace, or the
    recipient took it, or a quorum of the recipient's homes has it. *)

From S2P Require Import Prelude Bytes Crypto Proto MlsWire Keyspace Store StoreProps Routing RoutingInv Homes Queue QueueProps KeyPackages KeyPackagesProps Contracts Dht Mls Forward Sync Examples ForwardProps Client Drain DrainProps.

Section client.
Context `{Crypto} `{RelayCodecs} {KS : Type} `{!Keyspace KS}.
Local Abbreviation dht := (Dht (KS := KS)).
Implicit Types (d : dht) (s : Store KS) (c : Cluster (KS := KS)) (cx : ClientContext) (ce : ClientEnv).

(** The dispatch with this relay's acceptance time. *)
Definition accepted (x : DispatchP) (now : Z) : DispatchP :=
  mkDispatch (d_to x) (d_from x) (d_id x) (d_payload x) (d_sig x) now (d_wake x) (d_ttl_ms x).

Lemma store_in_rocks_spec s x ok s' r :
  dispatch_typed x → store_in_rocks s x ok = (s', r) →
  (∀ n, n ≠ KsMessages → space s' n = space s n) ∧
  (∀ t, r = Some (AckQueued t) → t = d_accepted_at_ms x ∧ ok = true ∧ holds (view s' KsMessages) x) ∧
  (r = Some (AckDelivered (d_accepted_at_ms x)) → False).
Proof.
  intros Hx. unfold store_in_rocks. destruct (admit_to_queue _ _ _ _) eqn:Ha; try (by intros [= <- <-]).
  - destruct (ser x) as [value|] eqn:Hser; [|by intros [= <- <-]].
    destruct (put_sync _ _ _ _) as [s1|] eqn:Hput; [|by intros [= <- <-]]. intros [= <- <-].
    split_and!; [intros n Hn; by eapply put_sync_space| |by destruct ok]. intros t. destruct ok; [|done].
    intros [= <-]. split_and!; [done..|]. by eapply put_holds.
  - intros [= <- <-]. split_and!; [done| |by destruct ok]. intros t. destruct ok; [|done].
    intros [= <-]. split_and!; [done..|]. by apply admit_holds.
Qed.

(** ** Routing *)

(** Copies at the homes: a quorum of the selected ones came to hold the dispatch or took
    it live; this relay, when a home, holds it or forwarded it over a lease. *)
Definition quorum_kept (e : Env) d d' c c' (x : DispatchP) : Prop :=
  let homes := dht_homes d (d_to x) in
  ∃ ids, NoDup ids ∧
    (write_quorum (length homes.1 + (if homes.2 then 1 else 0)) <= length ids)%nat ∧
    ∀ id, id ∈ ids → custody c c' x id ∨
      id = node_id d ∧ homes.2 = true ∧
      (holds (view (store d') KsQueue) x ∨ ∃ lease, forward_via_active_lease e d x lease = true).

(** The recipient took the dispatch here, or its homes keep it. *)
Definition taken ce d d' c c' (x : DispatchP) : Prop :=
  online d (d_to x) = true ∧ deliver (ce_env ce) (d_to x) (dispatch_to_deliver x) = true ∨
  quorum_kept (ce_env ce) d d' c c' x.

Lemma forward_quorum_kept e d c x now d' c' sm :
  dispatch_typed x → well_placed d → forward_to_homes e d c x now = (d', c', Ok sm) →
  quorum_kept e d d' c c' x.
Proof.
  intros Hx [Hwf Hid] Hf. destruct (forward_summary _ _ _ _ _ _ _ _ Hf) as (sm' & Hr & Hh & Hm).
  destruct (meets_k_min sm') eqn:Hk; [injection Hr as <-|done].
  destruct (forward_spec _ _ _ _ _ _ _ _ Hx Hf) as (_ & _ & Hc). exists (successes sm). split_and!.
  - eapply submseteq_NoDup; [|etrans; [apply successes_mentioned|exact Hm]]. rewrite Hh.
    by apply homes_tried_NoDup; [..|apply Hx].
  - apply Nat.leb_le in Hk. unfold success_count in Hk. unfold successes. rewrite length_app.
    rewrite Hh, length_app, length_map in Hk. by destruct (dht_homes d (d_to x)).2.
  - intros id Hin. destruct (Hc sm eq_refl id Hin) as [?|(-> & ? & [?|(lease & _ & ?)])]; [by left|right; eauto..].
Qed.

Lemma route_spec ce cx d c x d' c' r :
  dispatch_typed x → well_placed d → route_dispatch ce cx d c x = (d', c', r) →
  space (store d') KsMessages = space (store d) KsMessages ∧ (r ≠ None → taken ce d d' c c' x) ∧
  ∀ t, r ≠ Some (AckQueued t).
Proof.
  intros Hx Hd. unfold route_dispatch.
  destruct (online d _ && deliver _ _ _) eqn:Hlive.
  { intros [= <- <- <-]. split_and!; [done| |done]. intros _. left. by apply andb_true_iff in Hlive. }
  set (d0 := match clients d !! d_to x with Some _ => _ | None => _ end).
  assert (Hd0 : well_placed d0 ∧ store d0 = store d ∧ ∀ d' c c',
    quorum_kept (ce_env ce) d0 d' c c' x → quorum_kept (ce_env ce) d d' c c' x).
  { unfold d0, remove_client_if_same. destruct (clients d !! d_to x); [|done]. destruct (ce_gone ce); [|done].
    by case_bool_decide. }
  destruct Hd0 as (Hwp & Hst & Hq).
  destruct (cx_dht cx); [|intros [= <- <- <-]; by rewrite Hst].
  destruct (forward_to_homes _ d0 c x _) as [[d1 c1] res] eqn:Hf. intros [= <- <- <-].
  destruct (forward_spec _ _ _ _ _ _ _ _ Hx Hf) as (Hg & _ & _). split_and!; [by rewrite (gr_space _ _ Hg), Hst| |].
  - destruct res as [sm|sm]; [|done]. intros _. right. apply Hq. by eapply forward_quorum_kept.
  - intros t. destruct res as [sm|]; [|done]. unfold ack_for_summary. by destruct (any_delivered sm).
Qed.

(** ** The local copy *)

Lemma apply_removes_left keys : ∀ (a b : gmap bytes bytes), (Mem.apply_batch a b (map (BRemove false) keys)).2 = b.
Proof. induction keys as [|k keys IH]; intros a b; [done|]. apply (IH (delete k a) b). Qed.

Lemma retire_queue s x : view (retire_local_copy s x) KsQueue = view s KsQueue.
Proof.
  unfold retire_local_copy. destruct (retire_scan _ _) as [keys|]; [|done].
  destruct (ks_commit _ _ _) as [[m q]|] eqn:Hc; [|done]. rewrite !view_set_space, decide_True by done.
  apply ks_commit_view in Hc. change (fold_left _ _ _) with
    (Mem.apply_batch (view s KsMessages) (view s KsQueue) (map (BRemove false) keys)) in Hc.
  change (ks_view q) with ((ks_view m, ks_view q).2). rewrite Hc. apply apply_removes_left.
Qed.

Lemma taken_retire ce d d' c c' x y : taken ce d d' c c' x → taken ce d (set_store d' (retire_local_copy (store d') y)) c c' x.
Proof.
  intros [?|(ids & Hnd & Hq & Hids)]; [by left|]. right. exists ids. split_and!; [done..|].
  intros id Hin. destruct (Hids id Hin) as [?|(? & ? & Ho)]; [by left|]. right. split_and!; [done..|].
  cbn [store set_store]. by rewrite retire_queue.
Qed.

(** C5: An accepted dispatch is kept.  When a session answers [Queued], the dispatch was
    the connected user's own and correctly signed, the acceptance is durable, and after the
    handler its row is still in the message keyspace, or the recipient acknowledged it
    live, or a quorum of the recipient's distinct homes hold it or took it live. *)
Theorem accepted_dispatch_kept ce cx d c fwd now d' c' t :
  dispatch_typed fwd → well_placed d → handle_forward ce cx d c fwd now = (d', c', Some (AckQueued t)) →
  let x := accepted fwd now in
  t = now ∧ d_from fwd = cx_ipk cx ∧ verify_dispatch_user_sig fwd = true ∧ durable (ce_env ce) = true ∧
  (holds (view (store d') KsMessages) x ∨ taken ce d d' c c' x).
Proof.
  intros Hx Hd. unfold handle_forward. cbv zeta. fold (accepted fwd now). set (x := accepted fwd now).
  case_bool_decide as Hfrom; [done|].
  destruct (ce_admit ce); [|done]. cbn [negb]. destruct (verify_dispatch_user_sig fwd); [|done]. cbn [negb].
  assert (Hx' : dispatch_typed x) by done.
  destruct (store_in_rocks (store d) x (durable (ce_env ce))) as [s q] eqn:Hs.
  destruct (store_in_rocks_spec _ _ _ _ _ Hx' Hs) as (_ & Hq & _).
  destruct q as [q|]; [|done]. set (d1 := set_store d s).
  destruct (accept_dispatch ce cx d1 c x q) as [[d2 c2] a] eqn:Ha. intros [= <- <- ->].
  assert (Hd1 : well_placed d1) by done.
  revert Ha. unfold accept_dispatch. destruct q; try (by intros [= _ _ E]); try congruence.
  - destruct (Hq _ eq_refl) as (Ht & -> & Hh). cbn in Ht. subst.
    destruct (route_dispatch ce cx d1 c x) as [[d3 c3] r] eqn:Hroute.
    destruct (route_spec _ _ _ _ _ _ _ _ Hx' Hd1 Hroute) as (Hmsg & Htaken & _).
    assert (Hkeep : holds (view (store d3) KsMessages) x) by (unfold view; rewrite Hmsg; exact Hh).
    assert (Htk : r ≠ None → taken ce d (set_store d3 (retire_local_copy (store d3) x)) c c3 x)
      by (intros Hr; apply taken_retire; exact (Htaken Hr)).
    destruct (ce_route_in_time ce), r as [[]|]; intros [= <- <- <-]; split_and!; auto.
  - destruct (route_dispatch ce cx d1 c x) as [[d3 c3] r] eqn:Hroute.
    destruct (route_spec _ _ _ _ _ _ _ _ Hx' Hd1 Hroute) as (_ & _ & Hnq).
    destruct (ce_route_in_time ce), r as [r|]; intros [= _ _ E]; congruence.
Qed.
End client.

(** ** Examples *)

Import Toy Mem KpExample ToyQueue ToyRelay Quartet Mailbox.

(** The letter's sender, connected to relay 1. *)
Lemma accepted_dispatch_kept_witness :
  let '(d', c', a) := handle_forward calm (session (secret 7)) (relay (secret 1) (knowing 1 [2; 3; 4])) others letter 50 in
  a = Some (AckQueued 50) ∧ view (store d') KsMessages = ∅ ∧
  (50 = 50 ∧ d_from letter = verifying_key (secret 7) ∧ verify_dispatch_user_sig letter = true ∧ durable quiet = true ∧
   (holds (view (store d') KsMessages) (accepted letter 50) ∨
    taken calm (relay (secret 1) (knowing 1 [2; 3; 4])) d' others c' (accepted letter 50))).
Proof.
  destruct (handle_forward calm (session (secret 7)) (relay (secret 1) (knowing 1 [2; 3; 4])) others letter 50)
    as [[d' c'] a] eqn:Hf.
  assert (a = Some (AckQueued 50)) as ->.
  { change a with (d', c', a).2. rewrite <- Hf. vm_compute. reflexivity. }
  split; [reflexivity|]. split.
  - change d' with (d', c', Some (AckQueued 50)).1.1. rewrite <- Hf. vm_compute. reflexivity.
  - exact (accepted_dispatch_kept calm (session (secret 7)) (relay (secret 1) (knowing 1 [2; 3; 4])) others letter 50
      d' c' 50 letter_typed drifted_placed Hf).
Defined.
