(* ===== verification/Session.v ===== *)
(** * Session: the life of a client connection and the rest of its packets

    [relay/src/quic/handler/client]: the handshake ([handshake.rs]), the packets about
    key packages and welcomes ([events/mls_relay.rs]), push registrations
    ([events/misc.rs]) and presence ([events/presence.rs]), the packet dispatcher
    ([events/mod.rs]) and the end of a session ([mod.rs]).  A task a handler spawns is
    kept in [tasks] and runs later.  What goes to other clients is an output. *)

From S2P Require Import Prelude Bytes Crypto Proto MlsWire Keyspace Store Routing Queue KeyPackages Contracts Dht Mls Forward Sync Client Drain.

(** ** Packets ([common/src/proto/client_rel.rs]) *)

Record PresenceP := mkPresence { pr_who : bytes; pr_state : PresenceState }.

Inductive PresenceMode := ModeActive | ModeIdle.

Record SubscribePresenceP := mkSubscribe {
  sp_contacts : list bytes;
  sp_consents : list PresenceConsent;
  sp_lease : PresenceLease;
}.

Inductive CRelayPacket :=
| CQuery
| CDispatch (fwd : DispatchP)
| CActivity (eph : ActivityP)
| CDeliverAck
| CDrainQueue
| CAckDrain (ids : list bytes)
| CDrainAuth (timestamp : Z) (sig : bytes)
| CAckAuth (sig : bytes) (timestamp : Z)
| CPublishKeyPackage (records : list KeyPackageRecord) (timestamp : Z) (sig : bytes)
| CFetchKeyPackage (target_ipk : bytes) (timestamp : Z) (sig : bytes)
| CPublishWelcome (envelope : WelcomeEnvelopeP) (timestamp : Z) (sig : bytes)
| CFetchWelcomes (timestamp : Z) (sig : bytes)
| CAckWelcomes (welcome_ids : list bytes) (timestamp : Z) (sig : bytes)
| CSubscribePresence (sub : SubscribePresenceP)
| CSetPresence (mode : PresenceMode)
| CRegisterPush (pseudonym : bytes) (timestamp : Z) (sig : bytes)
| CTurnCredentials
| CServiceCapabilities
| CKeyPackageInventory (request : bytes).

(** The address and the TURN credentials of the answers are left out. *)
Inductive SRelayPacket :=
| SQueryResult
| SDispatchAck (a : DispatchAckP)
| SDeliver (x : DeliverP)
| SAckAuthRequest (requester_relay_id : bytes) (delivered_ids : list bytes) (suggested_timestamp : Z)
| SKeyPackagePublished (homes_succeeded : Z) (quorum_met : bool)
| SKeyPackageFetched (record : option KeyPackageRecord) (remaining : Z) (static_hash : bytes)
| SWelcomePublished (quorum_met : bool)
| SWelcomesFetched (entries : list WelcomeEntry)
| SWelcomesAcked
| SDhtUnavailable
| STurnCredentials
| SServiceCapabilities (supported : bytes)
| SKeyPackageInventory (inventory : bytes).

Inductive CHandshakePacket := Hello (ipk : bytes) | Proof_ (sig : bytes).

(** The acceptance's timestamp, assist flag and TURN port are left out. *)
Inductive SHandshakePacket :=
| Challenge (nonce : bytes)
| Accept (relay_node_id : option bytes)
| RejectWith (reason : bytes).

Definition MAX_PRESENCE_CONTACTS : nat := 256.
Definition MAX_PRESENCE_CONSENTS : nat := 256.

(** ** The relay *)

(** Spawned work: forwarding a subscription's lease and consents, an announcement to the
    homes of the contacts, and replicating a push registration. *)
Inductive Task :=
| TSubscribed (lease : PresenceLease) (consents : list PresenceConsent)
| TAnnounce (me : bytes) (targets : list bytes) (lease : PresenceLease) (state : PresenceState)
    (version observed_at_ms : Z)
| TReplicate (publish : PushPseudonymPublish).

Section session.
Context `{Crypto} `{RelayCodecs} {KS : Type} `{Keyspace KS} {N : Type} `{Network N}.
Local Abbreviation dht := (Dht (KS := KS)).

(** The order a [HashSet] is iterated in. *)
Context (iter : gset bytes → list bytes).

Record Relay := mkRelay {
  rl_dht : dht;
  presence_subs : gmap bytes (gset bytes);
  presence_versions : gmap bytes Z;
  active_clients : gmap bytes Z;
  tasks : list Task;
}.

Definition set_dht (r : Relay) (d : dht) : Relay :=
  mkRelay d (presence_subs r) (presence_versions r) (active_clients r) (tasks r).
Definition set_subs (r : Relay) subs : Relay :=
  mkRelay (rl_dht r) subs (presence_versions r) (active_clients r) (tasks r).
Definition set_versions (r : Relay) versions : Relay :=
  mkRelay (rl_dht r) (presence_subs r) versions (active_clients r) (tasks r).
Definition set_active (r : Relay) active : Relay :=
  mkRelay (rl_dht r) (presence_subs r) (presence_versions r) active (tasks r).
Definition spawn (r : Relay) (t : Task) : Relay :=
  mkRelay (rl_dht r) (presence_subs r) (presence_versions r) (active_clients r) (tasks r ++ [t]).

Definition set_leases (d : dht) (leases : gmap bytes PresenceLease) : dht :=
  mkDht (routing d) (store d) (peer_conns d) (node_id d) (signing_key d) (clients d) leases (wakes_sent d).

Definition rl_store (r : Relay) : Store KS := store (rl_dht r).
Definition set_rl_store (r : Relay) (s : Store KS) : Relay := set_dht r (set_store (rl_dht r) s).

Implicit Types (d : dht) (n : N) (r : Relay) (cx : ClientContext) (ce : ClientEnv).

(** A push to a client: the receiver and what it is told. *)
Definition push : Type := bytes * list PresenceP.

(** ** Presence ([events/presence.rs]) *)

(** [mutual_contacts] *)
Definition mutual_contacts r (contacts : gset bytes) (me : bytes) : list bytes :=
  let listed := iter contacts in
  filter (λ c, is_some_and (λ theirs : gset bytes, bool_decide (me ∈ theirs)) (presence_subs r !! c) = true) listed ++
  filter (λ c, has_presence_consent (rl_store r) c me = true)
    (filter (λ c, presence_subs r !! c = None) listed).

(** [stored_state] *)
Definition stored_state r (viewer contact : bytes) (now : Z) : PresenceState :=
  default (Offline (default 0 (get_last_seen (rl_store r) contact)))
    (get_presence_state (rl_store r) viewer contact now).

(** [forward_to_homes]: the next version, and the records left to a task. *)
Definition forward_presence cx r (contacts : gset bytes) (me : bytes) (state : PresenceState)
    (observed_at_ms : Z) : Relay :=
  if negb (cx_dht cx) then r
  else match presence_leases (rl_dht r) !! me with
       | None => r
       | Some lease =>
           let next := sat_add (Z.max (default 0 (presence_versions r !! me)) observed_at_ms) 1 in
           spawn (set_versions r (<[me:=next]> (presence_versions r)))
             (TAnnounce me (take MAX_PRESENCE_CONTACTS (iter contacts)) lease state next observed_at_ms)
       end.

(** [announce] *)
Definition announce cx r (contacts : gset bytes) (me : bytes) (state : PresenceState)
    (observed_at_ms : Z) : Relay * list push :=
  let targets := filter (λ c, online (rl_dht r) c = true) (mutual_contacts r contacts me) in
  (forward_presence cx r contacts me state observed_at_ms,
   map (λ c, (c, [mkPresence me state])) targets).

(** What a subscriber is told at once. *)
Definition subscribe_snapshot r (contacts : gset bytes) (me : bytes) (now : Z) : list PresenceP :=
  map (λ c, mkPresence c
         (if online (rl_dht r) c && bool_decide (is_Some (active_clients r !! c)) then Online
          else stored_state r me c now))
    (mutual_contacts r contacts me).

(** The checks of [handle_subscribe]. *)
Definition subscribe_ok cx d (sub : SubscribePresenceP) (now : Z) : bool :=
  bool_decide (le_user (sp_lease sub) = cx_ipk cx) && bool_decide (le_relay_id (sp_lease sub) = node_id d)
  && lease_verify (sp_lease sub) now
  && forallb (λ c, bool_decide (co_owner c = cx_ipk cx) && consent_verify c now) (sp_consents sub)
  && forallb (λ contact, existsb (λ c, bool_decide (co_recipient c = contact) && co_granted c) (sp_consents sub))
       (sp_contacts sub).

(** [handle_subscribe]; [later] is the clock after the store's work. *)
Definition handle_subscribe ce cx r (sub : SubscribePresenceP) (now later : Z) : Relay * list push :=
  let me := cx_ipk cx in
  if (MAX_PRESENCE_CONTACTS <? length (sp_contacts sub))%nat
     || (MAX_PRESENCE_CONSENTS <? length (sp_consents sub))%nat then (r, [])
  else if negb (ce_admit ce) then (r, [])
  else if negb (cx_dht cx) then (r, [])
  else if negb (subscribe_ok cx (rl_dht r) sub now) then (r, [])
  else
    let contacts : gset bytes := list_to_set (sp_contacts sub) in
    let '(s, stored) := put_presence_lease (put_consents (rl_store r) (sp_consents sub)) (sp_lease sub) in
    let r := set_rl_store r s in
    if negb (default false stored) then (r, [])
    else
      let r := set_dht r (set_leases (rl_dht r) (<[me:=sp_lease sub]> (presence_leases (rl_dht r)))) in
      let r := set_subs r (<[me:=contacts]> (presence_subs r)) in
      let r := spawn r (TSubscribed (sp_lease sub) (sp_consents sub)) in
      let snapshot := subscribe_snapshot r contacts me later in
      let state := match active_clients r !! me with
                   | Some _ => Online
                   | None => Offline (default 0 (get_last_seen (rl_store r) me))
                   end in
      let '(r', pushes) := announce cx r contacts me state later in
      (r', match snapshot with [] => [] | _ => [(me, snapshot)] end ++ pushes).

(** Leaving the foreground: the last-seen time to announce. *)
Definition go_inactive r (me : bytes) (now : Z) : Relay * Z :=
  match active_clients r !! me with
  | Some _ =>
      let r := set_active r (delete me (active_clients r)) in
      (match put_last_seen (rl_store r) me now with Some s => set_rl_store r s | None => r end, now)
  | None => (r, default 0 (get_last_seen (rl_store r) me))
  end.

(** [handle_set_presence] *)
Definition handle_set_presence ce cx r (mode : PresenceMode) (now later : Z) : Relay * list push :=
  let me := cx_ipk cx in
  let '(r, state) :=
    match mode with
    | ModeActive => (set_active r (<[me:=now]> (active_clients r)), Online)
    | ModeIdle => let '(r, last_seen) := go_inactive r me now in (r, Offline last_seen)
    end in
  if negb (ce_admit ce) then (r, [])
  else announce cx r (default ∅ (presence_subs r !! me)) me state later.

(** [on_disconnect] up to the end of its announcement: also the lease it saw. *)
Definition on_disconnect_announce cx r (now : Z) : Relay * list push * option PresenceLease :=
  let me := cx_ipk cx in
  let '(r, last_seen) := go_inactive r me now in
  let lease := presence_leases (rl_dht r) !! me in
  (announce cx r (default ∅ (presence_subs r !! me)) me (Offline last_seen) now, lease).

(** The rest of [on_disconnect], after the announcement. *)
Definition on_disconnect_cleanup r (me : bytes) (lease : option PresenceLease) : Relay :=
  let r := set_versions r (delete me (presence_versions r)) in
  let leases := presence_leases (rl_dht r) in
  if bool_decide (leases !! me = lease)
  then set_subs (set_dht r (set_leases (rl_dht r) (delete me leases))) (delete me (presence_subs r))
  else r.

(** ** Tasks *)

(** The record an announcement signs for one contact. *)
Definition presence_record d (me contact : bytes) (lease : PresenceLease) (state : PresenceState)
    (version observed_at_ms : Z) : RelayPresenceState :=
  let unsigned := mkRelayPresence contact me lease state version observed_at_ms
                    (verifying_key (signing_key d)) (replicate 64 0) in
  mkRelayPresence contact me lease state version observed_at_ms (verifying_key (signing_key d))
    (sign (signing_key d) (presence_state_signing_input unsigned)).

(** What [handle_presence_state_rpc] tells a connected recipient. *)
Definition presence_state_push d (record : RelayPresenceState) (authenticated_relay : bytes) (now_ms : Z)
    : list push :=
  if negb (relay_presence_verify record authenticated_relay now_ms)
     || negb (has_presence_consent (store d) (rp_who record) (rp_recipient record)) then []
  else
    match (put_presence_state (store d) (rp_recipient record) (rp_who record) (rp_state record)
             (rp_version record) (rp_observed_at_ms record) (le_expires_at_ms (rp_lease record))).2 with
    | Some true => if online d (rp_recipient record)
                   then [(rp_recipient record, [mkPresence (rp_who record) (rp_state record)])] else []
    | _ => []
    end.

(** The bodies of the spawned futures.  [reached] says which contacts a fan-out got to
    within its budget. *)
Definition run_task d n (t : Task) (reached : bytes → bool) (now : Z) : dht * N * list push :=
  match t with
  | TSubscribed lease consents =>
      let '(d, n) := forward_presence_lease d n lease now in
      (d, fold_left (λ n c, forward_presence_consent d n c)
            (filter (λ c, reached (co_recipient c) = true) consents) n, [])
  | TAnnounce me targets lease state version observed =>
      let records := map (λ c, presence_record d me c lease state version observed)
                       (filter (λ c, has_presence_consent (store d) me c = true) targets) in
      fold_left (λ '(d, n, pushes) rec,
                   let '(d', n') := forward_presence_state d n rec now in
                   (d', n', pushes ++ presence_state_push d rec (node_id d) now))
        (filter (λ rec, reached (rp_recipient rec) = true) records) (d, n, [])
  | TReplicate publish => (replicate_to_homes d n publish now, [])
  end.

(** ** Push registrations ([events/misc.rs]) *)

(** [handle_register_push] *)
Definition handle_register_push ce cx r (pseudonym : bytes) (timestamp : Z) (sig : bytes) (now : Z) : Relay :=
  if negb (ce_admit ce) then r
  else
    let publish := mkPushPub (cx_ipk cx) pseudonym timestamp sig in
    if negb (valid_publish publish now) then r
    else match put_push_pseudonym (rl_store r) (cx_ipk cx) pseudonym now with
         | None => r
         | Some s => let r := set_rl_store r s in if cx_dht cx then spawn r (TReplicate publish) else r
         end.

(** ** Key packages and welcomes ([events/mls_relay.rs]) *)

(** [fresh_and_valid] *)
Definition fresh_and_valid (ipk msg sig : bytes) (now_ms timestamp : Z) : bool :=
  if abs_diff now_ms timestamp >? MAX_KP_SKEW_MS then false else verify_ed25519 ipk msg sig.

(** [verify_publish_keypackage] *)
Definition verify_publish_keypackage (ipk : bytes) (now_ms : Z) (records : list KeyPackageRecord)
    (timestamp : Z) (sig : bytes) : bool :=
  fresh_and_valid ipk
    (kp_publish_signing_input MLS_WIRE_VERSION ipk (kp_publish_records_digest MLS_WIRE_VERSION records)
       (len records) timestamp) sig now_ms timestamp.

(** [handle_publish_keypackage] *)
Definition handle_publish_keypackage ce cx d n (records : list KeyPackageRecord) (timestamp : Z) (sig : bytes)
    (now : Z) : dht * N * list SRelayPacket :=
  if (KP_STASH_TARGET <? length records)%nat then (d, n, [])
  else if negb (cx_dht cx) then (d, n, [SDhtUnavailable])
  else if negb (verify_publish_keypackage (cx_ipk cx) now records timestamp sig) then (d, n, [])
  else
    let '(d, n, q) := originate_publish (ce_env ce) d n (cx_ipk cx) records timestamp sig now in
    (d, n, [SKeyPackagePublished (homes_succeeded q) (quorum_met q)]).

(** [handle_keypackage_inventory] *)
Definition handle_keypackage_inventory ce cx d n (b : bytes) (now : Z) : dht * N * list SRelayPacket :=
  match Inventory.decode_request b with
  | Err _ => (d, n, [])
  | Ok request =>
      if bool_decide (Inventory.rq_owner request ≠ cx_ipk cx) then (d, n, [])
      else if negb (cx_dht cx) then (d, n, [SDhtUnavailable])
      else
        let '(d, n, inv) := originate_inventory (ce_env ce) d n request now in
        (d, n, match inv with
               | Some inv => match Inventory.encode inv with Ok b => [SKeyPackageInventory b] | Err _ => [] end
               | None => []
               end)
  end.

(** [verify_fetch_keypackage] *)
Definition verify_fetch_keypackage (ipk : bytes) (now_ms : Z) (target_ipk : bytes) (timestamp : Z) (sig : bytes)
    : bool :=
  fresh_and_valid ipk (kp_fetch_wrap_signing_input MLS_WIRE_VERSION ipk target_ipk timestamp) sig now_ms timestamp.

(** [handle_fetch_keypackage] *)
Definition handle_fetch_keypackage ce cx d n (target_ipk : bytes) (timestamp : Z) (sig : bytes) (now : Z)
    : dht * N * list SRelayPacket :=
  if negb (cx_dht cx) then (d, n, [SDhtUnavailable])
  else if negb (verify_fetch_keypackage (cx_ipk cx) now target_ipk timestamp sig) then (d, n, [])
  else if negb (ce_admit ce) then (d, n, [])
  else
    let '(d, n, res) := originate_fetch (ce_env ce) d n target_ipk now in
    (d, n, if kr_unavailable res then [SDhtUnavailable]
           else [SKeyPackageFetched (kr_record res) (kr_remaining res) (kr_static_hash res)]).

(** [verify_publish_welcome] *)
Definition verify_publish_welcome (ipk : bytes) (now_ms : Z) (envelope : WelcomeEnvelopeP) (timestamp : Z)
    (sig : bytes) : bool :=
  fresh_and_valid ipk (welcome_publish_wrap_signing_input MLS_WIRE_VERSION ipk (we_welcome_blob envelope) timestamp)
    sig now_ms timestamp.

(** [handle_publish_welcome] *)
Definition handle_publish_welcome ce cx d n (envelope : WelcomeEnvelopeP) (timestamp : Z) (sig : bytes) (now : Z)
    : dht * N * list SRelayPacket :=
  if bool_decide (we_sender_ipk envelope ≠ cx_ipk cx) then (d, n, [])
  else if negb (cx_dht cx) then (d, n, [SDhtUnavailable])
  else if negb (verify_publish_welcome (cx_ipk cx) now envelope timestamp sig) then (d, n, [])
  else
    let '(d, n, quorum) := originate_welcome_publish (ce_env ce) d n envelope timestamp now in
    (d, n, [SWelcomePublished quorum]).

(** [verify_fetch_welcomes] *)
Definition verify_fetch_welcomes (ipk node_id : bytes) (now_ms timestamp : Z) (sig : bytes) : bool :=
  fresh_and_valid ipk (welcome_fetch_signing_input MLS_WIRE_VERSION ipk node_id timestamp) sig now_ms timestamp.

(** [handle_fetch_welcomes] *)
Definition handle_fetch_welcomes ce cx d n (timestamp : Z) (sig : bytes) (now : Z) : dht * N * list SRelayPacket :=
  if negb (cx_dht cx) then (d, n, [SDhtUnavailable])
  else if negb (verify_fetch_welcomes (cx_ipk cx) (node_id d) now timestamp sig) then (d, n, [])
  else
    let '(d, n, entries) := originate_welcome_fetch (ce_env ce) d n (cx_ipk cx) timestamp sig now in
    (d, n, [SWelcomesFetched entries]).

(** [verify_ack_welcomes] *)
Definition verify_ack_welcomes (ipk node_id : bytes) (now_ms : Z) (ids : list bytes) (timestamp : Z) (sig : bytes)
    : bool :=
  fresh_and_valid ipk (welcome_ack_signing_input MLS_WIRE_VERSION ipk node_id ids timestamp) sig now_ms timestamp.

(** [handle_ack_welcomes] *)
Definition handle_ack_welcomes ce cx d n (ids : list bytes) (timestamp : Z) (sig : bytes) (now : Z)
    : dht * N * list SRelayPacket :=
  if negb (cx_dht cx) then (d, n, [SDhtUnavailable])
  else if negb (verify_ack_welcomes (cx_ipk cx) (node_id d) now ids timestamp sig) then (d, n, [])
  else
    let '(d, n) := originate_welcome_ack (ce_env ce) d n (cx_ipk cx) ids timestamp sig now in
    (d, n, [SWelcomesAcked]).

(** ** The dispatcher ([events/mod.rs]) *)

(** What arrives while a packet is handled: the clock after the store's work, how many
    packets the stream takes, and the client's answer to an [AckAuthRequest]. *)
Record PacketEnv := mkPacketEnv {
  pe_client : ClientEnv;
  pe_now : Z;
  pe_later : Z;
  pe_room : option nat;
  pe_ack_auth : option DrainAuth;
}.

(** The request [run_remote_ack_round] sends. *)
Definition ack_auth_request cx d (ids : list bytes) (now : Z) : list SRelayPacket :=
  match pending_remote_drain cx with
  | None => []
  | Some st =>
      match filter (λ id, id ∈ ids) (rd_ids st) with
      | [] => []
      | named => if cx_dht cx
                 then [SAckAuthRequest (node_id d) (take MAX_FETCH_QUEUE_ACK_IDS (dedup_ids named)) now] else []
      end
  end.

(** [handle_packet]: the session, the relay and the network after it, the answers on the
    stream and the pushes to other streams. *)
Definition handle_packet (pe : PacketEnv) cx r n (packet : CRelayPacket)
    : ClientContext * Relay * N * list SRelayPacket * list push :=
  let ce := pe_client pe in
  let now := pe_now pe in
  let d := rl_dht r in
  let mls (x : dht * N * list SRelayPacket) := let '(d', n', out) := x in (cx, set_dht r d', n', out, []) in
  match packet with
  | CQuery => (cx, r, n, [SQueryResult], [])
  | CDispatch fwd =>
      let '(d', n', a) := handle_forward ce cx d n fwd now in
      (cx, set_dht r d', n', match a with Some a => [SDispatchAck a] | None => [] end, [])
  | CActivity eph => (cx, r, handle_activity ce cx d n eph now, [], [])
  | CDrainQueue =>
      let '(cx', d', n', wire, _) := handle_drain_queue cx d n now (pe_room pe) in
      (cx', set_dht r d', n', map SDeliver wire, [])
  | CAckDrain ids =>
      let '(cx', d', n', ok) := handle_ack_drain cx d n ids (pe_ack_auth pe) in
      (cx', set_dht r d', n', if ok then ack_auth_request cx d ids now else [], [])
  | CDrainAuth timestamp sig => (handle_drain_auth cx d now timestamp sig, r, n, [], [])
  | CPublishKeyPackage records timestamp sig => mls (handle_publish_keypackage ce cx d n records timestamp sig now)
  | CFetchKeyPackage target timestamp sig => mls (handle_fetch_keypackage ce cx d n target timestamp sig now)
  | CPublishWelcome envelope timestamp sig => mls (handle_publish_welcome ce cx d n envelope timestamp sig now)
  | CFetchWelcomes timestamp sig => mls (handle_fetch_welcomes ce cx d n timestamp sig now)
  | CAckWelcomes ids timestamp sig => mls (handle_ack_welcomes ce cx d n ids timestamp sig now)
  | CKeyPackageInventory request => mls (handle_keypackage_inventory ce cx d n request now)
  | CSubscribePresence sub =>
      let '(r', pushes) := handle_subscribe ce cx r sub now (pe_later pe) in (cx, r', n, [], pushes)
  | CSetPresence mode =>
      let '(r', pushes) := handle_set_presence ce cx r mode now (pe_later pe) in (cx, r', n, [], pushes)
  | CRegisterPush pseudonym timestamp sig =>
      (cx, handle_register_push ce cx r pseudonym timestamp sig now, n, [], [])
  | CTurnCredentials => (cx, r, n, [STurnCredentials], [])
  | CServiceCapabilities =>
      (cx, r, n, [SServiceCapabilities (Support.encode (if cx_dht cx then service_support else []))], [])
  (** An [AckAuth] answers the round [pe_ack_auth] stands for. *)
  | CAckAuth _ _ | CDeliverAck => (cx, r, n, [], [])
  end.

(** ** Connecting and disconnecting ([handshake.rs], [mod.rs]) *)

(** [handle_handshake]: [hello] and [proof] are the packets received, [None] a failed read;
    [binding] the exported keying material, [sent] whether the acceptance was written.
    Also what is sent. *)
Definition handle_handshake r (dht_on : bool) (conn : Z) (hello proof : option CHandshakePacket)
    (nonce : bytes) (binding : option bytes) (sent : bool) : Relay * option bytes * list SHandshakePacket :=
  let order_mismatch := RejectWith (str "Packet Order Mismatch") in
  match hello with
  | None => (r, None, [])
  | Some (Proof_ _) => (r, None, [order_mismatch])
  | Some (Hello ipk) =>
      if negb (vk_ok ipk) then (r, None, [])
      else
        match proof with
        | None => (r, None, [Challenge nonce])
        | Some (Hello _) => (r, None, [Challenge nonce; order_mismatch])
        | Some (Proof_ sig) =>
            match binding with
            | None => (r, None, [Challenge nonce])
            | Some binding =>
                if negb (verify_ed25519 ipk (client_auth_message nonce binding) sig)
                then (r, None, [Challenge nonce; RejectWith (str "Invalid Signature")])
                else if negb sent then (r, None, [Challenge nonce])
                else
                  let d := rl_dht r in
                  (set_dht r (set_clients d (<[ipk:=conn]> (clients d))), Some ipk,
                   [Challenge nonce; Accept (if dht_on then Some (node_id d) else None)])
            end
        end
  end.

Definition new_context (ipk : bytes) (dht_on : bool) : ClientContext := mkCtx ipk dht_on [] None None.

(** The end of [handle_client]: the lease to compare at the cleanup, when one is due. *)
Definition end_session r cx (conn now : Z) : Relay * list push * option (option PresenceLease) :=
  let '(d, removed) := remove_client_if_same (rl_dht r) (cx_ipk cx) conn in
  let r := set_dht r d in
  if removed then let '(r, pushes, lease) := on_disconnect_announce cx r now in (r, pushes, Some lease)
  else (r, [], None).

(** ** The relay at work *)

(** What can happen at a relay, with what it learns from outside; a network is given to
    each event that talks to others. *)
Inductive event :=
| EvConnect (dht_on : bool) (conn : Z) (hello proof : option CHandshakePacket) (nonce : bytes)
    (binding : option bytes) (sent : bool)
| EvPacket (pe : PacketEnv) (cx : ClientContext) (n : N) (packet : CRelayPacket)
| EvEnd (cx : ClientContext) (conn now : Z)
| EvCleanup (me : bytes) (lease : option PresenceLease)
| EvTask (i : nat) (n : N) (reached : bytes → bool) (now : Z)
| EvDropTask (i : nat)
| EvRequest (e : Env) (req : DhtRequest) (peer : bytes) (now : Z)
| EvSweep (name : ks_name) (expired : bytes → bytes → Z → bool) (cursor : option bytes) (now : Z).

Definition drop_task r (i : nat) : Relay :=
  mkRelay (rl_dht r) (presence_subs r) (presence_versions r) (active_clients r) (delete i (tasks r)).

(** One event: the relay after it and the pushes it makes. *)
Definition react r (ev : event) : Relay * list push :=
  match ev with
  | EvConnect on conn hello proof nonce binding sent =>
      ((handle_handshake r on conn hello proof nonce binding sent).1.1, [])
  | EvPacket pe cx n packet => let '(_, r', _, _, pushes) := handle_packet pe cx r n packet in (r', pushes)
  | EvEnd cx conn now => (end_session r cx conn now).1
  | EvCleanup me lease => (on_disconnect_cleanup r me lease, [])
  | EvTask i n reached now =>
      match tasks r !! i with
      | Some t => let '(d, _, pushes) := run_task (rl_dht r) n t reached now in (set_dht (drop_task r i) d, pushes)
      | None => (r, [])
      end
  | EvDropTask i => (drop_task r i, [])
  | EvRequest e req peer now =>
      (set_dht r (handle_dht_request e (rl_dht r) req peer now).1,
       match req with RqPresenceState rec => presence_state_push (rl_dht r) rec peer now | _ => [] end)
  | EvSweep name expired cursor now =>
      (set_rl_store r (set_space (rl_store r) name (sweep expired (space (rl_store r) name) cursor now).1), [])
  end.

(** The relay after a sequence of events. *)
Definition react_all r (evs : list event) : Relay := fold_left (λ r ev, (react r ev).1) evs r.
End session.
