(* ===== verification/Isolation.v ===== *)
(** * Isolation: what a session can do to the rows of others

    Whatever packet a connected user sends, the queued messages, consents, leases, push
    registrations and last-seen stamps of other users stay as they are, except that the
    user's own dispatches to others can be queued, and withdrawn once they reached them. *)

From S2P Require Import Prelude Bytes Crypto Proto MlsWire Keyspace Store StoreProps Routing Queue QueueProps KeyPackages KeyPackagesProps Contracts Dht Mls Frames Forward Sync Examples ForwardProps Client Drain DrainProps Session.

(** The row [k] of a keyspace belongs to somebody other than [me].  Key packages and
    welcomes are meant for others and are not covered. *)
Definition foreign (me : bytes) (n : ks_name) (k : bytes) : Prop :=
  match n with
  | KsMessages | KsQueue => is_queue_key k ∧ take 32 k ≠ me
  | KsPresenceConsent => take 32 k ≠ me
  | KsPresenceLease | KsPushPseudonym | KsLastSeen => k ≠ me
  | KsPresenceState | KsPushPending => True
  | KsKpRecords | KsKpSpent | KsWelcome => False
  end.

Section isolation.
Context `{Crypto} `{RelayCodecs} {KS : Type} `{!Keyspace KS} {N : Type} `{Network N}.
Local Abbreviation dht := (Dht (KS := KS)).
Implicit Types (d : dht) (s : Store KS) (cx : ClientContext) (ce : ClientEnv) (me : bytes) (nt : N).

(** The row is a dispatch [me] sent. *)
Definition sent_by me (k v : bytes) : Prop := ∃ x, queued_dispatch (take 32 k) v = Some x ∧ d_from x = me.

(** The rows of others survive from [s] to [s']; rows that are not messages are not even
    added. *)
Definition kept me s s' : Prop :=
  ∀ n k, foreign me n k →
    (∀ v, view s n !! k = Some v → view s' n !! k = Some v ∨ n = KsMessages ∧ sent_by me k v) ∧
    (¬ local_space n → view s' n !! k = view s n !! k).

#[export] Instance kept_preorder me : PreOrder (kept me).
Proof.
  split; [intros s n k _; auto|]. intros s1 s2 s3 H12 H23 n k Hk.
  destruct (H12 n k Hk) as [Hr1 He1], (H23 n k Hk) as [Hr2 He2]. split.
  - intros v [Hv|?]%Hr1; [auto|by right].
  - intros Hn. rewrite He2, He1 by done. done.
Qed.

(** A change that leaves every foreign row as it is. *)
Lemma kept_rows me s s' :
  (∀ n k, foreign me n k → view s' n !! k = view s n !! k) → kept me s s'.
Proof. intros Hr n k Hk. rewrite (Hr n k Hk). auto. Qed.

Lemma kept_touches me ns d d' :
  touches ns d d' → (∀ n k, n ∈ ns → ¬ foreign me n k) → kept me (store d) (store d').
Proof.
  intros Ht Hns. apply kept_rows. intros n k Hk. unfold view. rewrite (to_space _ _ _ Ht); [done|].
  intros Hn. by eapply Hns.
Qed.

Lemma kept_put me s n k v s' :
  put_sync s n k v = Some s' → (∀ k', foreign me n k' → k' ≠ k) → kept me s s'.
Proof.
  intros Hp Hk. apply kept_rows. intros m k' Hf. rewrite (put_sync_view _ _ _ _ _ _ Hp).
  case_decide as Hm; [|done]. subst m. apply lookup_insert_ne. apply not_eq_sym. eauto.
Qed.

Lemma kept_grows me d d' : grows d d' → kept me (store d) (store d').
Proof.
  intros Hg n k Hk. destruct (decide (n = KsQueue)) as [->|Hn].
  - split; [|intros []; by right]. intros v Hv. left. apply (gr_rows _ _ Hg); [apply Hk|done].
  - unfold view. rewrite (gr_space _ _ Hg) by done. auto.
Qed.

(** ** Dispatches *)

Lemma forward_to_homes_grows e d nt x now : dispatch_typed x → grows d (forward_to_homes e d nt x now).1.1.
Proof.
  intros Hx. unfold forward_to_homes. destruct (dht_homes d (d_to x)) as [peers self].
  destruct self.
  - destruct (forward_to_self e d x now) as [d1 o] eqn:Hf. destruct (fan_out _ _ _).
    by apply (forward_to_self_spec _ _ _ _ _ _ Hx) in Hf as [Hg _].
  - by destruct (fan_out _ _ _).
Qed.

Lemma route_kept me ce cx d nt x : dispatch_typed x → kept me (store d) (store (route_dispatch ce cx d nt x).1.1).
Proof.
  intros Hx. unfold route_dispatch. destruct (online d _ && _); [done|].
  set (d0 := match clients d !! d_to x with Some _ => _ | None => _ end).
  assert (Hs : store d0 = store d).
  { unfold d0, remove_client_if_same. destruct (clients d !! d_to x); [|done]. destruct (ce_gone ce); [|done].
    by case_bool_decide. }
  destruct (cx_dht cx); [|by rewrite <- Hs].
  pose proof (forward_to_homes_grows (ce_env ce) d0 nt x (d_accepted_at_ms x) Hx) as Hg.
  destruct (forward_to_homes _ _ _ _ _) as [[d1 n1] r]. rewrite <- Hs. by apply kept_grows.
Qed.

(** A fresh row never takes the place of another. *)
Lemma store_kept me s x ok : dispatch_typed x → kept me s (store_in_rocks s x ok).1.
Proof.
  intros [Ht%wf_arr_length Hi%wf_arr_length]. unfold store_in_rocks.
  destruct (admit_to_queue _ _ _ _) eqn:Ha; try done. destruct (ser x); [|done].
  destruct (put_sync _ _ _ _) as [s'|] eqn:Hp; [|done]. intros n k Hk. cbn [fst].
  rewrite (put_sync_view _ _ _ _ _ _ Hp). case_decide as Hn; [subst n|auto].
  split; [|intros []; by left]. intros v Hv. left. rewrite lookup_insert_ne; [done|]. intros <-.
  destruct (admit_insert _ _ _ _ Ha) as [_ Hids].
  refine (Hids _ v _ _); [apply elem_of_queue_rows; split_and!; [exact Hv|by eexists|by apply as_bytes_new_length]|].
  by destruct (parse_Some _ _ (parse_as_bytes_new _ (d_accepted_at_ms x) _ Ht Hi)) as (_ & _ & <- & _).
Qed.

(** Only the sender's own rows are withdrawn. *)
Lemma retire_scan_own (x : DispatchP) sc : ∀ keys k,
  retire_scan x sc = Some keys → k ∈ keys →
  ∃ v q, Some (k, v) ∈ sc ∧ queued_dispatch (d_to x) v = Some q ∧ d_from q = d_from x.
Proof.
  induction sc as [|[[k' v']|] sc IH]; intros keys k; cbn; [|destruct (retire_scan x sc) as [rest|] eqn:Hr; [|done]|done].
  { intros [= <-]. by intros ?%not_elem_of_nil. }
  cbn. destruct (MessageKey.parse k'); [case_match eqn:Hb|]; intros [= <-] Hin.
  - apply elem_of_cons in Hin as [->|Hin]; cycle 1.
    { destruct (IH _ _ eq_refl Hin) as (v & q & ? & ?). exists v, q. split; [by right|done]. }
    apply andb_true_iff in Hb as [_ Hb]. destruct (queued_dispatch (d_to x) v') as [q|] eqn:Hq; [|done].
    cbn in Hb. breflect. exists v', q. split; [by left|done].
  - destruct (IH _ _ eq_refl Hin) as (v & q & ? & ?). exists v, q. split; [by right|done].
  - destruct (IH _ _ eq_refl Hin) as (v & q & ? & ?). exists v, q. split; [by right|done].
Qed.

Lemma removes_leave keys : ∀ (a b : gmap bytes bytes) k,
  let m := Mem.apply_batch a b (map (BRemove false) keys) in
  m.1 !! k = (if decide (k ∈ keys) then None else a !! k) ∧ m.2 = b.
Proof.
  induction keys as [|k0 keys IH]; intros a b k; cbv zeta; [done|].
  change (Mem.apply_batch a b (map (BRemove false) (k0 :: keys))) with
    (Mem.apply_batch (delete k0 a) b (map (BRemove false) keys)).
  destruct (IH (delete k0 a) b k) as [-> ->]. split; [|done].
  destruct (decide (k = k0)) as [->|Hne].
  - rewrite (decide_True (P := k0 ∈ k0 :: keys)) by (by left). case_decide; [done|]. apply lookup_delete_eq.
  - rewrite lookup_delete_ne by done. repeat case_decide; set_solver.
Qed.

Lemma retire_kept s x : length (d_to x) = 32%nat → kept (d_from x) s (retire_local_copy s x).
Proof.
  intros Hlen. unfold retire_local_copy.
  destruct (retire_scan x _) as [keys|] eqn:Hscan; [|done]. destruct (ks_commit _ _ _) as [[m q]|] eqn:Hc; [|done].
  apply ks_commit_view in Hc. change (fold_left _ _ _) with
    (Mem.apply_batch (view s KsMessages) (view s KsQueue) (map (BRemove false) keys)) in Hc.
  intros n k Hk. rewrite !view_set_space.
  destruct (removes_leave keys (view s KsMessages) (view s KsQueue) k) as [Hm Hq].
  rewrite <- Hc in Hm, Hq. cbn [fst snd] in Hm, Hq.
  destruct (decide (n = KsQueue)) as [->|_]; [rewrite Hq; auto|].
  destruct (decide (n = KsMessages)) as [->|]; [|auto]. split; [|intros []; by left].
  intros v Hv. rewrite Hm. case_decide as Hin; [|auto]. right. split; [done|].
  destruct (retire_scan_own _ _ _ _ Hscan Hin) as (v' & y & Hrow & Hy & Hf).
  apply (so_rows _ _ (ks_prefix_view _ _)), elem_of_prefix_rows in Hrow as [Hrow [rest ->]].
  unfold view in Hv. rewrite Hv in Hrow. injection Hrow as <-. exists y.
  by rewrite take_app_length'.
Qed.

Lemma handle_forward_kept ce cx d nt fwd now :
  dispatch_typed fwd → kept (cx_ipk cx) (store d) (store (handle_forward ce cx d nt fwd now).1.1).
Proof.
  intros Hx. unfold handle_forward. case_bool_decide as Hfrom; [done|]. rewrite <- Hfrom.
  destruct (negb (ce_admit ce)); [done|]. destruct (negb _); [done|].
  match goal with |- context [store_in_rocks _ ?y _] => set (x := y) end.
  assert (Hx' : dispatch_typed x) by done.
  pose proof (store_kept (d_from fwd) (store d) x (durable (ce_env ce)) Hx') as Hs.
  destruct (store_in_rocks _ _ _) as [s q]. cbn [fst] in Hs. destruct q as [q|]; [|exact Hs].
  pose proof (route_kept (d_from fwd) ce cx (set_store d s) nt x Hx') as Hr. unfold accept_dispatch.
  destruct (route_dispatch _ _ _ _ _) as [[d' n'] a]. cbn [fst store set_store] in Hr.
  assert (Hret : kept (d_from fwd) (store d') (retire_local_copy (store d') x)).
  { apply (retire_kept _ x). by apply wf_arr_length, Hx. }
  destruct q; cbn [fst]; try exact Hs; (etrans; [exact Hs|]); [|exact Hr].
  destruct (if ce_route_in_time ce then _ else _) as [[]|]; cbn [fst store set_store]; try exact Hr;
    (etrans; [exact Hr|exact Hret]).
Qed.

(** ** Drains *)

(** The keys a session may delete are its user's. *)
Definition own_drain cx : Prop :=
  ∀ key : MessageKey, key ∈ pending_drain cx → take 32 (MessageKey.as_bytes key) = cx_ipk cx.

Lemma own_drain_new ipk on : own_drain (new_context ipk on).
Proof. by intros key ?%not_elem_of_nil. Qed.

Lemma collect_keys_own (ks : KS) me (key : MessageKey) :
  length me = 32%nat → key ∈ collect_keys (ks_prefix ks me) → take 32 (MessageKey.as_bytes key) = me.
Proof.
  intros Hme. assert (Hrows : ∀ k v, Some (k, v) ∈ ks_prefix ks me → me `prefix_of` k).
  { intros k v Hin. apply (so_rows _ _ (ks_prefix_view _ _)) in Hin. by apply elem_of_prefix_rows in Hin as [_ ?]. }
  revert Hrows. generalize (ks_prefix ks me) as sc. intros sc.
  induction sc as [|[[k v]|] sc IH]; intros Hrows; cbn; try (by intros ?%not_elem_of_nil).
  assert (IH' := IH ltac:(intros k' v' Hin; apply (Hrows k' v'); by right)).
  destruct (MessageKey.parse k) as [key'|] eqn:Hk; [|done]. intros [->|?]%elem_of_cons; [|auto].
  destruct (parse_Some _ _ Hk) as (_ & -> & _). destruct (Hrows k v ltac:(by left)) as [rest ->].
  by rewrite take_app_length'.
Qed.

Lemma stream_loop_other me now keys : ∀ (ks : KS) p ks' p' ok k,
  stream_loop ks me now keys p = (ks', p', ok) → (∀ key : MessageKey, key ∈ keys → MessageKey.as_bytes key ≠ k) →
  ks_view ks' !! k = ks_view ks !! k.
Proof.
  induction keys as [|key keys IH]; intros ks p ks' p' ok k; cbn [stream_loop]; [by intros [= <- <- <-]|].
  intros Hrun Hk. assert (Hk' : ∀ key' : MessageKey, key' ∈ keys → MessageKey.as_bytes key' ≠ k)
    by (intros key' Hin; apply Hk; by right).
  revert Hrun. destruct (is_full _); [by intros [= <- <- <-]|].
  destruct (ks_get _ _) as [[v|]|]; [|(intros Hr; exact (IH _ _ _ _ _ k Hr Hk'))..]. destruct (queued_dispatch _ _); [|(intros Hr; exact (IH _ _ _ _ _ k Hr Hk'))].
  destruct (is_expired _ _).
  - intros Hrun. rewrite (IH _ _ _ _ _ k Hrun Hk').
    destruct (try_remove_view ks (MessageKey.as_bytes key)) as [->| ->]; [|done].
    apply lookup_delete_ne, Hk. by left.
  - destruct (admit_id _ _ _); [|(intros Hr; exact (IH _ _ _ _ _ k Hr Hk'))]. destruct (send_deliver _ _); [(intros Hr; exact (IH _ _ _ _ _ k Hr Hk'))|by intros [= <- <- <-]].
Qed.

Lemma stream_keyspace_own (ks : KS) me now p ks' p' ok :
  length me = 32%nat → stream_keyspace ks me now p = (ks', p', ok) →
  (∀ k, take 32 k ≠ me → ks_view ks' !! k = ks_view ks !! k) ∧
  ∀ key : MessageKey, key ∈ dr_keys p' → key ∈ dr_keys p ∨ take 32 (MessageKey.as_bytes key) = me.
Proof.
  intros Hme Hrun. split.
  - intros k Hk. eapply stream_loop_other; [exact Hrun|]. intros key Hin <-. by apply Hk, (collect_keys_own ks).
  - apply stream_keyspace_spec in Hrun as [_ Hkeys _ _ _]. intros key [?|[Hin _]]%Hkeys; [by left|right].
    by eapply collect_keys_own.
Qed.

Lemma kept_local me s (ks : KS) n :
  local_space n → (∀ k, take 32 k ≠ me → ks_view ks !! k = view s n !! k) → kept me s (set_space s n ks).
Proof.
  intros Hn Hks. apply kept_rows. intros m k Hk. rewrite view_set_space. case_decide as Hm; [subst m|done].
  apply Hks. destruct Hn as [-> | ->]; apply Hk.
Qed.

Lemma drain_kept cx d nt now room cx' d' nt' wire ok :
  length (cx_ipk cx) = 32%nat → own_drain cx →
  handle_drain_queue cx d nt now room = (cx', d', nt', wire, ok) →
  kept (cx_ipk cx) (store d) (store d') ∧ cx_ipk cx' = cx_ipk cx ∧ own_drain cx'.
Proof.
  intros Hme Hown. unfold handle_drain_queue. destruct (if cx_dht cx then _ else _) as [homes home].
  destruct (stream_keyspace (space (store d) KsMessages) _ _ _) as [[m p1] ok1] eqn:Hs1.
  apply stream_keyspace_own in Hs1 as [Hm Hk1]; [|done]. set (d1 := set_store d _).
  assert (Hd1 : kept (cx_ipk cx) (store d) (store d1)) by (apply kept_local; [by left|exact Hm]).
  destruct ok1; cbn [negb]; [|by intros [= <- <- _ _ _]].
  destruct (if home && _ then _ else _) as [[q p2] ok2] eqn:Hs2.
  assert (Hq : (∀ k, take 32 k ≠ cx_ipk cx → ks_view q !! k = view (store d1) KsQueue !! k) ∧
    ∀ key : MessageKey, key ∈ dr_keys p2 → take 32 (MessageKey.as_bytes key) = cx_ipk cx).
  { assert (Hkeys1 : ∀ key : MessageKey, key ∈ dr_keys p1 → take 32 (MessageKey.as_bytes key) = cx_ipk cx).
    { intros key [?%not_elem_of_nil|?]%Hk1; done. }
    destruct (home && _); cycle 1; [by injection Hs2 as <- <- <-|].
    apply stream_keyspace_own in Hs2 as [Hq Hk2]; [|done]. split; [exact Hq|]. intros key [?|?]%Hk2; auto. }
  destruct Hq as [Hq Hkeys]. set (d2 := set_store d1 _).
  assert (Hd2 : kept (cx_ipk cx) (store d) (store d2)) by (etrans; [exact Hd1|apply kept_local; [by right|exact Hq]]).
  destruct ok2; cbn [negb]; [|by intros [= <- <- _ _ _]].
  match goal with |- context [match drain_auth ?c with Some _ => _ | None => _ end] => set (cx1 := c) end.
  assert (Hcx1 : cx_ipk cx1 = cx_ipk cx ∧ pending_drain cx1 = pending_drain cx)
    by (unfold cx1; by destruct (dr_sent p2), homes).
  match goal with |- (let '(_, _) := ?X in _) = _ → _ => destruct X as [n1 msgs] end.
  destruct (stream_remote _ _ _) as [p3 ok3] eqn:Hs3. apply stream_remote_spec in Hs3 as (Hk3 & _).
  destruct ok3; cbn [negb]; intros [= <- <- _ _ _]; (split_and!; [exact Hd2|apply Hcx1|]).
  - intros key. cbn [pending_drain set_pending_drain set_remote_drain cx_ipk]. rewrite Hk3, (proj1 Hcx1). apply Hkeys.
  - intros key. rewrite (proj1 Hcx1), (proj2 Hcx1). apply Hown.
Qed.

Lemma ack_kept cx d nt ids auth cx' d' nt' ok :
  own_drain cx →
  handle_ack_drain cx d nt ids auth = (cx', d', nt', ok) →
  kept (cx_ipk cx) (store d) (store d') ∧ cx_ipk cx' = cx_ipk cx ∧ own_drain cx'.
Proof.
  intros Hown Ha.
  assert (Hspec := λ n k, ack_spec _ _ _ _ _ _ _ _ _ n k Ha).
  split_and!.
  - apply kept_rows. intros n k Hk. rewrite (proj2 (Hspec n k)). rewrite decide_False; [done|].
    intros (_ & Hn & Hin). unfold acked_keys in Hin. apply list_elem_of_fmap in Hin as (key & -> & Hin).
    apply list_elem_of_filter in Hin as [_ Hin]. pose proof (Hown key Hin). by destruct Hn as [-> | ->], Hk.
  - revert Ha. unfold handle_ack_drain. by destruct (match filter _ _ with [] => _ | _ => _ end); intros [= <- _ _ _].
  - intros key. rewrite (proj1 (Hspec KsQueue [])). by intros ?%not_elem_of_nil.
Qed.

(** ** Key packages and welcomes *)

Lemma ask_homes_touches e d nt target req now : touches (writes req) d (ask_homes e d nt target req now).1.1.
Proof.
  unfold ask_homes. destruct (dht_homes d target) as [peers home]. destruct home.
  - pose proof (request_touches e d req (node_id d) now) as Ht. destruct (handle_dht_request _ _ _ _ _).
    by destruct (fan_out _ _ _).
  - by destruct (fan_out _ _ _).
Qed.

(** The handlers that ask the homes of a stash write the stash's keyspaces only. *)
Definition stash_spaces : list ks_name := [KsKpRecords; KsKpSpent; KsWelcome].

Lemma ask_stash_touches e d nt target req now d' nt' res :
  writes req ⊆ stash_spaces → ask_homes e d nt target req now = (d', nt', res) → touches stash_spaces d d'.
Proof.
  intros Hw Ha. apply (touches_weaken (writes req)); [done|].
  pose proof (ask_homes_touches e d nt target req now) as Ht. by rewrite Ha in Ht.
Qed.

Ltac stash :=
  match goal with
  | |- context [ask_homes ?e ?d ?n ?t ?req ?now] =>
      let d' := fresh "d'" in let n' := fresh "n'" in let asked := fresh "asked" in let replies := fresh "replies" in
      destruct (ask_homes e d n t req now) as [[d' n'] [asked replies]] eqn:Hask;
      apply ask_stash_touches in Hask; [exact Hask|cbn [writes]; set_solver]
  end.

Lemma publish_kp_touches ce cx d nt records timestamp sig now :
  touches stash_spaces d (handle_publish_keypackage ce cx d nt records timestamp sig now).1.1.
Proof.
  unfold handle_publish_keypackage. destruct (_ <? _)%nat; [done|]. destruct (negb _); [done|].
  destruct (negb _); [done|]. unfold originate_publish. stash.
Qed.

Lemma inventory_touches ce cx d nt b now :
  touches stash_spaces d (handle_keypackage_inventory ce cx d nt b now).1.1.
Proof.
  unfold handle_keypackage_inventory. destruct (Inventory.decode_request b) as [request|]; [|done].
  destruct (bool_decide _); [done|]. destruct (negb _); [done|]. unfold originate_inventory.
  destruct (negb _); [done|]. stash.
Qed.

Lemma fetch_kp_touches ce cx d nt target timestamp sig now :
  touches stash_spaces d (handle_fetch_keypackage ce cx d nt target timestamp sig now).1.1.
Proof.
  unfold handle_fetch_keypackage. do 3 (destruct (negb _); [done|]). unfold originate_fetch.
  destruct (dht_homes _ _) as [peers home]. destruct home; cycle 1; [by destruct (fetch_loop _ _ _ _)|].
  match goal with |- context [handle_dht_request ?e ?d ?req ?p ?now] =>
    pose proof (request_touches e d req p now) as Ht; destruct (handle_dht_request e d req p now) as [d1 reply] end.
  apply (touches_weaken _ stash_spaces) in Ht; [|cbn [writes]; set_solver].
  destruct (fetch_reply _ _); [exact Ht|]. by destruct (fetch_loop _ _ _ _).
Qed.

Lemma publish_welcome_touches ce cx d nt env timestamp sig now :
  touches stash_spaces d (handle_publish_welcome ce cx d nt env timestamp sig now).1.1.
Proof.
  unfold handle_publish_welcome. destruct (bool_decide _); [done|]. destruct (negb _); [done|].
  destruct (negb _); [done|]. unfold originate_welcome_publish. stash.
Qed.

Lemma fetch_welcomes_touches ce cx d nt timestamp sig now :
  touches stash_spaces d (handle_fetch_welcomes ce cx d nt timestamp sig now).1.1.
Proof.
  unfold handle_fetch_welcomes. do 2 (destruct (negb _); [done|]). unfold originate_welcome_fetch. stash.
Qed.

Lemma ack_welcomes_touches ce cx d nt ids timestamp sig now :
  touches stash_spaces d (handle_ack_welcomes ce cx d nt ids timestamp sig now).1.1.
Proof.
  unfold handle_ack_welcomes. do 2 (destruct (negb _); [done|]). unfold originate_welcome_ack. stash.
Qed.

Lemma kept_stash me d d' : touches stash_spaces d d' → kept me (store d) (store d').
Proof.
  intros Ht. eapply kept_touches; [exact Ht|]. intros n k Hn.
  unfold stash_spaces in Hn. destruct n; cbn; try tauto; set_solver.
Qed.

(** ** Presence and push registrations *)

Section presence.
Context (iter : gset bytes → list bytes).
Local Abbreviation relay := (Relay (KS := KS)).
Implicit Types (r : relay).

Lemma put_consent_kept me s c : length me = 32%nat → co_owner c = me → kept me s (put_presence_consent s c).1.
Proof.
  intros Hl Ho. unfold put_presence_consent. destruct (ks_get _ _); [|done]. destruct (is_some_and _ _); [done|].
  destruct (_ && _); [done|]. destruct (put_sync _ _ _ _) as [s'|] eqn:Hp; [|done].
  eapply kept_put; [exact Hp|]. intros k Hk ->. apply Hk. by rewrite Ho, take_app_length'.
Qed.

Lemma put_consents_kept me l : ∀ s,
  length me = 32%nat → Forall (λ c, co_owner c = me) l → kept me s (put_consents s l).
Proof.
  induction l as [|c l IH]; intros s Hl Hf; [done|]. apply Forall_cons in Hf as [Hc Hf].
  etrans; [by apply put_consent_kept|by apply IH].
Qed.

Lemma put_lease_kept me s l : le_user l = me → kept me s (put_presence_lease s l).1.
Proof.
  intros Hu. unfold put_presence_lease. destruct (ks_get _ _); [|done]. destruct (is_some_and _ _); [done|].
  destruct (ser l); [|done]. destruct (put_sync _ _ _ _) as [s'|] eqn:Hp; [|done].
  eapply kept_put; [exact Hp|]. intros k Hk ->. by apply Hk.
Qed.

Lemma go_inactive_kept r me now : kept me (rl_store r) (rl_store (go_inactive r me now).1).
Proof.
  unfold go_inactive. destruct (active_clients r !! me); [|done]. cbn [rl_store set_active rl_dht].
  unfold put_last_seen. destruct (ks_insert _ _ _) as [ks|] eqn:Hi; [|done]. cbn [mbind option_bind fst].
  apply kept_rows. intros n k Hk. unfold rl_store. cbn [rl_dht set_rl_store set_dht store set_store].
  rewrite view_set_space. case_decide as Hn; [subst n|done].
  apply ks_insert_view in Hi. rewrite Hi. apply lookup_insert_ne, not_eq_sym, Hk.
Qed.

Lemma announce_store cx r contacts me state observed :
  rl_dht (announce iter cx r contacts me state observed).1 = rl_dht r.
Proof. cbn. unfold forward_presence. destruct (negb _); [done|]. by destruct (presence_leases _ !! _). Qed.

Lemma subscribe_kept ce cx r sub now later :
  length (cx_ipk cx) = 32%nat →
  kept (cx_ipk cx) (rl_store r) (rl_store (handle_subscribe iter ce cx r sub now later).1).
Proof.
  intros Hl. unfold handle_subscribe. destruct (_ || _); [done|]. do 2 (destruct (negb _); [done|]).
  destruct (subscribe_ok _ _ _ _) eqn:Hok; [|done]. cbn [negb].
  unfold subscribe_ok in Hok. repeat setoid_rewrite andb_true_iff in Hok.
  destruct Hok as ((((Hu & _) & _) & Hcs) & _). apply bool_decide_eq_true_1 in Hu.
  assert (Hown : Forall (λ c, co_owner c = cx_ipk cx) (sp_consents sub)).
  { apply Forall_forall. intros c Hin. rewrite forallb_forall in Hcs. apply list_elem_of_In, Hcs in Hin.
    by apply andb_true_iff in Hin as [?%bool_decide_eq_true_1 _]. }
  assert (Hk : kept (cx_ipk cx) (rl_store r)
    (put_presence_lease (put_consents (rl_store r) (sp_consents sub)) (sp_lease sub)).1)
    by (etrans; [by apply put_consents_kept|by apply put_lease_kept]).
  destruct (put_presence_lease _ _) as [s stored]. cbn [fst] in Hk. destruct (negb _); [exact Hk|].
  match goal with |- context [announce iter cx ?r' ?c ?m ?st ?o] =>
    pose proof (announce_store cx r' c m st o) as Ha; destruct (announce iter cx r' c m st o) as [r1 ps] end.
  unfold rl_store at 2. cbn [fst] in *. rewrite Ha. exact Hk.
Qed.

Lemma set_presence_kept ce cx r mode now later :
  kept (cx_ipk cx) (rl_store r) (rl_store (handle_set_presence iter ce cx r mode now later).1).
Proof.
  unfold handle_set_presence. destruct mode.
  - destruct (negb _); [done|]. unfold rl_store at 2. by rewrite announce_store.
  - pose proof (go_inactive_kept r (cx_ipk cx) now) as Hg. destruct (go_inactive _ _ _) as [r1 seen].
    destruct (negb _); [exact Hg|]. unfold rl_store at 2. by rewrite announce_store.
Qed.

Lemma register_push_kept ce cx r pseudonym timestamp sig now :
  kept (cx_ipk cx) (rl_store r) (rl_store (handle_register_push ce cx r pseudonym timestamp sig now)).
Proof.
  unfold handle_register_push. do 2 (destruct (negb _); [done|]).
  destruct (put_push_pseudonym _ _ _ _) as [s|] eqn:Hp; [|done].
  assert (kept (cx_ipk cx) (rl_store r) s) by (eapply kept_put; [exact Hp|]; intros k Hk ->; by apply Hk).
  by destruct (cx_dht cx).
Qed.

(** What the types of a packet guarantee. *)
Definition packet_typed (p : CRelayPacket) : Prop :=
  match p with CDispatch fwd => dispatch_typed fwd | _ => True end.

End presence.
End isolation.

(** ** Example *)

Import Toy Mem KpExample ToyQueue ToyRelay Quartet Mailbox.

