(* ===== verification/PresenceProps.v ===== *)
(** * PresenceProps: who is told about whom

    Over every sequence of events at a relay, a user's presence reaches another user only
    with the first one's signed consent; and replicated states converge to the newest
    whatever order they arrive in. *)

From S2P Require Import Prelude Bytes Crypto Proto MlsWire Keyspace Store StoreProps Routing Queue QueueProps KeyPackages KeyPackagesProps Contracts Dht Mls Frames Forward Sync Examples ForwardProps Client Drain DrainProps Session Isolation.

Section frames.
Context `{Crypto} `{RelayCodecs} {KS : Type} `{!Keyspace KS} {N : Type} `{Network N}.
Local Abbreviation dht := (Dht (KS := KS)).
Implicit Types (d : dht) (s : Store KS) (cx : ClientContext) (ce : ClientEnv) (nt : N).

(** The keyspaces of messages. *)
Definition message_spaces : list ks_name := [KsMessages; KsQueue].

Lemma store_frame s x ok : ∀ n, n ∉ [KsMessages] → space (store_in_rocks s x ok).1 n = space s n.
Proof.
  intros n Hn. unfold store_in_rocks. destruct (admit_to_queue _ _ _ _); try done. destruct (ser x); [|done].
  destruct (put_sync _ _ _ _) as [s'|] eqn:Hp; [|done]. eapply put_sync_space; [exact Hp|set_solver].
Qed.

Lemma retire_frame s x : ∀ n, n ∉ message_spaces → space (retire_local_copy s x) n = space s n.
Proof.
  intros n Hn. unfold retire_local_copy. destruct (retire_scan _ _); [|done].
  destruct (ks_commit _ _ _) as [[m q]|]; [|done]. unfold message_spaces in Hn. cbn. by rewrite !decide_False by set_solver.
Qed.

Lemma enqueue_touches d x now : touches [KsQueue] d (set_store d (enqueue_for_home (store d) (d_to x) x now).1).
Proof. apply touches_store, enqueue_frame. Qed.

Lemma forward_to_self_touches e d x now : touches [KsQueue] d (forward_to_self e d x now).1.
Proof.
  unfold forward_to_self. destruct (match active_lease _ _ _ with Some _ => _ | None => _ end); [done|].
  pose proof (enqueue_touches d x now) as Ht. destruct (enqueue_for_home _ _ _ _) as [s st]. cbn [fst] in *.
  assert (Hw : touches [KsQueue] (set_store d s) (if wakes (d_wake x)
    then trigger_wake e (set_store d s) (d_to x) (d_wake x) else set_store d s)).
  { destruct (wakes _); [|done]. apply (touches_weaken []); [set_solver|apply wake_touches]. }
  destruct (decide _); [etrans; [exact Ht|exact Hw]|exact Ht].
Qed.

Lemma forward_to_homes_touches e d nt x now : touches [KsQueue] d (forward_to_homes e d nt x now).1.1.
Proof.
  unfold forward_to_homes. destruct (dht_homes d (d_to x)) as [peers self]. destruct self.
  - pose proof (forward_to_self_touches e d x now) as Ht. destruct (forward_to_self _ _ _ _).
    by destruct (fan_out _ _ _).
  - by destruct (fan_out _ _ _).
Qed.

(** The spaces a session's dispatch, drain or acknowledgement writes. *)
Lemma route_frame ce cx d nt x : ∀ n, n ∉ message_spaces →
  space (store (route_dispatch ce cx d nt x).1.1) n = space (store d) n.
Proof.
  intros n Hn. unfold route_dispatch. destruct (online d _ && _); [done|].
  set (d0 := match clients d !! d_to x with Some _ => _ | None => _ end).
  assert (Hs : store d0 = store d).
  { unfold d0, remove_client_if_same. destruct (clients d !! d_to x); [|done]. destruct (ce_gone ce); [|done].
    by case_bool_decide. }
  destruct (cx_dht cx); [|by rewrite <- Hs].
  pose proof (forward_to_homes_touches (ce_env ce) d0 nt x (d_accepted_at_ms x)) as Ht.
  destruct (forward_to_homes _ _ _ _ _) as [[d1 n1] r]. rewrite <- Hs. apply Ht. set_solver.
Qed.

Lemma handle_forward_frame ce cx d nt x now : ∀ n, n ∉ message_spaces →
  space (store (handle_forward ce cx d nt x now).1.1) n = space (store d) n.
Proof.
  intros n Hn. unfold handle_forward. destruct (bool_decide _); [done|]. do 2 (destruct (negb _); [done|]).
  match goal with |- context [store_in_rocks _ ?y _] => set (y' := y) end.
  pose proof (store_frame (store d) y' (durable (ce_env ce)) n ltac:(set_solver)) as Hs.
  destruct (store_in_rocks _ _ _) as [s q]. cbn [fst] in Hs. destruct q as [q|]; [|exact Hs].
  pose proof (route_frame ce cx (set_store d s) nt y' n Hn) as Hr. unfold accept_dispatch.
  destruct (route_dispatch _ _ _ _ _) as [[d' n'] a]. cbn [fst store set_store] in Hr.
  pose proof (retire_frame (store d') y' n Hn) as Hret.
  destruct q; cbn [fst store set_store]; try congruence.
  destruct (if ce_route_in_time ce then _ else _) as [[]|]; cbn [fst store set_store]; congruence.
Qed.

Lemma drain_frame cx d nt now room : ∀ n, n ∉ message_spaces →
  space (store (handle_drain_queue cx d nt now room).1.1.1.2) n = space (store d) n.
Proof.
  intros n Hn. destruct (handle_drain_queue cx d nt now room) as [[[[cx' d'] n'] wire] ok] eqn:Hd. revert Hd.
  assert (Hne : n ≠ KsMessages ∧ n ≠ KsQueue) by (unfold message_spaces in Hn; set_solver).
  unfold handle_drain_queue. destruct (if cx_dht cx then _ else _) as [homes home].
  destruct (stream_keyspace (space (store d) KsMessages) _ _ _) as [[m p1] ok1].
  destruct ok1; cbn [negb]; [|intros [= _ <- _ _ _]; cbn; by rewrite decide_False by naive_solver].
  destruct (if home && _ then _ else _) as [[q p2] ok2].
  assert (Hsp : space (store (set_store (set_store d (set_space (store d) KsMessages m))
      (set_space (store (set_store d (set_space (store d) KsMessages m))) KsQueue q))) n = space (store d) n)
    by (cbn; by rewrite !decide_False by naive_solver).
  destruct ok2; cbn [negb]; [|intros [= _ <- _ _ _]; exact Hsp].
  match goal with |- (let '(_, _) := ?X in _) = _ → _ => destruct X as [n1 msgs] end.
  destruct (stream_remote _ _ _) as [p3 ok3]. destruct ok3; intros [= _ <- _ _ _]; exact Hsp.
Qed.

Lemma ack_frame cx d nt ids auth : ∀ n, n ∉ message_spaces →
  space (store (handle_ack_drain cx d nt ids auth).1.1.2) n = space (store d) n.
Proof.
  intros n Hn. unfold handle_ack_drain, message_spaces in *.
  destruct (filter _ (pending_drain cx)) as [|key keys]; [done|].
  destruct (ks_commit _ _ _) as [[m q]|]; [|done]. cbn. by rewrite !decide_False by set_solver.
Qed.
End frames.

(** ** Consent *)

Section consent.
Context `{Crypto} `{RelayCodecs} {KS : Type} `{!Keyspace KS} {N : Type} `{Network N}.
Context (iter : gset bytes → list bytes) (iter_elements : ∀ X, iter X ≡ₚ elements X).
Local Abbreviation dht := (Dht (KS := KS)).
Local Abbreviation relay := (Relay (KS := KS)).
Local Abbreviation happening := (event (N := N)).
Implicit Types (d : dht) (s : Store KS) (r : relay) (cx : ClientContext) (ce : ClientEnv) (nt : N) (ev : happening).

(** The consents that arrive with an event, and the clock they are checked at. *)
Definition received ev : list (PresenceConsent * Z) :=
  match ev with
  | EvPacket pe _ _ (CSubscribePresence sub) => map (λ c, (c, pe_now pe)) (sp_consents sub)
  | EvRequest _ (RqPresenceConsent c) _ now => [(c, now)]
  | _ => []
  end.

(** Keys are 32 bytes long. *)
Definition event_typed ev : Prop :=
  Forall (λ '(c, _), length (co_owner c) = 32%nat ∧ length (co_recipient c) = 32%nat) (received ev) ∧
  match ev with
  | EvPacket _ cx _ _ | EvEnd cx _ _ => length (cx_ipk cx) = 32%nat
  | EvRequest _ (RqPresenceState rec) _ _ => length (rp_who rec) = 32%nat
  | _ => True
  end.

(** [who] signed a consent for [viewer], and it arrived. *)
Definition signed (hist : list (PresenceConsent * Z)) (who viewer : bytes) : Prop :=
  ∃ c now, (c, now) ∈ hist ∧ co_owner c = who ∧ co_recipient c = viewer ∧ co_granted c = true ∧
           consent_verify c now = true.

Lemma signed_app hist hist' who viewer : signed hist who viewer → signed (hist ++ hist') who viewer.
Proof. intros (c & now & ? & ?). exists c, now. split; [set_solver|done]. Qed.

(** Granted rows of a store are signed. *)
Definition rows_signed (hist : list (PresenceConsent * Z)) s : Prop :=
  ∀ k v, view s KsPresenceConsent !! k = Some v → v !! 16%nat = Some 1 →
    ∃ who viewer, k = who ++ viewer ∧ length who = 32%nat ∧ signed hist who viewer.

Lemma has_consent_signed hist s who viewer :
  rows_signed hist s → length who = 32%nat → has_presence_consent s who viewer = true → signed hist who viewer.
Proof.
  intros Hr Hl. unfold has_presence_consent. destruct (ks_get _ _) as [[v|]|] eqn:Hg; try done.
  apply ks_get_view in Hg. intros Hv%bool_decide_eq_true_1.
  destruct (Hr _ _ (eq_sym Hg) Hv) as (u & c & E & Hu & Hs).
  apply app_inj_1 in E as [-> ->]; [done|congruence].
Qed.

Record authorized_relay (hist : list (PresenceConsent * Z)) r : Prop := {
  ar_rows : rows_signed hist (rl_store r);
  ar_subs : ∀ u cs c, presence_subs r !! u = Some cs → c ∈ cs → length u = 32%nat ∧ length c = 32%nat ∧ signed hist u c;
  ar_tasks : ∀ me ts l st v o, TAnnounce me ts l st v o ∈ tasks r → length me = 32%nat;
}.

Lemma authorized_app hist hist' r : authorized_relay hist r → authorized_relay (hist ++ hist') r.
Proof.
  intros [Hr Hs Ht]. split; [| |done].
  - intros k v Hk Hv. destruct (Hr k v Hk Hv) as (u & c & -> & ? & ?). exists u, c. split_and!; [done..|by apply signed_app].
  - intros u cs c Hu Hc. destruct (Hs u cs c Hu Hc) as (? & ? & ?). split_and!; [done..|by apply signed_app].
Qed.

(** Steps that leave the consents, the subscriptions and the announcements alone. *)
Lemma authorized_same hist r r' :
  space (rl_store r') KsPresenceConsent = space (rl_store r) KsPresenceConsent →
  presence_subs r' = presence_subs r → tasks r' ⊆ tasks r → authorized_relay hist r → authorized_relay hist r'.
Proof.
  intros Hs Hsub Ht [Hr Hs' Hts]. split.
  - intros k v. unfold view. rewrite Hs. apply Hr.
  - rewrite Hsub. apply Hs'.
  - intros me ts l st v o Hin. eapply Hts, Ht, Hin.
Qed.

(** ** Storing consents *)

Lemma put_consent_signed hist s c now :
  rows_signed hist s → (c, now) ∈ hist → consent_verify c now = true → length (co_owner c) = 32%nat →
  rows_signed hist (put_presence_consent s c).1.
Proof.
  intros Hr Hin Hv Hl. pose proof (put_consent_cases s c) as Hc. destruct (put_presence_consent s c) as [s' res].
  cbn [fst]. destruct Hc as [[-> _]|(_ & Hview & _)]; [done|]. intros k v. rewrite Hview.
  intros [[<- <-]|[_ Hk]]%lookup_insert_Some Hg; [|by eapply Hr].
  rewrite consent_value_granted in Hg. exists (co_owner c), (co_recipient c). split_and!; [done..|].
  exists c, now. split_and!; try done. by destruct (co_granted c).
Qed.

Lemma put_consents_signed hist now l : ∀ s,
  rows_signed hist s →
  Forall (λ c, (c, now) ∈ hist ∧ consent_verify c now = true ∧ length (co_owner c) = 32%nat) l →
  rows_signed hist (put_consents s l).
Proof.
  induction l as [|c l IH]; intros s Hs Hl; [done|]. apply Forall_cons in Hl as [(? & ? & ?) Hl].
  cbn. apply IH; [|done]. by eapply put_consent_signed.
Qed.

(** ** Announcements *)

Lemma elem_of_iter X (x : bytes) : x ∈ iter X ↔ x ∈ X.
Proof. by rewrite iter_elements, elem_of_elements. Qed.

Lemma mutual_signed hist r contacts me c :
  authorized_relay hist r → (∀ x, x ∈ contacts → length x = 32%nat) → c ∈ mutual_contacts iter r contacts me →
  c ∈ contacts ∧ signed hist c me.
Proof.
  intros [Hr Hs _] Hl. unfold mutual_contacts. rewrite elem_of_app. intros [Hc|Hc].
  - apply list_elem_of_filter in Hc as [Hc Hin%elem_of_iter]. split; [done|].
    destruct (presence_subs r !! c) as [theirs|] eqn:Hsub; [|done]. cbn [is_some_and] in Hc.
    apply bool_decide_eq_true_1 in Hc. by destruct (Hs _ _ _ Hsub Hc) as (_ & _ & ?).
  - apply list_elem_of_filter in Hc as [Hc [_ Hin%elem_of_iter]%list_elem_of_filter]. split; [done|].
    eapply has_consent_signed; [exact Hr|by apply Hl|exact Hc].
Qed.

(** Both users of a pair allow the disclosure. *)
Definition mutual (hist : list (PresenceConsent * Z)) (p : push) : Prop :=
  ∀ x, x ∈ p.2 → signed hist (pr_who x) p.1 ∧ signed hist p.1 (pr_who x).

Lemma announce_authorized hist cx r contacts me state observed :
  authorized_relay hist r → length me = 32%nat →
  (∀ c, c ∈ contacts → length c = 32%nat ∧ signed hist me c) →
  let '(r', pushes) := announce iter cx r contacts me state observed in
  authorized_relay hist r' ∧ Forall (mutual hist) pushes.
Proof.
  intros Hr Hme Hc. cbn. split.
  - unfold forward_presence. destruct (negb _); [done|]. destruct (presence_leases _ !! _); [|done].
    destruct Hr as [Hrows Hsubs Htasks]. split; [done..|]. cbn. intros m ts l st v o Hin.
    apply elem_of_app in Hin as [Hin|Hin]; [by eapply Htasks|]. apply list_elem_of_singleton in Hin. by injection Hin as ->.
  - apply Forall_forall. intros p (c & -> & Hin)%list_elem_of_fmap.
    apply list_elem_of_filter in Hin as [_ Hin]. apply (mutual_signed hist) in Hin as [Hin Hs]; [|done|by intros; apply Hc].
    intros x Hx%list_elem_of_singleton. subst x. split; [by apply Hc|done].
Qed.

Lemma go_inactive_authorized hist r me now :
  authorized_relay hist r → authorized_relay hist (go_inactive r me now).1.
Proof.
  apply authorized_same; unfold go_inactive; destruct (active_clients r !! me); try done;
    cbn [rl_store set_active rl_dht]; unfold put_last_seen; by destruct (ks_insert _ _ _).
Qed.

Lemma subs_contacts hist r me :
  authorized_relay hist r →
  ∀ c, c ∈ default ∅ (presence_subs r !! me) → length c = 32%nat ∧ signed hist me c.
Proof.
  intros [_ Hs _] c. destruct (presence_subs r !! me) as [cs|] eqn:Hm; cbn; [|set_solver].
  intros Hc. by destruct (Hs _ _ _ Hm Hc) as (_ & ? & ?).
Qed.

Lemma set_presence_authorized hist ce cx r mode now later :
  authorized_relay hist r → length (cx_ipk cx) = 32%nat →
  let '(r', pushes) := handle_set_presence iter ce cx r mode now later in
  authorized_relay hist r' ∧ Forall (mutual hist) pushes.
Proof.
  intros Hr Hl. unfold handle_set_presence.
  assert (Hgo : ∀ r1 state, authorized_relay hist r1 →
    let '(r', pushes) := (if negb (ce_admit ce) then (r1, [])
      else announce iter cx r1 (default ∅ (presence_subs r1 !! cx_ipk cx)) (cx_ipk cx) state later) in
    authorized_relay hist r' ∧ Forall (mutual hist) pushes).
  { intros r1 state Hr1. destruct (negb _); [done|]. apply announce_authorized; [done..|by apply subs_contacts]. }
  destruct mode; [apply Hgo; revert Hr; by apply authorized_same|].
  pose proof (go_inactive_authorized hist r (cx_ipk cx) now Hr) as Hi. destruct (go_inactive _ _ _) as [r1 seen].
  by apply Hgo.
Qed.

Lemma end_authorized hist r cx conn now :
  authorized_relay hist r → length (cx_ipk cx) = 32%nat →
  let '(r', pushes, _) := end_session iter r cx conn now in
  authorized_relay hist r' ∧ Forall (mutual hist) pushes.
Proof.
  intros Hr Hl. unfold end_session. destruct (remove_client_if_same _ _ _) as [d removed] eqn:Hd.
  assert (Hrd : authorized_relay hist (set_dht r d)).
  { eapply authorized_same; [| | |exact Hr]; try done. unfold rl_store. cbn. revert Hd. unfold remove_client_if_same.
    by case_bool_decide; intros [= <- _]. }
  destruct removed; [|by split]. unfold on_disconnect_announce.
  pose proof (go_inactive_authorized hist _ (cx_ipk cx) now Hrd) as Hi. destruct (go_inactive _ _ _) as [r1 seen].
  pose proof (announce_authorized hist cx r1 _ (cx_ipk cx) (Offline seen) now Hi Hl (subs_contacts hist r1 _ Hi)) as Ha.
  by destruct (announce _ _ _ _ _ _ _).
Qed.

(** ** Subscriptions *)

Lemma subscribe_ok_spec cx d sub now :
  subscribe_ok cx d sub now = true →
  Forall (λ c, co_owner c = cx_ipk cx ∧ consent_verify c now = true) (sp_consents sub) ∧
  ∀ contact, contact ∈ sp_contacts sub →
    ∃ c, c ∈ sp_consents sub ∧ co_recipient c = contact ∧ co_granted c = true.
Proof.
  unfold subscribe_ok. rewrite !andb_true_iff. intros ((_ & Hcs) & Hct). split.
  - apply Forall_forall. intros c Hin. rewrite forallb_forall in Hcs. apply list_elem_of_In, Hcs in Hin.
    by apply andb_true_iff in Hin as [?%bool_decide_eq_true_1 ?].
  - intros contact Hin. rewrite forallb_forall in Hct. apply list_elem_of_In, Hct, existsb_exists in Hin as (c & Hin & Hc).
    apply andb_true_iff in Hc as [?%bool_decide_eq_true_1 ?]. exists c. by rewrite list_elem_of_In.
Qed.

Lemma put_lease_rows hist s l : rows_signed hist s → rows_signed hist (put_presence_lease s l).1.
Proof. intros Hs k v. unfold view. rewrite put_lease_frame by set_solver. apply Hs. Qed.

Lemma snapshot_mutual hist r contacts me now :
  authorized_relay hist r → (∀ c, c ∈ contacts → length c = 32%nat ∧ signed hist me c) →
  mutual hist (me, subscribe_snapshot iter r contacts me now).
Proof.
  intros Hr Hc x (c & -> & Hin)%list_elem_of_fmap. cbn.
  apply (mutual_signed hist) in Hin as [Hin Hs]; [|done|by intros; apply Hc]. split; [done|by apply Hc].
Qed.

Lemma subscribe_authorized hist ce cx r sub now later :
  authorized_relay hist r → length (cx_ipk cx) = 32%nat →
  Forall (λ c, (c, now) ∈ hist ∧ length (co_owner c) = 32%nat ∧ length (co_recipient c) = 32%nat) (sp_consents sub) →
  let '(r', pushes) := handle_subscribe iter ce cx r sub now later in
  authorized_relay hist r' ∧ Forall (mutual hist) pushes.
Proof.
  intros Hr Hl Hcs. unfold handle_subscribe. destruct (_ || _); [by split|]. do 2 (destruct (negb _); [by split|]).
  destruct (subscribe_ok _ _ _ _) eqn:Hok; [|by split]. cbn [negb]. apply subscribe_ok_spec in Hok as [Hown Hct].
  rewrite Forall_forall in Hown, Hcs.
  assert (Hrows : rows_signed hist
    (put_presence_lease (put_consents (rl_store r) (sp_consents sub)) (sp_lease sub)).1).
  { apply put_lease_rows, (put_consents_signed hist now); [apply Hr|]. apply Forall_forall. intros c Hc.
    destruct (Hcs c Hc) as (? & ? & ?), (Hown c Hc). auto. }
  destruct (put_presence_lease _ _) as [s stored]. cbn [fst] in Hrows.
  assert (Hcontacts : ∀ c, c ∈ (list_to_set (sp_contacts sub) : gset bytes) →
    length c = 32%nat ∧ signed hist (cx_ipk cx) c).
  { intros c Hin%elem_of_list_to_set. destruct (Hct c Hin) as (x & Hx & <- & Hg).
    destruct (Hcs x Hx) as (? & ? & ?), (Hown x Hx). split; [done|]. by exists x, now. }
  destruct (negb _); [split; [by destruct Hr|done]|].
  match goal with |- context [subscribe_snapshot iter ?r1 _ _ _] => set (r2 := r1) end.
  assert (Hr2 : authorized_relay hist r2).
  { destruct Hr as [_ Hsubs Htasks]. split; [done| |].
    - intros u cs c. unfold r2. cbn. intros [[<- <-]|[_ Hu]]%lookup_insert_Some Hin; [|by eapply Hsubs].
      destruct (Hcontacts c Hin). done.
    - intros me ts l st v o. unfold r2. cbn. intros [Hin|Hin]%elem_of_app; [by eapply Htasks|].
      by apply list_elem_of_singleton in Hin. }
  pose proof (snapshot_mutual hist r2 _ (cx_ipk cx) later Hr2 Hcontacts) as Hsnap.
  match goal with |- context [announce iter cx r2 ?c ?m ?st ?o] =>
    pose proof (announce_authorized hist cx r2 c m st o Hr2 Hl Hcontacts) as Ha;
    destruct (announce iter cx r2 c m st o) as [r3 ps] end.
  destruct Ha as [Ha Hps]. split; [done|]. apply Forall_app. split; [|done].
  destruct (subscribe_snapshot _ _ _ _ _) as [|x l]; [done|]. by apply Forall_singleton.
Qed.

(** ** Packets, requests and tasks *)

Lemma stash_authorized hist r d :
  touches stash_spaces (rl_dht r) d → authorized_relay hist r → authorized_relay hist (set_dht r d).
Proof. intros Ht. apply authorized_same; [|done..]. apply Ht. unfold stash_spaces. set_solver. Qed.

Lemma message_authorized hist r d :
  (∀ n, n ∉ message_spaces → space (store d) n = space (rl_store r) n) →
  authorized_relay hist r → authorized_relay hist (set_dht r d).
Proof. intros Hs. apply authorized_same; [|done..]. apply Hs. unfold message_spaces. set_solver. Qed.

Lemma register_push_authorized hist ce cx r pseudonym timestamp sig now :
  authorized_relay hist r → authorized_relay hist (handle_register_push ce cx r pseudonym timestamp sig now).
Proof.
  intros Hr. unfold handle_register_push. do 2 (destruct (negb _); [done|]).
  destruct (put_push_pseudonym _ _ _ _) as [s|] eqn:Hp; [|done].
  assert (Hs : authorized_relay hist (set_rl_store r s)).
  { revert Hr. apply authorized_same; [|done..]. by eapply put_sync_space. }
  destruct (cx_dht cx); [|done]. destruct Hs as [Hrows Hsubs Htasks]. split; [done..|].
  intros me ts l st v o. cbn. intros [Hin|Hin]%elem_of_app; [by eapply Htasks|]. by apply list_elem_of_singleton in Hin.
Qed.

Lemma packet_authorized hist pe cx r nt packet :
  authorized_relay hist r → length (cx_ipk cx) = 32%nat →
  Forall (λ x : PresenceConsent * Z, x ∈ hist ∧ length (co_owner x.1) = 32%nat ∧ length (co_recipient x.1) = 32%nat)
    (received (EvPacket pe cx nt packet)) →
  let '(_, r', _, _, pushes) := handle_packet iter pe cx r nt packet in
  authorized_relay hist r' ∧ Forall (mutual hist) pushes.
Proof.
  intros Hr Hl Hin. unfold handle_packet.
  assert (Hmls : ∀ x : dht * N * list SRelayPacket, touches stash_spaces (rl_dht r) x.1.1 →
    let '(_, r', _, _, pushes) := (let '(d', n', out) := x in (cx, set_dht r d', n', out, [])) in
    authorized_relay hist r' ∧ Forall (mutual hist) pushes).
  { intros [[d' n'] o] Hx. split; [by apply stash_authorized|done]. }
  destruct packet; try (by split); try (apply Hmls).
  - pose proof (handle_forward_frame (pe_client pe) cx (rl_dht r) nt fwd (pe_now pe)) as Hf.
    destruct (handle_forward _ _ _ _ _ _) as [[d' n'] a]. split; [by apply message_authorized|done].
  - pose proof (drain_frame cx (rl_dht r) nt (pe_now pe) (pe_room pe)) as Hf.
    destruct (handle_drain_queue _ _ _ _ _) as [[[[cx1 d1] n1] wire] ok]. split; [by apply message_authorized|done].
  - pose proof (ack_frame cx (rl_dht r) nt ids (pe_ack_auth pe)) as Hf.
    destruct (handle_ack_drain _ _ _ _ _) as [[[cx1 d1] n1] ok]. split; [by apply message_authorized|done].
  - apply publish_kp_touches.
  - apply fetch_kp_touches.
  - apply publish_welcome_touches.
  - apply fetch_welcomes_touches.
  - apply ack_welcomes_touches.
  - pose proof (subscribe_authorized hist (pe_client pe) cx r sub (pe_now pe) (pe_later pe) Hr Hl) as Hs.
    cbn [received] in Hin. apply Forall_fmap in Hin. specialize (Hs Hin). by destruct (handle_subscribe _ _ _ _ _ _ _).
  - pose proof (set_presence_authorized hist (pe_client pe) cx r mode (pe_now pe) (pe_later pe) Hr Hl) as Hs.
    by destruct (handle_set_presence _ _ _ _ _ _ _).
  - split; [by apply register_push_authorized|done].
  - apply inventory_touches.
Qed.

(** The first user of a pair allows the disclosure. *)
Definition consented (hist : list (PresenceConsent * Z)) (p : push) : Prop :=
  ∀ x, x ∈ p.2 → signed hist (pr_who x) p.1.

Lemma mutual_consented hist p : mutual hist p → consented hist p.
Proof. intros Hp x Hx. by apply Hp. Qed.

Lemma state_push_consented hist d rec peer now :
  rows_signed hist (store d) → length (rp_who rec) = 32%nat →
  Forall (consented hist) (presence_state_push d rec peer now).
Proof.
  intros Hr Hl. unfold presence_state_push. destruct (negb (relay_presence_verify _ _ _)); [done|]. cbn [orb].
  destruct (has_presence_consent _ _ _) eqn:Hc; [|done]. cbn [negb].
  destruct (put_presence_state _ _ _ _ _ _ _).2 as [[]|]; [|done..]. destruct (online _ _); [|done].
  apply Forall_singleton. intros x ->%list_elem_of_singleton. by eapply has_consent_signed.
Qed.

Lemma presence_state_space d rec peer now : ∀ n, n ∉ [KsPresenceState] →
  space (store (handle_presence_state_rpc d rec peer now).1) n = space (store d) n.
Proof.
  intros n Hn. unfold handle_presence_state_rpc. destruct (_ || _); [done|].
  pose proof (put_state_frame (store d) (rp_recipient rec) (rp_who rec) (rp_state rec) (rp_version rec)
    (rp_observed_at_ms rec) (le_expires_at_ms (rp_lease rec)) n Hn). by destruct (put_presence_state _ _ _ _ _ _ _).
Qed.

Lemma announce_task_pushes hist now recs : ∀ d nt ps d' nt' ps',
  rows_signed hist (store d) → Forall (λ rec, length (rp_who rec) = 32%nat) recs → Forall (consented hist) ps →
  fold_left (λ '(d, n, pushes) rec,
    let '(d', n') := forward_presence_state d n rec now in
    (d', n', pushes ++ presence_state_push d rec (node_id d) now)) recs (d, nt, ps) = (d', nt', ps') →
  Forall (consented hist) ps' ∧ space (store d') KsPresenceConsent = space (store d) KsPresenceConsent.
Proof.
  induction recs as [|rec recs IH]; intros d nt ps d' nt' ps' Hr Hl Hps; cbn [fold_left]; [by intros [= <- _ <-]|].
  apply Forall_cons in Hl as [Hrec Hl]. unfold forward_presence_state at 2.
  pose proof (presence_state_space d rec (node_id d) now KsPresenceConsent ltac:(set_solver)) as Hsp.
  intros Hrun. apply IH in Hrun as [? Hs].
  - split; [done|]. by rewrite Hs, Hsp.
  - intros k v. unfold view. rewrite Hsp. apply Hr.
  - done.
  - apply Forall_app. split; [done|]. by apply state_push_consented.
Qed.

Lemma try_store_space d op n :
  (∀ s, op (store d) = Some s → space s n = space (store d) n) → space (store (try_store d op)) n = space (store d) n.
Proof. intros Hop. unfold try_store. destruct (op (store d)) as [s|] eqn:E; [|done]. by apply Hop. Qed.

Lemma replicate_space d nt publish now :
  space (store (replicate_to_homes d nt publish now).1) KsPresenceConsent = space (store d) KsPresenceConsent.
Proof.
  unfold replicate_to_homes. destruct (persist_pending d publish) as [d1 pending] eqn:Hp.
  assert (H1' : space (store d1) KsPresenceConsent = space (store d) KsPresenceConsent).
  { revert Hp. unfold persist_pending. destruct (_ && _); [by intros [= <- _]|]. destruct (put_pending_push _ _) as [s|] eqn:Hput; [|by intros [= <- _]].
    intros [= <- _]. revert Hput. unfold put_pending_push. destruct (ser publish); [|by intros [= <-]].
    intros Hput. by eapply put_sync_space. }
  destruct (negb pending); [exact H1'|]. destruct (dht_homes _ _) as [homes self]. destruct (fan_out _ _ _).
  cbn [fst]. set (d2 := if self then _ else _).
  assert (H2' : space (store d2) KsPresenceConsent = space (store d1) KsPresenceConsent).
  { unfold d2. destruct self; [|done]. apply try_store_space. intros s Hs. by eapply put_sync_space. }
  destruct (_ || _); [|congruence]. rewrite try_store_space; [congruence|]. intros s. unfold remove_pending_push.
  destruct (ks_remove _ _); [|done]. by intros [= <-].
Qed.

Lemma task_authorized hist r nt t reached now :
  authorized_relay hist r → t ∈ tasks r →
  let '(d, _, pushes) := run_task (rl_dht r) nt t reached now in
  Forall (consented hist) pushes ∧ space (store d) KsPresenceConsent = space (rl_store r) KsPresenceConsent.
Proof.
  intros Hr Hin. destruct t as [lease consents|me targets lease state version observed|publish]; cbn [run_task].
  - unfold forward_presence_lease. split; [done|]. unfold handle_presence_lease_rpc. destruct (_ || _); [done|].
    pose proof (put_lease_frame (rl_store r) lease KsPresenceConsent ltac:(set_solver)) as Hs. unfold rl_store in *.
    by destruct (put_presence_lease _ _).
  - match goal with |- context [fold_left ?f ?recs ?init] =>
      destruct (fold_left f recs init) as [[d' n'] ps'] eqn:Hrun; eapply (announce_task_pushes hist now recs) in Hrun end;
      [exact Hrun|apply Hr| |done].
    apply Forall_forall. intros rec (_ & (c & -> & _)%list_elem_of_fmap)%list_elem_of_filter. by eapply (ar_tasks _ _ Hr).
  - pose proof (replicate_space (rl_dht r) nt publish now) as Hs. destruct (replicate_to_homes _ _ _ _). by split.
Qed.

(** One event keeps the invariant; its pushes are consented, and those of sessions mutual. *)
Definition session_event ev : bool := match ev with EvPacket _ _ _ _ | EvEnd _ _ _ => true | _ => false end.

Lemma request_rows hist e d req peer now :
  rows_signed hist (store d) →
  match req with RqPresenceConsent c => (c, now) ∈ hist ∧ length (co_owner c) = 32%nat | _ => True end →
  rows_signed hist (store (handle_dht_request e d req peer now).1).
Proof.
  intros Hr Hc. assert (Hother : KsPresenceConsent ∉ writes req → rows_signed hist (store (handle_dht_request e d req peer now).1)).
  { intros Hw k v. unfold view. rewrite (to_space _ _ _ (request_touches e d req peer now)) by done. apply Hr. }
  destruct req; try (apply Hother; cbn [writes]; set_solver). clear Hother. cbn [handle_dht_request].
  unfold handle_presence_consent_rpc. destruct (consent_verify c now) eqn:Hv; [|done]. cbn [negb].
  destruct Hc. pose proof (put_consent_signed hist (store d) c now Hr ltac:(done) Hv ltac:(done)) as Hs.
  by destruct (put_presence_consent _ _).
Qed.

Lemma react_authorized hist r ev :
  authorized_relay hist r → event_typed ev →
  let hist' := hist ++ received ev in
  let '(r', pushes) := react iter r ev in
  authorized_relay hist' r' ∧ Forall (consented hist') pushes ∧
  (session_event ev = true → Forall (mutual hist') pushes).
Proof.
  intros Hr0 [Hrec Hty]. cbv zeta. assert (Hr := authorized_app hist (received ev) r Hr0).
  set (hist' := hist ++ received ev) in *.
  assert (Hin : Forall (λ x : PresenceConsent * Z,
    x ∈ hist' ∧ length (co_owner x.1) = 32%nat ∧ length (co_recipient x.1) = 32%nat) (received ev)).
  { rewrite Forall_forall in Hrec. apply Forall_forall. intros [c z] Hx. split; [set_solver|]. exact (Hrec _ Hx). }
  assert (Hboth : ∀ ps, Forall (mutual hist') ps →
    Forall (consented hist') ps ∧ (session_event ev = true → Forall (mutual hist') ps)).
  { intros ps Hps. split; [|done]. eapply Forall_impl; [exact Hps|]. intros p. apply mutual_consented. }
  destruct ev as [on conn hello proof nonce binding sent|pe cx nt packet|cx conn now|me lease|i nt reached now|i
                 |e req peer now|name expired cursor now]; cbn [react].
  - split; [|done]. unfold handle_handshake. repeat case_match; try exact Hr; revert Hr; by apply authorized_same.
  - pose proof (packet_authorized hist' pe cx r nt packet Hr Hty Hin) as Hp.
    destruct (handle_packet _ _ _ _ _ _) as [[[[cx' r'] n'] out] ps]. destruct Hp as [? ?]. split; [done|by apply Hboth].
  - pose proof (end_authorized hist' r cx conn now Hr Hty) as Hp.
    destruct (end_session _ _ _ _ _) as [[r' ps] l]. destruct Hp as [? ?]. split; [done|by apply Hboth].
  - split; [|done]. unfold on_disconnect_cleanup. destruct Hr as [Hrows Hsubs Htasks]. case_bool_decide; [|done].
    split; [done| |done]. intros u cs c. cbn. intros [_ Hu]%lookup_delete_Some. by apply Hsubs.
  - destruct (tasks r !! i) as [t|] eqn:Ht; [|done].
    pose proof (task_authorized hist' r nt t reached now Hr (list_elem_of_lookup_2 _ _ _ Ht)) as Htask.
    destruct (run_task _ _ _ _ _) as [[d n'] ps]. destruct Htask as [Hps Hs]. split; [|done].
    revert Hr. apply authorized_same; [exact Hs|done|]. apply sublist_subseteq, sublist_delete.
  - split; [|done]. revert Hr. apply authorized_same; [done..|]. apply sublist_subseteq, sublist_delete.
  - split; [|split; [|done]].
    + destruct Hr as [Hrows Hsubs Htasks]. split; [|done..]. apply request_rows; [done|].
      destruct req; try done. cbn [received] in Hin. by apply Forall_cons in Hin as [(? & ? & ?) _].
    + destruct req; try done. apply state_push_consented; [apply Hr|done].
  - split; [|done]. destruct Hr as [Hrows Hsubs Htasks]. split; [|done..]. intros k v.
    unfold rl_store. cbn [rl_dht set_rl_store set_dht store set_store]. rewrite view_set_space.
    case_decide as Hn; [|by apply Hrows]. subst name. intros Hv. apply Hrows.
    eapply sweep_subset; [|exact Hv]. apply surjective_pairing.
Qed.

Lemma react_all_authorized evs : ∀ hist r,
  authorized_relay hist r → Forall event_typed evs → authorized_relay (hist ++ (evs ≫= received)) (react_all iter r evs).
Proof.
  induction evs as [|ev evs IH]; intros hist r Hr Hty; [by rewrite app_nil_r|].
  apply Forall_cons in Hty as [Hev Hty]. cbn. rewrite app_assoc. apply IH; [|done].
  pose proof (react_authorized hist r ev Hr Hev) as Hs. cbv zeta in Hs. destruct (react iter r ev) as [r' ps]. apply Hs.
Qed.

(** C8: Presence is disclosed by consent.  From an empty relay, whatever clients connect,
    send, subscribe and disconnect, whatever tasks run and requests arrive, every push
    that tells [viewer] the presence of a user follows the arrival of a verified consent
    which that user signed for [viewer]; and a push a session makes also follows one that
    [viewer] signed for that user. *)
Theorem presence_needs_consent r evs ev viewer entries p :
  view (rl_store r) KsPresenceConsent = ∅ → presence_subs r = ∅ → tasks r = [] →
  Forall event_typed (evs ++ [ev]) →
  (viewer, entries) ∈ (react iter (react_all iter r evs) ev).2 → p ∈ entries →
  let hist := (evs ++ [ev]) ≫= received in
  signed hist (pr_who p) viewer ∧ (session_event ev = true → signed hist viewer (pr_who p)).
Proof.
  intros Hv Hs Ht [Hevs Hev]%Forall_app Hpush Hp hist. apply Forall_cons in Hev as [Hev _].
  assert (H0' : authorized_relay [] r).
  { split; [intros k v; by rewrite Hv, lookup_empty|intros u cs c; by rewrite Hs, lookup_empty|].
    intros me ts l st v o. rewrite Ht. by intros ?%not_elem_of_nil. }
  pose proof (react_authorized _ _ ev (react_all_authorized evs [] r H0' Hevs) Hev) as Hr. cbv zeta in Hr.
  assert (Hh : hist = ([] ++ (evs ≫= received)) ++ received ev).
  { unfold hist. rewrite bind_app. cbn. by rewrite app_nil_r. }
  rewrite <- Hh in Hr. destruct (react iter (react_all iter r evs) ev) as [r' ps]. destruct Hr as (_ & Hc & Hm).
  rewrite Forall_forall in Hc. split; [exact (Hc _ Hpush p Hp)|]. intros Hse. specialize (Hm Hse).
  rewrite Forall_forall in Hm. exact (proj2 (Hm _ Hpush p Hp)).
Qed.
End consent.

(** ** Convergence *)

Section converge.
Context {KS : Type} `{!Keyspace KS, !Healthy KS}.
Implicit Types (s : Store KS).

(** An announced state, with the expiry of the lease it carries. *)
Record announced := mkAnnounced { an_state : PresenceState; an_version : Z; an_observed : Z; an_lease : Z }.

Definition an_typed (x : announced) : Prop :=
  is_u64 (an_version x) ∧ is_u64 (an_observed x) ∧ is_u64 (an_lease x) ∧ is_u64 (presence_tag (an_state x)).2 ∧
  an_version x <= sat_add (an_observed x) PRESENCE_VERSION_MAX_LEAD_MS.

Definition an_value (x : announced) : bytes := state_value (an_state x) (an_version x) (an_observed x) (an_lease x).

Definition put_announced (recipient contact : bytes) s (x : announced) : Store KS :=
  (put_presence_state s recipient contact (an_state x) (an_version x) (an_observed x) (an_lease x)).1.

(** [y] was announced before [x], and [x]'s lease outlives it. *)
Definition older (y x : announced) : Prop :=
  an_version y < an_version x ∧ an_observed y < an_observed x.

Lemma an_value_fields (x : announced) :
  an_typed x → be_u64 (an_value x) 0 = Some (an_version x) ∧ be_u64 (an_value x) 8 = Some (an_observed x) ∧
  be_u64 (an_value x) 25 = Some (state_deadline (an_observed x) (an_lease x)).
Proof.
  intros (Hv & Ho & Hl & Ht & _). split_and!.
  - unfold an_value, state_value. cbn [List.concat]. by apply be_u64_head.
  - unfold an_value, state_value. cbn [List.concat]. by apply be_u64_middle; [apply length_be_bytes|].
  - by apply (state_value_fields (an_state x) (an_version x)).
Qed.

(** What a put does to a row some announcement wrote. *)
Definition refuses (y x : announced) : bool :=
  (an_observed x <? state_deadline (an_observed y) (an_lease y))
  && ((an_version x <=? an_version y) || (an_observed x <=? an_observed y)).

Lemma put_announced_row recipient contact s x (old : option announced) :
  healthy (space s KsPresenceState) → an_typed x → (∀ y, old = Some y → an_typed y) →
  view s KsPresenceState !! (recipient ++ contact) = an_value <$> old →
  let s' := put_announced recipient contact s x in
  healthy (space s' KsPresenceState) ∧
  view s' KsPresenceState !! (recipient ++ contact) =
    if is_some_and (λ y, refuses y x) old then an_value <$> old else Some (an_value x).
Proof.
  intros Hh Hx Hold Hrow. unfold put_announced, put_presence_state.
  assert (Hlead : (an_version x >? sat_add (an_observed x) PRESENCE_VERSION_MAX_LEAD_MS) = false).
  { destruct Hx as (_ & _ & _ & _ & ?). rewrite Z.gtb_ltb. by apply Z.ltb_ge. }
  rewrite Hlead. destruct (ks_get _ _) as [stored|] eqn:Hget; [|by destruct (healthy_get _ _ Hh Hget)].
  apply ks_get_view in Hget. unfold view in Hrow. rewrite Hrow in Hget. subst stored.
  assert (Hdec : is_some_and (λ v, negb (presence_state_expired [] v (an_observed x))
      && (is_some_and (λ old, old >=? an_version x) (be_u64 v 0) || is_some_and (λ old, old >=? an_observed x) (be_u64 v 8)))
      (an_value <$> old) = is_some_and (λ y, refuses y x) old).
  { destruct old as [y|]; [|done]. destruct (an_value_fields y (Hold y eq_refl)) as (H0' & H8 & H25).
    cbn [fmap option_fmap option_map is_some_and]. unfold presence_state_expired. rewrite H0', H8, H25. cbn [is_none_or is_some_and].
    unfold refuses. rewrite !Z.geb_leb. f_equal. by rewrite Z.leb_antisym, negb_involutive. }
  rewrite Hdec. destruct (is_some_and (λ y, refuses y x) old); [by split|].
  destruct (presence_tag (an_state x)) as [tag ts] eqn:Htag.
  destruct (healthy_insert (space s KsPresenceState) (recipient ++ contact)
    (List.concat [be_bytes 8 (an_version x); be_bytes 8 (an_observed x); [tag]; be_bytes 8 ts;
       be_bytes 8 (Z.min (an_lease x) (sat_add (an_observed x) PRESENCE_STATE_TTL_MS))]) Hh) as (ks & Hins & Hks).
  rewrite Hins. cbn [fst]. split; [cbn; by rewrite decide_True|].
  rewrite view_set_space, decide_True by done. rewrite (ks_insert_view _ _ _ _ Hins), lookup_insert_eq.
  unfold an_value, state_value. by rewrite Htag.
Qed.

Lemma refuses_older y x : an_typed x → older y x → refuses y x = false.
Proof. intros _ [??]. unfold refuses. destruct (_ <? _); [|done]. cbn. apply orb_false_iff. lia. Qed.

Lemma refuses_newest x y :
  an_typed x → an_typed y → y = x ∨ older y x → an_observed x < an_lease x → refuses x y = true.
Proof.
  intros (_ & Ho & Hle & _) (_ & Hy & _) Hyx Hl. unfold refuses, state_deadline, sat_add, PRESENCE_STATE_TTL_MS, is_u64, u64_max in *.
  destruct Hyx as [->|[??]]; apply andb_true_iff; (split; [apply Z.ltb_lt|apply orb_true_iff]); lia.
Qed.

(** The row of announcement [old], or none. *)
Definition has_row (key : bytes) s (old : option announced) : Prop :=
  healthy (space s KsPresenceState) ∧ (∀ y, old = Some y → an_typed y) ∧
  view s KsPresenceState !! key = an_value <$> old.

Lemma newest_stays recipient contact x l : ∀ s,
  an_typed x → an_observed x < an_lease x → Forall (λ y, an_typed y ∧ (y = x ∨ older y x)) l →
  has_row (recipient ++ contact) s (Some x) →
  has_row (recipient ++ contact) (fold_left (put_announced recipient contact) l s) (Some x).
Proof.
  induction l as [|y l IH]; intros s Hx Hlease Hl Hrow; [done|]. apply Forall_cons in Hl as [[Hy Hyx] Hl]. cbn.
  apply IH; [done..|]. destruct Hrow as (Hh & Hold & Hv).
  destruct (put_announced_row recipient contact s y (Some x) Hh Hy Hold Hv) as [Hh' Hv']. split; [done|]. split; [done|].
  rewrite Hv'. cbn [is_some_and]. by rewrite refuses_newest.
Qed.

Lemma newest_wins recipient contact x l : ∀ s old,
  x ∈ l → an_typed x → an_observed x < an_lease x → Forall (λ y, an_typed y ∧ (y = x ∨ older y x)) l →
  (∀ y, old = Some y → older y x) → has_row (recipient ++ contact) s old →
  has_row (recipient ++ contact) (fold_left (put_announced recipient contact) l s) (Some x).
Proof.
  induction l as [|y l IH]; intros s old Hin Hx Hlease Hl Hold Hrow; [by apply not_elem_of_nil in Hin|].
  apply Forall_cons in Hl as [[Hy Hyx] Hl]. cbn. destruct Hrow as (Hh & Hty & Hv).
  destruct (put_announced_row recipient contact s y old Hh Hy Hty Hv) as [Hh' Hv'].
  destruct Hyx as [->|Hyx].
  - apply newest_stays; [done..|]. split; [done|]. split; [by intros ? [= <-]|]. rewrite Hv'.
    destruct old as [z|]; [|done]. cbn [is_some_and]. by rewrite refuses_older by auto.
  - apply elem_of_cons in Hin as [->|Hin]; [destruct Hyx; lia|].
    destruct (is_some_and (λ z, refuses z y) old) eqn:Hr.
    + by apply (IH _ old).
    + apply (IH _ (Some y)); try done; [by intros ? [= <-]|]. split; [done|]. split; [by intros ? [= <-]|done].
Qed.

(** Replicated presence converges.  When announcements about a contact carry
    increasing versions and observation times, a home that receives them in any order,
    some of them repeatedly, ends with the row of the newest, as long as that one's lease
    outlives its observation. *)
Theorem presence_converges recipient contact s l x :
  healthy (space s KsPresenceState) → view s KsPresenceState !! (recipient ++ contact) = None →
  x ∈ l → an_observed x < an_lease x →
  Forall (λ y, an_typed y ∧ (y = x ∨ older y x)) l →
  view (fold_left (put_announced recipient contact) l s) KsPresenceState !! (recipient ++ contact) = Some (an_value x).
Proof.
  intros Hh Hnone Hin Hlease Hl.
  assert (Hx : an_typed x) by (rewrite Forall_forall in Hl; by apply Hl).
  destruct (newest_wins recipient contact x l s None) as (_ & _ & Hv); try done.
Qed.
End converge.

(** ** Example *)

Module Friends.
Import Toy Mem KpExample ToyQueue ToyRelay Quartet Mailbox.

(** The consent of the holder of [sk] to the holder of [other], and its lease here. *)
Definition grant (sk other : bytes) : PresenceConsent :=
  let owner := verifying_key sk in
  let recipient := verifying_key other in
  mkConsent owner recipient 1 40 true (sign sk (presence_consent_signing_input owner recipient 1 40 true)).

Definition lease_of (sk : bytes) : PresenceLease :=
  let user := verifying_key sk in
  let id := relay_id (secret 1) in
  mkLease user id 1 40 5000 (sign sk (presence_lease_signing_input user id 1 40 5000)).

Definition subscribe (sk other : bytes) : event (N := Cluster (KS := mem)) :=
  EvPacket (mkPacketEnv calm 50 51 None None) (session sk) alone
    (CSubscribePresence (mkSubscribe [verifying_key other] [grant sk other] (lease_of sk))).

(** A relay Bob is connected to. *)
Definition bobs_relay : Relay (KS := mem) :=
  mkRelay (set_clients lone_relay {[verifying_key (secret 9) := 1]}) ∅ ∅ ∅ [].
End Friends.

Import Toy Mem KpExample ToyQueue ToyRelay Quartet Mailbox Friends.

(** Bob subscribes, then Alice does and Bob is told. *)
Lemma presence_needs_consent_witness :
  let hist := ([subscribe (secret 9) (secret 3)] ++ [subscribe (secret 3) (secret 9)]) ≫= received in
  signed hist (verifying_key (secret 3)) (verifying_key (secret 9)) ∧
  (true = true → signed hist (verifying_key (secret 9)) (verifying_key (secret 3))).
Proof.
  refine (presence_needs_consent elements (λ X, Permutation_refl _) bobs_relay [subscribe (secret 9) (secret 3)]
    (subscribe (secret 3) (secret 9)) (verifying_key (secret 9)) [mkPresence (verifying_key (secret 3)) (Offline 0)]
    (mkPresence (verifying_key (secret 3)) (Offline 0)) eq_refl eq_refl eq_refl _ _ (list_elem_of_here _ _)).
  - repeat constructor.
  - apply list_elem_of_In. vm_compute. right. left. reflexivity.
Defined.

(** Three announcements, out of order and one of them twice. *)
Lemma presence_converges_witness :
  let l := [mkAnnounced (Offline 70) 71 70 900; mkAnnounced Online 61 60 900; mkAnnounced (Offline 70) 71 70 900] in
  view (fold_left (put_announced (replicate 32 1) (replicate 32 2)) l empty_store) KsPresenceState
    !! (replicate 32 1 ++ replicate 32 2) = Some (an_value (mkAnnounced (Offline 70) 71 70 900)).
Proof.
  intros l. apply (presence_converges (replicate 32 1) (replicate 32 2) empty_store l (mkAnnounced (Offline 70) 71 70 900));
    [reflexivity|reflexivity|left|reflexivity|].
  unfold l, older, an_typed, is_u64, sat_add, u64_max, PRESENCE_VERSION_MAX_LEAD_MS. rewrite !Forall_cons.
  cbn [an_state an_version an_observed an_lease presence_tag snd].
  split_and!; try lia; [by left|by left|constructor].
Defined.

Module SameMillisecond.
Definition set_mode (mode : PresenceMode) (now : Z) : event (N := Cluster (KS := mem)) :=
  EvPacket (mkPacketEnv calm now now None None) (session (secret 3)) alone (CSetPresence mode).

(** Alice subscribes, comes to the foreground and leaves it within one millisecond; both
    announcements then run in order. *)
Definition flicker : Relay (KS := mem) :=
  react_all elements bobs_relay
    [subscribe (secret 3) (secret 9); set_mode ModeActive 60; set_mode ModeIdle 60;
     EvTask 2 alone (λ _, true) 60; EvTask 2 alone (λ _, true) 60].
End SameMillisecond.

(** Two changes within a millisecond leave the older one.  Alice goes active and then
    idle in the same millisecond; the second announcement has the higher version, but its
    observation time is not later, so the home refuses it: Bob reads Alice as online while
    the relay has her as inactive. *)
Theorem presence_tie_lost :
  active_clients SameMillisecond.flicker !! verifying_key (secret 3) = None ∧
  get_presence_state (rl_store SameMillisecond.flicker) (verifying_key (secret 9)) (verifying_key (secret 3)) 61
    = Some Online.
Proof. split; vm_compute; reflexivity. Qed.
