(* ===== verification/StashProps.v ===== *)
(** * StashProps: what an acknowledged publish leaves at the homes

    Key packages and welcomes a client publishes through its relay: when the relay answers
    that the quorum was met, that many distinct homes hold them. *)

From S2P Require Import Prelude Bytes Crypto Proto MlsWire Keyspace Store StoreProps Routing RoutingInv Homes Queue QueueProps KeyPackages KeyPackagesProps Contracts Dht Mls Frames Forward Sync Examples MlsProps ForwardProps Client Drain DrainProps Session.

(** ** Asking the relays of a cluster *)

Section cluster.
Context `{Crypto} `{RelayCodecs} {KS : Type} `{!Keyspace KS}.
Local Abbreviation dht := (Dht (KS := KS)).
Implicit Types (d : dht) (c : Cluster (KS := KS)) (e : Env).

(** The relay [id] was asked once between [c] and [c'] and answered [resp]. *)
Definition answered c c' (req : DhtRequest) (id : bytes) (resp : DhtResponse) : Prop :=
  ∃ d d' e now, c_relays c !! id = Some d ∧ c_relays c' !! id = Some d' ∧
    handle_dht_request e d req (c_sender c) now = (d', resp).

(** Only the relay [id] changed. *)
Definition only_at (id : bytes) c c' : Prop :=
  c_sender c' = c_sender c ∧ ∀ id', id' ≠ id → c_relays c' !! id' = c_relays c !! id'.

Lemma exchange_cluster c peer req c' r :
  c_exchange c peer req = (c', r) →
  only_at (nd_id peer) c c' ∧ ∀ resp, r = Some resp → answered c c' req (nd_id peer) resp.
Proof.
  unfold c_exchange. destruct (c_relays c !! nd_id peer) as [d|] eqn:Hd; [|by intros [= <- <-]].
  destruct (w_arrives _ _); [|by intros [= <- <-]].
  destruct (handle_dht_request _ d req _ _) as [d' resp] eqn:Hh. intros [= <- <-]. split.
  - split; [done|]. intros id Hid. cbn. by rewrite lookup_insert_ne.
  - destruct (w_answered _ _); [|done]. intros resp' [= <-]. eexists d, d', _, _. split_and!; [done| |exact Hh].
    cbn. by rewrite lookup_insert_eq.
Qed.

(** Asking for its services changes no relay. *)
Lemma services_cluster c peer c' s :
  peer_services c peer = (c', s) → c_sender c' = c_sender c ∧ c_relays c' = c_relays c.
Proof.
  unfold peer_services. cbn [net_services net_exchange net_remember cluster_network].
  destruct (c_services c !! nd_id peer); [by intros [= <- _]|].
  destruct (c_exchange c peer RqServiceCapabilities) as [c1 r] eqn:Hex.
  assert (H1' : c_sender c1 = c_sender c ∧ c_relays c1 = c_relays c).
  { revert Hex. unfold c_exchange. destruct (c_relays c !! nd_id peer) as [d|] eqn:Hd; [|by intros [= <- _]].
    destruct (w_arrives _ _); [|by intros [= <- _]]. cbn [handle_dht_request]. intros [= <- _]. split; [done|].
    cbn. by apply insert_id. }
  destruct r as [[]|]; try (intros [= <- _]; done). destruct (Support.decode _); by intros [= <- _].
Qed.

Lemma rpc_cluster c peer req c' r :
  rpc c peer req = (c', r) →
  only_at (nd_id peer) c c' ∧ ∀ resp, r = Some resp → answered c c' req (nd_id peer) resp.
Proof.
  unfold rpc. destruct (required_service req) as [[id version]|]; [|apply exchange_cluster].
  destruct (peer_services c peer) as [c1 s] eqn:Hs. apply services_cluster in Hs as [Hsend Hrel].
  destruct (is_some_and _ s); [|intros [= <- <-]; split; [|done]; split; [done|by rewrite Hrel]].
  cbn [net_exchange cluster_network]. intros [[Hs1 Ho] Ha]%exchange_cluster. split.
  - split; [congruence|]. intros id' Hid. by rewrite Ho, Hrel.
  - intros resp (d & d' & e & now & Hd & Hd' & Hh)%Ha. exists d, d', e, now. by rewrite <- Hrel, <- Hsend.
Qed.

Lemma fan_out_answered req peers : ∀ c c' replies,
  NoDup (map nd_id peers) → fan_out_loop c peers req = (c', replies) →
  c_sender c' = c_sender c ∧ (∀ id, id ∉ map nd_id peers → c_relays c' !! id = c_relays c !! id) ∧
  ∀ id resp, (id, resp) ∈ replies → id ∈ map nd_id peers ∧ answered c c' req id resp.
Proof.
  induction peers as [|p peers IH]; intros c c' replies Hnd; cbn [fan_out_loop map].
  { intros [= <- <-]. split_and!; [done..|]. by intros id resp ?%not_elem_of_nil. }
  apply NoDup_cons in Hnd as [Hp Hnd].
  destruct (rpc c p req) as [c1 r] eqn:Hr. destruct (fan_out_loop c1 peers req) as [c2 rs] eqn:Hloop.
  intros [= <- <-]. apply rpc_cluster in Hr as [[Hs1 Ho1] Ha1]. destruct (IH _ _ _ Hnd Hloop) as (Hs2 & Ho2 & Ha2).
  split_and!; [congruence| |].
  - intros id [Hne Hid]%not_elem_of_cons. by rewrite Ho2, Ho1.
  - intros id resp Hin. rewrite elem_of_cons.
    assert (Hcase : r = Some resp ∧ id = nd_id p ∨ (id, resp) ∈ rs).
    { destruct r; [apply elem_of_cons in Hin as [[= -> <-]|]; auto|auto]. }
    destruct Hcase as [[-> ->]|Hin'].
    + split; [by left|]. destruct (Ha1 resp eq_refl) as (d & d' & e & now & ? & ? & ?).
      exists d, d', e, now. by rewrite Ho2.
    + destruct (Ha2 id resp Hin') as [Hid (d & d' & e & now & ? & ? & ?)]. split; [by right|].
      exists d, d', e, now. split_and!; [|done|by rewrite <- Hs1]. rewrite <- Ho1; [done|]. by intros ->.
Qed.

(** What [ask_homes] gathers: each answer is that of a distinct home, this relay's own
    among them when it is one. *)
Lemma ask_homes_answered e d c target req now d' c' asked replies :
  well_placed d → wf_arr 32 target → ask_homes e d c target req now = (d', c', (asked, replies)) →
  NoDup (map fst replies) ∧ length asked = (length (dht_homes d target).1 + (if (dht_homes d target).2 then 1 else 0))%nat ∧
  ∀ id resp, (id, resp) ∈ replies →
    answered c c' req id resp ∨
    id = node_id d ∧ (dht_homes d target).2 = true ∧ handle_dht_request e d req (node_id d) now = (d', resp).
Proof.
  intros [Hwf Hid] Ht. pose proof (homes_tried_NoDup d target Hwf Hid Ht) as Hnd.
  unfold ask_homes. destruct (dht_homes d target) as [peers home]. cbn [fst snd] in *.
  match goal with |- (let '(_, _) := ?X in _) = _ → _ => destruct X as [d1 local] eqn:Hl end.
  pose proof (fan_out_ids req peers c) as Hids. unfold fan_out in *. cbn [net_order cluster_network] in *.
  destruct (fan_out_loop c _ req) as [c1 rs] eqn:Hfan. intros [= <- <- <- <-]. cbn [snd] in Hids.
  assert (Hloc : map fst local = if home then [node_id d] else []).
  { destruct home; [|by injection Hl as _ <-]. destruct (handle_dht_request _ _ _ _ _). by injection Hl as _ <-. }
  split_and!.
  - rewrite map_app, Hloc. eapply submseteq_NoDup; [exact Hnd|]. rewrite (Permutation_app_comm (map nd_id peers)).
    by apply submseteq_skips_l.
  - rewrite length_app, length_map. by destruct home.
  - intros id resp [Hin|Hin]%elem_of_app.
    + right. destruct home; [|injection Hl as _ <-; by apply not_elem_of_nil in Hin].
      destruct (handle_dht_request e d req (node_id d) now) as [d2 reply]. injection Hl as <- <-.
      apply list_elem_of_singleton in Hin. by injection Hin as -> ->.
    + left. apply fan_out_answered in Hfan as (_ & _ & Ha); [by apply Ha|].
      apply NoDup_app in Hnd as [Hnd _]. by rewrite (c_order_perm c (c_step c) peers).
Qed.

(** A quorum of distinct homes of [target] at which [P] holds of the state after. *)
Definition quorum_of d d' c' (target : bytes) (P : dht → Prop) : Prop :=
  ∃ ids, NoDup ids ∧
    (write_quorum (length (dht_homes d target).1 + (if (dht_homes d target).2 then 1 else 0)) <= length ids)%nat ∧
    ∀ id, id ∈ ids → (∃ dd, c_relays c' !! id = Some dd ∧ P dd) ∨ id = node_id d ∧ (dht_homes d target).2 = true ∧ P d'.

(** Counting the replies that report success. *)
Lemma ask_homes_quorum e d c target req now d' c' asked replies (good : bytes * DhtResponse → bool) (P : dht → Prop) :
  well_placed d → wf_arr 32 target → ask_homes e d c target req now = (d', c', (asked, replies)) →
  (∀ e dd peer now dd' resp id, handle_dht_request e dd req peer now = (dd', resp) → good (id, resp) = true → P dd') →
  (write_quorum (length asked) <= length (List.filter good replies))%nat → quorum_of d d' c' target P.
Proof.
  intros Hd Ht Hask Hgood Hq. destruct (ask_homes_answered _ _ _ _ _ _ _ _ _ _ Hd Ht Hask) as (Hnd & Hlen & Ha).
  exists (map fst (List.filter good replies)). split_and!.
  - eapply submseteq_NoDup; [exact Hnd|]. apply sublist_submseteq. clear. induction replies as [|x l IH]; cbn; [done|].
    destruct (good x); cbn; [by apply sublist_skip|by apply sublist_cons].
  - by rewrite length_map, <- Hlen.
  - intros id Hin. apply list_elem_of_fmap in Hin as ([id' resp] & -> & Hin).
    apply list_elem_of_In, List.filter_In in Hin as [Hin%list_elem_of_In Hg].
    destruct (Ha _ _ Hin) as [(dd & dd' & e' & now' & _ & Hdd' & Hh)|(-> & Hhome & Hh)].
    + left. exists dd'. split; [done|]. by eapply Hgood.
    + right. split_and!; [done..|]. by eapply Hgood.
Qed.

(** ** Key packages *)

(** The home offers the record, or has given it out and remembers its digest. *)
Definition kp_at (ipk : bytes) (rec : KeyPackageRecord) d : Prop :=
  ∃ k v, stash_key ipk (kp_ref rec) = Ok k ∧ ser rec = Some v ∧
    (stored (kp_store d) !! k = Some v ∨ ∃ m, markers (kp_store d) !! k = Some m ∧ drop 8 m = NodeId_new v).

Lemma publish_check_typed (s : KeyPackages KS) ipk existing incoming : ∀ final final',
  publish_check s ipk existing incoming final = Ok final' →
  ∀ rec, rec ∈ incoming → ∃ k v, stash_key ipk (kp_ref rec) = Ok k ∧ ser rec = Some v.
Proof.
  induction incoming as [|r incoming IH]; intros final final' Hc rec Hin; [by apply not_elem_of_nil in Hin|].
  cbn [publish_check] in Hc. destruct (decide _); [done|]. destruct (stash_key ipk (kp_ref r)) as [k|] eqn:Hk; [|done].
  destruct (ser r) as [v|] eqn:Hv; [|done]. apply elem_of_cons in Hin as [->|Hin]; [eauto|].
  destruct (ks_get _ _) as [[m|]|]; [| |done].
  - destruct (decide _); [done|]. destruct (decide _); [done|]. by eapply IH.
  - destruct (_ || _); [done|]. by eapply IH.
Qed.

Lemma publish_kept (s : KeyPackages KS) ipk incoming s' rec :
  publish s ipk incoming = (s', Ok tt) → rec ∈ incoming →
  ∃ k v, stash_key ipk (kp_ref rec) = Ok k ∧ ser rec = Some v ∧
    (stored s' !! k = Some v ∨ ∃ m, markers s' !! k = Some m ∧ drop 8 m = NodeId_new v).
Proof.
  intros Hp Hin. destruct (publish_ok _ _ _ _ Hp) as (Hm & existing & _ & _ & Hst & _).
  revert Hp. unfold publish. destruct (_ <? _)%nat; [done|]. destruct (entries s ipk) as [ex|]; [|done].
  destruct (publish_check s ipk ex incoming ∅) as [final|] eqn:Hc; [|done]. intros _.
  destruct (publish_check_typed _ _ _ _ _ _ Hc rec Hin) as (k & v & Hk & Hv).
  apply publish_check_spec in Hc as (_ & _ & Hspent). exists k, v. split_and!; [done..|].
  destruct (markers s !! k) as [m|] eqn:Hmk.
  - right. exists m. rewrite Hm. split; [done|]. destruct (Hspent k rec m Hin Hk Hmk) as (v' & Hv' & ->). congruence.
  - left. apply Hst; [|by exists rec].
    unfold stash_key in Hk. destruct (decide _); [|done]. injection Hk as <-. by eexists.
Qed.

Lemma kp_stored_at e d r now d' :
  handle_keypackage_publish e d r now = (d', KpStored) →
  ∀ rec, rec ∈ kpp_records r → kp_at (kpp_ipk r) rec d'.
Proof.
  unfold handle_keypackage_publish. destruct (_ <? _)%nat; [done|]. destruct (negb _); [done|].
  destruct (negb _); [done|]. destruct (verify_records _ _ _) as [[]|] eqn:Hv; try done.
  - exfalso. revert Hv. generalize (kpp_records r). intros l. induction l as [|x l IH]; cbn; [done|].
    destruct (decide _); [done|]. destruct (verify_record x now) as [|[]]; done.
  - destruct (publish _ _ _) as [k [[]|[]]] eqn:Hp; try (by intros [= _ ?]).
    destruct (durable e); [|done]. intros [= <-] rec Hin. exact (publish_kept _ _ _ _ rec Hp Hin).
Qed.

(** An acknowledged key package publish is held by a quorum.  When a session answers
    [KeyPackagePublished] with the quorum met, the publish was signed by the session's
    user, and at [write_quorum] distinct homes of the user's stash every record of the
    batch is on offer, or has been given out there before with the same content. *)
Theorem kp_published_at_quorum ce cx d c records timestamp sig now d' c' n :
  well_placed d →
  handle_publish_keypackage ce cx d c records timestamp sig now = (d', c', [SKeyPackagePublished n true]) →
  verify_publish_keypackage (cx_ipk cx) now records timestamp sig = true ∧
  quorum_of d d' c' (key_package_stash_prefix (cx_ipk cx)) (λ dd, ∀ rec, rec ∈ records → kp_at (cx_ipk cx) rec dd).
Proof.
  intros Hd. unfold handle_publish_keypackage. destruct (_ <? _)%nat; [done|]. destruct (negb _); [done|].
  destruct (verify_publish_keypackage _ _ _ _ _); [|done]. cbn [negb]. unfold originate_publish.
  destruct (ask_homes _ _ _ _ _ _) as [[d1 c1] [asked replies]] eqn:Hask. cbn [homes_succeeded quorum_met].
  intros [= <- <- _ Hq]. split; [done|]. apply Nat.leb_le in Hq.
  eapply (ask_homes_quorum _ _ _ _ _ _ _ _ _ _ is_kp_stored); [done|apply blake3_wf|exact Hask| |exact Hq].
  intros e dd peer now' dd' resp id Hh Hg rec Hin. cbn [handle_dht_request] in Hh.
  destruct (handle_keypackage_publish _ _ _ _) as [dd1 o] eqn:Hk. injection Hh as <- <-.
  destruct o; try done. exact (kp_stored_at _ _ _ _ _ Hk rec Hin).
Qed.

(** ** Welcomes *)

(** The home has the invitation in its recipient's queue. *)
Definition welcome_at (env : WelcomeEnvelopeP) d : Prop :=
  let key := storage_key (we_recipient_ipk env) (welcome_id env) in
  ∃ v r, welcome_view d !! key = Some v ∧ parse_welcome key v = Some r ∧ wr_env r = env.

Lemma welcome_stored_at e d req peer now d' :
  handle_welcome_publish e d req peer now = (d', WpStored) → welcome_at (wp_envelope req) d'.
Proof.
  unfold handle_welcome_publish. destruct (stash_gate _ _ _ _ _ _ _) as [|[]]; [|done..].
  destruct (negb _); [done|]. destruct (ser _) as [b|] eqn:Hser; [|done].
  destruct (welcome_queue_full _ _ _ _); [done|]. destruct (put_sync _ _ _ _) as [s|] eqn:Hp; [|done].
  destruct (durable e); [|done]. intros [= <-].
  destruct (parse_published (we_recipient_ipk (wp_envelope req)) (wp_envelope req) b (sat_add now WELCOME_LIFETIME_MS) Hser)
    as (r & Hr & He).
  exists (be_bytes 8 (sat_add now WELCOME_LIFETIME_MS) ++ b), r. split_and!; [|done..].
  change (view s KsWelcome !! storage_key (we_recipient_ipk (wp_envelope req)) (welcome_id (wp_envelope req))
    = Some (be_bytes 8 (sat_add now WELCOME_LIFETIME_MS) ++ b)).
  rewrite (put_sync_view _ _ _ _ _ _ Hp), decide_True by done. apply lookup_insert_eq.
Qed.

(** An acknowledged invitation is held by a quorum.  When a session answers
    [WelcomePublished] with the quorum met, the invitation names the session's user as its
    sender, and [write_quorum] distinct homes of the recipient have it readable in the
    recipient's queue. *)
Theorem welcome_published_at_quorum ce cx d c env timestamp sig now d' c' :
  well_placed d →
  handle_publish_welcome ce cx d c env timestamp sig now = (d', c', [SWelcomePublished true]) →
  we_sender_ipk env = cx_ipk cx ∧ quorum_of d d' c' (welcome_prefix (we_recipient_ipk env)) (welcome_at env).
Proof.
  intros Hd. unfold handle_publish_welcome. case_bool_decide as Hs; [done|].
  do 2 (destruct (negb _); [done|]). unfold originate_welcome_publish.
  destruct (ask_homes _ _ _ _ _ _) as [[d1 c1] [asked replies]] eqn:Hask. intros [= <- <- Hq].
  split; [done|]. apply Nat.leb_le in Hq.
  eapply (ask_homes_quorum _ _ _ _ _ _ _ _ _ _ is_welcome_stored); [done|apply blake3_wf|exact Hask| |exact Hq].
  intros e dd peer now' dd' resp id Hh Hg. cbn [handle_dht_request] in Hh.
  destruct (handle_welcome_publish _ _ _ _ _) as [dd1 o] eqn:Hk. injection Hh as <- <-.
  destruct o; try done. exact (welcome_stored_at _ _ _ _ _ _ Hk).
Qed.
End cluster.

(** ** Examples *)

Module Publishers.
Import Toy Mem KpExample ToyQueue ToyRelay WelcomeExample Quartet Mailbox.

Lemma lone_placed : well_placed lone_relay.
Proof. split; [apply empty_wf, blake3_wf|by_eval]. Qed.

(** A key package of the holder of [sk]. *)
Definition kp_of (sk : bytes) : KeyPackageRecord :=
  let ipk := verifying_key sk in
  mkKp ipk (replicate 32 4) [8] 1000
    (sign sk (kp_record_signing_input MLS_WIRE_VERSION ipk (replicate 32 4) [8] 1000)).

Definition kp_sig (sk : bytes) (now : Z) : bytes :=
  sign sk (kp_publish_signing_input MLS_WIRE_VERSION (verifying_key sk)
             (kp_publish_records_digest MLS_WIRE_VERSION [kp_of sk]) 1 now).

Abbreviation publish_kp := (handle_publish_keypackage calm (session (secret 3)) lone_relay alone [kp_of (secret 3)] 50
                              (kp_sig (secret 3) 50) 50).

Definition wrap_sig (sk : bytes) (now : Z) : bytes :=
  sign sk (welcome_publish_wrap_signing_input MLS_WIRE_VERSION (verifying_key sk) [1] now).

Abbreviation invite := (handle_publish_welcome calm (session (secret 3)) lone_relay alone (invitation (secret 3) 1) 50
                          (wrap_sig (secret 3) 50) 50).
End Publishers.

Import Toy Mem KpExample ToyQueue ToyRelay WelcomeExample Quartet Mailbox Publishers.

Lemma kp_published_at_quorum_witness :
  let '(d', c', out) := publish_kp in
  out = [SKeyPackagePublished 1 true] ∧
  verify_publish_keypackage (verifying_key (secret 3)) 50 [kp_of (secret 3)] 50 (kp_sig (secret 3) 50) = true ∧
  quorum_of lone_relay d' c' (key_package_stash_prefix (verifying_key (secret 3)))
    (λ dd, ∀ rec, rec ∈ [kp_of (secret 3)] → kp_at (verifying_key (secret 3)) rec dd).
Proof.
  destruct publish_kp as [[d' c'] out] eqn:Hp.
  assert (out = [SKeyPackagePublished 1 true]) as ->.
  { change out with (d', c', out).2. rewrite <- Hp. vm_compute. reflexivity. }
  split; [reflexivity|].
  exact (kp_published_at_quorum calm (session (secret 3)) lone_relay alone _ 50 _ 50 d' c' 1 lone_placed Hp).
Defined.

Lemma welcome_published_at_quorum_witness :
  let '(d', c', out) := invite in
  out = [SWelcomePublished true] ∧
  we_sender_ipk (invitation (secret 3) 1) = verifying_key (secret 3) ∧
  quorum_of lone_relay d' c' (welcome_prefix bob) (welcome_at (invitation (secret 3) 1)).
Proof.
  destruct invite as [[d' c'] out] eqn:Hp.
  assert (out = [SWelcomePublished true]) as ->.
  { change out with (d', c', out).2. rewrite <- Hp. vm_compute. reflexivity. }
  split; [reflexivity|].
  exact (welcome_published_at_quorum calm (session (secret 3)) lone_relay alone (invitation (secret 3) 1) 50 _ 50
    d' c' lone_placed Hp).
Defined.
