(* ===== verification/Attachment.v ===== *)
(** * Attachment: the manifest and the attachment/2 frame grammar

    libcore/src/transfer/wire.rs ([Manifest], the length-prefixed auth frame),
    transfer/auth.rs (the identity pin every stream starts with) and transfer/v2.rs
    (capability negotiation, header checks, body codec, the framed reader and writer).

    Slicing and [try_into().unwrap()] panic out of range, so a decoder answers in
    [option]: [None] is a panic, [Some (Err e)] an error the caller sees. *)

From S2P Require Import Prelude Bytes Crypto.

(** ** Errors

    The types an [anyhow::Error] of the transfer code is downcast to; [Io], [Sql] and
    [Other] are the ones no caller tells apart. *)
Inductive ErrorCode := Unavailable | InvalidRequest | Unsupported | Busy | StorageE.

#[global] Instance ErrorCode_eq_dec : EqDecision ErrorCode.
Proof. solve_decision. Defined.

Inductive error :=
| InvalidFrame (message : String.string)
| AuthenticationFailed (message : String.string)
| Cancelled
| Code (code : ErrorCode)
| Sql
| Io
| Other (message : String.string).
Arguments InvalidFrame message%_string_scope.
Arguments AuthenticationFailed message%_string_scope.
Arguments Other message%_string_scope.

Definition res A := result A error.

Definition res_bind {A B} (r : res A) (f : A → res B) : res B :=
  match r with Ok a => f a | Err e => Err e end.

Declare Scope res_scope.
Delimit Scope res_scope with res.
Notation "x ⇐ r ; e" := (res_bind r (λ x, e))
  (at level 20, r at level 100, e at level 200, right associativity, only parsing) : res_scope.
Notation "' pat ⇐ r ; e" := (res_bind r (λ '(pat), e))
  (at level 20, pat pattern, r at level 100, e at level 200, right associativity, only parsing) : res_scope.
#[global] Open Scope res_scope.

(** [if bad { return Err(e) }] *)
Definition reject (bad : bool) (e : error) : res unit := if bad then Err e else Ok tt.

(** ** Integers of the wire

    Little-endian on this protocol ([to_le_bytes], [from_le_bytes]). *)
Definition le_bytes (n : nat) (z : Z) : bytes := reverse (be_bytes n z).
Definition le_val (l : bytes) : Z := be_val (reverse l).

(** [div_ceil] *)
Definition div_ceil (a b : Z) : Z := if a mod b >? 0 then a / b + 1 else a / b.

(** [!x] on a [u64] *)
Definition not_u64 (x : Z) : Z := u64_max - x.

(** ** The manifest *)

Definition CHUNK_SIZE : Z := 256 * 1024.
Definition AUTH_FRAME_LIMIT : Z := 256.

Record Manifest := mkManifest {
  total_size : Z;
  chunk_size : Z;
  chunks : list bytes;
}.

#[global] Instance Manifest_eq_dec : EqDecision Manifest.
Proof. solve_decision. Defined.

Section manifest.
Context `{Crypto}.

(** One turn of the outer loop per chunk: the inner loop fills the buffer until it is
    full or the file ends. *)
Fixpoint from_file_loop (fuel : nat) (rest : bytes) (hashes : list bytes) (total : Z) : Manifest :=
  match fuel with
  | O => mkManifest total CHUNK_SIZE hashes
  | S fuel =>
      let filled := Z.min CHUNK_SIZE (len rest) in
      if filled =? 0 then mkManifest total CHUNK_SIZE hashes
      else
        let hashes := hashes ++ [blake3 (take (Z.to_nat filled) rest)] in
        let total := total + filled in
        if filled <? CHUNK_SIZE then mkManifest total CHUNK_SIZE hashes
        else from_file_loop fuel (drop (Z.to_nat filled) rest) hashes total
  end.

(** [Manifest::from_file] of the bytes the file holds; every turn but the last takes
    a byte, so their number is fuel enough. *)
Definition from_file (content : bytes) : Manifest := from_file_loop (S (length content)) content [] 0.

(** [Manifest::file_id] *)
Definition file_id (m : Manifest) : bytes :=
  blake3 (str "promtuz/transfer/manifest" ++ le_bytes 8 (total_size m) ++ le_bytes 4 (chunk_size m)
            ++ mjoin (chunks m)).
End manifest.

(** ** The stream

    What a peer still sends on a stream and how it ends: a FIN, a reset or a silence
    that outlasts the timeout. *)
Inductive StreamEnd := Fin | ResetByPeer | Stalled.
Record RecvStream := mkStream { sent : bytes; ending : StreamEnd }.

(** [Progress::read_exact] *)
Definition read_exact (n : Z) (r : RecvStream) : res (bytes * RecvStream) :=
  if n <=? len (sent r) then
    Ok (take (Z.to_nat n) (sent r), mkStream (drop (Z.to_nat n) (sent r)) (ending r))
  else match ending r with
  | Fin => Err (InvalidFrame "attachment stream ended before expected frame completed")
  | ResetByPeer => Err Io
  | Stalled => Err (Other "attachment frame read stalled")
  end.

(** ** Authentication *)

Record Auth := mkAuth { au_ipk : bytes; au_tls_pub : bytes; au_sig : bytes }.

Section auth.
Context `{Crypto}.

Definition ipk_binding_message (tls_pubkey : bytes) : bytes :=
  str "promtuz-ipk-tls-binding-v1......" ++ tls_pubkey.

Definition verify_auth (a : Auth) (expected conn_tls_pub : bytes) : res unit :=
  _ ⇐ reject (negb (bool_decide (au_ipk a = expected))) (Other "peer ipk mismatch");
  _ ⇐ reject (negb (bool_decide (au_tls_pub a = conn_tls_pub)))
        (Other "tls_pub is not the connection's cert key");
  reject (negb (verify_ed25519 (au_ipk a) (ipk_binding_message (au_tls_pub a)) (au_sig a)))
    (Other "ipk binding").

(** [quinn::RecvStream::read_exact], whose errors are transport errors. *)
Definition quinn_read_exact (n : Z) (r : RecvStream) : res (bytes * RecvStream) :=
  if n <=? len (sent r) then
    Ok (take (Z.to_nat n) (sent r), mkStream (drop (Z.to_nat n) (sent r)) (ending r))
  else Err Io.

(** [wire::read_frame_limited]; [from_bytes] is postcard's decoder of the type read. *)
Definition read_frame_limited {A} (from_bytes : bytes → option A) (r : RecvStream) (limit : Z) :
    res (A * RecvStream) :=
  '(l, r) ⇐ quinn_read_exact 4 r;
  let n := le_val l in
  _ ⇐ reject (n >? limit) (InvalidFrame "frame too large");
  '(buf, r) ⇐ quinn_read_exact n r;
  match from_bytes buf with
  | Some a => Ok (a, r)
  | None => Err (InvalidFrame "postcard")
  end.

(** [auth::exchange], after the local [Auth] is written: [conn_tls_pub] is the key of
    the certificate the connection presented, when it has one. *)
Definition exchange (from_bytes : bytes → option Auth) (conn_tls_pub : option bytes) (expected : bytes)
    (r : RecvStream) : res RecvStream :=
  '(peer, r) ⇐ read_frame_limited from_bytes r AUTH_FRAME_LIMIT;
  match conn_tls_pub with
  | None => Err (AuthenticationFailed "no verifiable peer cert")
  | Some key =>
      match verify_auth peer expected key with
      | Ok _ => Ok r
      | Err _ => Err (AuthenticationFailed "verify_auth")
      end
  end.
End auth.

(** ** Capabilities *)

Definition HEADER_LEN : Z := 7.
Definition REQUIRED : Z := 1.
Definition RANGE_CAPABILITY : Z := 1.
Definition SHARING_CAPABILITY : Z := 2.
Definition MAX_RANGES : Z := 16.
Definition MAX_CHUNKS : Z := 64.
Definition MAX_MANIFEST : Z := 8 * 1024 * 1024.
Definition MAX_OPTIONAL_BODY : Z := 1024.
Definition MAX_OPTIONAL_FRAMES : nat := 16.

Record Hello := mkHello { supported : Z; required : Z; h_max_ranges : Z; h_max_chunks : Z }.
Record Limits := mkLimits { sharing : bool; max_ranges : Z; max_chunks : Z }.

Definition Hello_local : Hello :=
  mkHello (Z.lor RANGE_CAPABILITY SHARING_CAPABILITY) RANGE_CAPABILITY MAX_RANGES MAX_CHUNKS.

Definition negotiate (h : Hello) : res Limits :=
  let local := Hello_local in
  _ ⇐ reject (negb (Z.land (required h) (not_u64 (supported h)) =? 0)
               || negb (Z.land (required h) (not_u64 (supported local)) =? 0)
               || negb (Z.land (required local) (not_u64 (supported h)) =? 0))
        (InvalidFrame "incompatible attachment capabilities");
  _ ⇐ reject ((h_max_ranges h =? 0) || (h_max_chunks h =? 0))
        (InvalidFrame "zero attachment range limit");
  Ok {| sharing := negb (Z.land (supported h) SHARING_CAPABILITY =? 0);
        max_ranges := Z.min (h_max_ranges h) (h_max_ranges local);
        max_chunks := Z.min (h_max_chunks h) (h_max_chunks local) |}.

(** ** Frames *)

Record ChunkRange := mkRange { r_start : Z; r_end : Z }.

#[global] Instance ChunkRange_eq_dec : EqDecision ChunkRange.
Proof. solve_decision. Defined.

(** [start..end] of every range, in order. *)
Definition range_indices (ranges : list ChunkRange) : list nat :=
  ranges ≫= λ g, seq (Z.to_nat (r_start g)) (Z.to_nat (r_end g - r_start g)).

Inductive Frame :=
| FHello (h : Hello)
| FDescribe (file_id : bytes)
| FManifest (m : Manifest)
| FPull (file_id : bytes) (ranges : list ChunkRange)
| FChunk (index : Z) (data : bytes)
| FComplete (chunks_sent : Z)
| FError (code : ErrorCode)
| FDescribeShared (file_id grant : bytes)
| FPullShared (file_id grant : bytes) (ranges : list ChunkRange).

Inductive ReadPhase := PhHello | PhRequest | PhManifest | PhChunk | PhComplete.

Definition accepts (phase : ReadPhase) (kind : Z) : bool :=
  (kind =? 7) ||
  match phase with
  | PhHello => kind =? 1
  | PhRequest => (kind =? 2) || (kind =? 4) || (kind =? 8) || (kind =? 9)
  | PhManifest => kind =? 3
  | PhChunk => kind =? 5
  | PhComplete => kind =? 6
  end.

(** [code as u16] *)
Definition code_u16 (c : ErrorCode) : Z :=
  match c with Unavailable => 1 | InvalidRequest => 2 | Unsupported => 3 | Busy => 4 | StorageE => 5 end.

(** [ErrorCode::try_from] *)
Definition try_from_code (value : Z) : res ErrorCode :=
  if value =? 1 then Ok Unavailable
  else if value =? 2 then Ok InvalidRequest
  else if value =? 3 then Ok Unsupported
  else if value =? 4 then Ok Busy
  else if value =? 5 then Ok StorageE
  else Err (InvalidFrame "unknown attachment error code").

(** [(a..=b).contains(&len)] *)
Definition within (a b l : Z) : bool := (a <=? l) && (l <=? b).

(** [valid_len] of [validate_header]: [None] for a kind this version does not know. *)
Definition valid_len (kind l : Z) : option bool :=
  if kind =? 1 then Some (l =? 20)
  else if kind =? 2 then Some (l =? 32)
  else if kind =? 3 then Some (within 16 MAX_MANIFEST l && ((l - 16) mod 32 =? 0))
  else if kind =? 4 then Some (within 42 (34 + 8 * MAX_RANGES) l && ((l - 34) mod 8 =? 0))
  else if kind =? 5 then Some (within 4 (4 + CHUNK_SIZE) l)
  else if kind =? 6 then Some (l =? 4)
  else if kind =? 7 then Some (l =? 2)
  else if kind =? 8 then Some (l =? 64)
  else if kind =? 9 then Some (within 74 (66 + 8 * MAX_RANGES) l && ((l - 66) mod 8 =? 0))
  else None.

Definition validate_header (kind flags l : Z) : res unit :=
  _ ⇐ reject (negb (Z.land flags (255 - REQUIRED) =? 0)) (InvalidFrame "unknown attachment frame flags");
  match valid_len kind l with
  | None =>
      _ ⇐ reject (flags =? REQUIRED) (InvalidFrame "unknown required attachment frame");
      reject (l >? MAX_OPTIONAL_BODY) (InvalidFrame "optional attachment frame too large")
  | Some ok =>
      _ ⇐ reject (negb (flags =? REQUIRED)) (InvalidFrame "known attachment frame must be required");
      reject (negb ok) (InvalidFrame "invalid attachment frame length")
  end.

Definition validate_manifest (m : Manifest) : res unit :=
  reject ((chunk_size m =? 0) || (chunk_size m >? CHUNK_SIZE)
          || negb (len (chunks m) =? div_ceil (total_size m) (chunk_size m)))
    (InvalidFrame "inconsistent attachment manifest").

Fixpoint check_ranges_loop (ranges : list ChunkRange) (previous_end count : Z) : res Z :=
  match ranges with
  | [] => Ok count
  | range :: ranges =>
      _ ⇐ reject ((r_start range >=? r_end range) || (r_start range <? previous_end))
            (InvalidFrame "attachment ranges must be sorted and nonoverlapping");
      check_ranges_loop ranges (r_end range) (count + (r_end range - r_start range))
  end.

Definition check_ranges (ranges : list ChunkRange) (limits : Limits) : res Z :=
  _ ⇐ reject ((max_ranges limits =? 0) || (max_ranges limits >? MAX_RANGES)
               || (max_chunks limits =? 0) || (max_chunks limits >? MAX_CHUNKS))
        (InvalidFrame "invalid negotiated attachment limits");
  _ ⇐ reject ((len ranges =? 0) || (len ranges >? max_ranges limits))
        (InvalidFrame "invalid attachment range count");
  count ⇐ check_ranges_loop ranges 0 0;
  _ ⇐ reject (count >? max_chunks limits) (InvalidFrame "attachment request exceeds chunk limit");
  Ok count.

Definition validate_ranges (ranges : list ChunkRange) (m : Manifest) (limits : Limits) : res Z :=
  _ ⇐ validate_manifest m;
  count ⇐ check_ranges ranges limits;
  _ ⇐ reject (existsb (λ range, r_end range >? len (chunks m)) ranges)
        (InvalidFrame "attachment range exceeds manifest");
  Ok count.

Definition max_limits : Limits := mkLimits true MAX_RANGES MAX_CHUNKS.

(** ** Encoding *)

Definition range_bytes (range : ChunkRange) : bytes := le_bytes 4 (r_start range) ++ le_bytes 4 (r_end range).

(** The kind of a frame and the length its body will have. *)
Definition frame_shape (frame : Frame) : res (Z * Z) :=
  match frame with
  | FHello _ => Ok (1, 20)
  | FDescribe _ => Ok (2, 32)
  | FManifest m =>
      _ ⇐ reject (len (chunks m) * 32 + 16 >? u64_max) (InvalidFrame "attachment manifest size overflow");
      _ ⇐ validate_manifest m;
      Ok (3, len (chunks m) * 32 + 16)
  | FPull _ ranges => _ ⇐ check_ranges ranges max_limits; Ok (4, 34 + len ranges * 8)
  | FChunk _ data =>
      _ ⇐ reject (len data + 4 >? u64_max) (InvalidFrame "attachment chunk size overflow");
      Ok (5, len data + 4)
  | FComplete _ => Ok (6, 4)
  | FError _ => Ok (7, 2)
  | FDescribeShared _ _ => Ok (8, 64)
  | FPullShared _ _ ranges => _ ⇐ check_ranges ranges max_limits; Ok (9, 66 + len ranges * 8)
  end.

Definition body_bytes (frame : Frame) : bytes :=
  match frame with
  | FHello h =>
      le_bytes 8 (supported h) ++ le_bytes 8 (required h) ++ le_bytes 2 (h_max_ranges h)
        ++ le_bytes 2 (h_max_chunks h)
  | FDescribe file_id => file_id
  | FDescribeShared file_id grant => file_id ++ grant
  | FManifest m =>
      le_bytes 8 (total_size m) ++ le_bytes 4 (chunk_size m) ++ le_bytes 4 (len (chunks m)) ++ mjoin (chunks m)
  | FPull file_id ranges => file_id ++ le_bytes 2 (len ranges) ++ mjoin (map range_bytes ranges)
  | FPullShared file_id grant ranges =>
      file_id ++ grant ++ le_bytes 2 (len ranges) ++ mjoin (map range_bytes ranges)
  | FChunk index data => le_bytes 4 index ++ data
  | FComplete chunks_sent => le_bytes 4 chunks_sent
  | FError code => le_bytes 2 (code_u16 code)
  end.

Definition encode_body (frame : Frame) : res (Z * bytes) :=
  '(kind, l) ⇐ frame_shape frame;
  _ ⇐ validate_header kind REQUIRED l;
  Ok (kind, body_bytes frame).

(** The bytes [write_frame_to] puts on the stream. *)
Definition write_frame_to (frame : Frame) : res bytes :=
  '(kind, body) ⇐ encode_body frame;
  Ok (le_bytes 2 kind ++ [REQUIRED] ++ le_bytes 4 (len body) ++ body).

(** ** Decoding *)

(** [&body[a..b]], a panic when out of range. *)
Definition sub (body : bytes) (a b : nat) : option bytes :=
  if (a <=? b)%nat && (b <=? length body)%nat then Some (take (b - a) (drop a body)) else None.

(** [try_into().unwrap()] to [[u8; n]] *)
Definition arr (n : nat) (l : bytes) : option bytes := if (length l =? n)%nat then Some l else None.

(** [uN::from_le_bytes(body[a..a + n].try_into().unwrap())] *)
Definition uint_at (body : bytes) (a n : nat) : option Z :=
  l ← sub body a (a + n); l ← arr n l; Some (le_val l).

(** [chunks_exact(n)] *)
Fixpoint chunks_exact_fuel (fuel n : nat) (l : bytes) : list bytes :=
  match fuel with
  | O => []
  | S fuel => if (length l <? n)%nat then [] else take n l :: chunks_exact_fuel fuel n (drop n l)
  end.
Definition chunks_exact (n : nat) (l : bytes) : list bytes := chunks_exact_fuel (length l) n l.

Definition decode_range (l : bytes) : option ChunkRange :=
  a ← uint_at l 0 4; b ← uint_at l 4 4; Some (mkRange a b).

Definition decode_body (kind : Z) (body : bytes) : option (res Frame) :=
  match validate_header kind REQUIRED (len body) with
  | Err e => Some (Err e)
  | Ok _ =>
      if kind =? 1 then
        s ← uint_at body 0 8; r ← uint_at body 8 8; mr ← uint_at body 16 2; mc ← uint_at body 18 2;
        Some (Ok (FHello (mkHello s r mr mc)))
      else if kind =? 2 then fid ← arr 32 body; Some (Ok (FDescribe fid))
      else if kind =? 3 then
        total ← uint_at body 0 8; size ← uint_at body 8 4; count ← uint_at body 12 4;
        if negb (count =? (len body - 16) / 32) then
          Some (Err (InvalidFrame "attachment manifest count disagrees with length"))
        else if (size =? 0) || (size >? CHUNK_SIZE) || negb (count =? div_ceil total size) then
          Some (Err (InvalidFrame "inconsistent attachment manifest"))
        else
          rest ← sub body 16 (length body); hashes ← mapM (arr 32) (chunks_exact 32 rest);
          Some (Ok (FManifest (mkManifest total size hashes)))
      else if (kind =? 4) || (kind =? 9) then
        head ← sub body 0 32; fid ← arr 32 head;
        let base := if kind =? 9 then 64%nat else 32%nat in
        count ← uint_at body base 2;
        if negb (count =? (len body - Z.of_nat base - 2) / 8) then
          Some (Err (InvalidFrame "attachment range count disagrees with length"))
        else
          rest ← sub body (base + 2) (length body); ranges ← mapM decode_range (chunks_exact 8 rest);
          match check_ranges ranges max_limits with
          | Err e => Some (Err e)
          | Ok _ =>
              if kind =? 9 then
                g ← sub body 32 64; grant ← arr 32 g; Some (Ok (FPullShared fid grant ranges))
              else Some (Ok (FPull fid ranges))
          end
      else if kind =? 5 then
        index ← uint_at body 0 4; data ← sub body 4 (length body); Some (Ok (FChunk index data))
      else if kind =? 6 then l ← arr 4 body; Some (Ok (FComplete (le_val l)))
      else if kind =? 7 then l ← arr 2 body; Some (code ⇐ try_from_code (le_val l); Ok (FError code))
      else if kind =? 8 then
        a ← sub body 0 32; fid ← arr 32 a; b ← sub body 32 (length body); grant ← arr 32 b;
        Some (Ok (FDescribeShared fid grant))
      else Some (Err (InvalidFrame "unknown attachment frame"))
  end.

(** [read_frame_with_phase_from]: [budget] is how many optional frames may still be
    skipped.  The header is three fields of a buffer of [HEADER_LEN] bytes. *)
Fixpoint read_frame_loop (budget : nat) (phase : option ReadPhase) (r : RecvStream) :
    option (res (Frame * RecvStream)) :=
  match read_exact HEADER_LEN r with
  | Err e => Some (Err e)
  | Ok (header, r) =>
      kind ← uint_at header 0 2; flags ← header !! 2%nat; l ← uint_at header 3 4;
      match validate_header kind flags l with
      | Err e => Some (Err e)
      | Ok _ =>
          if negb (within 1 9 kind) then
            match budget with
            | O => Some (Err (InvalidFrame "too many optional attachment frames"))
            | S budget =>
                match read_exact l r with
                | Err e => Some (Err e)
                | Ok (_, r) => read_frame_loop budget phase r
                end
            end
          else if match phase with Some phase => negb (accepts phase kind) | None => false end then
            Some (Err (InvalidFrame "unexpected attachment frame for current phase"))
          else
            match read_exact l r with
            | Err e => Some (Err e)
            | Ok (body, r) =>
                decoded ← decode_body kind body; Some (frame ⇐ decoded; Ok (frame, r))
            end
      end
  end.

Definition read_frame_for (phase : ReadPhase) (r : RecvStream) : option (res (Frame * RecvStream)) :=
  read_frame_loop MAX_OPTIONAL_FRAMES (Some phase) r.

(** [exchange_hello], after the local [Hello] is written. *)
Definition exchange_hello (r : RecvStream) : option (res (Limits * RecvStream)) :=
  reply ← read_frame_for PhHello r;
  Some (match reply with
        | Err e => Err e
        | Ok (FHello hello, r) => limits ⇐ negotiate hello; Ok (limits, r)
        | Ok (FError code, _) => Err (Code code)
        | Ok _ => Err (InvalidFrame "expected attachment Hello")
        end).
