(* ===== verification/AttachmentProps.v ===== *)
(** * AttachmentProps: the attachment frame grammar is exact and bounded

    The body codec is a bijection between the well-formed frames and the byte strings
    it accepts, the reader never panics on what a peer sends and takes a bounded number
    of bytes from the stream, and range validation decides exactly the requests a
    server may iterate over. *)

From S2P Require Import Prelude Bytes Crypto Attachment.

(** ** Integers *)

(** A value of the unsigned type of [n] bytes. *)
Definition is_uint (n : nat) (z : Z) : Prop := 0 <= z < 256 ^ Z.of_nat n.

Lemma length_le_bytes n z : length (le_bytes n z) = n.
Proof. unfold le_bytes. by rewrite length_reverse, length_be_bytes. Qed.

Lemma le_bytes_u8 n z : Forall is_u8 (le_bytes n z).
Proof. unfold le_bytes. apply Forall_reverse, be_bytes_u8. Qed.

Lemma le_val_le_bytes n z : is_uint n z → le_val (le_bytes n z) = z.
Proof. intros. unfold le_val, le_bytes. rewrite reverse_involutive. by apply be_val_be_bytes_small. Qed.

Lemma le_bytes_le_val n l : length l = n → Forall is_u8 l → le_bytes n (le_val l) = l.
Proof.
  intros <- Hl. unfold le_val, le_bytes. rewrite <- (length_reverse l), be_bytes_be_val by by apply Forall_reverse.
  apply reverse_involutive.
Qed.

Lemma le_val_uint n l : length l = n → Forall is_u8 l → is_uint n (le_val l).
Proof.
  intros <- Hl. unfold is_uint, le_val. rewrite <- (length_reverse l).
  apply be_val_bound. by apply Forall_reverse.
Qed.

#[local] Hint Resolve length_le_bytes le_bytes_u8 le_val_uint : promtuz.

(** ** Slices *)

Lemma sub_app pre mid post : sub (pre ++ mid ++ post) (length pre) (length pre + length mid) = Some mid.
Proof.
  unfold sub. rewrite !length_app.
  destruct (_ && _) eqn:E; [|apply andb_false_iff in E as [E|E]; breflect; lia].
  by rewrite drop_app_length, Nat.add_comm, Nat.add_sub, take_app_length.
Qed.

Lemma sub_at body a b pre mid post :
  body = pre ++ mid ++ post → a = length pre → b = (a + length mid)%nat → sub body a b = Some mid.
Proof. intros -> -> ->. apply sub_app. Qed.

Lemma arr_exact n l : length l = n → arr n l = Some l.
Proof. intros <-. unfold arr. by rewrite Nat.eqb_refl. Qed.

Lemma uint_at_app body a n pre mid post :
  body = pre ++ mid ++ post → a = length pre → n = length mid → uint_at body a n = Some (le_val mid).
Proof.
  intros -> -> ->. unfold uint_at. rewrite sub_app. cbn. by rewrite arr_exact.
Qed.

(** A body of known length splits into its fields. *)
Lemma split_body n (l : bytes) :
  (n <= length l)%nat → Forall is_u8 l →
  ∃ a b, l = a ++ b ∧ length a = n ∧ length b = (length l - n)%nat ∧ Forall is_u8 a ∧ Forall is_u8 b.
Proof.
  intros Hn Hl. exists (take n l), (drop n l). rewrite length_take, length_drop, take_drop.
  rewrite <- (take_drop n l) in Hl. apply Forall_app in Hl as [? ?]. split_and!; [done|lia|lia|done|done].
Qed.

(** ** [chunks_exact] *)

Lemma mjoin_cons {A} (l : list A) ls : mjoin (l :: ls) = l ++ mjoin ls.
Proof. done. Qed.

Lemma chunks_exact_fuel_join n ls : ∀ fuel,
  (0 < n)%nat → Forall (λ l, length l = n) ls → (length ls <= fuel)%nat →
  chunks_exact_fuel fuel n (mjoin ls) = ls.
Proof.
  induction ls as [|l ls IH]; intros fuel Hn Hls Hf.
  - destruct fuel; [done|]. cbn [chunks_exact_fuel mjoin list_join length]. destruct (_ <? _)%nat eqn:E; breflect; [done|lia].
  - apply Forall_cons in Hls as [Hl Hls]. destruct fuel as [|fuel]; cbn [length] in Hf; [lia|].
    cbn [chunks_exact_fuel]. rewrite mjoin_cons, length_app.
    destruct (_ <? _)%nat eqn:E; breflect; [lia|].
    rewrite <- Hl at 1 3. rewrite take_app_length, drop_app_length. f_equal. apply IH; [done|done|lia].
Qed.

Lemma length_join_fixed n (ls : list bytes) :
  Forall (λ l, length l = n) ls → length (mjoin ls) = (length ls * n)%nat.
Proof. induction 1 as [|l ls Hl _ IH]; [done|]. rewrite mjoin_cons, length_app. cbn [length]. lia. Qed.

Lemma chunks_exact_join n (ls : list bytes) :
  (0 < n)%nat → Forall (λ l, length l = n) ls → chunks_exact n (mjoin ls) = ls.
Proof.
  intros Hn Hls. apply chunks_exact_fuel_join; [done..|]. rewrite (length_join_fixed n) by done. nia.
Qed.

(** Every string of whole chunks is a join of chunks. *)
Lemma whole_chunks n k (l : bytes) :
  length l = (k * n)%nat → Forall is_u8 l → ∃ ls, l = mjoin ls ∧ length ls = k ∧ Forall (wf_arr n) ls.
Proof.
  revert l. induction k as [|k IH]; intros l Hl Hu.
  - exists []. by destruct l.
  - destruct (split_body n l ltac:(lia) Hu) as (a & b & -> & Ha & Hb & Hua & Hub).
    destruct (IH b) as (ls & -> & Hls & Hwf); [lia|done|].
    exists (a :: ls). split_and!; [done|cbn; lia|by constructor; [split|]].
Qed.

Lemma mapM_arr n ls : Forall (λ l, length l = n) ls → mapM (arr n) ls = Some ls.
Proof. induction 1 as [|l ls Hl _ IH]; [done|]. cbn. rewrite arr_exact by done. cbn. by rewrite IH. Qed.

Lemma Forall_join_u8 n ls : Forall (wf_arr n) ls → Forall is_u8 (mjoin ls).
Proof. induction 1 as [|l ls [_ Hl] _ IH]; [done|]. rewrite mjoin_cons. by apply Forall_app. Qed.

Lemma wf_arr_lengths n ls : Forall (wf_arr n) ls → Forall (λ l, length l = n) ls.
Proof. intros H. eapply Forall_impl; [exact H|]. by intros l [? _]. Qed.
#[local] Hint Resolve wf_arr_lengths : promtuz.

(** ** Ranges *)

Definition wf_range (range : ChunkRange) : Prop := is_uint 4 (r_start range) ∧ is_uint 4 (r_end range).

Lemma length_range_bytes range : length (range_bytes range) = 8%nat.
Proof. unfold range_bytes. by rewrite length_app, !length_le_bytes. Qed.

Lemma decode_range_bytes range : wf_range range → decode_range (range_bytes range) = Some range.
Proof.
  intros [Ha Hb]. unfold decode_range, range_bytes.
  rewrite (uint_at_app _ 0 4 [] (le_bytes 4 (r_start range)) (le_bytes 4 (r_end range))) by done.
  rewrite (uint_at_app _ 4 4 (le_bytes 4 (r_start range)) (le_bytes 4 (r_end range)) []) by (by rewrite ?app_nil_r).
  cbn. rewrite !le_val_le_bytes by done. by destruct range.
Qed.

Lemma decode_ranges ranges :
  Forall wf_range ranges → mapM decode_range (map range_bytes ranges) = Some ranges.
Proof. induction 1 as [|r rs Hr _ IH]; [done|]. cbn. rewrite decode_range_bytes by done. cbn. by rewrite IH. Qed.

Lemma range_of_bytes l : wf_arr 8 l → ∃ range, l = range_bytes range ∧ wf_range range.
Proof.
  intros [Hl Hu]. destruct (split_body 4 l ltac:(lia) Hu) as (a & b & -> & Ha & Hb & Hua & Hub).
  rewrite length_app in Hl, Hb. exists (mkRange (le_val a) (le_val b)). unfold range_bytes, wf_range. cbn.
  rewrite !le_bytes_le_val by (done || lia). split; [done|]. split; apply le_val_uint; (done || lia).
Qed.

Lemma ranges_of_chunks ls :
  Forall (wf_arr 8) ls → ∃ ranges, ls = map range_bytes ranges ∧ Forall wf_range ranges.
Proof.
  induction 1 as [|l ls Hl _ IH]; [by exists []|]. destruct IH as (rs & -> & Hrs).
  destruct (range_of_bytes l Hl) as (r & -> & Hr). exists (r :: rs). by split; [|constructor].
Qed.

Lemma chunks_of_ranges ranges : chunks_exact 8 (mjoin (map range_bytes ranges)) = map range_bytes ranges.
Proof.
  apply chunks_exact_join; [lia|]. apply Forall_fmap, Forall_forall. intros r _. apply length_range_bytes.
Qed.

Lemma length_ranges ranges : length (mjoin (map range_bytes ranges)) = (length ranges * 8)%nat.
Proof.
  rewrite (length_join_fixed 8); [by rewrite length_map|].
  apply Forall_fmap, Forall_forall. intros r _. apply length_range_bytes.
Qed.

(** ** The body codec *)

(** A frame whose fields have the width of their types. *)
Definition wf_frame (f : Frame) : Prop :=
  match f with
  | FHello h => is_uint 8 (supported h) ∧ is_uint 8 (required h) ∧ is_uint 2 (h_max_ranges h) ∧ is_uint 2 (h_max_chunks h)
  | FDescribe fid => wf_arr 32 fid
  | FManifest m => is_uint 8 (total_size m) ∧ is_uint 4 (chunk_size m) ∧ Forall (wf_arr 32) (chunks m)
  | FPull fid ranges => wf_arr 32 fid ∧ Forall wf_range ranges
  | FChunk index data => is_uint 4 index ∧ Forall is_u8 data
  | FComplete n => is_uint 4 n
  | FError _ => True
  | FDescribeShared fid grant => wf_arr 32 fid ∧ wf_arr 32 grant
  | FPullShared fid grant ranges => wf_arr 32 fid ∧ wf_arr 32 grant ∧ Forall wf_range ranges
  end.

Lemma reject_ok b e u : reject b e = Ok u ↔ b = false.
Proof. destruct b, u; cbn; naive_solver. Qed.

Lemma res_bind_ok {A B} (r : res A) (f : A → res B) b : res_bind r f = Ok b ↔ ∃ a, r = Ok a ∧ f a = Ok b.
Proof. destruct r; cbn; naive_solver. Qed.

(** The header of a known frame passes exactly with a length of its kind. *)
Lemma known_header kind l u : validate_header kind REQUIRED l = Ok u ↔ valid_len kind l = Some true.
Proof.
  unfold validate_header. cbn [Z.land REQUIRED]. change (Z.land 1 254 =? 0) with true.
  cbn. destruct (valid_len kind l) as [[]|], u; cbn; naive_solver.
Qed.

Lemma header_ok kind l : valid_len kind l = Some true → validate_header kind REQUIRED l = Ok tt.
Proof. by rewrite known_header. Qed.

(** Reads a field of a body whose parts are known. *)
Ltac field pre mid post :=
  lazymatch goal with
  | |- mbind _ (uint_at ?body ?a ?n) = _ => rewrite (uint_at_app body a n pre mid post)
  | |- mbind _ (sub ?body ?a ?n) = _ => rewrite (sub_at body a n pre mid post)
  end; [cbn [option_bind mbind] | rewrite ?app_nil_r, <- ?app_assoc, ?length_app; (done || cbn [length]; lia)..].

Section eval.
Context (a b c d : bytes).

(** The length the header is checked with. *)
Ltac known := rewrite header_ok; [cbn [Z.eqb Pos.eqb orb]|
  cbn [valid_len Z.eqb Pos.eqb]; autorewrite with promtuz; unfold len in *].

Lemma decode_hello :
  length a = 8%nat → length b = 8%nat → length c = 2%nat → length d = 2%nat →
  decode_body 1 (a ++ b ++ c ++ d) = Some (Ok (FHello (mkHello (le_val a) (le_val b) (le_val c) (le_val d)))).
Proof.
  intros Ha Hb Hc Hd. unfold decode_body. known; [|by rewrite Ha, Hb, Hc, Hd].
  field (@nil Z) a (b ++ c ++ d). field a b (c ++ d). field (a ++ b) c d. field (a ++ b ++ c) d (@nil Z). done.
Qed.

Lemma decode_describe : length a = 32%nat → decode_body 2 a = Some (Ok (FDescribe a)).
Proof. intros Ha. unfold decode_body. known; [|by rewrite Ha]. by rewrite arr_exact. Qed.

Lemma decode_describe_shared :
  length a = 32%nat → length b = 32%nat → decode_body 8 (a ++ b) = Some (Ok (FDescribeShared a b)).
Proof.
  intros Ha Hb. unfold decode_body. known; [|by rewrite Ha, Hb].
  field (@nil Z) a b. rewrite arr_exact by done. cbn [option_bind mbind]. field a b (@nil Z).
  by rewrite arr_exact.
Qed.

Lemma decode_manifest hs :
  length a = 8%nat → length b = 4%nat → length c = 4%nat → Forall (λ l, length l = 32%nat) hs →
  len hs * 32 + 16 <= MAX_MANIFEST →
  decode_body 3 (a ++ b ++ c ++ mjoin hs) =
    if negb (le_val c =? len hs) then Some (Err (InvalidFrame "attachment manifest count disagrees with length"))
    else if (le_val b =? 0) || (le_val b >? CHUNK_SIZE) || negb (le_val c =? div_ceil (le_val a) (le_val b)) then
      Some (Err (InvalidFrame "inconsistent attachment manifest"))
    else Some (Ok (FManifest (mkManifest (le_val a) (le_val b) hs))).
Proof.
  intros Ha Hb Hc Hh Hm. pose proof (length_join_fixed 32 hs Hh) as Hj.
  assert (len (a ++ b ++ c ++ mjoin hs) = len hs * 32 + 16) as Hlen.
  { autorewrite with promtuz. unfold len. rewrite Ha, Hb, Hc, Hj. lia. }
  unfold decode_body. rewrite Hlen, header_ok; cbn [Z.eqb Pos.eqb orb].
  2: { cbn [valid_len Z.eqb Pos.eqb]. unfold within. rewrite Z.add_simpl_r, Z.mod_mul by done.
       pose proof (len_nonneg hs). f_equal. rewrite !andb_true_iff. repeat split; lia. }
  field (@nil Z) a (b ++ c ++ mjoin hs). field a b (c ++ mjoin hs). field (a ++ b) c (mjoin hs).
  rewrite Z.add_simpl_r, Z.div_mul by done.
  destruct (negb (_ =? _)); [done|]. destruct (_ || _); [done|].
  field (a ++ b ++ c) (mjoin hs) (@nil Z).
  rewrite chunks_exact_join, mapM_arr by (done || lia). done.
Qed.

(** The common part of the two pulls. *)
Lemma decode_pull ranges :
  length a = 32%nat → length c = 2%nat → Forall wf_range ranges → 1 <= len ranges <= MAX_RANGES →
  decode_body 4 (a ++ c ++ mjoin (map range_bytes ranges)) =
    if negb (le_val c =? len ranges) then Some (Err (InvalidFrame "attachment range count disagrees with length"))
    else match check_ranges ranges max_limits with Err e => Some (Err e) | Ok _ => Some (Ok (FPull a ranges)) end.
Proof.
  intros Ha Hc Hr Hn. pose proof (length_ranges ranges) as Hj.
  assert (len (a ++ c ++ mjoin (map range_bytes ranges)) = 34 + len ranges * 8) as Hlen.
  { autorewrite with promtuz. unfold len. rewrite Ha, Hc, Hj. lia. }
  unfold decode_body. rewrite Hlen, header_ok; cbn [Z.eqb Pos.eqb orb].
  2: { cbn [valid_len Z.eqb Pos.eqb]. unfold within. rewrite Z.add_simpl_l, Z.mod_mul by done.
       f_equal. rewrite !andb_true_iff. unfold MAX_RANGES in *. repeat split; lia. }
  field (@nil Z) a (c ++ mjoin (map range_bytes ranges)). rewrite arr_exact by done. cbn [option_bind mbind].
  field a c (mjoin (map range_bytes ranges)).
  replace (34 + len ranges * 8 - Z.of_nat 32 - 2) with (len ranges * 8) by lia. rewrite Z.div_mul by done.
  destruct (negb (_ =? _)); [done|]. field (a ++ c) (mjoin (map range_bytes ranges)) (@nil Z).
  by rewrite chunks_of_ranges, decode_ranges by done.
Qed.

Lemma decode_pull_shared ranges :
  length a = 32%nat → length b = 32%nat → length c = 2%nat → Forall wf_range ranges →
  1 <= len ranges <= MAX_RANGES →
  decode_body 9 (a ++ b ++ c ++ mjoin (map range_bytes ranges)) =
    if negb (le_val c =? len ranges) then Some (Err (InvalidFrame "attachment range count disagrees with length"))
    else match check_ranges ranges max_limits with
         | Err e => Some (Err e) | Ok _ => Some (Ok (FPullShared a b ranges)) end.
Proof.
  intros Ha Hb Hc Hr Hn. pose proof (length_ranges ranges) as Hj.
  assert (len (a ++ b ++ c ++ mjoin (map range_bytes ranges)) = 66 + len ranges * 8) as Hlen.
  { autorewrite with promtuz. unfold len. rewrite Ha, Hb, Hc, Hj. lia. }
  unfold decode_body. rewrite Hlen, header_ok; cbn [Z.eqb Pos.eqb orb].
  2: { cbn [valid_len Z.eqb Pos.eqb]. unfold within. rewrite Z.add_simpl_l, Z.mod_mul by done.
       f_equal. rewrite !andb_true_iff. unfold MAX_RANGES in *. repeat split; lia. }
  field (@nil Z) a (b ++ c ++ mjoin (map range_bytes ranges)). rewrite arr_exact by done. cbn [option_bind mbind].
  field (a ++ b) c (mjoin (map range_bytes ranges)).
  replace (66 + len ranges * 8 - Z.of_nat 64 - 2) with (len ranges * 8) by lia. rewrite Z.div_mul by done.
  destruct (negb (_ =? _)); [done|]. field (a ++ b ++ c) (mjoin (map range_bytes ranges)) (@nil Z).
  rewrite chunks_of_ranges, decode_ranges by done. cbn [option_bind mbind].
  destruct (check_ranges _ _); [|done]. field a b (c ++ mjoin (map range_bytes ranges)).
  by rewrite arr_exact.
Qed.

Lemma decode_chunk :
  length a = 4%nat → len b <= CHUNK_SIZE → decode_body 5 (a ++ b) = Some (Ok (FChunk (le_val a) b)).
Proof.
  intros Ha Hb. unfold decode_body. known; [|unfold within; f_equal; apply andb_true_iff; split; lia].
  field (@nil Z) a b. by field a b (@nil Z).
Qed.

Lemma decode_complete : length a = 4%nat → decode_body 6 a = Some (Ok (FComplete (le_val a))).
Proof. intros Ha. unfold decode_body. known; [|by rewrite Ha]. by rewrite arr_exact. Qed.

Lemma decode_error :
  length a = 2%nat → decode_body 7 a = Some (code ⇐ try_from_code (le_val a); Ok (FError code)).
Proof. intros Ha. unfold decode_body. known; [|by rewrite Ha]. by rewrite arr_exact. Qed.
End eval.

(** ** Encoding inverts decoding *)

Lemma check_ranges_ok ranges limits n :
  check_ranges ranges limits = Ok n →
  1 <= len ranges <= max_ranges limits ∧ max_ranges limits <= MAX_RANGES ∧
  check_ranges_loop ranges 0 0 = Ok n ∧ n <= max_chunks limits ∧ max_chunks limits <= MAX_CHUNKS.
Proof.
  unfold check_ranges. rewrite res_bind_ok. intros ([] & H1%reject_ok & H).
  apply res_bind_ok in H as ([] & H2%reject_ok & H). apply res_bind_ok in H as (k & Hk & H).
  apply res_bind_ok in H as ([] & H3%reject_ok & [= ->]). breflect.
  pose proof (len_nonneg ranges). split_and!; [lia|lia|lia|done|lia|lia].
Qed.

Lemma encode_ok f kind body :
  encode_body f = Ok (kind, body) ↔
  ∃ l, frame_shape f = Ok (kind, l) ∧ valid_len kind l = Some true ∧ body = body_bytes f.
Proof.
  unfold encode_body. rewrite res_bind_ok. split.
  - intros ([k l] & Hs & H). apply res_bind_ok in H as ([] & Hh%known_header & [= <- <-]). eauto.
  - intros (l & Hs & Hh & ->). exists (kind, l). split; [done|]. by rewrite header_ok.
Qed.

Lemma decode_encode f kind body :
  wf_frame f → encode_body f = Ok (kind, body) → decode_body kind body = Some (Ok f).
Proof.
  intros Hwf (l & Hs & Hl & ->)%encode_ok. destruct f as [h|fid|m|fid rs|i data|n|code|fid g|fid g rs]; cbn [frame_shape] in Hs.
  - injection Hs as <- <-. destruct Hwf as (H1 & H2 & H3 & H4). cbn [body_bytes].
    rewrite decode_hello by apply length_le_bytes. rewrite !le_val_le_bytes by done. by destruct h.
  - injection Hs as <- <-. by apply decode_describe, wf_arr_length.
  - apply res_bind_ok in Hs as ([] & _ & Hs). apply res_bind_ok in Hs as ([] & Hm & [= <- <-]).
    destruct Hwf as (H1 & H2 & H3). cbn [body_bytes]. cbn in Hl. unfold within in Hl. injection Hl as Hl. breflect.
    rewrite decode_manifest by (apply length_le_bytes || auto with promtuz).
    assert (is_uint 4 (len (chunks m))) by (unfold is_uint, MAX_MANIFEST in *; pose proof (len_nonneg (chunks m)); lia).
    rewrite !le_val_le_bytes by done. rewrite Z.eqb_refl. cbn [negb]. unfold validate_manifest in Hm.
    apply reject_ok in Hm. rewrite Hm. by destruct m.
  - apply res_bind_ok in Hs as (n & Hc & [= <- <-]). destruct Hwf as [[Hf _] Hr]. cbn [body_bytes].
    pose proof (check_ranges_ok _ _ _ Hc) as (Hn & _). cbn in Hn.
    rewrite decode_pull by (apply length_le_bytes || done).
    rewrite le_val_le_bytes by (unfold is_uint, MAX_RANGES in *; lia). by rewrite Z.eqb_refl, Hc.
  - apply res_bind_ok in Hs as ([] & _ & [= <- <-]). destruct Hwf as [Hi Hd]. cbn [body_bytes].
    cbn in Hl. unfold within in Hl. injection Hl as Hl. breflect.
    rewrite decode_chunk by (apply length_le_bytes || lia). by rewrite le_val_le_bytes.
  - injection Hs as <- <-. cbn [body_bytes]. rewrite decode_complete by apply length_le_bytes.
    by rewrite le_val_le_bytes.
  - injection Hs as <- <-. cbn [body_bytes]. rewrite decode_error by apply length_le_bytes.
    rewrite le_val_le_bytes by by destruct code. by destruct code.
  - injection Hs as <- <-. destruct Hwf as [[? _] [? _]]. by apply decode_describe_shared.
  - apply res_bind_ok in Hs as (n & Hc & [= <- <-]). destruct Hwf as ([Hf _] & [Hg _] & Hr). cbn [body_bytes].
    pose proof (check_ranges_ok _ _ _ Hc) as (Hn & _). cbn in Hn.
    rewrite decode_pull_shared by (apply length_le_bytes || done).
    rewrite le_val_le_bytes by (unfold is_uint, MAX_RANGES in *; lia). by rewrite Z.eqb_refl, Hc.
Qed.

(** A decoded body that a frame would write decodes to that frame only. *)
Lemma encode_of_parts f kind body l :
  wf_frame f → frame_shape f = Ok (kind, l) → valid_len kind l = Some true → body = body_bytes f →
  wf_frame f ∧ encode_body f = Ok (kind, body).
Proof. intros. split; [done|]. apply encode_ok. eauto. Qed.

Lemma valid_len_kind kind l : valid_len kind l = Some true → 1 <= kind <= 9.
Proof. unfold valid_len. intros H. repeat (destruct (_ =? _) eqn:E in H; [breflect; lia|clear E]). done. Qed.

(** What the decoder of one kind promises on a body of a valid length: it answers, and
    a frame it answers encodes to the body. *)
Definition decodes_back (kind : Z) (body : bytes) : Prop :=
  ∃ x, decode_body kind body = Some x ∧ ∀ f, x = Ok f → wf_frame f ∧ encode_body f = Ok (kind, body).

Lemma back_ok kind body f :
  decode_body kind body = Some (Ok f) → wf_frame f → frame_shape f = Ok (kind, len body) →
  valid_len kind (len body) = Some true → body = body_bytes f → decodes_back kind body.
Proof. intros Hd Hwf Hs Hl Hb. eexists. split; [exact Hd|]. intros ? [= <-]. by eapply encode_of_parts. Qed.

Lemma back_err kind body e : decode_body kind body = Some (Err e) → decodes_back kind body.
Proof. intros Hd. eexists. split; [exact Hd|done]. Qed.

Ltac cut_at n body := lazymatch goal with
  | Hu : Forall is_u8 body |- _ =>
      destruct (split_body n body ltac:(lia) Hu) as (?a & ?b & -> & ?Ha & ?Hb & ?Hua & ?Hub); clear Hu
  end.

(** Rebuilds the integer fields of a body. *)
Ltac rebuild := cbn; rewrite ?le_bytes_le_val by (done || lia); done.

Lemma back_fixed kind body :
  Forall is_u8 body → valid_len kind (len body) = Some true → kind = 1 ∨ kind = 2 ∨ kind = 6 ∨ kind = 8 →
  decodes_back kind body.
Proof.
  intros Hu Hl Hk. pose proof Hl as Hl'. unfold len in Hl.
  destruct Hk as [->|[->|[->| ->]]]; cbn in Hl; injection Hl as Hl; breflect.
  - cut_at 8%nat body. cut_at 8%nat b. cut_at 2%nat b0. rewrite !length_app in *.
    eapply back_ok; [apply decode_hello; lia| | |exact Hl'|rebuild].
    + cbn. split_and!; apply le_val_uint; (done || lia).
    + cbn. f_equal. f_equal. unfold len. rewrite !length_app. lia.
  - eapply back_ok; [apply decode_describe; lia|split; [lia|done]| |exact Hl'|done].
    cbn. f_equal. f_equal. unfold len. lia.
  - eapply back_ok; [apply decode_complete; lia|apply le_val_uint; (done || lia)| |exact Hl'|rebuild].
    cbn. f_equal. f_equal. unfold len. lia.
  - cut_at 32%nat body. rewrite !length_app in *.
    eapply back_ok; [apply decode_describe_shared; lia|split; split; (done || lia)| |exact Hl'|done].
    cbn. f_equal. f_equal. unfold len. rewrite !length_app. lia.
Qed.

Lemma back_chunk body :
  Forall is_u8 body → valid_len 5 (len body) = Some true → decodes_back 5 body.
Proof.
  intros Hu Hl. pose proof Hl as Hl'. cbn in Hl. unfold within, len in Hl. injection Hl as Hl. breflect.
  cut_at 4%nat body. rewrite !length_app in *.
  eapply back_ok; [apply decode_chunk; unfold len; lia| |cbn|exact Hl'|rebuild].
  - split; [apply le_val_uint; (done || lia)|done].
  - unfold reject, u64_max, CHUNK_SIZE in *. destruct (_ >? _) eqn:E; breflect; [unfold len in *; lia|].
    cbn. f_equal. f_equal. unfold len. rewrite length_app. lia.
Qed.

Lemma back_error body :
  Forall is_u8 body → valid_len 7 (len body) = Some true → decodes_back 7 body.
Proof.
  intros Hu Hl. pose proof Hl as Hl'. cbn in Hl. unfold len in Hl. injection Hl as Hl. breflect.
  assert (length body = 2%nat) as H2 by lia. pose proof (decode_error body H2) as Hd.
  pose proof (le_bytes_le_val 2 body H2 Hu) as Hb. unfold try_from_code in Hd.
  repeat match type of Hd with context [if ?c then _ else _] => destruct c eqn:?; breflect end; try (by eapply back_err).
  all: eapply back_ok; [exact Hd|done|cbn; f_equal; f_equal; unfold len; lia|exact Hl'|].
  all: cbn [body_bytes code_u16]; rewrite <- Hb at 1; by f_equal.
Qed.

Lemma back_manifest body :
  Forall is_u8 body → valid_len 3 (len body) = Some true → decodes_back 3 body.
Proof.
  intros Hu Hl. pose proof Hl as Hl'. cbn in Hl. unfold within in Hl. injection Hl as Hl.
  apply andb_true_iff in Hl as [Hl Hm]. apply Z.eqb_eq, Z.mod_divide in Hm as [q Hq]; [|done]. breflect.
  unfold len in *. cut_at 8%nat body. cut_at 4%nat b. cut_at 4%nat b0.
  rewrite !length_app in *.
  assert (∃ k, length b = (k * 32)%nat) as [k Hk].
  { exists (Z.to_nat q). lia. }
  destruct (whole_chunks 32 k b Hk Hub) as (hs & -> & Hn & Hwf).
  pose proof (decode_manifest a a0 a1 hs Ha Ha0 Ha1 ltac:(auto with promtuz) ltac:(unfold len; lia)) as Hd.
  destruct (negb _) eqn:E1 in Hd; [by eapply back_err|]. destruct (_ || _) eqn:E2 in Hd; [by eapply back_err|].
  apply negb_false_iff, Z.eqb_eq in E1. rewrite E1 in E2.
  eapply back_ok; [exact Hd| | |unfold len; rewrite !length_app; exact Hl'|].
  - cbn. split_and!; [apply le_val_uint; (done || lia)..|done].
  - cbn [frame_shape]. unfold validate_manifest. cbn [chunk_size chunks total_size]. rewrite E2. unfold reject.
    destruct (_ + 16 >? _) eqn:E; breflect; [unfold u64_max, len, MAX_MANIFEST in *; lia|].
    cbn [res_bind]. f_equal. f_equal. unfold len. rewrite !length_app. lia.
  - cbn [body_bytes total_size chunk_size chunks]. rewrite <- E1, !le_bytes_le_val by (done || lia). done.
Qed.

(** The ranges of a pull: their count field, and whole ranges up to the end. *)
Lemma split_ranges (b : bytes) (q : Z) :
  Forall is_u8 b → len b = 2 + q * 8 → 1 <= q →
  ∃ c ranges, b = c ++ mjoin (map range_bytes ranges) ∧ wf_arr 2 c ∧ Forall wf_range ranges ∧ len ranges = q.
Proof.
  intros Hu Hl Hq. unfold len in *. cut_at 2%nat b. rewrite length_app in *.
  destruct (whole_chunks 8 (Z.to_nat q) b0 ltac:(lia) ltac:(done)) as (ls & -> & Hn & Hwf).
  destruct (ranges_of_chunks ls Hwf) as (ranges & -> & Hr). rewrite length_map in Hn.
  exists a, ranges. split_and!; [done|done|done|lia].
Qed.

Lemma back_pull body :
  Forall is_u8 body → valid_len 4 (len body) = Some true → decodes_back 4 body.
Proof.
  intros Hu Hl. pose proof Hl as Hl'. cbn in Hl. unfold within in Hl. injection Hl as Hl.
  apply andb_true_iff in Hl as [Hl Hm]. apply Z.eqb_eq, Z.mod_divide in Hm as [q Hq]; [|done]. breflect.
  unfold MAX_RANGES, len in *. cut_at 32%nat body. rewrite length_app in *.
  destruct (split_ranges b q Hub ltac:(unfold len; lia) ltac:(lia)) as (c & rs & -> & [Hc Huc] & Hr & Hn).
  pose proof (decode_pull a c rs Ha Hc Hr ltac:(unfold MAX_RANGES; lia)) as Hd.
  destruct (negb _) eqn:E1 in Hd; [by eapply back_err|]. destruct (check_ranges _ _) as [n|e] eqn:E2; [|by eapply back_err].
  apply negb_false_iff, Z.eqb_eq in E1.
  eapply back_ok; [exact Hd|by split; [split|]| |unfold len; rewrite length_app; exact Hl'|].
  - cbn [frame_shape]. rewrite E2. cbn [res_bind]. f_equal. f_equal. unfold len in *. rewrite length_app. lia.
  - cbn [body_bytes]. by rewrite <- E1, le_bytes_le_val.
Qed.

Lemma back_pull_shared body :
  Forall is_u8 body → valid_len 9 (len body) = Some true → decodes_back 9 body.
Proof.
  intros Hu Hl. pose proof Hl as Hl'. cbn in Hl. unfold within in Hl. injection Hl as Hl.
  apply andb_true_iff in Hl as [Hl Hm]. apply Z.eqb_eq, Z.mod_divide in Hm as [q Hq]; [|done]. breflect.
  unfold MAX_RANGES, len in *. cut_at 32%nat body. cut_at 32%nat b. rewrite !length_app in *.
  destruct (split_ranges b0 q ltac:(done) ltac:(unfold len; lia) ltac:(lia)) as (c & rs & -> & [Hc Huc] & Hr & Hn).
  pose proof (decode_pull_shared a a0 c rs Ha Ha0 Hc Hr ltac:(unfold MAX_RANGES; lia)) as Hd.
  destruct (negb _) eqn:E1 in Hd; [by eapply back_err|]. destruct (check_ranges _ _) as [n|e] eqn:E2; [|by eapply back_err].
  apply negb_false_iff, Z.eqb_eq in E1.
  eapply back_ok; [exact Hd|by split; [split|split; [split|]]| |unfold len; rewrite !length_app in *; exact Hl'|].
  - cbn [frame_shape]. rewrite E2. cbn [res_bind]. f_equal. f_equal. unfold len in *. rewrite !length_app in *. lia.
  - cbn [body_bytes]. by rewrite <- E1, le_bytes_le_val.
Qed.

Lemma decode_back kind body : Forall is_u8 body → decodes_back kind body.
Proof.
  intros Hu. destruct (validate_header kind REQUIRED (len body)) as [u|e] eqn:Hh.
  2: { eapply back_err. unfold decode_body. by rewrite Hh. }
  apply known_header in Hh. pose proof (valid_len_kind _ _ Hh).
  assert (kind = 1 ∨ kind = 2 ∨ kind = 3 ∨ kind = 4 ∨ kind = 5 ∨ kind = 6 ∨ kind = 7 ∨ kind = 8 ∨ kind = 9)
    as Hk by lia.
  destruct Hk as [->|[->|[->|[->|[->|[->|[->|[->| ->]]]]]]]].
  all: first [apply back_fixed; [done|done|tauto]|by apply back_manifest|by apply back_pull|by apply back_chunk
             |by apply back_error|by apply back_pull_shared].
Qed.

(** C31: The body codec is exact.  Whatever bytes a peer sends under whatever kind,
    decoding answers (no slice or conversion panics), and it answers a frame exactly
    when the body is the one encoding of that frame: a well-formed frame survives the
    trip, and nothing but its own encoding decodes to it. *)
Theorem frame_codec_exact kind body :
  Forall is_u8 body →
  is_Some (decode_body kind body) ∧
  ∀ f, decode_body kind body = Some (Ok f) ↔ wf_frame f ∧ encode_body f = Ok (kind, body).
Proof.
  intros Hu. destruct (decode_back kind body Hu) as (x & Hd & Hx). rewrite Hd. split; [done|]. intros f. split.
  - intros [= ->]. by apply Hx.
  - intros [Hwf He]. rewrite <- Hd. by apply decode_encode.
Qed.

(** ** The framed stream *)

(** The largest body of the frames a phase accepts. *)
Definition phase_limit (phase : ReadPhase) : Z :=
  match phase with
  | PhHello => 20
  | PhRequest => 66 + 8 * MAX_RANGES
  | PhManifest => MAX_MANIFEST
  | PhChunk => 4 + CHUNK_SIZE
  | PhComplete => 4
  end.

Lemma accepted_body phase kind l :
  accepts phase kind = true → valid_len kind l = Some true → 0 <= l <= phase_limit phase.
Proof.
  unfold accepts, valid_len, within. intros Ha Hl. apply orb_true_iff in Ha.
  destruct phase; cbn [phase_limit]; unfold MAX_RANGES, MAX_MANIFEST, CHUNK_SIZE in *;
    rewrite ?orb_true_iff in Ha; repeat destruct Ha as [Ha|Ha]; apply Z.eqb_eq in Ha; subst kind;
    cbn in Hl; injection Hl as Hl; breflect; lia.
Qed.

Lemma read_exact_ok n r got r' :
  0 <= n → read_exact n r = Ok (got, r') →
  len got = n ∧ sent r = got ++ sent r' ∧ ending r' = ending r.
Proof.
  intros Hn. unfold read_exact. destruct (_ <=? _) eqn:E; breflect; [|by destruct (ending r)].
  intros [= <- <-]. cbn. rewrite take_drop. unfold len in *. rewrite length_take. split_and!; [lia|done|done].
Qed.

Lemma read_exact_app n got rest e : n = len got → read_exact n (mkStream (got ++ rest) e) = Ok (got, mkStream rest e).
Proof.
  intros ->. unfold read_exact. cbn. autorewrite with promtuz. pose proof (len_nonneg rest).
  destruct (_ <=? _) eqn:E; breflect; [|lia]. unfold len. by rewrite Nat2Z.id, take_app_length, drop_app_length.
Qed.

(** The fields of a header. *)
Lemma header_fields (header : bytes) :
  len header = HEADER_LEN → Forall is_u8 header →
  ∃ k f l, uint_at header 0 2 = Some k ∧ header !! 2%nat = Some f ∧ uint_at header 3 4 = Some l ∧
           is_uint 2 k ∧ is_u8 f ∧ is_uint 4 l.
Proof.
  unfold len, HEADER_LEN. intros Hl Hu. cut_at 2%nat header. cut_at 1%nat b. rewrite !length_app in *.
  destruct a0 as [|f [|]]; [done| |done]. apply Forall_cons in Hua0 as [Hf _].
  exists (le_val a), f, (le_val b0). split_and!.
  - by apply (uint_at_app _ 0 2 [] a ([f] ++ b0)).
  - rewrite lookup_app_r by lia. by rewrite Ha.
  - apply (uint_at_app _ 3 4 (a ++ [f]) b0 []); rewrite ?app_nil_r, <- ?app_assoc, ?length_app; (done || cbn [length] in *; lia).
  - by apply le_val_uint.
  - done.
  - apply le_val_uint; [cbn [length] in *; lia|done].
Qed.

Lemma optional_header kind flags l :
  validate_header kind flags l = Ok tt → within 1 9 kind = false → l <= MAX_OPTIONAL_BODY.
Proof.
  unfold validate_header. intros H Hk. apply res_bind_ok in H as ([] & _ & H).
  destruct (valid_len kind l) eqn:Hv.
  - exfalso. unfold valid_len in Hv. unfold within in Hk. apply andb_false_iff in Hk.
    repeat (destruct (_ =? _) eqn:E in Hv; [destruct Hk; breflect; lia|clear E]). done.
  - apply res_bind_ok in H as ([] & _ & H). apply reject_ok in H. breflect. lia.
Qed.

Lemma known_len kind flags l :
  validate_header kind flags l = Ok tt → within 1 9 kind = true → valid_len kind l = Some true.
Proof.
  unfold validate_header. intros H Hk. apply res_bind_ok in H as ([] & _ & H).
  destruct (valid_len kind l) as [[]|] eqn:Hv; [done|by apply res_bind_ok in H as ([] & _ & ?)|].
  exfalso. unfold valid_len in Hv. unfold within in Hk. breflect.
  repeat (destruct (_ =? _) eqn:?E in Hv; [done|]). breflect. lia.
Qed.

(** What a read of a frame may do to a stream: answer, with a frame of the phase and
    at most [bound] bytes gone. *)
Definition reads_within (phase : ReadPhase) (bound : Z) (r : RecvStream) (x : option (res (Frame * RecvStream))) : Prop :=
  match x with
  | None => False
  | Some (Err _) => True
  | Some (Ok (f, r')) =>
      ∃ gone kind body, sent r = gone ++ sent r' ∧ ending r' = ending r ∧ len gone <= bound ∧
      wf_frame f ∧ encode_body f = Ok (kind, body) ∧ accepts phase kind = true
  end.

Lemma read_frame_within phase budget : ∀ r,
  Forall is_u8 (sent r) →
  reads_within phase (Z.of_nat budget * (HEADER_LEN + MAX_OPTIONAL_BODY) + HEADER_LEN + phase_limit phase) r
    (read_frame_loop budget (Some phase) r).
Proof.
  induction budget as [|budget IH]; intros r Hu; cbn [read_frame_loop];
    (destruct (read_exact HEADER_LEN r) as [[header r1]|] eqn:Hr1; [|done]);
    apply read_exact_ok in Hr1 as (Hl1 & Hs1 & He1); [|done| |done];
    rewrite Hs1 in Hu; apply Forall_app in Hu as [Hu1 Hu2];
    destruct (header_fields header Hl1 Hu1) as (k & f & l & -> & -> & -> & Hk & Hf & Hl); cbn [mbind option_bind];
    (destruct (validate_header k f l) as [[]|] eqn:Hh; [|done]);
    destruct (within 1 9 k) eqn:Hw; cbn [negb].
  2: done.
  3: { destruct (read_exact l r1) as [[ign r2]|] eqn:Hr2; [|done].
       apply read_exact_ok in Hr2 as (Hl2 & Hs2 & He2); [|unfold is_uint in Hl; lia].
       rewrite Hs2 in Hu2. apply Forall_app in Hu2 as [_ Hu2]. specialize (IH r2 Hu2).
       pose proof (optional_header _ _ _ Hh Hw). unfold reads_within in *.
       destruct (read_frame_loop budget (Some phase) r2) as [[[fr r3]|]|]; [|done|done].
       destruct IH as (gone & kind & body & Hg & He & Hb & ? & ? & ?). exists (header ++ ign ++ gone), kind, body.
       rewrite Hs1, Hs2, Hg, <- !app_assoc. autorewrite with promtuz. split_and!; [done|congruence| |done..].
       unfold HEADER_LEN, MAX_OPTIONAL_BODY in *. lia. }
  all: destruct (accepts phase k) eqn:Ha; cbn [negb]; [|done].
  all: destruct (read_exact l r1) as [[body r2]|] eqn:Hr2; [|done].
  all: apply read_exact_ok in Hr2 as (Hl2 & Hs2 & He2); [|unfold is_uint in Hl; lia].
  all: rewrite Hs2 in Hu2; apply Forall_app in Hu2 as [Hub _].
  all: destruct (decode_back k body Hub) as ([fr|] & -> & Hback); [|done]; cbn.
  all: destruct (Hback fr eq_refl) as [Hwf Henc].
  all: pose proof (accepted_body phase k l Ha (known_len _ _ _ Hh Hw)).
  all: exists (header ++ body), k, body; rewrite Hs1, Hs2, <- app_assoc; autorewrite with promtuz.
  all: split_and!; [done|congruence| |done|done|done].
  all: unfold HEADER_LEN, MAX_OPTIONAL_BODY in *; lia.
Qed.

(** Reading a frame is safe and bounded.  Whatever a peer sends, the reader of a
    phase answers without panicking; a frame it answers is well-formed, is one the
    phase accepts, and costs at most sixteen skipped optional frames of at most 1031
    bytes, a header and the largest body of the phase. *)
Theorem read_frame_bounded phase r :
  Forall is_u8 (sent r) →
  reads_within phase (16 * (HEADER_LEN + MAX_OPTIONAL_BODY) + HEADER_LEN + phase_limit phase) r (read_frame_for phase r).
Proof. apply (read_frame_within phase MAX_OPTIONAL_FRAMES). Qed.

Lemma decoded_len kind body f : decode_body kind body = Some (Ok f) → valid_len kind (len body) = Some true.
Proof.
  unfold decode_body. destruct (validate_header kind REQUIRED (len body)) as [u|] eqn:Hh; [|done].
  intros _. by apply known_header in Hh.
Qed.

Lemma valid_len_bound kind l : valid_len kind l = Some true → 0 <= l <= MAX_MANIFEST.
Proof.
  unfold valid_len, within, MAX_MANIFEST, MAX_RANGES, CHUNK_SIZE. intros H.
  repeat (destruct (_ =? _) eqn:?E in H; [injection H as H; breflect; lia|]). done.
Qed.

(** A frame written to a stream is the next one read from it, with what follows left. *)
Lemma written_frame_read phase f kind body rest e :
  wf_frame f → encode_body f = Ok (kind, body) → accepts phase kind = true →
  ∃ b, write_frame_to f = Ok b ∧ read_frame_for phase (mkStream (b ++ rest) e) = Some (Ok (f, mkStream rest e)).
Proof.
  intros Hwf Henc Ha. pose proof (decode_encode f kind body Hwf Henc) as Hd.
  pose proof (decoded_len _ _ _ Hd) as Hl. pose proof (valid_len_kind _ _ Hl). pose proof (valid_len_bound _ _ Hl).
  unfold write_frame_to. rewrite Henc. cbn [res_bind]. eexists. split; [done|].
  set (header := le_bytes 2 kind ++ [REQUIRED] ++ le_bytes 4 (len body)).
  replace ((le_bytes 2 kind ++ [REQUIRED] ++ le_bytes 4 (len body) ++ body) ++ rest)
    with (header ++ body ++ rest) by (unfold header; by rewrite <- !app_assoc).
  unfold read_frame_for, MAX_OPTIONAL_FRAMES, read_frame_loop.
  rewrite (read_exact_app HEADER_LEN) by (unfold header, len; by rewrite !length_app, !length_le_bytes).
  rewrite (uint_at_app header 0 2 [] (le_bytes 2 kind) ([REQUIRED] ++ le_bytes 4 (len body))) by done.
  rewrite (uint_at_app header 3 4 (le_bytes 2 kind ++ [REQUIRED]) (le_bytes 4 (len body)) [])
    by (unfold header; rewrite ?app_nil_r, <- ?app_assoc, ?length_app; done).
  rewrite !le_val_le_bytes by (unfold is_uint, MAX_MANIFEST in *; lia). cbn [mbind option_bind].
  assert (header !! 2%nat = Some REQUIRED) as ->.
  { unfold header. rewrite lookup_app_r; rewrite length_le_bytes; [done|lia]. }
  cbn [mbind option_bind]. rewrite header_ok by done.
  assert (within 1 9 kind = true) as -> by (unfold within; apply andb_true_iff; split; lia).
  cbn [negb]. rewrite Ha. cbn [negb]. rewrite read_exact_app by done. rewrite Hd. done.
Qed.
