(* ===== verification/Partials.v ===== *)
(** * Partials: what a client keeps about its downloads

    libcore/src/transfer/store.rs: the [partials] and [retention] tables, the files
    they name, and the registry of live receivers whose cancellation guards them.  A
    file is a name for an inode, so a handle outlives the name it was opened by.

    SQLite and the file system may fail at any call: a fallible operation takes what
    the environment answers. *)

From S2P Require Import Prelude Bytes Crypto Keyspace Attachment.

(** ** States of a download *)
Definition PENDING : Z := 0.
Definition ACTIVE : Z := 1.
Definition DONE : Z := 2.
Definition FAILED : Z := 3.
Definition HELD : Z := 4.
Definition CONNECTING : Z := 5.

Record Retention := mkRetention {
  ret_path : bytes;
  ret_size : Z;
  ret_chunk_size : Z;
  ret_manifest : bytes;
  ret_expires_at : Z;
}.

Record Partial := mkPartial {
  p_file_id : bytes;
  p_source_ipk : bytes;
  p_total : Z;
  p_chunk_size : Z;
  p_manifest : option bytes;
  p_have : Z;
  p_state : Z;
  p_path : bytes;
  p_updated_at : Z;
}.

(** A row of [partials]: the columns of a [Partial] and the ones the migrations added. *)
Record PartialRow := mkRow {
  row : Partial;
  last_wake_at : Z;
  row_retry_after : Z;
  wake_pending : bool;
  row_verified : option bytes;
}.

(** The transfers database, the files under it and the receivers of [Transfers].
    A cancellation token is a number; [cancelled] holds the fired ones. *)
Record Core := mkCore {
  partials : gmap bytes PartialRow;
  retention : gmap bytes Retention;
  names : gmap bytes Z;
  inodes : gmap Z bytes;
  next_inode : Z;
  receivers : gmap bytes Z;
  cancelled : gset Z;
  next_token : Z;
}.

Definition set_partials (f : gmap bytes PartialRow → gmap bytes PartialRow) (c : Core) : Core :=
  mkCore (f (partials c)) (retention c) (names c) (inodes c) (next_inode c) (receivers c) (cancelled c) (next_token c).
Definition set_retention (f : gmap bytes Retention → gmap bytes Retention) (c : Core) : Core :=
  mkCore (partials c) (f (retention c)) (names c) (inodes c) (next_inode c) (receivers c) (cancelled c) (next_token c).
Definition set_inodes (f : gmap Z bytes → gmap Z bytes) (c : Core) : Core :=
  mkCore (partials c) (retention c) (names c) (f (inodes c)) (next_inode c) (receivers c) (cancelled c) (next_token c).

(** ** Files *)

Definition hex_digit (d : Z) : Z := if d <? 10 then 48 + d else 87 + d.

(** [hex::encode] *)
Definition hex (l : bytes) : bytes := l ≫= λ b, [hex_digit (b / 16); hex_digit (b mod 16)].

(** [partial_path]; [dir] is [db.files_dir("transfers")]. *)
Definition partial_path (dir fid : bytes) : bytes := dir ++ str "/" ++ hex fid ++ str ".part".

(** [std::fs::remove_file], its error dropped. *)
Definition remove_file (path : bytes) (c : Core) : Core :=
  mkCore (partials c) (retention c) (delete path (names c)) (inodes c) (next_inode c) (receivers c) (cancelled c) (next_token c).

(** [OpenOptions::create(true).truncate(false)] *)
Definition open_file (path : bytes) (c : Core) : Core * Z :=
  match names c !! path with
  | Some ino => (c, ino)
  | None =>
      let ino := next_inode c in
      (mkCore (partials c) (retention c) (<[path := ino]> (names c)) (<[ino := []]> (inodes c)) (ino + 1)
         (receivers c) (cancelled c) (next_token c), ino)
  end.

Definition content (c : Core) (ino : Z) : bytes := default [] (inodes c !! ino).

(** The bytes of [[off, off + n)], fewer at the end of the file. *)
Definition slice (off n : Z) (f : bytes) : bytes := take (Z.to_nat n) (drop (Z.to_nat off) f).

(** [set_len]: cuts the file or fills it with zeros. *)
Definition set_len (n : Z) (f : bytes) : bytes :=
  take (Z.to_nat n) f ++ replicate (Z.to_nat n - length f) 0.

(** [seek] and [write_all]: writing past the end leaves a hole of zeros. *)
Definition write_at (off : Z) (data f : bytes) : bytes :=
  set_len off f ++ data ++ drop (Z.to_nat (off + len data)) f.

(** [Partial::is_complete] *)
Definition is_complete (c : Core) (p : Partial) : bool :=
  (p_state p =? DONE) && bool_decide (is_Some (names c !! p_path p)).

(** ** Leases *)

Record ReceiverLease := mkLease { l_file_id : bytes; l_cancel : Z }.

Definition is_cancelled (c : Core) (token : Z) : bool := bool_decide (token ∈ cancelled c).

Definition cancel (token : Z) (c : Core) : Core :=
  mkCore (partials c) (retention c) (names c) (inodes c) (next_inode c) (receivers c) ({[token]} ∪ cancelled c) (next_token c).

(** [receiver_lease]: a fresh token, and the previous receiver of the file stops. *)
Definition receiver_lease (c : Core) (fid : bytes) : Core * ReceiverLease :=
  let token := next_token c in
  let c' := match receivers c !! fid with Some previous => cancel previous c | None => c end in
  (mkCore (partials c') (retention c') (names c') (inodes c') (next_inode c') (<[fid := token]> (receivers c'))
     (cancelled c') (token + 1), mkLease fid token).

(** [Drop for ReceiverOwner] *)
Definition drop_lease (lease : ReceiverLease) (c : Core) : Core :=
  if bool_decide (receivers c !! l_file_id lease = Some (l_cancel lease)) then
    mkCore (partials c) (retention c) (names c) (inodes c) (next_inode c) (delete (l_file_id lease) (receivers c))
      (cancelled c) (next_token c)
  else c.

(** [ensure_live] *)
Definition ensure_live (c : Core) (lease : ReceiverLease) : res unit :=
  reject (is_cancelled c (l_cancel lease)) Cancelled.

(** ** The tables *)

(** [retention_put_tx]: [INSERT OR REPLACE] *)
Definition retention_put_tx (fid : bytes) (r : Retention) (c : Core) : Core := set_retention <[fid := r]> c.
Definition retention_get_tx (c : Core) (fid : bytes) : option Retention := retention c !! fid.
Definition retention_file_ids_tx (c : Core) : list bytes := (map_to_list (retention c)).*1.

Definition partial_get_tx (c : Core) (fid : bytes) : option Partial := row <$> partials c !! fid.

(** [partial_put_locked]: an upsert that leaves the columns it does not name. *)
Definition partial_put_locked (p : Partial) (c : Core) : Core :=
  let upserted := match partials c !! p_file_id p with
    | None => mkRow p 0 0 false None
    | Some old => mkRow p (last_wake_at old) (row_retry_after old) (wake_pending old) (row_verified old)
    end in
  set_partials <[p_file_id p := upserted]> c.

(** [partial_put_live_tx]; [db] is whether SQLite accepts the write. *)
Definition partial_put_live_tx (db : bool) (p : Partial) (lease : ReceiverLease) (c : Core) : Core * res unit :=
  match ensure_live c lease with
  | Err e => (c, Err e)
  | Ok _ => if db then (partial_put_locked p c, Ok tt) else (c, Err Sql)
  end.

(** [verified_bitmap_tx] *)
Definition verified_bitmap_tx (c : Core) (fid : bytes) : option bytes :=
  r ← partials c !! fid; bits ← row_verified r;
  Some (if len bits >? 32768 then [] else bits).

(** [partial_put_verified_locked]: one transaction. *)
Definition partial_put_verified_locked (p : Partial) (verified : bytes) (c : Core) : Core :=
  set_partials (alter (λ r, mkRow (row r) (last_wake_at r) (row_retry_after r) (wake_pending r) (Some verified)) (p_file_id p))
    (partial_put_locked p c).

Definition partial_put_verified_live_tx (db : bool) (p : Partial) (verified : bytes) (lease : ReceiverLease) (c : Core) :
    Core * res unit :=
  match ensure_live c lease with
  | Err e => (c, Err e)
  | Ok _ =>
      if negb (bool_decide (p_file_id p = l_file_id lease)) then
        (c, Err (Other "receiver lease belongs to another file"))
      else if db then (partial_put_verified_locked p verified c, Ok tt) else (c, Err Sql)
  end.

Definition set_progress (have state updated_at : Z) (verified : bytes) (r : PartialRow) : PartialRow :=
  let p := row r in
  mkRow (mkPartial (p_file_id p) (p_source_ipk p) (p_total p) (p_chunk_size p) (p_manifest p) have state (p_path p) updated_at)
    (last_wake_at r) (row_retry_after r) (wake_pending r) (Some verified).

(** [partial_progress_verified_live_tx]: an update, so no row is reinserted. *)
Definition partial_progress_verified_live_tx (db : bool) (fid : bytes) (have state updated_at : Z) (verified : bytes)
    (lease : ReceiverLease) (c : Core) : Core * res unit :=
  match ensure_live c lease with
  | Err e => (c, Err e)
  | Ok _ =>
      if negb (bool_decide (fid = l_file_id lease)) then
        (c, Err (Other "receiver lease belongs to another file"))
      else if negb db then (c, Err Sql)
      else match partials c !! fid with
      | None => (c, Err Sql)
      | Some _ => (set_partials (alter (set_progress have state updated_at verified) fid) c, Ok tt)
      end
  end.

(** [u8::count_ones] *)
Definition count_ones (b : Z) : Z := Z.of_nat (length (filter (λ i, Z.testbit b i = true) (seqZ 0 8))).

(** [verified_count_tx] *)
Definition verified_count_tx (c : Core) (p : Partial) : Z :=
  let n := div_ceil (p_total p) (Z.max (p_chunk_size p) 1) in
  match verified_bitmap_tx c (p_file_id p) with
  | None => Z.min (p_have p) n
  | Some bits =>
      if (n >? 8 * 1024 * 1024 / 32) || negb (len bits =? div_ceil n 8)
         || (negb (n mod 8 =? 0) && match last bits with Some b => negb (Z.shiftr b (n mod 8) =? 0) | None => false end)
      then 0
      else foldr Z.add 0 (map count_ones bits)
  end.

(** [open_partial]; [io] is whether the file system opens the path. *)
Definition open_partial (io : bool) (lease : ReceiverLease) (path : bytes) (c : Core) : Core * res Z :=
  match ensure_live c lease with
  | Err e => (c, Err e)
  | Ok _ => if io then let '(c', ino) := open_file path c in (c', Ok ino) else (c, Err Io)
  end.

(** ** Wakes and retries *)

(** The columns the wake bookkeeping writes. *)
Definition set_wake (at_ : Z) (r : PartialRow) : PartialRow :=
  mkRow (row r) at_ (row_retry_after r) (wake_pending r) (row_verified r).
Definition set_pending (b : bool) (r : PartialRow) : PartialRow :=
  mkRow (row r) (last_wake_at r) (row_retry_after r) b (row_verified r).
Definition set_retry (until : Z) (r : PartialRow) : PartialRow :=
  mkRow (row r) (last_wake_at r) until (wake_pending r) (row_verified r).

(** [claim_wake_tx] *)
Definition claim_wake_tx (c : Core) (fid : bytes) (now backoff : Z) : Core * bool :=
  match partials c !! fid with
  | None => (c, false)
  | Some mine =>
      let source := p_source_ipk (row mine) in
      let recent := existsb (λ r, bool_decide (p_source_ipk (row r) = source) && (last_wake_at r >? 0)
                                    && (last_wake_at r >? sat_sub now backoff)) (map_to_list (partials c)).*2 in
      if (p_state (row mine) =? HELD) && negb recent then
        let c := set_partials <[fid := set_wake now mine]> c in
        (set_partials (fmap (λ r, if (p_state (row r) =? HELD) && bool_decide (p_source_ipk (row r) = source)
                                  then set_pending true r else r)) c, true)
      else (c, false)
  end.

(** [claim_ready_retry_tx] *)
Definition claim_ready_retry_tx (c : Core) (fid : bytes) : Core * bool :=
  match partials c !! fid with
  | Some r =>
      if (p_state (row r) =? HELD) && wake_pending r then (set_partials <[fid := set_pending false r]> c, true)
      else (c, false)
  | None => (c, false)
  end.

Definition retry_after_tx (c : Core) (fid : bytes) : Z :=
  match partials c !! fid with Some r => row_retry_after r | None => 0 end.

Definition defer_retry_tx (fid : bytes) (until : Z) (c : Core) : Core := set_partials (alter (set_retry until) fid) c.

(** ** Collection and deletion *)

(** The [for] loop of [gc_dead_partials_tx]: the file goes, then every row naming it. *)
Definition gc_path (path : bytes) (c : Core) : Core :=
  set_partials (filter (λ kr, p_path (row kr.2) ≠ path)) (remove_file path c).

(** [gc_dead_partials_tx]; [rows_order] is the order the query returns rows in. *)
Definition gc_dead_partials_tx (c : Core) (rows_order : list (bytes * PartialRow)) (older_than : Z) : Core * list bytes :=
  let dead := filter (λ kr : bytes * PartialRow, let p := row kr.2 in
    (p_state p = FAILED ∨ p_state p = HELD ∨ p_state p = CONNECTING) ∧ p_updated_at p < older_than) rows_order in
  let paths := map (λ kr : bytes * PartialRow, p_path (row kr.2))
                 (filter (λ kr : bytes * PartialRow, receivers c !! kr.1 = None) dead) in
  (fold_left (λ c p, gc_path p c) paths c, paths).

(** [forget_row_tx] on each table: the row goes, then its file. *)
Definition forget_partial (dir fid : bytes) (c : Core) : Core :=
  let path := match partials c !! fid with Some r => p_path (row r) | None => partial_path dir fid end in
  remove_file path (set_partials (delete fid) c).
Definition forget_retention (fid : bytes) (c : Core) : Core :=
  match retention c !! fid with
  | Some r => remove_file (ret_path r) (set_retention (delete fid) c)
  | None => c
  end.

(** [forget_file] *)
Definition forget_file (dir fid : bytes) (c : Core) : Core :=
  let c := match receivers c !! fid with Some token => cancel token c | None => c end in
  forget_retention fid (forget_partial dir fid c).

(** [incomplete_file_ids_tx] and [incomplete_file_ids_for_tx] *)
Definition incomplete (p : Partial) : Prop := p_state p = HELD ∨ p_state p = ACTIVE ∨ p_state p = CONNECTING.
#[global] Instance incomplete_dec p : Decision (incomplete p).
Proof. unfold incomplete. apply _. Defined.

Definition incomplete_file_ids_tx (c : Core) : list bytes :=
  (filter (λ kr : bytes * PartialRow, incomplete (row kr.2)) (map_to_list (partials c))).*1.
Definition incomplete_file_ids_for_tx (c : Core) (peer : bytes) : list bytes :=
  (filter (λ kr : bytes * PartialRow, p_source_ipk (row kr.2) = peer ∧ incomplete (row kr.2)) (map_to_list (partials c))).*1.
