(* ===== verification/Receiver.v ===== *)
(** * Receiver: the owner of a download and its verified ranges

    libcore/src/transfer/ranges.rs.  A [Receiver] holds the open file, the manifest,
    its row and the bitmap of verified chunks.  [open_inner] rechecks every chunk the
    stored bitmap claims; [commit] verifies, writes and syncs a chunk and then
    publishes bitmap and prefix together; [finish] closes a complete file.

    [Faults] is what the environment answers to the fallible calls of one operation. *)

From S2P Require Import Prelude Bytes Crypto Keyspace Attachment Partials.

(** An 8 MiB manifest frame names at most this many chunk hashes. *)
Definition MAX_MANIFEST_CHUNKS : Z := 8 * 1024 * 1024 / 32.

Record Faults := mkFaults {
  (** the [k]th cancellation check sees a stop from another thread *)
  stops : nat → bool;
  meta_io : bool;                 (** [std::fs::metadata] *)
  db_read : bool;                 (** a query *)
  open_io : bool;                 (** [OpenOptions::open] *)
  read_io : nat → bool;           (** the read of a chunk, short reads apart *)
  write_io : option nat;          (** how much [write_all] writes before it fails *)
  sync_io : bool;                 (** [flush] and [sync_data] *)
  len_io : bool;                  (** [File::set_len] *)
  db_write : bool;                (** a statement that writes *)
  clock : Z;                      (** [now_secs()] *)
}.

Record Receiver := mkReceiver {
  rc_file : Z;                    (** the inode of the open file *)
  rc_manifest : Manifest;
  rc_partial : Partial;
  rc_verified : bytes;
  rc_cancel : Z;
}.

(** ** Bitmaps *)

(** [validate_bitmap] *)
Definition validate_bitmap (bits : bytes) (n : Z) : res unit :=
  reject ((n >? MAX_MANIFEST_CHUNKS) || negb (len bits =? div_ceil n 8)
          || (negb (n mod 8 =? 0) && match last bits with Some b => negb (Z.shiftr b (n mod 8) =? 0) | None => false end))
    (InvalidFrame "invalid stored verified chunk bitmap").

(** [bit] *)
Definition bit (bits : bytes) (index : nat) : bool :=
  match bits !! (index / 8)%nat with
  | Some byte => negb (Z.land byte (Z.shiftl 1 (Z.of_nat (index mod 8))) =? 0)
  | None => false
  end.

(** [set_bit]; every caller's index is inside the bitmap. *)
Definition set_bit (bits : bytes) (index : nat) (present : bool) : bytes :=
  let mask := Z.shiftl 1 (Z.of_nat (index mod 8)) in
  alter (λ byte, if present then Z.lor byte mask else Z.land byte (255 - mask)) (index / 8)%nat bits.

(** [(from..chunks).take_while(|idx| bit(bits, *idx)).count()] over [n] indices *)
Fixpoint run_length (bits : bytes) (from n : nat) : nat :=
  match n with
  | O => O
  | S n => if bit bits from then S (run_length bits (S from) n) else O
  end.

(** [prefix] *)
Definition prefix_bits (bits : bytes) (n : nat) : nat := run_length bits 0 n.

Section receiver.
Context `{Crypto} `{Codec Manifest}.

Definition validate_offer (m : Manifest) (fid : bytes) (offered_size : Z) : res unit :=
  reject ((chunk_size m =? 0) || (chunk_size m >? CHUNK_SIZE) || (len (chunks m) >? MAX_MANIFEST_CHUNKS)
          || negb (total_size m =? offered_size)
          || negb (len (chunks m) =? div_ceil (total_size m) (chunk_size m))
          || negb (bool_decide (file_id m = fid)))
    (InvalidFrame "manifest does not match the attachment offer").

(** [idx * chunk_size] and the length of the chunk there. *)
Definition chunk_offset (m : Manifest) (idx : nat) : Z := Z.of_nat idx * chunk_size m.
Definition chunk_len (m : Manifest) (idx : nat) : Z := Z.min (total_size m - chunk_offset m idx) (chunk_size m).

(** The chunk of the file at [idx], read back whole. *)
Definition read_chunk (m : Manifest) (idx : nat) (f : bytes) : option bytes :=
  let got := slice (chunk_offset m idx) (chunk_len m idx) f in
  if len got =? chunk_len m idx then Some got else None.

(** Whether it hashes to what the manifest says. *)
Definition chunk_valid (m : Manifest) (idx : nat) (f : bytes) : bool :=
  match read_chunk m idx f with
  | Some got => bool_decide (chunks m !! idx = Some (blake3 got))
  | None => false
  end.

(** ** Opening *)

(** What the stored row vouches for, before the bytes are rechecked. *)
Definition saved_bits (fl : Faults) (c : Core) (fid : bytes) (m : Manifest) (offered_size : Z) (saved_file_exists : bool) :
    res bytes :=
  let n := length (chunks m) in
  let none := replicate (Z.to_nat (div_ceil (Z.of_nat n) 8)) 0 in
  match partial_get_tx c fid with
  | None => Ok none
  | Some p =>
      if saved_file_exists && (p_total p =? total_size m) && (p_chunk_size p =? chunk_size m)
         && match p_manifest p with
            | Some raw =>
                (len raw <=? 8 * 1024 * 1024) &&
                match deser raw with
                | Some saved => is_ok (validate_offer saved fid offered_size) && bool_decide (saved = m)
                | None => false
                end
            | None => false
            end
      then
        if negb (db_read fl) then Err Sql
        else match verified_bitmap_tx c fid with
        | Some bits => Ok (if is_ok (validate_bitmap bits (Z.of_nat n)) then bits else none)
        | None => Ok (fold_left (λ bits idx, set_bit bits idx true) (seq 0 (Z.to_nat (p_have p) `min` n)) none)
        end
      else Ok none
  end.

(** The recovery scan of [open_inner]: [k] checks for a stop were made before it. *)
Fixpoint scan (fl : Faults) (c : Core) (lease : ReceiverLease) (m : Manifest) (f : bytes) (k : nat) (idxs : list nat)
    (bits : bytes) : res (nat * bytes) :=
  match idxs with
  | [] => Ok (k, bits)
  | idx :: idxs =>
      if negb (bit bits idx) then scan fl c lease m f k idxs bits
      else if is_cancelled c (l_cancel lease) || stops fl k then Err Cancelled
      else if negb (read_io fl idx) then Err Io
      else
        scan fl c lease m f (S k) idxs (if chunk_valid m idx f then bits else set_bit bits idx false)
  end.

(** The path of the download and whether the file it named is still there. *)
Definition saved_path (fl : Faults) (dir : bytes) (c : Core) (fid : bytes) : res (bytes * bool) :=
  match partial_get_tx c fid with
  | Some p =>
      if negb (meta_io fl) then Err Io
      else if decide (is_Some (names c !! p_path p)) then Ok (p_path p, true) else Ok (partial_path dir fid, false)
  | None => Ok (partial_path dir fid, false)
  end.

(** [open_inner] until the file is opened: its path, the bits the row vouches for. *)
Definition open_prepare (fl : Faults) (dir : bytes) (c : Core) (fid : bytes) (m : Manifest) (offered_size : Z)
    (lease : ReceiverLease) : res (bytes * bytes) :=
  _ ⇐ reject (is_cancelled c (l_cancel lease) || stops fl 0) Cancelled;
  _ ⇐ validate_offer m fid offered_size;
  '(path, exists_) ⇐ saved_path fl dir c fid;
  bits ⇐ saved_bits fl c fid m offered_size exists_;
  Ok (path, bits).

(** The scan of the open file and the sync, between two more checks for a stop. *)
Definition open_scan (fl : Faults) (c : Core) (lease : ReceiverLease) (m : Manifest) (ino : Z) (bits : bytes) :
    res (bytes * bytes) :=
  let check k := reject (is_cancelled c (l_cancel lease) || stops fl k) Cancelled in
  '(k, verified) ⇐ scan fl c lease m (content c ino) 1 (seq 0 (length (chunks m))) bits;
  raw ⇐ match ser m with Some raw => Ok raw | None => Err (Other "postcard") end;
  _ ⇐ check k; _ ⇐ reject (negb (sync_io fl)) Io; _ ⇐ check (S k);
  Ok (raw, verified).

(** The publication of what was found. *)
Definition open_publish (fl : Faults) (c : Core) (fid peer : bytes) (m : Manifest) (path : bytes) (ino : Z)
    (raw verified : bytes) (lease : ReceiverLease) : Core * res Receiver :=
  let p := mkPartial fid peer (total_size m) (chunk_size m) (Some raw)
             (Z.of_nat (prefix_bits verified (length (chunks m)))) ACTIVE path (clock fl) in
  match partial_put_verified_live_tx (db_write fl) p verified lease c with
  | (c, Err e) => (c, Err e)
  | (c, Ok _) => (c, Ok (mkReceiver ino m p verified (l_cancel lease)))
  end.

(** [Receiver::open_inner] *)
Definition open_inner (fl : Faults) (dir : bytes) (c : Core) (fid peer : bytes) (m : Manifest) (offered_size : Z)
    (lease : ReceiverLease) : Core * res Receiver :=
  match open_prepare fl dir c fid m offered_size lease with
  | Err e => (c, Err e)
  | Ok (path, bits) =>
      match open_partial (open_io fl) lease path c with
      | (c, Err e) => (c, Err e)
      | (c, Ok ino) =>
          match open_scan fl c lease m ino bits with
          | Err e => (c, Err e)
          | Ok (raw, verified) => open_publish fl c fid peer m path ino raw verified lease
          end
      end
  end.

(** ** Progress *)

Definition rc_prefix (r : Receiver) : Z := p_have (rc_partial r).

Definition contains (r : Receiver) (index : nat) : bool :=
  (index <? length (chunks (rc_manifest r)))%nat && bit (rc_verified r) index.

(** The inner loop of [missing]: the end of the run and the budget left. *)
Fixpoint missing_run (r : Receiver) (idx remaining : nat) : nat * nat :=
  match remaining with
  | S remaining' =>
      if (idx <? length (chunks (rc_manifest r)))%nat && negb (contains r idx)
      then missing_run r (S idx) remaining' else (idx, remaining)
  | O => (idx, O)
  end.

(** The outer loop: each turn advances [idx], so [fuel] bounds it by the chunk count. *)
Fixpoint missing_loop (r : Receiver) (fuel idx limit remaining : nat) (ranges : list ChunkRange) : list ChunkRange :=
  match fuel with
  | O => ranges
  | S fuel =>
      if (idx <? length (chunks (rc_manifest r)))%nat && (length ranges <? limit)%nat && (0 <? remaining)%nat then
        if contains r idx then missing_loop r fuel (S idx) limit remaining ranges
        else
          let '(stop, remaining') := missing_run r idx remaining in
          missing_loop r fuel stop limit remaining' (ranges ++ [mkRange (Z.of_nat idx) (Z.of_nat stop)])
      else ranges
  end.

(** [Receiver::missing] *)
Definition missing (r : Receiver) (limit_ranges limit_chunks : nat) : list ChunkRange :=
  missing_loop r (length (chunks (rc_manifest r))) (Z.to_nat (rc_prefix r)) limit_ranges limit_chunks [].

(** [Receiver::ensure_live] *)
Definition rc_ensure_live (c : Core) (r : Receiver) (lease : ReceiverLease) : res unit :=
  reject (is_cancelled c (rc_cancel r) || negb (rc_cancel r =? l_cancel lease)) Cancelled.

(** [commit] up to the write: what it refuses, and whether there is anything to do. *)
Definition commit_check (c : Core) (r : Receiver) (index : nat) (data : bytes) (lease : ReceiverLease) : res bool :=
  let m := rc_manifest r in
  _ ⇐ rc_ensure_live c r lease;
  match chunks m !! index with
  | None => Err (InvalidFrame "chunk index outside manifest")
  | Some hash =>
      _ ⇐ reject (negb (len data =? chunk_len m index) || negb (bool_decide (blake3 data = hash)))
            (InvalidFrame "chunk does not match manifest");
      Ok (negb (contains r index))
  end.

(** The write and the syncs. *)
Definition commit_write (fl : Faults) (r : Receiver) (index : nat) (data : bytes) (c : Core) : Core * res unit :=
  let put bytes := set_inodes (alter (write_at (chunk_offset (rc_manifest r) index) bytes) (rc_file r)) c in
  match write_io fl with
  | Some k => (put (take k data), Err Io)
  | None => (put data, if sync_io fl then Ok tt else Err Io)
  end.

(** The publication: memory follows only after the transaction. *)
Definition commit_publish (fl : Faults) (r : Receiver) (index : nat) (lease : ReceiverLease) (c : Core) :
    Core * Receiver * res unit :=
  let p := rc_partial r in
  let verified := set_bit (rc_verified r) index true in
  let n := length (chunks (rc_manifest r)) in
  let have := p_have p + Z.of_nat (run_length verified (Z.to_nat (p_have p)) (n - Z.to_nat (p_have p))) in
  match partial_progress_verified_live_tx (db_write fl) (p_file_id p) have (p_state p) (clock fl) verified lease c with
  | (c, Err e) => (c, r, Err e)
  | (c, Ok _) =>
      let p := mkPartial (p_file_id p) (p_source_ipk p) (p_total p) (p_chunk_size p) (p_manifest p) have (p_state p)
                 (p_path p) (clock fl) in
      (c, mkReceiver (rc_file r) (rc_manifest r) p verified (rc_cancel r), Ok tt)
  end.

(** [Receiver::commit] *)
Definition commit (fl : Faults) (c : Core) (r : Receiver) (index : nat) (data : bytes) (lease : ReceiverLease) :
    Core * Receiver * res unit :=
  match commit_check c r index data lease with
  | Err e => (c, r, Err e)
  | Ok false => (c, r, Ok tt)
  | Ok true =>
      match commit_write fl r index data c with
      | (c, Err e) => (c, r, Err e)
      | (c, Ok _) => commit_publish fl r index lease c
      end
  end.

(** [Receiver::finish] *)
Definition finish (fl : Faults) (c : Core) (r : Receiver) (lease : ReceiverLease) : Core * Receiver * res unit :=
  let p := rc_partial r in
  let m := rc_manifest r in
  match _ ⇐ rc_ensure_live c r lease;
        reject (negb (rc_prefix r =? len (chunks m))) (InvalidFrame "attachment still has missing chunks") with
  | Err e => (c, r, Err e)
  | Ok _ =>
      if negb (len_io fl) then (c, r, Err Io)
      else
        let c := set_inodes (alter (set_len (total_size m)) (rc_file r)) c in
        if negb (sync_io fl) then (c, r, Err Io)
        else match partial_progress_verified_live_tx (db_write fl) (p_file_id p) (p_have p) DONE (clock fl) (rc_verified r)
                lease c with
        | (c, Err e) => (c, r, Err e)
        | (c, Ok _) =>
            let p := mkPartial (p_file_id p) (p_source_ipk p) (p_total p) (p_chunk_size p) (p_manifest p) (p_have p) DONE
                       (p_path p) (clock fl) in
            (c, mkReceiver (rc_file r) m p (rc_verified r) (rc_cancel r), Ok tt)
        end
  end.
End receiver.
