(* ===== verification/ReceiverProps.v ===== *)
(** * ReceiverProps: a download holds only verified bytes

    The invariant [rc_ok] ties the bitmap, the prefix and the file of a receiver
    together; opening establishes it whatever the stored row and the file hold, and
    every outcome of a commit keeps it, faults included.  A finished download is the
    file of its manifest, and what is asked for next is exactly what is missing. *)

From S2P Require Import Prelude Bytes Crypto Keyspace Attachment AttachmentProps Partials Receiver.

(** ** Bits *)

Lemma land_mask x k : 0 <= k → negb (Z.land x (Z.shiftl 1 k) =? 0) = Z.testbit x k.
Proof.
  intros Hk. rewrite Z.shiftl_1_l. apply eq_true_iff_eq. rewrite negb_true_iff, Z.eqb_neq. split.
  - intros Hne. destruct (Z.testbit x k) eqn:E; [done|]. exfalso. apply Hne. apply Z.bits_inj'. intros j Hj.
    rewrite Z.land_spec, Z.pow2_bits_eqb, Z.bits_0 by done. destruct (Z.eqb_spec k j); [subst; by rewrite E|].
    apply andb_false_r.
  - intros E H0. assert (Z.testbit (Z.land x (2 ^ k)) k = true) as Ht.
    { by rewrite Z.land_spec, Z.pow2_bits_true, E by done. }
    by rewrite H0, Z.bits_0 in Ht.
Qed.

Lemma bit_testbit bits i :
  bit bits i = match bits !! (i / 8)%nat with Some b => Z.testbit b (Z.of_nat (i mod 8)) | None => false end.
Proof. unfold bit. destruct (bits !! _); [|done]. by rewrite land_mask by lia. Qed.

Lemma clear_mask j k : (j < 8)%nat → (k < 8)%nat → Z.testbit (255 - Z.shiftl 1 (Z.of_nat k)) (Z.of_nat j) = negb (j =? k)%nat.
Proof. intros Hj Hk. do 8 (destruct j as [|j]; [do 8 (destruct k as [|k]; [done|]); lia|]). lia. Qed.

Lemma set_mask j k : (j < 8)%nat → (k < 8)%nat → Z.testbit (Z.shiftl 1 (Z.of_nat k)) (Z.of_nat j) = (j =? k)%nat.
Proof. intros Hj Hk. do 8 (destruct j as [|j]; [do 8 (destruct k as [|k]; [done|]); lia|]). lia. Qed.

Lemma mod8 i : (i mod 8 < 8)%nat.
Proof. apply Nat.mod_upper_bound. lia. Qed.

Lemma same_bit i j : i = j ↔ (i / 8 = j / 8)%nat ∧ (i mod 8 = j mod 8)%nat.
Proof.
  split; [by intros ->|]. intros [Hd Hm]. rewrite (Nat.div_mod_eq i 8), (Nat.div_mod_eq j 8). lia.
Qed.

(** Setting or clearing one bit changes that bit only. *)
Lemma bit_set_bit bits i j present :
  (i / 8 < length bits)%nat → bit (set_bit bits i present) j = if decide (j = i) then present else bit bits j.
Proof.
  intros Hi. rewrite !bit_testbit. unfold set_bit. destruct (lookup_lt_is_Some_2 bits (i / 8)%nat Hi) as [b Hb].
  pose proof (mod8 i). pose proof (mod8 j).
  destruct (decide (j / 8 = i / 8)%nat) as [Hd|Hd].
  - rewrite Hd, list_lookup_alter_eq, Hb. cbn [fmap option_fmap option_map].
    destruct (decide (j = i)) as [->|Hne].
    + destruct present; [rewrite Z.lor_spec, set_mask by done|rewrite Z.land_spec, clear_mask by done];
        rewrite Nat.eqb_refl; [apply orb_true_r|apply andb_false_r].
    + assert ((j mod 8 =? i mod 8)%nat = false) as He by (apply Nat.eqb_neq; intros Hm; apply Hne; by apply same_bit).
      destruct present; [rewrite Z.lor_spec, set_mask by done|rewrite Z.land_spec, clear_mask by done]; rewrite He;
        [apply orb_false_r|apply andb_true_r].
  - rewrite list_lookup_alter_ne by done. destruct (decide (j = i)) as [->|]; [done|]. done.
Qed.

Lemma length_set_bit bits i present : length (set_bit bits i present) = length bits.
Proof. apply length_alter. Qed.

Lemma mask_u8 k : (k < 8)%nat → 0 <= Z.shiftl 1 (Z.of_nat k) < 256.
Proof. intros. do 8 (destruct k as [|k]; [done|]). lia. Qed.

Lemma set_bit_u8 bits i present : Forall is_u8 bits → Forall is_u8 (set_bit bits i present).
Proof.
  intros Hu. unfold set_bit. apply Forall_alter; [done|]. intros b _ Hb.
  pose proof (mask_u8 (i mod 8) (mod8 i)). unfold is_u8 in *. destruct present.
  - assert (0 <= Z.lor b (Z.shiftl 1 (Z.of_nat (i mod 8)))) by (apply Z.lor_nonneg; lia). split; [done|].
    apply (bits_bound 8); [lia|done|]. intros n Hn. by rewrite Z.lor_spec, !(testbit_small 8) by lia.
  - assert (0 <= Z.land b (255 - Z.shiftl 1 (Z.of_nat (i mod 8)))) by (apply Z.land_nonneg; lia). split; [done|].
    apply (bits_bound 8); [lia|done|]. intros n Hn. by rewrite Z.land_spec, (testbit_small 8 b) by lia.
Qed.

(** ** Runs of bits *)

Lemma run_length_spec bits n : ∀ from,
  let k := run_length bits from n in
  (k <= n)%nat ∧ (∀ i, (from <= i < from + k)%nat → bit bits i = true) ∧ (k = n ∨ bit bits (from + k) = false).
Proof.
  induction n as [|n IH]; intros from; cbn [run_length]; [split_and!; [lia|intros; lia|by left]|].
  destruct (bit bits from) eqn:E.
  - destruct (IH (S from)) as (Hk & Hb & Hend). split_and!; [lia| |].
    + intros i Hi. destruct (decide (i = from)) as [->|]; [done|]. apply Hb. lia.
    + destruct Hend as [->|Hend]; [by left|]. right. by rewrite Nat.add_succ_r, <- Nat.add_succ_l.
  - split_and!; [lia|intros; lia|]. right. by rewrite Nat.add_0_r.
Qed.

(** A run is determined by its bits. *)
Lemma run_length_unique bits from n k :
  (k <= n)%nat → (∀ i, (from <= i < from + k)%nat → bit bits i = true) → (k = n ∨ bit bits (from + k) = false) →
  run_length bits from n = k.
Proof.
  intros Hk Hb Hend. destruct (run_length_spec bits n from) as (Hk' & Hb' & Hend').
  destruct (Nat.lt_trichotomy (run_length bits from n) k) as [Hlt|[?|Hgt]]; [exfalso|done|exfalso].
  - destruct Hend' as [?|Hf]; [lia|]. rewrite Hb in Hf by lia. done.
  - destruct Hend as [?|Hf]; [lia|]. rewrite Hb' in Hf by lia. done.
Qed.

(** Extending a known prefix finds the whole prefix. *)
Lemma prefix_extend bits have n :
  (have <= n)%nat → (∀ i, (i < have)%nat → bit bits i = true) →
  prefix_bits bits n = (have + run_length bits have (n - have))%nat.
Proof.
  intros Hh Hb. destruct (run_length_spec bits (n - have) have) as (Hk & Hr & Hend).
  apply run_length_unique; [lia| |].
  - intros i Hi. destruct (decide (i < have)%nat); [by apply Hb|]. apply Hr. lia.
  - destruct Hend as [?|Hf]; [left; lia|by right].
Qed.

(** ** Files *)

Lemma lookup_slice off n f k :
  slice off n f !! k = if (k <? Z.to_nat n)%nat then f !! (Z.to_nat off + k)%nat else None.
Proof.
  unfold slice. destruct (_ <? _)%nat eqn:E; breflect.
  - rewrite lookup_take_lt by done. by rewrite lookup_drop.
  - apply lookup_take_ge. done.
Qed.

Lemma len_slice off n f : 0 <= off → 0 <= n → len (slice off n f) = Z.max 0 (Z.min n (len f - off)).
Proof. intros. unfold slice, len. rewrite length_take, length_drop. lia. Qed.

Lemma length_set_len n f : length (set_len n f) = Z.to_nat n.
Proof. unfold set_len. rewrite length_app, length_take, length_replicate. lia. Qed.

Lemma lookup_set_len n f k : (k < length f)%nat → (k < Z.to_nat n)%nat → set_len n f !! k = f !! k.
Proof.
  intros Hk Hn. unfold set_len. rewrite lookup_app_l by (rewrite length_take; lia). by apply lookup_take_lt.
Qed.

Lemma len_write_at off data f : 0 <= off → len (write_at off data f) = Z.max (off + len data) (len f).
Proof.
  intros. unfold write_at, len. rewrite !length_app, length_set_len, length_drop. lia.
Qed.

(** A write leaves what is outside it. *)
Lemma lookup_write_other off data f k :
  0 <= off → (k < length f)%nat → (Z.of_nat k < off ∨ off + len data <= Z.of_nat k) → write_at off data f !! k = f !! k.
Proof.
  intros Ho Hk Hout. unfold write_at, len in *. destruct Hout.
  - rewrite lookup_app_l by (rewrite length_set_len; lia). apply lookup_set_len; lia.
  - rewrite lookup_app_r, lookup_app_r; rewrite ?length_set_len; [|lia..]. rewrite lookup_drop. f_equal. lia.
Qed.

Lemma slice_write_same off data f : 0 <= off → slice off (len data) (write_at off data f) = data.
Proof.
  intros Ho. unfold slice, write_at. rewrite drop_app_ge, length_set_len, Nat.sub_diag by (rewrite length_set_len; lia).
  rewrite drop_0. unfold len. by rewrite Nat2Z.id, take_app_length.
Qed.

Lemma slice_write_other off n off' data f :
  0 <= off → 0 <= n → 0 <= off' → off + n <= len f →
  (off + n <= off' ∨ off' + len data <= off) → slice off n (write_at off' data f) = slice off n f.
Proof.
  intros Ho Hn Ho' Hin Hout. apply list_eq. intros k. rewrite !lookup_slice.
  destruct (_ <? _)%nat eqn:E; breflect; [|done]. unfold len in *.
  apply lookup_write_other; unfold len; lia.
Qed.

Lemma slice_set_len off n total f :
  0 <= off → 0 <= n → off + n <= len f → off + n <= total → slice off n (set_len total f) = slice off n f.
Proof.
  intros Ho Hn Hin Ht. apply list_eq. intros k. rewrite !lookup_slice.
  destruct (_ <? _)%nat eqn:E; breflect; [|done]. unfold len in *. apply lookup_set_len; lia.
Qed.

(** ** Geometry *)

Lemma div_ceil_lt a b i : 0 < b → i < div_ceil a b ↔ i * b < a.
Proof.
  intros Hb. unfold div_ceil. pose proof (Z.div_mod a b ltac:(lia)). pose proof (Z.mod_pos_bound a b Hb).
  destruct (_ >? _) eqn:E; breflect; nia.
Qed.

(** A manifest whose chunks tile its size. *)
Definition tiles (m : Manifest) : Prop :=
  0 < chunk_size m ∧ 0 <= total_size m ∧ len (chunks m) = div_ceil (total_size m) (chunk_size m).

Section geometry.
Context (m : Manifest) (Hm : tiles m).

Lemma chunk_range idx :
  (idx < length (chunks m))%nat →
  0 <= chunk_offset m idx ∧ 0 < chunk_len m idx <= chunk_size m ∧ chunk_offset m idx + chunk_len m idx <= total_size m.
Proof.
  intros Hi. destruct Hm as (Hc & Ht & Hn). unfold len in Hn.
  assert (Z.of_nat idx * chunk_size m < total_size m) by (apply div_ceil_lt; lia).
  unfold chunk_len, chunk_offset. nia.
Qed.

(** Chunks do not overlap. *)
Lemma chunks_apart i j :
  (i < length (chunks m))%nat → (j < length (chunks m))%nat → i ≠ j →
  chunk_offset m j + chunk_len m j <= chunk_offset m i ∨ chunk_offset m i + chunk_size m <= chunk_offset m j.
Proof.
  intros Hi Hj Hne. destruct (chunk_range j Hj) as (_ & Hlen & _). destruct Hm as (Hc & _).
  unfold chunk_offset in *. destruct (decide (j < i)%nat); [left|right]; nia.
Qed.

(** Together they are the whole file. *)
Lemma chunk_covers k :
  0 <= k < total_size m →
  ∃ idx, (idx < length (chunks m))%nat ∧ chunk_offset m idx <= k < chunk_offset m idx + chunk_len m idx.
Proof.
  intros Hk. destruct Hm as (Hc & Ht & Hn). exists (Z.to_nat (k / chunk_size m)).
  pose proof (Z.div_mod k (chunk_size m) ltac:(lia)). pose proof (Z.mod_pos_bound k (chunk_size m) Hc).
  assert (0 <= k / chunk_size m) by (apply Z.div_pos; lia).
  assert (k / chunk_size m < div_ceil (total_size m) (chunk_size m)) by (apply div_ceil_lt; nia).
  unfold len in Hn. unfold chunk_len, chunk_offset. rewrite Z2Nat.id by done. split; nia.
Qed.
End geometry.

Section receiver.
Context `{Crypto} `{Codec Manifest}.
Implicit Types (m : Manifest) (f bits : bytes) (c : Core) (r : Receiver).

(** ** Verified chunks *)

(** The file holds chunk [i] of the manifest. *)
Definition chunk_ok m i f : Prop := ∃ data, read_chunk m i f = Some data ∧ chunks m !! i = Some (blake3 data).

Lemma chunk_ok_index m i f : chunk_ok m i f → (i < length (chunks m))%nat.
Proof. intros (data & _ & Hi). by eapply lookup_lt_Some. Qed.

Lemma read_chunk_iff m i f data :
  tiles m → (i < length (chunks m))%nat →
  read_chunk m i f = Some data ↔
  data = slice (chunk_offset m i) (chunk_len m i) f ∧ chunk_offset m i + chunk_len m i <= len f.
Proof.
  intros Hm Hi. destruct (chunk_range m Hm i Hi) as (Ho & Hl & _). unfold read_chunk.
  rewrite len_slice by lia. pose proof (len_nonneg f).
  destruct (_ =? _) eqn:E; breflect; split; [intros [= <-]; split; [done|lia]|by intros [-> _]|done|intros [_ ?]; lia].
Qed.

Lemma chunk_ok_iff m i f :
  tiles m → (i < length (chunks m))%nat →
  chunk_ok m i f ↔ chunk_offset m i + chunk_len m i <= len f ∧
                   chunks m !! i = Some (blake3 (slice (chunk_offset m i) (chunk_len m i) f)).
Proof.
  intros Hm Hi. unfold chunk_ok. split.
  - intros (data & Hr & Hc). apply read_chunk_iff in Hr as [-> ?]; done.
  - intros [Hl Hc]. eexists. split; [by apply read_chunk_iff|done].
Qed.

(** A write into one chunk keeps the others. *)
Lemma chunk_ok_write_other m i j data f :
  tiles m → (i < length (chunks m))%nat → i ≠ j → len data <= chunk_len m i →
  chunk_ok m j f → chunk_ok m j (write_at (chunk_offset m i) data f).
Proof.
  intros Hm Hi Hne Hd Hj. pose proof (chunk_ok_index _ _ _ Hj) as Hjl.
  apply chunk_ok_iff in Hj as [Hl Hc]; [|done..]. apply chunk_ok_iff; [done..|].
  destruct (chunk_range m Hm i Hi) as (Hoi & Hli & _). destruct (chunk_range m Hm j Hjl) as (Hoj & Hlj & _).
  destruct (chunks_apart m Hm i j Hi Hjl Hne) as [?|?];
    (split; [rewrite len_write_at by done; lia|rewrite slice_write_other by lia; done]).
Qed.

Lemma chunk_ok_write_same m i data f :
  tiles m → len data = chunk_len m i → chunks m !! i = Some (blake3 data) →
  chunk_ok m i (write_at (chunk_offset m i) data f).
Proof.
  intros Hm Hd Hc. pose proof (lookup_lt_Some _ _ _ Hc) as Hi. destruct (chunk_range m Hm i Hi) as (Ho & _).
  apply chunk_ok_iff; [done..|]. rewrite len_write_at by done. split; [lia|].
  by rewrite <- Hd, slice_write_same by done.
Qed.

Lemma chunk_ok_set_len m i f : tiles m → chunk_ok m i f → chunk_ok m i (set_len (total_size m) f).
Proof.
  intros Hm Hi. pose proof (chunk_ok_index _ _ _ Hi) as Hil. apply chunk_ok_iff in Hi as [Hl Hc]; [|done..].
  destruct (chunk_range m Hm i Hil) as (Ho & Hlen & Ht). apply chunk_ok_iff; [done..|].
  unfold len. rewrite length_set_len. split; [lia|]. by rewrite slice_set_len by lia.
Qed.

(** ** Bitmaps of a manifest *)

(** A bitmap for [n] chunks: the right size, and no bit past the last chunk. *)
Definition wf_bits (n : nat) bits : Prop :=
  len bits = div_ceil (Z.of_nat n) 8 ∧ Forall is_u8 bits ∧ ∀ j, bit bits j = true → (j < n)%nat.

Lemma in_bitmap n bits i : len bits = div_ceil (Z.of_nat n) 8 → (i < n)%nat → (i / 8 < length bits)%nat.
Proof.
  intros Hl Hi. unfold len in Hl. enough (Z.of_nat (i / 8) < div_ceil (Z.of_nat n) 8) by lia.
  apply div_ceil_lt; [lia|]. pose proof (Nat.div_mod_eq i 8). lia.
Qed.

Lemma wf_bits_set n bits i : wf_bits n bits → (i < n)%nat → wf_bits n (set_bit bits i true).
Proof.
  intros (Hl & Hu & Hb) Hi. split_and!; [unfold len in *; by rewrite length_set_bit|by apply set_bit_u8|]. intros j.
  rewrite bit_set_bit by by eapply in_bitmap. case_decide; [by subst|apply Hb].
Qed.

Lemma bit_zeros k j : bit (replicate k 0) j = false.
Proof. rewrite bit_testbit. destruct (_ !! _) eqn:E; [|done]. apply lookup_replicate in E as [-> _]. apply Z.bits_0. Qed.

Lemma wf_bits_zeros n : wf_bits n (replicate (Z.to_nat (div_ceil (Z.of_nat n) 8)) 0).
Proof.
  split_and!; [|by apply Forall_replicate|intros j; by rewrite bit_zeros]. unfold len. rewrite length_replicate.
  assert (0 <= div_ceil (Z.of_nat n) 8); [|lia]. unfold div_ceil.
  pose proof (Z.div_pos (Z.of_nat n) 8 ltac:(lia) ltac:(lia)). destruct (_ >? _); lia.
Qed.

Lemma wf_bits_fold n idxs : ∀ bits,
  wf_bits n bits → Forall (λ i, i < n)%nat idxs → wf_bits n (fold_left (λ bits i, set_bit bits i true) idxs bits).
Proof.
  induction idxs as [|i idxs IH]; intros bits Hb Hi; [done|]. apply Forall_cons in Hi as [Hi Hr].
  cbn. apply IH; [by apply wf_bits_set|done].
Qed.

(** A stored bitmap that passes the check has no stray bit. *)
Lemma validate_bitmap_wf bits n : Forall is_u8 bits → is_ok (validate_bitmap bits (Z.of_nat n)) = true → wf_bits n bits.
Proof.
  intros Hu. unfold validate_bitmap. destruct (reject _ _) as [[]|] eqn:E; [|done]. intros _. apply reject_ok in E.
  apply orb_false_iff in E as [[_ Hl]%orb_false_iff Hspare]. apply negb_false_iff, Z.eqb_eq in Hl.
  split_and!; [done..|]. intros j Hj. rewrite bit_testbit in Hj. destruct (bits !! (j / 8)%nat) as [b|] eqn:Hb; [|done].
  destruct (decide (j < n)%nat) as [|Hge]; [done|exfalso]. pose proof (lookup_lt_Some _ _ _ Hb) as Hlt.
  unfold len in Hl. assert (Z.of_nat (j / 8) < div_ceil (Z.of_nat n) 8) as Hd by lia.
  apply div_ceil_lt in Hd; [|lia].
  pose proof (Nat.div_mod_eq j 8). pose proof (mod8 j). pose proof (Z.div_mod (Z.of_nat n) 8 ltac:(lia)).
  pose proof (Z.mod_pos_bound (Z.of_nat n) 8 ltac:(lia)).
  assert (Z.of_nat n / 8 = Z.of_nat (j / 8)) as Hq by lia.
  unfold div_ceil in Hl. destruct (Z.of_nat n mod 8 >? 0) eqn:E; breflect; [|lia].
  rewrite last_lookup in Hspare. replace (pred (length bits)) with (j / 8)%nat in Hspare by lia.
  rewrite Hb in Hspare. destruct (Z.of_nat n mod 8 =? 0) eqn:E0; breflect; [lia|]. cbn in Hspare. breflect.
  assert (Z.testbit (Z.shiftr b (Z.of_nat n mod 8)) (Z.of_nat (j mod 8) - Z.of_nat n mod 8) = true) as Ht.
  { rewrite Z.shiftr_spec by lia. rewrite <- Hj. f_equal. lia. }
  rewrite Hspare, Z.bits_0 in Ht. done.
Qed.

(** Every name is of a file that exists, every row is under its id, every stored bitmap
    is a blob. *)
Record wf_core c : Prop := {
  wc_keys : ∀ fid w, partials c !! fid = Some w → p_file_id (row w) = fid;
  wc_names : ∀ path ino, names c !! path = Some ino → is_Some (inodes c !! ino);
  wc_blobs : ∀ fid w bits, partials c !! fid = Some w → row_verified w = Some bits → Forall is_u8 bits;
}.

Lemma verified_blob c fid bits : wf_core c → verified_bitmap_tx c fid = Some bits → Forall is_u8 bits.
Proof.
  intros Hc. unfold verified_bitmap_tx. destruct (partials c !! fid) as [w|] eqn:Hw; [|done]. cbn.
  destruct (row_verified w) as [b|] eqn:Hb; [|done]. cbn. intros [= <-].
  destruct (_ >? _); [done|by eapply wc_blobs].
Qed.

Lemma saved_bits_wf fl c fid m size ex bits :
  wf_core c → saved_bits fl c fid m size ex = Ok bits → wf_bits (length (chunks m)) bits.
Proof.
  intros Hc. unfold saved_bits. destruct (partial_get_tx c fid) as [p|]; [|intros [= <-]; apply wf_bits_zeros].
  destruct (_ && _ && _ && _); [|intros [= <-]; apply wf_bits_zeros].
  destruct (negb _); [done|]. destruct (verified_bitmap_tx c fid) as [b|] eqn:Hv.
  - apply verified_blob in Hv; [|done].
    destruct (is_ok _) eqn:E; intros [= <-]; [by apply validate_bitmap_wf|apply wf_bits_zeros].
  - intros [= <-]. apply wf_bits_fold; [apply wf_bits_zeros|]. apply Forall_seq. lia.
Qed.

Lemma chunk_valid_iff m i f : chunk_valid m i f = true ↔ chunk_ok m i f.
Proof.
  unfold chunk_valid, chunk_ok. destruct (read_chunk m i f) as [got|]; [|naive_solver].
  rewrite bool_decide_eq_true. naive_solver.
Qed.

(** The scan keeps exactly claims the file bears out. *)
Lemma scan_ok fl c lease m f idxs : ∀ k bits k' bits',
  Forall (λ i, i / 8 < length bits)%nat idxs → NoDup idxs →
  scan fl c lease m f k idxs bits = Ok (k', bits') →
  length bits' = length bits ∧ (Forall is_u8 bits → Forall is_u8 bits') ∧
  (∀ j, j ∉ idxs → bit bits' j = bit bits j) ∧
  (∀ j, j ∈ idxs → bit bits' j = true ↔ bit bits j = true ∧ chunk_ok m j f).
Proof.
  induction idxs as [|i idxs IH]; intros k bits k' bits' Hin Hnd; cbn [scan].
  - intros [= <- <-]. split_and!; [done..|]. intros j Hj. by apply not_elem_of_nil in Hj.
  - apply Forall_cons in Hin as [Hi Hin]. apply NoDup_cons in Hnd as [Hni Hnd].
    destruct (bit bits i) eqn:Eb; cbn [negb].
    + destruct (_ || _); [done|]. destruct (negb _); [done|]. set (b1 := if chunk_valid m i f then bits else set_bit bits i false). intros Hs.
      assert (length b1 = length bits) as Hl1 by (unfold b1; destruct (chunk_valid _ _ _); [done|apply length_set_bit]).
      assert (Forall is_u8 bits → Forall is_u8 b1) as Hu1 by (unfold b1; destruct (chunk_valid _ _ _); [done|apply set_bit_u8]).
      destruct (IH _ b1 _ _ ltac:(rewrite Hl1; done) Hnd Hs) as (Hl & Hu & Hout & Hok).
      assert (∀ j, j ≠ i → bit b1 j = bit bits j) as Hother.
      { intros j Hne. unfold b1. destruct (chunk_valid _ _ _); [done|].
        rewrite bit_set_bit by done. by case_decide. }
      split_and!; [lia|auto| |].
      * intros j Hj. apply not_elem_of_cons in Hj as [Hne Hj]. rewrite Hout by done. by apply Hother.
      * intros j [->|Hj]%elem_of_cons.
        -- rewrite Hout by done. rewrite <- chunk_valid_iff. unfold b1. destruct (chunk_valid m i f); [naive_solver|].
           rewrite bit_set_bit, decide_True by done. naive_solver.
        -- rewrite Hok by done. rewrite Hother by congruence. done.
    + intros Hs. destruct (IH _ _ _ _ Hin Hnd Hs) as (Hl & Hu & Hout & Hok). split_and!; [done|done| |].
      * intros j [_ Hj]%not_elem_of_cons. by apply Hout.
      * intros j [->|Hj]%elem_of_cons; [|by apply Hok]. rewrite Hout by done. rewrite Eb. naive_solver.
Qed.

(** ** The invariant of a receiver *)

Record rc_ok c r : Prop := {
  ok_tiles : tiles (rc_manifest r);
  ok_size : chunk_size (rc_manifest r) <= CHUNK_SIZE ∧ len (chunks (rc_manifest r)) <= MAX_MANIFEST_CHUNKS;
  ok_id : file_id (rc_manifest r) = p_file_id (rc_partial r);
  ok_row : p_total (rc_partial r) = total_size (rc_manifest r) ∧ p_chunk_size (rc_partial r) = chunk_size (rc_manifest r) ∧
           ∃ raw, ser (rc_manifest r) = Some raw ∧ p_manifest (rc_partial r) = Some raw;
  ok_bits : wf_bits (length (chunks (rc_manifest r))) (rc_verified r);
  ok_have : p_have (rc_partial r) = Z.of_nat (prefix_bits (rc_verified r) (length (chunks (rc_manifest r))));
  ok_file : is_Some (inodes c !! rc_file r);
  ok_bytes : ∀ i, bit (rc_verified r) i = true → chunk_ok (rc_manifest r) i (content c (rc_file r));
}.

(** The row of the file says what the receiver holds. *)
Definition published c r : Prop :=
  ∃ w, partials c !! p_file_id (rc_partial r) = Some w ∧ row w = rc_partial r ∧ row_verified w = Some (rc_verified r).

Lemma validate_offer_ok m fid size :
  validate_offer m fid size = Ok tt → 0 <= total_size m → 0 <= chunk_size m →
  tiles m ∧ chunk_size m <= CHUNK_SIZE ∧ len (chunks m) <= MAX_MANIFEST_CHUNKS ∧ file_id m = fid ∧ total_size m = size.
Proof. unfold validate_offer. rewrite reject_ok. intros E ? ?. breflect. unfold tiles. split_and!; (done || lia). Qed.

Lemma open_file_live c path c' ino :
  wf_core c → open_file path c = (c', ino) →
  is_Some (inodes c' !! ino) ∧ partials c' = partials c ∧ cancelled c' = cancelled c ∧
  (∀ j, is_Some (inodes c !! j) → j ≠ next_inode c → inodes c' !! j = inodes c !! j).
Proof.
  intros Hc. unfold open_file. destruct (names c !! path) as [i|] eqn:E; intros [= <- <-].
  - split_and!; [by eapply wc_names|done..].
  - cbn. split_and!; [rewrite lookup_insert_eq; done|done|done|]. intros j _ Hne. by rewrite lookup_insert_ne.
Qed.

Lemma put_verified_ok db p verified lease c c' :
  partial_put_verified_live_tx db p verified lease c = (c', Ok tt) →
  inodes c' = inodes c ∧ ∃ w, partials c' !! p_file_id p = Some w ∧ row w = p ∧ row_verified w = Some verified.
Proof.
  unfold partial_put_verified_live_tx. destruct (ensure_live c lease); [|done]. destruct (negb _); [done|].
  destruct db; [|done]. intros [= <-]. split; [done|].
  unfold partial_put_verified_locked, partial_put_locked. cbn. rewrite lookup_alter_eq, lookup_insert_eq. cbn.
  eexists. split; [done|]. by destruct (partials c !! p_file_id p).
Qed.

Lemma put_verified_err db p verified lease c c' e :
  partial_put_verified_live_tx db p verified lease c = (c', Err e) → c' = c.
Proof.
  unfold partial_put_verified_live_tx. destruct (ensure_live c lease); [|by intros [= <- _]].
  destruct (negb _); [by intros [= <- _]|]. by destruct db; intros [= <-].
Qed.

Lemma open_scan_ok fl c lease m ino bits raw verified :
  wf_bits (length (chunks m)) bits → open_scan fl c lease m ino bits = Ok (raw, verified) →
  wf_bits (length (chunks m)) verified ∧ ser m = Some raw ∧
  ∀ i, bit verified i = true ↔ bit bits i = true ∧ chunk_ok m i (content c ino).
Proof.
  intros (Hl & Hu & Hb) Hs. unfold open_scan in Hs. apply res_bind_ok in Hs as ([k v] & Hs & Hrest).
  assert (v = verified ∧ ser m = Some raw) as [-> Hser].
  { apply res_bind_ok in Hrest as (raw' & Hraw & Hrest). do 3 apply res_bind_ok in Hrest as (? & _ & Hrest).
    injection Hrest as -> ->. by destruct (ser m); [injection Hraw as ->|]. }
  apply scan_ok in Hs as (Hlen & Hu' & Hout & Hin); [|apply Forall_seq; intros; eapply in_bitmap; [done|lia]|apply NoDup_seq].
  assert (∀ i, bit verified i = true ↔ bit bits i = true ∧ chunk_ok m i (content c ino)) as Hiff.
  { intros i. destruct (decide (i ∈ seq 0 (length (chunks m)))) as [Hi|Hi]; [by apply Hin|].
    rewrite Hout by done. rewrite elem_of_seq in Hi. split; [intros Hbi; apply Hb in Hbi; lia|tauto]. }
  split; [|done]. split_and!; [unfold len in *; congruence|auto|]. intros j Hj. apply Hiff in Hj as [Hj _]. by apply Hb.
Qed.

(** Opening a download recovers exactly the progress the disk bears out.  Whatever
    the stored row, its bitmap and the file hold, an opened receiver satisfies its
    invariant (every chunk it counts as verified is in the file and hashes to the
    manifest, the manifest is the one of the attachment), its row is published as it
    is held, and a chunk counts as verified exactly when the row vouched for it and
    its bytes are there.  A refused opening leaves every row as it was. *)
Lemma open_inner_ok fl dir c fid peer m size lease :
  wf_core c → 0 <= total_size m → 0 <= chunk_size m →
  match open_inner fl dir c fid peer m size lease with
  | (c', Err _) => partials c' = partials c
  | (c', Ok r) =>
      rc_ok c' r ∧ published c' r ∧ rc_manifest r = m ∧ p_file_id (rc_partial r) = fid ∧ total_size m = size ∧
      ∃ path exists_ bits, saved_path fl dir c fid = Ok (path, exists_) ∧ saved_bits fl c fid m size exists_ = Ok bits ∧
        p_path (rc_partial r) = path ∧
        ∀ i, bit (rc_verified r) i = true ↔ bit bits i = true ∧ chunk_ok m i (content c' (rc_file r))
  end.
Proof.
  intros Hc Ht Hs. unfold open_inner.
  destruct (open_prepare fl dir c fid m size lease) as [[path bits]|] eqn:Hp; [|done].
  unfold open_prepare in Hp. apply res_bind_ok in Hp as ([] & _ & Hp). apply res_bind_ok in Hp as ([] & Hv & Hp).
  apply res_bind_ok in Hp as ([path' ex] & Hpath & Hp). apply res_bind_ok in Hp as (bits' & Hbits & [= -> ->]).
  apply validate_offer_ok in Hv as (Hm & Hcs & Hmax & Hid & Hsize); [|done..].
  unfold open_partial. destruct (ensure_live c lease); [|done]. destruct (open_io fl); [|done].
  destruct (open_file path c) as [c1 ino] eqn:Ho. apply open_file_live in Ho as (Hino & Hpar & _); [|done].
  destruct (open_scan fl c1 lease m ino bits) as [[raw verified]|] eqn:Hscan; [|done].
  apply open_scan_ok in Hscan as (Hwf & Hser & Hiff); [|by eapply saved_bits_wf].
  unfold open_publish. set (p := mkPartial _ _ _ _ _ _ _ _ _).
  destruct (partial_put_verified_live_tx _ p verified lease c1) as [c2 [[]|e]] eqn:Hput.
  2: { apply put_verified_err in Hput as ->. done. }
  apply put_verified_ok in Hput as (Hin & w & Hw & Hrow & Hver).
  assert (content c2 ino = content c1 ino) as Hcont by (unfold content; by rewrite Hin).
  cbn [rc_manifest rc_partial rc_verified rc_file]. split_and!; [|by exists w|done|done|done|].
  - split; cbn [rc_manifest rc_partial rc_verified rc_file]; [done|done|done|by eauto 6|done|done|by rewrite Hin|].
    intros i Hi. rewrite Hcont. by apply Hiff.
  - exists path, ex, bits. split_and!; [done..|]. by rewrite Hcont.
Qed.

(** ** Committing a chunk *)

(** The invariant survives a change of the file that keeps the verified chunks. *)
Lemma rc_ok_file c c' r :
  rc_ok c r → is_Some (inodes c' !! rc_file r) →
  (∀ i, bit (rc_verified r) i = true → chunk_ok (rc_manifest r) i (content c (rc_file r)) →
        chunk_ok (rc_manifest r) i (content c' (rc_file r))) → rc_ok c' r.
Proof. intros [] Hf Hk. split; [done..|]. auto. Qed.

Lemma content_alter g c ino : is_Some (inodes c !! ino) → content (set_inodes (alter g ino) c) ino = g (content c ino).
Proof. intros [f Hf]. unfold content. cbn. rewrite lookup_alter_eq, Hf. done. Qed.

Lemma inode_alter g c ino : is_Some (inodes c !! ino) → is_Some (inodes (set_inodes (alter g ino) c) !! ino).
Proof. intros [f Hf]. cbn. rewrite lookup_alter_eq, Hf. done. Qed.

Lemma commit_check_ok c r index data lease fresh :
  commit_check c r index data lease = Ok fresh →
  chunks (rc_manifest r) !! index = Some (blake3 data) ∧ len data = chunk_len (rc_manifest r) index ∧
  contains r index = negb fresh.
Proof.
  unfold commit_check. intros H1. apply res_bind_ok in H1 as ([] & _ & H1).
  destruct (chunks _ !! index) as [h|]; [|done]. apply res_bind_ok in H1 as ([] & Hr%reject_ok & [= <-]).
  breflect. subst h. rewrite negb_involutive. done.
Qed.

Lemma commit_write_keeps fl c r index data :
  rc_ok c r → (index < length (chunks (rc_manifest r)))%nat → bit (rc_verified r) index = false →
  len data = chunk_len (rc_manifest r) index →
  rc_ok (commit_write fl r index data c).1 r ∧ partials (commit_write fl r index data c).1 = partials c.
Proof.
  intros Hok Hi Hb Hd. pose proof (ok_tiles _ _ Hok) as Hm. pose proof (ok_file _ _ Hok) as Hf.
  assert (∀ d, len d <= len data →
    rc_ok (set_inodes (alter (write_at (chunk_offset (rc_manifest r) index) d) (rc_file r)) c) r) as Hput.
  { intros d Hle. eapply rc_ok_file; [done|by apply inode_alter|]. intros i Hbi Hc. rewrite content_alter by done.
    apply chunk_ok_write_other; [done|done| |lia|done]. intros <-. congruence. }
  unfold commit_write. destruct (write_io fl) as [k|]; cbn [fst]; split; try done.
  - apply Hput. unfold len. rewrite length_take. lia.
  - apply Hput. lia.
Qed.

Lemma progress_tx db fid have state now verified lease c :
  let '(c', o) := partial_progress_verified_live_tx db fid have state now verified lease c in
  inodes c' = inodes c ∧
  match o with
  | Err _ => c' = c
  | Ok _ => ∃ w, partials c !! fid = Some w ∧ partials c' !! fid = Some (set_progress have state now verified w)
  end.
Proof.
  unfold partial_progress_verified_live_tx. destruct (ensure_live c lease); [|done]. destruct (negb _); [done|].
  destruct (negb db); [done|]. destruct (partials c !! fid) as [w|] eqn:E; [|done].
  split; [done|]. exists w. cbn. by rewrite lookup_alter_eq, E.
Qed.

(** Setting a verified bit extends the prefix from where it was. *)
Lemma have_extends r c index :
  rc_ok c r → (index < length (chunks (rc_manifest r)))%nat →
  let n := length (chunks (rc_manifest r)) in
  let v := set_bit (rc_verified r) index true in
  let have := Z.to_nat (p_have (rc_partial r)) in
  p_have (rc_partial r) + Z.of_nat (run_length v have (n - have)) = Z.of_nat (prefix_bits v n).
Proof.
  intros Hok Hi n v have. pose proof (ok_have _ _ Hok) as Hh. pose proof (ok_bits _ _ Hok) as (Hl & _).
  destruct (run_length_spec (rc_verified r) n 0) as (Hle & Hb & _). fold (prefix_bits (rc_verified r) n) in *.
  fold n in Hh. rewrite (prefix_extend v have n); [lia|lia|].
  intros i Hlt. unfold v. rewrite bit_set_bit by by eapply in_bitmap. case_decide; [done|]. apply Hb. lia.
Qed.

Lemma commit_publish_ok fl c r index lease :
  rc_ok c r → (index < length (chunks (rc_manifest r)))%nat →
  chunk_ok (rc_manifest r) index (content c (rc_file r)) →
  match commit_publish fl r index lease c with
  | (c', r', Err _) => r' = r ∧ c' = c
  | (c', r', Ok _) =>
      rc_ok c' r' ∧ rc_manifest r' = rc_manifest r ∧ rc_file r' = rc_file r ∧ (published c r → published c' r') ∧
      p_file_id (rc_partial r') = p_file_id (rc_partial r) ∧ rc_cancel r' = rc_cancel r ∧
      rc_verified r' = set_bit (rc_verified r) index true
  end.
Proof.
  intros Hok Hi Hc. unfold commit_publish. cbv zeta.
  rewrite (have_extends r c index Hok Hi). set (v := set_bit (rc_verified r) index true).
  pose proof (progress_tx (db_write fl) (p_file_id (rc_partial r)) (Z.of_nat (prefix_bits v (length (chunks (rc_manifest r)))))
    (p_state (rc_partial r)) (clock fl) v lease c) as Hp.
  destruct (partial_progress_verified_live_tx _ _ _ _ _ _ _ _) as [c' [[]|e]]; [|by destruct Hp as [_ ->]].
  destruct Hp as (Hin & w & Hw & Hw'). pose proof (ok_bits _ _ Hok) as Hb.
  split_and!; try done.
  - destruct Hok as [Hm Hsz Hid Hrow _ _ Hf Hbytes].
    split; cbn [rc_manifest rc_partial rc_verified rc_file p_file_id p_have]; [done|done|done|done|by apply wf_bits_set|done|by rewrite Hin|].
    intros i. unfold v. rewrite bit_set_bit by (eapply in_bitmap; [apply Hb|done]).
    unfold content. rewrite Hin. case_decide; [by subst|apply Hbytes].
  - intros (w0 & Hw0 & Hr0 & _). assert (w0 = w) as -> by congruence.
    exists (set_progress (Z.of_nat (prefix_bits v (length (chunks (rc_manifest r))))) (p_state (rc_partial r)) (clock fl) v w).
    split_and!; [done| |done]. cbn. by rewrite Hr0.
Qed.

(** Committing a chunk never loses what is verified.  On every outcome, a short
    write, a failed sync or a refused transaction included, the receiver still
    satisfies its invariant; on an error it and every row are as they were.  A commit
    is accepted only for bytes that hash to the manifest's entry for that index; it
    marks that chunk and no other, and the published row keeps saying what the
    receiver holds. *)
Lemma commit_ok fl c r index data lease :
  rc_ok c r →
  match commit fl c r index data lease with
  | (c', r', Err _) => r' = r ∧ partials c' = partials c ∧ rc_ok c' r
  | (c', r', Ok _) =>
      rc_ok c' r' ∧ (published c r → published c' r') ∧ rc_manifest r' = rc_manifest r ∧
      chunks (rc_manifest r) !! index = Some (blake3 data) ∧ len data = chunk_len (rc_manifest r) index ∧
      contains r' index = true ∧ ∀ j, j ≠ index → contains r' j = contains r j
  end.
Proof.
  intros Hok. unfold commit. destruct (commit_check c r index data lease) as [fresh|] eqn:Hc; [|done].
  apply commit_check_ok in Hc as (Hh & Hl & Hfresh). pose proof (lookup_lt_Some _ _ _ Hh) as Hi.
  destruct fresh; cbn [negb] in Hfresh; [|by split_and!].
  assert (bit (rc_verified r) index = false) as Hb.
  { unfold contains in Hfresh. apply andb_false_iff in Hfresh as [E|E]; [breflect; lia|done]. }
  destruct (commit_write_keeps fl c r index data Hok Hi Hb Hl) as [Hok1 Hpar].
  destruct (commit_write fl r index data c) as [c1 [[]|e]] eqn:Hw; cbn [fst] in *; [|done].
  assert (chunk_ok (rc_manifest r) index (content c1 (rc_file r))) as Hchunk.
  { unfold commit_write in Hw. destruct (write_io fl); [done|]. destruct (sync_io fl); [|done]. injection Hw as <-.
    rewrite content_alter by apply Hok. apply chunk_ok_write_same; [apply Hok|done..]. }
  pose proof (commit_publish_ok fl c1 r index lease Hok1 Hi Hchunk) as Hp.
  destruct (commit_publish fl r index lease c1) as [[c2 r2] [[]|e]].
  - destruct Hp as (Hok2 & Hm & _ & Hpub & _ & _ & Hv). split_and!; [done| |done|done|done| |].
    + intros (w & Hw0 & ?). apply Hpub. exists w. by rewrite Hpar.
    + unfold contains. rewrite Hm, Hv, bit_set_bit, decide_True by (done || (eapply in_bitmap; [apply Hok|done])).
      rewrite andb_true_r. by apply Nat.ltb_lt.
    + intros j Hne. unfold contains. rewrite Hm, Hv, bit_set_bit, decide_False by (done || (eapply in_bitmap; [apply Hok|done])).
      done.
  - destruct Hp as [-> ->]. done.
Qed.

(** ** Finishing *)

(** The file is the one the manifest describes. *)
Definition whole_file m f : Prop := len f = total_size m ∧ ∀ i, (i < length (chunks m))%nat → chunk_ok m i f.

Lemma prefix_all bits n i : prefix_bits bits n = n → (i < n)%nat → bit bits i = true.
Proof. intros Hp Hi. destruct (run_length_spec bits n 0) as (_ & Hb & _). apply Hb. unfold prefix_bits in Hp. lia. Qed.

(** A finished download is the attachment.  [finish] succeeds only on a complete
    receiver; then the file has the size of the manifest and every chunk of it hashes
    to its entry, and the row published for it is [DONE].  On an error the receiver
    and every row are as they were and no verified byte is lost. *)
Lemma finish_ok fl c r lease :
  rc_ok c r →
  match finish fl c r lease with
  | (c', r', Err _) => r' = r ∧ partials c' = partials c ∧ rc_ok c' r
  | (c', r', Ok _) =>
      whole_file (rc_manifest r) (content c' (rc_file r)) ∧ rc_ok c' r' ∧ rc_file r' = rc_file r ∧
      p_state (rc_partial r') = DONE ∧ (published c r → published c' r')
  end.
Proof.
  intros Hok. unfold finish. destruct (res_bind _ _) as [[]|] eqn:Hc; [|done].
  apply res_bind_ok in Hc as ([] & _ & Hc%reject_ok). destruct (negb (len_io fl)); [done|].
  set (c1 := set_inodes _ c). pose proof (ok_tiles _ _ Hok) as Hm.
  assert (content c1 (rc_file r) = set_len (total_size (rc_manifest r)) (content c (rc_file r))) as Hcont
    by (apply content_alter, Hok).
  assert (rc_ok c1 r) as Hok1.
  { eapply rc_ok_file; [done|apply inode_alter, Hok|]. intros i _ Hi. rewrite Hcont. by apply chunk_ok_set_len. }
  destruct (negb (sync_io fl)); [done|].
  pose proof (progress_tx (db_write fl) (p_file_id (rc_partial r)) (p_have (rc_partial r)) DONE (clock fl)
    (rc_verified r) lease c1) as Hp.
  destruct (partial_progress_verified_live_tx _ _ _ _ _ _ _ _) as [c2 [[]|e]]; [|by destruct Hp as [_ ->]].
  destruct Hp as (Hin & w & Hw & Hw').
  assert (content c2 (rc_file r) = content c1 (rc_file r)) as Hc2 by (unfold content; by rewrite Hin).
  split_and!; [| |done|done|].
  - rewrite Hc2. split; [rewrite Hcont; unfold len; rewrite length_set_len; destruct Hm as (_ & ? & _); lia|].
    intros i Hi. apply (ok_bytes _ _ Hok1), prefix_all with (n := length (chunks (rc_manifest r))); [|done].
    unfold rc_prefix, len in Hc. breflect. rewrite (ok_have _ _ Hok) in Hc. lia.
  - destruct Hok1 as [? ? ? ? ? ? ? Hbytes]. split; cbn; [done|done|done|done|done|done|by rewrite Hin|].
    intros i Hi. rewrite Hc2. by apply Hbytes.
  - intros (w0 & Hw0 & Hr0 & Hv0). assert (w0 = w) as -> by (cbn in Hw; congruence).
    eexists. split_and!; [exact Hw'|cbn; by rewrite Hr0|done].
Qed.

(** ** What is asked for next *)

(** The missing chunks from [from] on, among the next [n]. *)
Definition todo r (from n : nat) : list nat := filter (λ i, contains r i = false) (seq from n).

Lemma todo_missing r from n : contains r from = false → todo r from (S n) = from :: todo r (S from) n.
Proof. intros Hc. unfold todo. cbn [seq]. by rewrite filter_cons_True. Qed.

Lemma todo_have r from n : contains r from = true → todo r from (S n) = todo r (S from) n.
Proof. intros Hc. unfold todo. cbn [seq]. rewrite filter_cons_False; [done|]. by rewrite Hc. Qed.

Lemma missing_run_spec r remaining : ∀ idx stop left,
  let n := length (chunks (rc_manifest r)) in
  (idx <= n)%nat → missing_run r idx remaining = (stop, left) →
  (idx <= stop <= n)%nat ∧ (stop - idx + left = remaining)%nat ∧
  todo r idx (n - idx) = seq idx (stop - idx) ++ todo r stop (n - stop) ∧
  (contains r idx = false → idx < n → 0 < remaining → idx < stop)%nat ∧
  (left = 0 ∨ stop = n ∨ contains r stop = true)%nat.
Proof.
  induction remaining as [|remaining IH]; intros idx stop left n Hle; cbn [missing_run].
  { intros [= <- <-]. rewrite Nat.sub_diag. cbn. split_and!; (lia || done || by left). }
  fold n. destruct (idx <? n)%nat eqn:Hlt; breflect; cbn [andb].
  2: { intros [= <- <-]. rewrite Nat.sub_diag. cbn. split_and!; [lia..|done|lia|]. right. left. lia. }
  destruct (contains r idx) eqn:Hc; cbn [negb].
  { intros [= <- <-]. rewrite Nat.sub_diag. cbn. split_and!; [lia..|done|done|]. by right; right. }
  intros Hr. apply IH in Hr as (Hs & Hl & Ht & _ & Hend); [|fold n; lia]. fold n in Hs, Ht, Hend.
  split_and!; [lia|lia|lia| |lia|done].
  replace (n - idx)%nat with (S (n - S idx)) by lia. rewrite todo_missing by done. rewrite Ht.
  replace (stop - idx)%nat with (S (stop - S idx)) by lia. done.
Qed.

(** What one stretch of the loop adds to the ranges. *)
Record asks r (idx limit remaining : nat) (new : list ChunkRange) : Prop := {
  asks_prefix : range_indices new `prefix_of` todo r idx (length (chunks (rc_manifest r)) - idx);
  asks_limit : (length new <= limit)%nat;
  asks_budget : (length (range_indices new) <= remaining)%nat;
  asks_all : range_indices new = todo r idx (length (chunks (rc_manifest r)) - idx) ∨
             length new = limit ∨ length (range_indices new) = remaining;
  asks_sorted : ∀ prev count, prev <= Z.of_nat idx →
    check_ranges_loop new prev count = Ok (count + len (range_indices new));
  asks_inside : Forall (λ g, r_end g <= len (chunks (rc_manifest r))) new;
}.

Lemma asks_nothing r idx limit remaining :
  (length (chunks (rc_manifest r)) <= idx)%nat ∨ limit = 0%nat ∨ remaining = 0%nat → asks r idx limit remaining [].
Proof.
  intros Hstop. split; cbn; [apply prefix_nil|lia|lia| |intros; by rewrite len_nil, Z.add_0_r|done].
  destruct Hstop as [Hn|[->| ->]]; [left|by right; left|by right; right].
  by replace (length (chunks (rc_manifest r)) - idx)%nat with 0%nat by lia.
Qed.

Lemma asks_skip r idx limit remaining new :
  (idx < length (chunks (rc_manifest r)))%nat → contains r idx = true →
  asks r (S idx) limit remaining new → asks r idx limit remaining new.
Proof.
  intros Hi Hc [Hp Hl Hb Ha Hs Hin].
  assert (todo r idx (length (chunks (rc_manifest r)) - idx) = todo r (S idx) (length (chunks (rc_manifest r)) - S idx)) as Ht.
  { replace (length (chunks (rc_manifest r)) - idx)%nat with (S (length (chunks (rc_manifest r)) - S idx)) by lia.
    by apply todo_have. }
  split; rewrite ?Ht; [done..| |done]. intros prev count Hprev. apply Hs. lia.
Qed.

Lemma indices_cons a b new :
  (a <= b)%nat → range_indices (mkRange (Z.of_nat a) (Z.of_nat b) :: new) = seq a (b - a) ++ range_indices new.
Proof. intros. unfold range_indices. cbn. f_equal. f_equal; lia. Qed.

Lemma asks_run r idx stop limit remaining left new :
  (idx < stop <= length (chunks (rc_manifest r)))%nat → (stop - idx + left = remaining)%nat →
  todo r idx (length (chunks (rc_manifest r)) - idx) =
    seq idx (stop - idx) ++ todo r stop (length (chunks (rc_manifest r)) - stop) →
  asks r stop limit left new →
  asks r idx (S limit) remaining (mkRange (Z.of_nat idx) (Z.of_nat stop) :: new).
Proof.
  intros Hs Hl Ht [Hp Hlim Hb Ha Hsort Hin]. pose proof (indices_cons idx stop new ltac:(lia)) as Hidx.
  split; rewrite ?Hidx, ?Ht, ?length_app, ?length_seq; [by apply prefix_app|cbn; lia|lia| | |].
  - destruct Ha as [->|[Ha|Ha]]; [by left|right; left; cbn; lia|right; right; lia].
  - intros prev count Hprev. cbn [check_ranges_loop r_start r_end].
    destruct (_ || _) eqn:E; [apply orb_true_iff in E as [E|E]; breflect; lia|]. cbn [reject res_bind].
    rewrite Hsort by lia. f_equal. unfold len. rewrite length_app, length_seq. lia.
  - constructor; [cbn; unfold len; lia|done].
Qed.

Lemma missing_loop_asks r fuel : ∀ idx limit remaining ranges,
  let n := length (chunks (rc_manifest r)) in
  (n - idx <= fuel)%nat → (length ranges <= limit)%nat →
  ∃ new, missing_loop r fuel idx limit remaining ranges = ranges ++ new ∧ asks r idx (limit - length ranges) remaining new.
Proof.
  induction fuel as [|fuel IH]; intros idx limit remaining ranges n Hf Hlim; cbn [missing_loop].
  { exists []. rewrite app_nil_r. split; [done|]. apply asks_nothing. fold n. lia. }
  fold n. destruct (_ && _ && _) eqn:E.
  2: { exists []. rewrite app_nil_r. split; [done|]. apply asks_nothing. fold n.
       apply andb_false_iff in E as [[E|E]%andb_false_iff|E]; breflect; lia. }
  breflect. destruct (contains r idx) eqn:Hc.
  - destruct (IH (S idx) limit remaining ranges ltac:(lia) Hlim) as (new & -> & Ha). exists new. split; [done|].
    by apply asks_skip.
  - destruct (missing_run r idx remaining) as [stop left] eqn:Hr.
    apply missing_run_spec in Hr as (Hs & Hl & Ht & Hpos & _); [|fold n; lia]. fold n in Hs, Ht, Hpos.
    assert (idx < stop)%nat by (apply Hpos; (done || lia)).
    destruct (IH stop limit left (ranges ++ [mkRange (Z.of_nat idx) (Z.of_nat stop)]) ltac:(lia)
      ltac:(rewrite length_app; cbn; lia)) as (new & -> & Ha).
    eexists. rewrite <- app_assoc. split; [done|]. rewrite length_app in Ha. cbn [length app] in Ha |- *.
    replace (limit - length ranges)%nat with (S (limit - (length ranges + 1))) by lia.
    eapply asks_run; [|done..|done]. fold n. lia.
Qed.

(** The missing chunks of the whole file. *)
Definition all_missing r : list nat := todo r 0 (length (chunks (rc_manifest r))).

Lemma todo_from_prefix c r :
  rc_ok c r →
  let have := Z.to_nat (rc_prefix r) in
  all_missing r = todo r have (length (chunks (rc_manifest r)) - have).
Proof.
  intros Hok have. set (n := length (chunks (rc_manifest r))). pose proof (ok_have _ _ Hok) as Hh. fold n in Hh.
  destruct (run_length_spec (rc_verified r) n 0) as (Hle & Hb & _). fold (prefix_bits (rc_verified r) n) in *.
  assert (have <= n)%nat by (unfold have, rc_prefix; lia).
  unfold all_missing, todo. fold n. replace n with (have + (n - have))%nat at 1 by lia.
  rewrite seq_app, filter_app, (filter_none _ (seq 0 have)); [done|].
  apply Forall_seq. intros i Hi. unfold contains. fold n. rewrite Hb by (unfold have, rc_prefix in *; lia).
  replace (i <? n)%nat with true by (symmetry; apply Nat.ltb_lt; lia). done.
Qed.

Lemma missing_asks r a b :
  asks r (Z.to_nat (rc_prefix r)) a b (missing r a b).
Proof.
  unfold missing. destruct (missing_loop_asks r (length (chunks (rc_manifest r))) (Z.to_nat (rc_prefix r)) a b [])
    as (new & -> & Ha); [lia|cbn; lia|]. cbn in *. by rewrite Nat.sub_0_r in Ha.
Qed.

(** What [missing] asks for passes the checks it is sent through. *)
Lemma missing_validates c r a b limits :
  rc_ok c r → chunk_size (rc_manifest r) <= CHUNK_SIZE → all_missing r ≠ [] → (0 < a)%nat → (0 < b)%nat →
  max_ranges limits = Z.of_nat a → max_chunks limits = Z.of_nat b → max_ranges limits <= MAX_RANGES →
  max_chunks limits <= MAX_CHUNKS →
  range_indices (missing r a b) ≠ [] ∧
  validate_ranges (missing r a b) (rc_manifest r) limits = Ok (len (range_indices (missing r a b))).
Proof.
  intros Hok Hsize Hall Ha Hb Hr Hc HR HC. destruct (missing_asks r a b) as [Hp Hlim Hbud Hcov Hsort Hin].
  rewrite <- (todo_from_prefix c r Hok) in Hp, Hcov. destruct (ok_tiles _ _ Hok) as (Hpos & Ht & Hn).
  assert (range_indices (missing r a b) ≠ []) as Hne.
  { destruct Hcov as [->|[Hl|Hl]]; [done| |].
    - intros Hi. pose proof (Hsort 0 0 ltac:(lia)) as Hcheck. rewrite Hi in Hcheck.
      destruct (missing r a b) as [|g gs]; [cbn in Hl; lia|]. cbn [check_ranges_loop] in Hcheck.
      apply res_bind_ok in Hcheck as ([] & Hg%reject_ok & _). breflect.
      unfold range_indices in Hi. cbn in Hi. apply app_eq_nil in Hi as [Hi _]. apply (f_equal length) in Hi.
      rewrite length_seq in Hi. cbn in Hi. lia.
    - intros Hi. rewrite Hi in Hl. cbn in Hl. lia. }
  split; [done|]. unfold validate_ranges, validate_manifest.
  assert ((chunk_size (rc_manifest r) =? 0) || (chunk_size (rc_manifest r) >? CHUNK_SIZE)
    || negb (len (chunks (rc_manifest r)) =? div_ceil (total_size (rc_manifest r)) (chunk_size (rc_manifest r))) = false) as ->.
  { rewrite Hn, Z.eqb_refl. destruct (_ =? 0) eqn:E1; [breflect; lia|]. destruct (_ >? _) eqn:E2; [breflect; lia|done]. }
  cbn [reject res_bind]. unfold check_ranges.
  assert ((max_ranges limits =? 0) || (max_ranges limits >? MAX_RANGES) || (max_chunks limits =? 0)
    || (max_chunks limits >? MAX_CHUNKS) = false) as -> by (rewrite !orb_false_iff; repeat split; lia).
  cbn [reject res_bind].
  assert ((len (missing r a b) =? 0) || (len (missing r a b) >? max_ranges limits) = false) as ->.
  { rewrite orb_false_iff. unfold len. split; [|lia]. apply Z.eqb_neq. intros Hz. apply Hne.
    by destruct (missing r a b). }
  cbn [reject res_bind]. rewrite Hsort by lia. cbn [res_bind].
  destruct (_ >? max_chunks limits) eqn:E; [breflect; unfold len in *; lia|]. cbn [reject res_bind].
  destruct (existsb _ _) eqn:Ex; [|done]. apply existsb_exists in Ex as (g & Hg & Hgt). breflect.
  rewrite Forall_forall in Hin. apply list_elem_of_In in Hg. specialize (Hin g Hg). cbn in Hin. lia.
Qed.

(** A receiver asks for what it misses, in order and within the limits.  The
    ranges name a prefix of the missing chunks, at most [a] ranges and at most [b]
    chunks, and stop short only because one of the two limits is reached; with
    negotiated limits the request passes the validation both ends apply to it. *)
Theorem missing_exact c r a b :
  rc_ok c r →
  let asked := range_indices (missing r a b) in
  asked `prefix_of` all_missing r ∧ (length (missing r a b) <= a)%nat ∧ (length asked <= b)%nat ∧
  (asked = all_missing r ∨ length (missing r a b) = a ∨ length asked = b) ∧
  (chunk_size (rc_manifest r) <= CHUNK_SIZE → all_missing r ≠ [] → (0 < a <= 16)%nat → (0 < b <= 64)%nat →
   ∀ shared, validate_ranges (missing r a b) (rc_manifest r) (mkLimits shared (Z.of_nat a) (Z.of_nat b)) = Ok (len asked)).
Proof.
  intros Hok asked. destruct (missing_asks r a b) as [Hp Hlim Hbud Hcov Hsort Hin].
  rewrite <- (todo_from_prefix c r Hok) in Hp, Hcov. split_and!; [done..|].
  intros Hs Hne Ha Hb shared. eapply missing_validates; [done..| | |done|done| |]; cbn; unfold MAX_RANGES, MAX_CHUNKS; lia.
Qed.
End receiver.
