(* ===== verification/Resume.v ===== *)
(** * Resume: sequences of commits, and opening again

    Chunks may arrive in any order, more than once, with faults in between; a
    download reopened after any of that, in a new process for instance, has exactly
    the chunks it had. *)

From S2P Require Import Prelude Bytes Crypto Keyspace Attachment AttachmentProps Partials Receiver ReceiverProps.

Section resume.
Context `{Crypto} `{Codec Manifest}.
Implicit Types (c : Core) (r : Receiver) (m : Manifest).

(** ** Any arrival order *)

(** A chunk that arrives: the faults of its commit, its index and its bytes. *)
Definition arrival : Type := Faults * nat * bytes.

(** Commits a sequence of arrivals, and says which were accepted. *)
Fixpoint commit_all c r (lease : ReceiverLease) (l : list arrival) : Core * Receiver * list bool :=
  match l with
  | [] => (c, r, [])
  | (fl, index, data) :: l =>
      let '(c1, r1, o) := commit fl c r index data lease in
      let '(c2, r2, os) := commit_all c1 r1 lease l in
      (c2, r2, is_ok o :: os)
  end.

Lemma published_same c c' r : partials c' = partials c → published c r → published c' r.
Proof. intros Hp (w & Hw & Hrest). exists w. by rewrite Hp. Qed.

(** C28: Any arrival order, any faults.  Committing any sequence of chunks, duplicates,
    forged chunks, short writes, failed syncs and refused transactions among them,
    keeps the invariant of the receiver and its published row, and the chunks it
    holds afterwards are exactly those it held and those of the accepted commits. *)
Theorem commits_any_order c r lease l :
  rc_ok c r → published c r →
  let '(c', r', oks) := commit_all c r lease l in
  rc_ok c' r' ∧ published c' r' ∧ length oks = length l ∧
  ∀ j, contains r' j = true ↔
    contains r j = true ∨ ∃ k fl data, l !! k = Some (fl, j, data) ∧ oks !! k = Some true.
Proof.
  revert c r. induction l as [|[[fl i] data] l IH]; intros c r Hok Hpub; cbn [commit_all].
  { split_and!; [done..|]. intros j. split; [by left|]. intros [?|(k & fl & data & Hk & _)]; [done|by destruct k]. }
  pose proof (commit_ok fl c r i data lease Hok) as Hc.
  destruct (commit fl c r i data lease) as [[c1 r1] [[]|err]]; cbn [is_ok].
  - destruct Hc as (Hok1 & Hpub1 & _ & _ & _ & Hin & Hother). specialize (IH c1 r1 Hok1 (Hpub1 Hpub)).
    destruct (commit_all c1 r1 lease l) as [[c2 r2] oks]. destruct IH as (Hok2 & Hpub2 & Hlen & Hiff).
    split_and!; [done|done|cbn; by f_equal|]. intros j. rewrite Hiff. split.
    + intros [Hj|(k & fl' & data' & Hk & Hokk)]; [|right; by exists (S k), fl', data'].
      destruct (decide (j = i)) as [->|Hne]; [right; by exists 0%nat, fl, data|left; by rewrite <- Hother].
    + intros [Hj|([|k] & fl' & data' & Hk & Hokk)].
      * left. destruct (decide (j = i)) as [->|Hne]; [done|by rewrite Hother].
      * left. by injection Hk as -> -> ->.
      * right. by exists k, fl', data'.
  - destruct Hc as (-> & Hpar & Hok1). specialize (IH c1 r Hok1 (published_same _ _ _ Hpar Hpub)).
    destruct (commit_all c1 r lease l) as [[c2 r2] oks]. destruct IH as (Hok2 & Hpub2 & Hlen & Hiff).
    split_and!; [done|done|cbn; by f_equal|]. intros j. rewrite Hiff. apply or_iff_compat_l. split.
    + intros (k & fl' & data' & Hk & Hokk). by exists (S k), fl', data'.
    + intros ([|k] & fl' & data' & Hk & Hokk); [done|]. by exists k, fl', data'.
Qed.

(** ** Opening again *)

Lemma gtb_false a b : a <= b → (a >? b) = false.
Proof. intros. rewrite Z.gtb_ltb. by apply Z.ltb_ge. Qed.

(** What a receiver publishes passes the check of a stored bitmap. *)
Lemma wf_bits_validate n bits :
  wf_bits n bits → Z.of_nat n <= MAX_MANIFEST_CHUNKS → is_ok (validate_bitmap bits (Z.of_nat n)) = true ∧ len bits <= 32768.
Proof.
  intros (Hl & Hu & Hb) Hn. unfold validate_bitmap. rewrite Hl, Z.eqb_refl.
  assert (div_ceil (Z.of_nat n) 8 <= 32768) as Hcap.
  { unfold MAX_MANIFEST_CHUNKS in Hn. change (8 * 1024 * 1024 / 32) with 262144 in Hn.
    destruct (decide (div_ceil (Z.of_nat n) 8 <= 32768)) as [|Hgt]; [done|].
    assert (32768 < div_ceil (Z.of_nat n) 8) as Hlt by lia. apply div_ceil_lt in Hlt; lia. }
  split; [|done]. rewrite gtb_false by done.
  cbn [negb orb]. destruct (negb (Z.of_nat n mod 8 =? 0)) eqn:E; [|done]. cbn [andb]. breflect.
  destruct (last bits) as [b|] eqn:Hlast; [|done].
  assert (Z.shiftr b (Z.of_nat n mod 8) = 0) as ->; [|done].
  apply Z.bits_inj'. intros k Hk. rewrite Z.shiftr_spec, Z.bits_0 by done.
  pose proof (Z.mod_pos_bound (Z.of_nat n) 8 ltac:(lia)).
  rewrite last_lookup in Hlast. rewrite Forall_lookup in Hu. pose proof (Hu _ _ Hlast) as Hub.
  destruct (decide (k + Z.of_nat n mod 8 < 8)) as [Hlt|Hge]; [|apply (testbit_small 8); [lia|exact Hub|lia]].
  destruct (Z.testbit b (k + Z.of_nat n mod 8)) eqn:Et; [|done]. exfalso.
  unfold len, div_ceil in Hl. destruct (Z.of_nat n mod 8 >? 0) eqn:E8; breflect; [|lia].
  pose proof (Z.div_mod (Z.of_nat n) 8 ltac:(lia)).
  set (j := (8 * pred (length bits) + Z.to_nat (k + Z.of_nat n mod 8))%nat).
  assert (j / 8 = pred (length bits) ∧ j mod 8 = Z.to_nat (k + Z.of_nat n mod 8))%nat as [Hq Hr].
  { unfold j. rewrite Nat.mul_comm. split.
    - rewrite Nat.div_add_l, Nat.div_small by lia. lia.
    - rewrite Nat.add_comm, Nat.Div0.mod_add, Nat.mod_small by lia. done. }
  assert (j < n)%nat; [|unfold j in *; lia]. apply Hb. rewrite bit_testbit, Hq, Hlast, Hr, Z2Nat.id by lia. done.
Qed.

Lemma open_existing fl dir c fid peer m size lease c' r' path ex ino :
  saved_path fl dir c fid = Ok (path, ex) → names c !! path = Some ino →
  open_inner fl dir c fid peer m size lease = (c', Ok r') → rc_file r' = ino ∧ inodes c' = inodes c.
Proof.
  intros Hp Hn. unfold open_inner, open_prepare. rewrite Hp. destruct (reject _ _); [|done]. cbn [res_bind].
  destruct (validate_offer _ _ _); [|done]. cbn [res_bind]. destruct (saved_bits _ _ _ _ _ _); [|done]. cbn [res_bind].
  unfold open_partial. destruct (ensure_live c lease); [|done]. destruct (open_io fl); [|done].
  unfold open_file. rewrite Hn. destruct (open_scan _ _ _ _ _ _) as [[raw v]|]; [|done]. unfold open_publish.
  set (p := mkPartial _ _ _ _ _ _ _ _ _).
  destruct (partial_put_verified_live_tx (db_write fl) p v lease c) as [c2 [[]|]] eqn:Hput; [|done].
  apply put_verified_ok in Hput as [Hin _]. by intros [= <- <-].
Qed.

(** C29: Nothing is lost across a restart.  When a receiver's row and file are as it
    left them (which every commit ensures, whatever failed), opening the download
    again, under any lease and from any peer offering the same attachment, gives a
    receiver with exactly the same chunks. *)
Theorem reopen_resumes fl dir c r fid peer size lease c' r' :
  wf_core c → rc_ok c r → published c r → p_file_id (rc_partial r) = fid →
  names c !! p_path (rc_partial r) = Some (rc_file r) →
  (∀ raw, p_manifest (rc_partial r) = Some raw → len raw <= 8 * 1024 * 1024) →
  open_inner fl dir c fid peer (rc_manifest r) size lease = (c', Ok r') →
  rc_ok c' r' ∧ rc_file r' = rc_file r ∧ ∀ i, contains r' i = contains r i.
Proof.
  intros Hc Hok (w & Hw & Hrow & Hver) Hfid Hn Hraw Hopen. destruct (ok_tiles _ _ Hok) as (Hcs & Ht & _).
  pose proof (open_inner_ok fl dir c fid peer (rc_manifest r) size lease Hc Ht ltac:(lia)) as Hres. rewrite Hopen in Hres.
  destruct Hres as (Hok' & _ & Hm & _ & Hsize & path & ex & bits & Hpath & Hbits & _ & Hiff). rewrite Hfid in Hw.
  assert (partial_get_tx c fid = Some (rc_partial r)) as Hget by (unfold partial_get_tx; by rewrite Hw, <- Hrow).
  assert (path = p_path (rc_partial r) ∧ ex = true) as [-> ->].
  { unfold saved_path in Hpath. rewrite Hget in Hpath. destruct (negb _); [done|].
    rewrite decide_True in Hpath by by rewrite Hn. by injection Hpath. }
  destruct (open_existing _ _ _ _ _ _ _ _ _ _ _ _ _ Hpath Hn Hopen) as [Hfile Hin].
  assert (bits = rc_verified r) as ->.
  { destruct (wf_bits_validate _ _ (ok_bits _ _ Hok) (proj2 (ok_size _ _ Hok))) as [Hvalid Hcap].
    destruct (ok_row _ _ Hok) as (Htot & Hpcs & raw & Hser & Hman).
    assert (validate_offer (rc_manifest r) fid size = Ok tt) as Hoffer.
    { unfold open_inner, open_prepare in Hopen. destruct (reject _ _) as [[]|]; [|done]. cbn [res_bind] in Hopen.
      by destruct (validate_offer _ _ _) as [[]|]. }
    unfold saved_bits in Hbits. rewrite Hget, Htot, Hpcs, !Z.eqb_refl, Hman, (deser_ser _ _ Hser), Hoffer in Hbits.
    rewrite bool_decide_true in Hbits by done.
    replace (len raw <=? 8 * 1024 * 1024) with true in Hbits by (symmetry; apply Z.leb_le; auto). cbn [andb is_ok] in Hbits.
    destruct (negb _); [done|]. unfold verified_bitmap_tx in Hbits. rewrite Hw in Hbits. cbn in Hbits. rewrite Hver in Hbits.
    cbn in Hbits. rewrite gtb_false in Hbits by done.
    rewrite Hvalid in Hbits. by injection Hbits. }
  split_and!; [done..|]. intros i. unfold contains. rewrite Hm. destruct (_ <? _)%nat; [|done]. cbn [andb].
  apply eq_true_iff_eq. rewrite Hiff. split; [by intros [? _]|]. intros Hb. split; [done|].
  unfold content. rewrite Hin, Hfile. by apply (ok_bytes _ _ Hok).
Qed.
End resume.
