(* ===== verification/PartialsProps.v ===== *)
(** * PartialsProps: deletion, collection and wakes

    A receiver works outside the database lock, so a deletion may fall between any two
    of its steps: [writer_step] are the steps it is made of, and a cancelled one can
    recreate neither a row nor a name.  Collection spares finished and live downloads,
    and a wake is claimed once per sender and backoff. *)

From S2P Require Import Prelude Bytes Crypto Keyspace Attachment Partials Receiver.

(** ** The steps of a worker *)

(** What the worker holding token [t] does to the shared state in one step: write its
    open file, or enter the lock for one of the guarded operations. *)
Inductive writer_step (t : Z) (c : Core) : Core → Prop :=
| step_file g : writer_step t c (set_inodes g c)
| step_open io lease path : l_cancel lease = t → writer_step t c (open_partial io lease path c).1
| step_put db p lease : l_cancel lease = t → writer_step t c (partial_put_live_tx db p lease c).1
| step_put_verified db p verified lease :
    l_cancel lease = t → writer_step t c (partial_put_verified_live_tx db p verified lease c).1
| step_progress db fid have state now verified lease :
    l_cancel lease = t → writer_step t c (partial_progress_verified_live_tx db fid have state now verified lease c).1.

Section worker.
Context `{Crypto} `{Codec Manifest}.

(** The operations of a receiver are made of these steps. *)
Lemma open_inner_steps fl dir c fid peer m size lease :
  rtc (writer_step (l_cancel lease)) c (open_inner fl dir c fid peer m size lease).1.
Proof.
  unfold open_inner. destruct (open_prepare _ _ _ _ _ _ _) as [[path bits]|]; [|apply rtc_refl].
  pose proof (step_open (l_cancel lease) c (open_io fl) lease path eq_refl) as Hs.
  destruct (open_partial _ _ _ _) as [c1 [ino|e]]; cbn in *; [|by apply rtc_once].
  destruct (open_scan _ _ _ _ _ _) as [[raw v]|]; [|by apply rtc_once].
  eapply rtc_l; [exact Hs|]. unfold open_publish. set (p := mkPartial _ _ _ _ _ _ _ _ _).
  pose proof (step_put_verified (l_cancel lease) c1 (db_write fl) p v lease eq_refl) as Hs2.
  destruct (partial_put_verified_live_tx _ _ _ _ _) as [c2 [u|e]]; by apply rtc_once.
Qed.

Lemma commit_steps fl c r index data lease :
  rtc (writer_step (l_cancel lease)) c (commit fl c r index data lease).1.1.
Proof.
  unfold commit. destruct (commit_check _ _ _ _ _) as [[]|]; [|apply rtc_refl..].
  assert (writer_step (l_cancel lease) c (commit_write fl r index data c).1) as Hw
    by (unfold commit_write; destruct (write_io fl); apply step_file).
  destruct (commit_write _ _ _ _ _) as [c1 [u|e]]; cbn in Hw |- *; [|by apply rtc_once].
  eapply rtc_l; [exact Hw|]. unfold commit_publish. cbv zeta.
  match goal with |- context [partial_progress_verified_live_tx ?db ?fid ?h ?s ?n ?v lease c1] =>
    pose proof (step_progress (l_cancel lease) c1 db fid h s n v lease eq_refl) as Hs end.
  destruct (partial_progress_verified_live_tx _ _ _ _ _ _ _ _) as [c2 [u'|e]]; by apply rtc_once.
Qed.

Lemma finish_steps fl c r lease : rtc (writer_step (l_cancel lease)) c (finish fl c r lease).1.1.
Proof.
  unfold finish. destruct (res_bind _ _) as [u|]; [|apply rtc_refl]. destruct (negb (len_io fl)); [apply rtc_refl|].
  set (c1 := set_inodes _ c). assert (writer_step (l_cancel lease) c c1) as Hw by apply step_file.
  destruct (negb (sync_io fl)); [by apply rtc_once|]. eapply rtc_l; [exact Hw|].
  match goal with |- context [partial_progress_verified_live_tx ?db ?fid ?h ?s ?n ?v lease c1] =>
    pose proof (step_progress (l_cancel lease) c1 db fid h s n v lease eq_refl) as Hs end.
  destruct (partial_progress_verified_live_tx _ _ _ _ _ _ _ _) as [c2 [u'|e]]; by apply rtc_once.
Qed.

(** ** Deletion *)

Lemma cancelled_stops c lease : l_cancel lease ∈ cancelled c → ensure_live c lease = Err Cancelled.
Proof. intros Hc. unfold ensure_live, is_cancelled. by rewrite bool_decide_true. Qed.

(** A cancelled worker touches nothing but the file it has open. *)
Lemma cancelled_step t c c' :
  t ∈ cancelled c → writer_step t c c' →
  partials c' = partials c ∧ names c' = names c ∧ cancelled c' = cancelled c.
Proof.
  intros Ht Hs. destruct Hs; [done|..]; subst t;
    unfold open_partial, partial_put_live_tx, partial_put_verified_live_tx, partial_progress_verified_live_tx;
    by rewrite cancelled_stops.
Qed.

Lemma cancelled_steps t c c' :
  rtc (writer_step t) c c' → t ∈ cancelled c → partials c' = partials c ∧ names c' = names c.
Proof.
  induction 1 as [|c c1 c' Hs _ IH]; [done|]. intros Ht.
  apply cancelled_step in Hs as (Hp & Hn & Hc); [|done]. rewrite <- Hp, <- Hn. apply IH. by rewrite Hc.
Qed.

Lemma forget_retention_partial dir fid c :
  partials (forget_retention fid (forget_partial dir fid c)) = delete fid (partials c) ∧
  names (forget_retention fid (forget_partial dir fid c)) !! p_path (default (mkPartial fid [] 0 0 None 0 0 (partial_path dir fid) 0)
    (row <$> partials c !! fid)) = None ∧
  cancelled (forget_retention fid (forget_partial dir fid c)) = cancelled c.
Proof.
  unfold forget_retention, forget_partial. cbn. destruct (retention c !! fid) as [ret|]; cbn.
  - split_and!; [done| |done]. destruct (partials c !! fid); cbn; rewrite lookup_delete_None; right; by rewrite lookup_delete_eq.
  - split_and!; [done| |done]. destruct (partials c !! fid); cbn; by rewrite lookup_delete_eq.
Qed.

(** C34: A deleted download stays deleted.  Once [forget_file] has run, whatever the
    worker that was downloading the file still does, wherever it was interrupted (it
    may finish writing its open file, publish, finish or open again), neither the row
    of the file nor the name of its bytes comes back. *)
Theorem deletion_is_final dir c fid w t c' :
  partials c !! fid = Some w → receivers c !! fid = Some t →
  rtc (writer_step t) (forget_file dir fid c) c' →
  partials c' !! fid = None ∧ names c' !! p_path (row w) = None.
Proof.
  intros Hw Ht Hsteps. unfold forget_file in Hsteps. rewrite Ht in Hsteps.
  destruct (forget_retention_partial dir fid (cancel t c)) as (Hp & Hn & Hc).
  apply cancelled_steps in Hsteps as [Hp' Hn']; [|rewrite Hc; cbn; set_solver].
  rewrite Hp', Hn', Hp. cbn in Hn. rewrite Hw in Hn. split; [apply lookup_delete_eq|done].
Qed.
End worker.

(** ** Collection *)

Definition collectable (older_than : Z) (c : Core) (fid : bytes) (w : PartialRow) : Prop :=
  (p_state (row w) = FAILED ∨ p_state (row w) = HELD ∨ p_state (row w) = CONNECTING) ∧
  p_updated_at (row w) < older_than ∧ receivers c !! fid = None.

Lemma gc_paths paths : ∀ c,
  partials (fold_left (λ c p, gc_path p c) paths c) = filter (λ kr, p_path (row kr.2) ∉ paths) (partials c) ∧
  ∀ p, p ∉ paths → names (fold_left (λ c p, gc_path p c) paths c) !! p = names c !! p.
Proof.
  induction paths as [|q paths IH]; intros c; cbn [fold_left].
  - split; [|done]. symmetry. apply map_filter_id. intros. apply not_elem_of_nil.
  - destruct (IH (gc_path q c)) as [Hp Hn]. split.
    + rewrite Hp. cbn. rewrite map_filter_filter. apply map_filter_ext. intros k v _. cbn.
      rewrite not_elem_of_cons. naive_solver.
    + intros p [Hne Hin]%not_elem_of_cons. rewrite Hn by done. cbn. by rewrite lookup_delete_ne.
Qed.

(** Collection takes dead downloads only.  When every row names a file of its own,
    a row disappears exactly when its download failed or waits for a peer, is older
    than the limit and has no live receiver; every other row, a finished download
    above all, keeps its row and its file. *)
Theorem gc_takes_dead_only c rows_order older_than :
  rows_order ≡ₚ map_to_list (partials c) →
  (∀ k1 k2 w1 w2, partials c !! k1 = Some w1 → partials c !! k2 = Some w2 → p_path (row w1) = p_path (row w2) → k1 = k2) →
  let c' := (gc_dead_partials_tx c rows_order older_than).1 in
  ∀ fid w, partials c !! fid = Some w →
    (collectable older_than c fid w ∧ partials c' !! fid = None) ∨
    (¬ collectable older_than c fid w ∧ partials c' !! fid = Some w ∧ names c' !! p_path (row w) = names c !! p_path (row w)).
Proof.
  intros Hperm Hinj c' fid w Hw. unfold c', gc_dead_partials_tx. cbn [fst].
  set (paths := map _ (filter _ (filter _ _))). destruct (gc_paths paths c) as [Hp Hn].
  assert (p_path (row w) ∈ paths ↔ collectable older_than c fid w) as Hiff.
  { unfold paths. rewrite list_elem_of_fmap. setoid_rewrite list_elem_of_filter. setoid_rewrite list_elem_of_filter.
    split.
    - intros ([k v] & Heq & Hlive & (Hst & Hold) & Hin). rewrite Hperm, elem_of_map_to_list in Hin. cbn in *.
      assert (fid = k) as <- by (by eapply Hinj). assert (w = v) as <- by congruence. done.
    - intros (Hst & Hold & Hlive). exists (fid, w). rewrite Hperm, elem_of_map_to_list. done. }
  destruct (decide (p_path (row w) ∈ paths)) as [Hin|Hout].
  - left. split; [by apply Hiff|]. rewrite Hp. apply map_lookup_filter_None. right. intros x Hx. cbn.
    assert (x = w) as -> by congruence. tauto.
  - right. split_and!; [by rewrite <- Hiff| |by apply Hn]. rewrite Hp. by apply map_lookup_filter_Some.
Qed.

(** ** Wakes *)

(** One wake per sender and backoff.  After a claimed wake at [now], no file of
    the same sender claims another until the backoff has passed, whichever states the
    files are in. *)
Theorem wake_claimed_once c fid now backoff c' fid' w w' now' :
  claim_wake_tx c fid now backoff = (c', true) → 0 < now → sat_sub now' backoff < now →
  partials c !! fid = Some w → partials c' !! fid' = Some w' → p_source_ipk (row w') = p_source_ipk (row w) →
  claim_wake_tx c' fid' now' backoff = (c', false).
Proof.
  intros Hclaim Hnow Hsoon Hw Hw' Hsrc. unfold claim_wake_tx in Hclaim. rewrite Hw in Hclaim.
  destruct (_ && negb _) in Hclaim; [|done]. injection Hclaim as <-. unfold claim_wake_tx. rewrite Hw'.
  match goal with |- context [existsb ?f ?l] => assert (existsb f l = true) as -> end; [|by rewrite andb_false_r].
  apply existsb_exists. cbn. rewrite fmap_insert.
  set (w1 := if _ : bool then set_pending true _ else _). exists w1. split.
  - apply list_elem_of_In, list_elem_of_fmap. exists (fid, w1). split; [done|].
    apply elem_of_map_to_list. by rewrite lookup_insert_eq.
  - assert (row w1 = row w ∧ last_wake_at w1 = now) as [-> ->] by (unfold w1; by destruct (_ && _)).
    rewrite bool_decide_true by done. cbn. apply andb_true_iff. split; lia.
Qed.
