(* ===== verification/Sharing.v ===== *)
(** * Sharing: who may serve a file to whom

    libcore/src/transfer/sharing.rs (grants to serve a completed recipient copy) and
    the queries of transfer/serve.rs and data/media.rs that scope a transfer to a
    message.  The tables of the messages database are lists of rows; a query is
    evaluated over them as its joins and conditions say. *)

From S2P Require Import Prelude Bytes Crypto Keyspace Attachment Partials.

Definition KIND_DIRECT : Z := 0.
Definition KIND_GROUP : Z := 1.
Definition KIND_ATTACHMENT : Z := 2.

Definition MAX_LIFETIME : Z := 7 * 24 * 60 * 60.
Definition CLOCK_SKEW : Z := 300.
Definition MAX_PENDING_PER_AUTHOR : Z := 64.
Definition MAX_PENDING : Z := 1024.
Definition MAX_PROVIDERS : nat := 3.
Definition MAX_GROUP_MEMBERS : Z := 256.

(** ** Tables *)

Record ConversationRow := mkConversation { cv_id : bytes; cv_kind : Z; cv_mls_group_id : option bytes }.
Record MemberRow := mkMember { mb_conversation : bytes; mb_ipk : bytes; mb_active : bool }.
Record MessageRow := mkMessage {
  ms_id : Z;
  ms_conversation : bytes;
  ms_sender_ipk : option bytes;
  ms_dispatch_id : bytes;
  ms_outgoing : bool;
  ms_deleted : bool;
  ms_edited : bool;
}.
Record MediaRow := mkMedia {
  mm_conversation : bytes;
  mm_dispatch_id : bytes;
  mm_file_id : option bytes;
  mm_size : Z;
  mm_kind : Z;
}.

(** [AttachmentSharing] of common/src/proto/mls_wire.rs *)
Record AttachmentSharing := mkSharing {
  as_message_id : bytes;
  as_file_id : bytes;
  as_size : Z;
  as_expires_at : Z;
  as_recipients : list bytes;
}.

Record Grant := mkGrant {
  g_id : bytes;
  g_conversation : bytes;
  g_group : bytes;
  g_author : bytes;
  g_offer : AttachmentSharing;
  g_control_id : option bytes;
}.

Record Messages := mkMessages {
  conversations : list ConversationRow;
  members : list MemberRow;
  messages : list MessageRow;
  media : list MediaRow;
  grants : list Grant;
  revocations : list (bytes * bytes * bytes);
  intents : list Z;
}.

Definition set_grants (f : list Grant → list Grant) (d : Messages) : Messages :=
  mkMessages (conversations d) (members d) (messages d) (media d) (f (grants d)) (revocations d) (intents d).
Definition set_intents (f : list Z → list Z) (d : Messages) : Messages :=
  mkMessages (conversations d) (members d) (messages d) (media d) (grants d) (revocations d) (f (intents d)).

Definition eqb (a b : bytes) : bool := bool_decide (a = b).
Definition eqb_opt (a : option bytes) (b : bytes) : bool := bool_decide (a = Some b).

(** An active member of a conversation. *)
Definition active_member (d : Messages) (conv ipk : bytes) : bool :=
  existsb (λ r, eqb (mb_conversation r) conv && eqb (mb_ipk r) ipk && mb_active r) (members d).

(** ** Who a file was sent to *)

(** The query of [offered_to]; [paired] is [Contact::is_paired_tx] of the peer. *)
Definition offered_to (d : Messages) (paired : bool) (fid peer me : bytes) : bool :=
  existsb (λ mm, existsb (λ m, existsb (λ c, existsb (λ cm,
      eqb (ms_conversation m) (mm_conversation mm) && eqb (ms_dispatch_id m) (mm_dispatch_id mm)
      && eqb (cv_id c) (mm_conversation mm) && eqb (mb_conversation cm) (mm_conversation mm)
      && eqb_opt (mm_file_id mm) fid && eqb (mb_ipk cm) peer && mb_active cm && ms_outgoing m && negb (ms_deleted m)
      && (((cv_kind c =? KIND_GROUP) && active_member d (mm_conversation mm) me)
          || ((cv_kind c =? KIND_DIRECT) && paired)))
    (members d)) (conversations d)) (messages d)) (media d).

(** [attachment_offer_tx]: the first row the query finds. *)
Definition attachment_offer_tx (d : Messages) (fid : bytes) : option (bytes * Z) :=
  head (media d ≫= λ mm, messages d ≫= λ m,
    if eqb (ms_conversation m) (mm_conversation mm) && eqb (ms_dispatch_id m) (mm_dispatch_id mm)
       && eqb_opt (mm_file_id mm) fid && negb (ms_outgoing m)
    then match ms_sender_ipk m with Some s => [(s, mm_size mm)] | None => [] end else []).

(** ** Grants *)

Section grants.
Context `{Crypto} `{Codec AttachmentSharing}.

(** [grant_id] *)
Definition grant_id (group author : bytes) (offer : AttachmentSharing) : res bytes :=
  match ser offer with
  | None => Err (Other "postcard")
  | Some raw => Ok (blake3 (str "promtuz-attachment-sharing-v1" ++ [0] ++ group ++ author ++ raw))
  end.

(** [windows(2).all(|w| w[0] < w[1])] *)
Fixpoint strictly_sorted (l : list bytes) : bool :=
  match l with
  | a :: (b :: _) as rest => bool_decide (bytes_lt a b) && strictly_sorted rest
  | _ => true
  end.

(** [validate] *)
Definition validate (author : bytes) (offer : AttachmentSharing) (now : Z) : res unit :=
  _ ⇐ reject (negb ((as_expires_at offer >? now) && (as_expires_at offer <=? sat_add now (MAX_LIFETIME + CLOCK_SKEW))))
        (Other "invalid sharing expiry");
  _ ⇐ reject (as_size offer >? 2 ^ 63 - 1) (Other "invalid attachment size");
  _ ⇐ reject (negb ((2 <=? len (as_recipients offer)) && (len (as_recipients offer) <? MAX_GROUP_MEMBERS)))
        (Other "invalid sharing audience size");
  reject (negb (strictly_sorted (as_recipients offer) && negb (bool_decide (author ∈ as_recipients offer))))
    (Other "invalid sharing audience").

(** The table is unique in the grant id and in the message shared. *)
Definition conflicts (g h : Grant) : bool :=
  eqb (g_id g) (g_id h)
  || (eqb (g_conversation g) (g_conversation h) && eqb (g_author g) (g_author h)
      && eqb (as_message_id (g_offer g)) (as_message_id (g_offer h))).

(** [insert]: [INSERT OR IGNORE] *)
Definition insert_grant (g : Grant) (d : Messages) : Messages :=
  if existsb (conflicts g) (grants d) then d else set_grants (λ l, l ++ [g]) d.

(** The message a grant of ours would share is still there as it was sent. *)
Definition live_outgoing (d : Messages) (conversation group message_id fid : bytes) (size : Z) : bool :=
  existsb (λ m, existsb (λ c, existsb (λ mm,
      eqb (cv_id c) (ms_conversation m)
      && eqb (mm_conversation mm) (ms_conversation m) && eqb (mm_dispatch_id mm) (ms_dispatch_id m)
      && eqb (ms_conversation m) conversation && eqb (ms_dispatch_id m) message_id && ms_outgoing m
      && negb (ms_deleted m) && negb (ms_edited m) && (cv_kind c =? KIND_GROUP) && eqb_opt (cv_mls_group_id c) group
      && eqb_opt (mm_file_id mm) fid && (mm_size mm =? size))
    (media d)) (conversations d)) (messages d).

(** [sort_unstable] and [dedup] *)
Fixpoint dedup (l : list bytes) : list bytes :=
  match l with
  | a :: (b :: _) as rest => if eqb a b then dedup rest else a :: dedup rest
  | _ => l
  end.
Definition sort_dedup (l : list bytes) : list bytes := dedup (merge_sort bytes_le l).

(** [outgoing_tx]; [control_id] is [next_dispatch_id()].  An early [return] before the
    commit rolls the transaction back. *)
Definition outgoing_tx (d : Messages) (conversation group author message_id fid : bytes) (size : Z)
    (recipients roster : list bytes) (retained_until now : Z) (control_id : bytes) :
    Messages * res (option (bytes * AttachmentSharing)) :=
  match list_find (λ g, g_conversation g = conversation ∧ g_author g = author ∧ as_message_id (g_offer g) = message_id)
          (grants d) with
  | Some (_, saved) =>
      (d, Ok (match g_control_id saved with
              | Some id =>
                  if eqb (g_group saved) group && eqb (as_file_id (g_offer saved)) fid
                     && (as_size (g_offer saved) =? size) && (as_expires_at (g_offer saved) >? now)
                  then Some (id, g_offer saved) else None
              | None => None
              end))
  | None =>
      let mine := map ms_id (filter (λ m, ms_conversation m = conversation ∧ ms_dispatch_id m = message_id ∧ ms_outgoing m = true)
                               (messages d)) in
      if bool_decide (Exists (λ i, i ∈ mine) (intents d)) then
        let d' := set_intents (filter (λ i, i ∉ mine)) d in
        if negb (live_outgoing d' conversation group message_id fid size) || negb (bool_decide (author ∈ roster)) then
          (d', Ok None)
        else
          let audience := sort_dedup (filter (λ p, p ≠ author ∧ p ∈ roster) recipients) in
          if (length audience <? 2)%nat then (d', Ok None)
          else
            let offer := mkSharing message_id fid size (Z.min retained_until (sat_add now MAX_LIFETIME)) audience in
            if negb (is_ok (validate author offer now)) then (d', Ok None)
            else match grant_id group author offer with
            | Err e => (d, Err e)
            | Ok id =>
                (insert_grant (mkGrant id conversation group author offer (Some control_id)) d', Ok (Some (control_id, offer)))
            end
      else (d, Ok None)
  end.

(** A grant whose post has not arrived. *)
Definition pending (d : Messages) (g : Grant) : bool :=
  bool_decide (g_control_id g = None) &&
  negb (existsb (λ m, eqb (ms_conversation m) (g_conversation g) && eqb_opt (ms_sender_ipk m) (g_author g)
                      && eqb (ms_dispatch_id m) (as_message_id (g_offer g))) (messages d)).

Definition how_many {A} (f : A → bool) (l : list A) : Z := len (filter (λ x, f x = true) l).

(** [receive_tx]: an error rolls the transaction back. *)
Definition receive_tx (d : Messages) (conversation author me : bytes) (offer : AttachmentSharing) (now : Z) :
    Messages * res unit :=
  match _ ⇐ validate author offer now;
        reject (negb (bool_decide (me ∈ as_recipients offer))) (Other "sharing grant does not name us") with
  | Err e => (d, Err e)
  | Ok _ =>
      match list_find (λ c, cv_id c = conversation ∧ cv_kind c = KIND_GROUP) (conversations d) with
      | Some (_, mkConversation _ _ (Some group)) =>
          let d' := set_grants (filter (λ g, now < as_expires_at (g_offer g))) d in
          let present := existsb (λ m, eqb (ms_conversation m) conversation && eqb_opt (ms_sender_ipk m) author
                            && eqb (ms_dispatch_id m) (as_message_id offer) && negb (ms_outgoing m)) (messages d') in
          let total := how_many (pending d') (grants d') in
          let mine := how_many (λ g, pending d' g && eqb (g_conversation g) conversation && eqb (g_author g) author) (grants d') in
          if negb present && negb ((total <? MAX_PENDING) && (mine <? MAX_PENDING_PER_AUTHOR)) then
            (d, Err (Other "pending sharing grants full"))
          else match grant_id group author offer with
          | Err e => (d, Err e)
          | Ok id => (insert_grant (mkGrant id conversation group author offer None) d', Ok tt)
          end
      | _ => (d, Err Sql)
      end
  end.

(** [revoke]: [INSERT OR IGNORE] *)
Definition revoke (conversation author target : bytes) (d : Messages) : Messages :=
  if bool_decide ((conversation, author, target) ∈ revocations d) then d
  else mkMessages (conversations d) (members d) (messages d) (media d) (grants d)
         (revocations d ++ [(conversation, author, target)]) (intents d).

(** [authorized] *)
Definition authorized (d : Messages) (g : Grant) (me peer : bytes) (now : Z) : bool :=
  if (as_expires_at (g_offer g) <=? now) || eqb me peer || negb (bool_decide (me ∈ as_recipients (g_offer g)))
     || negb (bool_decide (peer ∈ as_recipients (g_offer g)))
  then false
  else existsb (λ c, existsb (λ m, existsb (λ mm,
      eqb (ms_conversation m) (cv_id c) && eqb (mm_conversation mm) (ms_conversation m)
      && eqb (mm_dispatch_id mm) (ms_dispatch_id m)
      && eqb (cv_id c) (g_conversation g) && eqb_opt (cv_mls_group_id c) (g_group g) && (cv_kind c =? KIND_GROUP)
      && eqb_opt (ms_sender_ipk m) (g_author g) && eqb (ms_dispatch_id m) (as_message_id (g_offer g))
      && negb (ms_outgoing m) && negb (ms_deleted m) && negb (ms_edited m)
      && eqb_opt (mm_file_id mm) (as_file_id (g_offer g)) && (mm_size mm =? as_size (g_offer g))
      && (mm_kind mm =? KIND_ATTACHMENT)
      && negb (bool_decide ((cv_id c, g_author g, as_message_id (g_offer g)) ∈ revocations d))
      && active_member d (cv_id c) (g_author g) && active_member d (cv_id c) me && active_member d (cv_id c) peer)
    (media d)) (messages d)) (conversations d).

(** [permitted] *)
Definition permitted (d : Messages) (id fid me peer : bytes) (now : Z) : option Grant :=
  match list_find (λ g, g_id g = id ∧ as_file_id (g_offer g) = fid) (grants d) with
  | Some (_, g) => if authorized d g me peer now then Some g else None
  | None => None
  end.

(** The loops of [candidates] over the grants the query returned. *)
Definition add_provider (d : Messages) (me : bytes) (now : Z) (g : Grant) (out : list (bytes * bytes)) (peer : bytes) :
    list (bytes * bytes) :=
  if existsb (λ p, eqb p.1 peer) out then out
  else if authorized d g me peer now then out ++ [(peer, g_id g)] else out.

(** [candidates]; [ordered] are the rows of the query newest expiry first, [nonce]
    is [next_dispatch_id()]. *)
Definition candidates (d : Messages) (ordered : list Grant) (me : bytes) (now : Z) (nonce : bytes) : list (bytes * bytes) :=
  let out := fold_left (λ out g, fold_left (add_provider d me now g) (as_recipients (g_offer g)) out) (take 16 ordered) [] in
  take MAX_PROVIDERS (merge_sort (λ p q, bytes_le (blake3 (nonce ++ p.1)) (blake3 (nonce ++ q.1))) out).

(** The query of [candidates], without its order. *)
Definition candidate_grants (d : Messages) (fid original : bytes) (now : Z) : list Grant :=
  filter (λ g, as_file_id (g_offer g) = fid ∧ g_author g = original ∧ g_control_id g = None ∧ now < as_expires_at (g_offer g))
    (grants d).

(** [gc] *)
Definition gc_grants (now : Z) (d : Messages) : Messages := set_grants (filter (λ g, now < as_expires_at (g_offer g))) d.
End grants.

(** [completed_copy] *)
Definition completed_copy (c : Core) (fid : bytes) : option Retention :=
  p ← partial_get_tx c fid;
  if is_complete c p then
    raw ← p_manifest p; Some (mkRetention (p_path p) (p_total p) (p_chunk_size p) raw u64_max)
  else None.

(** ** The upload policy

    [Policy] with its token numbered; cancelled tokens are the ones below it. *)
Record Policy := mkPolicy { foreground : bool; wifi : bool; po_token : Z }.

Definition allowed (p : Policy) : bool := foreground p && wifi p.

(** [Policy::update]: a change of the verdict cancels the token and takes a new one. *)
Definition policy_update (p : Policy) (fg wf : option bool) : Policy :=
  let p' := mkPolicy (default (foreground p) fg) (default (wifi p) wf) (po_token p) in
  if Bool.eqb (allowed p) (allowed p') then p' else mkPolicy (foreground p') (wifi p') (po_token p + 1).

Definition set_foreground (active : bool) (p : Policy) : Policy := policy_update p (Some active) None.
Definition set_network (unmetered_wifi : bool) (p : Policy) : Policy := policy_update p None (Some unmetered_wifi).

(** [serving_scope] *)
Definition serving_scope (p : Policy) : option Z := if allowed p then Some (po_token p) else None.
Definition scope_cancelled (p : Policy) (token : Z) : bool := token <? po_token p.
