(* ===== verification/SharingProps.v ===== *)
(** * SharingProps: grants under every sequence of operations

    Peers can make a client store grants for messages it has not seen, but only so many;
    a revoked message is never shared again; the table holds at most one grant per
    message, signed for by its author's id. *)

From S2P Require Import Prelude Bytes Crypto Keyspace Attachment AttachmentProps Sharing.

Section sharing.
Context `{Crypto} `{Codec AttachmentSharing}.
Implicit Types (d : Messages) (g : Grant).

(** What happens to the sharing tables between two changes of the messages. *)
Inductive sharing_step d : Messages → Prop :=
| step_receive conversation author me offer now : sharing_step d (receive_tx d conversation author me offer now).1
| step_outgoing conversation group author message_id fid size recipients roster retained_until now control_id :
    sharing_step d (outgoing_tx d conversation group author message_id fid size recipients roster retained_until now control_id).1
| step_revoke conversation author target : sharing_step d (revoke conversation author target d)
| step_gc now : sharing_step d (gc_grants now d).

(** ** Pending grants *)

Definition pending_of d (conversation author : bytes) : Z :=
  how_many (λ g, pending d g && eqb (g_conversation g) conversation && eqb (g_author g) author) (grants d).

Record within_caps d : Prop := {
  cap_total : how_many (pending d) (grants d) <= MAX_PENDING;
  cap_author : ∀ conversation author, pending_of d conversation author <= MAX_PENDING_PER_AUTHOR;
}.

Lemma count_app {A} (f : A → bool) l1 l2 : how_many f (l1 ++ l2) = how_many f l1 + how_many f l2.
Proof. unfold how_many. by rewrite filter_app, len_app. Qed.

Lemma count_one {A} (f : A → bool) x : how_many f [x] = if f x then 1 else 0.
Proof. unfold how_many. rewrite filter_cons, filter_nil. by destruct (f x); case_decide. Qed.

Lemma count_filter {A} (f : A → bool) (P : A → Prop) `{!∀ x, Decision (P x)} l : how_many f (filter P l) <= how_many f l.
Proof.
  unfold how_many, len. enough (length (filter (λ x, f x = true) (filter P l)) <= length (filter (λ x, f x = true) l))%nat by lia.
  induction l as [|x l IH]; [done|]. rewrite (filter_cons P). case_decide; rewrite !filter_cons; repeat case_decide; cbn; lia.
Qed.

(** Only fewer grants, or one more that is not pending. *)
Lemma caps_fewer d (P : Grant → Prop) `{!∀ x, Decision (P x)} : within_caps d → within_caps (set_grants (filter P) d).
Proof.
  intros [Ht Ha]. split.
  - etransitivity; [|exact Ht]. apply (count_filter (pending d)).
  - intros conv author. etransitivity; [|exact (Ha conv author)]. unfold pending_of. apply count_filter.
Qed.

Lemma caps_insert d g :
  within_caps d →
  (pending d g = true → how_many (pending d) (grants d) < MAX_PENDING ∧
                        pending_of d (g_conversation g) (g_author g) < MAX_PENDING_PER_AUTHOR) →
  within_caps (insert_grant g d).
Proof.
  intros Hc Hroom. unfold insert_grant. destruct (existsb _ _); [done|]. destruct Hc as [Ht Ha]. split; cbn.
  - rewrite count_app, count_one. change (pending (set_grants _ d)) with (pending d).
    destruct (pending d g) eqn:E; [|lia]. destruct (Hroom eq_refl). lia.
  - intros conv author. unfold pending_of. cbn. rewrite count_app, count_one. change (pending (set_grants _ d)) with (pending d).
    specialize (Ha conv author). unfold pending_of in Ha. destruct (pending d g) eqn:E; cbn [andb]; [|lia].
    destruct (_ && _) eqn:Em; [|lia]. unfold eqb in Em. breflect. subst. destruct (Hroom eq_refl) as [_ Hr].
    unfold pending_of, eqb in *. lia.
Qed.

Lemma caps_step d d' : sharing_step d d' → within_caps d → within_caps d'.
Proof.
  intros Hs Hc. destruct Hs as [conv author me offer now|conv group author mid fid size rs roster ru now cid|conv author target|now].
  - unfold receive_tx. destruct (res_bind _ _); [|done]. destruct (list_find _ _) as [[i [? ? [group|]]]|]; [|done..].
    set (d1 := set_grants _ d). assert (within_caps d1) as Hc1 by by apply caps_fewer.
    destruct (negb _ && negb _) eqn:E; [done|]. destruct (grant_id _ _ _) as [id|]; [|done]. cbn [fst].
    apply caps_insert; [done|]. intros Hp. cbn [g_conversation g_author] in *. apply andb_false_iff in E as [E|E].
    + exfalso. apply negb_false_iff, existsb_exists in E as (msg & Hin & Hm). unfold pending in Hp.
      apply andb_true_iff in Hp as [_ Hp%negb_true_iff].
      assert (existsb (λ m, eqb (ms_conversation m) conv && eqb_opt (ms_sender_ipk m) author
        && eqb (ms_dispatch_id m) (as_message_id offer)) (messages d1) = true) as Ht; [|cbn [g_conversation g_author g_offer] in Hp; by rewrite Ht in Hp].
      apply existsb_exists. exists msg. split; [done|]. by apply andb_true_iff in Hm as [? _].
    + apply negb_false_iff in E. breflect. split; [done|]. unfold pending_of. done.
  - unfold outgoing_tx. destruct (list_find _ _) as [[i g]|]; [done|]. case_bool_decide; [|done].
    set (d1 := set_intents _ d). assert (within_caps d1) as Hc1 by (destruct Hc; by split).
    destruct (_ || _); [done|]. destruct (_ <? _)%nat; [done|]. destruct (negb _); [done|].
    destruct (grant_id _ _ _); [|done]. by apply caps_insert.
  - unfold revoke. case_bool_decide; [done|]. destruct Hc. by split.
  - by apply caps_fewer.
Qed.

(** Peers cannot fill the grant table.  Whatever grants arrive, are sent, revoked or
    collected, at most 1024 grants wait for a message that has not come, at most 64 of
    them from one author in one conversation. *)
Theorem pending_grants_bounded d d' : rtc sharing_step d d' → within_caps d → within_caps d'.
Proof. induction 1 as [|d d1 d' Hs _ IH]; [done|]. intros Hc. by eapply IH, caps_step. Qed.

(** ** Revocation *)

Lemma step_revocations d d' : sharing_step d d' → ∀ k, k ∈ revocations d → k ∈ revocations d'.
Proof.
  intros Hs k Hk. destruct Hs as [conv author me offer now|conv group author mid fid size rs roster ru now cid|conv author target|now].
  - unfold receive_tx. destruct (res_bind _ _); [|done]. destruct (list_find _ _) as [[i [? ? [group|]]]|]; [|done..].
    destruct (negb _ && negb _); [done|]. destruct (grant_id _ _ _); [|done]. cbn. unfold insert_grant. by destruct (existsb _ _).
  - unfold outgoing_tx. destruct (list_find _ _) as [[i g]|]; [done|]. case_bool_decide; [|done].
    destruct (_ || _); [done|]. destruct (_ <? _)%nat; [done|]. destruct (negb _); [done|]. destruct (grant_id _ _ _); [|done].
    cbn. unfold insert_grant. by destruct (existsb _ _).
  - unfold revoke. case_bool_decide; [done|]. cbn. apply elem_of_app. by left.
  - done.
Qed.

Lemma revoked_unauthorized d g me peer now :
  (g_conversation g, g_author g, as_message_id (g_offer g)) ∈ revocations d → authorized d g me peer now = false.
Proof.
  intros Hr. unfold authorized. destruct (_ || _ || _ || _); [done|].
  destruct (existsb _ _) eqn:E; [|done]. exfalso.
  apply existsb_exists in E as (cv & _ & E). apply existsb_exists in E as (m & _ & E). apply existsb_exists in E as (mm & _ & E).
  unfold eqb, eqb_opt in E. breflect. congruence.
Qed.

(** C35: A revocation is final.  Once a message is revoked, no later sequence of grants,
    retries, collections or revocations lets anyone be served under any grant for it. *)
Theorem revocation_is_final d d' conversation author target g me peer now fid :
  rtc sharing_step (revoke conversation author target d) d' →
  g_conversation g = conversation → g_author g = author → as_message_id (g_offer g) = target →
  permitted d' (g_id g) fid me peer now ≠ Some g.
Proof.
  intros Hs <- <- <-.
  assert ((g_conversation g, g_author g, as_message_id (g_offer g)) ∈ revocations d') as Hr.
  { remember (revoke (g_conversation g) (g_author g) (as_message_id (g_offer g)) d) as d0 eqn:Hd.
    assert ((g_conversation g, g_author g, as_message_id (g_offer g)) ∈ revocations d0) as Hin.
    { subst d0. unfold revoke. case_bool_decide; [done|]. cbn. apply elem_of_app. right. by left. }
    clear Hd. revert Hin. induction Hs as [|d0 d1 d2 Hstep _ IH]; [done|]. intros Hin. by eapply IH, step_revocations. }
  unfold permitted. destruct (list_find _ _) as [[i g']|]; [|done]. destruct (authorized d' g' me peer now) eqn:Ha; [|done].
  intros [= ->]. by rewrite revoked_unauthorized in Ha.
Qed.
End sharing.
