(* ===== verification/Pull.v ===== *)
(** * Pull: both ends of an attachment transfer

    libcore/src/transfer/pull.rs ([pull_v2_from] and what it calls), serve.rs and the
    failure classification of mod.rs.  The downloading end reads what a peer sends on
    each stream it opens ([Peer]); the serving end turns a request into the frames it
    writes.  A transport that breaks while a frame is written only cuts those frames
    short: serving changes no state. *)

From S2P Require Import Prelude Bytes Crypto Keyspace Attachment Partials Receiver Sharing.

(** ** Failures *)

Inductive FailureKind := KTransport | KAuthentication | KInvalidData | KStorage | KUnavailable | KCancelled.

#[global] Instance FailureKind_eq_dec : EqDecision FailureKind.
Proof. solve_decision. Defined.

Record Failure := mkFailure { fk : FailureKind; source : error }.

Definition fres A := result A Failure.

Definition fbind {A B} (r : fres A) (f : A → fres B) : fres B :=
  match r with Ok a => f a | Err e => Err e end.

(** [remote_failure] *)
Definition remote_failure (code : ErrorCode) : Failure :=
  mkFailure (match code with
             | Unavailable => KUnavailable
             | Busy => KTransport
             | StorageE => KStorage
             | InvalidRequest | Unsupported => KInvalidData
             end) (Code code).

(** [Failure::wire] *)
Definition wire_failure (e : error) : Failure :=
  match e with
  | Code code => remote_failure code
  | AuthenticationFailed _ => mkFailure KAuthentication e
  | InvalidFrame _ => mkFailure KInvalidData e
  | _ => mkFailure KTransport e
  end.

(** [Failure::storage] *)
Definition storage_failure (e : error) : Failure :=
  match e with Cancelled => mkFailure KCancelled e | _ => mkFailure KStorage e end.

(** [coordinator_failure] *)
Definition coordinator_failure (e : error) : Failure :=
  match e with InvalidFrame _ => wire_failure e | _ => storage_failure e end.

Definition protocol_failure (message : String.string) : Failure := mkFailure KInvalidData (InvalidFrame message).
Arguments protocol_failure message%_string_scope.

(** [bounded]: a timeout is one of the stream's errors. *)
Definition bounded {A} (r : res A) : fres A :=
  match r with Ok a => Ok a | Err e => Err (wire_failure e) end.

(** [expect_fin] *)
Definition expect_fin (r : RecvStream) : fres unit :=
  match sent r, ending r with
  | _ :: _, _ => Err (protocol_failure "data after completed request")
  | [], Fin => Ok tt
  | [], ResetByPeer => Err (mkFailure KTransport Io)
  | [], Stalled => Err (mkFailure KTransport (Other "transfer stalled"))
  end.

(** ** What is outside the transfer

    The messages database, the contacts, the clock and the upload policy at one
    moment; a transfer looks at them at several. *)
Record World := mkWorld {
  w_messages : Messages;
  w_paired : bytes → bool;
  w_now : Z;
  w_policy : Policy;
  w_core : Core;
}.

Section transfer.
Context `{Crypto} `{Codec Manifest} `{Codec AttachmentSharing}.

(** ** Serving *)

(** [can_serve] *)
Definition can_serve (w : World) (fid peer me : bytes) (grant : option bytes) : bool :=
  match grant with
  | Some id => match permitted (w_messages w) id fid me peer (w_now w) with Some _ => true | None => false end
  | None =>
      offered_to (w_messages w) (w_paired w peer) fid peer me
      && match retention_get_tx (w_core w) fid with Some ret => ret_expires_at ret >? w_now w | None => false end
  end.

Definition helper_stopped (w : World) (scope : option Z) : bool :=
  match scope with Some token => scope_cancelled (w_policy w) token | None => false end.

(** The chunk loop of [serve_v2_file]: [k] checks were made before it. *)
Fixpoint serve_chunks (ws : nat → World) (k : nat) (me peer fid : bytes) (grant : option bytes) (scope : option Z)
    (m : Manifest) (ino : Z) (idxs : list nat) (count : Z) : list Frame :=
  match idxs with
  | [] => [FComplete count]
  | index :: idxs =>
      if helper_stopped (ws k) scope || negb (can_serve (ws k) fid peer me grant) then [FError Unavailable]
      else match read_chunk m index (content (w_core (ws k)) ino) with
      | None => [FError StorageE]
      | Some data =>
          if bool_decide (chunks m !! index = Some (blake3 data)) then
            FChunk (Z.of_nat index) data :: serve_chunks ws (S k) me peer fid grant scope m ino idxs count
          else [FError StorageE]
      end
  end.

(** [serve_v2_file]; [open_ok] is whether the file system opens a file that exists. *)
Definition serve_v2_file (ws : nat → World) (open_ok : bool) (me peer : bytes) (limits : Limits) (fid : bytes)
    (requested : option (list ChunkRange)) (grant : option bytes) (scope : option Z) : list Frame :=
  let w := ws 0%nat in
  if helper_stopped w scope || negb (can_serve w fid peer me grant) then [FError Unavailable]
  else match (if grant then completed_copy (w_core w) fid else retention_get_tx (w_core w) fid) with
  | None => [FError Unavailable]
  | Some retained =>
      match deser (ret_manifest retained) with
      | None => [FError StorageE]
      | Some m =>
          if negb (bool_decide (file_id m = fid)) || (chunk_size m =? 0) || (chunk_size m >? CHUNK_SIZE)
             || negb (len (chunks m) =? div_ceil (total_size m) (chunk_size m)) || negb (total_size m =? ret_size retained)
          then [FError StorageE]
          else match requested with
          | None => [FManifest m; FComplete 0]
          | Some ranges =>
              match validate_ranges ranges m limits with
              | Err _ => [FError InvalidRequest]
              | Ok count =>
                  match names (w_core w) !! ret_path retained with
                  | None => [FError Unavailable]
                  | Some ino =>
                      if open_ok then serve_chunks ws 1 me peer fid grant scope m ino (range_indices ranges) count
                      else [FError StorageE]
                  end
              end
          end
      end
  end.

(** [serve_v2] from the request on: the request frame decides what is served; [busy] is
    whether both helper slots are taken. *)
Definition serve_request (ws : nat → World) (open_ok busy : bool) (me peer : bytes) (limits : Limits) (request : Frame) :
    list Frame :=
  let file fid requested grant :=
    match grant with
    | Some _ =>
        match serving_scope (w_policy (ws 0%nat)) with
        | None => [FError Unavailable]
        | Some token => if busy then [FError Busy] else serve_v2_file ws open_ok me peer limits fid requested grant (Some token)
        end
    | None => serve_v2_file ws open_ok me peer limits fid requested None None
    end in
  match request with
  | FDescribe fid => file fid None None
  | FPull fid ranges => file fid (Some ranges) None
  | FDescribeShared fid grant => if sharing limits then file fid None (Some grant) else [FError Unsupported]
  | FPullShared fid grant ranges => if sharing limits then file fid (Some ranges) (Some grant) else [FError Unsupported]
  | _ => [FError InvalidRequest]
  end.

(** [serve_v2]: the frames written after the local [Hello]; [None] is a panic. *)
Definition serve_v2 (ws : nat → World) (open_ok busy : bool) (me peer : bytes) (r : RecvStream) : option (fres (list Frame)) :=
  hello ← exchange_hello r;
  match bounded hello with
  | Err e => Some (Err e)
  | Ok (limits, r) =>
      request ← read_frame_for PhRequest r;
      Some (fbind (bounded request) (λ '(request, r),
            fbind (expect_fin r) (λ _, Ok (serve_request ws open_ok busy me peer limits request))))
  end.

(** ** Pulling *)

(** The peer of a pull: on the [j]th stream it opens with [greets j], then answers the
    request with [replies j].  [writes j] is what came of writing ours. *)
Record Peer := mkPeer {
  greets : nat → RecvStream;
  replies : nat → Frame → RecvStream;
  writes : nat → res unit;
  cert_key : option bytes;
}.

(** What the downloading client sees besides: the outside at each check, the faults of
    each operation of its receiver, the decoder of [Auth]. *)
Record PullEnv := mkPullEnv {
  worlds : nat → World;
  faults : nat → Faults;
  auth_from_bytes : bytes → option Auth;
}.

(** [open_v2_request] on stream [j]. *)
Definition open_v2_request (e : PullEnv) (p : Peer) (peer : bytes) (j : nat) : option (fres (Limits * RecvStream)) :=
  match bounded (exchange (auth_from_bytes e) (cert_key p) peer (greets p j)) with
  | Err e => Some (Err e)
  | Ok r => hello ← exchange_hello r; Some (bounded hello)
  end.

(** Writes the request, and the stream from there on. *)
Definition ask (p : Peer) (j : nat) (r : RecvStream) (request : Frame) : fres RecvStream :=
  match _ ⇐ write_frame_to request; writes p j with
  | Err e => Err (wire_failure e)
  | Ok _ => let reply := replies p j request in Ok (mkStream (sent r ++ sent reply) (ending reply))
  end.

(** [bounded(read_frame_for)] *)
Definition next_frame (phase : ReadPhase) (r : RecvStream) : option (fres (Frame * RecvStream)) :=
  reply ← read_frame_for phase r; Some (bounded reply).

(** Whether a grant still covers this pull at check [k]. *)
Definition revoked (e : PullEnv) (k : nat) (fid me peer : bytes) (grant : option bytes) : bool :=
  match grant with
  | Some id =>
      match permitted (w_messages (worlds e k)) id fid me peer (w_now (worlds e k)) with Some _ => false | None => true end
  | None => false
  end.

(** A final [Complete] frame with the expected count, then the end of the stream. *)
Definition expect_complete (expected : Z) (message : String.string) (r : RecvStream) : option (fres unit) :=
  reply ← next_frame PhComplete r;
  Some (fbind reply (λ '(f, r),
    match f with
    | FComplete n => if n =? expected then expect_fin r else Err (protocol_failure message)
    | FError code => Err (remote_failure code)
    | _ => Err (protocol_failure message)
    end)).
Arguments expect_complete expected message%_string_scope r.

(** The Describe exchange of [pull_v2_from]. *)
Definition fetch_manifest (e : PullEnv) (p : Peer) (fid me peer : bytes) (offered_size : Z) (grant : option bytes) :
    option (fres Manifest) :=
  opened ← open_v2_request e p peer 0;
  match opened with
  | Err e => Some (Err e)
  | Ok (limits, r) =>
      if match grant with Some _ => negb (sharing limits) | None => false end then Some (Err (remote_failure Unsupported))
      else
        let describe := match grant with Some g => FDescribeShared fid g | None => FDescribe fid end in
        match ask p 0 r describe with
        | Err e => Some (Err e)
        | Ok r =>
            reply ← next_frame PhManifest r;
            match reply with
            | Err e => Some (Err e)
            | Ok (FManifest m, r) =>
                if negb (bool_decide (file_id m = fid)) || negb (total_size m =? offered_size) then
                  Some (Err (protocol_failure "manifest does not match the attachment offer"))
                else
                  done_ ← expect_complete 0 "invalid manifest completion" r;
                  Some (fbind done_ (λ _, Ok m))
            | Ok (FError code, _) => Some (Err (remote_failure code))
            | Ok _ => Some (Err (protocol_failure "expected attachment manifest"))
            end
        end
  end.

(** The state a pull threads: the core, the receiver and how many checks it made. *)
Definition pulled : Type := Core * Receiver * nat.

(** The chunk loop: one frame per index asked for, in order. *)
Fixpoint pull_chunks (e : PullEnv) (fid me peer : bytes) (grant : option bytes) (lease : ReceiverLease)
    (pending : list nat) (r : RecvStream) (st : pulled) : option (pulled * fres RecvStream) :=
  match pending with
  | [] => Some (st, Ok r)
  | expected :: pending =>
      reply ← next_frame PhChunk r;
      match reply with
      | Err err => Some (st, Err err)
      | Ok (FChunk index data, r) =>
          if negb (index =? Z.of_nat expected) then
            Some (st, Err (protocol_failure "unexpected, duplicate or missing attachment chunk"))
          else
            let '(c, rc, k) := st in
            if revoked e k fid me peer grant then Some (c, rc, S k, Err (remote_failure Unavailable))
            else match commit (faults e k) c rc expected data lease with
            | (c, rc, Err err) => Some (c, rc, S k, Err (coordinator_failure err))
            | (c, rc, Ok _) => pull_chunks e fid me peer grant lease pending r (c, rc, S k)
            end
      | Ok (FError code, _) => Some (st, Err (remote_failure code))
      | Ok _ => Some (st, Err (protocol_failure "unexpected, duplicate or missing attachment chunk"))
      end
  end.

(** One turn of the [while] loop: a stream, a request for what is missing, its chunks. *)
Definition pull_turn (e : PullEnv) (p : Peer) (fid me peer : bytes) (grant : option bytes) (lease : ReceiverLease)
    (j : nat) (st : pulled) : option (pulled * fres unit) :=
  let '(c, rc, k) := st in
  opened ← open_v2_request e p peer j;
  match opened with
  | Err err => Some (st, Err err)
  | Ok (limits, r) =>
      if match grant with Some _ => negb (sharing limits) || revoked e k fid me peer grant | None => false end then
        Some (c, rc, S k, Err (remote_failure Unavailable))
      else
        let requested := missing rc (Z.to_nat (max_ranges limits)) (Z.to_nat (max_chunks limits)) in
        match validate_ranges requested (rc_manifest rc) limits with
        | Err err => Some (c, rc, S k, Err (wire_failure err))
        | Ok expected =>
            let request := match grant with Some g => FPullShared fid g requested | None => FPull fid requested end in
            match ask p j r request with
            | Err err => Some (c, rc, S k, Err err)
            | Ok r =>
                '(st, got) ← pull_chunks e fid me peer grant lease (range_indices requested) r (c, rc, S k);
                match got with
                | Err err => Some (st, Err err)
                | Ok r => done_ ← expect_complete expected "invalid range completion" r; Some (st, done_)
                end
            end
        end
  end.

(** The [while] loop; every turn that succeeds commits a missing chunk, so the number
    of chunks bounds its turns. *)
Fixpoint pull_loop (fuel : nat) (e : PullEnv) (p : Peer) (fid me peer : bytes) (grant : option bytes) (lease : ReceiverLease)
    (j : nat) (st : pulled) : option (pulled * fres unit) :=
  if rc_prefix st.1.2 <? len (chunks (rc_manifest st.1.2)) then
    match fuel with
    | O => None
    | S fuel =>
        '(st, o) ← pull_turn e p fid me peer grant lease j st;
        match o with
        | Err err => Some (st, Err err)
        | Ok _ => pull_loop fuel e p fid me peer grant lease (S j) st
        end
    end
  else Some (st, Ok tt).

(** The end of [pull_v2_from]. *)
Definition pull_finish (e : PullEnv) (fid me peer : bytes) (grant : option bytes) (lease : ReceiverLease) (st : pulled) :
    Core * fres unit :=
  let '(c, rc, k) := st in
  if revoked e k fid me peer grant then (c, Err (remote_failure Unavailable))
  else match finish (faults e k) c rc lease with
  | (c, _, Err err) => (c, Err (coordinator_failure err))
  | (c, _, Ok _) => if db_write (faults e (S k)) then (defer_retry_tx fid 0 c, Ok tt) else (c, Err (storage_failure Sql))
  end.

(** [pull_v2_from]; [None] is a panic. *)
Definition pull_v2_from (e : PullEnv) (p : Peer) (dir : bytes) (c : Core) (fid me peer : bytes) (offered_size : Z)
    (lease : ReceiverLease) (grant : option bytes) : option (Core * fres unit) :=
  described ← fetch_manifest e p fid me peer offered_size grant;
  match described with
  | Err err => Some (c, Err err)
  | Ok m =>
      match open_inner (faults e 0) dir c fid peer m offered_size lease with
      | (c, Err err) => Some (c, Err (coordinator_failure err))
      | (c, Ok rc) =>
          '(st, o) ← pull_loop (length (chunks m)) e p fid me peer grant lease 1 (c, rc, 1%nat);
          match o with
          | Err err => Some (st.1.1, Err err)
          | Ok _ => Some (pull_finish e fid me peer grant lease st)
          end
      end
  end.
End transfer.
