(* ===== verification/PullProps.v ===== *)
(** * PullProps: what a completed pull delivers

    Whatever a peer sends, a pull ends, keeps the invariant of its receiver and, when
    it succeeds, has delivered the file the attachment's id commits to.  What a server
    sends is read from the file it retains and checked against the manifest, and only
    while the peer may have it. *)

From S2P Require Import Prelude Bytes Crypto Keyspace Attachment AttachmentProps Partials Receiver ReceiverProps Sharing Pull.

(** ** Streams of bytes *)

Definition byte_stream (r : RecvStream) : Prop := Forall is_u8 (sent r).

Definition byte_peer (p : Peer) : Prop := (∀ j, byte_stream (greets p j)) ∧ ∀ j f, byte_stream (replies p j f).

Lemma next_frame_ok phase r :
  byte_stream r →
  ∃ o, next_frame phase r = Some o ∧ ∀ f r', o = Ok (f, r') → byte_stream r' ∧ wf_frame f.
Proof.
  intros Hr. pose proof (read_frame_within phase MAX_OPTIONAL_FRAMES r Hr) as Hw. unfold next_frame, read_frame_for.
  destruct (read_frame_loop _ _ r) as [[[f r']|e]|]; cbn in Hw |- *; [|by eexists|done].
  destruct Hw as (gone & kind & body & Hs & _ & _ & Hwf & _). eexists. split; [done|].
  intros ? ? [= <- <-]. split; [|done]. unfold byte_stream in *. rewrite Hs in Hr. by apply Forall_app in Hr as [_ ?].
Qed.

Lemma quinn_read_suffix n r got r' : quinn_read_exact n r = Ok (got, r') → ∃ pre, sent r = pre ++ sent r'.
Proof.
  unfold quinn_read_exact. destruct (_ <=? _); [|done]. intros [= <- <-]. cbn.
  exists (take (Z.to_nat n) (sent r)). by rewrite take_drop.
Qed.

Lemma byte_suffix r r' pre : byte_stream r → sent r = pre ++ sent r' → byte_stream r'.
Proof. unfold byte_stream. intros Hr Hs. rewrite Hs in Hr. by apply Forall_app in Hr as [_ ?]. Qed.

Section transfer.
Context `{Crypto} `{Codec Manifest} `{Codec AttachmentSharing}.
Implicit Types (c : Core) (r : RecvStream) (rc : Receiver) (e : PullEnv) (p : Peer) (m : Manifest).

Lemma exchange_bytes from_bytes key expected r r' :
  byte_stream r → exchange from_bytes key expected r = Ok r' → byte_stream r'.
Proof.
  unfold exchange, read_frame_limited. intros Hr Hx. apply res_bind_ok in Hx as ([a r2] & Hx & Hv).
  apply res_bind_ok in Hx as ([l r1] & (p1 & Hs1)%quinn_read_suffix & Hx).
  apply res_bind_ok in Hx as ([] & _ & Hx). apply res_bind_ok in Hx as ([b r2'] & (p2 & Hs2)%quinn_read_suffix & Hx).
  destruct (from_bytes b); [|done]. injection Hx as <- <-.
  destruct key; [|done]. destruct (verify_auth _ _ _); [|done]. injection Hv as <-.
  eapply byte_suffix; [|exact Hs2]. eapply byte_suffix; [exact Hr|exact Hs1].
Qed.

Lemma exchange_hello_ok r :
  byte_stream r →
  ∃ o, exchange_hello r = Some o ∧ ∀ limits r', o = Ok (limits, r') → byte_stream r'.
Proof.
  intros Hr. destruct (next_frame_ok PhHello r Hr) as (o & Hn & Ho). unfold next_frame in Hn. unfold exchange_hello.
  destruct (read_frame_for PhHello r) as [reply|]; [|done]. cbn in *. injection Hn as <-.
  eexists. split; [done|]. intros limits r' Heq. destruct reply as [[f r1]|]; [|done].
  destruct (Ho f r1 eq_refl) as [Hb _]. destruct f; try done. apply res_bind_ok in Heq as (l & _ & [= <- <-]). done.
Qed.

Lemma open_request_ok e p peer j :
  byte_peer p →
  ∃ o, open_v2_request e p peer j = Some o ∧ ∀ limits r, o = Ok (limits, r) → byte_stream r.
Proof.
  intros [Hg _]. unfold open_v2_request. destruct (exchange _ _ _ _) as [r|err] eqn:Hx; cbn [bounded]; [|by eexists].
  destruct (exchange_hello_ok r) as (o & -> & Ho); [by eapply exchange_bytes|]. cbn [mbind option_bind]. eexists. split; [done|].
  intros limits r' Heq. destruct o as [[l r1]|]; [|done]. injection Heq as <- <-. by eapply Ho.
Qed.

Lemma ask_bytes p j r request r' : byte_peer p → byte_stream r → ask p j r request = Ok r' → byte_stream r'.
Proof.
  intros [_ Hp] Hr. unfold ask. destruct (res_bind _ _); [|done]. intros [= <-].
  unfold byte_stream. cbn. apply Forall_app. split; [done|apply Hp].
Qed.

Lemma expect_complete_ok expected message r :
  byte_stream r → is_Some (expect_complete expected message r).
Proof. intros Hr. unfold expect_complete. destruct (next_frame_ok PhComplete r Hr) as (o & -> & _). by eexists. Qed.

(** Describing answers, and a manifest it answers is the one of the attachment. *)
Lemma fetch_manifest_ok e p fid me peer size grant :
  byte_peer p →
  ∃ o, fetch_manifest e p fid me peer size grant = Some o ∧
       ∀ m, o = Ok m → file_id m = fid ∧ total_size m = size ∧ wf_frame (FManifest m).
Proof.
  intros Hp. unfold fetch_manifest. destruct (open_request_ok e p peer 0 Hp) as (o & -> & Ho). cbn [mbind option_bind].
  destruct o as [[limits r]|err]; [|by eexists]. specialize (Ho limits r eq_refl).
  destruct (match grant with Some _ => _ | None => _ end); [by eexists|].
  set (describe := match grant with Some g => _ | None => _ end).
  destruct (ask p 0 r describe) as [r1|err] eqn:Hask; [|by eexists]. apply ask_bytes in Hask; [|done..].
  destruct (next_frame_ok PhManifest r1 Hask) as (o & -> & Hf). cbn [mbind option_bind].
  destruct o as [[f r2]|err]; [|by eexists]. destruct (Hf f r2 eq_refl) as [Hr2 Hwf].
  destruct f as [|?|m|? ?|? ?|?|?|? ?|? ? ?]; try by eexists.
  destruct (_ || _) eqn:Hm; [by eexists|]. breflect.
  match goal with |- context [expect_complete ?n ?msg r2] => destruct (expect_complete_ok n msg r2 Hr2) as [d ->] end.
  cbn [mbind option_bind]. eexists. split; [done|]. intros m' Heq. destruct d; [|done]. by injection Heq as <-.
Qed.

(** ** The invariant of a pull *)

(** The receiver holds the file its row names, verified and published. *)
Record pull_ok (fid : bytes) m c rc : Prop := {
  po_ok : rc_ok c rc;
  po_published : published c rc;
  po_named : names c !! p_path (rc_partial rc) = Some (rc_file rc);
  po_manifest : rc_manifest rc = m;
  po_fid : p_file_id (rc_partial rc) = fid;
}.

Lemma open_inner_named fl dir c fid peer m size lease c' rc :
  open_inner fl dir c fid peer m size lease = (c', Ok rc) → names c' !! p_path (rc_partial rc) = Some (rc_file rc).
Proof.
  unfold open_inner. destruct (open_prepare _ _ _ _ _ _ _) as [[path bits]|]; [|done].
  unfold open_partial. destruct (ensure_live c lease); [|done]. destruct (open_io fl); [|done].
  destruct (open_file path c) as [c1 ino] eqn:Ho.
  assert (names c1 !! path = Some ino) as Hn.
  { unfold open_file in Ho. destruct (names c !! path) eqn:E; injection Ho as <- <-; [done|]. cbn. apply lookup_insert_eq. }
  destruct (open_scan _ _ _ _ _ _) as [[raw v]|]; [|done]. unfold open_publish, partial_put_verified_live_tx.
  destruct (ensure_live c1 lease); [|done]. destruct (negb _); [done|]. destruct (db_write fl); [|done].
  by intros [= <- <-].
Qed.

Lemma progress_names db fid have state now v lease c :
  names (partial_progress_verified_live_tx db fid have state now v lease c).1 = names c.
Proof.
  unfold partial_progress_verified_live_tx. destruct (ensure_live c lease); [|done]. destruct (negb _); [done|].
  destruct (negb db); [done|]. by destruct (partials c !! fid).
Qed.

Lemma commit_frame fl c rc index data lease c' rc' :
  commit fl c rc index data lease = (c', rc', Ok tt) →
  names c' = names c ∧ p_path (rc_partial rc') = p_path (rc_partial rc) ∧ rc_file rc' = rc_file rc ∧
  p_file_id (rc_partial rc') = p_file_id (rc_partial rc).
Proof.
  unfold commit. destruct (commit_check _ _ _ _ _) as [[]|]; [|by intros [= <- <-]|done].
  destruct (commit_write fl rc index data c) as [c1 [[]|]] eqn:Hw; [|done].
  assert (names c1 = names c) as <- by (unfold commit_write in Hw; destruct (write_io fl); [done|]; by injection Hw as <- _).
  unfold commit_publish. cbv zeta.
  match goal with |- context [partial_progress_verified_live_tx ?db ?fid ?h ?s ?n ?v lease c1] =>
    pose proof (progress_names db fid h s n v lease c1) as Hn end.
  destruct (partial_progress_verified_live_tx _ _ _ _ _ _ _ _) as [c2 [[]|]]; [|done]. by intros [= <- <-].
Qed.

Lemma commit_pull_ok fl fid m c rc index data lease c' rc' :
  pull_ok fid m c rc → commit fl c rc index data lease = (c', rc', Ok tt) →
  pull_ok fid m c' rc' ∧ contains rc' index = true ∧ ∀ j, contains rc j = true → contains rc' j = true.
Proof.
  intros [Hok Hpub Hn Hm Hf] Hc. pose proof (commit_ok fl c rc index data lease Hok) as Hs. rewrite Hc in Hs.
  destruct Hs as (Hok' & Hpub' & Hm' & _ & _ & Hin & Hother).
  apply commit_frame in Hc as (Hnames & Hpath & Hfile & Hfid).
  split_and!; [|done|].
  - split; [done|by apply Hpub'|by rewrite Hnames, Hpath, Hfile|congruence|congruence].
  - intros j Hj. destruct (decide (j = index)) as [->|Hne]; [done|]. by rewrite Hother.
Qed.

(** The chunk loop ends, and keeps the invariant as far as it got. *)
Lemma pull_chunks_ok e fid m me peer grant lease pending : ∀ r c rc k,
  byte_stream r → pull_ok fid m c rc →
  ∃ c' rc' k' o, pull_chunks e fid me peer grant lease pending r (c, rc, k) = Some (c', rc', k', o) ∧
    ∀ r', o = Ok r' → byte_stream r' ∧ pull_ok fid m c' rc' ∧ Forall (λ i, contains rc' i = true) pending ∧
                      ∀ j, contains rc j = true → contains rc' j = true.
Proof.
  induction pending as [|i pending IH]; intros r c rc k Hr Hok; cbn [pull_chunks].
  { exists c, rc, k, (Ok r). split; [done|]. intros ? [= <-]. done. }
  destruct (next_frame_ok PhChunk r Hr) as (o & -> & Hf). cbn [mbind option_bind].
  destruct o as [[f r1]|err]; [|by do 4 eexists]. destruct (Hf f r1 eq_refl) as [Hr1 _].
  destruct f as [|?|?|? ?|index data|?|?|? ?|? ? ?]; try by do 4 eexists.
  destruct (negb _); [by do 4 eexists|]. destruct (revoked _ _ _ _ _ _); [by do 4 eexists|].
  destruct (commit (faults e k) c rc i data lease) as [[c1 rc1] [[]|err]] eqn:Hc; [|by do 4 eexists].
  apply (commit_pull_ok _ fid m) in Hc as (Hok1 & Hin & Hmono); [|done].
  destruct (IH r1 c1 rc1 (S k) Hr1 Hok1) as (c' & rc' & k' & o & -> & Ho). do 4 eexists. split; [done|].
  intros r' Heq. destruct (Ho r' Heq) as (? & ? & ? & Hm'). split_and!; [done|done|constructor; auto|auto].
Qed.

(** ** Progress *)

Lemma length_filter_lt {A} (P Q : A → Prop) `{!∀ x, Decision (P x)} `{!∀ x, Decision (Q x)} l x :
  (∀ y, y ∈ l → Q y → P y) → x ∈ l → P x → ¬ Q x → (length (filter Q l) < length (filter P l))%nat.
Proof.
  intros Himp Hx HP HQ. assert (∀ l', (∀ y, y ∈ l' → Q y → P y) → (length (filter Q l') <= length (filter P l'))%nat) as Hle.
  { induction l' as [|y l' IH]; intros Hi; [done|]. specialize (IH ltac:(intros; apply Hi; [by right|done])).
    rewrite !filter_cons. repeat case_decide; cbn; try lia. exfalso. naive_solver set_solver. }
  apply list_elem_of_split in Hx as (l1 & l2 & ->). rewrite !filter_app, !length_app.
  rewrite (filter_cons_True P), (filter_cons_False Q) by done. cbn.
  pose proof (Hle l1 ltac:(set_solver)). pose proof (Hle l2 ltac:(set_solver)). lia.
Qed.

Lemma elem_of_all_missing rc i :
  i ∈ all_missing rc ↔ contains rc i = false ∧ (i < length (chunks (rc_manifest rc)))%nat.
Proof. unfold all_missing, todo. rewrite list_elem_of_filter, elem_of_seq. naive_solver lia. Qed.

(** The loop goes on exactly while something is missing. *)
Lemma prefix_missing c rc :
  rc_ok c rc → (rc_prefix rc <? len (chunks (rc_manifest rc))) = true → all_missing rc ≠ [].
Proof.
  intros Hok Hlt. breflect. unfold rc_prefix, len in Hlt. rewrite (ok_have _ _ Hok) in Hlt.
  set (n := length (chunks (rc_manifest rc))) in *.
  destruct (run_length_spec (rc_verified rc) n 0) as (_ & _ & [Hk|Hend]); unfold prefix_bits in *; [lia|].
  intros Hnil. pose proof (elem_of_all_missing rc (run_length (rc_verified rc) 0 n)) as Hiff. rewrite Hnil in Hiff.
  cut (run_length (rc_verified rc) 0 n ∈ @nil nat); [by rewrite elem_of_nil|]. apply Hiff. split; [|fold n; lia].
  unfold contains. rewrite Nat.add_0_l in Hend. rewrite Hend. apply andb_false_r.
Qed.

(** A validated request asks for something. *)
Lemma validated_nonempty ranges m limits n :
  validate_ranges ranges m limits = Ok n → range_indices ranges ≠ [].
Proof.
  unfold validate_ranges. intros Hv. apply res_bind_ok in Hv as ([] & _ & Hv). apply res_bind_ok in Hv as (k & Hc & _).
  apply check_ranges_ok in Hc as (Hl & _ & Hloop & _). destruct ranges as [|g gs]; [rewrite len_nil in Hl; lia|].
  cbn [check_ranges_loop] in Hloop. apply res_bind_ok in Hloop as ([] & Hg%reject_ok & _). breflect.
  unfold range_indices. cbn. intros [Hs _]%app_eq_nil. apply (f_equal length) in Hs. rewrite length_seq in Hs. cbn in Hs. lia.
Qed.

Lemma pull_turn_ok e p fid m me peer grant lease j c rc k :
  byte_peer p → pull_ok fid m c rc →
  ∃ c' rc' k' o, pull_turn e p fid me peer grant lease j (c, rc, k) = Some (c', rc', k', o) ∧
    (o = Ok tt → pull_ok fid m c' rc' ∧ (length (all_missing rc') < length (all_missing rc))%nat).
Proof.
  intros Hp Hok. unfold pull_turn. destruct (open_request_ok e p peer j Hp) as (o & -> & Ho). cbn [mbind option_bind].
  destruct o as [[limits r]|err]; [|by do 4 eexists]. specialize (Ho limits r eq_refl).
  destruct (match grant with Some _ => _ | None => _ end); [by do 4 eexists|].
  set (asked := missing rc _ _). destruct (validate_ranges asked (rc_manifest rc) limits) as [n|err] eqn:Hv; [|by do 4 eexists].
  set (request := match grant with Some g => _ | None => _ end).
  destruct (ask p j r request) as [r1|err] eqn:Hask; [|by do 4 eexists]. apply ask_bytes in Hask; [|done..].
  destruct (pull_chunks_ok e fid m me peer grant lease (range_indices asked) r1 c rc (S k) Hask Hok)
    as (c' & rc' & k' & o & -> & Hch). cbn [mbind option_bind].
  destruct o as [r2|err]; [|by do 4 eexists]. destruct (Hch r2 eq_refl) as (Hr2 & Hok' & Hall & Hmono).
  match goal with |- context [expect_complete ?n ?msg r2] => destruct (expect_complete_ok n msg r2 Hr2) as [d ->] end.
  cbn [mbind option_bind]. do 4 eexists. split; [done|]. intros _. split; [done|].
  destruct (range_indices asked) as [|i rest] eqn:Hi; [by apply validated_nonempty in Hv|].
  assert (i ∈ all_missing rc) as Him.
  { destruct (missing_asks rc (Z.to_nat (max_ranges limits)) (Z.to_nat (max_chunks limits))) as [Hpre _ _ _ _ _].
    rewrite <- (todo_from_prefix c rc (po_ok _ _ _ _ Hok)) in Hpre. fold asked in Hpre. rewrite Hi in Hpre.
    destruct Hpre as [tl ->]. by left. }
  apply Forall_cons in Hall as [Hin _]. unfold all_missing, todo.
  rewrite (po_manifest _ _ _ _ Hok), (po_manifest _ _ _ _ Hok').
  apply elem_of_all_missing in Him as [Hc Hlt]. rewrite (po_manifest _ _ _ _ Hok) in Hlt.
  apply (length_filter_lt _ _ _ i); [|apply elem_of_seq; lia|done|by rewrite Hin].
  intros y _ Hy. destruct (contains rc y) eqn:Ey; [|done]. by rewrite (Hmono y Ey) in Hy.
Qed.

Lemma pull_loop_ok e p fid m me peer grant lease fuel : ∀ j c rc k,
  byte_peer p → pull_ok fid m c rc → (length (all_missing rc) <= fuel)%nat →
  ∃ c' rc' k' o, pull_loop fuel e p fid me peer grant lease j (c, rc, k) = Some (c', rc', k', o) ∧
    (o = Ok tt → pull_ok fid m c' rc').
Proof.
  induction fuel as [|fuel IH]; intros j c rc k Hp Hok Hf; cbn [pull_loop fst snd].
  - destruct (_ <? _) eqn:Hlt; [|by do 4 eexists].
    apply (prefix_missing c) in Hlt; [|apply Hok]. destruct (all_missing rc); [done|cbn in Hf; lia].
  - destruct (_ <? _) eqn:Hlt; [|by do 4 eexists].
    destruct (pull_turn_ok e p fid m me peer grant lease j c rc k Hp Hok) as (c' & rc' & k' & o & -> & Ho).
    cbn [mbind option_bind]. destruct o as [[]|err]; [|by do 4 eexists].
    destruct (Ho eq_refl) as [Hok' Hless]. by apply IH; [| |lia].
Qed.

(** ** The whole pull *)

Lemma pull_finish_ok e fid m me peer grant lease c rc k c' :
  pull_ok fid m c rc → pull_finish e fid me peer grant lease (c, rc, k) = (c', Ok tt) →
  ∃ w ino, partials c' !! fid = Some w ∧ p_state (row w) = DONE ∧ p_manifest (row w) = ser m ∧
           names c' !! p_path (row w) = Some ino ∧ whole_file m (content c' ino).
Proof.
  intros [Hok Hpub Hn Hm Hf]. unfold pull_finish. destruct (revoked _ _ _ _ _ _); [done|].
  pose proof (finish_ok (faults e k) c rc lease Hok) as Hfin.
  destruct (finish (faults e k) c rc lease) as [[c1 rc1] [[]|]] eqn:Hfn; [|done].
  destruct Hfin as (Hwhole & _ & Hfile & Hdone & Hpub1). destruct (db_write _); [|done]. intros [= <-].
  destruct (Hpub1 Hpub) as (w & Hw & Hrow & _).
  assert (p_file_id (rc_partial rc1) = fid ∧ p_manifest (rc_partial rc1) = p_manifest (rc_partial rc) ∧
          p_path (rc_partial rc1) = p_path (rc_partial rc) ∧ names c1 = names c) as (Hfid & Hman & Hpath & Hnames).
  { unfold finish in Hfn. destruct (res_bind _ _); [|done]. destruct (negb (len_io _)); [done|].
    destruct (negb (sync_io _)); [done|].
    match type of Hfn with context [partial_progress_verified_live_tx ?a ?b ?h ?s ?n ?v lease ?cc] =>
      pose proof (progress_names a b h s n v lease cc) as Hnn;
      destruct (partial_progress_verified_live_tx a b h s n v lease cc) as [c2 [u|]]; [|done] end.
    injection Hfn as <- <-. done. }
  rewrite Hfid in Hw. exists (set_retry 0 w), (rc_file rc). unfold defer_retry_tx. cbn.
  rewrite lookup_alter_eq, Hw. cbn. split_and!; [done|by rewrite Hrow| |by rewrite Hrow, Hnames, Hpath|].
  { rewrite Hrow, Hman. destruct (ok_row _ _ Hok) as (_ & _ & raw & Hser & ->). by rewrite <- Hm, Hser. }
  by rewrite <- Hm.
Qed.

Lemma pull_outcome e p dir c fid me peer size lease grant :
  byte_peer p → wf_core c →
  ∃ c' o, pull_v2_from e p dir c fid me peer size lease grant = Some (c', o) ∧
    (o = Ok tt → ∃ m w ino, file_id m = fid ∧ total_size m = size ∧ wf_frame (FManifest m) ∧ tiles m ∧
       partials c' !! fid = Some w ∧ p_state (row w) = DONE ∧ p_manifest (row w) = ser m ∧
       names c' !! p_path (row w) = Some ino ∧ whole_file m (content c' ino)).
Proof.
  intros Hp Hc. unfold pull_v2_from.
  destruct (fetch_manifest_ok e p fid me peer size grant Hp) as (d & -> & Hd). cbn [mbind option_bind].
  destruct d as [m|err]; [|by do 2 eexists]. destruct (Hd m eq_refl) as (Hid & Hsize & Hwf).
  pose proof Hwf as ([Ht _] & [Hcs _] & _).
  pose proof (open_inner_ok (faults e 0) dir c fid peer m size lease Hc Ht Hcs) as Hopen.
  destruct (open_inner (faults e 0) dir c fid peer m size lease) as [c1 [rc|err]] eqn:Ho; [|by do 2 eexists].
  destruct Hopen as (Hok & Hpub & Hm & Hfid & _). apply open_inner_named in Ho.
  assert (pull_ok fid m c1 rc) as Hpo by by split.
  destruct (pull_loop_ok e p fid m me peer grant lease (length (chunks m)) 1 c1 rc 1 Hp Hpo) as (c2 & rc2 & k2 & o & -> & Hloop).
  { unfold all_missing, todo. rewrite Hm. rewrite <- (length_seq (length (chunks m)) 0) at 2. apply length_filter. }
  cbn [mbind option_bind]. destruct o as [[]|err]; [|by do 2 eexists].
  destruct (pull_finish e fid me peer grant lease (c2, rc2, k2)) as [c3 o] eqn:Hfin. do 2 eexists. split; [done|].
  intros ->. apply (pull_finish_ok e fid m) in Hfin as (w & ino & Hrest); [|by apply Hloop].
  exists m, w, ino. pose proof (ok_tiles _ _ Hok) as Htl. rewrite Hm in Htl. done.
Qed.

(** C30: A pull always ends.  Whatever bytes the peer sends on its streams, however the
    streams end and whatever fails locally, the pull answers: no message panics it,
    and its loop ends within as many turns as the file has chunks. *)
Theorem pull_ends e p dir c fid me peer size lease grant :
  byte_peer p → wf_core c → is_Some (pull_v2_from e p dir c fid me peer size lease grant).
Proof. intros Hp Hc. destruct (pull_outcome e p dir c fid me peer size lease grant Hp Hc) as (c' & o & -> & _). done. Qed.

(** ** From chunks back to the file *)

(** Two given strings that differ and have one hash. *)
Definition collide (x y : bytes) : Prop := x ≠ y ∧ blake3 x = blake3 y.

(** What the id of a manifest hashes, and the bytes of a file under a chunk. *)
Definition id_input m : bytes :=
  str "promtuz/transfer/manifest" ++ le_bytes 8 (total_size m) ++ le_bytes 4 (chunk_size m) ++ mjoin (chunks m).
Definition piece m (i : nat) (f : bytes) : bytes := slice (chunk_offset m i) (chunk_len m i) f.

(** The collisions that could pass one file off as another: of the two manifests, or
    of the two files at one chunk. *)
Definition clash m1 m2 (f g : bytes) : Prop :=
  collide (id_input m1) (id_input m2) ∨ ∃ i, (i < length (chunks m1))%nat ∧ collide (piece m1 i f) (piece m1 i g).

Lemma whole_file_unique m f g :
  tiles m → whole_file m f → whole_file m g →
  f = g ∨ ∃ i, (i < length (chunks m))%nat ∧ collide (piece m i f) (piece m i g).
Proof.
  intros Hm [Hlf Hf] [Hlg Hg]. set (n := length (chunks m)).
  destruct (decide (Forall (λ i, slice (chunk_offset m i) (chunk_len m i) f = slice (chunk_offset m i) (chunk_len m i) g) (seq 0 n)))
    as [Hall|Hex].
  - left. apply list_eq. intros k. destruct (decide (Z.of_nat k < total_size m)) as [Hk|Hk].
    2: { rewrite !lookup_ge_None_2; [done|unfold len in *; lia..]. }
    destruct (chunk_covers m Hm (Z.of_nat k) ltac:(lia)) as (i & Hi & Hin).
    rewrite Forall_forall in Hall. specialize (Hall i ltac:(apply elem_of_seq; lia)).
    apply (f_equal (λ l, l !! (k - Z.to_nat (chunk_offset m i))%nat)) in Hall. rewrite !lookup_slice in Hall.
    destruct (chunk_range m Hm i Hi) as (? & ? & ?).
    destruct (_ <? _)%nat eqn:E in Hall; breflect; [|lia].
    by replace (Z.to_nat (chunk_offset m i) + (k - Z.to_nat (chunk_offset m i)))%nat with k in Hall by lia.
  - right. apply not_Forall_Exists, Exists_exists in Hex as (i & Hi%elem_of_seq & Hne); [|intros; apply _].
    specialize (Hf i ltac:(lia)). specialize (Hg i ltac:(lia)).
    apply chunk_ok_iff in Hf as [_ Hf]; [|done|lia]. apply chunk_ok_iff in Hg as [_ Hg]; [|done|lia].
    exists i. split; [lia|]. split; [exact Hne|]. unfold piece. congruence.
Qed.

(** The id of a manifest commits to all of it. *)
Lemma file_id_commits m1 m2 :
  wf_frame (FManifest m1) → wf_frame (FManifest m2) → file_id m1 = file_id m2 → m1 = m2 ∨ collide (id_input m1) (id_input m2).
Proof.
  intros (Ht1 & Hs1 & Hc1) (Ht2 & Hs2 & Hc2) Hid. change (blake3 (id_input m1) = blake3 (id_input m2)) in Hid.
  destruct (decide (id_input m1 = id_input m2)) as [Heq|Hne]; [left|right; by split].
  apply app_inv_head in Heq.
  apply app_inj_1 in Heq as [Ht Heq]; [|by rewrite !length_le_bytes].
  apply app_inj_1 in Heq as [Hs Heq]; [|by rewrite !length_le_bytes].
  apply (f_equal le_val) in Ht, Hs. rewrite !le_val_le_bytes in Ht, Hs by done.
  apply (f_equal (chunks_exact 32)) in Heq.
  rewrite !chunks_exact_join in Heq by (lia || by apply wf_arr_lengths). destruct m1, m2; cbn in *. congruence.
Qed.

(** ** The manifest a sender makes *)

Lemma div_ceil_step a b : 0 < b → div_ceil (a + b) b = 1 + div_ceil a b.
Proof.
  intros Hb. unfold div_ceil. replace (a + b) with (a + 1 * b) by lia.
  rewrite Z.mod_add, Z.div_add by lia. destruct (_ >? _); lia.
Qed.

Lemma slice_drop off n k f : 0 <= off → 0 <= k → slice (off + k) n f = slice off n (drop (Z.to_nat k) f).
Proof. intros. unfold slice. rewrite drop_drop. do 2 f_equal. lia. Qed.

(** The hashes [from_file] collects are those of the consecutive pieces. *)
Lemma from_file_loop_ok fuel : ∀ rest hashes total,
  (length rest < fuel)%nat →
  ∃ new, from_file_loop fuel rest hashes total = mkManifest (total + len rest) CHUNK_SIZE (hashes ++ new) ∧
         len new = div_ceil (len rest) CHUNK_SIZE ∧
         ∀ i h, new !! i = Some h →
           h = blake3 (slice (Z.of_nat i * CHUNK_SIZE) (Z.min (len rest - Z.of_nat i * CHUNK_SIZE) CHUNK_SIZE) rest).
Proof.
  assert (0 < CHUNK_SIZE) as Hcs by done.
  induction fuel as [|fuel IH]; intros rest hashes total Hf; [lia|]. cbn [from_file_loop]. pose proof (len_nonneg rest).
  destruct (Z.min _ _ =? 0) eqn:E0; breflect.
  { exists []. assert (len rest = 0) as -> by lia. rewrite Z.add_0_r, app_nil_r. done. }
  destruct (Z.min _ _ <? _) eqn:E1; breflect.
  - replace (Z.min CHUNK_SIZE (len rest)) with (len rest) in * by lia.
    exists [blake3 (take (Z.to_nat (len rest)) rest)]. split_and!; [done| |].
    + unfold div_ceil. rewrite Z.mod_small, Z.div_small by lia. destruct (_ >? _) eqn:E; breflect; [done|lia].
    + intros [|i] h; [|done]. intros [= <-]. f_equal. unfold slice. cbn. by rewrite Z.sub_0_r, Z.min_l by lia.
  - assert (CHUNK_SIZE <= len rest) by lia. replace (Z.min CHUNK_SIZE (len rest)) with CHUNK_SIZE by lia.
    destruct (IH (drop (Z.to_nat CHUNK_SIZE) rest) (hashes ++ [blake3 (take (Z.to_nat CHUNK_SIZE) rest)]) (total + CHUNK_SIZE))
      as (new & -> & Hl & Hn); [rewrite length_drop; unfold len in *; lia|].
    assert (len (drop (Z.to_nat CHUNK_SIZE) rest) = len rest - CHUNK_SIZE) as Hd by (unfold len in *; rewrite length_drop; lia).
    rewrite Hd in *. exists (blake3 (take (Z.to_nat CHUNK_SIZE) rest) :: new).
    rewrite <- app_assoc. split_and!; [by f_equal; lia| |].
    + rewrite len_cons, Hl, <- div_ceil_step by done. f_equal. lia.
    + intros [|i] h; cbn [lookup list_lookup].
      * intros [= <-]. f_equal. unfold slice. rewrite drop_0. f_equal. lia.
      * intros Hi. rewrite (Hn i h Hi). f_equal.
        replace (Z.of_nat (S i) * CHUNK_SIZE) with (Z.of_nat i * CHUNK_SIZE + CHUNK_SIZE) by lia.
        rewrite slice_drop by lia. f_equal. lia.
Qed.

(** A sender's manifest tiles its file and is satisfied by it. *)
Lemma from_file_ok F :
  len F <= u64_max → tiles (from_file F) ∧ whole_file (from_file F) F ∧ wf_frame (FManifest (from_file F)).
Proof.
  intros HF. destruct (from_file_loop_ok (S (length F)) F [] 0 ltac:(lia)) as (new & Heq & Hl & Hn).
  unfold from_file. rewrite Heq, Z.add_0_l. cbn [app]. pose proof (len_nonneg F).
  assert (tiles (mkManifest (len F) CHUNK_SIZE new)) as Ht by by split_and!.
  split_and!; [done| |].
  - split; [done|]. intros i Hi. apply chunk_ok_iff; [done..|]. destruct (chunk_range _ Ht i Hi) as (_ & _ & ?).
    split; [done|]. destruct (lookup_lt_is_Some_2 _ _ Hi) as [h Hh]. cbn [chunks] in *. rewrite Hh. f_equal. by apply Hn.
  - cbn. unfold is_uint, u64_max in *. split_and!; [lia|lia|done|done|].
    apply Forall_lookup. intros i h Hi. rewrite (Hn i h Hi). apply blake3_wf.
Qed.

(** Both manifests and both files, or a clash. *)
Lemma same_file m1 m2 f g :
  wf_frame (FManifest m1) → wf_frame (FManifest m2) → tiles m1 → file_id m1 = file_id m2 →
  whole_file m1 f → whole_file m2 g → (m1 = m2 ∧ f = g) ∨ clash m1 m2 f g.
Proof.
  intros Hw1 Hw2 Ht Hid Hf Hg. destruct (file_id_commits m1 m2 Hw1 Hw2 Hid) as [<-|Hc]; [|by right; left].
  destruct (whole_file_unique m1 f g Ht Hf Hg) as [<-|Hc]; [by left|by right; right].
Qed.

(** C27: A completed pull delivers the file that was sent.  If the attachment's id is
    that of the manifest its sender made from a file, then whichever peer answered
    and whatever it sent, a successful pull leaves a finished row naming a file with
    exactly the sender's bytes, unless the stored manifest and the sender's, or the
    stored file and the sender's at some chunk, differ and have one BLAKE3 hash. *)
Theorem pull_delivers_sent_file e p dir c F me peer size lease grant c' :
  byte_peer p → wf_core c → len F <= u64_max →
  pull_v2_from e p dir c (file_id (from_file F)) me peer size lease grant = Some (c', Ok tt) →
  ∃ w ino m, partials c' !! file_id (from_file F) = Some w ∧ is_complete c' (row w) = true ∧
    p_manifest (row w) = ser m ∧ names c' !! p_path (row w) = Some ino ∧
    (size = len F ∧ content c' ino = F ∨ clash m (from_file F) (content c' ino) F).
Proof.
  intros Hp Hc HF Hpull. destruct (from_file_ok F HF) as (_ & HwF & HmF).
  destruct (pull_outcome e p dir c (file_id (from_file F)) me peer size lease grant Hp Hc) as (c1 & o & Heq & Ho).
  rewrite Hpull in Heq. injection Heq as <- <-.
  destruct (Ho eq_refl) as (m & w & ino & Hid & <- & Hm & Ht & Hw & Hs & Hser & Hn & Hwhole).
  exists w, ino, m. split_and!; [done| |done|done|].
  { unfold is_complete. rewrite Hs, Hn. by rewrite bool_decide_true by eauto. }
  destruct (same_file m (from_file F) (content c' ino) F) as [[-> <-]|]; [done..| |by right].
  left. split; [|done]. symmetry. apply HwF.
Qed.

(** ** What a server sends *)

(** The frames of a served request: chunks of the manifest in the order asked for, each
    sent at a moment when the peer may have it, up to the end or to an error. *)
Inductive served (ws : nat → World) (me peer fid : bytes) (grant : option bytes) m (count : Z) : list nat → list Frame → Prop :=
| served_all : served ws me peer fid grant m count [] [FComplete count]
| served_error code idxs : served ws me peer fid grant m count idxs [FError code]
| served_chunk k i data idxs fs :
    can_serve (ws k) fid peer me grant = true → chunks m !! i = Some (blake3 data) →
    served ws me peer fid grant m count idxs fs →
    served ws me peer fid grant m count (i :: idxs) (FChunk (Z.of_nat i) data :: fs).

Lemma serve_chunks_served ws me peer fid grant scope m ino idxs count : ∀ k,
  served ws me peer fid grant m count idxs (serve_chunks ws k me peer fid grant scope m ino idxs count).
Proof.
  induction idxs as [|i idxs IH]; intros k; cbn [serve_chunks]; [constructor|].
  destruct (_ || _) eqn:E; [constructor|]. apply orb_false_iff in E as [_ E%negb_false_iff].
  destruct (read_chunk m i _) as [data|]; [|constructor]. case_bool_decide; [by econstructor|constructor].
Qed.

(** A server gives out only what the peer may have.  Whatever is asked and however
    permissions change while it is served, the answer is an error, or the manifest of
    exactly the file asked for while the peer may have it, or chunks: those named by
    the request in its order, each read and checked against that file's manifest and
    sent while the peer may have it, with a completion only after the last of them. *)
Theorem serve_scoped ws open_ok me peer limits fid requested grant scope :
  let frames := serve_v2_file ws open_ok me peer limits fid requested grant scope in
  (∃ code, frames = [FError code]) ∨
  ∃ m, file_id m = fid ∧ validate_manifest m = Ok tt ∧ can_serve (ws 0%nat) fid peer me grant = true ∧
    match requested with
    | None => frames = [FManifest m; FComplete 0]
    | Some ranges => ∃ count, validate_ranges ranges m limits = Ok count ∧
        served ws me peer fid grant m count (range_indices ranges) frames
    end.
Proof.
  cbv zeta. unfold serve_v2_file. destruct (_ || _) eqn:E; [left; by eexists|].
  apply orb_false_iff in E as [_ Hcan%negb_false_iff].
  destruct (if grant then _ else _) as [ret|]; [|left; by eexists].
  destruct (deser _) as [m|]; [|left; by eexists].
  destruct (_ || _ || _ || _ || _) eqn:Em; [left; by eexists|].
  apply orb_false_iff in Em as [Em _]. rewrite <- !orb_assoc in Em. apply orb_false_iff in Em as [Hid Hv].
  rewrite !orb_assoc in Hv. apply negb_false_iff, bool_decide_eq_true_1 in Hid.
  assert (validate_manifest m = Ok tt) as Hvm by by apply reject_ok.
  destruct requested as [ranges|]; [|right; by exists m].
  destruct (validate_ranges ranges m limits) as [count|] eqn:Hr; [|left; by eexists].
  destruct (names _ !! _) as [ino|]; [|left; by eexists]. destruct open_ok; [|left; by eexists].
  right. exists m. split_and!; [done..|]. exists count. split; [done|]. apply serve_chunks_served.
Qed.
End transfer.
