(* ===== verification/Delivery.v ===== *)
(** * Delivery: a willing sender completes a pull

    A client without local faults pulls from a peer that runs [serve_request] over a
    retained file it may serve: the pull succeeds.  The proof follows the bytes: each
    frame the server writes is the next frame the client reads, each chunk it serves is
    one the client commits. *)

From S2P Require Import Prelude Bytes Crypto Keyspace Attachment AttachmentProps Partials Receiver ReceiverProps Sharing Pull PullProps.

Section delivery.
Context `{Crypto} `{Codec Manifest} `{Codec AttachmentSharing}.
Implicit Types (c : Core) (r : RecvStream) (rc : Receiver) (e : PullEnv) (p : Peer) (m : Manifest).

(** ** Frames on a stream *)

(** The bytes a frame is written as. *)
Definition wire (f : Frame) : bytes := match write_frame_to f with Ok b => b | Err _ => [] end.

Definition wires (fs : list Frame) : bytes := mjoin (map wire fs).

(** A frame its writer accepts, for a reader in this phase. *)
Definition readable (phase : ReadPhase) (f : Frame) : Prop :=
  wf_frame f ∧ ∃ kind body, encode_body f = Ok (kind, body) ∧ accepts phase kind = true.

Lemma next_frame_wires phase f fs : 
  readable phase f → next_frame phase (mkStream (wires (f :: fs)) Fin) = Some (Ok (f, mkStream (wires fs) Fin)).
Proof.
  intros (Hwf & kind & body & Henc & Ha). unfold next_frame.
  destruct (written_frame_read phase f kind body (wires fs) Fin Hwf Henc Ha) as (b & Hb & Hr).
  change (wires (f :: fs)) with (wire f ++ wires fs). unfold wire. rewrite Hb, Hr. done.
Qed.

Lemma readable_intro phase f kind l :
  wf_frame f → frame_shape f = Ok (kind, l) → valid_len kind l = Some true → accepts phase kind = true → readable phase f.
Proof. intros Hwf Hs Hl Ha. split; [done|]. exists kind, (body_bytes f). split; [|done]. apply encode_ok. eauto. Qed.

Lemma readable_hello : readable PhHello (FHello Hello_local).
Proof. eapply readable_intro; [by_eval|done..]. Qed.

Lemma readable_complete n : is_uint 4 n → readable PhComplete (FComplete n).
Proof. intros Hn. by eapply readable_intro. Qed.

Lemma readable_chunk i data :
  is_uint 4 (Z.of_nat i) → Forall is_u8 data → len data <= CHUNK_SIZE → readable PhChunk (FChunk (Z.of_nat i) data).
Proof.
  intros Hi Hd Hl. pose proof (len_nonneg data). eapply (readable_intro _ _ 5 (len data + 4)); [done| | |done].
  - cbn. destruct (_ >? _) eqn:E; [|done]. breflect. unfold u64_max, CHUNK_SIZE in *. lia.
  - cbn. unfold within. f_equal. apply andb_true_iff. split; lia.
Qed.

Lemma readable_manifest m :
  wf_frame (FManifest m) → validate_manifest m = Ok tt → len (chunks m) * 32 + 16 <= MAX_MANIFEST →
  readable PhManifest (FManifest m).
Proof.
  intros Hwf Hv Hl. pose proof (len_nonneg (chunks m)).
  eapply (readable_intro _ _ 3 (len (chunks m) * 32 + 16)); [done| | |done].
  - cbn [frame_shape]. destruct (_ >? _) eqn:E; [breflect; unfold u64_max, MAX_MANIFEST in *; lia|].
    cbn [reject res_bind]. by rewrite Hv.
  - cbn. unfold within. rewrite Z.add_simpl_r, Z.mod_mul by done. f_equal. rewrite !andb_true_iff. repeat split; lia.
Qed.

(** ** The willing server *)

Context (w : World) (me peer fid : bytes) (m : Manifest) (ret : Retention) (ino : Z).

(** It retains the file of the manifest and may serve it to the peer.  [me] is the
    downloading client, [peer] the server. *)
Record willing : Prop := {
  wl_serve : can_serve w fid me peer None = true;
  wl_retained : retention_get_tx (w_core w) fid = Some ret;
  wl_manifest : deser (ret_manifest ret) = Some m;
  wl_id : file_id m = fid;
  wl_size : total_size m = ret_size ret;
  wl_named : names (w_core w) !! ret_path ret = Some ino;
  wl_file : whole_file m (content (w_core w) ino);
  wl_bytes : Forall is_u8 (content (w_core w) ino);
  wl_valid : validate_manifest m = Ok tt;
  wl_wf : wf_frame (FManifest m);
  wl_fits : len (chunks m) * 32 + 16 <= MAX_MANIFEST;
}.

Context (Hw : willing).

(** Chunk [i] of the retained file. *)
Definition chunk_of (i : nat) : bytes := slice (chunk_offset m i) (chunk_len m i) (content (w_core w) ino).

Lemma willing_tiles : tiles m ∧ chunk_size m <= CHUNK_SIZE.
Proof.
  destruct Hw. unfold validate_manifest in *. destruct wl_wf0 as ([? _] & [? _] & _).
  apply reject_ok in wl_valid0. breflect. unfold tiles. split_and!; (done || lia).
Qed.

Lemma serves_chunk i :
  (i < length (chunks m))%nat →
  read_chunk m i (content (w_core w) ino) = Some (chunk_of i) ∧ chunks m !! i = Some (blake3 (chunk_of i)) ∧
  len (chunk_of i) = chunk_len m i ∧ Forall is_u8 (chunk_of i).
Proof.
  intros Hi. destruct willing_tiles as [Hm _]. destruct (wl_file Hw) as [Hl Hall].
  destruct (proj1 (chunk_ok_iff m i _ Hm Hi) (Hall i Hi)) as [Hlen Hh]. destruct (chunk_range m Hm i Hi) as (? & ? & ?).
  split_and!; [by apply read_chunk_iff|done|unfold chunk_of; rewrite len_slice by lia; lia|].
  unfold chunk_of, slice. apply Forall_take, Forall_drop, (wl_bytes Hw).
Qed.

Lemma serve_chunks_willing k idxs count :
  Forall (λ i, i < length (chunks m))%nat idxs →
  serve_chunks (λ _, w) k peer me fid None None m ino idxs count =
    map (λ i, FChunk (Z.of_nat i) (chunk_of i)) idxs ++ [FComplete count].
Proof.
  intros Hin. revert k. induction Hin as [|i idxs Hi _ IH]; intros k; cbn [serve_chunks map app]; [done|].
  rewrite (wl_serve Hw). cbn [helper_stopped negb orb]. destruct (serves_chunk i Hi) as (-> & Hh & _).
  rewrite bool_decide_true by done. by rewrite IH.
Qed.

Lemma manifest_passes :
  negb (bool_decide (file_id m = fid)) || (chunk_size m =? 0) || (chunk_size m >? CHUNK_SIZE)
  || negb (len (chunks m) =? div_ceil (total_size m) (chunk_size m)) || negb (total_size m =? ret_size ret) = false.
Proof.
  pose proof (wl_valid Hw) as Hv. unfold validate_manifest in Hv. apply reject_ok in Hv.
  rewrite bool_decide_true by apply (wl_id Hw). rewrite <- (wl_size Hw), Z.eqb_refl, orb_false_r. exact Hv.
Qed.

Lemma serve_describe busy limits :
  serve_request (λ _, w) true busy peer me limits (FDescribe fid) = [FManifest m; FComplete 0].
Proof.
  cbn [serve_request]. unfold serve_v2_file. cbn [helper_stopped orb]. rewrite (wl_serve Hw), (wl_retained Hw). cbn [negb].
  by rewrite (wl_manifest Hw), manifest_passes.
Qed.

Lemma serve_pull busy limits ranges count :
  validate_ranges ranges m limits = Ok count → Forall (λ i, i < length (chunks m))%nat (range_indices ranges) →
  serve_request (λ _, w) true busy peer me limits (FPull fid ranges) =
    map (λ i, FChunk (Z.of_nat i) (chunk_of i)) (range_indices ranges) ++ [FComplete count].
Proof.
  intros Hv Hin. cbn [serve_request]. unfold serve_v2_file. cbn [helper_stopped orb].
  rewrite (wl_serve Hw), (wl_retained Hw). cbn [negb].
  rewrite (wl_manifest Hw), manifest_passes, Hv, (wl_named Hw). by apply serve_chunks_willing.
Qed.

(** ** The client *)

(** No local fault, the clock aside. *)
Definition calm (t : Z) : Faults := mkFaults (λ _, false) true true true (λ _, true) None true true true t.

Context (e : PullEnv) (p : Peer) (busy : bool) (times : nat → Z).

(** The peer is reached, proves its identity and greets, and answers with what the
    server serves; nothing fails locally. *)
Record connected : Prop := {
  cn_faults : ∀ k, faults e k = calm (times k);
  cn_greets : ∀ j, exchange (auth_from_bytes e) (cert_key p) peer (greets p j) = Ok (mkStream (wires [FHello Hello_local]) Fin);
  cn_writes : ∀ j, writes p j = Ok tt;
  cn_replies : ∀ j f, replies p j f = mkStream (wires (serve_request (λ _, w) true busy peer me max_limits f)) Fin;
}.

Context (Hcn : connected).

Lemma opens j : open_v2_request e p peer j = Some (Ok (max_limits, mkStream [] Fin)).
Proof.
  unfold open_v2_request. rewrite (cn_greets Hcn). cbn [bounded].
  pose proof (next_frame_wires PhHello (FHello Hello_local) [] readable_hello) as Hn.
  unfold next_frame in Hn. unfold exchange_hello.
  destruct (read_frame_for PhHello (mkStream (wires [FHello Hello_local]) Fin)) as [[[f r]|]|]; [|done..].
  cbn in Hn. injection Hn as -> ->. done.
Qed.

Lemma asks_server j f kind body :
  encode_body f = Ok (kind, body) →
  ask p j (mkStream [] Fin) f = Ok (mkStream (wires (serve_request (λ _, w) true busy peer me max_limits f)) Fin).
Proof.
  intros Henc. unfold ask, write_frame_to. rewrite Henc. cbn [res_bind]. rewrite (cn_writes Hcn).
  cbn [res_bind]. by rewrite (cn_replies Hcn).
Qed.

Lemma completes expected message :
  is_uint 4 expected → expect_complete expected message (mkStream (wires [FComplete expected]) Fin) = Some (Ok tt).
Proof.
  intros Hn. unfold expect_complete. rewrite next_frame_wires by by apply readable_complete.
  cbn. by rewrite Z.eqb_refl.
Qed.

Lemma describes size :
  wf_arr 32 fid → total_size m = size → fetch_manifest e p fid me peer size None = Some (Ok m).
Proof.
  intros Hf Hsize. unfold fetch_manifest. rewrite opens. cbn [mbind option_bind].
  rewrite (asks_server 0 (FDescribe fid) 2 fid) by done. rewrite serve_describe.
  rewrite next_frame_wires by (apply readable_manifest; apply Hw). cbn [mbind option_bind].
  rewrite bool_decide_true by apply (wl_id Hw). rewrite Hsize, Z.eqb_refl. cbn [negb orb].
  by rewrite completes.
Qed.

(** ** Local operations that do not fail *)

(** The lease of the download is live. *)
Definition live c (lease : ReceiverLease) : Prop := l_cancel lease ∉ cancelled c ∧ l_file_id lease = fid.

Lemma live_check c lease : live c lease → is_cancelled c (l_cancel lease) = false.
Proof. intros [Hc _]. unfold is_cancelled. by rewrite bool_decide_false. Qed.

Lemma live_ensure c lease : live c lease → ensure_live c lease = Ok tt.
Proof. intros Hl. unfold ensure_live. by rewrite live_check. Qed.

Lemma progress_calm c lease rowf have state now v :
  live c lease → partials c !! fid = Some rowf →
  partial_progress_verified_live_tx true fid have state now v lease c =
    (set_partials (alter (set_progress have state now v) fid) c, Ok tt).
Proof.
  intros Hl Hr. unfold partial_progress_verified_live_tx. rewrite live_ensure by done. cbn [negb].
  rewrite bool_decide_true by (symmetry; apply Hl). cbn [negb]. by rewrite Hr.
Qed.

(** The receiver of this download. *)
Definition mine c rc lease : Prop := pull_ok fid m c rc ∧ live c lease ∧ rc_cancel rc = l_cancel lease.

Lemma mine_live c rc lease : mine c rc lease → rc_ensure_live c rc lease = Ok tt.
Proof. intros (_ & Hl & Hc). unfold rc_ensure_live. rewrite Hc, live_check by done. by rewrite Z.eqb_refl. Qed.

Lemma commit_calm t c rc lease i :
  mine c rc lease → (i < length (chunks m))%nat →
  ∃ c' rc', commit (calm t) c rc i (chunk_of i) lease = (c', rc', Ok tt) ∧ mine c' rc' lease.
Proof.
  intros Hm Hi. destruct (serves_chunk i Hi) as (_ & Hh & Hlen & _). pose proof (mine_live _ _ _ Hm) as Hlive.
  destruct Hm as (Hok & Hl & Hc).
  assert (∃ c' rc', commit (calm t) c rc i (chunk_of i) lease = (c', rc', Ok tt) ∧ cancelled c' = cancelled c ∧
            rc_cancel rc' = rc_cancel rc) as (c' & rc' & Heq & Hcc & Hrc).
  { unfold commit, commit_check. rewrite Hlive. cbn [res_bind]. rewrite (po_manifest _ _ _ _ Hok), Hh.
    rewrite Hlen, Z.eqb_refl, bool_decide_true by done. cbn [negb orb reject res_bind].
    destruct (negb (contains rc i)); [|by do 2 eexists]. unfold commit_write. cbn [write_io sync_io calm].
    unfold commit_publish. cbv zeta. rewrite (po_fid _ _ _ _ Hok).
    destruct (po_published _ _ _ _ Hok) as (rowf & Hrow & _). rewrite (po_fid _ _ _ _ Hok) in Hrow.
    cbn [db_write calm]. rewrite (progress_calm _ lease rowf) by done. by do 2 eexists. }
  exists c', rc'. split; [done|]. apply (commit_pull_ok _ fid m) in Heq as (Hok' & _); [|done].
  split_and!; [done|by split; [rewrite Hcc|]; apply Hl|congruence].
Qed.

Lemma chunk_index i : (i < length (chunks m))%nat → is_uint 4 (Z.of_nat i).
Proof. intros Hi. pose proof (wl_fits Hw). unfold is_uint, MAX_MANIFEST, len in *. lia. Qed.

Lemma chunk_readable i : (i < length (chunks m))%nat → readable PhChunk (FChunk (Z.of_nat i) (chunk_of i)).
Proof.
  intros Hi. destruct willing_tiles as [Hm Hcs]. destruct (serves_chunk i Hi) as (_ & _ & Hl & Hu).
  destruct (chunk_range m Hm i Hi) as (_ & ? & _). apply readable_chunk; [by apply chunk_index|done|lia].
Qed.

Lemma pull_chunks_calm lease idxs rest : ∀ c rc k,
  mine c rc lease → Forall (λ i, i < length (chunks m))%nat idxs →
  ∃ c' rc' k', pull_chunks e fid me peer None lease idxs
      (mkStream (wires (map (λ i, FChunk (Z.of_nat i) (chunk_of i)) idxs ++ rest)) Fin) (c, rc, k) =
    Some (c', rc', k', Ok (mkStream (wires rest) Fin)) ∧ mine c' rc' lease.
Proof.
  induction idxs as [|i idxs IH]; intros c rc k Hm Hin; cbn [pull_chunks map app]; [by do 3 eexists|].
  apply Forall_cons in Hin as [Hi Hin]. rewrite next_frame_wires by by apply chunk_readable. cbn [mbind option_bind].
  rewrite Z.eqb_refl. cbn [negb revoked]. rewrite (cn_faults Hcn).
  destruct (commit_calm (times k) c rc lease i Hm Hi) as (c1 & rc1 & -> & Hm1). by apply IH.
Qed.

Lemma pull_turn_calm lease j c rc k :
  mine c rc lease → wf_arr 32 fid → all_missing rc ≠ [] →
  ∃ c' rc' k', pull_turn e p fid me peer None lease j (c, rc, k) = Some (c', rc', k', Ok tt) ∧ mine c' rc' lease.
Proof.
  intros Hmine Hf Hne. pose proof Hmine as (Hok & Hl & Hc). destruct willing_tiles as [Hm Hcs].
  unfold pull_turn. rewrite opens. cbn [mbind option_bind max_ranges max_chunks max_limits].
  set (asked := missing rc _ _).
  assert (validate_ranges asked (rc_manifest rc) max_limits = Ok (len (range_indices asked))) as Hv.
  { eapply missing_validates; [apply Hok|by rewrite (po_manifest _ _ _ _ Hok)|done|by_eval..]. }
  rewrite Hv. rewrite (po_manifest _ _ _ _ Hok) in Hv.
  destruct (missing_asks rc (Z.to_nat MAX_RANGES) (Z.to_nat MAX_CHUNKS)) as [Hpre _ Hbud _ _ Hin]. fold asked in Hpre, Hbud, Hin.
  assert (Forall (λ i, i < length (chunks m))%nat (range_indices asked)) as Hidx.
  { apply Forall_forall. intros i Hi. destruct Hpre as [tl Htl].
    assert (i ∈ all_missing rc) as Him%elem_of_all_missing.
    { rewrite (todo_from_prefix c rc (po_ok _ _ _ _ Hok)), Htl. apply elem_of_app. by left. }
    rewrite (po_manifest _ _ _ _ Hok) in Him. apply Him. }
  assert (∃ kind body, encode_body (FPull fid asked) = Ok (kind, body)) as (kind & body & Henc).
  { unfold validate_ranges in Hv. apply res_bind_ok in Hv as (? & _ & Hv). apply res_bind_ok in Hv as (n & Hch & _).
    pose proof (check_ranges_ok _ _ _ Hch) as (Hlen & _). cbn in Hlen. exists 4, (body_bytes (FPull fid asked)).
    apply encode_ok. exists (34 + len asked * 8). split_and!; [cbn [frame_shape]; by rewrite Hch| |done].
    cbn. unfold within. rewrite Z.add_simpl_l, Z.mod_mul by done. f_equal. rewrite !andb_true_iff. unfold MAX_RANGES in *.
    repeat split; lia. }
  rewrite (asks_server j (FPull fid asked) kind body Henc), (serve_pull busy _ _ _ Hv Hidx).
  destruct (pull_chunks_calm lease (range_indices asked) [FComplete (len (range_indices asked))] c rc (S k) Hmine Hidx)
    as (c' & rc' & k' & -> & Hmine'). cbn [mbind option_bind].
  rewrite completes by (unfold is_uint, len; change (Z.to_nat MAX_CHUNKS) with 64%nat in Hbud; lia).
  by do 3 eexists.
Qed.

Lemma pull_loop_calm lease fuel : ∀ j c rc k,
  byte_peer p → wf_arr 32 fid → mine c rc lease → (length (all_missing rc) <= fuel)%nat →
  ∃ c' rc' k', pull_loop fuel e p fid me peer None lease j (c, rc, k) = Some (c', rc', k', Ok tt) ∧ mine c' rc' lease ∧
               rc_prefix rc' = len (chunks m).
Proof.
  assert (∀ c rc, mine c rc lease → (rc_prefix rc <? len (chunks (rc_manifest rc))) = false → rc_prefix rc = len (chunks m)) as Hend.
  { intros c rc (Hok & _) Hlt. breflect. rewrite (po_manifest _ _ _ _ Hok) in Hlt. unfold rc_prefix in *.
    rewrite (ok_have _ _ (po_ok _ _ _ _ Hok)), (po_manifest _ _ _ _ Hok) in *.
    destruct (run_length_spec (rc_verified rc) (length (chunks m)) 0) as (? & _). unfold prefix_bits, len in *. lia. }
  induction fuel as [|fuel IH]; intros j c rc k Hp Hf Hmine Hfuel; cbn [pull_loop fst snd].
  - destruct (_ <? _) eqn:Hlt; [|do 3 eexists; split_and!; [done..|by eapply Hend]].
    apply (prefix_missing c) in Hlt; [|apply Hmine]. destruct (all_missing rc); [done|cbn in Hfuel; lia].
  - destruct (_ <? _) eqn:Hlt; [|do 3 eexists; split_and!; [done..|by eapply Hend]].
    apply (prefix_missing c) in Hlt; [|apply Hmine].
    destruct (pull_turn_ok e p fid m me peer None lease j c rc k Hp (proj1 Hmine)) as (c1 & rc1 & k1 & o & Heq & Ho).
    destruct (pull_turn_calm lease j c rc k Hmine Hf Hlt) as (c2 & rc2 & k2 & Heq2 & Hmine2).
    rewrite Heq2 in Heq. injection Heq as <- <- <- <-. destruct (Ho eq_refl) as [_ Hless].
    rewrite Heq2. cbn [mbind option_bind]. apply IH; [done|done|done|lia].
Qed.

Lemma scan_calm t c lease f : ∀ idxs k bits, live c lease → ∃ k' bits', scan (calm t) c lease m f k idxs bits = Ok (k', bits').
Proof.
  induction idxs as [|i idxs IH]; intros k bits Hl; cbn [scan]; [by do 2 eexists|].
  destruct (negb _); [by apply IH|]. rewrite live_check by done. cbn [calm stops read_io orb negb]. by apply IH.
Qed.

Lemma open_calm t dir c lease :
  wf_core c → live c lease → is_Some (ser m) → len (chunks m) <= MAX_MANIFEST_CHUNKS →
  ∃ c' rc, open_inner (calm t) dir c fid peer m (total_size m) lease = (c', Ok rc) ∧ mine c' rc lease.
Proof.
  intros Hc Hl [raw Hser] Hmax. destruct willing_tiles as [Hm Hcs]. pose proof (wl_wf Hw) as ([Ht _] & [Hz _] & _).
  assert (∃ c' rc, open_inner (calm t) dir c fid peer m (total_size m) lease = (c', Ok rc) ∧
     cancelled c' = cancelled c ∧ rc_cancel rc = l_cancel lease) as (c' & rc & Heq & Hcc & Hrc).
  { unfold open_inner, open_prepare. rewrite live_check by done. cbn [calm stops orb reject res_bind].
    assert (validate_offer m fid (total_size m) = Ok tt) as ->.
    { unfold validate_offer. apply reject_ok. rewrite bool_decide_true by apply (wl_id Hw). rewrite Z.eqb_refl.
      destruct Hm as (Hpos & _ & Hn). rewrite Hn in *. rewrite Z.eqb_refl. rewrite !orb_false_iff. cbn [negb].
      unfold CHUNK_SIZE, MAX_MANIFEST_CHUNKS in *. repeat split; lia. }
    cbn [res_bind].
    assert (∃ path ex, saved_path (calm t) dir c fid = Ok (path, ex)) as (path & ex & ->).
    { unfold saved_path. destruct (partial_get_tx c fid); [|by do 2 eexists]. cbn. case_decide; by do 2 eexists. }
    cbn [res_bind].
    assert (∃ bits, saved_bits (calm t) c fid m (total_size m) ex = Ok bits) as (bits & ->).
    { unfold saved_bits. destruct (partial_get_tx c fid); [|by eexists]. destruct (_ && _ && _ && _); [|by eexists].
      cbn [calm db_read negb]. destruct (verified_bitmap_tx c fid); by eexists. }
    cbn [res_bind]. unfold open_partial. rewrite live_ensure by done. cbn [calm open_io].
    destruct (open_file path c) as [c1 ino1] eqn:Ho. apply open_file_live in Ho as (_ & _ & Hcc & _); [|done].
    assert (live c1 lease) as Hl1 by (destruct Hl; by split; [rewrite Hcc|]).
    unfold open_scan. destruct (scan_calm t c1 lease (content c1 ino1) (seq 0 (length (chunks m))) 1 bits Hl1) as (k & v & ->).
    cbn [res_bind]. rewrite Hser. cbn [res_bind]. rewrite live_check by done. cbn.
    unfold open_publish, partial_put_verified_live_tx. rewrite live_ensure by done. cbn [p_file_id].
    rewrite bool_decide_true by (symmetry; apply Hl). cbn. do 2 eexists. split; [done|]. by split. }
  exists c', rc. split; [done|]. pose proof (open_inner_ok (calm t) dir c fid peer m (total_size m) lease Hc Ht Hz) as Hok.
  rewrite Heq in Hok. destruct Hok as (Hrok & Hpub & Hman & Hfid & _). apply open_inner_named in Heq.
  split_and!; [by split|destruct Hl; by split; [rewrite Hcc|]|done].
Qed.

Lemma finish_calm t t' c rc lease k :
  mine c rc lease → rc_prefix rc = len (chunks m) → faults e k = calm t → faults e (S k) = calm t' →
  ∃ c', pull_finish e fid me peer None lease (c, rc, k) = (c', Ok tt).
Proof.
  intros Hmine Hpre Hk Hk'. pose proof Hmine as (Hok & Hl & _). unfold pull_finish. cbn [revoked].
  rewrite Hk, Hk'. unfold finish. rewrite (mine_live _ _ _ Hmine). cbn [res_bind].
  rewrite Hpre, (po_manifest _ _ _ _ Hok), Z.eqb_refl. cbn [negb reject calm len_io sync_io db_write].
  destruct (po_published _ _ _ _ Hok) as (rowf & Hrow & _). rewrite (po_fid _ _ _ _ Hok) in *.
  rewrite (progress_calm _ lease rowf) by done. by eexists.
Qed.

(** The pull of a willing sender's file succeeds, from whatever partial state it
    starts. *)
Lemma willing_pull dir c lease :
  byte_peer p → wf_core c → wf_arr 32 fid → live c lease → is_Some (ser m) →
  ∃ c', pull_v2_from e p dir c fid me peer (total_size m) lease None = Some (c', Ok tt).
Proof.
  intros Hp Hc Hf Hl Hser. unfold pull_v2_from. rewrite describes by done. cbn [mbind option_bind].
  rewrite (cn_faults Hcn).
  destruct (open_calm (times 0) dir c lease Hc Hl Hser) as (c1 & rc & -> & Hmine).
  { pose proof (wl_fits Hw). unfold MAX_MANIFEST, MAX_MANIFEST_CHUNKS in *. change (8 * 1024 * 1024 / 32) with 262144. lia. }
  destruct (pull_loop_calm lease (length (chunks m)) 1 c1 rc 1 Hp Hf Hmine) as (c2 & rc2 & k2 & -> & Hmine2 & Hpre).
  { unfold all_missing, todo. rewrite (po_manifest _ _ _ _ (proj1 Hmine)).
    rewrite <- (length_seq (length (chunks m)) 0) at 2. apply length_filter. }
  cbn [mbind option_bind].
  destruct (finish_calm (times k2) (times (S k2)) c2 rc2 lease k2 Hmine2 Hpre) as [c3 ->]; [apply Hcn..|]. by eexists.
Qed.

(** What it leaves: a finished row naming a file with exactly the bytes the sender
    retains, or a collision of hashes at hand. *)
Lemma willing_delivers dir c lease :
  byte_peer p → wf_core c → wf_arr 32 fid → live c lease → is_Some (ser m) →
  ∃ c' rowf got m', pull_v2_from e p dir c fid me peer (total_size m) lease None = Some (c', Ok tt) ∧
    partials c' !! fid = Some rowf ∧ p_state (row rowf) = DONE ∧ p_manifest (row rowf) = ser m' ∧
    names c' !! p_path (row rowf) = Some got ∧
    (content c' got = content (w_core w) ino ∨ clash m' m (content c' got) (content (w_core w) ino)).
Proof.
  intros Hp Hc Hf Hl Hser. destruct (willing_pull dir c lease Hp Hc Hf Hl Hser) as [c' Hpull].
  destruct (pull_outcome e p dir c fid me peer (total_size m) lease None Hp Hc) as (c1 & o & Heq & Ho).
  rewrite Hpull in Heq. injection Heq as <- <-.
  destruct (Ho eq_refl) as (m' & rowf & got & Hid & _ & Hwf' & Ht & Hrow & Hst & Hman & Hn & Hwhole).
  exists c', rowf, got, m'. split_and!; [done..|].
  destruct (same_file m' m (content c' got) (content (w_core w) ino)) as [[_ ->]|]; [done|apply Hw|done| |done|apply Hw|by left|by right].
  by rewrite Hid, (wl_id Hw).
Qed.
End delivery.

(** ** What a server writes is bytes *)

Section bytes.
Context `{Crypto} `{Codec Manifest} `{Codec AttachmentSharing}.

Lemma wire_bytes f : Forall is_u8 (body_bytes f) → Forall is_u8 (wire f).
Proof.
  intros Hb. unfold wire, write_frame_to, encode_body. destruct (frame_shape f) as [[kind l]|]; [|done]. cbn.
  destruct (validate_header _ _ _); [|done]. cbn. norm_Forall. split_and!; [apply le_bytes_u8|by_eval|apply le_bytes_u8|done].
Qed.

Lemma wires_bytes fs : Forall (λ f, Forall is_u8 (body_bytes f)) fs → Forall is_u8 (wires fs).
Proof.
  induction 1 as [|f fs Hf _ IH]; [done|]. change (wires (f :: fs)) with (wire f ++ wires fs).
  apply Forall_app. split; [by apply wire_bytes|done].
Qed.

Lemma served_bytes ws open_ok busy me peer limits request :
  (∀ raw m, deser raw = Some m → Forall (wf_arr 32) (chunks m)) → (∀ k ino, Forall is_u8 (content (w_core (ws k)) ino)) →
  Forall is_u8 (wires (serve_request ws open_ok busy me peer limits request)).
Proof.
  intros Hm Hc. apply wires_bytes.
  assert (∀ code, Forall (λ f, Forall is_u8 (body_bytes f)) [FError code]) as Herr.
  { intros code. constructor; [|done]. apply le_bytes_u8. }
  assert (∀ fid requested grant scope, Forall (λ f, Forall is_u8 (body_bytes f))
    (serve_v2_file ws open_ok me peer limits fid requested grant scope)) as Hfile.
  { intros fid requested grant scope. unfold serve_v2_file. destruct (_ || _); [apply Herr|].
    destruct (if grant then _ else _); [|apply Herr]. destruct (deser _) as [m|] eqn:Hd; [|apply Herr].
    destruct (_ || _ || _ || _ || _); [apply Herr|]. destruct requested as [ranges|].
    - destruct (validate_ranges _ _ _) as [count|]; [|apply Herr]. destruct (names _ !! _) as [ino|]; [|apply Herr].
      destruct open_ok; [|apply Herr]. generalize 1%nat. induction (range_indices ranges) as [|i idxs IH]; intros k; cbn [serve_chunks].
      { constructor; [|done]. apply le_bytes_u8. }
      destruct (_ || _); [apply Herr|]. unfold read_chunk. destruct (_ =? _); [|apply Herr]. case_bool_decide; [|apply Herr].
      constructor; [|apply IH]. cbn. apply Forall_app. split; [apply le_bytes_u8|]. apply Forall_take, Forall_drop, Hc.
    - constructor; [|constructor; [apply le_bytes_u8|done]]. cbn [body_bytes]. norm_Forall.
      split_and!; [apply le_bytes_u8..|]. eapply Forall_join_u8, Hm, Hd. }
  unfold serve_request. destruct request; try apply Herr; try apply Hfile; destruct (sharing limits); try apply Herr;
    destruct (serving_scope _); try apply Herr; destruct busy; try apply Herr; apply Hfile.
Qed.
End bytes.
