(* ===== verification/Download.v ===== *)
(** * Download: retries, helpers and wakes around a pull

    libcore/src/transfer/pull.rs from [download_with_policy] to [set_state]: who may be
    asked, how often, and what state a download is left in.  What the client cannot
    choose, the order of a select, the consent and the links it gets, is in
    [Attempt] and [PolicyEnv]. *)

From S2P Require Import Prelude Bytes Crypto Keyspace Attachment Partials Receiver Sharing Pull.

Inductive Decision := Direct | RelayedOnly | No.

Inductive DownloadTrigger := Requested | Reconnect | NetworkChange | WakeResponse.

(** What a drive fails with: a failure of the transfer, a sender no longer permitted, or
    the store. *)
Inductive drive_error := DrFailure (f : Failure) | DrRefused | DrStore (e : error).

Definition RETRY_COOLDOWN_SECS : Z := 60.
Definition WAKE_BACKOFF_SECS : Z := 60.

(** Two delays, so three attempts. *)
Definition RETRIES : nat := 2.

(** One attempt as the outside decides it.  [cut] is the case where the lease is
    cancelled during the attempt: what the interrupted pull had done by then. *)
Record Attempt := mkAttempt {
  at_consent : Decision;
  at_connect : fres Peer;
  at_env : PullEnv;
  at_cut : option (Core → Core);
  at_woken : bool;              (** the lease is cancelled during the retry delay *)
  at_db : bool;                 (** the state write before the attempt succeeds *)
  at_db_after : bool;           (** the state write after it does *)
  at_db_defer : bool;           (** the cooldown is written *)
  at_now : Z;
}.

Section download.
Context `{Crypto} `{Codec Manifest} `{Codec AttachmentSharing}.
Context (dir : bytes).

(** [set_state] *)
Definition set_state (db : bool) (now : Z) (c : Core) (fid peer : bytes) (state : Z) (lease : ReceiverLease) : Core * res unit :=
  let p := default (mkPartial fid peer 0 0 None 0 state (partial_path dir fid) 0) (partial_get_tx c fid) in
  partial_put_live_tx db (mkPartial (p_file_id p) peer (p_total p) (p_chunk_size p) (p_manifest p) (p_have p) state (p_path p) now)
    lease c.

(** [set_state(..)?] and what follows it. *)
Definition with_state {A} (s : Core * res unit) (k : Core → Core * result A drive_error) : Core * result A drive_error :=
  match s with (c, Err e) => (c, Err (DrStore e)) | (c, Ok _) => k c end.

(** The work of one attempt, once the state is [CONNECTING]. *)
Definition attempt_pull (a : Attempt) (c : Core) (fid me peer : bytes) (size : Z) (lease : ReceiverLease) (grant : option bytes) :
    option (Core * fres unit) :=
  match at_connect a with
  | Err f => Some (c, Err f)
  | Ok link => pull_v2_from (at_env a) link dir c fid me peer size lease grant
  end.

(** One turn of the [for] loop of [drive_download_inner]: how it ends the drive, or
    [None] after a transient failure.  A panic in the pull is an outer [None]. *)
Definition attempt_once (a : Attempt) (may_help : bool) (c : Core) (fid me peer : bytes) (size : Z) (lease : ReceiverLease) :
    option (Core * option (result bool drive_error)) :=
  let fail c o := with_state (set_state (at_db_after a) (at_now a) c fid peer FAILED lease) (λ c, (c, Err o)) in
  let stop '(c, o) := Some (c, Some o) in
  if is_cancelled c (l_cancel lease) then stop (c, Ok false)
  else match at_consent a with
  | No => stop (with_state (set_state (at_db a) (at_now a) c fid peer FAILED lease) (λ c, (c, Err DrRefused)))
  | _ =>
      match set_state (at_db a) (at_now a) c fid peer CONNECTING lease with
      | (c, Err e) => stop (c, Err (DrStore e))
      | (c, Ok _) =>
          match at_cut a with
          | Some cut => stop (cut c, Ok false)
          | None =>
              '(c, result) ← attempt_pull a c fid me peer size lease None;
              match result with
              | Ok _ => stop (c, Ok false)
              | Err f =>
                  match fk f with
                  | KCancelled => stop (c, Ok false)
                  | KTransport =>
                      match set_state (at_db_after a) (at_now a) c fid peer HELD lease with
                      | (c, Err e) => stop (c, Err (DrStore e))
                      | (c, Ok _) => Some (c, None)
                      end
                  | _ =>
                      if may_help && bool_decide (fk f = KUnavailable) then stop (c, Err (DrFailure f))
                      else stop (fail c (DrFailure f))
                  end
              end
          end
      end
  end.

(** The loop: [retries] delays are left. *)
Fixpoint drive_from (retries : nat) (attempts : nat → Attempt) (k : nat) (may_help : bool) (c : Core) (fid me peer : bytes)
    (size : Z) (lease : ReceiverLease) : option (Core * result bool drive_error) :=
  '(c, stopped) ← attempt_once (attempts k) may_help c fid me peer size lease;
  match stopped, retries with
  | Some o, _ => Some (c, o)
  | None, S retries =>
      if at_woken (attempts k) then Some (c, Ok false)
      else drive_from retries attempts (S k) may_help c fid me peer size lease
  | None, O =>
      if at_db_defer (attempts k) then Some (defer_retry_tx fid (at_now (attempts k) + RETRY_COOLDOWN_SECS) c, Ok true)
      else Some (c, Err (DrStore Sql))
  end.

(** [drive_download_inner] with the delays of [RETRY_DELAYS] *)
Definition drive_download_inner (attempts : nat → Attempt) (may_help : bool) (c : Core) (fid me peer : bytes) (size : Z)
    (lease : ReceiverLease) : option (Core * result bool drive_error) :=
  drive_from RETRIES attempts 0 may_help c fid me peer size lease.

(** [try_helpers]: the providers in turn, each with its grant. *)
Fixpoint try_helpers (providers : list (bytes * bytes)) (attempts : nat → Attempt) (worlds : nat → World) (k : nat) (c : Core)
    (fid me : bytes) (size : Z) (lease : ReceiverLease) : option (Core * result bool drive_error) :=
  match providers with
  | [] => Some (c, Ok false)
  | (peer, grant) :: providers =>
      let a := attempts k in
      if is_cancelled c (l_cancel lease) then Some (c, Ok true)
      else match permitted (w_messages (worlds k)) grant fid me peer (w_now (worlds k)) with
      | None => try_helpers providers attempts worlds (S k) c fid me size lease
      | Some _ =>
          match set_state (at_db a) (at_now a) c fid peer CONNECTING lease with
          | (c, Err e) => Some (c, Err (DrStore e))
          | (c, Ok _) =>
              match at_cut a with
              | Some cut => Some (cut c, Ok true)
              | None =>
                  '(c, result) ← attempt_pull a c fid me peer size lease (Some grant);
                  match result with
                  | Ok _ => Some (c, Ok true)
                  | Err f =>
                      if decide (fk f = KCancelled) then Some (c, Ok true)
                      else if bool_decide (fk f = KStorage) && match source f with Code _ => false | _ => true end then
                        Some (with_state (set_state (at_db_after a) (at_now a) c fid peer FAILED lease) (λ c, (c, Err (DrFailure f))))
                      else try_helpers providers attempts worlds (S k) c fid me size lease
                  end
              end
          end
      end
  end.

(** ** The policy *)

(** Who decides whether a download runs at all; [db] is whether a claim is written. *)
Definition may_run (db : bool) (c : Core) (fid : bytes) (trigger : DownloadTrigger) (now : Z) : Core * res bool :=
  let claim := if db then let '(c, claimed) := claim_ready_retry_tx c fid in (c, Ok claimed) else (c, Err Sql) in
  match partial_get_tx c fid with
  | Some p => if is_complete c p then (c, Ok false) else
      match trigger with
      | Requested => (c, Ok true)
      | Reconnect => (c, Ok (negb (p_state p =? FAILED) && negb (retry_after_tx c fid >? now)))
      | NetworkChange => (c, Ok (negb (p_state p =? FAILED)))
      | WakeResponse => claim
      end
  | None => match trigger with
            | Requested => (c, Ok true)
            | Reconnect | NetworkChange => (c, Ok false)
            | WakeResponse => claim
            end
  end.

Record PolicyEnv := mkPolicyEnv {
  pe_now : Z;
  pe_slot : bool;                   (** a pulling slot was free before a cancellation *)
  pe_offer : res (option (bytes * Z));  (** [attachment_offer_tx] *)
  pe_staged : bool;                 (** the composer holds the file *)
  pe_named : bool;                  (** a media row names it *)
  pe_auth : bool;                   (** [local_auth] *)
  pe_me : bytes;
  pe_helpers : res (list (bytes * bytes));  (** [candidates] *)
  pe_attempts : nat → Attempt;
  pe_helper_attempts : nat → Attempt;
  pe_worlds : nat → World;
  pe_world_after : World;           (** when the remaining helpers are looked at *)
  pe_db : bool;                     (** the state write here succeeds *)
  pe_db_defer : bool;               (** the cooldown is written *)
  pe_db_claim : bool;               (** a claim of a retry or a wake is written *)
}.

(** No offer left: the row fails, and the bytes go when nothing else names them. *)
Definition no_offer (e : PolicyEnv) (c : Core) (fid : bytes) (lease : ReceiverLease) : Core * result bool drive_error :=
  if is_cancelled c (l_cancel lease) then (c, Ok false)
  else
    let after c := (if pe_staged e || pe_named e then c else forget_file dir fid c, Err DrRefused) in
    match partial_get_tx c fid with
    | Some p => with_state (set_state (pe_db e) (pe_now e) c fid (p_source_ipk p) FAILED lease) after
    | None => after c
    end.

(** The original sender first, then helpers: whether the download is held, and whether
    the original sender deserves a wake. *)
Definition original_then_helpers (e : PolicyEnv) (helpers : list (bytes * bytes)) (c : Core) (fid peer : bytes) (size : Z)
    (lease : ReceiverLease) :
    option (Core * result (bool * bool) drive_error) :=
  '(c, original) ← drive_download_inner (pe_attempts e) (negb (bool_decide (helpers = []))) c fid (pe_me e) peer size lease;
  let wake_original := match original with Ok true => true | _ => false end in
  let unavailable := match original with Err (DrFailure f) => bool_decide (fk f = KUnavailable) | _ => false end in
  let needs_help := wake_original || unavailable in
  '(c, helped) ← (if needs_help then
                    try_helpers (take MAX_PROVIDERS helpers) (pe_helper_attempts e) (pe_worlds e) 0 c fid (pe_me e) size lease
                  else Some (c, Ok false));
  match helped with
  | Err err => Some (c, Err err)
  | Ok true => Some (c, Ok (false, wake_original))
  | Ok false =>
      let w := pe_world_after e in
      let remain := existsb (λ pg, match permitted (w_messages w) pg.2 fid (pe_me e) pg.1 (w_now w) with Some _ => true | None => false end)
                      helpers in
      if needs_help && remain then
        Some (with_state (set_state (pe_db e) (pe_now e) c fid peer HELD lease)
                (λ c, if pe_db_defer e then (defer_retry_tx fid (pe_now e + RETRY_COOLDOWN_SECS) c, Ok (true, wake_original))
                      else (c, Err (DrStore Sql))))
      else
        let settle c := match original with Ok held => (c, Ok (held, wake_original)) | Err err => (c, Err err) end in
        if needs_help then
          Some (with_state (set_state (pe_db e) (pe_now e) c fid peer (if is_ok original then HELD else FAILED) lease) settle)
        else Some (settle c)
  end.

(** The part of [download_with_policy] that runs under the lease. *)
Definition leased (e : PolicyEnv) (c : Core) (fid : bytes) (lease : ReceiverLease) :
    option (Core * result (option (bytes * bool * bool)) drive_error) :=
  if negb (pe_slot e) then Some (c, Ok None)
  else match pe_offer e with
  | Err err => Some (c, Err (DrStore err))
  | Ok None => let '(c, o) := no_offer e c fid lease in
            Some (c, match o with Ok _ => Ok None | Err err => Err err end)
  | Ok (Some (peer, size)) =>
      if negb (pe_auth e) then
        Some (with_state (set_state (pe_db e) (pe_now e) c fid peer FAILED lease) (λ c, (c, Err DrRefused)))
      else match pe_helpers e with
      | Err err => Some (c, Err (DrStore err))
      | Ok helpers =>
          '(c, o) ← original_then_helpers e helpers c fid peer size lease;
          Some (c, match o with Ok (held, wake) => Ok (Some (peer, held, wake)) | Err err => Err err end)
      end
  end.

(** [download_with_policy]: the downloads in flight are [downloading], and [PullGuard]
    takes the file out again on every way out; the answer says which sender's wake is
    claimed, if one is. *)
Definition download_with_policy (e : PolicyEnv) (c : Core) (downloading : gset bytes) (fid : bytes) (trigger : DownloadTrigger) :
    option (Core * gset bytes * result (option bytes) drive_error) :=
  if bool_decide (fid ∈ downloading) then Some (c, downloading, Ok None)
  else
    let released := ({[fid]} ∪ downloading) ∖ {[fid]} in
    match may_run (pe_db_claim e) c fid trigger (pe_now e) with
    | (c, Err err) => Some (c, released, Err (DrStore err))
    | (c, Ok false) => Some (c, released, Ok None)
    | (c, Ok true) =>
        let '(c, lease) := receiver_lease c fid in
        '(c, o) ← leased e c fid lease;
        let c := drop_lease lease c in
        match o with
        | Err err => Some (c, released, Err err)
        | Ok None => Some (c, released, Ok None)
        | Ok (Some (peer, held, wake)) =>
            if held && wake && match trigger with WakeResponse => false | _ => true end then
              if pe_db_claim e then
                let '(c, claimed) := claim_wake_tx c fid (pe_now e) WAKE_BACKOFF_SECS in
                Some (c, released, Ok (if claimed then Some peer else None))
              else Some (c, released, Err (DrStore Sql))
            else Some (c, released, Ok None)
        end
    end.
End download.
