(* ===== verification/DownloadProps.v ===== *)
(** * DownloadProps: a download always settles

    Every operation of a download keeps the store well-formed, so a download answers
    whatever its peers send; a drive leaves the row in the state its result says. *)

From S2P Require Import Prelude Bytes Crypto Keyspace Attachment AttachmentProps Partials Receiver ReceiverProps Sharing Pull PullProps Download.

Section download.
Context `{Crypto} `{Codec Manifest} `{Codec AttachmentSharing}.
Context (dir : bytes).
Implicit Types (c : Core) (rc : Receiver) (lease : ReceiverLease).

(** ** The store stays well-formed *)

Lemma wf_same c c' :
  wf_core c → names c' = names c → inodes c' = inodes c → partials c' = partials c → wf_core c'.
Proof. intros [Hk Hn Hb] H1' H2' H3'. split; rewrite ?H1', ?H2', ?H3'; done. Qed.

Lemma wf_files g ino c : wf_core c → wf_core (set_inodes (alter g ino) c).
Proof.
  intros [Hk Hn Hb]. split; cbn; [done| |done]. intros path i Hi. destruct (Hn path i Hi) as [f Hf].
  destruct (decide (i = ino)) as [->|Hne]; [rewrite lookup_alter_eq, Hf; done|rewrite lookup_alter_ne by done; by eexists].
Qed.

Lemma wf_open_file path c : wf_core c → wf_core (open_file path c).1.
Proof.
  intros [Hk Hn Hb]. unfold open_file. destruct (names c !! path) as [i|] eqn:E; [done|]. split; cbn; [done| |done].
  intros q i Hi. destruct (decide (i = next_inode c)) as [->|Hne]; [rewrite lookup_insert_eq; done|].
  rewrite lookup_insert_ne by done. destruct (decide (q = path)) as [->|Hq].
  - rewrite lookup_insert_eq in Hi. by injection Hi as <-.
  - rewrite lookup_insert_ne in Hi by done. by eapply Hn.
Qed.

Lemma alter_keys g k c :
  wf_core c → (∀ w, p_file_id (row (g w)) = p_file_id (row w)) →
  ∀ fid w, alter g k (partials c) !! fid = Some w → p_file_id (row w) = fid.
Proof.
  intros Hc Hg fid w. destruct (decide (fid = k)) as [->|Hne].
  - rewrite lookup_alter_eq. destruct (partials c !! k) as [w0|] eqn:E; [|done]. intros [= <-]. rewrite Hg. by apply (wc_keys _ Hc).
  - rewrite lookup_alter_ne by done. apply (wc_keys _ Hc).
Qed.

(** A change of rows that keeps their ids and stores only blobs. *)
Lemma wf_rows f c :
  wf_core c → (∀ fid w, f (partials c) !! fid = Some w → p_file_id (row w) = fid) →
  (∀ fid w bits, f (partials c) !! fid = Some w → row_verified w = Some bits → Forall is_u8 bits ∨
     ∃ fid' w', partials c !! fid' = Some w' ∧ row_verified w' = Some bits) →
  wf_core (set_partials f c).
Proof.
  intros [Hk Hn Hb] Hk' Hf. split; cbn; [done|done|]. intros fid w bits Hw Hv.
  destruct (Hf fid w bits Hw Hv) as [?|(fid' & w' & Hw' & Hv')]; [done|by eapply Hb].
Qed.

Lemma wf_put_locked p c : wf_core c → wf_core (partial_put_locked p c).
Proof.
  intros Hc. apply wf_rows; [done| |].
  { intros fid w. destruct (decide (fid = p_file_id p)) as [->|Hne].
    - rewrite lookup_insert_eq. intros [= <-]. by destruct (partials c !! p_file_id p).
    - rewrite lookup_insert_ne by done. apply (wc_keys _ Hc). }
  intros fid w bits. destruct (decide (fid = p_file_id p)) as [->|Hne].
  - rewrite lookup_insert_eq. destruct (partials c !! p_file_id p) as [old|] eqn:E; intros [= <-]; cbn; [|done].
    intros Hv. right. eauto.
  - rewrite lookup_insert_ne by done. eauto.
Qed.

Lemma wf_put_live db p lease c : wf_core c → wf_core (partial_put_live_tx db p lease c).1.
Proof.
  intros Hc. unfold partial_put_live_tx. destruct (ensure_live c lease); [|done]. destruct db; [|done]. by apply wf_put_locked.
Qed.

Lemma wf_put_verified db p v lease c : wf_core c → Forall is_u8 v → wf_core (partial_put_verified_live_tx db p v lease c).1.
Proof.
  intros Hc Hv. unfold partial_put_verified_live_tx. destruct (ensure_live c lease); [|done]. destruct (negb _); [done|].
  destruct db; [|done]. cbn [fst]. unfold partial_put_verified_locked. apply wf_rows; [by apply wf_put_locked|apply alter_keys; [by apply wf_put_locked|done]|].
  intros fid w bits. destruct (decide (fid = p_file_id p)) as [->|Hne].
  - rewrite lookup_alter_eq. destruct (partials _ !! _); [|done]. intros [= <-]. cbn. intros [= <-]. by left.
  - rewrite lookup_alter_ne by done. eauto.
Qed.

Lemma wf_progress db fid have state now v lease c :
  wf_core c → Forall is_u8 v → wf_core (partial_progress_verified_live_tx db fid have state now v lease c).1.
Proof.
  intros Hc Hv. unfold partial_progress_verified_live_tx. destruct (ensure_live c lease); [|done]. destruct (negb _); [done|].
  destruct (negb db); [done|]. destruct (partials c !! fid) as [w0|] eqn:E; [|done]. cbn [fst]. apply wf_rows; [done|by apply alter_keys|].
  intros fid' w bits. destruct (decide (fid' = fid)) as [->|Hne].
  - rewrite lookup_alter_eq, E. intros [= <-]. cbn. intros [= <-]. by left.
  - rewrite lookup_alter_ne by done. eauto.
Qed.

Lemma wf_defer fid until c : wf_core c → wf_core (defer_retry_tx fid until c).
Proof.
  intros Hc. apply wf_rows; [done|by apply alter_keys|]. intros fid' w bits. destruct (decide (fid' = fid)) as [->|Hne].
  - rewrite lookup_alter_eq. destruct (partials c !! fid) as [w0|] eqn:E; [|done]. intros [= <-]. cbn. eauto.
  - rewrite lookup_alter_ne by done. eauto.
Qed.

Lemma wf_remove path c : wf_core c → wf_core (remove_file path c).
Proof. intros [Hk Hn Hb]. split; cbn; [done| |done]. intros q i Hi. apply lookup_delete_Some in Hi as [_ Hi]. by eapply Hn. Qed.

Lemma wf_forget fid c : wf_core c → wf_core (forget_file dir fid c).
Proof.
  intros Hc. unfold forget_file.
  assert (wf_core (forget_partial dir fid (match receivers c !! fid with Some t => cancel t c | None => c end))) as Hp.
  { assert (wf_core (match receivers c !! fid with Some t => cancel t c | None => c end)) as Hc'
      by (destruct (receivers c !! fid); [by eapply wf_same|done]).
    apply wf_remove, wf_rows; [done| |]; [intros fid' w [_ Hw]%lookup_delete_Some; by apply (wc_keys _ Hc')|].
    intros fid' w bits [_ Hw]%lookup_delete_Some. eauto. }
  unfold forget_retention. destruct (retention _ !! fid); [|done]. by apply wf_remove, (wf_same _ _ Hp).
Qed.

(** ** Pulls *)

Lemma open_inner_wf fl c fid peer m size lease :
  wf_core c → wf_core (open_inner fl dir c fid peer m size lease).1.
Proof.
  intros Hc. unfold open_inner. destruct (open_prepare _ _ _ _ _ _ _) as [[path bits]|] eqn:Hp; [|done].
  assert (wf_bits (length (chunks m)) bits) as Hb.
  { unfold open_prepare in Hp. apply res_bind_ok in Hp as (? & _ & Hp). apply res_bind_ok in Hp as (? & _ & Hp).
    apply res_bind_ok in Hp as ([path' ex] & _ & Hp). apply res_bind_ok in Hp as (bits' & Hbits & [= -> ->]).
    by eapply saved_bits_wf. }
  unfold open_partial. destruct (ensure_live c lease); [|done]. destruct (open_io fl); [|done].
  pose proof (wf_open_file path c Hc) as Hc1. destruct (open_file path c) as [c1 ino]. cbn [fst] in Hc1.
  destruct (open_scan fl c1 lease m ino bits) as [[raw v]|] eqn:Hs; [|done].
  apply open_scan_ok in Hs as ((_ & Hu & _) & _); [|done]. unfold open_publish. set (p := mkPartial _ _ _ _ _ _ _ _ _).
  pose proof (wf_put_verified (db_write fl) p v lease c1 Hc1 Hu) as Hc2.
  by destruct (partial_put_verified_live_tx (db_write fl) p v lease c1) as [c2 [[]|]].
Qed.

Lemma commit_wf fl c rc i data lease : wf_core c → rc_ok c rc → wf_core (commit fl c rc i data lease).1.1.
Proof.
  intros Hc Hok. unfold commit. destruct (commit_check _ _ _ _ _) as [[]|]; [|done..].
  assert (wf_core (commit_write fl rc i data c).1) as Hc1 by (unfold commit_write; destruct (write_io fl); by apply wf_files).
  destruct (commit_write fl rc i data c) as [c1 [[]|]]; [|done]. unfold commit_publish. cbv zeta. cbn [fst] in Hc1.
  match goal with |- context [partial_progress_verified_live_tx ?a ?b ?h ?s ?n ?v lease c1] =>
    pose proof (wf_progress a b h s n v lease c1 Hc1) as Hc2;
    destruct (partial_progress_verified_live_tx a b h s n v lease c1) as [c2 [[]|]] end;
  apply Hc2, set_bit_u8; apply (ok_bits _ _ Hok).
Qed.

Lemma finish_wf fl c rc lease : wf_core c → rc_ok c rc → wf_core (finish fl c rc lease).1.1.
Proof.
  intros Hc Hok. unfold finish. destruct (res_bind _ _); [|done]. destruct (negb (len_io _)); [done|].
  set (c1 := set_inodes _ c). assert (wf_core c1) as Hc1 by by apply wf_files. destruct (negb (sync_io _)); [done|].
  match goal with |- context [partial_progress_verified_live_tx ?a ?b ?h ?s ?n ?v lease c1] =>
    pose proof (wf_progress a b h s n v lease c1 Hc1) as Hc2;
    destruct (partial_progress_verified_live_tx a b h s n v lease c1) as [c2 [[]|]] end;
  apply Hc2, (ok_bits _ _ Hok).
Qed.

(** The state a pull threads, whatever comes of it. *)
Definition threads (st : pulled) : Prop := wf_core st.1.1 ∧ rc_ok st.1.1 st.1.2.

Lemma pull_chunks_wf e fid me peer grant lease pending : ∀ r st st' o,
  threads st → pull_chunks e fid me peer grant lease pending r st = Some (st', o) → threads st'.
Proof.
  induction pending as [|i pending IH]; intros r [[c rc] k] st' o [Hc Hok]; cbn [pull_chunks]; [by intros [= <- <-]|].
  destruct (next_frame PhChunk r) as [reply|]; [|done]. cbn [mbind option_bind].
  destruct reply as [[f r1]|]; [|by intros [= <- <-]].
  destruct f as [|?|?|? ?|index data|?|?|? ?|? ? ?]; try by intros [= <- <-].
  destruct (negb _); [by intros [= <- <-]|]. destruct (revoked _ _ _ _ _ _); [by intros [= <- <-]|].
  pose proof (commit_wf (faults e k) c rc i data lease Hc Hok) as Hwf. pose proof (commit_ok (faults e k) c rc i data lease Hok) as Hco.
  destruct (commit (faults e k) c rc i data lease) as [[c1 rc1] [[]|]]; cbn [fst] in Hwf.
  - apply IH. split; [done|apply Hco].
  - intros [= <- <-]. destruct Hco as (-> & _ & ?). done.
Qed.

Lemma pull_turn_wf e p fid me peer grant lease j st st' o :
  threads st → pull_turn e p fid me peer grant lease j st = Some (st', o) → threads st'.
Proof.
  intros Ht. unfold pull_turn. destruct st as [[c rc] k]. destruct (open_v2_request e p peer j) as [opened|]; [|done].
  cbn [mbind option_bind]. destruct opened as [[limits r]|]; [|by intros [= <- <-]].
  destruct (match grant with Some _ => _ | None => _ end); [by intros [= <- <-]|].
  set (asked := missing rc _ _). destruct (validate_ranges _ _ _); [|by intros [= <- <-]].
  destruct (ask p j r _) as [r1|]; [|by intros [= <- <-]].
  destruct (pull_chunks e fid me peer grant lease (range_indices asked) r1 (c, rc, S k)) as [[st1 got]|] eqn:Hch; [|done].
  apply pull_chunks_wf in Hch; [|done]. cbn [mbind option_bind]. destruct got as [r2|]; [|by intros [= <- <-]].
  destruct (expect_complete _ _ r2); [|done]. cbn [mbind option_bind]. by intros [= <- <-].
Qed.

Lemma pull_loop_wf e p fid me peer grant lease fuel : ∀ j st st' o,
  threads st → pull_loop fuel e p fid me peer grant lease j st = Some (st', o) → threads st'.
Proof.
  induction fuel as [|fuel IH]; intros j st st' o Ht; cbn [pull_loop].
  - destruct (_ <? _); [done|by intros [= <- <-]].
  - destruct (_ <? _); [|by intros [= <- <-]].
    destruct (pull_turn e p fid me peer grant lease j st) as [[st1 [[]|]]|] eqn:Hturn; [| |done].
    + apply pull_turn_wf in Hturn; [|done]. cbn [mbind option_bind]. by apply IH.
    + apply pull_turn_wf in Hturn; [|done]. cbn [mbind option_bind]. by intros [= <- <-].
Qed.

Lemma pull_wf e p c fid me peer size lease grant c' o :
  wf_core c → byte_peer p → pull_v2_from e p dir c fid me peer size lease grant = Some (c', o) → wf_core c'.
Proof.
  intros Hc Hp. unfold pull_v2_from.
  destruct (fetch_manifest_ok e p fid me peer size grant Hp) as (d & -> & Hd). cbn [mbind option_bind].
  destruct d as [m|]; [|by intros [= <- _]]. destruct (Hd m eq_refl) as (_ & _ & [Ht _] & [Hcs _] & _).
  pose proof (open_inner_wf (faults e 0) c fid peer m size lease Hc) as Hc1.
  pose proof (open_inner_ok (faults e 0) dir c fid peer m size lease Hc Ht Hcs) as Hopen.
  destruct (open_inner (faults e 0) dir c fid peer m size lease) as [c1 [rc|]]; cbn [fst] in Hc1; [|by intros [= <- _]].
  destruct (pull_loop _ _ _ _ _ _ _ _ _ _) as [[[[c2 rc2] k2] [[]|]]|] eqn:Hloop; [| |done];
    apply pull_loop_wf in Hloop as [Hc2 Hok2]; try (split; [done|apply Hopen]); cbn [mbind option_bind];
    [|by intros [= <- _]].
  cbn [fst snd] in *. unfold pull_finish. destruct (revoked _ _ _ _ _ _); [by intros [= <- _]|].
  pose proof (finish_wf (faults e k2) c2 rc2 lease Hc2 Hok2) as Hc3.
  destruct (finish (faults e k2) c2 rc2 lease) as [[c3 rc3] [[]|]]; [|by intros [= <- _]].
  destruct (db_write _); intros [= <- _]; [by apply wf_defer|done].
Qed.

(** ** Settling *)

(** What a drive may meet: peers that send bytes, interruptions that leave a store. *)
Definition attempt_ok (a : Attempt) : Prop :=
  (∀ link, at_connect a = Ok link → byte_peer link) ∧ (∀ cut c, at_cut a = Some cut → wf_core c → wf_core (cut c)).

Lemma wf_set_state db now c fid peer state lease : wf_core c → wf_core (set_state dir db now c fid peer state lease).1.
Proof. apply wf_put_live. Qed.

Definition in_state c fid (state : Z) : Prop := ∃ w, partials c !! fid = Some w ∧ p_state (row w) = state.

Lemma set_state_ok db now c fid peer state lease c' :
  wf_core c → set_state dir db now c fid peer state lease = (c', Ok tt) → in_state c' fid state.
Proof.
  intros Hc. unfold set_state, partial_put_live_tx. destruct (ensure_live c lease); [|done]. destruct db; [|done].
  intros [= <-]. unfold partial_put_locked. cbn [p_file_id].
  set (p := default _ _). assert (p_file_id p = fid) as ->.
  { unfold p, partial_get_tx. destruct (partials c !! fid) as [w|] eqn:E; [|done]. cbn. by apply (wc_keys _ Hc). }
  eexists. cbn. rewrite lookup_insert_eq. split; [done|]. by destruct (partials c !! fid).
Qed.

Lemma attempt_total a c fid me peer size lease grant :
  wf_core c → attempt_ok a → ∃ c' o, attempt_pull dir a c fid me peer size lease grant = Some (c', o) ∧ wf_core c'.
Proof.
  intros Hc [Hl _]. unfold attempt_pull. destruct (at_connect a) as [link|f]; [|by do 2 eexists].
  destruct (pull_outcome (at_env a) link dir c fid me peer size lease grant (Hl link eq_refl) Hc) as (c' & o & Hp & _).
  do 2 eexists. split; [done|]. by eapply pull_wf; [| |apply Hp]; [|apply Hl].
Qed.

(** The row of a download after a drive with this result. *)
Definition settled (may_help : bool) c fid (o : result bool drive_error) : Prop :=
  match o with
  | Ok true => in_state c fid HELD
  | Ok false => True
  | Err DrRefused => in_state c fid FAILED
  | Err (DrFailure f) =>
      fk f ≠ KTransport ∧ fk f ≠ KCancelled ∧ (in_state c fid FAILED ∨ may_help = true ∧ fk f = KUnavailable)
  | Err (DrStore _) => True
  end.

Lemma in_state_defer c fid until state : in_state c fid state → in_state (defer_retry_tx fid until c) fid state.
Proof. intros (w & Hw & Hs). exists (set_retry until w). cbn. by rewrite lookup_alter_eq, Hw. Qed.

(** A state written on the way out, whether or not the write succeeds. *)
Lemma with_state_settles {A} db now c fid peer state lease (err : drive_error) :
  wf_core c →
  let '(c', o) := with_state (A := A) (set_state dir db now c fid peer state lease) (λ c, (c, Err err)) in
  wf_core c' ∧ (o = Err err ∧ in_state c' fid state ∨ ∃ e, o = Err (DrStore e)).
Proof.
  intros Hc. pose proof (wf_set_state db now c fid peer state lease Hc) as Hc1.
  pose proof (set_state_ok db now c fid peer state lease) as Hst.
  destruct (set_state _ _ _ _ _ _ _ _) as [c1 [[]|e]]; cbn in *; (split; [done|]); [left|right]; eauto.
Qed.

Lemma attempt_once_ok a may_help c fid me peer size lease :
  wf_core c → attempt_ok a →
  ∃ c' stopped, attempt_once dir a may_help c fid me peer size lease = Some (c', stopped) ∧ wf_core c' ∧
    match stopped with Some o => settled may_help c' fid o | None => in_state c' fid HELD end.
Proof.
  intros Hc Ha. unfold attempt_once. destruct (is_cancelled c _); [by do 2 eexists|].
  destruct (at_consent a).
  3: { pose proof (with_state_settles (A := bool) (at_db a) (at_now a) c fid peer FAILED lease DrRefused Hc) as Hw.
       destruct (with_state _ _) as [c1 o]. destruct Hw as [Hc1 Ho]. do 2 eexists. split; [done|]. split; [done|].
       by destruct Ho as [[-> ?]|[e ->]]. }
  all: pose proof (wf_set_state (at_db a) (at_now a) c fid peer CONNECTING lease Hc) as Hc1;
    destruct (set_state _ _ _ _ _ _ CONNECTING _) as [c1 [[]|e]]; [cbn [fst] in Hc1|by do 2 eexists].
  all: destruct (at_cut a) as [cut|] eqn:Hcut; [do 2 eexists; split; [done|]; split; [by eapply Ha|done]|].
  all: destruct (attempt_total a c1 fid me peer size lease None Hc1 Ha) as (c2 & o & -> & Hc2); cbn [mbind option_bind].
  all: destruct o as [[]|f]; [by do 2 eexists|].
  all: pose proof (with_state_settles (A := bool) (at_db_after a) (at_now a) c2 fid peer FAILED lease (DrFailure f) Hc2) as Hw.
  all: destruct (with_state _ _) as [c3 o3]; destruct Hw as [Hc3 Ho3].
  all: pose proof (wf_set_state (at_db_after a) (at_now a) c2 fid peer HELD lease Hc2) as Hc4.
  all: pose proof (set_state_ok (at_db_after a) (at_now a) c2 fid peer HELD lease) as Hst.
  all: destruct (set_state _ _ _ c2 _ _ HELD _) as [c4 [[]|e]]; cbn [fst] in Hc4.
  all: destruct (fk f) eqn:Hf; try (by do 2 eexists); try (do 2 eexists; split; [done|]; split; [done|by eapply Hst]).
  all: destruct (_ && _) eqn:Eh; [apply andb_true_iff in Eh as [? ?%bool_decide_eq_true_1]|].
  all: do 2 eexists; (split; [done|]); (split; [done|]).
  all: try discriminate; try (destruct Ho3 as [[-> ?]|[e3 ->]]; [|done]).
  all: unfold settled; rewrite Hf; split_and!; [done|done|by (left; assumption) || (by right)].
Qed.

Lemma drive_from_ok attempts may_help fid me peer size lease retries : ∀ k c,
  wf_core c → (∀ k, attempt_ok (attempts k)) →
  ∃ c' o, drive_from dir retries attempts k may_help c fid me peer size lease = Some (c', o) ∧ wf_core c' ∧
          settled may_help c' fid o.
Proof.
  induction retries as [|retries IH]; intros k c Hc Ha; cbn [drive_from];
    destruct (attempt_once_ok (attempts k) may_help c fid me peer size lease Hc (Ha k)) as (c1 & [o|] & -> & Hc1 & Ho);
    cbn [mbind option_bind]; try by do 2 eexists.
  - destruct (at_db_defer _); [|by do 2 eexists].
    do 2 eexists. split; [done|]. split; [by apply wf_defer|by apply in_state_defer].
  - destruct (at_woken _); [by do 2 eexists|by apply IH].
Qed.


(** ** The whole policy *)

Lemma try_helpers_ok providers attempts worlds fid me size lease : ∀ k c,
  wf_core c → (∀ k, attempt_ok (attempts k)) →
  ∃ c' o, try_helpers dir providers attempts worlds k c fid me size lease = Some (c', o) ∧ wf_core c'.
Proof.
  induction providers as [|[peer grant] providers IH]; intros k c Hc Ha; cbn [try_helpers]; [by do 2 eexists|].
  destruct (is_cancelled c _); [by do 2 eexists|]. destruct (permitted _ _ _ _ _ _); [|by apply IH].
  pose proof (wf_set_state (at_db (attempts k)) (at_now (attempts k)) c fid peer CONNECTING lease Hc) as Hc1.
  destruct (set_state _ _ _ _ _ _ CONNECTING _) as [c1 [[]|e]]; [cbn [fst] in Hc1|by do 2 eexists].
  destruct (at_cut (attempts k)) as [cut|] eqn:Hcut; [do 2 eexists; split; [done|by eapply Ha]|].
  destruct (attempt_total (attempts k) c1 fid me peer size lease (Some grant) Hc1 (Ha k)) as (c2 & o & -> & Hc2).
  cbn [mbind option_bind]. destruct o as [[]|f]; [by do 2 eexists|]. case_decide; [by do 2 eexists|].
  destruct (_ && _); [|by apply IH].
  pose proof (with_state_settles (A := bool) (at_db_after (attempts k)) (at_now (attempts k)) c2 fid peer FAILED lease (DrFailure f) Hc2) as Hw.
  destruct (with_state _ _) as [c3 o3]. destruct Hw as [Hc3 _]. by do 2 eexists.
Qed.

(** Writing the state and going on from there. *)
Lemma with_state_wf {A} db now c fid peer state lease (k : Core → Core * result A drive_error) :
  wf_core c → (∀ c1, wf_core c1 → wf_core (k c1).1) →
  wf_core (with_state (set_state dir db now c fid peer state lease) k).1.
Proof.
  intros Hc Hk. pose proof (wf_set_state db now c fid peer state lease Hc) as Hc1.
  destruct (set_state _ _ _ _ _ _ _ _) as [c1 [[]|e]]; cbn in *; [by apply Hk|done].
Qed.

Lemma original_then_helpers_ok e helpers c fid peer size lease :
  wf_core c → (∀ k, attempt_ok (pe_attempts e k)) → (∀ k, attempt_ok (pe_helper_attempts e k)) →
  ∃ c' o, original_then_helpers dir e helpers c fid peer size lease = Some (c', o) ∧ wf_core c'.
Proof.
  intros Hc Ha Hh. unfold original_then_helpers, drive_download_inner.
  destruct (drive_from_ok (pe_attempts e) (negb (bool_decide (helpers = []))) fid (pe_me e) peer size lease RETRIES 0 c Hc Ha)
    as (c1 & original & -> & Hc1 & _). cbn [mbind option_bind].
  set (needs := _ || _).
  assert (∃ c2 o2, (if needs then try_helpers dir (take MAX_PROVIDERS helpers) (pe_helper_attempts e) (pe_worlds e) 0 c1 fid
      (pe_me e) size lease else Some (c1, Ok false)) = Some (c2, o2) ∧ wf_core c2) as (c2 & o2 & -> & Hc2).
  { destruct needs; [by apply try_helpers_ok|by do 2 eexists]. }
  cbn [mbind option_bind]. destruct o2 as [[]|err]; [by do 2 eexists| |by do 2 eexists].
  destruct (needs && _).
  - match goal with |- context [with_state ?s ?k] => destruct (with_state s k) as [c3 o3] eqn:E end.
    do 2 eexists. split; [done|]. change c3 with (c3, o3).1. rewrite <- E. apply with_state_wf; [done|].
    intros c4 Hc4. destruct (pe_db_defer e); [by apply wf_defer|done].
  - destruct needs.
    + match goal with |- context [with_state ?s ?k] => destruct (with_state s k) as [c3 o3] eqn:E end.
      do 2 eexists. split; [done|]. change c3 with (c3, o3).1. rewrite <- E. apply with_state_wf; [done|].
      intros c4 Hc4. by destruct original.
    + destruct original; by do 2 eexists.
Qed.

Lemma claim_ready_wf c fid : wf_core c → wf_core (claim_ready_retry_tx c fid).1.
Proof.
  intros Hc. unfold claim_ready_retry_tx. destruct (partials c !! fid) as [w|] eqn:E; [|done]. destruct (_ && _); [|done].
  cbn [fst]. apply wf_rows; [done| |]; intros k w'; (destruct (decide (k = fid)) as [->|Hne];
    [rewrite lookup_insert_eq|rewrite lookup_insert_ne by done]); [intros [= <-]; exact (wc_keys _ Hc fid w E)|apply (wc_keys _ Hc)| |eauto].
  intros bits [= <-] Hv. right. by exists fid, w.
Qed.

Lemma claim_wake_wf c fid now backoff : wf_core c → wf_core (claim_wake_tx c fid now backoff).1.
Proof.
  intros Hc. unfold claim_wake_tx. destruct (partials c !! fid) as [w|] eqn:E; [|done]. destruct (_ && _); [|done].
  cbn [fst]. set (c1 := set_partials <[fid := set_wake now w]> c).
  assert (wf_core c1) as Hc1.
  { apply wf_rows; [done| |]; intros k w'; (destruct (decide (k = fid)) as [->|Hne];
      [rewrite lookup_insert_eq|rewrite lookup_insert_ne by done]); [intros [= <-]; exact (wc_keys _ Hc fid w E)|apply (wc_keys _ Hc)| |eauto].
    intros bits [= <-] Hv. right. by exists fid, w. }
  apply wf_rows; [done|intros k w'|intros k w' bits]; rewrite lookup_fmap; (destruct (partials c1 !! k) as [w0|] eqn:E0; [|done]);
    cbn; intros [= <-].
  - destruct (_ && _); exact (wc_keys _ Hc1 k w0 E0).
  - intros Hv. right. exists k, w0. split; [done|]. by destruct (_ && _).
Qed.

End download.
