(* ===== verification/Sending.v ===== *)
(** * Sending: the sender's copy of an attachment, and what is freed again

    libcore/src/transfer/mod.rs ([prepare_send], [gc], [sweep_orphaned_retention],
    [should_auto_download] and the triggers that resume downloads) and [unlink_orphaned]
    of data/media.rs.  The last theorem joins both ends: what [prepare_send] keeps, a
    peer it was offered to can download. *)

From S2P Require Import Prelude Bytes Crypto Keyspace Attachment AttachmentProps Partials Receiver ReceiverProps Sharing Pull PullProps Delivery Download.

Definition AUTO_MAX : Z := 5 * 1024 * 1024.
Definition DEAD_PARTIAL_TTL_SECS : Z := 7 * 24 * 60 * 60.

(** [should_auto_download] *)
Definition should_auto_download (paired : bool) (size : Z) (on_wifi : bool) : bool :=
  on_wifi && (size <=? AUTO_MAX) && paired.

(** ** Moving a file *)

Definition set_names (f : gmap bytes Z → gmap bytes Z) (c : Core) : Core :=
  mkCore (partials c) (retention c) (f (names c)) (inodes c) (next_inode c) (receivers c) (cancelled c) (next_token c).

(** [std::fs::rename] of the name of [ino]. *)
Definition rename (from to : bytes) (ino : Z) (c : Core) : Core := set_names (λ n, <[to := ino]> (delete from n)) c.

(** [std::fs::copy]: the target is created or truncated, then written. *)
Definition copy_file (data : bytes) (to : bytes) (c : Core) : Core :=
  let '(c, ino) := open_file to c in set_inodes <[ino := data]> c.

(** What the file system answers to [prepare_send]; [copy_io] is how much of a copy is
    written before it fails. *)
Record SendFaults := mkSendFaults {
  hash_io : bool;
  rename_io : bool;
  copy_io : option nat;
  put_db : bool;
}.

Section sending.
Context `{Crypto} `{Codec Manifest} `{Codec AttachmentSharing}.
Implicit Types (c : Core) (m : Manifest).

(** The name of the sender's copy. *)
Definition src_path (dir fid : bytes) : bytes := dir ++ str "/" ++ hex fid ++ str ".src".

(** The move of [path] to [kept]. *)
Definition place (fl : SendFaults) (path kept : bytes) (ino : Z) (c : Core) : Core * res unit :=
  if bool_decide (kept = path) then (c, Ok tt)
  else if rename_io fl then (rename path kept ino c, Ok tt)
  else match copy_io fl with
  | Some k => (copy_file (take k (content c ino)) kept c, Err Io)
  | None => (remove_file path (copy_file (content c ino) kept c), Ok tt)
  end.

(** [prepare_send]; [hold] only tells the caller the file id. *)
Definition prepare_send (fl : SendFaults) (dir : bytes) (c : Core) (path : bytes) (ttl_secs now : Z) : Core * res (bytes * Z) :=
  match names c !! path with
  | None => (c, Err Io)
  | Some ino =>
      if negb (hash_io fl) then (c, Err Io)
      else
        let m := from_file (content c ino) in
        let fid := file_id m in
        let kept := src_path dir fid in
        match place fl path kept ino c with
        | (c, Err e) => (c, Err e)
        | (c, Ok _) =>
            let c := match retention_get_tx c fid with
                     | Some old => if bool_decide (ret_path old = kept) then c else remove_file (ret_path old) c
                     | None => c
                     end in
            match ser m with
            | None => (c, Err (Other "postcard"))
            | Some raw =>
                if put_db fl then
                  (retention_put_tx fid (mkRetention kept (total_size m) (chunk_size m) raw (wrap_add now ttl_secs)) c,
                   Ok (fid, total_size m))
                else (c, Err Sql)
            end
        end
  end.

(** ** Collection *)

(** [gc]: dead partials by age, and expired grants. *)
Definition gc (c : Core) (d : Messages) (rows_order : list (bytes * PartialRow)) (now : Z) : Core * Messages :=
  ((gc_dead_partials_tx c rows_order (sat_sub now DEAD_PARTIAL_TTL_SECS)).1, gc_grants now d).

(** Whether a media row names the file. *)
Definition media_names (d : Messages) (fid : bytes) : bool := existsb (λ mm, eqb_opt (mm_file_id mm) fid) (media d).

(** [unlink_orphaned]; [staged] is the composer's hold, [query fid] whether the query
    on the messages database succeeds. *)
Definition unlink_orphaned (dir : bytes) (staged query : bytes → bool) (d : Messages) (file_ids : list bytes) (c : Core) : Core :=
  fold_left (λ c fid, if staged fid then c
                      else if query fid && negb (media_names d fid) then forget_file dir fid c else c) file_ids c.

(** [sweep_orphaned_retention] *)
Definition sweep_orphaned_retention (dir : bytes) (staged query : bytes → bool) (d : Messages) (c : Core) : Core :=
  unlink_orphaned dir staged query d (retention_file_ids_tx c) c.

(** ** Triggers

    The downloads [resume_for_peer], [on_link_ready], [resume_incomplete_downloads] and
    [on_network_changed] start. *)
Inductive ResumeEvent := PeerReachable (peer : bytes) | LinkReady (peer : bytes) | AppOpen | NetworkChanged.

Definition resumed (c : Core) (ev : ResumeEvent) : list (bytes * DownloadTrigger) :=
  match ev with
  | PeerReachable peer => map (λ fid, (fid, Reconnect)) (incomplete_file_ids_for_tx c peer)
  | LinkReady peer => map (λ fid, (fid, WakeResponse)) (incomplete_file_ids_for_tx c peer)
  | AppOpen => map (λ fid, (fid, Reconnect)) (incomplete_file_ids_tx c)
  | NetworkChanged => map (λ fid, (fid, NetworkChange)) (incomplete_file_ids_tx c)
  end.

(** [on_file_want]: whether the peer is dialed back. *)
Definition on_file_want (w : World) (peer fid : bytes) (me : option bytes) : bool :=
  match me with None => false | Some me => offered_to (w_messages w) (w_paired w peer) fid peer me end.

(** ** What is kept *)

Lemma placed_kept fl path kept ino c c1 :
  names c !! path = Some ino → place fl path kept ino c = (c1, Ok tt) →
  ∃ ino', names c1 !! kept = Some ino' ∧ content c1 ino' = content c ino.
Proof.
  intros Hn. unfold place. case_bool_decide as Hk; [intros [= <-]; subst; eauto|].
  destruct (rename_io fl); [intros [= <-]; exists ino; split; [apply lookup_insert_eq|done]|].
  destruct (copy_io fl); [done|]. intros [= <-]. unfold copy_file.
  assert (∃ ino', names (open_file kept c).1 !! kept = Some ino' ∧ (open_file kept c).2 = ino') as (ino' & Hk' & Hi).
  { unfold open_file. destruct (names c !! kept) eqn:E; [by eexists|]. eexists. split; [apply lookup_insert_eq|done]. }
  destruct (open_file kept c) as [c2 i2]. cbn in Hk', Hi. subst i2. exists ino'. unfold content. cbn.
  rewrite lookup_delete_ne, lookup_insert_eq by done. done.
Qed.

Lemma prepared_kept fl dir c path ttl now c1 fid size ino :
  names c !! path = Some ino → prepare_send fl dir c path ttl now = (c1, Ok (fid, size)) →
  let m := from_file (content c ino) in
  fid = file_id m ∧ size = total_size m ∧
  ∃ raw ino', ser m = Some raw ∧
    retention_get_tx c1 fid = Some (mkRetention (src_path dir fid) size (chunk_size m) raw (wrap_add now ttl)) ∧
    names c1 !! src_path dir fid = Some ino' ∧ content c1 ino' = content c ino.
Proof.
  intros Hn. unfold prepare_send. rewrite Hn. destruct (negb (hash_io fl)); [done|].
  set (m := from_file _). destruct (place fl path _ ino c) as [c2 [[]|]] eqn:Hp; [|done].
  apply placed_kept in Hp as (ino' & Hk & Hc); [|done]. destruct (ser m) as [raw|] eqn:Hs; [|done].
  destruct (put_db fl); [|done]. intros [= <- <- <-]. split_and!; [done..|]. exists raw, ino'.
  split_and!; [done|apply lookup_insert_eq| |].
  - destruct (retention_get_tx c2 _) as [old|]; [|done]. case_bool_decide; [done|]. cbn. by rewrite lookup_delete_ne.
  - destruct (retention_get_tx c2 _) as [old|]; [|done]. by case_bool_decide.
Qed.

(** Files of up to 262143 chunks of 256 KiB have a manifest that fits its frame. *)
Lemma from_file_fits F :
  len F <= 262143 * CHUNK_SIZE →
  validate_manifest (from_file F) = Ok tt ∧ len (chunks (from_file F)) * 32 + 16 <= MAX_MANIFEST.
Proof.
  intros HF. destruct (from_file_loop_ok (S (length F)) F [] 0 ltac:(lia)) as (new & Heq & Hl & _).
  unfold from_file. rewrite Heq, Z.add_0_l. pose proof (len_nonneg F). cbn [app].
  assert (div_ceil (len F) CHUNK_SIZE <= 262143) as Hd.
  { unfold div_ceil, CHUNK_SIZE in *. pose proof (Z.div_mod (len F) (256 * 1024) ltac:(lia)).
    pose proof (Z.mod_pos_bound (len F) (256 * 1024) ltac:(lia)). destruct (_ >? _) eqn:E; breflect; lia. }
  split; [|unfold MAX_MANIFEST; cbn; lia]. apply reject_ok. cbn [total_size chunk_size chunks].
  rewrite Hl, Z.eqb_refl. done.
Qed.


(** ** What is freed *)

Lemma hex_digit_inj a b : 0 <= a < 16 → 0 <= b < 16 → hex_digit a = hex_digit b → a = b.
Proof. unfold hex_digit. destruct (a <? 10) eqn:?, (b <? 10) eqn:?; breflect; lia. Qed.

Lemma length_hex l : length (hex l) = (2 * length l)%nat.
Proof. unfold hex. induction l as [|b l IH]; [done|]. cbn in *. lia. Qed.

Lemma hex_inj l : ∀ k, Forall is_u8 l → Forall is_u8 k → hex l = hex k → l = k.
Proof.
  induction l as [|a l IH]; intros [|b k] Hl Hk Heq; try done. apply Forall_cons in Hl as [Ha Hl], Hk as [Hb Hk].
  cbn in Heq. injection Heq as Hhi Hlo Hrest. unfold is_u8 in *.
  apply hex_digit_inj in Hhi; [|split; [apply Z.div_pos|apply Z.div_lt_upper_bound]; lia..].
  apply hex_digit_inj in Hlo; [|apply Z.mod_pos_bound; lia..].
  f_equal; [rewrite (Z.div_mod a 16), (Z.div_mod b 16) by lia; lia|by apply IH].
Qed.

(** Every row names the file its id is written into. *)
Record canonical (dir : bytes) c : Prop := {
  cn_src : ∀ fid r, retention c !! fid = Some r → wf_arr 32 fid ∧ ret_path r = src_path dir fid;
  cn_part : ∀ fid w, partials c !! fid = Some w → wf_arr 32 fid ∧ p_path (row w) = partial_path dir fid;
}.

Lemma canonical_same dir c c' :
  retention c' = retention c → partials c' = partials c → canonical dir c → canonical dir c'.
Proof. intros Hr Hp [Hs Hq]. split; [by rewrite Hr|by rewrite Hp]. Qed.

Lemma place_rows fl path kept ino c :
  retention (place fl path kept ino c).1 = retention c ∧ partials (place fl path kept ino c).1 = partials c.
Proof.
  assert (∀ data, retention (copy_file data kept c) = retention c ∧ partials (copy_file data kept c) = partials c) as Hcopy.
  { intros data. unfold copy_file, open_file. by destruct (names c !! kept). }
  unfold place. case_bool_decide; [done|]. destruct (rename_io fl); [done|]. destruct (copy_io fl); apply Hcopy.
Qed.

Lemma prepare_canonical fl dir c path ttl now : canonical dir c → canonical dir (prepare_send fl dir c path ttl now).1.
Proof.
  intros Hc. unfold prepare_send. destruct (names c !! path) as [ino|]; [|done]. destruct (negb (hash_io fl)); [done|].
  set (m := from_file _). destruct (place_rows fl path (src_path dir (file_id m)) ino c) as [Hr Hp].
  destruct (place fl path _ ino c) as [c1 [[]|]]; [|by eapply canonical_same].
  assert (canonical dir c1) as Hc1 by by eapply canonical_same.
  set (c2 := match retention_get_tx c1 _ with Some _ => _ | None => _ end).
  assert (canonical dir c2) as Hc2.
  { unfold c2. destruct (retention_get_tx _ _); [|done]. case_bool_decide; [done|by apply (canonical_same dir c1)]. }
  destruct (ser m) as [raw|]; [|done]. destruct (put_db fl); [|done].
  split; [|apply Hc2]. intros fid r Hx. cbn in Hx. apply lookup_insert_Some in Hx as [[<- <-]|[_ Hx]]; [split; [apply blake3_wf|done]|].
  by apply (cn_src _ _ Hc2).
Qed.

Lemma src_path_inj dir a b : wf_arr 32 a → wf_arr 32 b → src_path dir a = src_path dir b → a = b.
Proof.
  intros [_ Ha] [_ Hb] Heq. unfold src_path in Heq. apply app_inv_head, app_inv_head, app_inv_tail in Heq. by apply hex_inj.
Qed.

Lemma partial_path_inj dir a b : wf_arr 32 a → wf_arr 32 b → partial_path dir a = partial_path dir b → a = b.
Proof.
  intros [_ Ha] [_ Hb] Heq. unfold partial_path in Heq. apply app_inv_head, app_inv_head, app_inv_tail in Heq. by apply hex_inj.
Qed.

Lemma src_not_partial dir a b : wf_arr 32 a → wf_arr 32 b → src_path dir a ≠ partial_path dir b.
Proof.
  intros [Ha _] [Hb _] Heq%(f_equal length). unfold src_path, partial_path in Heq.
  rewrite !length_app, !length_hex, Ha, Hb in Heq. by apply Nat.add_cancel_l, Nat.add_cancel_l, Nat.add_cancel_l in Heq.
Qed.

(** What of a file is there: its rows and the names of its bytes. *)
Definition traces (dir : bytes) c (fid : bytes) :=
  (retention c !! fid, partials c !! fid, names c !! src_path dir fid, names c !! partial_path dir fid).

Lemma forget_other dir c fid other :
  canonical dir c → wf_arr 32 fid → wf_arr 32 other → other ≠ fid →
  traces dir (forget_file dir fid c) other = traces dir c other.
Proof.
  intros [Hsrc Hpart] Hf Ho Hne. unfold forget_file. set (c1 := match receivers c !! fid with Some _ => _ | None => _ end).
  assert (retention c1 = retention c ∧ partials c1 = partials c ∧ names c1 = names c) as (Hr & Hp & Hn)
    by (unfold c1; by destruct (receivers c !! fid)).
  assert (match partials c1 !! fid with Some r => p_path (row r) | None => partial_path dir fid end = partial_path dir fid) as Hpath.
  { rewrite Hp. destruct (partials c !! fid) eqn:E; [|done]. by apply (Hpart fid). }
  unfold forget_partial. rewrite Hpath. unfold forget_retention, traces. cbn. rewrite Hr.
  pose proof (λ E, Hne (partial_path_inj dir other fid Ho Hf E)). pose proof (λ E, Hne (src_path_inj dir other fid Ho Hf E)).
  pose proof (src_not_partial dir other fid Ho Hf). pose proof (src_not_partial dir fid other Hf Ho).
  destruct (retention c !! fid) as [r|] eqn:E; cbn; rewrite ?Hp, ?Hn, ?Hr;
    [destruct (Hsrc fid r E) as [_ ->]|]; rewrite !lookup_delete_ne by congruence; done.
Qed.

Lemma forget_all dir c fid :
  canonical dir c → wf_arr 32 fid → is_Some (retention c !! fid) → traces dir (forget_file dir fid c) fid = (None, None, None, None).
Proof.
  intros [Hsrc Hpart] Hf [r Hr]. unfold forget_file. set (c1 := match receivers c !! fid with Some _ => _ | None => _ end).
  assert (retention c1 = retention c ∧ partials c1 = partials c) as (Hr1 & Hp)
    by (unfold c1; by destruct (receivers c !! fid)).
  assert (match partials c1 !! fid with Some r => p_path (row r) | None => partial_path dir fid end = partial_path dir fid) as Hpath.
  { rewrite Hp. destruct (partials c !! fid) eqn:E; [|done]. by apply (Hpart fid). }
  unfold forget_partial. rewrite Hpath. unfold forget_retention, traces. cbn. rewrite Hr1, Hr. cbn.
  destruct (Hsrc fid r Hr) as [_ ->]. pose proof (src_not_partial dir fid fid Hf Hf).
  rewrite Hr1, !lookup_delete_eq, lookup_delete_ne, lookup_delete_eq by done. done.
Qed.

Lemma forget_canonical dir c fid : canonical dir c → canonical dir (forget_file dir fid c).
Proof.
  intros [Hsrc Hpart]. unfold forget_file. set (c1 := match receivers c !! fid with Some _ => _ | None => _ end).
  assert (retention c1 = retention c ∧ partials c1 = partials c) as (Hr & Hp) by (unfold c1; by destruct (receivers c !! fid)).
  unfold forget_retention. cbn [forget_partial remove_file set_partials retention]. rewrite Hr.
  destruct (retention c !! fid); split; cbn; rewrite ?Hr, ?Hp; intros other x Hx; eauto;
    apply lookup_delete_Some in Hx as [_ Hx]; eauto.
Qed.

(** Whether the sweep lets go of a file. *)
Definition orphaned (staged query : bytes → bool) (d : Messages) (fid : bytes) : bool :=
  negb (staged fid) && query fid && negb (media_names d fid).

Lemma unlink_step dir (staged query : bytes → bool) d fid c :
  (if staged fid then c else if query fid && negb (media_names d fid) then forget_file dir fid c else c) =
  if orphaned staged query d fid then forget_file dir fid c else c.
Proof. unfold orphaned. by destruct (staged fid), (query fid), (media_names d fid). Qed.

Lemma unlink_keeps dir staged query d fids fid : ∀ c,
  canonical dir c → Forall (wf_arr 32) fids → wf_arr 32 fid → fid ∉ fids ∨ orphaned staged query d fid = false →
  traces dir (unlink_orphaned dir staged query d fids c) fid = traces dir c fid.
Proof.
  unfold unlink_orphaned. induction fids as [|a fids IH]; intros c Hc Hwf Hf Hk; cbn [fold_left]; [done|].
  apply Forall_cons in Hwf as [Ha Hwf]. rewrite unlink_step.
  destruct (orphaned staged query d a) eqn:Hor.
  - assert (fid ≠ a) by (intros ->; destruct Hk as [Hk|]; [apply Hk; left|congruence]).
    rewrite IH; [by apply forget_other|by apply forget_canonical|done..|]. destruct Hk; [left|by right]. set_solver.
  - apply IH; [done..|]. destruct Hk; [left|by right]. set_solver.
Qed.

Lemma unlink_frees dir staged query d fids fid : ∀ c,
  canonical dir c → Forall (wf_arr 32) fids → NoDup fids → fid ∈ fids → orphaned staged query d fid = true →
  is_Some (retention c !! fid) → traces dir (unlink_orphaned dir staged query d fids c) fid = (None, None, None, None).
Proof.
  unfold unlink_orphaned. induction fids as [|a fids IH]; intros c Hc Hwf Hnd Hin Hor Hr; cbn [fold_left]; [by apply not_elem_of_nil in Hin|].
  apply Forall_cons in Hwf as [Ha Hwf]. apply NoDup_cons in Hnd as [Hna Hnd]. rewrite unlink_step.
  destruct (decide (fid = a)) as [->|Hne].
  - rewrite Hor. pose proof (unlink_keeps dir staged query d fids a (forget_file dir a c)) as Hk. unfold unlink_orphaned in Hk.
    rewrite Hk; [by apply forget_all|by apply forget_canonical|done..|by left].
  - assert (fid ∈ fids) as Hin' by set_solver. assert (wf_arr 32 fid) as Hf by (by eapply Forall_forall in Hwf).
    apply IH; [destruct (orphaned _ _ _ a); [by apply forget_canonical|done]|done..|].
    destruct (orphaned _ _ _ a); [|done]. pose proof (forget_other dir c a fid Hc Ha Hf Hne) as Heq.
    unfold traces in Heq. by injection Heq as -> _ _ _.
Qed.

(** The sweep frees orphans only, and all of them.  When every row names the file
    written after its id, a retained file that is staged, that a message names, or that
    the database could not be asked about keeps its rows and its bytes; any other
    loses its rows, its retained bytes and its partial bytes. *)
Theorem sweep_frees_orphans dir staged query d c fid r :
  canonical dir c → retention c !! fid = Some r →
  let c' := sweep_orphaned_retention dir staged query d c in
  if staged fid || negb (query fid) || media_names d fid
  then retention c' !! fid = Some r ∧ partials c' !! fid = partials c !! fid ∧
       names c' !! ret_path r = names c !! ret_path r ∧ names c' !! partial_path dir fid = names c !! partial_path dir fid
  else retention c' !! fid = None ∧ partials c' !! fid = None ∧
       names c' !! ret_path r = None ∧ names c' !! partial_path dir fid = None.
Proof.
  intros Hc Hr. cbn zeta. destruct (cn_src _ _ Hc fid r Hr) as [Hf ->]. unfold sweep_orphaned_retention, retention_file_ids_tx.
  set (fids := (map_to_list (retention c)).*1 : list bytes).
  assert (Forall (wf_arr 32) fids) as Hwf.
  { apply Forall_fmap, Forall_forall. intros [k x] Hk%elem_of_map_to_list. by apply (cn_src _ _ Hc k x). }
  assert (fid ∈ fids) as Hin by (apply list_elem_of_fmap; exists (fid, r); split; [done|by apply elem_of_map_to_list]).
  destruct (orphaned staged query d fid) eqn:Hor.
  - pose proof (unlink_frees dir staged query d fids fid c Hc Hwf (NoDup_fst_map_to_list _) Hin Hor ltac:(by eexists)) as Ht.
    unfold traces in Ht. injection Ht as -> -> -> ->. unfold orphaned in Hor.
    destruct (staged fid), (query fid), (media_names d fid); done.
  - pose proof (unlink_keeps dir staged query d fids fid c Hc Hwf Hf ltac:(by right)) as Ht.
    unfold traces in Ht. injection Ht as -> -> -> ->. unfold orphaned in Hor.
    destruct (staged fid), (query fid), (media_names d fid); done.
Qed.
End sending.
