(* ===== verification/TransferExamples.v ===== *)
(** * TransferExamples: an attachment, its sender and its receiver, to evaluate with

    Concrete codecs for the manifest and the sharing offer, a sender that holds a small
    file, a client that downloads it, and the transfer theorems applied to them. *)

From S2P Require Import Prelude Bytes Crypto Keyspace Attachment AttachmentProps Partials Receiver ReceiverProps Resume PartialsProps Sharing SharingProps Pull PullProps Delivery Download DownloadProps Sending.

Module ToyTransfer.
#[local] Existing Instance Toy.crypto.

(** ** Codecs *)

Definition raw_manifest (m : Manifest) : option bytes :=
  if decide (Forall (wf_arr 32) (chunks m)) then Some (total_size m :: chunk_size m :: mjoin (chunks m)) else None.

Definition parse_manifest (b : bytes) : option Manifest :=
  match b with
  | total :: size :: rest =>
      let hashes := chunks_exact 32 rest in
      if decide (Forall (wf_arr 32) hashes) then Some (mkManifest total size hashes) else None
  | _ => None
  end.

Lemma parse_raw_manifest m b : raw_manifest m = Some b → parse_manifest b = Some m.
Proof.
  unfold raw_manifest. case_decide as Hm; [|done]. intros [= <-]. cbn [parse_manifest].
  rewrite chunks_exact_join by (lia || by apply wf_arr_lengths). rewrite decide_True by done. by destruct m.
Qed.

#[export] Instance manifest_codec : Codec Manifest :=
  {| ser := raw_manifest; deser := parse_manifest; deser_ser := parse_raw_manifest |}.

Lemma parsed_hashes raw m : parse_manifest raw = Some m → Forall (wf_arr 32) (chunks m).
Proof. destruct raw as [|t [|s rest]]; cbn; [done..|]. case_decide; [|done]. by intros [= <-]. Qed.

Fixpoint raw_list (l : list bytes) : bytes := match l with [] => [] | x :: l => ToyCodec.enc x ++ raw_list l end.
Fixpoint parse_list (n : nat) (b : bytes) : option (list bytes) :=
  match n with
  | O => match b with [] => Some [] | _ => None end
  | S n => '(x, b) ← ToyCodec.dec b; l ← parse_list n b; Some (x :: l)
  end.

Lemma parse_raw_list l : parse_list (length l) (raw_list l) = Some l.
Proof.
  induction l as [|x l IH]; [done|]. cbn [raw_list parse_list length]. rewrite ToyCodec.dec_enc. cbn [mbind option_bind].
  by rewrite IH.
Qed.

Definition raw_sharing (o : AttachmentSharing) : bytes :=
  as_size o :: as_expires_at o :: Z.of_nat (length (as_recipients o))
  :: ToyCodec.enc (as_message_id o) ++ ToyCodec.enc (as_file_id o) ++ raw_list (as_recipients o).

Definition parse_sharing (b : bytes) : option AttachmentSharing :=
  match b with
  | size :: expires :: n :: b =>
      '(msg, b) ← ToyCodec.dec b; '(fid, b) ← ToyCodec.dec b; l ← parse_list (Z.to_nat n) b;
      Some (mkSharing msg fid size expires l)
  | _ => None
  end.

Lemma parse_raw_sharing o : parse_sharing (raw_sharing o) = Some o.
Proof.
  unfold parse_sharing, raw_sharing. do 2 (rewrite ToyCodec.dec_enc; cbn [mbind option_bind]).
  rewrite Nat2Z.id, parse_raw_list. by destruct o.
Qed.

#[export] Instance sharing_codec : Codec AttachmentSharing :=
  {| ser := λ o, Some (raw_sharing o); deser := parse_sharing; deser_ser := ToyCodec.toy_law raw_sharing parse_sharing parse_raw_sharing |}.

(** ** A sender *)

Definition secret_of (n : Z) : bytes := replicate 32 n.
Definition alice : bytes := verifying_key (secret_of 1).
Definition bob : bytes := verifying_key (secret_of 2).
Definition tls_key : bytes := replicate 32 9.

(** A file of five bytes in three chunks. *)
Definition file : bytes := [1; 2; 3; 4; 5].
Definition manifest : Manifest := mkManifest 5 2 [blake3 [1; 2]; blake3 [3; 4]; blake3 [5]].

(** Alice sent Bob the file of manifest [m] in their conversation and retains it. *)
Definition chat (fid : bytes) (size : Z) : Messages :=
  mkMessages [mkConversation [1] KIND_DIRECT None] [mkMember [1] bob true]
    [mkMessage 1 [1] None [4] true false false] [mkMedia [1] [4] (Some fid) size KIND_ATTACHMENT] [] [] [].

Definition holds (m : Manifest) (f : bytes) : Core :=
  mkCore ∅ {[file_id m := mkRetention [70] (total_size m) (chunk_size m) (default [] (ser m)) 1000]}
    {[ [70] := 0 ]} {[0 := f]} 1 ∅ ∅ 0.

Definition world (m : Manifest) (f : bytes) : World :=
  mkWorld (chat (file_id m) (total_size m)) (λ _, true) 100 (mkPolicy false false 0) (holds m f).

(** ** Her link with Bob *)

Definition auth : Auth := mkAuth alice tls_key (sign (secret_of 1) (ipk_binding_message tls_key)).
Definition auth_bytes : bytes := au_ipk auth ++ au_tls_pub auth ++ au_sig auth.
Definition parse_auth (b : bytes) : option Auth := Some (mkAuth (take 32 b) (take 32 (drop 32 b)) (drop 64 b)).

Definition link_to (w : World) : Peer :=
  mkPeer (λ _, mkStream (le_bytes 4 (len auth_bytes) ++ auth_bytes ++ wires [FHello Hello_local]) Fin)
    (λ _ request, mkStream (wires (serve_request (λ _, w) true false alice bob max_limits request)) Fin)
    (λ _, Ok tt) (Some tls_key).
Definition link (m : Manifest) (f : bytes) : Peer := link_to (world m f).

Definition env : PullEnv :=
  mkPullEnv (λ _, mkWorld (mkMessages [] [] [] [] [] [] []) (λ _, true) 100 (mkPolicy false false 0) (mkCore ∅ ∅ ∅ ∅ 0 ∅ ∅ 0))
    (λ _, calm 100) parse_auth.

Definition empty_core : Core := mkCore ∅ ∅ ∅ ∅ 0 ∅ ∅ 1.
Definition dir : bytes := str "/transfers".
Definition lease (m : Manifest) : ReceiverLease := mkLease (file_id m) 1.

(** Bob's store once he holds the lease of the file. *)
Definition leased_core : Core := (receiver_lease empty_core (file_id manifest)).1.

Lemma empty_core_wf : wf_core empty_core.
Proof. split; intros *; cbn; by rewrite lookup_empty. Qed.

Lemma link_to_bytes w : (∀ ino, Forall is_u8 (content (w_core w) ino)) → byte_peer (link_to w).
Proof.
  intros Hf. split; intros j; unfold byte_stream; [by_eval|]. intros request. apply served_bytes; [apply parsed_hashes|]. done.
Qed.

Lemma one_file_bytes c f : inodes c = {[0 := f]} → Forall is_u8 f → ∀ ino, Forall is_u8 (content c ino).
Proof.
  intros Hc Hf ino. unfold content. rewrite Hc. destruct (decide (ino = 0)) as [->|Hne].
  - by rewrite lookup_singleton_eq.
  - by rewrite lookup_singleton_ne.
Qed.

Lemma link_bytes m f : Forall is_u8 f → byte_peer (link m f).
Proof. intros Hf. apply link_to_bytes. by apply (one_file_bytes _ f). Qed.

Lemma linked w : connected w bob alice env (link_to w) false (λ _, 100).
Proof. split; [done| |done|done]. intros j. vm_compute. reflexivity. Qed.

Lemma retained m f :
  retention_get_tx (w_core (world m f)) (file_id m) =
    Some (mkRetention [70] (total_size m) (chunk_size m) (default [] (ser m)) 1000).
Proof. apply lookup_singleton_eq. Qed.

Lemma served_to_bob m f : can_serve (world m f) (file_id m) bob alice None = true.
Proof.
  unfold can_serve. rewrite retained. cbn [ret_expires_at w_now world]. rewrite andb_true_r.
  unfold offered_to. cbn [w_messages world chat media messages conversations members existsb].
  unfold eqb, eqb_opt. rewrite !bool_decide_true by done. done.
Qed.

Lemma alice_willing m f :
  wf_frame (FManifest m) → whole_file m f → Forall is_u8 f → validate_manifest m = Ok tt →
  len (chunks m) * 32 + 16 <= MAX_MANIFEST →
  willing (world m f) bob alice (file_id m) m (mkRetention [70] (total_size m) (chunk_size m) (default [] (ser m)) 1000) 0.
Proof.
  intros Hwf Hf Hb Hv Hl. split; try done; [apply served_to_bob|apply retained|].
  cbn. rewrite (parse_raw_manifest m); [done|]. unfold raw_manifest. by rewrite decide_True by apply Hwf.
Qed.

Lemma ser_manifest m : wf_frame (FManifest m) → is_Some (ser m).
Proof. intros Hwf. cbn. unfold raw_manifest. by rewrite decide_True by apply Hwf. Qed.

Lemma manifest_wf : wf_frame (FManifest manifest).
Proof. split; [by_eval|]. split; [by_eval|]. unfold manifest. cbn [chunks]. do 3 (apply Forall_cons; split; [apply blake3_wf|]). done. Qed.

Lemma file_whole : whole_file manifest file.
Proof.
  split; [done|]. intros i Hi. destruct i as [|[|[|i]]]; [..|cbn in Hi; lia].
  - exists [1; 2]. split; done.
  - exists [3; 4]. split; done.
  - exists [5]. split; done.
Qed.

(** ** Bob's receiver *)

(** It opens the file with nothing verified, *)
Definition opened : Core * res Receiver :=
  open_inner (calm 100) dir leased_core (file_id manifest) alice manifest 5 (lease manifest).
Definition bob_core : Core := opened.1.
Definition bob_receiver : Receiver :=
  mkReceiver 0 manifest
    (mkPartial (file_id manifest) alice 5 2 (ser manifest) 0 ACTIVE (partial_path dir (file_id manifest)) 100) [0] 1.

Lemma opened_receiver : opened = (bob_core, Ok bob_receiver).
Proof. apply (pair_snd opened). vm_compute. reflexivity. Qed.

Lemma leased_core_wf : wf_core leased_core.
Proof. split; intros *; cbn; by rewrite lookup_empty. Qed.

Lemma open_gives fl d c fid peer m size l c' r :
  wf_core c → wf_frame (FManifest m) → open_inner fl d c fid peer m size l = (c', Ok r) →
  rc_ok c' r ∧ published c' r ∧ names c' !! p_path (rc_partial r) = Some (rc_file r).
Proof.
  intros Hc ([Ht _] & [Hs _] & _) Heq. pose proof (open_inner_ok fl d c fid peer m size l Hc Ht Hs) as Hok.
  rewrite Heq in Hok. destruct Hok as (Hok & Hpub & _). apply open_inner_named in Heq. done.
Qed.

Lemma bob_ok :
  rc_ok bob_core bob_receiver ∧ published bob_core bob_receiver ∧
  names bob_core !! p_path (rc_partial bob_receiver) = Some (rc_file bob_receiver).
Proof. exact (open_gives _ _ _ _ _ _ _ _ _ _ leased_core_wf manifest_wf opened_receiver). Qed.

(** What arrives: the last chunk, a forged one, the last again, and the first while
    the disk fails. *)
Definition full_disk : Faults := mkFaults (λ _, false) true true true (λ _, true) (Some 1%nat) true true true 103.
Definition arrivals : list (Faults * nat * bytes) :=
  [(calm 101, 2%nat, [5]); (calm 102, 1%nat, [3; 5]); (calm 102, 2%nat, [5]); (full_disk, 0%nat, [1; 2])].

(** After the first of them. *)
Definition later_core : Core := (commit (calm 101) bob_core bob_receiver 2 [5] (lease manifest)).1.1.
Definition later_receiver : Receiver :=
  mkReceiver 0 manifest
    (mkPartial (file_id manifest) alice 5 2 (ser manifest) 0 ACTIVE (partial_path dir (file_id manifest)) 101) [4] 1.

Lemma committed :
  commit (calm 101) bob_core bob_receiver 2 [5] (lease manifest) = (later_core, later_receiver, Ok tt).
Proof.
  assert (∀ x : Core * Receiver * res unit, x.1.2 = later_receiver → x.2 = Ok tt → x = (x.1.1, later_receiver, Ok tt)) as Hx.
  { intros [[c r] o]. cbn. by intros -> ->. }
  apply Hx; vm_compute; reflexivity.
Qed.

Lemma commit_gives fl c r i data l c' r' :
  rc_ok c r → published c r → commit fl c r i data l = (c', r', Ok tt) → rc_ok c' r' ∧ published c' r'.
Proof. intros Hok Hpub Heq. pose proof (commit_ok fl c r i data l Hok) as H. rewrite Heq in H. naive_solver. Qed.

Lemma later_ok : rc_ok later_core later_receiver ∧ published later_core later_receiver.
Proof. destruct bob_ok as (Hok & Hpub & _). exact (commit_gives _ _ _ _ _ _ _ _ Hok Hpub committed). Qed.

Lemma later_core_wf : wf_core later_core.
Proof.
  apply commit_wf; [|apply bob_ok]. unfold bob_core, opened. apply open_inner_wf; [apply leased_core_wf|done..].
Qed.
End ToyTransfer.

(** ** The theorems at work *)

Import ToyTransfer.
#[local] Existing Instance Toy.crypto.

Lemma frame_codec_exact_witness :
  decode_body 6 [3; 0; 0; 0] = Some (Ok (FComplete 3)) ∧
  (∀ f, decode_body 6 [3; 0; 0; 0] = Some (Ok f) ↔ wf_frame f ∧ encode_body f = Ok (6, [3; 0; 0; 0])).
Proof.
  destruct (frame_codec_exact 6 [3; 0; 0; 0] ltac:(by_eval)) as [_ Hf]. split; [|exact Hf]. apply Hf. split; [by_eval|reflexivity].
Defined.

Definition complete_stream : RecvStream := mkStream ([6; 0; 1; 4; 0; 0; 0] ++ [3; 0; 0; 0] ++ [9]) Fin.

Lemma read_frame_bounded_witness :
  read_frame_for PhComplete complete_stream = Some (Ok (FComplete 3, mkStream [9] Fin)) ∧
  reads_within PhComplete (16 * (HEADER_LEN + MAX_OPTIONAL_BODY) + HEADER_LEN + 4) complete_stream
    (read_frame_for PhComplete complete_stream).
Proof. split; [reflexivity|]. apply (read_frame_bounded PhComplete complete_stream). by_eval. Defined.

Lemma missing_exact_witness :
  missing later_receiver 1 64 = [mkRange 0 2] ∧
  (length (range_indices (missing later_receiver 1 64)) <= 64)%nat.
Proof.
  split; [reflexivity|]. destruct (missing_exact later_core later_receiver 1 64 (proj1 later_ok)) as (_ & _ & H & _). exact H.
Defined.

Lemma commits_any_order_witness :
  (commit_all bob_core bob_receiver (lease manifest) arrivals).2 = [true; false; true; false] ∧
  let '(c', r', oks) := commit_all bob_core bob_receiver (lease manifest) arrivals in
  rc_ok c' r' ∧ published c' r' ∧ length oks = length arrivals ∧
  ∀ j, contains r' j = true ↔
    contains bob_receiver j = true ∨ ∃ k fl data, arrivals !! k = Some (fl, j, data) ∧ oks !! k = Some true.
Proof.
  split; [vm_compute; reflexivity|].
  exact (commits_any_order bob_core bob_receiver (lease manifest) arrivals (proj1 bob_ok) (proj1 (proj2 bob_ok))).
Defined.

Lemma later_named : names later_core !! p_path (rc_partial later_receiver) = Some (rc_file later_receiver).
Proof. vm_compute. reflexivity. Qed.

(** Bob opens the download again, now served by himself on another device. *)
Definition reopened : Core * res Receiver := open_inner (calm 200) dir later_core (file_id manifest) bob manifest 5 (lease manifest).
Definition reopened_receiver : Receiver :=
  mkReceiver 0 manifest
    (mkPartial (file_id manifest) bob 5 2 (ser manifest) 0 ACTIVE (partial_path dir (file_id manifest)) 200) [4] 1.

Lemma reopens : reopened = (reopened.1, Ok reopened_receiver).
Proof. apply (pair_snd reopened). vm_compute. reflexivity. Qed.

Lemma manifest_raw_len : len <$> ser manifest = Some 98.
Proof. vm_compute. reflexivity. Qed.

Lemma later_manifest_fits raw : p_manifest (rc_partial later_receiver) = Some raw → len raw <= 8 * 1024 * 1024.
Proof.
  intros Hr. change (ser manifest = Some raw) in Hr. pose proof manifest_raw_len as Hl. rewrite Hr in Hl. by injection Hl as ->.
Qed.

Lemma reopen_resumes_witness :
  rc_file reopened_receiver = rc_file later_receiver ∧ ∀ i, contains reopened_receiver i = contains later_receiver i.
Proof.
  exact (proj2 (reopen_resumes (calm 200) dir later_core later_receiver (file_id manifest) bob 5 (lease manifest) _ _
    later_core_wf (proj1 later_ok) (proj2 later_ok) eq_refl later_named later_manifest_fits reopens)).
Defined.

Definition later_row : PartialRow := mkRow (rc_partial later_receiver) 0 0 false (Some [4]).

Lemma later_has_row : partials later_core !! file_id manifest = Some later_row.
Proof. vm_compute. reflexivity. Qed.

Lemma later_has_receiver : receivers later_core !! file_id manifest = Some 1.
Proof. vm_compute. reflexivity. Qed.

(** The file is forgotten; its worker was about to publish a chunk. *)
Definition forgotten : Core := forget_file dir (file_id manifest) later_core.
Definition late_publish : Core :=
  (partial_progress_verified_live_tx true (file_id manifest) 3 ACTIVE 300 [7] (lease manifest) forgotten).1.

Lemma deletion_is_final_witness :
  partials late_publish !! file_id manifest = None ∧ names late_publish !! p_path (row later_row) = None.
Proof.
  exact (deletion_is_final dir later_core (file_id manifest) later_row 1 late_publish later_has_row later_has_receiver
    (rtc_once forgotten late_publish (step_progress 1 forgotten true (file_id manifest) 3 ACTIVE 300 [7] (lease manifest) eq_refl))).
Defined.

Lemma file_bytes : Forall is_u8 file.
Proof. by_eval. Qed.

Lemma pull_ends_witness : is_Some (pull_v2_from env (link manifest file) dir empty_core (file_id manifest) bob alice 5 (lease manifest) None).
Proof. exact (pull_ends env (link manifest file) dir empty_core (file_id manifest) bob alice 5 (lease manifest) None (link_bytes manifest file file_bytes) empty_core_wf). Defined.


Lemma empty_core_live m : live (file_id m) empty_core (lease m).
Proof. split; [apply not_elem_of_empty|done]. Qed.


(** A file as [Manifest::from_file] describes it. *)
Definition note : bytes := [7; 8; 9].

Lemma note_bytes : Forall is_u8 note.
Proof. by_eval. Qed.

Lemma alice_serves_note :
  willing (world (from_file note) note) bob alice (file_id (from_file note)) (from_file note)
    (mkRetention [70] (total_size (from_file note)) (chunk_size (from_file note)) (default [] (ser (from_file note))) 1000) 0.
Proof.
  destruct (from_file_ok note ltac:(done)) as (_ & Hf & Hm). apply alice_willing; [done|done|by_eval|reflexivity|done].
Qed.

Lemma note_pulled :
  ∃ c', pull_v2_from env (link (from_file note) note) dir empty_core (file_id (from_file note)) bob alice 3 (lease (from_file note)) None =
    Some (c', Ok tt).
Proof.
  destruct (from_file_ok note ltac:(done)) as (_ & _ & Hm).
  exact (willing_pull (world (from_file note) note) bob alice (file_id (from_file note)) (from_file note) _ 0 alice_serves_note env
    (link (from_file note) note) false (λ _, 100) (linked _) dir empty_core (lease (from_file note))
    (link_bytes (from_file note) note note_bytes) empty_core_wf (blake3_wf _) (empty_core_live _) (ser_manifest _ Hm)).
Qed.

Lemma pull_delivers_sent_file_witness :
  ∃ c' w ino m,
    pull_v2_from env (link (from_file note) note) dir empty_core (file_id (from_file note)) bob alice 3 (lease (from_file note)) None =
      Some (c', Ok tt) ∧
    partials c' !! file_id (from_file note) = Some w ∧ is_complete c' (row w) = true ∧ p_manifest (row w) = ser m ∧
    names c' !! p_path (row w) = Some ino ∧ (3 = len note ∧ content c' ino = note ∨ clash m (from_file note) (content c' ino) note).
Proof.
  destruct note_pulled as [c' Hc']. exists c'.
  destruct (pull_delivers_sent_file env (link (from_file note) note) dir empty_core note bob alice 3 (lease (from_file note)) None c'
    (link_bytes (from_file note) note note_bytes) empty_core_wf ltac:(done) Hc') as (w & ino & m & Hrest).
  exists w, ino, m. split; [exact Hc'|exact Hrest].
Defined.

(** ** From a draft to the receiver *)

(** Alice picks the note and prepares it for a week. *)
Definition draft : Core := mkCore ∅ ∅ {[ [70] := 0 ]} {[0 := note]} 1 ∅ ∅ 0.
Definition prepared : Core * res (bytes * Z) := prepare_send (mkSendFaults true true None true) dir draft [70] 604800 100.
Definition note_world : World := mkWorld (chat (file_id (from_file note)) 3) (λ _, true) 200 (mkPolicy false false 0) prepared.1.

Lemma note_prepared : prepared = (prepared.1, Ok (file_id (from_file note), 3)).
Proof. apply (pair_snd prepared). vm_compute. reflexivity. Qed.

Lemma note_offered :
  offered_to (w_messages note_world) (w_paired note_world bob) (file_id (from_file note)) bob alice = true.
Proof. vm_compute. reflexivity. Qed.

Lemma prepared_bytes : ∀ ino, Forall is_u8 (content (w_core note_world) ino).
Proof. apply (one_file_bytes _ note); [vm_compute; reflexivity|apply note_bytes]. Qed.


Lemma prepared_canonical : canonical dir prepared.1.
Proof. apply prepare_canonical. split; intros fid x; cbn; by rewrite lookup_empty. Qed.

Definition note_row : Retention := mkRetention (src_path dir (file_id (from_file note))) 3 CHUNK_SIZE (default [] (ser (from_file note))) 604900.

Lemma note_retained : retention prepared.1 !! file_id (from_file note) = Some note_row.
Proof. vm_compute. reflexivity. Qed.

Lemma note_has_media : media_names (chat (file_id (from_file note)) 3) (file_id (from_file note)) = true.
Proof. vm_compute. reflexivity. Qed.

Lemma note_has_no_media : media_names (chat [] 3) (file_id (from_file note)) = false.
Proof. vm_compute. reflexivity. Qed.

(** While the message is there the note stays; once nothing names it, it goes. *)
Lemma sweep_frees_orphans_witness :
  retention (sweep_orphaned_retention dir (λ _, false) (λ _, true) (chat (file_id (from_file note)) 3) prepared.1)
    !! file_id (from_file note) = Some note_row ∧
  names (sweep_orphaned_retention dir (λ _, false) (λ _, true) (chat [] 3) prepared.1) !! ret_path note_row = None.
Proof.
  split.
  - pose proof (sweep_frees_orphans dir (λ _, false) (λ _, true) (chat (file_id (from_file note)) 3) prepared.1
      (file_id (from_file note)) note_row prepared_canonical note_retained) as H. cbv beta zeta in H.
    rewrite note_has_media in H. cbn [orb negb] in H. exact (proj1 H).
  - pose proof (sweep_frees_orphans dir (λ _, false) (λ _, true) (chat [] 3) prepared.1
      (file_id (from_file note)) note_row prepared_canonical note_retained) as H. cbv beta zeta in H.
    rewrite note_has_no_media in H. cbn [orb negb] in H. exact (proj1 (proj2 (proj2 H))).
Defined.

(** ** Downloads *)

(** Alice is reached, or every connection fails. *)
Definition reached : Attempt := mkAttempt Direct (Ok (link manifest file)) env None false true true true 100.
Definition unreachable : Attempt := mkAttempt Direct (Err (mkFailure KTransport Io)) env None false true true true 100.

Lemma unreachable_ok : attempt_ok unreachable.
Proof. split; done. Qed.

Lemma reached_ok : attempt_ok reached.
Proof. split; [|done]. intros l [= <-]. apply link_bytes, file_bytes. Qed.


Definition policy_env : PolicyEnv :=
  mkPolicyEnv 100 true (Ok (Some (alice, 5))) false true true bob (Ok []) (λ _, unreachable) (λ _, unreachable) (worlds env) (worlds env 0%nat) true true true.


(** ** Sharing *)

Definition carol : bytes := verifying_key (secret_of 3).
Definition shared_offer : AttachmentSharing := mkSharing [4] (file_id manifest) 5 500 [bob; carol].

(** Alice's group, where Bob and Carol have her message with the file. *)
Definition group_chat : Messages :=
  mkMessages [mkConversation [1] KIND_GROUP (Some [8])] [mkMember [1] alice true; mkMember [1] bob true; mkMember [1] carol true]
    [mkMessage 1 [1] (Some alice) [4] false false false] [mkMedia [1] [4] (Some (file_id manifest)) 5 KIND_ATTACHMENT] [] [] [].

Definition granted : Messages := (receive_tx group_chat [1] alice bob shared_offer 100).1.
Definition shared_grant : Grant :=
  mkGrant (match grant_id [8] alice shared_offer with Ok id => id | Err _ => [] end) [1] [8] alice shared_offer None.

Lemma pending_grants_bounded_witness : within_caps granted.
Proof.
  apply (pending_grants_bounded group_chat granted); [apply rtc_once, step_receive|].
  split; intros; reflexivity || (vm_compute; discriminate).
Defined.

(** Carol is served under the grant, and not any more once Alice deletes the message. *)
Lemma revocation_is_final_witness :
  permitted granted (g_id shared_grant) (file_id manifest) bob carol 200 = Some shared_grant ∧
  permitted (gc_grants 150 (revoke [1] alice [4] granted)) (g_id shared_grant) (file_id manifest) bob carol 200 ≠ Some shared_grant.
Proof.
  split; [vm_compute; reflexivity|].
  apply (revocation_is_final granted (gc_grants 150 (revoke [1] alice [4] granted)) [1] alice [4] shared_grant);
    [apply rtc_once, step_gc|reflexivity..].
Defined.
