(* ===== verification/Verdict.v ===== *)
(** * Verdicts: fallible code that says why it refuses

    [anyhow::Result] and [Result<_, &'static str>] of the client, with the sequencing of
    [?], [ensure!] and [ok_or]. *)

From S2P Require Import Prelude.
From Stdlib Require String.
Export String.StringSyntax.

Delimit Scope string_scope with string.

Definition verdict A := result A String.string.

#[global] Instance verdict_bind : MBind verdict := λ A B f r, match r with Ok a => f a | Err e => Err e end.

(** [ensure!] *)
Definition ensure (b : bool) (why : String.string) : verdict unit := if b then Ok tt else Err why.

(** [ok_or] *)
Definition ok_or {A} (o : option A) (why : String.string) : verdict A := match o with Some a => Ok a | None => Err why end.

Lemma bind_ok {A B} (r : verdict A) (f : A → verdict B) b : r ≫= f = Ok b ↔ ∃ a, r = Ok a ∧ f a = Ok b.
Proof. destruct r as [a|e]; cbn; naive_solver. Qed.

Lemma ensure_ok b why u : ensure b why = Ok u ↔ b = true.
Proof. destruct b, u; cbn; naive_solver. Qed.

Lemma ok_or_ok {A} (o : option A) why a : ok_or o why = Ok a ↔ o = Some a.
Proof. destruct o; cbn; naive_solver. Qed.
