(* ===== verification/GroupPolicy.v ===== *)
(** * GroupPolicy: who may change a group, and what each change leaves it as

    libcore/src/mls/policy.rs, with the change requests of common/src/proto/mls_wire.rs.
    The committer that builds a commit and every member that receives it evaluate
    [apply] on the same state.  The theorems say what a change can do to anybody's
    rank, whoever asks for it and whoever carries it. *)

From S2P Require Import Prelude Verdict Bytes.
From Stdlib Require Import String.

#[local] Open Scope Z_scope.

(** ** Requests *)

Record GroupRules := mkRules {
  members_add : bool;
  members_edit : bool;
  members_send : bool;
  admins_appoint : bool;
}.

#[global] Instance GroupRules_eq_dec : EqDecision GroupRules.
Proof. solve_decision. Defined.

Definition default_rules : GroupRules := mkRules true false true false.

Inductive GroupMemberAction := ActRefresh | ActLeave.

#[global] Instance GroupMemberAction_eq_dec : EqDecision GroupMemberAction.
Proof. solve_decision. Defined.

Record GroupMemberRequest := mkRequest {
  mr_who : bytes;
  mr_nonce : bytes;
  mr_action : GroupMemberAction;
  mr_signature : bytes;
}.

#[global] Instance GroupMemberRequest_eq_dec : EqDecision GroupMemberRequest.
Proof. solve_decision. Defined.

Inductive GroupChange :=
| ChAdd (who : list bytes)
| ChRemove (who : bytes)
| ChLeave (successor : option bytes)
| ChRole (who : bytes) (role : Z)
| ChRules (rules : GroupRules)
| ChHandover (to : bytes)
| ChTakeover
| ChUpgrade
| ChMemberRequest (request : GroupMemberRequest).

#[global] Instance GroupChange_eq_dec : EqDecision GroupChange.
Proof. solve_decision. Defined.

Record SignedChange := mkSigned {
  sc_by : bytes;
  sc_epoch : Z;
  sc_branch : bytes;
  sc_change : GroupChange;
  sc_sig : bytes;
}.

#[global] Instance SignedChange_eq_dec : EqDecision SignedChange.
Proof. solve_decision. Defined.

(** ** The state of a group *)

Definition ROLE_MEMBER : Z := 0.
Definition ROLE_ADMIN : Z := 1.
Definition ROLE_OWNER : Z := 2.

Record GroupState := mkGroup {
  owners : list bytes;
  admins : list bytes;
  committer : bytes;
  rules : GroupRules;
  last_change : option SignedChange;
}.

#[global] Instance GroupState_eq_dec : EqDecision GroupState.
Proof. solve_decision. Defined.

Definition founded (by_ : bytes) : GroupState := mkGroup [by_] [] by_ default_rules None.

Definition role (st : GroupState) (who : bytes) : Z :=
  if bool_decide (who ∈ owners st) then ROLE_OWNER
  else if bool_decide (who ∈ admins st) then ROLE_ADMIN
  else ROLE_MEMBER.

Definition may_add (st : GroupState) (who : bytes) : bool := members_add (rules st) || (ROLE_ADMIN <=? role st who).
Definition may_edit (st : GroupState) (who : bytes) : bool := members_edit (rules st) || (ROLE_ADMIN <=? role st who).
Definition may_send (st : GroupState) (who : bytes) : bool := members_send (rules st) || (ROLE_ADMIN <=? role st who).

Definition without (who : bytes) (l : list bytes) : list bytes := filter (λ m, m ≠ who) l.

Definition drop_role (who : bytes) (st : GroupState) : GroupState :=
  mkGroup (without who (owners st)) (without who (admins st)) (committer st) (rules st) (last_change st).
Definition push_owner (who : bytes) (st : GroupState) : GroupState :=
  mkGroup (owners st ++ [who]) (admins st) (committer st) (rules st) (last_change st).
Definition push_admin (who : bytes) (st : GroupState) : GroupState :=
  mkGroup (owners st) (admins st ++ [who]) (committer st) (rules st) (last_change st).
Definition set_committer (who : bytes) (st : GroupState) : GroupState :=
  mkGroup (owners st) (admins st) who (rules st) (last_change st).
Definition set_rules (r : GroupRules) (st : GroupState) : GroupState :=
  mkGroup (owners st) (admins st) (committer st) r (last_change st).
Definition set_last (s : SignedChange) (st : GroupState) : GroupState :=
  mkGroup (owners st) (admins st) (committer st) (rules st) (Some s).

(** Owners and admins. *)
Definition ranked (st : GroupState) : list bytes := owners st ++ admins st.

(** [GroupState::check] *)
Definition check (st : GroupState) (roster : list bytes) : verdict unit :=
  if bool_decide (owners st = []) then Err "a group needs an owner"%string
  else if negb (forallb (λ m, bool_decide (m ∈ roster)) (ranked st)) then
    Err "a role is held by someone outside the group"%string
  else if negb (bool_decide (NoDup (ranked st))) then Err "someone holds two roles"%string
  else if negb (bool_decide (committer st ∈ ranked st)) then Err "the committer must be an admin"%string
  else Ok tt.

(** ** Changes *)

(** The loop of [Add]: each newcomer is new. *)
Fixpoint add_all (after who : list bytes) : option (list bytes) :=
  match who with
  | [] => Some after
  | w :: who => if bool_decide (w ∈ after) then None else add_all (after ++ [w]) who
  end.

(** Whether [author] may carry a request of the committer itself. *)
Definition carries_committer_request (st : GroupState) (author : bytes) (signed : SignedChange) : bool :=
  match sc_change signed with
  | ChMemberRequest r =>
      bool_decide (mr_who r = committer st) && bool_decide (author = sc_by signed)
      && ((ROLE_ADMIN <=? role st author) || (len (owners st) + len (admins st) =? 1))
  | _ => false
  end.

(** What the last owner's departure leaves: [successor] takes over. *)
Definition succeed (successor : option bytes) (after : list bytes) (next : GroupState) : verdict (GroupState * list bytes) :=
  if bool_decide (owners next = []) then
    match successor with
    | None => Err "the last owner leaves without a successor"%string
    | Some s =>
        if negb (bool_decide (s ∈ after)) then Err "the successor isn't in the group"%string
        else Ok (push_owner s (drop_role s next), after)
    end
  else Ok (next, after).

(** What a member's departure leaves: [author] stands in for the last owner. *)
Definition depart (st : GroupState) (author : bytes) (r : GroupMemberRequest) (after : list bytes) : GroupState * list bytes :=
  if bool_decide (mr_action r = ActLeave) then
    let next := drop_role (mr_who r) st in
    (if bool_decide (owners next = []) then push_owner author (drop_role author next) else next, without (mr_who r) after)
  else (st, after).

(** What a member's own request leaves, carried by [author]. *)
Definition member_request (st : GroupState) (author : bytes) (r : GroupMemberRequest) (after : list bytes) : GroupState * list bytes :=
  let '(next, after) := depart st author r after in
  let next :=
    if bool_decide (committer st = mr_who r) then
      let next := set_committer author next in
      if role next author =? ROLE_MEMBER then push_admin author next else next
    else next in
  (next, after).

(** The [match] of [apply]: the next state and the roster it is checked against. *)
Definition change_state (st : GroupState) (roster : list bytes) (author : bytes) (signed : SignedChange) :
    verdict (GroupState * list bytes) :=
  let by_ := sc_by signed in
  let rank := role st by_ in
  match sc_change signed with
  | ChAdd who =>
      if negb (may_add st by_) then Err "only admins may add people"%string
      else if bool_decide (who = []) then Err "adds nobody"%string
      else match add_all roster who with
      | None => Err "adds someone already in the group"%string
      | Some after => Ok (st, after)
      end
  | ChRemove who =>
      if bool_decide (who = by_) || negb (bool_decide (who ∈ roster)) then Err "removes nobody who can be removed"%string
      else if (rank <? ROLE_ADMIN) || ((role st who =? ROLE_OWNER) && (rank <? ROLE_OWNER)) then Err "may not remove them"%string
      else Ok (drop_role who st, without who roster)
  | ChLeave successor => succeed successor (without by_ roster) (drop_role by_ st)
  | ChRole who to =>
      let from := role st who in
      if bool_decide (who = by_) || negb (bool_decide (who ∈ roster)) || (to >? ROLE_OWNER) || (from =? to) then
        Err "no such role change"%string
      else
        let owners_only := (from =? ROLE_OWNER) || (to =? ROLE_OWNER) in
        let appoints := (rank =? ROLE_ADMIN) && admins_appoint (rules st) && negb owners_only in
        if negb (rank =? ROLE_OWNER) && negb appoints then Err "may not change their role"%string
        else
          let next := drop_role who st in
          let next := if to =? ROLE_OWNER then push_owner who next else if to =? ROLE_ADMIN then push_admin who next else next in
          let next := if bool_decide (who = committer st) && (to =? ROLE_MEMBER) then set_committer by_ next else next in
          Ok (next, roster)
  | ChRules r =>
      if (rank <? ROLE_ADMIN) || bool_decide (r = rules st) then Err "may not change the rules"%string
      else if negb (Bool.eqb (admins_appoint r) (admins_appoint (rules st))) && (rank <? ROLE_OWNER) then
        Err "only owners decide who appoints admins"%string
      else Ok (set_rules r st, roster)
  | ChHandover to =>
      if negb (bool_decide (by_ = committer st)) || bool_decide (to = by_) || negb (bool_decide (to ∈ roster)) then
        Err "no such handover"%string
      else if role st to =? ROLE_MEMBER then
        if len (owners st) + len (admins st) >? 1 then Err "hand over to an admin"%string
        else Ok (set_committer to (push_admin to st), roster)
      else Ok (set_committer to st, roster)
  | ChTakeover =>
      if negb (bool_decide (by_ = author)) || bool_decide (by_ = committer st) || (rank <? ROLE_ADMIN) then
        Err "only an admin takes over"%string
      else Ok (set_committer by_ st, roster)
  | ChUpgrade => Err "the group already has signed rules"%string
  | ChMemberRequest r =>
      if negb (bool_decide (mr_who r ∈ roster)) || bool_decide (mr_who r = author) then
        Err "only another current member can carry this request"%string
      else Ok (member_request st author r roster)
  end.

(** [apply] *)
Definition apply (st : GroupState) (roster : list bytes) (author : bytes) (signed : SignedChange) : verdict GroupState :=
  if negb (bool_decide (sc_by signed ∈ roster)) then Err "asked for by someone outside the group"%string
  else if negb (bool_decide (author = committer st)) && negb (bool_decide (sc_change signed = ChTakeover))
          && negb (carries_committer_request st author signed) then
    Err "only the committer changes the group"%string
  else match change_state st roster author signed with
  | Err e => Err e
  | Ok (next, after) =>
      let next := set_last signed next in
      match check next after with Err e => Err e | Ok _ => Ok next end
  end.

(** ** Ranks under each update *)

Lemma role_range st x : ROLE_MEMBER <= role st x <= ROLE_OWNER.
Proof. unfold role, ROLE_MEMBER, ROLE_ADMIN, ROLE_OWNER. repeat case_bool_decide; lia. Qed.

Lemma role_cases st x : role st x = ROLE_MEMBER ∨ role st x = ROLE_ADMIN ∨ role st x = ROLE_OWNER.
Proof. unfold role. repeat case_bool_decide; auto. Qed.

Lemma elem_of_without x who l : x ∈ without who l ↔ x ≠ who ∧ x ∈ l.
Proof. unfold without. by rewrite list_elem_of_filter. Qed.

Lemma role_drop who st x : role (drop_role who st) x = if decide (x = who) then ROLE_MEMBER else role st x.
Proof.
  unfold role. cbn. case_decide as Hx.
  - rewrite !bool_decide_false; [done|rewrite elem_of_without; tauto..].
  - assert (∀ l, bool_decide (x ∈ without who l) = bool_decide (x ∈ l)) as Hl.
    { intros l. apply bool_decide_ext. rewrite elem_of_without. tauto. }
    by rewrite !Hl.
Qed.

Lemma role_push_owner w st x : role (push_owner w st) x = if decide (x = w) then ROLE_OWNER else role st x.
Proof.
  unfold role. cbn. case_decide as Hx.
  - rewrite bool_decide_true; [done|]. apply elem_of_app. right. by apply list_elem_of_singleton.
  - rewrite (bool_decide_ext (x ∈ owners st ++ [w]) (x ∈ owners st)); [done|].
    rewrite elem_of_app, list_elem_of_singleton. tauto.
Qed.

Lemma role_push_admin w st x :
  role (push_admin w st) x = if decide (x = w) then Z.max ROLE_ADMIN (role st x) else role st x.
Proof.
  unfold role. cbn. case_decide as Hx.
  - rewrite (bool_decide_true (x ∈ admins st ++ [w])) by (apply elem_of_app; right; by apply list_elem_of_singleton).
    unfold ROLE_ADMIN, ROLE_OWNER, ROLE_MEMBER. repeat case_bool_decide; done.
  - rewrite (bool_decide_ext (x ∈ admins st ++ [w]) (x ∈ admins st)); [done|].
    rewrite elem_of_app, list_elem_of_singleton. tauto.
Qed.

Lemma role_set_committer w st x : role (set_committer w st) x = role st x.
Proof. done. Qed.
Lemma role_set_rules r st x : role (set_rules r st) x = role st x.
Proof. done. Qed.
Lemma role_set_last s st x : role (set_last s st) x = role st x.
Proof. done. Qed.

(** Evaluates the ranks of an updated state. *)
Ltac roles :=
  repeat first [rewrite role_set_last | rewrite role_set_committer | rewrite role_set_rules | rewrite role_push_owner
               | rewrite role_push_admin | rewrite role_drop].

(** ** Lawful changes *)

(** A group as every member accepts it. *)
Record valid (st : GroupState) (roster : list bytes) : Prop := {
  va_owner : owners st ≠ [];
  va_ranked : ∀ m, m ∈ ranked st → m ∈ roster;
  va_once : NoDup (ranked st);
  va_committer : committer st ∈ ranked st;
}.

Lemma check_ok st roster : check st roster = Ok tt ↔ valid st roster.
Proof.
  unfold check. case_bool_decide as H1; [split; [done|]; intros []; done|].
  destruct (forallb _ _) eqn:H2; cbn [negb].
  2: { split; [done|]. intros [_ Hr _ _]. apply not_true_iff_false in H2. contradict H2. apply forallb_forall.
       intros m Hm. apply bool_decide_true, Hr. by apply list_elem_of_In. }
  case_bool_decide as H3; cbn [negb]; [|split; [done|]; by intros []].
  case_bool_decide as H4; cbn [negb]; [|split; [done|]; by intros []].
  split; [|done]. intros _. split; [done| |done|done]. intros m Hm. rewrite forallb_forall in H2.
  specialize (H2 m ltac:(by apply list_elem_of_In)). by apply bool_decide_eq_true_1 in H2.
Qed.

(** The roster after a change. *)
Definition roster_after (signed : SignedChange) (roster : list bytes) : list bytes :=
  match sc_change signed with
  | ChAdd who => roster ++ who
  | ChRemove who => without who roster
  | ChLeave _ => without (sc_by signed) roster
  | ChMemberRequest r => if bool_decide (mr_action r = ActLeave) then without (mr_who r) roster else roster
  | _ => roster
  end.

(** [by_] holds everything the group has in the way of ranks. *)
Definition sole (st : GroupState) : Prop := len (owners st) + len (admins st) = 1.

(** Who may raise [x] to rank [to]: an owner, an admin allowed to appoint admins, the last
    owner naming a successor, a committer alone with its rank, or [x] itself carrying
    the signed request of a member that leaves or lost its keys. *)
Definition may_raise (st : GroupState) (author : bytes) (signed : SignedChange) (x : bytes) (to : Z) : Prop :=
  let by_ := sc_by signed in
  match sc_change signed with
  | ChRole who r => who = x ∧ r = to ∧ by_ ≠ x ∧
      (role st by_ = ROLE_OWNER ∨ role st by_ = ROLE_ADMIN ∧ admins_appoint (rules st) = true ∧ to = ROLE_ADMIN)
  | ChLeave successor => successor = Some x ∧ by_ ≠ x ∧ owners st = [by_]
  | ChHandover who => who = x ∧ by_ = committer st ∧ by_ ≠ x ∧ sole st ∧ to = ROLE_ADMIN
  | ChMemberRequest r => author = x ∧ mr_who r ≠ x ∧
      (x = committer st ∨ by_ = x ∧ mr_who r = committer st ∧ (ROLE_ADMIN <= role st x ∨ sole st)) ∧
      (to = ROLE_OWNER → mr_action r = ActLeave ∧ owners st = [mr_who r])
  | _ => False
  end.

(** Who may lower [x]: an owner, an admin allowed to appoint admins, an admin removing
    a member that is not an owner, or [x] itself. *)
Definition may_lower (st : GroupState) (signed : SignedChange) (x : bytes) : Prop :=
  let by_ := sc_by signed in
  match sc_change signed with
  | ChRole who _ => who = x ∧ by_ ≠ x ∧
      (role st by_ = ROLE_OWNER ∨ role st by_ = ROLE_ADMIN ∧ admins_appoint (rules st) = true ∧ role st x = ROLE_ADMIN)
  | ChRemove who => who = x ∧ by_ ≠ x ∧ ROLE_ADMIN <= role st by_ ∧ role st x <= Z.max ROLE_ADMIN (role st by_)
  | ChLeave _ => by_ = x
  | ChMemberRequest r => mr_who r = x ∧ mr_action r = ActLeave
  | _ => False
  end.

(** Who may make [x] the committer. *)
Definition may_hand_to (st : GroupState) (author : bytes) (signed : SignedChange) (x : bytes) : Prop :=
  let by_ := sc_by signed in
  match sc_change signed with
  | ChHandover to => to = x ∧ by_ = committer st
  | ChTakeover => by_ = x ∧ author = x ∧ ROLE_ADMIN <= role st x
  | ChRole who _ => who = committer st ∧ by_ = x ∧ ROLE_ADMIN <= role st x
  | ChMemberRequest r => mr_who r = committer st ∧ author = x ∧ by_ = x ∧ (ROLE_ADMIN <= role st x ∨ sole st)
  | _ => False
  end.

(** Everything a change may do. *)
Record lawful (st : GroupState) (roster : list bytes) (author : bytes) (signed : SignedChange) (next : GroupState) : Prop := {
  lw_valid : valid next (roster_after signed roster);
  lw_by : sc_by signed ∈ roster;
  lw_raised : ∀ x, role st x < role next x → may_raise st author signed x (role next x);
  lw_lowered : ∀ x, role next x < role st x → may_lower st signed x;
  lw_expelled : ∀ x, x ∈ roster → x ∉ roster_after signed roster → x = sc_by signed ∨ may_lower st signed x;
  lw_added : ∀ x, x ∉ roster → x ∈ roster_after signed roster → may_add st (sc_by signed) = true;
  lw_rules : rules next ≠ rules st → ROLE_ADMIN <= role st (sc_by signed) ∧
               (admins_appoint (rules next) ≠ admins_appoint (rules st) → role st (sc_by signed) = ROLE_OWNER);
  lw_handed : committer next ≠ committer st → may_hand_to st author signed (committer next);
  lw_last : last_change next = Some signed;
}.

Lemma add_all_ok who : ∀ after after',
  add_all after who = Some after' → after' = after ++ who ∧ NoDup who ∧ ∀ w, w ∈ who → w ∉ after.
Proof.
  induction who as [|w who IH]; intros after after'; cbn.
  - intros [= <-]. rewrite app_nil_r. split_and!; [done|constructor|]. intros w Hw. by apply not_elem_of_nil in Hw.
  - case_bool_decide as Hw; [done|]. intros (-> & Hnd & Hout)%IH. split_and!.
    + by rewrite <- app_assoc.
    + constructor; [|done]. intros Hin. apply (Hout w Hin). apply elem_of_app. right. by apply list_elem_of_singleton.
    + intros v [->|Hv]%elem_of_cons; [done|]. intros Hin. apply (Hout v Hv). apply elem_of_app. by left.
Qed.

Lemma change_roster st roster author signed next after :
  change_state st roster author signed = Ok (next, after) → after = roster_after signed roster.
Proof.
  unfold change_state, roster_after, succeed, member_request, depart. destruct (sc_change signed); intros Hc;
    repeat match type of Hc with
    | (if ?b then _ else _) = _ => destruct b
    | match ?o with Some _ => _ | None => _ end = _ => destruct o eqn:?
    | context [let '(_, _) := if ?b then _ else _ in _] => destruct b
    end; try discriminate Hc; injection Hc as _ <-; try reflexivity.
  by apply add_all_ok in Heqo as (-> & _).
Qed.

(** The last owner's departure. *)
Lemma last_owner st who : NoDup (ranked st) → owners st ≠ [] → owners (drop_role who st) = [] → owners st = [who].
Proof.
  intros Hnd Hne He. cbn in He. apply NoDup_app in Hnd as (Hnd & _).
  assert (∀ x, x ∈ owners st → x = who) as Hall.
  { intros x Hx. destruct (decide (x = who)); [done|]. assert (x ∈ without who (owners st)) as Hw by by apply elem_of_without.
    rewrite He in Hw. by apply not_elem_of_nil in Hw. }
  destruct (owners st) as [|a l]; [done|]. rewrite (Hall a) by left. destruct l as [|b l]; [done|].
  rewrite (Hall a), (Hall b) in Hnd by (left || (right; left)). apply NoDup_cons in Hnd as [Hn _]. destruct Hn. left.
Qed.

Section lawful.
Context (st : GroupState) (roster : list bytes) (author : bytes) (signed : SignedChange).
Context (Hv : valid st roster).

Notation by_ := (sc_by signed).

Definition ranks_lawful (next : GroupState) : Prop :=
  (∀ x, role st x < role next x → may_raise st author signed x (role next x)) ∧
  (∀ x, role next x < role st x → may_lower st signed x).

Lemma leave_lawful successor next after :
  sc_change signed = ChLeave successor → succeed successor (without by_ roster) (drop_role by_ st) = Ok (next, after) →
  ranks_lawful next.
Proof.
  intros Hch. unfold succeed, ranks_lawful, may_raise, may_lower. rewrite Hch. case_bool_decide as He.
  - destruct successor as [s|]; [|done]. destruct (negb _) eqn:Hs; [done|]. intros [= <- _]. breflect.
    apply elem_of_without in Hs as [Hs _]. apply (last_owner st by_) in He; [|apply Hv..].
    split; intros x; roles; pose proof (role_range st x); repeat case_decide; subst; unfold ROLE_MEMBER, ROLE_OWNER in *;
      try lia; done.
  - intros [= <- _]. split; intros x; roles; pose proof (role_range st x); case_decide; subst; unfold ROLE_MEMBER in *; try lia; done.
Qed.

Lemma role_lawful who to next after :
  sc_change signed = ChRole who to → change_state st roster author signed = Ok (next, after) →
  ranks_lawful next ∧ (committer next ≠ committer st → may_hand_to st author signed (committer next)).
Proof.
  intros Hch. unfold change_state, ranks_lawful, may_raise, may_lower, may_hand_to. rewrite Hch.
  cbv zeta. destruct (_ || _ || _ || _) eqn:E1; [done|]. destruct (negb _ && negb _) eqn:E2; [done|]. intros [= <- _].
  apply orb_false_iff in E1 as [[[Hne Hin]%orb_false_iff Hle]%orb_false_iff Hft]. breflect.
  assert (role st by_ = ROLE_OWNER ∨ role st by_ = ROLE_ADMIN ∧ admins_appoint (rules st) = true ∧
          role st who ≠ ROLE_OWNER ∧ to ≠ ROLE_OWNER) as Hright.
  { apply andb_false_iff in E2 as [E2|E2]; apply negb_false_iff in E2; [left; by apply Z.eqb_eq|]. right.
    apply andb_true_iff in E2 as [[E3 E4]%andb_true_iff E5]. breflect. done. }
  set (next := if to =? ROLE_OWNER then _ else _).
  assert (∀ x, role (if bool_decide (who = committer st) && (to =? ROLE_MEMBER) then set_committer by_ next else next) x =
               if decide (x = who) then (if (to =? ROLE_OWNER) || (to =? ROLE_ADMIN) then to else ROLE_MEMBER) else role st x) as Hrole.
  { intros x. destruct (_ && (to =? ROLE_MEMBER)); roles; unfold next; destruct (to =? ROLE_OWNER) eqn:Eo; destruct (to =? ROLE_ADMIN) eqn:Ea;
      roles; repeat case_decide; subst; breflect; unfold ROLE_MEMBER, ROLE_ADMIN, ROLE_OWNER in *; cbn; try lia; done. }
  clear E2. pose proof (role_range st by_). pose proof (role_range st who) as Hwho.
  split; [split; intros x; rewrite Hrole; destruct (decide (x = who)) as [->|_]; try lia|].
  - intros Hlt. destruct ((to =? ROLE_OWNER) || (to =? ROLE_ADMIN)) eqn:E3; [|unfold ROLE_MEMBER in *; lia].
    split_and!; [done|done|done|]. destruct Hright as [?|(? & ? & ? & ?)]; [by left|right].
    apply orb_true_iff in E3 as [E3|E3]; breflect; done.
  - intros Hlt. split_and!; [done|done|]. destruct Hright as [?|(? & ? & ? & ?)]; [by left|right]. split_and!; [done|done|].
    destruct (role_cases st who) as [Hr|[Hr|Hr]]; [|done|done].
    destruct ((to =? ROLE_OWNER) || (to =? ROLE_ADMIN)) eqn:E3; [|unfold ROLE_MEMBER in *; lia].
    apply orb_true_iff in E3 as [E3|E3]; breflect; unfold ROLE_MEMBER, ROLE_ADMIN, ROLE_OWNER in *; lia.
  - destruct (_ && (to =? ROLE_MEMBER)) eqn:E4; breflect.
    + cbn. intros _. split_and!; [done|done|]. destruct Hright as [Hr|(Hr & _)]; rewrite Hr; done.
    + unfold next. destruct (to =? ROLE_OWNER), (to =? ROLE_ADMIN); done.
Qed.

(** What the guard of [apply] leaves for a request carried by somebody else. *)
Definition carried (r : GroupMemberRequest) : Prop :=
  author = committer st ∨ by_ = author ∧ mr_who r = committer st ∧ (ROLE_ADMIN <= role st author ∨ sole st).

Lemma request_lawful r next after :
  sc_change signed = ChMemberRequest r → mr_who r ≠ author → carried r → member_request st author r roster = (next, after) →
  ranks_lawful next ∧ (committer next ≠ committer st → may_hand_to st author signed (committer next)) ∧ rules next = rules st.
Proof.
  intros Hch Hne Hcar Hm. unfold ranks_lawful, may_raise, may_lower, may_hand_to. rewrite Hch. unfold member_request, depart in Hm.
  set (left_ := bool_decide (mr_action r = ActLeave)) in Hm.
  set (empty := bool_decide (owners (drop_role (mr_who r) st) = [])) in Hm.
  set (n1 := if empty then push_owner author (drop_role author (drop_role (mr_who r) st)) else drop_role (mr_who r) st) in Hm.
  set (n2 := if left_ then n1 else st).
  assert (next = if bool_decide (committer st = mr_who r)
                 then (if role (set_committer author n2) author =? ROLE_MEMBER then push_admin author (set_committer author n2)
                       else set_committer author n2) else n2) as ->.
  { unfold n2. destruct left_; injection Hm as <- _; done. }
  clear Hm. assert (∀ x, role n2 x = if left_ then
      (if decide (x = author) then (if empty then ROLE_OWNER else role st x)
       else if decide (x = mr_who r) then ROLE_MEMBER else role st x) else role st x) as Hn2.
  { intros x. unfold n2, n1. destruct left_; [|done]. destruct empty; roles; repeat case_decide; congruence. }
  assert (committer n2 = committer st ∧ rules n2 = rules st) as [Hc2 Hr2].
  { unfold n2, n1. by destruct left_, empty. }
  set (n3 := if bool_decide (committer st = mr_who r) then _ else n2).
  assert (∀ x, role n3 x = if decide (x = author) then
      (if bool_decide (committer st = mr_who r) then Z.max ROLE_ADMIN (role n2 author) else role n2 author) else role n2 x) as Hn3.
  { intros x. pose proof (role_range n2 author). unfold n3. destruct (bool_decide (committer st = mr_who r)); [|by case_decide; subst].
    roles. destruct (role n2 author =? ROLE_MEMBER) eqn:E; breflect; roles; case_decide; subst; try done.
    destruct (role_cases n2 author) as [?|[->| ->]]; [congruence|done..]. }
  assert (role st author <= role n2 author) as Hup.
  { rewrite Hn2, decide_True by done. pose proof (role_range st author). destruct left_, empty; lia. }
  split_and!.
  - intros x. rewrite !Hn3. destruct (decide (x = author)) as [->|Hx].
    2: { intros Hlt. exfalso. rewrite Hn2 in Hlt. pose proof (role_range st x). destruct left_; [|lia].
         rewrite decide_False in Hlt by done. destruct (decide (x = mr_who r)); unfold ROLE_MEMBER in *; lia. }
    intros Hlt. split_and!; [done|done|destruct Hcar as [?|?]; [by left|by right]|]. intros Hown.
    assert (role n2 author = ROLE_OWNER) as Ho.
    { revert Hown. clear. destruct (bool_decide (committer st = mr_who r)); [|done]. unfold ROLE_ADMIN, ROLE_OWNER in *. lia. }
    rewrite Hown in Hlt. rewrite Hn2, decide_True in Ho by done.
    destruct left_ eqn:El; [|lia]. destruct empty eqn:Ee; [|lia]. unfold left_, empty in *. breflect.
    split; [done|]. apply last_owner; [apply Hv..|done].
  - intros x. rewrite Hn3. destruct (decide (x = author)) as [->|Hx].
    { intros Hlt. exfalso. destruct (bool_decide (committer st = mr_who r)); unfold ROLE_ADMIN in *; lia. }
    intros Hlt. rewrite Hn2 in Hlt. destruct left_ eqn:El; [|lia]. rewrite decide_False in Hlt by done.
    destruct (decide (x = mr_who r)) as [->|]; [|lia]. unfold left_ in El. breflect. done.
  - unfold n3. case_bool_decide as Hcm; [|intros Hx; by rewrite Hc2 in Hx].
    assert (committer (if role (set_committer author n2) author =? ROLE_MEMBER then push_admin author (set_committer author n2)
                       else set_committer author n2) = author) as -> by by destruct (_ =? _).
    intros _. destruct Hcar as [?|?]; [congruence|naive_solver].
  - unfold n3. destruct (bool_decide (committer st = mr_who r)); [|done]. by destruct (_ =? _).
Qed.

(** What [change_state] does to ranks, the committer and the rules, under the guard of
    [apply]. *)
Definition change_lawful (n : GroupState) : Prop :=
  ranks_lawful n ∧ (committer n ≠ committer st → may_hand_to st author signed (committer n)) ∧
  (rules n ≠ rules st → ROLE_ADMIN <= role st by_ ∧
     (admins_appoint (rules n) ≠ admins_appoint (rules st) → role st by_ = ROLE_OWNER)).

(** A change that moves no rank. *)
Lemma same_ranks n :
  (∀ x, role n x = role st x) → rules n = rules st →
  (committer n ≠ committer st → may_hand_to st author signed (committer n)) → change_lawful n.
Proof.
  intros Hr Hru Hc. split; [|split; [done|by intros]]. split; intros x; rewrite Hr; lia.
Qed.

Lemma remove_lawful who :
  sc_change signed = ChRemove who → who ≠ by_ → ROLE_ADMIN <= role st by_ →
  (role st who = ROLE_OWNER → role st by_ = ROLE_OWNER) → may_lower st signed who.
Proof.
  intros Hch Hne Hr Ho. unfold may_lower. rewrite Hch. split_and!; [done|done|done|]. pose proof (role_range st by_).
  destruct (role_cases st who) as [E|[E|E]]; rewrite E in *; unfold ROLE_MEMBER, ROLE_ADMIN, ROLE_OWNER in *; lia.
Qed.

(** The next refusal of [H] did not happen. *)
Ltac passed H E := match type of H with (if ?b then Err _ else _) = _ => destruct b eqn:E; [discriminate H|] end.

Lemma change_state_lawful n after :
  negb (bool_decide (author = committer st)) && negb (bool_decide (sc_change signed = ChTakeover))
    && negb (carries_committer_request st author signed) = false →
  change_state st roster author signed = Ok (n, after) → change_lawful n.
Proof.
  intros Hguard Hch. pose proof Hch as Hrole. unfold change_state in Hch. destruct (sc_change signed) as [who|who|succ|who to|ru|to| | |r] eqn:Ec.
  - passed Hch E1. passed Hch E2. destruct (add_all _ _); [|done].
    injection Hch as <- _. by apply same_ranks.
  - passed Hch E1. passed Hch E2. injection Hch as <- _.
    apply orb_false_iff in E2 as [E2 E3]. breflect. split; [|done]. split; intros x; roles.
    + pose proof (role_range st x). intros Hlt. destruct (decide (x = who)); unfold ROLE_MEMBER in *; lia.
    + intros Hlt. destruct (decide (x = who)) as [->|]; [|lia]. apply remove_lawful; [done..|]. intros Ho. rewrite Ho in E3. cbn in E3. breflect.
      pose proof (role_range st by_). lia.
  - split; [by eapply leave_lawful|]. unfold succeed in Hch. case_bool_decide; [destruct succ; [|done]; passed Hch E1|];
      injection Hch as <- _; done.
  - destruct (role_lawful who to n after Ec Hrole) as [Hranks Hcm]. split; [done|]. split; [done|].
    passed Hch E1. passed Hch E2. injection Hch as <- _.
    destruct (_ && (to =? ROLE_MEMBER)), (to =? ROLE_OWNER), (to =? ROLE_ADMIN); done.
  - passed Hch E1. passed Hch E2. injection Hch as <- _. breflect.
    split; [split; intros x; roles; intros; lia|]. split; [done|]. cbn. intros _. split; [done|]. intros Hd. pose proof (role_range st by_).
    apply andb_false_iff in E2 as [E2|E2]; breflect; [by apply Bool.eqb_prop in E2|lia].
  - passed Hch E1. breflect. destruct (role st to =? ROLE_MEMBER) eqn:E2; breflect.
    + passed Hch E3. injection Hch as <- _. breflect.
      assert (sole st) as Hs.
      { unfold sole. pose proof (len_nonneg (admins st)). destruct (owners st) as [|o os] eqn:Eo; [by destruct (va_owner _ _ Hv)|].
        rewrite len_cons in *. pose proof (len_nonneg os). lia. }
      split; [|split; [|done]].
      * split; intros x; roles; (destruct (decide (x = to)) as [->|]; intros Hlt; [|lia]); rewrite E2 in Hlt;
          [|unfold ROLE_ADMIN, ROLE_MEMBER in *; lia]. unfold may_raise. rewrite Ec, E2. by split_and!.
      * intros _. unfold may_hand_to. by rewrite Ec.
    + injection Hch as <- _. apply same_ranks; [done|done|]. intros _. unfold may_hand_to. by rewrite Ec.
  - passed Hch E1. injection Hch as <- _. breflect. apply same_ranks; [done|done|].
    intros _. unfold may_hand_to. rewrite Ec. cbn. by split_and!.
  - done.
  - passed Hch E1. breflect. destruct (member_request st author r roster) as [n' a'] eqn:Em.
    injection Hch as <- _. apply (request_lawful r) in Em as (Hr & Hcm & Hru); [|done|done|].
    { split; [done|]. split; [done|]. by rewrite Hru. }
    apply andb_false_iff in Hguard as [Hg|Hg]; [apply andb_false_iff in Hg as [Hg|Hg]; breflect; [by left|done]|].
    apply negb_false_iff in Hg. unfold carries_committer_request in Hg. rewrite Ec in Hg. breflect. right. split_and!; [done|done|].
    match goal with H : _ || _ = true |- _ => apply orb_true_iff in H as [Hg|Hg]; breflect end; [by left|by right].
Qed.

(** Every accepted change is lawful: from a group its members accept, whoever asks for a
    change and whoever carries it. *)
Lemma apply_is_lawful next : apply st roster author signed = Ok next → lawful st roster author signed next.
Proof.
  unfold apply. destruct (negb _) eqn:Hby; [done|]. breflect. destruct (_ && _ && _) eqn:Hguard; [done|].
  destruct (change_state st roster author signed) as [[n after]|] eqn:Hch; [|done].
  destruct (check _ _) as [[]|] eqn:Hck; [|done]. intros [= <-]. apply check_ok in Hck.
  pose proof (change_state_lawful n after Hguard Hch) as ((Hup & Hdown) & Hcm & Hru).
  pose proof (change_roster _ _ _ _ _ _ Hch) as ->.
  split; [done|done|done|done| | |done|done|done].
  - intros x Hx Hout. unfold roster_after, may_lower in *. unfold change_state in Hch.
    destruct (sc_change signed) as [who|who|succ|who to|ru|to| | |r] eqn:Ec; try done.
    + destruct Hout. apply elem_of_app. by left.
    + rewrite elem_of_without in Hout. destruct (decide (x = who)) as [->|]; [|tauto]. right.
      passed Hch E1. passed Hch E2. apply orb_false_iff in E2 as [E2 E3]. breflect.
      pose proof (remove_lawful who Ec ltac:(done) ltac:(done)) as Hl. unfold may_lower in Hl. rewrite Ec in Hl. apply Hl.
      intros Ho. rewrite Ho in E3. cbn in E3. breflect. pose proof (role_range st by_). lia.
    + rewrite elem_of_without in Hout. left. destruct (decide (x = by_)); [done|tauto].
    + case_bool_decide; [|done]. rewrite elem_of_without in Hout. right. destruct (decide (x = mr_who r)); [by subst|tauto].
  - intros x Hx Hin. unfold roster_after in Hin. unfold change_state in Hch.
    destruct (sc_change signed) as [who|who|succ|who to|ru|to| | |r] eqn:Ec; try done.
    + passed Hch E1. by breflect.
    + by apply elem_of_without in Hin as [_ ?].
    + by apply elem_of_without in Hin as [_ ?].
    + case_bool_decide; [|done]. by apply elem_of_without in Hin as [_ ?].
Qed.
End lawful.
