(* ===== verification/Groups.v ===== *)
(** * Groups: an MLS group with its rules, and what its members let a commit do

    libcore/src/mls/credential.rs and group.rs.  OpenMLS is not modelled: an [MlsGroup]
    is what the accessors of [MlsGroupHandle] read of its state, a [StagedCommit] what
    the handle reads of a commit OpenMLS verified, and [merged] states what merging one
    makes of the group. *)

From S2P Require Import Prelude Verdict Bytes Crypto Keyspace GroupPolicy.
From Stdlib Require String.

#[local] Open Scope Z_scope.
(** ** Sorted lists of keys *)

(** [sort] of a [Vec<[u8; 32]>] *)
Definition sorted (l : list bytes) : list bytes := merge_sort bytes_le l.

(** [Vec::dedup] *)
Fixpoint dedup (l : list bytes) : list bytes :=
  match l with
  | x :: (y :: _) as rest => if bool_decide (x = y) then dedup rest else x :: dedup rest
  | _ => l
  end.

(** ** Leaves (credential.rs) *)

(** A leaf of the ratchet tree: its index, its basic credential and its signature key. *)
Record Leaf := mkLeaf {
  lf_index : Z;
  lf_credential : bytes;
  lf_key : bytes;
}.

#[global] Instance Leaf_eq_dec : EqDecision Leaf.
Proof. solve_decision. Defined.

Inductive LeafIdentity := Bound (k : bytes) | Legacy (k : bytes).

Definition ipk_if (i : LeafIdentity) (strict : bool) : option bytes :=
  match i with
  | Bound k => Some k
  | Legacy k => if strict then None else Some k
  end.

Definition BOUND_LEN : nat := 32 + 64.

Section credential.
Context `{Crypto}.

Definition binding_input (leaf_signature_key : bytes) : bytes := str "promtuz-mls-leaf-v1" ++ leaf_signature_key.

(** [bound_credential], by the identity with secret key [sk] *)
Definition bound_credential (sk leaf_signature_key : bytes) : bytes :=
  verifying_key sk ++ sign sk (binding_input leaf_signature_key).

Definition leaf_identity (credential leaf_signature_key : bytes) : option LeafIdentity :=
  if decide (length credential = 32%nat) then Some (Legacy credential)
  else if decide (length credential = BOUND_LEN) then
    let ipk := take 32 credential in
    if verify_ed25519 ipk (binding_input leaf_signature_key) (drop 32 credential) then Some (Bound ipk) else None
  else None.

(** [member_ipk] and [leaf_node_ipk] *)
Definition leaf_ipk (l : Leaf) (strict : bool) : option bytes := i ← leaf_identity (lf_credential l) (lf_key l); ipk_if i strict.

(** In a group a leaf is somebody only by that identity's signature over the leaf's key. *)
Lemma leaf_ipk_signed l k : leaf_ipk l true = Some k → ∃ sig, verify_ed25519 k (binding_input (lf_key l)) sig = true.
Proof.
  unfold leaf_ipk, leaf_identity. case_decide; [done|]. case_decide; [|done].
  destruct (verify_ed25519 _ _ _) eqn:E; [|done]. cbn. intros [= <-]. by eexists.
Qed.

Lemma bound_leaf sk i key strict :
  leaf_ipk (mkLeaf i (bound_credential sk key) key) strict = Some (verifying_key sk).
Proof.
  unfold leaf_ipk, leaf_identity, bound_credential. cbn [lf_credential lf_key].
  pose proof (wf_arr_length _ _ (verifying_key_wf sk)) as H1. pose proof (wf_arr_length _ _ (sign_wf sk (binding_input key))) as H2.
  rewrite decide_False by (rewrite length_app; lia). rewrite decide_True by (rewrite length_app; unfold BOUND_LEN; lia).
  rewrite take_app_le, take_ge by lia. rewrite drop_app_ge, H1 by lia. rewrite Nat.sub_diag, drop_0. by rewrite verify_ed25519_sign.
Qed.
End credential.

(** ** Group metadata *)

(** postcard's [take_from_bytes]: the value at the front, and the rest. *)
Class Prefixed (A : Type) := {
  pser : A → option bytes;
  take_from_bytes : bytes → option (A * bytes);
  take_pser : ∀ a b rest, pser a = Some b → take_from_bytes (b ++ rest) = Some (a, rest);
}.

Record MetaHead := mkHead {
  mh_title : bytes;
  mh_founder : bytes;
}.

Record GroupMeta := mkMeta {
  gm_title : bytes;
  gm_founder : bytes;
  gm_state : option GroupState;
}.

#[global] Instance GroupMeta_eq_dec : EqDecision GroupMeta.
Proof. solve_decision. Defined.

(** [GroupMeta::founded] *)
Definition meta_founded (title founder : bytes) : GroupMeta := mkMeta title founder (Some (founded founder)).

(** [GroupMeta::effective] *)
Definition effective (m : GroupMeta) : GroupState :=
  match gm_state m with
  | Some st => st
  | None => set_rules (mkRules false (members_edit default_rules) (members_send default_rules) (admins_appoint default_rules))
              (founded (gm_founder m))
  end.

Inductive Extension :=
| ExtMeta (raw : bytes)
| ExtRequiredCapabilities
| ExtOther (kind : Z).

#[global] Instance Extension_eq_dec : EqDecision Extension.
Proof. solve_decision. Defined.

Section meta.
Context `{Prefixed MetaHead} `{Codec GroupState}.

(** [GroupMeta::encode] *)
Definition meta_encode (m : GroupMeta) : option bytes :=
  head ← pser (mkHead (gm_title m) (gm_founder m));
  match gm_state m with
  | Some st => rest ← ser st; Some (head ++ rest)
  | None => Some head
  end.

(** [GroupMeta::decode] *)
Definition meta_decode (raw : bytes) : option GroupMeta :=
  '(head, rest) ← take_from_bytes raw;
  if decide (rest = []) then Some (mkMeta (mh_title head) (mh_founder head) None)
  else st ← deser rest; Some (mkMeta (mh_title head) (mh_founder head) (Some st)).

(** [GroupMeta::extensions] *)
Definition extensions (m : GroupMeta) : option (list Extension) :=
  raw ← meta_encode m; Some [ExtMeta raw; ExtRequiredCapabilities].

(** [GroupMeta::from_extensions]: the first the version can read *)
Fixpoint from_extensions (exts : list Extension) : option GroupMeta :=
  match exts with
  | [] => None
  | ExtMeta raw :: exts => match meta_decode raw with Some m => Some m | None => from_extensions exts end
  | _ :: exts => from_extensions exts
  end.

Definition is_meta (e : Extension) : bool := match e with ExtMeta _ => true | _ => false end.

Definition declares_group_meta (exts : list Extension) : bool := existsb is_meta exts.

(** A state's encoding is not empty, so what the founder wrote is what members read. *)
Lemma extensions_read m exts :
  (∀ st b, ser st = Some b → b ≠ []) → extensions m = Some exts →
  from_extensions exts = Some m ∧ declares_group_meta exts = true.
Proof.
  intros Hne He. unfold extensions, meta_encode in He.
  destruct (pser _) as [head|] eqn:Eh; [|done]. cbn in He. destruct m as [t f [st|]]; cbn in *.
  - destruct (ser st) as [rest|] eqn:Es; [|done]. cbn in He. injection He as <-. cbn. unfold meta_decode.
    rewrite (take_pser _ _ _ Eh). cbn. rewrite decide_False by by eapply Hne. by rewrite (deser_ser _ _ Es).
  - injection He as <-. cbn. unfold meta_decode. rewrite <- (app_nil_r head), (take_pser _ _ _ Eh). cbn. done.
Qed.
End meta.

(** ** Groups and commits *)

Definition MAX_GROUP_MEMBERS : Z := 256.

(** What the accessors of [MlsGroupHandle] read: the members' leaves in tree order, the
    extensions of the group context and [branch_id]. *)
Record MlsGroup := mkMls {
  g_id : bytes;
  g_epoch : Z;
  g_branch : bytes;
  g_members : list Leaf;
  g_exts : list Extension;
}.

(** A queued proposal; a removal with the leaf that proposed it, when a member did. *)
Inductive Proposal :=
| PAdd (leaf : Leaf)
| PRemove (removed : Z) (proposer : option Z)
| PGroupContextExtensions (exts : list Extension)
| POther.

(** The new leaf of the committer's update path, and the proposals. *)
Record StagedCommit := mkStaged {
  sg_path : option Leaf;
  sg_proposals : list Proposal;
}.

Record Changed := mkChanged {
  cg_signed : SignedChange;
  cg_before : GroupState;
}.

Inductive CommitOutcome := Refused | Merged (c : option Changed).

(** postcard's encoding of a unit variant: its ordinal *)
Definition action_bytes (a : GroupMemberAction) : bytes :=
  match a with ActRefresh => [0] | ActLeave => [1] end.

Definition group_member_request_signing_input (group who nonce : bytes) (action : GroupMemberAction) : bytes :=
  List.concat [str "promtuz group member request v1"; group; who; nonce; action_bytes action].

(** What a payload is, as far as the rules of a group tell payloads apart. *)
Inductive AppPayload :=
| PlText | PlReply | PlImage | PlAttachment | PlPost | PlEdit | PlRevise
| PlGroupPicture
| PlTitled | PlAdded | PlRemoved | PlLeft (who : bytes) | PlAddedBy | PlRemovedBy
| PlGroupWelcome | PlGroupInvitation | PlGroupRequest | PlGroupAdmins
| PlElse.

Section group.
Context `{Crypto} `{Prefixed MetaHead} `{Codec GroupState} `{Codec GroupChange}.
Implicit Types (g : MlsGroup) (staged : StagedCommit) (signed : SignedChange).

Definition group_change_signing_input (group : bytes) (epoch : Z) (branch by_ : bytes) (change : GroupChange) : option bytes :=
  raw ← ser change; Some (List.concat [str "promtuz-mls-v1 group-change"; group; be_bytes 8 epoch; branch; by_; raw]).

(** [branch_proof::verify_member_request] *)
Definition verify_member_request (gid : bytes) (r : GroupMemberRequest) : bool :=
  verify_ed25519 (mr_who r) (group_member_request_signing_input gid (mr_who r) (mr_nonce r) (mr_action r)) (mr_signature r).

Definition group_meta g : option GroupMeta := from_extensions (g_exts g).
Definition is_group_chat g : bool := declares_group_meta (g_exts g).
Definition member_count g : Z := len (g_members g).
Definition roster g : list bytes := omap (λ l, leaf_ipk l (is_group_chat g)) (g_members g).

(** [MlsGroup::member_at] *)
Definition member_at g (i : Z) : option Leaf := head (filter (λ l, lf_index l = i) (g_members g)).

Definition member_ipk_at g (i : Z) : option bytes := l ← member_at g i; leaf_ipk l (is_group_chat g).

(** [member_index_by_ipk] *)
Definition member_index_by_ipk g (ipk : bytes) : option Z :=
  lf_index <$> head (filter (λ l, leaf_ipk l (is_group_chat g) = Some ipk) (g_members g)).

(** [verify_change] *)
Definition verify_change g signed : verdict unit :=
  ensure (sc_epoch signed =? g_epoch g) "the change was signed for another epoch"%string;;
  ensure (bool_decide (sc_branch signed = g_branch g)) "the change was signed for another branch"%string;;
  input ← ok_or (group_change_signing_input (g_id g) (sc_epoch signed) (sc_branch signed) (sc_by signed) (sc_change signed))
            "the change cannot be encoded"%string;
  ensure (verify_ed25519 (sc_by signed) input (sc_sig signed)) "the change's signature doesn't hold"%string.

(** [state_after_change] *)
Definition state_after_change g (author : bytes) signed : verdict GroupState :=
  verify_change g signed;;
  ensure (match sc_change signed with ChMemberRequest r => verify_member_request (g_id g) r | _ => true end)
    "invalid member resync authorization"%string;;
  meta ← ok_or (group_meta g) "not a group chat"%string;
  match gm_state meta with
  | Some st => apply st (roster g) author signed
  | None =>
      if bool_decide (sc_change signed = ChUpgrade) && bool_decide (sc_by signed = gm_founder meta)
         && bool_decide (author = gm_founder meta)
      then Ok (set_last signed (founded (gm_founder meta)))
      else Err "only the founder converts the group"%string
  end.

Definition only_ours (exts : list Extension) : bool :=
  forallb (λ e, match e with ExtMeta _ | ExtRequiredCapabilities => true | ExtOther _ => false end) exts.

(** The loop over the proposals: whom they add, whom they remove and whether those
    proposed it themselves, and the metadata they set. *)
Definition read_proposal g (acc : list bytes * list (bytes * bool) * option GroupMeta) (p : Proposal) :
    verdict (list bytes * list (bytes * bool) * option GroupMeta) :=
  let '(adds, removes, next) := acc in
  match p with
  | PAdd leaf =>
      who ← ok_or (leaf_ipk leaf (is_group_chat g)) "commit adds a leaf bound to no identity"%string;
      Ok (adds ++ [who], removes, next)
  | PRemove i proposer =>
      who ← ok_or (member_ipk_at g i) "commit removes a leaf bound to no one"%string;
      Ok (adds, removes ++ [(who, bool_decide (proposer = Some i))], next)
  | PGroupContextExtensions exts =>
      next ← ok_or (m ← from_extensions exts; if only_ours exts then Some m else None)
               "commit rewrites the group into something unreadable"%string;
      Ok (adds, removes, Some next)
  | POther => Err "commit carries a proposal kind no member may make"%string
  end.

Fixpoint read_proposals g acc (ps : list Proposal) : verdict (list bytes * list (bytes * bool) * option GroupMeta) :=
  match ps with
  | [] => Ok acc
  | p :: ps => acc ← read_proposal g acc p; read_proposals g acc ps
  end.

(** Whether the one removal is of [who]. *)
Definition removes_only (removes : list (bytes * bool)) (who : bytes) : bool :=
  match removes with [(r, _)] => bool_decide (r = who) | _ => false end.

Definition proposals_match (adds : list bytes) (removes : list (bytes * bool)) signed : bool :=
  match sc_change signed with
  | ChAdd who =>
      let asked := dedup (sorted who) in
      bool_decide (removes = []) && (len asked =? len who) && bool_decide (asked = sorted adds)
  | ChRemove who => bool_decide (adds = []) && removes_only removes who
  | ChLeave _ => bool_decide (adds = []) && removes_only removes (sc_by signed)
  | ChMemberRequest r =>
      (if bool_decide (mr_action r = ActRefresh) then bool_decide (adds = [mr_who r]) else bool_decide (adds = []))
      && removes_only removes (mr_who r)
  | _ => bool_decide (adds = []) && bool_decide (removes = [])
  end.

(** [commit_is_permitted] *)
Definition commit_is_permitted g staged (author : bytes) : verdict (option SignedChange) :=
  let strict := is_group_chat g in
  ensure (match sg_path staged with Some leaf => bool_decide (leaf_ipk leaf strict = Some author) | None => true end)
    "the committer's new leaf is not bound to them"%string;;
  '(adds, removes, next) ← read_proposals g ([], [], None) (sg_proposals staged);
  match group_meta g with
  | None =>
      if is_group_chat g then Err "group rules are not supported"%string
      else if bool_decide (adds = []) && bool_decide (removes = []) && bool_decide (next = None) then Ok None
      else Err "a pair group's membership never changes"%string
  | Some meta =>
      match next with
      | None =>
          match gm_state meta with
          | None =>
              let leaves_only := bool_decide (adds = []) && forallb snd removes in
              if leaves_only || bool_decide (author = gm_founder meta) then Ok None
              else Err "only the founder may change the membership"%string
          | Some st =>
              if negb (bool_decide (adds = [])) || negb (bool_decide (removes = [])) then
                Err "a membership change must say who asked for it"%string
              else if negb (bool_decide (author = committer st)) then Err "only the committer changes the group"%string
              else Ok None
          end
      | Some next =>
          ensure (bool_decide (gm_founder next = gm_founder meta)) "commit renames the group's founder"%string;;
          state_after ← ok_or (gm_state next) "commit drops the group's rules"%string;
          signed ← ok_or (last_change state_after) "commit carries no change"%string;
          expected ← state_after_change g author signed;
          ensure (bool_decide (state_after = expected)) "the group's new rules aren't what the change makes them"%string;;
          ensure (proposals_match adds removes signed) "the commit doesn't do what its change says"%string;;
          Ok (Some signed)
      end
  end.

Definition is_add (p : Proposal) : bool := match p with PAdd _ => true | _ => false end.

(** The verdict of [merge_staged_commit_if_permitted] *)
Definition judge g staged (author : bytes) : verdict (option SignedChange) :=
  if member_count g + len (List.filter is_add (sg_proposals staged)) >? MAX_GROUP_MEMBERS then
    Err "commit would take the group past its member limit"%string
  else commit_is_permitted g staged author.

(** [merge_staged_commit_if_permitted]; [merge] is OpenMLS merging the commit, [None] its
    error. *)
Definition merge_staged_commit_if_permitted (merge : MlsGroup → StagedCommit → option MlsGroup) g staged (author : bytes) :
    option (MlsGroup * CommitOutcome) :=
  match judge g staged author with
  | Ok change =>
      let before := effective <$> group_meta g in
      g' ← merge g staged;
      Some (g', Merged (signed ← change; before ← before; Some (mkChanged signed before)))
  | Err _ => Some (g, Refused)
  end.

(** [application_is_permitted]; [payload] is what [AppPayload::deser] reads. *)
Definition application_is_permitted g (author : bytes) (payload : option AppPayload) : bool :=
  match payload with
  | None => true
  | Some payload =>
      match group_meta g with
      | None =>
          if is_group_chat g then false
          else match payload with
          | PlTitled | PlAdded | PlRemoved | PlLeft _ | PlAddedBy | PlRemovedBy
          | PlGroupPicture | PlGroupRequest | PlGroupWelcome | PlGroupInvitation | PlGroupAdmins => false
          | _ => true
          end
      | Some meta =>
          if negb (bool_decide (author ∈ roster g)) then false
          else
            let st := effective meta in
            match payload with
            | PlPost | PlText | PlReply | PlImage | PlAttachment | PlEdit | PlRevise => may_send st author
            | PlGroupPicture | PlTitled => may_edit st author
            | PlAdded | PlRemoved => bool_decide (gm_state meta = None) && bool_decide (author = gm_founder meta)
            | PlLeft who => bool_decide (gm_state meta = None) && bool_decide (who = author)
            | PlGroupWelcome | PlGroupInvitation => ROLE_ADMIN <=? role st author
            | PlAddedBy | PlRemovedBy | PlGroupAdmins => false
            | _ => true
            end
      end
  end.

(** ** What OpenMLS makes of a commit *)

Definition added_leaves (ps : list Proposal) : list Leaf := omap (λ p, match p with PAdd l => Some l | _ => None end) ps.
Definition removed_leaves (ps : list Proposal) : list Z := omap (λ p, match p with PRemove i _ => Some i | _ => None end) ps.
Definition set_extensions (ps : list Proposal) : option (list Extension) :=
  last (omap (λ p, match p with PGroupContextExtensions e => Some e | _ => None end) ps).

Lemma add_count ps : length (added_leaves ps) = length (List.filter is_add ps).
Proof. induction ps as [|[] ps IH]; cbn; auto. Qed.

(** The committer's leaf, at index [i], takes the update path's credential and key. *)
Definition with_path staged (i : Z) (l : Leaf) : Leaf :=
  match sg_path staged with
  | Some p => if lf_index l =? i then mkLeaf i (lf_credential p) (lf_key p) else l
  | None => l
  end.

(** Merging a commit made by the leaf of [author] (RFC 9420, section 12.4): the next epoch
    of the same group, without the removed leaves, with the added ones at the indices the
    tree gives them, and with the extensions the commit sets. *)
Record merged g staged (author : bytes) (g' : MlsGroup) : Prop := {
  mg_id : g_id g' = g_id g;
  mg_epoch : g_epoch g' = g_epoch g + 1;
  mg_exts : g_exts g' = default (g_exts g) (set_extensions (sg_proposals staged));
  mg_members : ∃ i added,
    member_ipk_at g i = Some author ∧ i ∉ removed_leaves (sg_proposals staged) ∧
    Forall2 (λ l l', lf_credential l' = lf_credential l ∧ lf_key l' = lf_key l) (added_leaves (sg_proposals staged)) added ∧
    g_members g' ≡ₚ (with_path staged i <$> filter (λ l, lf_index l ∉ removed_leaves (sg_proposals staged)) (g_members g)) ++ added;
  mg_indices : NoDup (lf_index <$> g_members g');
}.

(** One leaf per index, one leaf per identity. *)
Definition proper g : Prop := NoDup (lf_index <$> g_members g) ∧ NoDup (roster g).

(** What the loop over the proposals collects. *)
Lemma read_proposals_ok g ps : ∀ adds0 removes0 next0 adds removes next,
  read_proposals g (adds0, removes0, next0) ps = Ok (adds, removes, next) →
  ∃ as' rs', adds = adds0 ++ as' ∧ removes.*1 = removes0.*1 ++ rs' ∧
    (λ l, leaf_ipk l (is_group_chat g)) <$> added_leaves ps = Some <$> as' ∧
    member_ipk_at g <$> removed_leaves ps = Some <$> rs' ∧
    next = match set_extensions ps with Some e => from_extensions e | None => next0 end ∧
    (is_Some (set_extensions ps) → is_Some next).
Proof.
  induction ps as [|p ps IH]; intros adds0 removes0 next0 adds removes next Hr; cbn [read_proposals] in Hr.
  { injection Hr as <- <- <-. exists [], []. rewrite !app_nil_r. cbn. split_and!; [done..|]. by intros []. }
  apply bind_ok in Hr as ([[adds1 removes1] next1] & Hp & Hr).
  apply IH in Hr as (as' & rs' & -> & Hrs & Has & Hrem & Hnext & Hsome).
  destruct p as [l|i pr|e|]; cbn in Hp; try done.
  - apply bind_ok in Hp as (who & Hw & Hp). apply ok_or_ok in Hw. injection Hp as <- <- <-.
    exists (who :: as'), rs'. rewrite <- app_assoc. split_and!; try done. cbn. rewrite Hw. by f_equal.
  - apply bind_ok in Hp as (who & Hw & Hp). apply ok_or_ok in Hw. injection Hp as <- <- <-.
    exists as', (who :: rs'). split_and!; try done; [|cbn; rewrite Hw; by f_equal].
    rewrite Hrs, fmap_app. cbn. by rewrite <- app_assoc.
  - apply bind_ok in Hp as (m & Hm & Hp). apply ok_or_ok in Hm. injection Hp as <- <- <-.
    destruct (from_extensions e) as [m'|] eqn:He; [|done]. cbn in Hm. destruct (only_ours e); [|done]. injection Hm as <-.
    exists as', rs'. unfold set_extensions in *. cbn. rewrite last_cons.
    destruct (last (omap _ ps)) as [e'|] eqn:El; split_and!; eauto.
    cbn. by rewrite Hnext, He.
Qed.

Lemma member_at_in g i l : member_at g i = Some l → l ∈ g_members g ∧ lf_index l = i.
Proof.
  unfold member_at. intros Hl. assert (l ∈ filter (λ l, lf_index l = i) (g_members g)) as Hin.
  { destruct (filter _ _); [done|]. cbn in Hl. injection Hl as ->. by left. }
  apply list_elem_of_filter in Hin. tauto.
Qed.

Lemma leaf_unique g l1 l2 : proper g → l1 ∈ g_members g → l2 ∈ g_members g → lf_index l1 = lf_index l2 → l1 = l2.
Proof.
  intros [Hnd _] H1' H2' He. apply list_elem_of_lookup in H1' as [i Hi]. apply list_elem_of_lookup in H2' as [j Hj].
  assert (i = j) as ->; [|congruence]. eapply NoDup_lookup; [exact Hnd|rewrite list_lookup_fmap, Hi; done|].
  rewrite list_lookup_fmap, Hj. cbn. by rewrite He.
Qed.

Lemma omap_filter {A B} (f : A → option B) (P : A → Prop) (Q : B → Prop) `{!∀ x, Decision (P x)} `{!∀ y, Decision (Q y)} (l : list A) :
  (∀ x y, x ∈ l → f x = Some y → P x ↔ Q y) → omap f (filter P l) = filter Q (omap f l).
Proof.
  induction l as [|x l IH]; intros Hpq; [done|].
  change (omap f (x :: l)) with (match f x with Some y => y :: omap f l | None => omap f l end).
  assert (omap f (filter P l) = filter Q (omap f l)) as IH' by (apply IH; intros; apply Hpq; [by right|done]).
  rewrite filter_cons. destruct (f x) as [y|] eqn:Ef.
  - pose proof (Hpq x y ltac:(by left) Ef) as Hxy. rewrite filter_cons.
    destruct (decide (P x)), (decide (Q y)); cbn; rewrite ?Ef; tauto || by rewrite IH'.
  - destruct (decide (P x)); cbn; by rewrite ?Ef.
Qed.

Lemma omap_after {A B} (f : A → option B) (h : A → A) (l : list A) :
  (∀ x, x ∈ l → f (h x) = f x) → omap f (h <$> l) = omap f l.
Proof.
  induction l as [|x l IH]; intros Hh; [done|]. cbn. rewrite (Hh x) by left. by rewrite IH by (intros; apply Hh; by right).
Qed.

Lemma omap_unique {A B} (f : A → option B) (l : list A) x1 x2 y :
  NoDup (omap f l) → x1 ∈ l → x2 ∈ l → f x1 = Some y → f x2 = Some y → x1 = x2.
Proof.
  induction l as [|x l IH]; intros Hnd H1' H2' Hf1 Hf2; [by apply not_elem_of_nil in H1'|].
  cbn in Hnd. apply elem_of_cons in H1', H2'.
  destruct H1' as [->|H1'], H2' as [->|H2']; [done|rewrite Hf1 in Hnd|rewrite Hf2 in Hnd|].
  1,2: apply NoDup_cons in Hnd as [Hn _]; destruct Hn; apply list_elem_of_omap; eauto.
  apply IH; [|done..]. destruct (f x); [by apply NoDup_cons in Hnd as [_ ?]|done].
Qed.

(** Whom a commit's removals leave and its additions bring. *)
Lemma roster_merged g staged author g' adds removes next :
  proper g → is_group_chat g' = is_group_chat g →
  (∀ leaf, sg_path staged = Some leaf → leaf_ipk leaf (is_group_chat g) = Some author) →
  read_proposals g ([], [], None) (sg_proposals staged) = Ok (adds, removes, next) → merged g staged author g' →
  roster g' ≡ₚ filter (.∉ removes.*1) (roster g) ++ adds.
Proof.
  intros Hp Hchat Hpath Hr Hm. apply read_proposals_ok in Hr as (as' & rs' & -> & -> & Has & Hrs & _ & _). cbn [app].
  destruct (mg_members _ _ _ _ Hm) as (i & added & Hi & Hirem & Hadded & Hmem).
  unfold roster at 1. rewrite Hmem, omap_app, Hchat. f_equiv.
  - unfold roster. rewrite <- (omap_filter _ (λ l, lf_index l ∉ removed_leaves (sg_proposals staged)) (.∉ rs')).
    + apply reflexive_eq, omap_after. intros l Hl. apply list_elem_of_filter in Hl as [_ Hl].
      unfold with_path. destruct (sg_path staged) as [leaf|]; [|done]. destruct (lf_index l =? i) eqn:Ei; [|done]. breflect.
      unfold member_ipk_at in Hi. destruct (member_at g i) as [l'|] eqn:El; [|done]. cbn in Hi.
      apply member_at_in in El as [El Ei']. rewrite (leaf_unique g l l') by (done || lia). rewrite Hi. exact (Hpath leaf eq_refl).
    + intros l k Hl Hk. split; intros Hn Hin; apply Hn; clear Hn.
      * assert (Some k ∈ member_ipk_at g <$> removed_leaves (sg_proposals staged)) as Hin'.
        { rewrite Hrs. by apply list_elem_of_fmap_2. }
        apply list_elem_of_fmap in Hin' as (j & Hj & Hjr). unfold member_ipk_at in Hj. symmetry in Hj.
        destruct (member_at g j) as [l'|] eqn:El; [|done]. cbn in Hj. apply member_at_in in El as [El <-].
        by rewrite (omap_unique _ (g_members g) l l' k (proj2 Hp) Hl El Hk Hj).
      * assert (member_ipk_at g (lf_index l) ∈ member_ipk_at g <$> removed_leaves (sg_proposals staged)) as Hin'.
        { by apply list_elem_of_fmap_2. }
        rewrite Hrs in Hin'. apply list_elem_of_fmap in Hin' as (k' & Hk' & Hin'). unfold member_ipk_at in Hk'.
        destruct (member_at g (lf_index l)) as [l'|] eqn:El; [|done]. cbn in Hk'. apply member_at_in in El as [El Ei].
        rewrite (leaf_unique g l' l Hp El Hl Ei) in Hk'. rewrite Hk in Hk'. by injection Hk' as ->.
  - apply reflexive_eq. revert as' Has. clear -Hadded. induction Hadded as [|l l' ls ls' [Hc Hk] _ IH]; intros as' Has; cbn in Has.
    + by destruct as'.
    + destruct as' as [|a as']; [done|]. cbn in Has. injection Has as Ha Has. cbn.
      assert (leaf_ipk l' (is_group_chat g) = Some a) as Hl' by (rewrite <- Ha; unfold leaf_ipk; by rewrite Hc, Hk).
      rewrite Hl'. f_equal. by apply IH.
Qed.
End group.
