(* ===== verification/GroupHistory.v ===== *)
(** * GroupHistory: the signed history a joiner verifies

    libcore/src/mls/branch_proof.rs.  A history is one signed entry per epoch of the
    branch that led to a group; whoever is invited checks it from the founder on, without
    any earlier key.  Sealing a history under an exported MLS secret ([seal], [open]) is
    not modelled. *)

From S2P Require Import Prelude Verdict Bytes Crypto Keyspace GroupPolicy Groups.
From Stdlib Require String.

(** [GroupBranch] *)
Record GroupBranch := mkBranch {
  gb_branch : bytes;
  gb_rank : Z;
  gb_commit_hash : bytes;
  gb_author : bytes;
  gb_context : bytes;
  gb_signature : bytes;
}.

#[global] Instance GroupBranch_eq_dec : EqDecision GroupBranch.
Proof. solve_decision. Defined.

Record PublicState := mkPublic {
  ps_founder : bytes;
  ps_epoch : Z;
  ps_title : bytes;
  ps_roster : list bytes;
  ps_state : option GroupState;
}.

#[global] Instance PublicState_eq_dec : EqDecision PublicState.
Proof. solve_decision. Defined.

(** The tuple a proof's transcript serializes *)
Definition ProofBody : Type := bytes * Z * bytes * bytes * bytes.

(** [windows(2).all(|p| p[0] < p[1])] *)
Fixpoint increasing (l : list bytes) : bool :=
  match l with
  | x :: (y :: _) as rest => bool_decide (bytes_lt x y) && increasing rest
  | _ => true
  end.

Section history.
Context `{Crypto} `{Prefixed MetaHead} `{Codec GroupState} `{Codec GroupChange} `{Codec PublicState} `{Codec ProofBody}.
(** [Sha256::digest] *)
Context (sha256 : bytes → bytes).
Implicit Types (g : MlsGroup) (p : GroupBranch) (hist : list GroupBranch).

(** [PublicState::read] *)
Definition read_state g : verdict PublicState :=
  meta ← ok_or (group_meta g) "not a group chat"%string;
  Ok (mkPublic (gm_founder meta) (g_epoch g) (gm_title meta) (sorted (roster g)) (gm_state meta)).

(** [PublicState::effective] *)
Definition ps_effective (s : PublicState) : GroupState := effective (mkMeta (ps_title s) (ps_founder s) (ps_state s)).

(** [postcard::from_bytes] of an entry's context *)
Definition context_of p : verdict PublicState := ok_or (deser (gb_context p)) "invalid context"%string.

Definition transcript (gid : bytes) (parent : option bytes) p : verdict bytes :=
  body ← ok_or (ser ((gb_branch p, gb_rank p, gb_commit_hash p, gb_author p, gb_context p) : ProofBody)) "proof does not encode"%string;
  Ok (List.concat [str "promtuz recovery branch proof v1"; gid; default (replicate 32 0) parent; body]).

(** [branch_proof::sign] *)
Definition sign_proof g (parent : option bytes) (rank : Z) (message sk : bytes) : verdict GroupBranch :=
  state ← read_state g;
  context ← ok_or (ser state) "state does not encode"%string;
  let proof sig := mkBranch (g_branch g) rank (sha256 message) (verifying_key sk) context sig in
  input ← transcript (g_id g) parent (proof (replicate 64 0));
  Ok (proof (sign sk input)).

Definition signature (gid : bytes) (parent : option bytes) p : verdict unit :=
  input ← transcript gid parent p;
  ensure (verify_ed25519 (gb_author p) input (gb_signature p)) "invalid signature"%string.

(** The roster a request leaves, unsorted *)
Definition request_roster (gid : bytes) (signed : SignedChange) (roster : list bytes) : verdict (list bytes) :=
  match sc_change signed with
  | ChAdd who => Ok (roster ++ who)
  | ChRemove who => Ok (without who roster)
  | ChLeave _ => Ok (without (sc_by signed) roster)
  | ChMemberRequest r =>
      ensure (verify_member_request gid r) "invalid signature"%string;;
      Ok (if bool_decide (mr_action r = ActLeave) then without (mr_who r) roster else roster)
  | _ => Ok roster
  end.

(** The change the entry [after] makes: the state's last one, when it was signed for
    [before]. *)
Definition request_of (parent : GroupBranch) (before : PublicState) (new_state : GroupState) : option SignedChange :=
  c ← last_change new_state;
  if (sc_epoch c =? ps_epoch before) && bool_decide (sc_branch c = gb_branch parent) then Some c else None.

(** The state a signed request must leave *)
Definition expected_state (before : PublicState) (author : bytes) (signed : SignedChange) : verdict GroupState :=
  match ps_state before with
  | None =>
      ensure (bool_decide (sc_change signed = ChUpgrade) && bool_decide (sc_by signed = ps_founder before)
              && bool_decide (author = ps_founder before)) "invalid legacy upgrade"%string;;
      Ok (set_last signed (founded (ps_founder before)))
  | Some _ => apply (ps_effective before) (ps_roster before) author signed
  end.

Definition transition (gid : bytes) (parent next : GroupBranch) : verdict unit :=
  signature gid (Some (gb_branch parent)) next;;
  before ← context_of parent;
  after ← context_of next;
  ensure (bool_decide (ps_founder after = ps_founder before) && (ps_epoch after =? wrap_add (ps_epoch before) 1))
    "invalid history epoch or founder"%string;;
  ensure ((len (ps_roster after) <=? MAX_GROUP_MEMBERS) && increasing (ps_roster after)) "invalid history roster"%string;;
  let state := ps_effective before in
  ensure ((gb_rank next =? role state (gb_author next)) && bool_decide (gb_author next ∈ ps_roster before))
    "forged committer rank"%string;;
  new_state ← ok_or (ps_state after) "history drops signed rules"%string;
  roster ←
    match request_of parent before new_state with
    | Some signed =>
        input ← ok_or (group_change_signing_input gid (sc_epoch signed) (sc_branch signed) (sc_by signed) (sc_change signed))
                  "change does not encode"%string;
        ensure (verify_ed25519 (sc_by signed) input (sc_sig signed)) "invalid signature"%string;;
        expected ← expected_state before (gb_author next) signed;
        ensure (bool_decide (new_state = expected)) "history rewrites the group's rules"%string;;
        roster ← request_roster gid signed (ps_roster before);
        Ok (sorted roster)
    | None =>
        ensure (bool_decide (gb_author next = committer state) && bool_decide (ps_state after = ps_state before))
          "unsigned history change"%string;;
        if (ps_epoch before =? 0) && bool_decide (ps_roster before = [ps_founder before])
           && bool_decide (gb_author next = ps_founder before)
        then
          ensure (bool_decide (ps_founder before ∈ ps_roster after)) "bootstrap removes founder"%string;;
          Ok (ps_roster after)
        else Ok (ps_roster before)
    end;
  ensure (bool_decide (roster = ps_roster after)) "history's roster is not what its request changes"%string.

(** [matches_group] *)
Definition matches_group p g : verdict unit :=
  ensure (bool_decide (gb_branch p = g_branch g)) "proof identifies another MLS state"%string;;
  state ← context_of p;
  actual ← read_state g;
  ensure (bool_decide (state = actual)) "proof does not describe the authenticated MLS state"%string.

(** The request an entry carries, if any: who asked, and the nonce *)
Definition used_request (parent next : GroupBranch) : verdict (option (bytes * bytes)) :=
  state ← context_of next;
  Ok (st ← ps_state state; signed ← last_change st;
      if bool_decide (sc_branch signed = gb_branch parent) then
        match sc_change signed with ChMemberRequest r => Some (mr_who r, mr_nonce r) | _ => None end
      else None).

(** The loop of [verify_history], over [windows(2)]; [used] are the requests seen. *)
Fixpoint verify_steps (gid : bytes) (used : list (bytes * bytes)) (parent : GroupBranch) (rest : list GroupBranch) : verdict unit :=
  match rest with
  | [] => Ok tt
  | next :: rest =>
      transition gid parent next;;
      request ← used_request parent next;
      match request with
      | Some r =>
          ensure (negb (bool_decide (r ∈ used))) "history replays a member request"%string;;
          verify_steps gid (r :: used) next rest
      | None => verify_steps gid used next rest
      end
  end.

Definition verify_root (gid : bytes) (root : GroupBranch) : verdict unit :=
  signature gid None root;;
  state ← context_of root;
  ensure (bool_decide (gb_author root = ps_founder state) && bool_decide (ps_founder state ∈ ps_roster state))
    "history has no authentic founder"%string;;
  let expected := effective (mkMeta (ps_title state) (ps_founder state)
                    (match ps_state state with Some _ => Some (founded (ps_founder state)) | None => None end)) in
  ensure (bool_decide (ps_effective state = expected)) "bootstrap grants unsigned roles"%string.

Definition verify_history (gid : bytes) hist g : verdict unit :=
  match hist with
  | [] => Err "invalid group history length"%string
  | root :: rest =>
      ensure (len hist <=? 4096) "invalid group history length"%string;;
      verify_root gid root;;
      verify_steps gid [] root rest;;
      matches_group (default root (last hist)) g
  end.

(** [verify_commit] *)
Definition verify_commit (before after : MlsGroup) p (author message : bytes) : verdict unit :=
  ensure (bool_decide (gb_author p = author)) "proof signer is not the MLS committer"%string;;
  ensure (bool_decide (gb_commit_hash p = sha256 message)) "proof is for another commit"%string;;
  state ← read_state before;
  context ← ok_or (ser state) "state does not encode"%string;
  let parent := mkBranch (g_branch before) 0 (replicate 32 0) (replicate 32 0) context (replicate 64 0) in
  transition (g_id before) parent p;;
  matches_group p after.

(** [member_requests]: the requests a history carried, each once *)
Fixpoint collect_requests (acc : list GroupMemberRequest) hist : verdict (list GroupMemberRequest) :=
  match hist with
  | [] => Ok acc
  | p :: hist =>
      state ← context_of p;
      let request := st ← ps_state state; signed ← last_change st;
                     match sc_change signed with ChMemberRequest r => Some r | _ => None end in
      collect_requests (match request with Some r => if bool_decide (r ∈ acc) then acc else acc ++ [r] | None => acc end) hist
  end.

Definition member_requests hist : verdict (list GroupMemberRequest) := collect_requests [] hist.

(** [receive]'s check that a commit carries no request the history already carried *)
Definition ensure_new_request hist (change : option SignedChange) : verdict unit :=
  match sc_change <$> change with
  | Some (ChMemberRequest r) =>
      requests ← member_requests hist;
      ensure (negb (existsb (λ old, bool_decide (mr_who old = mr_who r) && bool_decide (mr_nonce old = mr_nonce r)) requests))
        "replayed member request"%string
  | _ => Ok tt
  end.

(** [change_between] *)
Definition change_between (parent next : GroupBranch) : verdict (option Changed) :=
  before ← context_of parent;
  after ← context_of next;
  Ok (st ← ps_state after; signed ← last_change st;
      if bool_decide (sc_branch signed = gb_branch parent) then Some (mkChanged signed (ps_effective before)) else None).

(** ** What a verified history shows *)

Lemma increasing_sorted l : increasing l = true → StronglySorted bytes_lt l.
Proof.
  intros Hi. apply Sorted_StronglySorted; [intros x y z; apply transitivity|].
  induction l as [|x [|y l] IH]; [by constructor..|]. cbn in Hi. apply andb_true_iff in Hi as [Hx Hi].
  constructor; [by apply IH|]. constructor. by apply bool_decide_eq_true_1 in Hx.
Qed.

(** [signed] was signed by whom it names, for this group and the state [s] at [parent]. *)
Definition change_signed (gid : bytes) (parent : GroupBranch) (s : PublicState) (signed : SignedChange) : Prop :=
  sc_epoch signed = ps_epoch s ∧ sc_branch signed = gb_branch parent ∧
  ∃ input, group_change_signing_input gid (sc_epoch signed) (sc_branch signed) (sc_by signed) (sc_change signed) = Some input ∧
           verify_ed25519 (sc_by signed) input (sc_sig signed) = true.

(** What one entry does to the state before it. *)
Inductive moved (gid : bytes) (p q : GroupBranch) (a b : PublicState) : Prop :=
| moved_signed signed :
    change_signed gid p a signed → last_change (ps_effective b) = Some signed →
    lawful (ps_effective a) (ps_roster a) (gb_author q) signed (ps_effective b) →
    ps_roster b = sorted (roster_after signed (ps_roster a)) → moved gid p q a b
| moved_upgrade signed :
    change_signed gid p a signed → sc_by signed = ps_founder a → gb_author q = ps_founder a →
    ps_effective b = set_last signed (founded (ps_founder a)) → ps_effective a = effective (mkMeta [] (ps_founder a) None) →
    ps_roster b = sorted (ps_roster a) → moved gid p q a b
| moved_idle :
    gb_author q = committer (ps_effective a) → ps_effective b = ps_effective a → ps_roster b = ps_roster a → moved gid p q a b
| moved_bootstrap :
    ps_epoch a = 0 → ps_roster a = [ps_founder a] → gb_author q = ps_founder a → ps_founder a ∈ ps_roster b →
    ps_effective b = ps_effective a → moved gid p q a b.

(** One step of a history between the states [a] and [b] of its entries. *)
Record stepped (gid : bytes) (p q : GroupBranch) (a b : PublicState) : Prop := {
  sp_founder : ps_founder b = ps_founder a;
  sp_epoch : ps_epoch b = wrap_add (ps_epoch a) 1;
  sp_size : len (ps_roster b) <= MAX_GROUP_MEMBERS;
  sp_sorted : StronglySorted bytes_lt (ps_roster b);
  sp_signed : signature gid (Some (gb_branch p)) q = Ok tt;
  sp_author : gb_author q ∈ ps_roster a;
  sp_rank : gb_rank q = role (ps_effective a) (gb_author q);
  sp_moved : moved gid p q a b;
}.

Definition grounded (s : PublicState) : Prop := valid (ps_effective s) (ps_roster s).

Lemma elem_of_sorted x l : x ∈ sorted l ↔ x ∈ l.
Proof. unfold sorted. by rewrite merge_sort_Permutation. Qed.

Lemma valid_roster st r r' : valid st r → (∀ m, m ∈ r → m ∈ r') → valid st r'.
Proof. intros [Ho Hr Hn Hc] Hsub. split; [done| |done|done]. intros m Hm. auto. Qed.

Lemma valid_last st s r : valid (set_last s st) r ↔ valid st r.
Proof. split; intros []; by split. Qed.

Lemma valid_founded founder r : founder ∈ r → valid (founded founder) r.
Proof.
  intros Hin. split; cbn; [done| |apply NoDup_singleton|by left].
  intros m Hm. apply list_elem_of_singleton in Hm. by subst.
Qed.

Lemma request_roster_ok gid signed roster r : request_roster gid signed roster = Ok r → r = roster_after signed roster.
Proof.
  unfold request_roster, roster_after. destruct (sc_change signed); try (by intros [= <-]).
  destruct (verify_member_request _ _); [|done]. by intros [= <-].
Qed.

Lemma expected_moved gid p q a b signed new r :
  grounded a → ps_founder b = ps_founder a → ps_state b = Some new → change_signed gid p a signed →
  last_change new = Some signed →
  expected_state a (gb_author q) signed = Ok new → request_roster gid signed (ps_roster a) = Ok r → ps_roster b = sorted r →
  moved gid p q a b ∧ grounded b.
Proof.
  intros Ha Hf Hb Hs Hl He Hr Hsort. apply request_roster_ok in Hr as ->.
  assert (ps_effective b = new) as Hnew by (unfold ps_effective, effective; cbn; by rewrite Hb).
  unfold expected_state in He. destruct (ps_state a) as [st|] eqn:Ea.
  - pose proof (apply_is_lawful _ _ _ _ Ha _ He) as Hlaw. split.
    + by apply (moved_signed gid p q a b signed); rewrite ?Hnew.
    + unfold grounded. rewrite Hnew, Hsort. apply (valid_roster _ _ _ (lw_valid _ _ _ _ _ Hlaw)).
      intros m. by rewrite elem_of_sorted.
  - apply bind_ok in He as ([] & He & [= <-]). apply ensure_ok in He. breflect.
    assert (roster_after signed (ps_roster a) = ps_roster a) as Hra.
    { unfold roster_after. by match goal with H : sc_change _ = _ |- _ => rewrite H end. }
    rewrite Hra in Hsort. split.
    + apply (moved_upgrade gid p q a b signed); try done. unfold ps_effective, effective. cbn. by rewrite Ea.
    + unfold grounded. rewrite Hnew, Hsort. apply valid_last, valid_founded, elem_of_sorted, (va_ranked _ _ Ha).
      unfold ps_effective, effective. cbn. rewrite Ea. cbn. by left.
Qed.

Lemma unsigned_moved gid p q a b :
  grounded a → ps_founder b = ps_founder a →
  (ensure (bool_decide (gb_author q = committer (ps_effective a)) && bool_decide (ps_state b = ps_state a))
     "unsigned history change"%string;;
   if (ps_epoch a =? 0) && bool_decide (ps_roster a = [ps_founder a]) && bool_decide (gb_author q = ps_founder a)
   then
     ensure (bool_decide (ps_founder a ∈ ps_roster b)) "bootstrap removes founder"%string;;
     Ok (ps_roster b)
   else Ok (ps_roster a)) = Ok (ps_roster b) →
  moved gid p q a b ∧ grounded b.
Proof.
  intros Ha Hf Hr. apply bind_ok in Hr as ([] & Hc & Hr). apply ensure_ok in Hc. breflect.
  assert (ps_effective b = ps_effective a) as He.
  { unfold ps_effective, effective. cbn. rewrite Hf. by match goal with H : ps_state b = _ |- _ => rewrite H end. }
  unfold grounded. rewrite He. destruct (_ && _) eqn:Hboot.
  - breflect. apply bind_ok in Hr as ([] & Hin & _). apply ensure_ok in Hin. breflect.
    split; [by apply moved_bootstrap|]. apply (valid_roster _ _ _ Ha). intros m Hm.
    match goal with H : ps_roster a = _ |- _ => rewrite H in Hm end. apply list_elem_of_singleton in Hm. by subst.
  - injection Hr as Hr. rewrite <- Hr. split; [by apply moved_idle|done].
Qed.

Lemma transition_stepped gid p q a :
  grounded a → context_of p = Ok a → transition gid p q = Ok tt →
  ∃ b, context_of q = Ok b ∧ stepped gid p q a b ∧ grounded b.
Proof.
  intros Ha Hp Ht. unfold transition in Ht. rewrite Hp in Ht. apply bind_ok in Ht as ([] & Hsig & Ht).
  cbn [mbind verdict_bind] in Ht. apply bind_ok in Ht as (b & Hq & Ht). apply bind_ok in Ht as ([] & Hf & Ht).
  apply bind_ok in Ht as ([] & Hsize & Ht). apply bind_ok in Ht as ([] & Hrank & Ht). apply bind_ok in Ht as (new & Hnew & Ht).
  apply bind_ok in Ht as (r & Hr & Hfin). rewrite ensure_ok in *. breflect. apply ok_or_ok in Hnew.
  exists b. split; [done|]. subst r.
  assert (moved gid p q a b ∧ grounded b) as [Hm Hb].
  { unfold request_of in Hr. destruct (last_change new) as [signed|] eqn:Hl; cbn [mbind option_bind] in Hr.
    - destruct (_ && _) eqn:Hreq.
      + breflect. apply bind_ok in Hr as (input & Hin & Hr). apply ok_or_ok in Hin. apply bind_ok in Hr as ([] & Hv & Hr).
        apply bind_ok in Hr as (ex & Hex & Hr). apply bind_ok in Hr as ([] & Heq & Hr). apply bind_ok in Hr as (r & Hr & [= Hs]).
        rewrite ensure_ok in *. breflect. subst ex. apply (expected_moved gid p q a b signed new r); try done.
        unfold change_signed. eauto 6.
      + apply (unsigned_moved gid p q a b); done.
    - apply (unsigned_moved gid p q a b); done. }
  split; [|done]. split; [done|done|done|by apply increasing_sorted|done|done|done|done].
Qed.

Lemma root_grounded gid root :
  verify_root gid root = Ok tt →
  ∃ s, context_of root = Ok s ∧ gb_author root = ps_founder s ∧ signature gid None root = Ok tt ∧ grounded s ∧
       ∀ x, ROLE_MEMBER < role (ps_effective s) x → x = ps_founder s.
Proof.
  intros Hr. apply bind_ok in Hr as ([] & Hsig & Hr). apply bind_ok in Hr as (s & Hs & Hr). apply bind_ok in Hr as ([] & Ha & He).
  rewrite ensure_ok in *. breflect. exists s. split; [done|]. split; [done|]. split; [done|].
  assert (ranked (ps_effective s) = [ps_founder s] ∧ owners (ps_effective s) = [ps_founder s] ∧
          committer (ps_effective s) = ps_founder s) as (Hrk & Ho & Hc).
  { match goal with H : ps_effective s = _ |- _ => rewrite H end. unfold effective, ranked. cbn. by destruct (ps_state s). }
  split.
  - split; rewrite ?Ho, ?Hrk, ?Hc; [done| |apply NoDup_singleton|by left].
    intros m Hm. apply list_elem_of_singleton in Hm. by subst.
  - intros x Hx. unfold role in Hx. rewrite Ho in Hx. case_bool_decide as Hin; [by apply list_elem_of_singleton in Hin|].
    unfold ranked in Hrk. rewrite Ho in Hrk. injection Hrk as Hrk. rewrite Hrk, bool_decide_false in Hx by by apply not_elem_of_nil.
    unfold ROLE_MEMBER in *. lia.
Qed.

(** Consecutive entries of a history, with their states. *)
Definition adjacent hist (k : nat) (p q : GroupBranch) (a b : PublicState) : Prop :=
  hist !! k = Some p ∧ hist !! S k = Some q ∧ context_of p = Ok a ∧ context_of q = Ok b.

Lemma steps_stepped gid rest : ∀ used p a,
  grounded a → context_of p = Ok a → verify_steps gid used p rest = Ok tt →
  (∀ k q s, (p :: rest) !! k = Some q → context_of q = Ok s → grounded s) ∧
  (∀ k q, (p :: rest) !! k = Some q → ∃ s, context_of q = Ok s) ∧
  (∀ k p' q a b, adjacent (p :: rest) k p' q a b → stepped gid p' q a b).
Proof.
  induction rest as [|q rest IH]; intros used p a Ha Hp Hs; cbn [verify_steps] in Hs.
  - split_and!.
    + intros [|k] q s; cbn; [|done]. intros [= <-] Hq. rewrite Hp in Hq. by injection Hq as <-.
    + intros [|k] q; cbn; [|done]. intros [= <-]. eauto.
    + intros [|k] p' q a' b' (_ & Hq & _); done.
  - apply bind_ok in Hs as ([] & Ht & Hs). apply bind_ok in Hs as (req & _ & Hs).
    destruct (transition_stepped gid p q a Ha Hp Ht) as (b & Hq & Hstep & Hb).
    assert (∃ used', verify_steps gid used' q rest = Ok tt) as [used' Hs'].
    { destruct req as [r|]; [|eauto]. apply bind_ok in Hs as ([] & _ & Hs). eauto. }
    destruct (IH used' q b Hb Hq Hs') as (Hg & He & Hst). split_and!.
    + intros [|k] q' s; cbn; [|apply Hg]. intros [= <-] Hs0. rewrite Hp in Hs0. by injection Hs0 as <-.
    + intros [|k] q'; cbn; [|apply He]. intros [= <-]. eauto.
    + intros [|k] p' q' a' b' (H1' & H2' & H3' & H4'); cbn in *.
      * injection H1' as <-. injection H2' as <-. rewrite Hp in H3'. rewrite Hq in H4'. by simplify_eq.
      * by apply (Hst k).
Qed.

(** A change some entry of [hist] made: the states around it and who committed it. *)
Definition granted (gid : bytes) hist (a b : PublicState) (author : bytes) (signed : SignedChange) : Prop :=
  ∃ k p q, adjacent hist k p q a b ∧ gb_author q = author ∧ signature gid (Some (gb_branch p)) q = Ok tt ∧
           change_signed gid p a signed ∧ last_change (ps_effective b) = Some signed.

Lemma role_founded_last signed founder x : ROLE_MEMBER < role (set_last signed (founded founder)) x → x = founder.
Proof.
  unfold role. cbn. case_bool_decide as Hin; [by apply list_elem_of_singleton in Hin|].
  rewrite bool_decide_false by by apply not_elem_of_nil. unfold ROLE_MEMBER. lia.
Qed.

Lemma added_by signed r x : x ∉ r → x ∈ roster_after signed r → ∃ who, sc_change signed = ChAdd who ∧ x ∈ who.
Proof.
  intros Hout Hin. unfold roster_after in Hin. destruct (sc_change signed) as [who|who|su|who to|ru|to| | |rq]; try done.
  - apply elem_of_app in Hin as [?|?]; [done|eauto].
  - by apply elem_of_without in Hin as [_ ?].
  - by apply elem_of_without in Hin as [_ ?].
  - case_bool_decide; [by apply elem_of_without in Hin as [_ ?]|done].
Qed.

Lemma last_lookup_Some {A} (l : list A) : l ≠ [] → ∃ k x, l !! k = Some x ∧ last l = Some x.
Proof.
  intros Hne. destruct (last l) as [x|] eqn:Hl; [|by apply last_None in Hl]. exists (pred (length l)), x. by rewrite <- last_lookup.
Qed.

Section lineage.
Context (gid : bytes) (root : GroupBranch) (rest : list GroupBranch) (s0 : PublicState).
Context (Hroot : context_of root = Ok s0) (Hrank0 : ∀ x, ROLE_MEMBER < role (ps_effective s0) x → x = ps_founder s0).
Context (Hctx : ∀ k q, (root :: rest) !! k = Some q → ∃ s, context_of q = Ok s).
Context (Hstep : ∀ k p q a b, adjacent (root :: rest) k p q a b → stepped gid p q a b).

Lemma previous k q b :
  (root :: rest) !! S k = Some q → context_of q = Ok b → ∃ p a, adjacent (root :: rest) k p q a b.
Proof.
  intros Hq Hb. destruct (lookup_lt_is_Some_2 (root :: rest) k) as [p Hp]; [apply lookup_lt_Some in Hq; lia|].
  destruct (Hctx k p Hp) as [a Ha]. by exists p, a.
Qed.

Lemma founder_kept k : ∀ q s, (root :: rest) !! k = Some q → context_of q = Ok s → ps_founder s = ps_founder s0.
Proof.
  induction k as [|k IH]; intros q s Hq Hs.
  - cbn in Hq. injection Hq as <-. rewrite Hroot in Hs. by injection Hs as <-.
  - destruct (previous k q s Hq Hs) as (p & a & Hadj). rewrite (sp_founder _ _ _ _ _ (Hstep _ _ _ _ _ Hadj)).
    destruct Hadj as (Hp & _ & Ha & _). by apply (IH p).
Qed.

Lemma rank_granted k : ∀ q s x,
  (root :: rest) !! k = Some q → context_of q = Ok s → ROLE_MEMBER < role (ps_effective s) x →
  x = ps_founder s0 ∨
  ∃ a b author signed, granted gid (root :: rest) a b author signed ∧ role (ps_effective s) x <= role (ps_effective b) x ∧
    may_raise (ps_effective a) author signed x (role (ps_effective b) x).
Proof.
  induction k as [|k IH]; intros q s x Hq Hs Hx.
  - cbn in Hq. injection Hq as <-. rewrite Hroot in Hs. injection Hs as <-. left. auto.
  - destruct (previous k q s Hq Hs) as (p & a & Hadj). pose proof (Hstep _ _ _ _ _ Hadj) as Hst.
    destruct Hadj as (Hp & Hq' & Ha & Hb). assert (adjacent (root :: rest) k p q a s) as Hadj by done.
    destruct (decide (role (ps_effective a) x < role (ps_effective s) x)) as [Hlt|Hge].
    + destruct (sp_moved _ _ _ _ _ Hst) as [signed Hcs Hl Hlaw _|signed _ _ _ He _ _|_ He _|_ _ _ _ He].
      * right. exists a, s, (gb_author q), signed. split; [|split; [lia|by apply (lw_raised _ _ _ _ _ Hlaw)]].
        exists k, p, q. split; [done|]. split; [done|]. split; [apply (sp_signed _ _ _ _ _ Hst)|done].
      * left. rewrite He in Hx. rewrite (role_founded_last _ _ _ Hx). by apply (founder_kept k p a).
      * rewrite He in Hlt. lia.
      * rewrite He in Hlt. lia.
    + destruct (IH p a x Hp Ha ltac:(lia)) as [Hx0|(a' & b' & au & sg & Hg & Hle & Hm)]; [by left|].
      right. exists a', b', au, sg. split; [done|]. split; [lia|done].
Qed.

Lemma member_granted k : ∀ q s x,
  (root :: rest) !! k = Some q → context_of q = Ok s → x ∈ ps_roster s →
  x ∈ ps_roster s0 ∨
  (∃ j p q a b, adjacent (root :: rest) j p q a b ∧ ps_roster a = [ps_founder s0] ∧ gb_author q = ps_founder s0 ∧ x ∈ ps_roster b) ∨
  ∃ a b author signed who, granted gid (root :: rest) a b author signed ∧ sc_by signed ∈ ps_roster a ∧
    sc_change signed = ChAdd who ∧ x ∈ who ∧ may_add (ps_effective a) (sc_by signed) = true.
Proof.
  induction k as [|k IH]; intros q s x Hq Hs Hx.
  - cbn in Hq. injection Hq as <-. rewrite Hroot in Hs. injection Hs as <-. by left.
  - destruct (previous k q s Hq Hs) as (p & a & Hadj). pose proof (Hstep _ _ _ _ _ Hadj) as Hst.
    assert (adjacent (root :: rest) k p q a s) as (Hp & _ & Ha & _) by done.
    destruct (decide (x ∈ ps_roster a)) as [Hin|Hout]; [by apply (IH p a)|].
    destruct (sp_moved _ _ _ _ _ Hst) as [signed Hcs Hl Hlaw Hr|signed _ _ _ _ _ Hr|_ _ Hr|_ Hr Hau _ _].
    + rewrite Hr, elem_of_sorted in Hx. right. right.
      pose proof (lw_added _ _ _ _ _ Hlaw x Hout Hx) as Hma. destruct (added_by signed (ps_roster a) x Hout Hx) as (who & Hch & Hw).
      exists a, s, (gb_author q), signed, who. split_and!; [|apply (lw_by _ _ _ _ _ Hlaw)|done..].
      exists k, p, q. split; [done|]. split; [done|]. split; [apply (sp_signed _ _ _ _ _ Hst)|done].
    + by rewrite Hr, elem_of_sorted in Hx.
    + by rewrite Hr in Hx.
    + right. left. exists k, p, q, a, s. rewrite <- (founder_kept k p a Hp Ha). done.
Qed.
End lineage.

End history.
