(* ===== verification/GroupAgreement.v ===== *)
(** * GroupAgreement: what members let in, joiners accept

    The members of a group judge a commit with the group before them
    ([commit_is_permitted]); a joiner judges it from the signed history alone
    ([transition]).  These theorems relate the two judgements. *)

From S2P Require Import Prelude Verdict Bytes Crypto Keyspace GroupPolicy Groups GroupHistory.
From Stdlib Require String.

(** ** Only who is in the roster counts *)

Lemma check_ext st r r' : (∀ x, x ∈ r ↔ x ∈ r') → check st r = check st r'.
Proof.
  intros Hr. unfold check. case_bool_decide; [done|].
  replace (forallb (λ m, bool_decide (m ∈ r')) (ranked st)) with (forallb (λ m, bool_decide (m ∈ r)) (ranked st)); [done|].
  induction (ranked st) as [|x l IH]; [done|]. cbn. rewrite IH. f_equal. by apply bool_decide_ext.
Qed.

Lemma without_ext who r r' : (∀ x, x ∈ r ↔ x ∈ r') → ∀ x, x ∈ without who r ↔ x ∈ without who r'.
Proof. intros Hr x. by rewrite !elem_of_without, Hr. Qed.

Lemma add_all_ext who : ∀ r r', (∀ x, x ∈ r ↔ x ∈ r') →
  match add_all r who, add_all r' who with
  | Some a, Some a' => ∀ x, x ∈ a ↔ x ∈ a'
  | None, None => True
  | _, _ => False
  end.
Proof.
  induction who as [|w who IH]; intros r r' Hr; cbn; [done|].
  rewrite (bool_decide_ext (w ∈ r) (w ∈ r') (Hr w)). case_bool_decide; [done|]. apply IH.
  intros x. by rewrite !elem_of_app, Hr.
Qed.

(** Two verdicts of the same change over rosters with the same members *)
Definition same_verdict (v v' : verdict (GroupState * list bytes)) : Prop :=
  match v, v' with
  | Ok (n, a), Ok (n', a') => n = n' ∧ ∀ x, x ∈ a ↔ x ∈ a'
  | Err e, Err e' => e = e'
  | _, _ => False
  end.

Lemma change_state_ext st r r' author signed :
  (∀ x, x ∈ r ↔ x ∈ r') → same_verdict (change_state st r author signed) (change_state st r' author signed).
Proof.
  intros Hr. unfold change_state.
  assert (∀ who, bool_decide (who ∈ r) = bool_decide (who ∈ r')) as Hin by (intros; by apply bool_decide_ext).
  destruct (sc_change signed) as [who|who|su|who to|ru|to| | |rq]; rewrite <- ?Hin; try done;
    repeat match goal with |- context [if ?b then _ else _] => destruct b; cbn; try done end.
  - pose proof (add_all_ext who r r' Hr). by destruct (add_all r who), (add_all r' who).
  - split; [done|]. by apply without_ext.
  - unfold succeed. case_bool_decide; [|split; [done|]; by apply without_ext]. destruct su as [s|]; [|done].
    rewrite (bool_decide_ext (s ∈ without (sc_by signed) r) _ (without_ext _ _ _ Hr s)).
    destruct (negb _); cbn; [done|]. split; [done|]. by apply without_ext.
  - unfold member_request, depart. repeat case_bool_decide; cbn; (split; [done|]); try done; by apply without_ext.
Qed.

Lemma apply_ext st r r' author signed : (∀ x, x ∈ r ↔ x ∈ r') → apply st r author signed = apply st r' author signed.
Proof.
  intros Hr. unfold apply. rewrite (bool_decide_ext (sc_by signed ∈ r) _ (Hr _)).
  pose proof (change_state_ext st r r' author signed Hr) as Hs. unfold same_verdict in Hs.
  destruct (negb (bool_decide (sc_by signed ∈ r'))); [done|]. destruct (_ && _); [done|].
  destruct (change_state st r author signed) as [[n a]|e], (change_state st r' author signed) as [[n' a']|e']; try done.
  - destruct Hs as [<- Ha]. by rewrite (check_ext _ a a' Ha).
  - by rewrite Hs.
Qed.

(** ** Sorted rosters *)

Lemma sorted_ext l l' : l ≡ₚ l' → sorted l = sorted l'.
Proof.
  intros Hl. apply (StronglySorted_unique bytes_le); [apply StronglySorted_merge_sort; apply _..|].
  unfold sorted. by rewrite !merge_sort_Permutation.
Qed.

Lemma sorted_perm l : sorted l ≡ₚ l.
Proof. apply merge_sort_Permutation. Qed.

Lemma sorted_increasing l : NoDup l → increasing (sorted l) = true.
Proof.
  intros Hnd. rewrite <- sorted_perm in Hnd. assert (StronglySorted bytes_le (sorted l)) as Hs by (apply StronglySorted_merge_sort; apply _).
  induction (sorted l) as [|x [|y k] IH]; [done..|]. apply StronglySorted_inv in Hs as [Hs Hx]. apply NoDup_cons in Hnd as [Hn Hnd].
  change (bool_decide (bytes_lt x y) && increasing (y :: k) = true). rewrite bool_decide_true, IH; [done..|]. apply Forall_cons in Hx as [Hx _].
  apply bytes_le_lteq in Hx as [?| ->]; [done|]. destruct Hn. by left.
Qed.

Lemma dedup_length l : (length (dedup l) <= length l)%nat.
Proof. induction l as [|x [|y l] IH]; cbn in *; [lia..|]. case_bool_decide; cbn in *; lia. Qed.

Lemma dedup_same l : length (dedup l) = length l → dedup l = l.
Proof.
  induction l as [|x [|y l] IH]; [done..|].
  change (dedup (x :: y :: l)) with (if bool_decide (x = y) then dedup (y :: l) else x :: dedup (y :: l)).
  pose proof (dedup_length (y :: l)). case_bool_decide; [cbn [length] in *; lia|]. intros He. f_equal. apply IH.
  change (S (length (dedup (y :: l))) = S (length (y :: l))) in He. lia.
Qed.

(** ** The roster a permitted commit leaves *)

Lemma removes_only_inv removes who : removes_only removes who = true → removes.*1 = [who].
Proof. destruct removes as [|[r b] [|? ?]]; cbn; try done. intros Hr. breflect. by subst. Qed.

Lemma filter_not_in_one who (r : list bytes) : filter (.∉ [who]) r = without who r.
Proof. unfold without. apply list_filter_iff. intros x. rewrite list_elem_of_singleton. done. Qed.

Lemma filter_not_in_nil (r : list bytes) : filter (.∉ []) r = r.
Proof. apply filter_all, Forall_forall. intros x _. apply not_elem_of_nil. Qed.

Lemma without_back who (r : list bytes) : NoDup r → who ∈ r → without who r ++ [who] ≡ₚ r.
Proof.
  intros Hnd Hin. apply list_elem_of_split in Hin as (l1 & l2 & ->). unfold without. rewrite filter_app, filter_cons_False by tauto.
  apply NoDup_app in Hnd as (_ & Hd & Hnd). apply NoDup_cons in Hnd as [Hn _].
  rewrite (filter_all _ l1), (filter_all _ l2).
  - rewrite (Permutation_app_comm _ [who]). cbn. by rewrite <- Permutation_middle.
  - apply Forall_forall. by intros x Hx ->.
  - apply Forall_forall. intros x Hx ->. apply (Hd who Hx). by left.
Qed.

Lemma matched_roster adds removes signed r :
  NoDup r → (∀ w, w ∈ removes.*1 → w ∈ r) → proposals_match adds removes signed = true →
  filter (.∉ removes.*1) r ++ adds ≡ₚ roster_after signed r.
Proof.
  intros Hnd Hin Hm. unfold proposals_match in Hm. unfold roster_after.
  destruct (sc_change signed) as [who|who|su|who to|ru|to| | |rq].
  - breflect. subst removes. cbn [fmap list_fmap]. rewrite filter_not_in_nil. f_equiv.
    match goal with H : len _ = len who |- _ => rename H into Hlen end.
    match goal with H : dedup _ = _ |- _ => rename H into Hd end.
    rewrite (dedup_same (sorted who)) in Hd.
    + by rewrite <- (sorted_perm adds), <- Hd, sorted_perm.
    + unfold len in Hlen. rewrite (Permutation_length (sorted_perm who)). lia.
  - breflect. subst adds. match goal with H : removes_only _ _ = true |- _ => apply removes_only_inv in H as -> end.
    by rewrite app_nil_r, filter_not_in_one.
  - breflect. subst adds. match goal with H : removes_only _ _ = true |- _ => apply removes_only_inv in H as -> end.
    by rewrite app_nil_r, filter_not_in_one.
  - breflect. subst. cbn [fmap list_fmap]. by rewrite app_nil_r, filter_not_in_nil.
  - breflect. subst. cbn [fmap list_fmap]. by rewrite app_nil_r, filter_not_in_nil.
  - breflect. subst. cbn [fmap list_fmap]. by rewrite app_nil_r, filter_not_in_nil.
  - breflect. subst. cbn [fmap list_fmap]. by rewrite app_nil_r, filter_not_in_nil.
  - breflect. subst. cbn [fmap list_fmap]. by rewrite app_nil_r, filter_not_in_nil.
  - apply andb_true_iff in Hm as [Ha Hr]. apply removes_only_inv in Hr. rewrite Hr in *. rewrite filter_not_in_one.
    destruct (mr_action rq) eqn:Eact.
    + rewrite bool_decide_true in Ha by done. rewrite bool_decide_false by done. breflect. subst adds.
      apply without_back; [done|]. apply Hin. by left.
    + rewrite bool_decide_false in Ha by done. rewrite bool_decide_true by done. breflect. subst adds. by rewrite app_nil_r.
Qed.

Lemma roster_after_perm signed r r' : r ≡ₚ r' → roster_after signed r ≡ₚ roster_after signed r'.
Proof.
  intros Hr. unfold roster_after, without. destruct (sc_change signed); try done; rewrite ?Hr; try done.
  case_bool_decide; [|done]. by rewrite Hr.
Qed.

Section agreement.
Context `{Crypto} `{Prefixed MetaHead} `{Codec GroupState} `{Codec GroupChange} `{Codec PublicState} `{Codec ProofBody}.
Context (sha256 : bytes → bytes).
Implicit Types (g : MlsGroup) (staged : StagedCommit) (p : GroupBranch) (hist : list GroupBranch).

Lemma member_ipk_in g i w : member_ipk_at g i = Some w → w ∈ roster g.
Proof.
  unfold member_ipk_at. destruct (member_at g i) as [l|] eqn:El; [|done]. cbn. intros Hw.
  apply member_at_in in El as [El _]. apply list_elem_of_omap. eauto.
Qed.

Lemma author_in g staged author g' : merged g staged author g' → author ∈ roster g.
Proof. intros Hm. destruct (mg_members _ _ _ _ Hm) as (i & _ & Hi & _). by eapply member_ipk_in. Qed.

Lemma from_extensions_declares exts m : from_extensions exts = Some m → declares_group_meta exts = true.
Proof. induction exts as [|[raw| |k] exts IH]; cbn; [done| |by intros ?%IH..]. by destruct (meta_decode raw). Qed.

(** The commit as a whole: what the members read off it, and what merging leaves. *)
Lemma permitted_reads g staged author change g' m :
  group_meta g = Some m → proper g → commit_is_permitted g staged author = Ok change → merged g staged author g' →
  ∃ adds removes next, read_proposals g ([], [], None) (sg_proposals staged) = Ok (adds, removes, next) ∧
    group_meta g' = Some (default m next) ∧
    roster g' ≡ₚ filter (.∉ removes.*1) (roster g) ++ adds ∧ (∀ w, w ∈ removes.*1 → w ∈ roster g).
Proof.
  intros Hmeta Hp Hc Hm. unfold commit_is_permitted in Hc. apply bind_ok in Hc as ([] & Hpath & Hc). apply ensure_ok in Hpath.
  apply bind_ok in Hc as ([[adds removes] next] & Hr & _). exists adds, removes, next. split; [done|].
  pose proof (read_proposals_ok g _ _ _ _ _ _ _ Hr) as (as' & rs' & -> & Hrs & _ & Hrem & Hnext & Hsome).
  assert (group_meta g' = Some (default m next)) as Hmeta'.
  { unfold group_meta. rewrite (mg_exts _ _ _ _ Hm). destruct (set_extensions _) as [e|]; cbn; [|by subst next].
    destruct Hsome as [m' Hm']; [done|]. subst next. by rewrite Hm'. }
  split; [done|]. split.
  - apply (roster_merged g staged author g' _ _ next Hp); [| |done|done].
    + unfold is_group_chat. by rewrite (from_extensions_declares _ _ Hmeta), (from_extensions_declares _ _ Hmeta').
    + intros leaf Hl. rewrite Hl in Hpath. by breflect.
  - intros w Hw. rewrite Hrs in Hw. cbn in Hw. assert (Some w ∈ member_ipk_at g <$> removed_leaves (sg_proposals staged)) as Hin.
    { rewrite Hrem. by apply list_elem_of_fmap_2. }
    apply list_elem_of_fmap in Hin as (i & Hi & _). by eapply member_ipk_in.
Qed.

Lemma permitted_change g staged author signed g' m :
  group_meta g = Some m → proper g → commit_is_permitted g staged author = Ok (Some signed) → merged g staged author g' →
  ∃ m' st', group_meta g' = Some m' ∧ gm_founder m' = gm_founder m ∧ gm_state m' = Some st' ∧ last_change st' = Some signed ∧
    state_after_change g author signed = Ok st' ∧ roster g' ≡ₚ roster_after signed (roster g).
Proof.
  intros Hmeta Hp Hc Hm. destruct (permitted_reads g staged author _ g' m Hmeta Hp Hc Hm) as (adds & removes & next & Hr & Hmeta' & Hros & Hin).
  unfold commit_is_permitted in Hc. apply bind_ok in Hc as ([] & _ & Hc). rewrite Hr in Hc. cbn [mbind verdict_bind] in Hc.
  rewrite Hmeta in Hc. destruct next as [next|]; cbn in Hmeta'.
  2: { destruct (gm_state m); [destruct (_ || _); [done|]; by destruct (negb _)|by destruct (_ || _)]. }
  apply bind_ok in Hc as ([] & Hf & Hc). apply bind_ok in Hc as (st' & Hst & Hc). apply bind_ok in Hc as (sg & Hsg & Hc).
  apply bind_ok in Hc as (ex & Hex & Hc). apply bind_ok in Hc as ([] & Heq & Hc). apply bind_ok in Hc as ([] & Hmatch & [= ->]).
  rewrite ?ensure_ok, ?ok_or_ok in *. breflect. subst ex. exists next, st'. split_and!; try done.
  rewrite Hros. apply matched_roster; [apply Hp|done|done].
Qed.

Lemma permitted_idle g staged author g' m st :
  group_meta g = Some m → gm_state m = Some st → proper g → commit_is_permitted g staged author = Ok None → merged g staged author g' →
  group_meta g' = Some m ∧ roster g' ≡ₚ roster g ∧ author = committer st.
Proof.
  intros Hmeta Hst Hp Hc Hm. destruct (permitted_reads g staged author _ g' m Hmeta Hp Hc Hm) as (adds & removes & next & Hr & Hmeta' & Hros & _).
  unfold commit_is_permitted in Hc. apply bind_ok in Hc as ([] & _ & Hc). rewrite Hr in Hc. cbn [mbind verdict_bind] in Hc.
  rewrite Hmeta, Hst in Hc. destruct next as [next|].
  { apply bind_ok in Hc as ([] & _ & Hc). apply bind_ok in Hc as (? & _ & Hc). apply bind_ok in Hc as (? & _ & Hc).
    apply bind_ok in Hc as (? & _ & Hc). apply bind_ok in Hc as ([] & _ & Hc). by apply bind_ok in Hc as ([] & _ & Hc). }
  destruct (_ || _) eqn:Hne in Hc; [done|]. destruct (negb _) eqn:Hcm in Hc; [done|]. breflect. subst.
  cbn [fmap list_fmap] in Hros. rewrite filter_not_in_nil, app_nil_r in Hros. done.
Qed.

(** ** Signed entries *)

Lemma sign_proof_ok g parent rank message sk p :
  sign_proof sha256 g parent rank message sk = Ok p →
  ∃ s, read_state g = Ok s ∧ context_of p = Ok s ∧ gb_branch p = g_branch g ∧ gb_rank p = rank ∧
       gb_commit_hash p = sha256 message ∧ gb_author p = verifying_key sk ∧ signature (g_id g) parent p = Ok tt.
Proof.
  unfold sign_proof. intros Hs. apply bind_ok in Hs as (s & Hr & Hs). apply bind_ok in Hs as (raw & Hraw & Hs). apply ok_or_ok in Hraw.
  apply bind_ok in Hs as (input & Hin & [= <-]). exists s. split_and!; try done.
  - unfold context_of. cbn. by rewrite (deser_ser _ _ Hraw).
  - unfold signature. unfold transcript in *. cbn in *. rewrite Hin. cbn. by rewrite verify_ed25519_sign.
Qed.

(** The last change a group's state records was made in an earlier epoch, on a branch of
    the group's history. *)
Definition settled hist g : Prop :=
  ∀ m st c, group_meta g = Some m → gm_state m = Some st → last_change st = Some c →
    sc_epoch c < g_epoch g ∧ sc_branch c ≠ g_branch g ∧ sc_branch c ∈ (gb_branch <$> hist).

Lemma roster_size g : len (roster g) <= member_count g.
Proof. unfold len, member_count, len, roster. induction (g_members g) as [|l ms IH]; cbn; [done|]. destruct (leaf_ipk l _); cbn; lia. Qed.

Lemma merged_size g staged author g' :
  merged g staged author g' → member_count g' <= member_count g + len (List.filter is_add (sg_proposals staged)).
Proof.
  intros Hm. destruct (mg_members _ _ _ _ Hm) as (i & added & _ & _ & Hadd & Hmem). unfold member_count, len.
  rewrite (Permutation_length Hmem), length_app, length_fmap, <- (Forall2_length _ _ _ Hadd), add_count.
  pose proof (length_filter (λ l, lf_index l ∉ removed_leaves (sg_proposals staged)) (g_members g)). lia.
Qed.

Lemma roster_after_NoDup st r author signed next :
  apply st r author signed = Ok next → NoDup r → NoDup (roster_after signed r).
Proof.
  intros Ha Hnd. unfold apply in Ha. destruct (negb _); [done|]. destruct (_ && _); [done|].
  unfold roster_after, without. destruct (change_state st r author signed) as [[n af]|] eqn:Hc; [|done].
  unfold change_state in Hc. destruct (sc_change signed) as [who|who|su|who to|ru|to| | |rq]; try done.
  - destruct (negb _); [done|]. case_bool_decide; [done|]. destruct (add_all r who) eqn:Hadd; [|done].
    apply add_all_ok in Hadd as (_ & Hw & Hout). apply NoDup_app. split_and!; [done| |done]. intros x Hx Hin. by apply (Hout x).
  - by apply NoDup_filter.
  - by apply NoDup_filter.
  - destruct (bool_decide (mr_action rq = ActLeave)); [by apply NoDup_filter|done].
Qed.

Lemma state_after_inv g author signed st' m :
  group_meta g = Some m → state_after_change g author signed = Ok st' →
  sc_epoch signed = g_epoch g ∧ sc_branch signed = g_branch g ∧
  (∃ input, group_change_signing_input (g_id g) (sc_epoch signed) (sc_branch signed) (sc_by signed) (sc_change signed) = Some input ∧
            verify_ed25519 (sc_by signed) input (sc_sig signed) = true) ∧
  (∀ r, sc_change signed = ChMemberRequest r → verify_member_request (g_id g) r = true) ∧
  match gm_state m with
  | Some st => apply st (roster g) author signed = Ok st'
  | None => sc_change signed = ChUpgrade ∧ sc_by signed = gm_founder m ∧ author = gm_founder m ∧
            st' = set_last signed (founded (gm_founder m))
  end.
Proof.
  intros Hmeta Hs. apply bind_ok in Hs as ([] & Hv & Hs). apply bind_ok in Hs as ([] & Hr & Hs). rewrite Hmeta in Hs.
  cbn [ok_or mbind verdict_bind] in Hs. apply bind_ok in Hv as ([] & He & Hv). apply bind_ok in Hv as ([] & Hb & Hv).
  apply bind_ok in Hv as (input & Hin & Hv). rewrite ?ensure_ok, ?ok_or_ok in *. breflect. split_and!; [done|done|eauto| |].
  - intros r Hch. by rewrite Hch in Hr.
  - destruct (gm_state m); [done|]. destruct (_ && _) eqn:Hu; [|done]. breflect. by injection Hs as <-.
Qed.

Lemma state_after_NoDup g author signed st' m :
  group_meta g = Some m → state_after_change g author signed = Ok st' → NoDup (roster g) → NoDup (roster_after signed (roster g)).
Proof.
  intros Hmeta Hs Hnd. apply (state_after_inv _ _ _ _ _ Hmeta) in Hs as (_ & _ & _ & _ & Hs). destruct (gm_state m).
  - by eapply roster_after_NoDup.
  - destruct Hs as (Hch & _). unfold roster_after. by rewrite Hch.
Qed.

(** The last check of [transition]: what makes an entry follow its parent. *)
Lemma transition_intro gid p0 p a b new :
  signature gid (Some (gb_branch p0)) p = Ok tt → context_of p0 = Ok a → context_of p = Ok b →
  ps_founder b = ps_founder a → ps_epoch b = wrap_add (ps_epoch a) 1 →
  len (ps_roster b) <= MAX_GROUP_MEMBERS → increasing (ps_roster b) = true →
  gb_rank p = role (ps_effective a) (gb_author p) → gb_author p ∈ ps_roster a → ps_state b = Some new →
  (match request_of p0 a new with
   | Some signed =>
       (∃ input, group_change_signing_input gid (sc_epoch signed) (sc_branch signed) (sc_by signed) (sc_change signed) = Some input ∧
                 verify_ed25519 (sc_by signed) input (sc_sig signed) = true) ∧
       expected_state a (gb_author p) signed = Ok new ∧
       (∀ r, sc_change signed = ChMemberRequest r → verify_member_request gid r = true) ∧
       sorted (roster_after signed (ps_roster a)) = ps_roster b
   | None => gb_author p = committer (ps_effective a) ∧ ps_state b = ps_state a ∧ ps_roster a = ps_roster b
   end) → transition gid p0 p = Ok tt.
Proof.
  intros Hsig Hp0 Hp Hf He Hlen Hinc Hrank Hau Hnew Hreq. unfold transition. rewrite Hsig, Hp0.
  cbn [mbind verdict_bind ok_or]. rewrite Hp. cbn [mbind verdict_bind]. rewrite Hnew, Hf, He, Hrank. cbn [ok_or].
  rewrite Z.eqb_refl, (bool_decide_true (ps_founder a = ps_founder a)) by done. cbn [andb ensure mbind verdict_bind].
  rewrite (proj2 (Z.leb_le _ _) Hlen), Hinc. cbn [andb ensure mbind verdict_bind].
  rewrite Z.eqb_refl, (bool_decide_true (gb_author p ∈ ps_roster a)) by done. cbn [andb ensure mbind verdict_bind].
  destruct (request_of p0 a new) as [signed|].
  - destruct Hreq as ((input & -> & Hv) & Hex & Hmr & Hr). cbn [ok_or mbind verdict_bind]. rewrite Hv. cbn [ensure].
    rewrite Hex. cbn [mbind verdict_bind]. rewrite bool_decide_true by done. cbn [ensure mbind verdict_bind].
    assert (request_roster gid signed (ps_roster a) = Ok (roster_after signed (ps_roster a))) as ->.
    { unfold request_roster, roster_after. destruct (sc_change signed); try done. by rewrite (Hmr _ eq_refl). }
    cbn [mbind verdict_bind]. by rewrite Hr, bool_decide_true.
  - destruct Hreq as (Hc & Hst & Hr). rewrite Hnew in Hst.
    rewrite (bool_decide_true (gb_author p = committer _)), (bool_decide_true (Some new = ps_state a)) by done.
    cbn [andb ensure mbind verdict_bind]. rewrite Hr. destruct ((_ =? _) && _ && _) eqn:Hb; [|cbn [mbind verdict_bind]; by rewrite bool_decide_true].
    breflect. rewrite (bool_decide_true (ps_founder a ∈ _)); [cbn [ensure mbind verdict_bind]; by rewrite bool_decide_true|].
    match goal with H : ps_roster b = _ |- _ => rewrite H end. by left.
Qed.

(** The public state of a group, from its metadata. *)
Definition public_of g (m : GroupMeta) : PublicState :=
  mkPublic (gm_founder m) (g_epoch g) (gm_title m) (sorted (roster g)) (gm_state m).

Lemma read_state_ok g m : group_meta g = Some m → read_state g = Ok (public_of g m).
Proof. intros Hm. unfold read_state. by rewrite Hm. Qed.

Lemma effective_public g m : ps_effective (public_of g m) = effective m.
Proof. by destruct m. Qed.

(** What a permitted commit leaves, in the terms of the history it extends. *)
Lemma permitted_next hist g staged author change g' m p0 :
  group_meta g = Some m → (change = None → gm_state m ≠ None) → proper g → settled hist g → gb_branch p0 = g_branch g →
  commit_is_permitted g staged author = Ok change → merged g staged author g' →
  ∃ m' st', group_meta g' = Some m' ∧ gm_founder m' = gm_founder m ∧ gm_state m' = Some st' ∧ NoDup (roster g') ∧
    (∀ c, last_change st' = Some c → sc_epoch c < g_epoch g' ∧ (sc_branch c = g_branch g ∨ sc_branch c ∈ (gb_branch <$> hist))) ∧
    request_of p0 (public_of g m) st' = change ∧
    match change with
    | Some signed => state_after_change g author signed = Ok st' ∧ roster g' ≡ₚ roster_after signed (roster g)
    | None => author = committer (effective m) ∧ gm_state m' = gm_state m ∧ roster g' ≡ₚ roster g
    end.
Proof.
  intros Hmeta Hleg Hp Hset Hb0 Hj Hm. rewrite (mg_epoch _ _ _ _ Hm). destruct change as [signed|].
  - destruct (permitted_change _ _ _ _ _ _ Hmeta Hp Hj Hm) as (m' & st' & Hm' & Hf & Hst' & Hl & Hs & Hr).
    pose proof (state_after_inv _ _ _ _ _ Hmeta Hs) as (He & Hbe & _).
    exists m', st'. unfold request_of. rewrite Hl. cbn [mbind option_bind ps_epoch public_of].
    rewrite Hb0, He, Z.eqb_refl, bool_decide_true by done. cbn [andb]. split_and!; try done.
    + rewrite Hr. apply (state_after_NoDup _ _ _ _ _ Hmeta Hs), Hp.
    + intros c [= <-]. split; [lia|by left].
  - destruct (gm_state m) as [st|] eqn:Hst; [|by destruct Hleg].
    destruct (permitted_idle _ _ _ _ _ _ Hmeta Hst Hp Hj Hm) as (Hm' & Hr & Hc).
    exists m, st. pose proof (λ c, Hset m st c Hmeta Hst) as Hold. split_and!; try done.
    + rewrite Hr. apply Hp.
    + intros c Hlc. destruct (Hold c Hlc) as (? & _ & ?). split; [lia|by right].
    + unfold request_of. destruct (last_change st) as [c|] eqn:Hl; cbn [mbind option_bind ps_epoch public_of]; [|done].
      destruct (Hold c eq_refl) as [? _]. by rewrite (proj2 (Z.eqb_neq _ _)) by lia.
    + unfold effective. by rewrite Hst.
Qed.

Lemma elem_of_sorted_iff (r : list bytes) x : x ∈ r ↔ x ∈ sorted r.
Proof. by rewrite elem_of_sorted. Qed.

Lemma expected_public g m author signed st' :
  group_meta g = Some m → state_after_change g author signed = Ok st' → expected_state (public_of g m) author signed = Ok st'.
Proof.
  intros Hmeta Hs. apply (state_after_inv _ _ _ _ _ Hmeta) in Hs as (_ & _ & _ & _ & Hs). unfold expected_state. cbn [ps_state public_of].
  destruct (gm_state m) as [st|] eqn:Hst.
  - rewrite effective_public. unfold effective. rewrite Hst. cbn [ps_roster public_of].
    by rewrite <- (apply_ext st (roster g) (sorted (roster g)) author signed (elem_of_sorted_iff _)).
  - destruct Hs as (-> & -> & -> & ->). cbn. by rewrite !bool_decide_true.
Qed.

(** An entry for a permitted commit is one a history may go on with. *)
Lemma permitted_transition hist g staged author change g' m p0 p sk message :
  group_meta g = Some m → (change = None → gm_state m ≠ None) → proper g → settled hist g → 0 <= g_epoch g < u64_max →
  judge g staged author = Ok change → merged g staged author g' → author = verifying_key sk →
  context_of p0 = Ok (public_of g m) → gb_branch p0 = g_branch g →
  sign_proof sha256 g' (Some (g_branch g)) (role (effective m) author) message sk = Ok p →
  transition (g_id g) p0 p = Ok tt ∧ NoDup (roster g') ∧
  ∃ m' st', group_meta g' = Some m' ∧ gm_state m' = Some st' ∧ context_of p = Ok (public_of g' m') ∧
    (∀ c, last_change st' = Some c → sc_epoch c < g_epoch g' ∧ (sc_branch c = g_branch g ∨ sc_branch c ∈ (gb_branch <$> hist))) ∧
    request_of p0 (public_of g m) st' = change ∧ (change = None → gm_state m = Some st').
Proof.
  intros Hmeta Hleg Hp Hset Hepoch Hj Hm -> Hp0 Hb0 Hsp.
  unfold judge in Hj. destruct (_ >? _) eqn:Hsize; [done|]. breflect.
  apply sign_proof_ok in Hsp as (s' & Hr' & Hc' & Hbr & Hrank & Hhash & Hau & Hsig). rewrite (mg_id _ _ _ _ Hm), <- Hb0 in Hsig.
  pose proof (author_in _ _ _ _ Hm) as Hin.
  destruct (permitted_next hist g staged _ change g' m p0 Hmeta Hleg Hp Hset Hb0 Hj Hm) as (m' & st' & Hmeta' & Hf & Hst' & Hnd & Hlt & Hreq & Hch).
  rewrite (read_state_ok g' m' Hmeta') in Hr'. injection Hr' as <-. split; [|split; [done|]].
  2: { exists m', st'. split_and!; try done. intros ->. destruct Hch as (_ & <- & _). done. }
  apply (transition_intro _ p0 p (public_of g m) (public_of g' m') st'); try done; cbn [public_of ps_epoch ps_roster ps_state].
  - rewrite (mg_epoch _ _ _ _ Hm), wrap_add_small; [done|]. lia.
  - unfold len. rewrite (Permutation_length (sorted_perm _)). pose proof (roster_size g'). pose proof (merged_size _ _ _ _ Hm).
    unfold len in *. lia.
  - by apply sorted_increasing.
  - by rewrite effective_public, Hau.
  - by rewrite Hau, elem_of_sorted.
  - rewrite Hreq. destruct change as [signed|].
    + destruct Hch as [Hs Hr]. pose proof (state_after_inv _ _ _ _ _ Hmeta Hs) as (_ & _ & Hv & Hmr & _).
      split; [done|]. split; [by rewrite Hau; apply expected_public|]. split; [done|].
      apply sorted_ext. rewrite Hr. apply roster_after_perm, sorted_perm.
    + destruct Hch as (Hc & Hst & Hr). rewrite effective_public, Hau. split_and!; [done|done|]. symmetry. by apply sorted_ext.
Qed.

(** ** Longer histories *)

Lemma steps_snoc gid q req rest : ∀ used p,
  verify_steps gid used p rest = Ok tt → transition gid (default p (last rest)) q = Ok tt →
  used_request (default p (last rest)) q = Ok req →
  (∀ key, req = Some key → key ∉ used ∧
     ∀ k a b, (p :: rest) !! k = Some a → (p :: rest) !! S k = Some b → used_request a b ≠ Ok (Some key)) →
  verify_steps gid used p (rest ++ [q]) = Ok tt.
Proof.
  induction rest as [|x rest IH]; intros used p Hs Ht Hu Hkey; cbn [app verify_steps].
  - cbn in Ht, Hu. rewrite Ht, Hu. cbn [mbind verdict_bind]. destruct req as [key|]; [|done].
    destruct (Hkey key eq_refl) as [Hn _]. by rewrite bool_decide_false.
  - cbn [verify_steps] in Hs. apply bind_ok in Hs as ([] & Ht' & Hs). rewrite Ht'. cbn [mbind verdict_bind].
    apply bind_ok in Hs as (req' & Hu' & Hs). rewrite Hu'. cbn [mbind verdict_bind].
    rewrite last_cons in Ht, Hu. replace (default p (match last rest with Some y => Some y | None => Some x end))
      with (default x (last rest)) in * by by destruct (last rest).
    destruct req' as [key'|].
    + apply bind_ok in Hs as ([] & Hn & Hs). rewrite Hn. cbn [mbind verdict_bind]. apply IH; [done..|].
      intros key ->. destruct (Hkey key eq_refl) as [Hn' Hrest]. split.
      * rewrite elem_of_cons. intros [->|?]; [|done]. by apply (Hrest 0%nat p x).
      * intros k a b Ha Hb. by apply (Hrest (S k)).
    + apply IH; [done..|]. intros key ->. destruct (Hkey key eq_refl) as [Hn' Hrest]. split; [done|].
      intros k a b Ha Hb. by apply (Hrest (S k)).
Qed.

Lemma collect_in hist : ∀ acc rs, collect_requests acc hist = Ok rs →
  (∀ r, r ∈ acc → r ∈ rs) ∧
  ∀ q s st sg r, q ∈ hist → context_of q = Ok s → ps_state s = Some st → last_change st = Some sg → sc_change sg = ChMemberRequest r → r ∈ rs.
Proof.
  induction hist as [|q hist IH]; intros acc rs Hc; cbn [collect_requests] in Hc.
  - injection Hc as <-. split; [done|]. intros ? ? ? ? ? Hq. by apply not_elem_of_nil in Hq.
  - apply bind_ok in Hc as (s0 & Hs0 & Hc). cbn zeta in Hc. apply IH in Hc as [Hacc Hin]. split.
    + intros r Hr. apply Hacc. destruct (_ ≫= _) as [r'|]; [|done]. case_bool_decide; [done|]. apply elem_of_app. by left.
    + intros q' s st sg r Hq Hs Hst Hsg Hr. apply elem_of_cons in Hq as [->|Hq]; [|by apply (Hin q' s st sg)].
      rewrite Hs0 in Hs. injection Hs as <-. apply Hacc. rewrite Hst. cbn. rewrite Hsg. cbn. rewrite Hr.
      case_bool_decide; [done|]. apply elem_of_app. right. by apply list_elem_of_singleton.
Qed.

Lemma used_request_in hist a b key rs :
  b ∈ hist → used_request a b = Ok (Some key) → member_requests hist = Ok rs → ∃ r, r ∈ rs ∧ (mr_who r, mr_nonce r) = key.
Proof.
  intros Hb Hu Hrs. apply bind_ok in Hu as (s & Hs & [= Hu]). destruct (ps_state s) as [st|] eqn:Hst; [|done]. cbn in Hu.
  destruct (last_change st) as [sg|] eqn:Hsg; [|done]. cbn in Hu. case_bool_decide; [|done].
  destruct (sc_change sg) eqn:Hch; try done. injection Hu as Hu. apply collect_in in Hrs as [_ Hin]. eauto 10.
Qed.

Lemma verify_history_snoc gid hist g p g' q s :
  verify_history gid hist g = Ok tt → len hist < 4096 → last hist = Some q → transition gid q p = Ok tt → context_of p = Ok s →
  (∀ st sg, ps_state s = Some st → last_change st = Some sg → sc_branch sg = gb_branch q → ensure_new_request hist (Some sg) = Ok tt) →
  matches_group p g' = Ok tt → verify_history gid (hist ++ [p]) g' = Ok tt.
Proof.
  intros Hv Hlen Hq Ht Hcp Hnew Hm. destruct hist as [|root rest]; [done|]. cbn [verify_history app] in *.
  apply bind_ok in Hv as ([] & _ & Hv). apply bind_ok in Hv as ([] & Hroot & Hv). apply bind_ok in Hv as ([] & Hs & _).
  change (root :: rest ++ [p]) with ((root :: rest) ++ [p]). rewrite (proj2 (Z.leb_le _ _)) by (rewrite len_app, (len_cons p), len_nil; lia).
  cbn [ensure mbind verdict_bind]. rewrite Hroot. cbn [mbind verdict_bind]. rewrite last_snoc. cbn [default].
  assert (default root (last rest) = q) as Hlast by (rewrite last_cons in Hq; destruct (last rest); cbn in *; congruence).
  rewrite (steps_snoc gid p (st ← ps_state s; signed ← last_change st;
      if bool_decide (sc_branch signed = gb_branch q) then
        match sc_change signed with ChMemberRequest r => Some (mr_who r, mr_nonce r) | _ => None end
      else None) rest [] root Hs); [done| | |]; rewrite ?Hlast; [done| |].
  - unfold used_request. by rewrite Hcp.
  - intros key Hkey. split; [apply not_elem_of_nil|]. intros k a b Ha Hb Hu.
    destruct (ps_state s) as [st|] eqn:Hst; [|done]. cbn in Hkey. destruct (last_change st) as [sg|] eqn:Hsg; [|done]. cbn in Hkey.
    case_bool_decide as Hbr; [|done]. destruct (sc_change sg) as [| | | | | | | |r] eqn:Hch; try done. injection Hkey as <-.
    specialize (Hnew st sg eq_refl Hsg Hbr). unfold ensure_new_request in Hnew. cbn in Hnew. rewrite Hch in Hnew.
    apply bind_ok in Hnew as (rs & Hrs & Hnew). apply ensure_ok in Hnew. breflect.
    apply list_elem_of_lookup_2 in Hb. destruct (used_request_in _ a b _ rs Hb Hu Hrs) as (r' & Hin & [= Hw Hn]).
    apply not_true_iff_false in Hnew. destruct Hnew. apply existsb_exists. exists r'. split; [by apply list_elem_of_In|].
    by rewrite !bool_decide_true.
Qed.

Lemma history_last gid hist g m :
  verify_history gid hist g = Ok tt → group_meta g = Some m →
  ∃ q, last hist = Some q ∧ context_of q = Ok (public_of g m) ∧ gb_branch q = g_branch g.
Proof.
  intros Hv Hmeta. destruct hist as [|root rest]; [done|]. cbn [verify_history] in Hv.
  apply bind_ok in Hv as ([] & _ & Hv). apply bind_ok in Hv as ([] & _ & Hv). apply bind_ok in Hv as ([] & _ & Hv).
  destruct (last_lookup_Some (root :: rest)) as (k & q & _ & Hl); [done|]. rewrite Hl in Hv. cbn [default] in Hv.
  apply bind_ok in Hv as ([] & Hb & Hv). apply bind_ok in Hv as (s & Hs & Hv). rewrite (read_state_ok g m Hmeta) in Hv.
  cbn [mbind verdict_bind] in Hv. rewrite ensure_ok in *. breflect. exists q. by subst s.
Qed.

(** The request an entry carries is the change the members judged, never an old one. *)
Lemma carried_new hist g m m' g' st' change q :
  settled hist g → group_meta g = Some m → gm_state m' = Some st' → gb_branch q = g_branch g →
  request_of q (public_of g m) st' = change → (change = None → gm_state m = Some st') → ensure_new_request hist change = Ok tt →
  ∀ st sg, ps_state (public_of g' m') = Some st → last_change st = Some sg → sc_branch sg = gb_branch q →
    ensure_new_request hist (Some sg) = Ok tt.
Proof.
  intros Hset Hmeta Hst' Hbq Hreq Hsame Hnew st sg Hst Hsg Hbr. cbn in Hst. rewrite Hst' in Hst. injection Hst as <-.
  destruct change as [signed|].
  - unfold request_of in Hreq. rewrite Hsg in Hreq. cbn [mbind option_bind] in Hreq. destruct (_ && _); [|done]. by injection Hreq as ->.
  - destruct (Hset m st' sg Hmeta (Hsame eq_refl) Hsg) as (_ & Hne & _). rewrite Hbr, Hbq in Hne. done.
Qed.

(** On a branch the history does not have yet, the change made last is an older one again. *)
Lemma settled_next hist p g' q m' st' :
  last hist = Some q → group_meta g' = Some m' → gm_state m' = Some st' →
  (∀ c, last_change st' = Some c → sc_epoch c < g_epoch g' ∧ (sc_branch c = gb_branch q ∨ sc_branch c ∈ (gb_branch <$> hist))) →
  g_branch g' ∉ (gb_branch <$> hist) → settled (hist ++ [p]) g'.
Proof.
  intros Hlast Hmeta' Hst' Hlt Hfresh m2 st2 c Hm2 Hst2 Hl2. rewrite Hmeta' in Hm2. injection Hm2 as <-. rewrite Hst' in Hst2. injection Hst2 as <-.
  destruct (Hlt c Hl2) as [He Hb]. assert (sc_branch c ∈ (gb_branch <$> hist)) as Hc.
  { destruct Hb as [-> |]; [|done]. apply list_elem_of_fmap_2. rewrite last_lookup in Hlast. by eapply list_elem_of_lookup_2. }
  split; [done|]. split; [by intros Heq; rewrite Heq in Hc|]. rewrite fmap_app. apply elem_of_app. by left.
Qed.

End agreement.
