(* ===== verification/GroupRequests.v ===== *)
(** * GroupRequests: asking for a change, and who carries it

    The decisions of libcore/src/groups.rs ([permitted], [carry_request] and the limit of
    [commit_change]) and libcore/src/groups/member_requests.rs ([received]): whoever asks,
    some member's device is let carry it. *)

From S2P Require Import Prelude Verdict Bytes Crypto Keyspace GroupPolicy Groups.
From Stdlib Require String.

(** [permitted] of groups.rs: whether the committer would carry [change] for [me] *)
Definition permitted (st : GroupState) (members : list bytes) (me : bytes) (change : GroupChange) : verdict unit :=
  let st :=
    match change with
    | ChRemove who => if bool_decide (who = committer st) then set_committer me st else st
    | _ => st
    end in
  let probe := mkSigned me 0 (replicate 32 0) change (replicate 64 0) in
  match apply st members (committer st) probe with Ok _ => Ok tt | Err e => Err e end.

(** What a committer does about a request: commit it, hand its role to the asker, or
    nothing. *)
Inductive Carried :=
| Commit (signed : SignedChange)
| HandOver (to : bytes)
| NotOurs.

Section requests.
Context `{Crypto} `{Prefixed MetaHead} `{Codec GroupState} `{Codec GroupChange}.

(** [carry_request]; [g] is the group's MLS state, [st] and [members] the client's record
    of its rules and members. *)
Definition carry_request (g : MlsGroup) (st : GroupState) (members : list bytes) (me from : bytes) (signed : SignedChange) :
    verdict Carried :=
  if negb (bool_decide (sc_by signed = from)) then Err "the change was signed by someone else"%string
  else if negb (bool_decide (committer st = me)) then Ok NotOurs
  else if bool_decide (sc_change signed = ChRemove me) then
    verify_change g signed;;
    apply (set_committer from st) members from signed;;
    Ok (HandOver from)
  else Ok (Commit signed).

(** [joiners - usize::from(MemberRequest)] of [commit_change] against the limit *)
Definition commit_fits (g : MlsGroup) (joiners : Z) (signed : SignedChange) : bool :=
  negb (member_count g + joiners - (match sc_change signed with ChMemberRequest _ => 1 | _ => 0 end) >? MAX_GROUP_MEMBERS).

(** What [received] does with a member's request: carry it, relay it to the committer, or
    drop it. *)
Inductive Handled := Remember | RelayTo (to : bytes) | Ignore.

Definition may_carry (st : GroupState) (me : bytes) (r : GroupMemberRequest) : bool :=
  bool_decide (committer st = me)
  || (bool_decide (committer st = mr_who r) && ((ROLE_ADMIN <=? role st me) || (len (owners st) + len (admins st) =? 1))).

(** [received]; [completed] is whether the group's history already carries the request. *)
Definition received (g : option MlsGroup) (gid me : bytes) (r : GroupMemberRequest) (completed : bool) : verdict Handled :=
  ensure (verify_member_request gid r) "invalid signature"%string;;
  match g with
  | None => Ok Ignore
  | Some g =>
      if negb (bool_decide (mr_who r ∈ roster g)) then Ok Ignore
      else if bool_decide (mr_who r = me) then Ok Ignore
      else
        meta ← ok_or (group_meta g) "not a group chat"%string;
        let st := effective meta in
        if may_carry st me r then (if completed then Ok Ignore else Ok Remember) else Ok (RelayTo (committer st))
  end.
End requests.

(** ** Somebody carries it *)

Lemma ranked_role st x : x ∈ ranked st ↔ ROLE_ADMIN <= role st x.
Proof.
  unfold ranked, role. rewrite elem_of_app. repeat case_bool_decide; unfold ROLE_OWNER, ROLE_ADMIN, ROLE_MEMBER; naive_solver lia.
Qed.

Lemma ranked_drop w st : ranked (drop_role w st) = without w (ranked st).
Proof. unfold ranked, without. cbn. by rewrite filter_app. Qed.

(** Each rank held by a member, each member with one. *)
Definition ranks_ok (st : GroupState) (roster : list bytes) : Prop := NoDup (ranked st) ∧ ∀ m, m ∈ ranked st → m ∈ roster.

Lemma ranks_drop w st r : ranks_ok st r → ranks_ok (drop_role w st) (without w r).
Proof.
  intros [Hnd Hin]. split; rewrite ranked_drop; [by apply NoDup_filter|]. intros m. rewrite !elem_of_without. naive_solver.
Qed.

Lemma ranks_owner x st r : ranks_ok st r → x ∈ r → ranks_ok (push_owner x (drop_role x st)) r.
Proof.
  intros [Hnd Hin] Hx. assert (ranked (push_owner x (drop_role x st)) ≡ₚ x :: without x (ranked st)) as Hp.
  { unfold ranked, without. cbn. rewrite filter_app, <- app_assoc. cbn. by rewrite Permutation_middle. }
  split.
  - rewrite Hp. constructor; [rewrite elem_of_without; tauto|by apply NoDup_filter].
  - intros m. rewrite Hp, elem_of_cons, elem_of_without. naive_solver.
Qed.

Lemma ranks_admin x st r : ranks_ok st r → x ∈ r → role st x = ROLE_MEMBER → ranks_ok (push_admin x st) r.
Proof.
  intros [Hnd Hin] Hx Hr. assert (ranked (push_admin x st) ≡ₚ x :: ranked st) as Hp.
  { unfold ranked. cbn. by rewrite app_assoc, Permutation_app_comm. }
  split.
  - rewrite Hp. constructor; [|done]. rewrite ranked_role, Hr. unfold ROLE_ADMIN, ROLE_MEMBER. lia.
  - intros m. rewrite Hp, elem_of_cons. naive_solver.
Qed.

Lemma valid_ranks st r : valid st r ↔ owners st ≠ [] ∧ ranks_ok st r ∧ committer st ∈ ranked st.
Proof. split; [intros []; by split_and!|]. intros (? & [] & ?). by split. Qed.

(** What a departure leaves, before the committer's role passes on. *)
Lemma depart_ok st roster author r :
  valid st roster → author ∈ roster → author ≠ mr_who r →
  let '(next, after) := depart st author r roster in
  owners next ≠ [] ∧ ranks_ok next after ∧ author ∈ after ∧ committer next = committer st ∧
  (committer st = author → author ∈ ranked next) ∧ (mr_action r = ActLeave → role next (mr_who r) = ROLE_MEMBER).
Proof.
  intros (Ho & Hr & Hc)%valid_ranks Hau Hne. unfold depart. case_bool_decide; [|by split_and!; [..|intros <-|]].
  assert (author ∈ without (mr_who r) roster) as Hau' by by apply elem_of_without. cbn zeta.
  destruct (bool_decide (owners (drop_role (mr_who r) st) = [])) eqn:E; breflect; split_and!; try done.
  - by cbn; destruct (filter _ _).
  - apply ranks_owner; [by apply ranks_drop|done].
  - intros _. apply ranked_role. roles. rewrite decide_True by done. unfold ROLE_OWNER, ROLE_ADMIN. lia.
  - intros _. roles. by rewrite !decide_False, decide_True by done.
  - by apply ranks_drop.
  - intros <-. rewrite ranked_drop. by apply elem_of_without.
  - intros _. roles. by rewrite decide_True.
Qed.

(** What carrying a request leaves is a group its members accept. *)
Lemma request_checks st roster author r :
  valid st roster → author ∈ roster → author ≠ mr_who r → committer st = mr_who r ∨ committer st = author →
  let '(next, after) := member_request st author r roster in
  valid next after ∧ (mr_action r = ActLeave → role next (mr_who r) = ROLE_MEMBER).
Proof.
  intros Hv Hau Hne Hcm. pose proof (depart_ok st roster author r Hv Hau Hne) as Hd. unfold member_request.
  destruct (depart st author r roster) as [next after]. destruct Hd as (Ho & Hr & Hau' & Hcs & Hc & Hw).
  rewrite valid_ranks. case_bool_decide as Hcw.
  - cbn zeta. destruct (role (set_committer author next) author =? ROLE_MEMBER) eqn:Em; breflect; rewrite role_set_committer in Em.
    + split; [split_and!|]; [done|by apply ranks_admin| |].
      * apply ranked_role. cbn [committer push_admin set_committer]. rewrite role_push_admin, decide_True by done. unfold ROLE_ADMIN. lia.
      * intros Hl. rewrite role_push_admin, role_set_committer, decide_False by done. by apply Hw.
    + split; [split_and!|]; [done|done| |done]. apply (ranked_role (set_committer author next)). rewrite role_set_committer.
      cbn [committer set_committer]. pose proof (role_range next author). unfold ROLE_ADMIN, ROLE_OWNER, ROLE_MEMBER in *. lia.
  - destruct Hcm as [?|Hcm]; [done|]. split; [|done]. split_and!; [done|done|]. rewrite Hcs, Hcm. by apply Hc.
Qed.

Lemma apply_request st roster author r signed :
  valid st roster → author ∈ roster → mr_who r ∈ roster → author ≠ mr_who r → may_carry st author r = true →
  sc_by signed = author → sc_change signed = ChMemberRequest r →
  ∃ next, apply st roster author signed = Ok next ∧ (mr_action r = ActLeave → role next (mr_who r) = ROLE_MEMBER).
Proof.
  intros Hv Hau Hw Hne Hmay Hby Hch. unfold apply. rewrite Hby, (bool_decide_true (author ∈ roster)) by done. cbn [negb].
  assert (committer st = mr_who r ∨ committer st = author) as Hcm.
  { unfold may_carry in Hmay. apply orb_true_iff in Hmay as [Hm|Hm]; breflect; auto. }
  assert (negb (bool_decide (author = committer st)) && negb (bool_decide (sc_change signed = ChTakeover)) &&
          negb (carries_committer_request st author signed) = false) as ->.
  { unfold may_carry in Hmay. unfold carries_committer_request. rewrite Hch, Hby. apply orb_true_iff in Hmay as [Hm|Hm].
    - breflect. by rewrite (bool_decide_true (author = committer st)).
    - apply andb_true_iff in Hm as [Hm1 Hm2]. breflect. rewrite (bool_decide_true (mr_who r = committer st)), (bool_decide_true (author = author)), Hm2 by done.
      cbn. apply andb_false_r. }
  unfold change_state. rewrite Hch, (bool_decide_true (mr_who r ∈ roster)), (bool_decide_false (mr_who r = author)) by (done || congruence).
  cbn [negb orb]. pose proof (request_checks st roster author r Hv Hau Hne Hcm) as Hck.
  destruct (member_request st author r roster) as [next after]. destruct Hck as [Hvn Hl].
  assert (check (set_last signed next) after = Ok tt) as -> by (apply check_ok; destruct Hvn; by split).
  exists (set_last signed next). done.
Qed.

(** C14: Nobody is held in a group, and nobody who lost its keys stays locked out.  In
    every group its members accept, a signed request of any member, to leave or to be
    given fresh keys, finds among the others one whose device takes it up ([may_carry])
    and whose commit of it everybody accepts; after a departure the member holds no
    rank.  It is so whatever the member is: the committer, the last owner, or both. *)
Theorem member_request_is_carried st roster r epoch branch sig :
  valid st roster → mr_who r ∈ roster → (∃ x, x ∈ roster ∧ x ≠ mr_who r) →
  ∃ author next, author ∈ roster ∧ author ≠ mr_who r ∧ may_carry st author r = true ∧
    apply st roster author (mkSigned author epoch branch (ChMemberRequest r) sig) = Ok next ∧
    (mr_action r = ActLeave → role next (mr_who r) = ROLE_MEMBER).
Proof.
  intros Hv Hw (x & Hx & Hne).
  assert (∃ author, author ∈ roster ∧ author ≠ mr_who r ∧ may_carry st author r = true) as (author & Hau & Hna & Hmay).
  { unfold may_carry. destruct (decide (committer st = mr_who r)) as [Hc|Hc].
    - destruct (decide (Exists (λ y, y ≠ mr_who r) (ranked st))) as [(y & Hy & Hyw)%Exists_exists|Hnone].
      + exists y. split; [by apply (va_ranked _ _ Hv)|]. split; [done|]. apply ranked_role in Hy.
        rewrite (bool_decide_true (committer st = mr_who r)), (proj2 (Z.leb_le _ _) Hy) by done. cbn. by destruct (bool_decide _).
      + exists x. split; [done|]. split; [done|]. rewrite (bool_decide_true (committer st = mr_who r)) by done. cbn [andb].
        replace (len (owners st) + len (admins st) =? 1) with true; [by rewrite !orb_true_r|]. symmetry. apply Z.eqb_eq.
        rewrite <- len_app. fold (ranked st). pose proof (va_once _ _ Hv) as Hnd. pose proof (va_committer _ _ Hv) as Hin.
        destruct (ranked st) as [|a [|b l]] eqn:El; [by apply not_elem_of_nil in Hin|done|]. exfalso. apply Hnone, Exists_exists.
        destruct (decide (a = mr_who r)) as [->|]; [|exists a; split; [by left|done]].
        exists b. split; [by right; left|]. intros ->. apply NoDup_cons in Hnd as [Hn _]. apply Hn. by left.
    - exists (committer st). split; [apply (va_ranked _ _ Hv), (va_committer _ _ Hv)|]. split; [done|]. by rewrite bool_decide_true. }
  destruct (apply_request st roster author r (mkSigned author epoch branch (ChMemberRequest r) sig) Hv Hau Hw Hna Hmay eq_refl eq_refl)
    as (next & Ha & Hl). exists author, next. done.
Qed.

Section full.
Context `{Crypto} `{Prefixed MetaHead} `{Codec GroupState} `{Codec GroupChange}.

Lemma permitted_proposals g staged author signed :
  commit_is_permitted g staged author = Ok (Some signed) →
  ∃ adds removes next, read_proposals g ([], [], None) (sg_proposals staged) = Ok (adds, removes, next) ∧
    proposals_match adds removes signed = true.
Proof.
  intros Hc. unfold commit_is_permitted in Hc. apply bind_ok in Hc as ([] & _ & Hc). apply bind_ok in Hc as ([[adds removes] next] & Hr & Hc).
  exists adds, removes, next. split; [done|]. destruct (group_meta g) as [m|]; [|by repeat case_match].
  destruct next as [next|]; [|by repeat case_match].
  apply bind_ok in Hc as ([] & _ & Hc). apply bind_ok in Hc as (st & _ & Hc). apply bind_ok in Hc as (sg & _ & Hc).
  apply bind_ok in Hc as (ex & _ & Hc). apply bind_ok in Hc as ([] & _ & Hc). apply bind_ok in Hc as ([] & Hm & [= ->]).
  by apply ensure_ok in Hm.
Qed.

(** C38: In a full group, a member that lost its keys splits the group.  The committer that
    carries its request counts the leaf it takes out ([commit_fits]) and goes ahead; every
    other member counts the leaf that comes in only, and refuses the very commit its own
    rules permit, whatever OpenMLS would make of it. *)
Theorem full_group_refuses_refresh g staged author signed r :
  member_count g = MAX_GROUP_MEMBERS → commit_is_permitted g staged author = Ok (Some signed) →
  sc_change signed = ChMemberRequest r → mr_action r = ActRefresh →
  commit_fits g (len (added_leaves (sg_proposals staged))) signed = true ∧
  ∀ merge, merge_staged_commit_if_permitted merge g staged author = Some (g, Refused).
Proof.
  intros Hfull Hc Hch Hact. destruct (permitted_proposals _ _ _ _ Hc) as (adds & removes & next & Hr & Hm).
  assert (length (added_leaves (sg_proposals staged)) = 1%nat) as Hone.
  { apply read_proposals_ok in Hr as (as' & rs' & -> & _ & Has & _). unfold proposals_match in Hm. rewrite Hch in Hm.
    rewrite bool_decide_true in Hm by done. breflect. apply (f_equal length) in Has. rewrite !length_fmap in Has. rewrite Has.
    match goal with H : [] ++ as' = _ |- _ => cbn in H; by rewrite H end. }
  unfold len. rewrite Hone. split.
  - unfold commit_fits. rewrite Hch, Hfull. done.
  - intros merge. unfold merge_staged_commit_if_permitted, judge. unfold len. rewrite <- add_count, Hone, Hfull. done.
Qed.
End full.
