(* ===== verification/GroupJournal.v ===== *)
(** * GroupJournal: the branches of a group and the one its members follow

    libcore/src/mls/recovery.rs and the group tables of libcore/src/db/mls.rs, for one
    group.  Commits made on one MLS state compete; every member records the ones it sees
    as branches and follows the canonical path through them.  The key material of a
    branch, the rows OpenMLS keeps for the group, is a [Snap]; [load] is the group that
    [MlsGroupHandle::load] reads from it, and [fits] the storage budget. *)

From S2P Require Import Prelude Verdict Bytes Crypto Keyspace GroupPolicy Groups GroupHistory.
From Stdlib Require String.

(** ** Tables *)

(** A row of [mls_branches]; an empty snapshot ([X'']) is [None]. *)
Record BranchRow (Snap : Type) := mkBranchRow {
  br_branch : bytes;
  br_parent : option bytes;
  br_epoch : Z;
  br_rank : Z;
  br_hash : bytes;
  br_message : option bytes;
  br_snapshot : option Snap;
  br_change : option SignedChange;
  br_proof : option GroupBranch;
  br_archived_at : option Z;
  br_created_at : Z;
}.
Arguments mkBranchRow {Snap}.
Arguments br_branch {Snap}.
Arguments br_parent {Snap}.
Arguments br_epoch {Snap}.
Arguments br_rank {Snap}.
Arguments br_hash {Snap}.
Arguments br_message {Snap}.
Arguments br_snapshot {Snap}.
Arguments br_change {Snap}.
Arguments br_proof {Snap}.
Arguments br_archived_at {Snap}.
Arguments br_created_at {Snap}.

Record DispatchJob := mkJob {
  dj_recipient : bytes;
  dj_id : bytes;
  dj_logical_id : bytes;
  dj_kind : Z;
  dj_frame : bytes;
}.

Record Replay := mkReplay {
  rp_id : bytes;
  rp_payload : bytes;
  rp_recipients : list bytes;
  rp_wake : Z;
  rp_kind : Z;
}.

Record Received := mkReceived {
  rd_author : bytes;
  rd_id : bytes;
  rd_accepted_at_ms : Z;
  rd_payload : bytes;
}.

Record Candidate := mkCandidate {
  ca_rank : Z;
  ca_message : bytes;
  ca_change : option SignedChange;
  ca_proof : option GroupBranch;
}.

(** The rows of one group: the live MLS rows ([mls_storage]), [mls_recovery_roots],
    [mls_branches], [mls_replay] (with the branch a message was sealed on, and when),
    [mls_dispatch_ids], [mls_dispatch_jobs], [mls_group_received] (with the branch, and
    whether it was applied), [mls_join_history] and the KeyPackages used up. *)
Record Journal (Snap : Type) := mkJournal {
  jn_live : option Snap;
  jn_root : option bytes;
  jn_rows : list (BranchRow Snap);
  jn_replay : list (Replay * bytes * Z);
  jn_ids : list (bytes * bytes);
  jn_jobs : list (bytes * DispatchJob);
  jn_received : list (bytes * Received * bool);
  jn_joined : option (bytes * list GroupBranch);
  jn_spent : list bytes;
}.
Arguments mkJournal {Snap}.
Arguments jn_live {Snap}.
Arguments jn_root {Snap}.
Arguments jn_rows {Snap}.
Arguments jn_replay {Snap}.
Arguments jn_ids {Snap}.
Arguments jn_jobs {Snap}.
Arguments jn_received {Snap}.
Arguments jn_joined {Snap}.
Arguments jn_spent {Snap}.

Record Published := mkPublished {
  pb_previous : bytes;
  pb_head : bytes;
  pb_canonical : bool;
  pb_needs_recovery : bool;
}.

(** An open operation: the snapshot it works on, and its branch. *)
Record Transaction (Snap : Type) := mkTransaction {
  tx_source : Snap;
  tx_parent : bytes;
}.
Arguments mkTransaction {Snap}.
Arguments tx_source {Snap}.
Arguments tx_parent {Snap}.

Section journal.
Context {Snap : Type} (load : Snap → MlsGroup) (fits : Snap → bool).
(** [Sha256::digest] *)
Context (sha256 : bytes → bytes).
Implicit Types (j : Journal Snap) (r : BranchRow Snap) (rows : list (BranchRow Snap)).

Definition branch_of (s : Snap) : bytes := g_branch (load s).

(** The row of a branch *)
Definition find_row rows (b : bytes) : option (BranchRow Snap) := head (filter (λ r, br_branch r = b) rows).

(** [INSERT OR IGNORE INTO mls_branches], whose key is the branch *)
Definition insert_row r rows : list (BranchRow Snap) :=
  match find_row rows (br_branch r) with Some _ => rows | None => rows ++ [r] end.

Definition map_row (b : bytes) (f : BranchRow Snap → BranchRow Snap) rows : list (BranchRow Snap) :=
  (λ r, if bool_decide (br_branch r = b) then f r else r) <$> rows.

(** ** Election *)

(** [ORDER BY rank DESC, commit_hash ASC] *)
Definition beats (rank : Z) (hash : bytes) (rank' : Z) (hash' : bytes) : bool :=
  (rank' <? rank) || ((rank =? rank') && bool_decide (bytes_lt hash hash')).

Definition row_beats (r r' : BranchRow Snap) : bool := beats (br_rank r) (br_hash r) (br_rank r') (br_hash r').

(** The best of the commits made on [parent] ([LIMIT 1]) *)
Definition elect rows (parent : bytes) : option (BranchRow Snap) :=
  foldl (λ best r, match best with Some b => if row_beats r b then Some r else best | None => Some r end)
    None (filter (λ r, br_parent r = Some parent) rows).

(** The loop of [canonical_path]; each round adds another branch of the table, so as many
    rounds as it has rows and one more are enough ([path_from_enough]). *)
Fixpoint path_from (fuel : nat) rows (path : list bytes) (tip : bytes) : verdict (list bytes) :=
  match fuel with
  | O => Err "out of fuel"%string
  | S fuel =>
      match elect rows tip with
      | None => Ok path
      | Some next =>
          if bool_decide (br_branch next ∈ path) then Err "cyclic group history"%string
          else path_from fuel rows (path ++ [br_branch next]) (br_branch next)
      end
  end.

Definition canonical_path (root : option bytes) rows : verdict (list bytes) :=
  match root with
  | None => Ok []
  | Some root => path_from (S (length rows)) rows [root] root
  end.

(** ** Operations *)

(** [Transaction::open] *)
Definition open_transaction j (branch : option bytes) : verdict (option (Transaction Snap)) :=
  match jn_live j with
  | None => Ok None
  | Some live =>
      let retained :=
        match branch with
        | Some id => match find_row (jn_rows j) id with Some r => Some (br_snapshot r) | None => None end
        | None => None
        end in
      match retained with
      | Some None => Ok None
      | _ =>
          let source := match retained with Some (Some s) => s | _ => live end in
          ensure (match retained with Some (Some s) => fits s | _ => true end) "group storage budget exceeded"%string;;
          let parent := branch_of source in
          if match branch with Some id => negb (bool_decide (id = parent)) | None => false end then Ok None
          else
            ensure_open ←
              match branch with
              | Some _ => Ok tt
              | None =>
                  path ← canonical_path (jn_root j) (jn_rows j);
                  ensure (match last path with Some head => bool_decide (head = parent) | None => true end)
                    "group is recovering newer state"%string
              end;
            Ok (Some (mkTransaction source parent))
      end
  end.

(** The rows [publish] leaves: the parent, then the branch made or, without a commit, the
    branch's new snapshot. *)
Definition publish_rows rows (tx : Transaction Snap) (working : Snap) (candidate : option Candidate) (now : Z) : list (BranchRow Snap) :=
  let branch := branch_of working in
  let epoch := g_epoch (load working) in
  let parent_epoch := match candidate with Some _ => sat_sub epoch 1 | None => epoch end in
  let rows := insert_row (mkBranchRow (tx_parent tx) None parent_epoch 0 [] None (Some (tx_source tx)) None None None now) rows in
  match candidate with
  | Some c =>
      let rows := map_row (tx_parent tx) (λ r, mkBranchRow (br_branch r) (br_parent r) (br_epoch r) (br_rank r) (br_hash r) (br_message r)
                    (br_snapshot r) (br_change r) (br_proof r) (Some (default now (br_archived_at r))) (br_created_at r)) rows in
      insert_row (mkBranchRow branch (Some (tx_parent tx)) epoch (ca_rank c) (sha256 (ca_message c)) (Some (ca_message c)) (Some working)
                    (ca_change c) (ca_proof c) None now) rows
  | None =>
      map_row branch (λ r, mkBranchRow (br_branch r) (br_parent r) (br_epoch r) (br_rank r) (br_hash r) (br_message r)
                    (Some working) (br_change r) (br_proof r) (br_archived_at r) (br_created_at r)) rows
  end.

(** [INSERT INTO mls_replay ... ON CONFLICT DO UPDATE SET branch] *)
Definition upsert_replay (rp : Replay) (branch : bytes) (now : Z) (l : list (Replay * bytes * Z)) : list (Replay * bytes * Z) :=
  if bool_decide (rp_id rp ∈ ((λ x, rp_id x.1.1) <$> l)) then
    (λ x, if bool_decide (rp_id x.1.1 = rp_id rp) then (x.1.1, branch, x.2) else x) <$> l
  else l ++ [(rp, branch, now)].

(** [INSERT OR IGNORE] of each job and its dispatch id *)
Definition add_job (branch : bytes) (acc : list (bytes * bytes) * list (bytes * DispatchJob)) (job : DispatchJob) :
    list (bytes * bytes) * list (bytes * DispatchJob) :=
  let '(ids, jobs) := acc in
  (if bool_decide (dj_id job ∈ ids.*1) then ids else ids ++ [(dj_id job, dj_logical_id job)],
   if bool_decide ((dj_recipient job, dj_id job) ∈ ((λ x, (dj_recipient x.2, dj_id x.2)) <$> jobs)) then jobs else jobs ++ [(branch, job)]).

(** [Received::stage] *)
Definition stage (rd : Received) (branch : bytes) (l : list (bytes * Received * bool)) : list (bytes * Received * bool) :=
  if bool_decide ((rd_author rd, rd_id rd) ∈ ((λ x, (rd_author x.1.2, rd_id x.1.2)) <$> l)) then l else l ++ [(branch, rd, false)].

(** [Transaction::publish]: [working] is the snapshot the operation leaves. *)
Definition publish j (tx : Transaction Snap) (working : Snap) (candidate : option Candidate) (jobs : list DispatchJob)
    (replay : option Replay) (rcvd : option Received) (now : Z) : verdict (Journal Snap * Published) :=
  let branch := branch_of working in
  ensure (bool_decide (is_Some candidate) || bool_decide (branch = tx_parent tx)) "unrecorded epoch transition"%string;;
  let root := default (tx_parent tx) (jn_root j) in
  let rows0 := insert_row (mkBranchRow (tx_parent tx) None
                 (match candidate with Some _ => sat_sub (g_epoch (load working)) 1 | None => g_epoch (load working) end)
                 0 [] None (Some (tx_source tx)) None None None now) (jn_rows j) in
  before ← canonical_path (Some root) rows0;
  previous ← ok_or (last before) "group has no recovery root"%string;
  let rows := publish_rows (jn_rows j) tx working candidate now in
  path ← canonical_path (Some root) rows;
  head ← ok_or (last path) "group has no canonical head"%string;
  head_row ← ok_or (find_row rows head) "no row"%string;
  let needs_recovery := bool_decide (br_snapshot head_row = None) in
  live ←
    match br_snapshot head_row with
    | Some s => if bool_decide (head = branch) then Ok working else (ensure (fits s) "group storage budget exceeded"%string;; Ok s)
    | None => Ok working
    end;
  ensure (match replay with Some _ => bool_decide (branch = head) | None => true end) "cannot send from a historical branch"%string;;
  let '(ids, jobs') := foldl (add_job branch) (jn_ids j, jn_jobs j) jobs in
  Ok (mkJournal (Some live) (Some root) rows
        (match replay with Some rp => upsert_replay rp branch now (jn_replay j) | None => jn_replay j end)
        ids jobs'
        (match rcvd with Some rd => stage rd branch (jn_received j) | None => jn_received j end)
        (jn_joined j) (jn_spent j),
      mkPublished previous head (bool_decide (branch ∈ path)) needs_recovery).

(** ** Histories *)

(** The walk of [history_in] from [b] to its oldest recorded ancestor; a branch without a
    row ends it. *)
Fixpoint ancestry (fuel : nat) rows (seen : list bytes) (b : bytes) : verdict (list bytes) :=
  match fuel with
  | O => Err "out of fuel"%string
  | S fuel =>
      if bool_decide (b ∈ seen) then Err "cyclic group history"%string
      else match find_row rows b ≫= br_parent with
      | Some parent => ancestry fuel rows (b :: seen) parent
      | None => Ok (b :: seen)
      end
  end.

(** The loop that appends the proof of each ancestor *)
Fixpoint append_proofs rows (hist : list GroupBranch) (path : list bytes) : verdict (list GroupBranch) :=
  match path with
  | [] => Ok hist
  | b :: path =>
      if bool_decide (gb_branch <$> last hist = Some b) then append_proofs rows hist path
      else
        proof ← ok_or (find_row rows b ≫= br_proof) "no proof"%string;
        append_proofs rows (hist ++ [proof]) path
  end.

Definition history_in j (parent : bytes) : verdict (list GroupBranch) :=
  path ← ancestry (S (S (length (jn_rows j)))) (jn_rows j) [] parent;
  hist ← append_proofs (jn_rows j) (match jn_joined j with Some (_, hist) => hist | None => [] end) path;
  ensure (bool_decide (gb_branch <$> last hist = Some parent)) "signed group history is missing"%string;;
  Ok hist.

(** [next_history] *)
Definition next_history j (parent : bytes) (proof : GroupBranch) : verdict (list GroupBranch) :=
  hist ← history_in j parent; Ok (hist ++ [proof]).

(** The comparison of [preferred_history], entry by entry *)
Fixpoint preferred_entries (allow_extension : bool) (old new : list GroupBranch) : bool :=
  match old, new with
  | o :: old, n :: new =>
      if negb (bool_decide (gb_branch o = gb_branch n)) then beats (gb_rank n) (gb_commit_hash n) (gb_rank o) (gb_commit_hash o)
      else if negb (gb_rank o =? gb_rank n) || negb (bool_decide (gb_commit_hash o = gb_commit_hash n)) then false
      else preferred_entries allow_extension old new
  | [], _ :: _ => allow_extension
  | _, [] => false
  end.

Definition preferred_history (old new : list GroupBranch) (allow_extension : bool) : bool :=
  if negb (bool_decide (head old = head new)) then false else preferred_entries allow_extension old new.

Section signed.
Context `{Crypto} `{Prefixed MetaHead} `{Codec GroupState} `{Codec GroupChange} `{Codec PublicState} `{Codec ProofBody}.

(** [accept_root]; [current] are the live rows as the operation left them. *)
Definition accept_root j (current : option Snap) (g : MlsGroup) (proof : GroupBranch) (now : Z) : verdict (Journal Snap) :=
  verify_history (g_id g) [proof] g;;
  match jn_root j with
  | Some _ => Ok j
  | None =>
      match find_row (jn_rows j) (g_branch g) with
      | Some _ => Err "constraint failed"%string
      | None =>
          Ok (mkJournal (jn_live j) (Some (g_branch g))
                (jn_rows j ++ [mkBranchRow (g_branch g) None (g_epoch g) 0 (gb_commit_hash proof) None current None (Some proof) None now])
                (jn_replay j) (jn_ids j) (jn_jobs j) (jn_received j) (jn_joined j) (jn_spent j))
      end
  end.

(** [ensure_root] *)
Definition ensure_root j (g : MlsGroup) (sk : bytes) (now : Z) : verdict (Journal Snap) :=
  match jn_root j with
  | Some _ => Ok j
  | None => proof ← sign_proof sha256 g None 0 [] sk; accept_root j (jn_live j) g proof now
  end.

(** [accept_welcome]: [snap] are the rows [process_welcome] leaves, [hist] the history the
    invitation carries, already opened. *)
Definition accept_welcome j (snap : Snap) (hist : list GroupBranch) (sender kp_ref : bytes)
    (refresh : option GroupMemberRequest) (anchor : option bytes) (now : Z) : verdict (Journal Snap) :=
  let g := load snap in
  previous ←
    match jn_live j with
    | None => Ok None
    | Some old => hist ← history_in j (branch_of old); Ok (Some hist)
    end;
  verify_history (g_id g) hist g;;
  ensure (match anchor with Some a => bool_decide (gb_branch <$> head hist = Some a) | None => true end)
    "invitation changes group identity"%string;;
  let restores_keys :=
    match refresh with
    | Some request =>
        bool_decide ((m ← group_meta g; st ← gm_state m; c ← last_change st; Some (sc_change c)) = Some (ChMemberRequest request))
    | None => false
    end in
  match previous with
  | Some previous =>
      if restores_keys then
        ensure (preferred_history previous hist true) "resync invitation moves onto a losing branch"%string
      else
        '(inviter, old) ← ok_or (jn_joined j) "existing member must request key recovery"%string;
        ensure (bool_decide (inviter = sender)) "replacement invitation is not from the original inviter"%string;;
        ensure (preferred_history old hist false) "invitation does not repair a losing branch"%string
  | None =>
      ensure (negb (bool_decide (is_Some refresh)) || (restores_keys && bool_decide (is_Some anchor)))
        "key recovery has no matching request or identity anchor"%string
  end;;
  ensure (bool_decide (is_Some (m ← group_meta g; gm_state m))) "invitation is not a group with signed rules"%string;;
  ensure (bool_decide (gb_branch <$> last hist = Some (g_branch g))) "invitation history does not identify its MLS state"%string;;
  Ok (mkJournal (Some snap) (Some (g_branch g))
        (insert_row (mkBranchRow (g_branch g) None (g_epoch g) 0 [] None (Some snap) None (last hist) None now) (jn_rows j))
        (jn_replay j) (jn_ids j) (jn_jobs j) (jn_received j) (Some (sender, hist)) (kp_ref :: jn_spent j)).
End signed.

(** The first [UPDATE] of [prune] *)
Definition retire (head : bytes) (cutoff : Z) r : BranchRow Snap :=
  if negb (bool_decide (br_branch r = head)) && (default (br_created_at r) (br_archived_at r) <? cutoff) then
    mkBranchRow (br_branch r) (br_parent r) (br_epoch r) (br_rank r) (br_hash r) (br_message r) None (br_change r) (br_proof r)
      (br_archived_at r) (br_created_at r)
  else r.

(** [prune]: key material of branches off the head goes after seven days. *)
Definition prune j (now : Z) : verdict (Journal Snap) :=
  path ← canonical_path (jn_root j) (jn_rows j);
  match last path with
  | None => Ok j
  | Some head =>
      let cutoff := sat_sub now (7 * 24 * 60 * 60) in
      Ok (mkJournal (jn_live j) (jn_root j) (retire head cutoff <$> jn_rows j)
            (filter (λ x : Replay * bytes * Z, ¬ (x.2 < cutoff)) (jn_replay j)) (jn_ids j) (jn_jobs j)
            ((λ x : bytes * Received * bool, if x.2 then (x.1.1, mkReceived (rd_author x.1.2) (rd_id x.1.2) (rd_accepted_at_ms x.1.2) [], true) else x) <$> jn_received j)
            (jn_joined j) (jn_spent j))
  end.

(** [replay_needed]: what was sent on branches that lost *)
Definition replay_needed j : verdict (list Replay) :=
  path ← canonical_path (jn_root j) (jn_rows j);
  Ok ((λ x, x.1.1) <$> filter (λ x, x.1.2 ∉ path) (jn_replay j)).

(** [discard_replay] *)
Definition discard_replay j (id : bytes) : Journal Snap :=
  mkJournal (jn_live j) (jn_root j) (jn_rows j) (filter (λ x, rp_id x.1.1 ≠ id) (jn_replay j)) (jn_ids j) (jn_jobs j) (jn_received j)
    (jn_joined j) (jn_spent j).

(** [materialized] of groups/recovery.rs *)
Definition materialized j (jobs : list DispatchJob) : Journal Snap :=
  mkJournal (jn_live j) (jn_root j) (jn_rows j) (jn_replay j) (jn_ids j)
    (filter (λ x, (dj_recipient x.2, dj_id x.2) ∉ ((λ job, (dj_recipient job, dj_id job)) <$> jobs)) (jn_jobs j))
    (jn_received j) (jn_joined j) (jn_spent j).
End journal.
