(* ===== verification/GroupJournalProps.v ===== *)
(** * GroupJournalProps: members converge on one branch

    Facts about GroupJournal: the path is always found; it depends only on the commits
    recorded, not on their order; the live keys are the head's; and invitations only move
    a device forward. *)

From S2P Require Import Prelude Verdict Bytes Crypto Keyspace GroupPolicy Groups GroupHistory GroupJournal.
From Stdlib Require String.

(** ** The order of candidates *)

Lemma beats_irrefl r h : beats r h r h = false.
Proof.
  unfold beats. rewrite Z.ltb_irrefl, Z.eqb_refl. cbn. apply bool_decide_false. apply irreflexivity. apply _.
Qed.

Lemma beats_spec r h r' h' : beats r h r' h' = true ↔ r' < r ∨ r = r' ∧ bytes_lt h h'.
Proof. unfold beats. rewrite orb_true_iff, andb_true_iff, Z.ltb_lt, Z.eqb_eq, bool_decide_eq_true. done. Qed.

Lemma beats_trans r1 h1 r2 h2 r3 h3 : beats r1 h1 r2 h2 = true → beats r2 h2 r3 h3 = true → beats r1 h1 r3 h3 = true.
Proof.
  rewrite !beats_spec. intros [?|[-> ?]] [?|[-> ?]]; [left; lia|by left|by left|]. right. split; [done|]. by etrans.
Qed.

Lemma beats_asym r1 h1 r2 h2 : beats r1 h1 r2 h2 = true → beats r2 h2 r1 h1 = false.
Proof.
  intros H12. apply not_true_iff_false. intros H21. pose proof (beats_trans _ _ _ _ _ _ H12 H21) as H11. by rewrite beats_irrefl in H11.
Qed.

Lemma beats_total r1 h1 r2 h2 : beats r1 h1 r2 h2 = false → beats r2 h2 r1 h1 = false → r1 = r2 ∧ h1 = h2.
Proof.
  intros H1 H2. apply not_true_iff_false in H1, H2. rewrite beats_spec in H1, H2. assert (r1 = r2) as <- by lia. split; [done|].
  destruct (total bytes_le h1 h2) as [Hl|Hl]; apply bytes_le_lteq in Hl as [Hl|Hl]; try done; tauto.
Qed.

Section elect.
Context {Snap : Type}.
Implicit Types (r : BranchRow Snap) (rows : list (BranchRow Snap)).

(** [r] is a commit on [p] that no other one beats. *)
Definition wins rows (p : bytes) r : Prop :=
  r ∈ rows ∧ br_parent r = Some p ∧ ∀ r', r' ∈ rows → br_parent r' = Some p → row_beats r' r = false.

Lemma best_of l : ∀ (best : option (BranchRow Snap)),
  let res := foldl (λ best r, match best with Some b => if row_beats r b then Some r else best | None => Some r end) best l in
  match res with
  | Some b => (best = Some b ∨ b ∈ l) ∧ (∀ r, r ∈ l → row_beats r b = false) ∧
              (∀ b0, best = Some b0 → b0 = b ∨ row_beats b b0 = true)
  | None => best = None ∧ l = []
  end.
Proof.
  induction l as [|x l IH]; intros best; cbn.
  - destruct best as [b|]; [|done]. split_and!; [by left| |by intros b0 [= ->]; left]. intros r Hr. by apply not_elem_of_nil in Hr.
  - destruct best as [b|].
    + destruct (row_beats x b) eqn:Hx.
      * specialize (IH (Some x)). cbn in IH. destruct (foldl _ _ l) as [z|]; [|by destruct IH].
        destruct IH as (Hin & Hall & Hb). split_and!.
        -- right. destruct Hin as [[= ->]|?]; [by left|by right].
        -- intros r [->|Hr]%elem_of_cons; [|by apply Hall]. destruct (Hb _ eq_refl) as [->|Hzx]; [apply beats_irrefl|by apply beats_asym].
        -- intros b0 [= <-]. right. destruct (Hb _ eq_refl) as [->|Hzx]; [done|]. by eapply beats_trans.
      * specialize (IH (Some b)). cbn in IH. destruct (foldl _ _ l) as [z|]; [|by destruct IH].
        destruct IH as (Hin & Hall & Hb). split_and!.
        -- destruct Hin as [?|?]; [by left|right; by right].
        -- intros r [->|Hr]%elem_of_cons; [|by apply Hall]. destruct (Hb _ eq_refl) as [<-|Hzb]; [done|].
           apply not_true_iff_false. intros Hxz. pose proof (beats_trans _ _ _ _ _ _ Hxz Hzb) as Hxb. unfold row_beats in Hx. by rewrite Hx in Hxb.
        -- done.
    + specialize (IH (Some x)). cbn in IH. destruct (foldl _ _ l) as [z|]; [|by destruct IH].
      destruct IH as (Hin & Hall & Hb). split_and!; [| |done].
      * right. destruct Hin as [[= ->]|?]; [by left|by right].
      * intros r [->|Hr]%elem_of_cons; [|by apply Hall]. destruct (Hb _ eq_refl) as [->|Hzx]; [apply beats_irrefl|by apply beats_asym].
Qed.

Lemma elect_wins rows p :
  match elect rows p with
  | Some r => wins rows p r
  | None => ∀ r, r ∈ rows → br_parent r ≠ Some p
  end.
Proof.
  unfold elect. pose proof (best_of (filter (λ r, br_parent r = Some p) rows) None) as Hb. cbn in Hb.
  destruct (foldl _ _ _) as [r|].
  - destruct Hb as ([?|Hin] & Hall & _); [done|]. apply list_elem_of_filter in Hin as [Hp Hin]. split_and!; [done|done|].
    intros r' Hr' Hp'. apply Hall. by apply list_elem_of_filter.
  - destruct Hb as [_ Hnil]. intros r Hr Hp. assert (r ∈ filter (λ r, br_parent r = Some p) rows) as Hin by by apply list_elem_of_filter.
    rewrite Hnil in Hin. by apply not_elem_of_nil in Hin.
Qed.

(** The commits recorded on a branch: which branch each makes, and its election key. *)
Definition commits rows (p : bytes) (x : bytes * Z * bytes) : Prop :=
  ∃ r, r ∈ rows ∧ br_parent r = Some p ∧ x = (br_branch r, br_rank r, br_hash r).

(** One commit hash is one commit. *)
Definition no_ties rows (p : bytes) : Prop :=
  ∀ b rank b' h, commits rows p (b, rank, h) → commits rows p (b', rank, h) → b = b'.

Lemma elect_agrees rows1 rows2 p :
  (∀ x, commits rows1 p x ↔ commits rows2 p x) → no_ties rows1 p →
  br_branch <$> elect rows1 p = br_branch <$> elect rows2 p.
Proof.
  intros Hc Hnt. pose proof (elect_wins rows1 p) as H1. pose proof (elect_wins rows2 p) as H2.
  destruct (elect rows1 p) as [r1|], (elect rows2 p) as [r2|]; cbn; [|exfalso..|done].
  - destruct H1 as (Hi1 & Hp1 & Hw1), H2 as (Hi2 & Hp2 & Hw2). f_equal.
    assert (commits rows2 p (br_branch r1, br_rank r1, br_hash r1)) as (r1' & Hi1' & Hp1' & [= Hb1 Hr1 Hh1]) by (apply Hc; by exists r1).
    assert (commits rows1 p (br_branch r2, br_rank r2, br_hash r2)) as C2 by (apply Hc; by exists r2).
    destruct C2 as (r2' & Hi2' & Hp2' & [= Hb2 Hr2 Hh2]).
    specialize (Hw1 r2' Hi2' Hp2'). specialize (Hw2 r1' Hi1' Hp1'). unfold row_beats in *.
    rewrite <- Hr1, <- Hh1 in Hw2. rewrite <- Hr2, <- Hh2 in Hw1.
    destruct (beats_total _ _ _ _ Hw1 Hw2) as [Hr Hh]. apply (Hnt _ (br_rank r1) _ (br_hash r1)); [by exists r1|].
    exists r2'. rewrite <- Hb2, <- Hr2, <- Hh2, Hr, Hh. done.
  - destruct H1 as (Hi1 & Hp1 & _). assert (commits rows2 p (br_branch r1, br_rank r1, br_hash r1)) as (r & Hr & Hp & _) by (apply Hc; by exists r1).
    by apply (H2 r).
  - destruct H2 as (Hi2 & Hp2 & _). assert (commits rows1 p (br_branch r2, br_rank r2, br_hash r2)) as (r & Hr & Hp & _) by (apply Hc; by exists r2).
    by apply (H1 r).
Qed.

(** ** Paths *)

(** [post] is what the elections from [tip] on choose, to the end. *)
Fixpoint elected rows (tip : bytes) (post : list bytes) : Prop :=
  match post with
  | [] => elect rows tip = None
  | b :: post => br_branch <$> elect rows tip = Some b ∧ elected rows b post
  end.

Lemma elect_in rows tip r : elect rows tip = Some r → r ∈ rows ∧ br_parent r = Some tip.
Proof. intros He. pose proof (elect_wins rows tip) as Hw. rewrite He in Hw. by destruct Hw as (? & ? & _). Qed.

(** Every branch but the root is one of the table's: the rounds the source's loop needs. *)
Lemma path_from_enough fuel rows root : ∀ path tip,
  (length rows + 1 < length path + fuel)%nat → NoDup path → (∀ b, b ∈ path → b = root ∨ b ∈ (br_branch <$> rows)) →
  path_from fuel rows path tip ≠ Err "out of fuel"%string.
Proof.
  induction fuel as [|fuel IH]; intros path tip Hf Hnd Hin; cbn.
  - exfalso. assert (length path <= length (root :: (br_branch <$> rows)))%nat as Hle.
    { apply submseteq_length, NoDup_submseteq; [done|]. intros b Hb. apply elem_of_cons. auto. }
    cbn in Hle. rewrite length_fmap in Hle. lia.
  - destruct (elect rows tip) as [next|] eqn:He; [|done]. case_bool_decide as Hn; [done|].
    apply IH; [rewrite length_app; cbn; lia| |].
    + apply NoDup_app. split_and!; [done| |apply NoDup_singleton]. intros b Hb ->%list_elem_of_singleton. done.
    + intros b [Hb| ->%list_elem_of_singleton]%elem_of_app; [auto|]. right. apply list_elem_of_fmap_2. by apply elect_in in He as [? _].
Qed.

(** [canonical_path] always comes to an end. *)
Lemma canonical_path_total root rows : canonical_path root rows ≠ Err "out of fuel"%string.
Proof.
  destruct root as [root|]; [|done]. cbn [canonical_path]. apply (path_from_enough _ _ root); [cbn; lia|apply NoDup_singleton|].
  intros b ->%list_elem_of_singleton. by left.
Qed.

Lemma path_from_elected fuel rows : ∀ path tip res,
  path_from fuel rows path tip = Ok res → NoDup path → ∃ post, res = path ++ post ∧ elected rows tip post ∧ NoDup res.
Proof.
  induction fuel as [|fuel IH]; intros path tip res Hp Hnd; cbn in Hp; [done|].
  destruct (elect rows tip) as [next|] eqn:He.
  - case_bool_decide as Hn; [done|]. apply IH in Hp as (post & -> & Hel & Hnd').
    + exists (br_branch next :: post). rewrite <- app_assoc in *. split_and!; [done| |done]. cbn. by rewrite He.
    + apply NoDup_app. split_and!; [done| |apply NoDup_singleton]. intros b Hb ->%list_elem_of_singleton. done.
  - injection Hp as <-. exists []. by rewrite app_nil_r.
Qed.

Lemma elected_path fuel rows post : ∀ path tip,
  (length post < fuel)%nat → elected rows tip post → NoDup (path ++ post) → path_from fuel rows path tip = Ok (path ++ post).
Proof.
  revert fuel. induction post as [|b post IH]; intros fuel path tip Hf Hel Hnd; (destruct fuel as [|fuel]; [cbn in Hf; lia|]); cbn in *.
  - by rewrite Hel, app_nil_r.
  - destruct Hel as [Hb Hel]. destruct (elect rows tip) as [next|]; [|done]. cbn in Hb. injection Hb as <-.
    rewrite bool_decide_false.
    + rewrite IH; [by rewrite <- app_assoc|lia|done|by rewrite <- app_assoc].
    + apply NoDup_app in Hnd as (_ & Hd & _). intros Hin. apply (Hd _ Hin). by left.
Qed.

Lemma elected_rows rows post : ∀ tip, elected rows tip post → ∀ b, b ∈ post → b ∈ (br_branch <$> rows).
Proof.
  induction post as [|x post IH]; intros tip Hel b Hb; [by apply not_elem_of_nil in Hb|]. destruct Hel as [Hx Hel].
  apply elem_of_cons in Hb as [->|Hb]; [|by apply (IH x)]. destruct (elect rows tip) as [r|] eqn:He; [|done]. injection Hx as <-.
  apply list_elem_of_fmap_2. by apply elect_in in He as [? _].
Qed.

Lemma elected_drop rows pre tip b post : elected rows tip (pre ++ b :: post) → elected rows b post.
Proof. revert tip. induction pre as [|x pre IH]; intros tip; cbn; [by intros [_ ?]|]. intros [_ Hel]. by apply (IH x). Qed.

Lemma elected_agrees rows1 rows2 post : ∀ tip,
  (∀ b, b ∈ tip :: post → (∀ x, commits rows1 b x ↔ commits rows2 b x) ∧ no_ties rows1 b) →
  elected rows1 tip post → elected rows2 tip post.
Proof.
  induction post as [|b post IH]; intros tip Hag Hel; cbn in *.
  - destruct (Hag tip) as [Hc Hn]; [by left|]. pose proof (elect_agrees rows1 rows2 tip Hc Hn) as He. rewrite Hel in He.
    by destruct (elect rows2 tip).
  - destruct Hel as [Hb Hel]. destruct (Hag tip) as [Hc Hn]; [by left|]. rewrite <- (elect_agrees rows1 rows2 tip Hc Hn). split; [done|].
    apply IH; [|done]. intros b' Hb'. apply Hag. by right.
Qed.

(** Once two members have recorded the same commits on the branches that lead from where
    the second one started to the first one's head, whatever else either has seen, the
    second follows the same branches to the same head. *)
Lemma members_converge root1 rows1 root2 rows2 pre post :
  canonical_path (Some root1) rows1 = Ok (pre ++ root2 :: post) →
  (∀ b, b ∈ root2 :: post → (∀ x, commits rows1 b x ↔ commits rows2 b x) ∧ no_ties rows1 b) →
  canonical_path (Some root2) rows2 = Ok (root2 :: post).
Proof.
  intros Hp Hag. cbn [canonical_path] in *. apply path_from_elected in Hp as (post1 & Heq & Hel & Hnd); [|apply NoDup_singleton].
  assert (elected rows1 root2 post) as Hel2.
  { destruct pre as [|x pre]; cbn in Heq; injection Heq as -> Heq; [by subst|]. rewrite <- Heq in Hel. by eapply elected_drop. }
  apply (elected_agrees rows1 rows2) in Hel2; [|done]. apply NoDup_app in Hnd as (_ & _ & Hnd).
  apply (elected_path _ _ _ [root2]); [|done|done]. apply NoDup_cons in Hnd as [_ Hnd].
  assert (length post <= length (br_branch <$> rows2))%nat as Hle.
  { apply submseteq_length, NoDup_submseteq; [done|]. by apply (elected_rows rows2 post root2). }
  rewrite length_fmap in Hle. lia.
Qed.

(** ** Updating and extending the table *)

(** [f] keeps what elections read. *)
Definition keeps_key (f : BranchRow Snap → BranchRow Snap) : Prop :=
  ∀ r, br_branch (f r) = br_branch r ∧ br_parent (f r) = br_parent r ∧ br_rank (f r) = br_rank r ∧ br_hash (f r) = br_hash r.

Lemma elect_map f rows p : keeps_key f → elect (f <$> rows) p = f <$> elect rows p.
Proof.
  intros Hf. unfold elect.
  assert (filter (λ r, br_parent r = Some p) (f <$> rows) = f <$> filter (λ r, br_parent r = Some p) rows) as ->.
  { induction rows as [|r rows IH]; [done|]. cbn [fmap list_fmap]. destruct (Hf r) as (_ & Hp & _).
    destruct (decide (br_parent r = Some p)).
    - rewrite !filter_cons_True by congruence. cbn. by rewrite <- IH.
    - rewrite !filter_cons_False by congruence. done. }
  change None with (f <$> (None : option (BranchRow Snap))) at 1. generalize (None : option (BranchRow Snap)).
  induction (filter (λ r, br_parent r = Some p) rows) as [|r l IH]; intros best; [done|]. cbn [fmap list_fmap foldl]. rewrite <- IH. f_equal.
  destruct best as [b|]; [|done]. cbn. destruct (Hf r) as (_ & _ & Hr & Hh), (Hf b) as (_ & _ & Hr' & Hh').
  unfold row_beats. rewrite Hr, Hh, Hr', Hh'. by destruct (beats _ _ _ _).
Qed.

Lemma elect_snoc rows e p :
  elect (rows ++ [e]) p =
  if decide (br_parent e = Some p) then
    match elect rows p with Some b => if row_beats e b then Some e else Some b | None => Some e end
  else elect rows p.
Proof.
  unfold elect. rewrite filter_app, foldl_app. destruct (decide (br_parent e = Some p)).
  - rewrite (filter_cons_True _ e []) by done. cbn. by destruct (foldl _ _ _).
  - by rewrite (filter_cons_False _ e []) by done.
Qed.

Lemma path_from_map f fuel rows : ∀ path tip, keeps_key f → path_from fuel (f <$> rows) path tip = path_from fuel rows path tip.
Proof.
  induction fuel as [|fuel IH]; intros path tip Hf; [done|]. cbn. rewrite (elect_map f rows tip Hf).
  destruct (elect rows tip) as [r|]; [|done]. cbn. destruct (Hf r) as (-> & _). case_bool_decide; [done|]. by apply IH.
Qed.

Lemma canonical_map f root rows : keeps_key f → canonical_path root (f <$> rows) = canonical_path root rows.
Proof. intros Hf. destruct root; [|done]. unfold canonical_path. rewrite length_fmap. by apply path_from_map. Qed.

Lemma map_row_keeps b f : keeps_key f → keeps_key (λ r, if bool_decide (br_branch r = b) then f r else r).
Proof. intros Hf r. destruct (bool_decide (br_branch r = b)); [apply Hf|done]. Qed.

Lemma find_row_Some rows b r : find_row rows b = Some r → r ∈ rows ∧ br_branch r = b.
Proof.
  unfold find_row. intros Hf. assert (r ∈ filter (λ r, br_branch r = b) rows) as Hin.
  { destruct (filter _ _); [done|]. injection Hf as ->. by left. }
  apply list_elem_of_filter in Hin. tauto.
Qed.

Lemma find_row_None rows b : find_row rows b = None ↔ b ∉ (br_branch <$> rows).
Proof.
  unfold find_row. split.
  - intros Hf (r & -> & Hr)%list_elem_of_fmap. assert (r ∈ filter (λ r', br_branch r' = br_branch r) rows) as Hin by by apply list_elem_of_filter.
    destruct (filter _ _); [by apply not_elem_of_nil in Hin|done].
  - intros Hn. destruct (filter (λ r, br_branch r = b) rows) as [|r l] eqn:El; [done|]. exfalso. apply Hn.
    assert (r ∈ filter (λ r, br_branch r = b) rows) as Hin by (rewrite El; by left). apply list_elem_of_filter in Hin as [<- Hr].
    by apply list_elem_of_fmap_2.
Qed.

Lemma elected_snoc_out rows e tip post :
  elected (rows ++ [e]) tip post → br_branch e ∉ post → elected rows tip post.
Proof.
  revert tip. induction post as [|b post IH]; intros tip; cbn; rewrite elect_snoc.
  - case_decide; [|done]. destruct (elect rows tip); [by destruct (row_beats _ _)|done].
  - intros [Hb Hel] [Hne Hn]%not_elem_of_cons. split; [|by apply IH]. case_decide; [|done].
    destruct (elect rows tip) as [r|]; cbn in Hb; [|by injection Hb as Hb]. destruct (row_beats e r); [by injection Hb as Hb|done].
Qed.

(** A table in which a commit leads to a later epoch has no cycles. *)
Lemma path_from_acyclic (depth : bytes → Z) fuel rows root : ∀ path tip,
  (∀ r p, r ∈ rows → br_parent r = Some p → depth p < depth (br_branch r)) →
  (∀ b, b ∈ path → depth b <= depth tip) →
  (length rows + 1 < length path + fuel)%nat → NoDup path → (∀ b, b ∈ path → b = root ∨ b ∈ (br_branch <$> rows)) →
  ∃ res, path_from fuel rows path tip = Ok res.
Proof.
  induction fuel as [|fuel IH]; intros path tip Hd Hle Hf Hnd Hin.
  - exfalso. by apply (path_from_enough 0 rows root path tip).
  - cbn. destruct (elect rows tip) as [next|] eqn:He; [|eauto]. apply elect_in in He as [Hr Hp]. pose proof (Hd _ _ Hr Hp) as Hlt.
    rewrite bool_decide_false by (intros Hb; specialize (Hle _ Hb); lia). apply IH; [done| | | |].
    + intros b [Hb| ->%list_elem_of_singleton]%elem_of_app; [specialize (Hle _ Hb)|]; lia.
    + rewrite length_app. cbn. lia.
    + apply NoDup_app. split_and!; [done| |apply NoDup_singleton]. intros b Hb ->%list_elem_of_singleton. specialize (Hle _ Hb). lia.
    + intros b [Hb| ->%list_elem_of_singleton]%elem_of_app; [auto|]. right. by apply list_elem_of_fmap_2.
Qed.
End elect.
