(* ===== verification/GroupConverge.v ===== *)
(** * GroupConverge: members of a group end on one branch, with its keys

    Runs of GroupJournal's operations by different members of one group: commits arrive
    in any order, interleaved with messages, sends and pruning. *)

From S2P Require Import Prelude Verdict Bytes Crypto Keyspace GroupPolicy Groups GroupHistory GroupJournal GroupJournalProps.
From Stdlib Require String.

(** A commit, as every member that processes it sees it: the state it was made on, its
    bytes, the state it leads to and its author's rank there. *)
Record Event := mkEvent {
  ev_parent : bytes;
  ev_message : bytes;
  ev_branch : bytes;
  ev_rank : Z;
}.

Section runs.
Context {Snap : Type} (load : Snap → MlsGroup) (fits : Snap → bool) (sha256 : bytes → bytes).
Implicit Types (j : Journal Snap) (ev : Event) (rows : list (BranchRow Snap)) (f : BranchRow Snap → BranchRow Snap).

(** [ev] is recorded, by its author or by a receiver. *)
Inductive recorded j ev j' : Prop :=
| recorded_intro branch tx working c jobs replay rcvd now pub :
    open_transaction load fits j branch = Ok (Some tx) → tx_parent tx = ev_parent ev →
    branch_of load working = ev_branch ev → ca_rank c = ev_rank ev → ca_message c = ev_message ev →
    publish load fits sha256 j tx working (Some c) jobs replay rcvd now = Ok (j', pub) → recorded j ev j'.

(** Everything else a member does with the journal. *)
Inductive quiet j j' : Prop :=
| quiet_message branch tx working jobs replay rcvd now pub :
    open_transaction load fits j branch = Ok (Some tx) →
    publish load fits sha256 j tx working None jobs replay rcvd now = Ok (j', pub) → quiet j j'
| quiet_prune now : prune j now = Ok j' → quiet j j'
| quiet_discard id : j' = discard_replay j id → quiet j j'
| quiet_materialized jobs : j' = materialized j jobs → quiet j j'.

Inductive follows : Journal Snap → list Event → Journal Snap → Prop :=
| follows_nil j : follows j [] j
| follows_commit j ev j1 l j2 : recorded j ev j1 → follows j1 l j2 → follows j (ev :: l) j2
| follows_quiet j j1 l j2 : quiet j j1 → follows j1 l j2 → follows j l j2.

(** A member at the state [b], before any commit. *)
Definition fresh (b : bytes) j : Prop :=
  jn_root j = None ∧ jn_rows j = [] ∧ ∃ live, jn_live j = Some live ∧ branch_of load live = b.

(** A branch is what one commit makes of an earlier epoch, none leads back to [b], and a
    commit hash stands for one commit. *)
Record consistent (depth : bytes → Z) (b : bytes) (evs : list Event) : Prop := {
  co_branch : ∀ e e', e ∈ evs → e' ∈ evs → ev_branch e = ev_branch e' → e = e';
  co_start : ∀ e, e ∈ evs → ev_branch e ≠ b;
  co_depth : ∀ e, e ∈ evs → depth (ev_parent e) < depth (ev_branch e);
  co_hash : ∀ e e', e ∈ evs → e' ∈ evs → ev_parent e = ev_parent e' → sha256 (ev_message e) = sha256 (ev_message e') →
            ev_branch e = ev_branch e';
}.

(** ** The table a run leaves *)

Record table (b : bytes) (evs : list Event) (rows : list (BranchRow Snap)) : Prop := {
  ta_root : b ∈ (br_branch <$> rows);
  ta_once : NoDup (br_branch <$> rows);
  ta_top : ∀ r, r ∈ rows → br_parent r = None → br_branch r = b;
  ta_commits : ∀ p x, commits rows p x ↔ ∃ ev, ev ∈ evs ∧ ev_parent ev = p ∧ x = (ev_branch ev, ev_rank ev, sha256 (ev_message ev));
  ta_parent : ∀ r p, r ∈ rows → br_parent r = Some p → p ∈ (br_branch <$> rows);
  ta_snap : ∀ r s, r ∈ rows → br_snapshot r = Some s → branch_of load s = br_branch r;
}.

(** The head's keys are kept. *)
Definition head_kept (b : bytes) (rows : list (BranchRow Snap)) : Prop :=
  ∃ path h r s, canonical_path (Some b) rows = Ok path ∧ last path = Some h ∧ find_row rows h = Some r ∧ br_snapshot r = Some s.

Lemma find_row_map f rows b : keeps_key f → find_row (f <$> rows) b = f <$> find_row rows b.
Proof.
  intros Hf. unfold find_row. induction rows as [|r rows IH]; [done|]. cbn [fmap list_fmap]. destruct (Hf r) as (Hb & _).
  destruct (decide (br_branch r = b)).
  - by rewrite !filter_cons_True by congruence.
  - by rewrite !filter_cons_False by congruence.
Qed.

Lemma branches_map f rows : keeps_key f → br_branch <$> (f <$> rows) = br_branch <$> rows.
Proof. intros Hf. induction rows as [|r rows IH]; [done|]. cbn. destruct (Hf r) as (-> & _). by rewrite <- IH. Qed.

Lemma commits_map f rows p x : keeps_key f → commits (f <$> rows) p x ↔ commits rows p x.
Proof.
  intros Hf. unfold commits. split.
  - intros (r & (r0 & -> & Hr)%list_elem_of_fmap & Hp & ->). destruct (Hf r0) as (Hb & Hp' & Hr' & Hh). exists r0. by rewrite <- Hp', Hb, Hr', Hh.
  - intros (r & Hr & Hp & ->). destruct (Hf r) as (Hb & Hp' & Hr' & Hh). exists (f r). rewrite Hp', Hb, Hr', Hh. split; [|done]. by apply list_elem_of_fmap_2.
Qed.

Lemma table_map f b evs rows :
  keeps_key f → (∀ r s, r ∈ rows → br_snapshot (f r) = Some s → branch_of load s = br_branch r) →
  table b evs rows → table b evs (f <$> rows).
Proof.
  intros Hf Hs [Hroot Honce Htop Hcom Hpar Hsnap]. split; rewrite ?branches_map by done; try done.
  - intros r (r0 & -> & Hr)%list_elem_of_fmap. destruct (Hf r0) as (-> & -> & _). by apply Htop.
  - intros p x. by rewrite commits_map.
  - intros r p (r0 & -> & Hr)%list_elem_of_fmap. destruct (Hf r0) as (_ & -> & _). by apply Hpar.
  - intros r s (r0 & -> & Hr)%list_elem_of_fmap Hsn. destruct (Hf r0) as (-> & _). by apply Hs.
Qed.

Lemma head_kept_map f b rows :
  keeps_key f → (∀ r, r ∈ rows → is_Some (br_snapshot r) → is_Some (br_snapshot (f r))) → head_kept b rows → head_kept b (f <$> rows).
Proof.
  intros Hf Hs (path & h & r & s & Hp & Hl & Hr & Hsn). pose proof (find_row_Some _ _ _ Hr) as [Hin _].
  destruct (Hs r Hin) as [s' Hs']; [by rewrite Hsn|]. exists path, h, (f r), s'. rewrite canonical_map, find_row_map, Hr by done. done.
Qed.

Lemma canonical_elected b rows path :
  canonical_path (Some b) rows = Ok path ↔ ∃ post, path = b :: post ∧ elected rows b post ∧ NoDup path.
Proof.
  cbn [canonical_path]. split.
  - intros (post & -> & Hel & Hnd)%path_from_elected; [|apply NoDup_singleton]. by exists post.
  - intros (post & -> & Hel & Hnd). apply (elected_path _ _ _ [b]); [|done|done]. apply NoDup_cons in Hnd as [_ Hnd].
    assert (length post <= length (br_branch <$> rows))%nat as Hle.
    { apply submseteq_length, NoDup_submseteq; [done|]. by apply (elected_rows rows post b). }
    rewrite length_fmap in Hle. lia.
Qed.

Section consistent.
Context (depth : bytes → Z) (b : bytes).

Lemma canonical_ok evs rows : consistent depth b evs → table b evs rows → ∃ path, canonical_path (Some b) rows = Ok path.
Proof.
  intros Hc Ht. cbn [canonical_path]. apply (path_from_acyclic depth _ rows b).
  - intros r p Hr Hp. destruct (proj1 (ta_commits _ _ _ Ht p (br_branch r, br_rank r, br_hash r))) as (ev & Hev & <- & [= -> _ _]).
    { by exists r. }
    by apply (co_depth _ _ _ Hc).
  - intros x ->%list_elem_of_singleton. lia.
  - cbn. lia.
  - apply NoDup_singleton.
  - intros x ->%list_elem_of_singleton. by left.
Qed.

Lemma commits_snoc rows (e : BranchRow Snap) p x :
  commits (rows ++ [e]) p x ↔ commits rows p x ∨ br_parent e = Some p ∧ x = (br_branch e, br_rank e, br_hash e).
Proof.
  unfold commits. split.
  - intros (r & [Hr| ->%list_elem_of_singleton]%elem_of_app & Hp & ->); [left; eauto|by right].
  - intros [(r & Hr & Hp & ->)|[Hp ->]]; [exists r|exists e]; (split; [|done]); apply elem_of_app; [by left|].
    right. by apply list_elem_of_singleton.
Qed.

Lemma table_snoc ev evs rows (e : BranchRow Snap) :
  table b evs rows → br_branch e = ev_branch ev → br_parent e = Some (ev_parent ev) → br_rank e = ev_rank ev →
  br_hash e = sha256 (ev_message ev) → ev_branch ev ∉ (br_branch <$> rows) → ev_parent ev ∈ (br_branch <$> rows) →
  (∀ s, br_snapshot e = Some s → branch_of load s = br_branch e) → table b (ev :: evs) (rows ++ [e]).
Proof.
  intros [Hroot Honce Htop Hcom Hpar Hsnap] Hb Hp Hr Hh Hnew Hin Hs. split; rewrite ?fmap_app; cbn [fmap list_fmap].
  - apply elem_of_app. by left.
  - apply NoDup_app. split_and!; [done| |apply NoDup_singleton]. intros x Hx ->%list_elem_of_singleton. by rewrite Hb in Hx.
  - intros r [Hr'| ->%list_elem_of_singleton]%elem_of_app; [by apply Htop|]. by rewrite Hp.
  - intros p x. rewrite commits_snoc, Hcom, Hb, Hp, Hr, Hh. setoid_rewrite elem_of_cons. naive_solver.
  - intros r p [Hr'| ->%list_elem_of_singleton]%elem_of_app Hrp; apply elem_of_app; left; [by apply (Hpar r)|]. congruence.
  - intros r s [Hr'| ->%list_elem_of_singleton]%elem_of_app; [by apply Hsnap|]. apply Hs.
Qed.

(** A branch that has a row was made by the event that makes it. *)
Lemma table_again ev evs rows :
  consistent depth b (ev :: evs) → table b evs rows → ev_branch ev ∈ (br_branch <$> rows) → table b (ev :: evs) rows.
Proof.
  intros Hc Ht (r & Hb & Hr)%list_elem_of_fmap. assert (ev ∈ evs) as Hin.
  { destruct (br_parent r) as [p|] eqn:Hp.
    - destruct (proj1 (ta_commits _ _ _ Ht p (br_branch r, br_rank r, br_hash r))) as (e0 & He0 & _ & [= Hb0 _ _]); [by exists r|].
      rewrite (co_branch _ _ _ Hc ev e0); [done|by left|by right|congruence].
    - destruct (co_start _ _ _ Hc ev); [by left|]. rewrite Hb. by apply (ta_top _ _ _ Ht). }
  destruct Ht as [Hroot Honce Htop Hcom Hpar Hsnap]. split; try done. intros p x. rewrite Hcom. setoid_rewrite elem_of_cons. naive_solver.
Qed.

Lemma find_row_snoc rows (e : BranchRow Snap) x :
  find_row (rows ++ [e]) x = match find_row rows x with Some r => Some r | None => if decide (br_branch e = x) then Some e else None end.
Proof.
  unfold find_row. rewrite filter_app. destruct (filter (λ r, br_branch r = x) rows); [|done]. cbn [app head].
  destruct (decide (br_branch e = x)); [by rewrite (filter_cons_True _ e [])|by rewrite (filter_cons_False _ e [])].
Qed.

Lemma head_kept_snoc evs rows (e : BranchRow Snap) :
  table b evs rows → head_kept b rows → (∃ path, canonical_path (Some b) (rows ++ [e]) = Ok path) →
  br_branch e ∉ (br_branch <$> rows) → (∀ p, br_parent e = Some p → p ∈ (br_branch <$> rows)) → is_Some (br_snapshot e) →
  head_kept b (rows ++ [e]).
Proof.
  intros Ht (path0 & h0 & r0 & s0 & Hp0 & Hl0 & Hr0 & Hs0) [path Hpath] Hnew Hpar [s Hs].
  pose proof (proj1 (canonical_elected _ _ _) Hpath) as (post & -> & Hel & Hnd).
  destruct (decide (br_branch e ∈ post)) as [Hin|Hout].
  - apply list_elem_of_split in Hin as (pre & rest & ->). pose proof (elected_drop _ _ _ _ _ Hel) as Hdrop.
    assert (rest = []) as ->.
    { destruct rest as [|x rest]; [done|]. destruct Hdrop as [Hx _]. destruct (elect (rows ++ [e]) (br_branch e)) as [r|] eqn:He; [|done].
      apply elect_in in He as [Hr Hrp]. exfalso. apply Hnew. apply elem_of_app in Hr as [Hr| ->%list_elem_of_singleton]; [|by apply Hpar].
      by apply (ta_parent _ _ _ Ht r). }
    exists (b :: pre ++ [br_branch e]), (br_branch e), e, s. split_and!; [done| | |done].
    + change (b :: pre ++ [br_branch e]) with ((b :: pre) ++ [br_branch e]). apply last_snoc.
    + rewrite find_row_snoc, (proj2 (find_row_None _ _) Hnew). by rewrite decide_True.
  - apply elected_snoc_out in Hel; [|done]. assert (canonical_path (Some b) rows = Ok (b :: post)) as Heq by (apply canonical_elected; eauto).
    rewrite Heq in Hp0. injection Hp0 as <-. exists (b :: post), h0, r0, s0. split_and!; [done|done| |done]. by rewrite find_row_snoc, Hr0.
Qed.

(** ** Runs *)

Definition sound (evs : list Event) j : Prop :=
  ∃ live, jn_live j = Some live ∧
    match jn_root j with
    | None => jn_rows j = [] ∧ evs = [] ∧ branch_of load live = b
    | Some root => root = b ∧ table b evs (jn_rows j) ∧ head_kept b (jn_rows j) ∧
                   ∃ path, canonical_path (Some b) (jn_rows j) = Ok path ∧ last path = Some (branch_of load live)
    end.

(** What an operation works on is a branch of the table, or [b] before there is one. *)
Lemma open_sound evs j branch tx :
  sound evs j → open_transaction load fits j branch = Ok (Some tx) →
  branch_of load (tx_source tx) = tx_parent tx ∧
  match jn_root j with None => tx_parent tx = b | Some _ => tx_parent tx ∈ (br_branch <$> jn_rows j) end.
Proof.
  intros (live & Hlive & Hs) Ho. unfold open_transaction in Ho. rewrite Hlive in Ho.
  set (retained := match branch with Some id => _ | None => None end) in Ho.
  assert (∀ s, retained = Some (Some s) → ∃ r, r ∈ jn_rows j ∧ br_snapshot r = Some s) as Hret.
  { intros s. unfold retained. destruct branch as [id|]; [|done]. destruct (find_row _ _) as [r|] eqn:Hf; [|done].
    intros [= Hsn]. exists r. split; [|done]. by apply find_row_Some in Hf as [? _]. }
  assert (∃ source, tx_source tx = source ∧ tx_parent tx = branch_of load source ∧ (source = live ∨ retained = Some (Some source)))
    as (source & Hsrc & Hpar & Hcase).
  { destruct retained as [[s|]|]; [|done|]; apply bind_ok in Ho as ([] & _ & Ho);
      (match type of Ho with (if ?c then _ else _) = _ => destruct c; [done|] end); apply bind_ok in Ho as ([] & _ & [= <-]); cbn; eauto. }
  split; [by rewrite Hsrc|]. rewrite Hpar. destruct Hcase as [->|Hr].
  - destruct (jn_root j); [|by destruct Hs as (_ & _ & ?)].
    destruct Hs as (-> & Ht & (path & h & r & s & Hp & Hl & Hf & _) & (path' & Hp' & Hl')). rewrite Hp in Hp'. injection Hp' as <-.
    rewrite Hl in Hl'. injection Hl' as <-. apply find_row_Some in Hf as [Hin <-]. by apply list_elem_of_fmap_2.
  - destruct (Hret _ Hr) as (r & Hin & Hsn). destruct (jn_root j).
    + destruct Hs as (-> & Ht & _). rewrite (ta_snap _ _ _ Ht r source Hin Hsn). by apply list_elem_of_fmap_2.
    + destruct Hs as (Hnil & _). rewrite Hnil in Hin. by apply not_elem_of_nil in Hin.
Qed.

(** The table with the operation's parent in it. *)
Lemma parent_sound evs j branch tx epoch now :
  sound evs j → open_transaction load fits j branch = Ok (Some tx) →
  let rows0 := insert_row (mkBranchRow (tx_parent tx) None epoch 0 [] None (Some (tx_source tx)) None None None now) (jn_rows j) in
  default (tx_parent tx) (jn_root j) = b ∧ table b evs rows0 ∧ head_kept b rows0 ∧ tx_parent tx ∈ (br_branch <$> rows0).
Proof.
  intros Hs Ho. pose proof (open_sound _ _ _ _ Hs Ho) as [Hsrc Hpar]. destruct Hs as (live & Hlive & Hs).
  destruct (jn_root j) as [root|]; cbn zeta.
  - destruct Hs as (-> & Ht & Hk & _). unfold insert_row. cbn [br_branch].
    destruct (find_row (jn_rows j) (tx_parent tx)) eqn:Hf; [done|]. by apply find_row_None in Hf.
  - destruct Hs as (-> & -> & _). cbn [insert_row find_row]. cbn. rewrite Hpar in *. set (r := mkBranchRow _ _ _ _ _ _ _ _ _ _ _).
    assert (elect [r] b = None) as Hel by done. split_and!; [done| | |by left].
    + split; cbn; [by left|apply NoDup_singleton| | | |].
      * by intros r' ->%list_elem_of_singleton.
      * intros p x. split; [by intros (r' & ->%list_elem_of_singleton & ? & _)|]. intros (ev & Hev & _). by apply not_elem_of_nil in Hev.
      * by intros r' p ->%list_elem_of_singleton.
      * intros r' s ->%list_elem_of_singleton [= <-]. done.
    + exists [b], b, r, (tx_source tx). split_and!; [|done| |done].
      * apply canonical_elected. exists []. split_and!; [done|done|apply NoDup_singleton].
      * unfold find_row. by rewrite (filter_cons_True _ r []).
Qed.

(** The live keys are the head's. *)
Lemma publish_sound evs' j tx working candidate jobs replay rcvd now j' pub :
  default (tx_parent tx) (jn_root j) = b →
  (let rows := publish_rows load sha256 (jn_rows j) tx working candidate now in table b evs' rows ∧ head_kept b rows) →
  publish load fits sha256 j tx working candidate jobs replay rcvd now = Ok (j', pub) → sound evs' j' ∧ pb_needs_recovery pub = false.
Proof.
  cbn zeta. intros Hb [Ht (path & h & r & s & Hp & Hl & Hf & Hs)] Hpub. unfold publish in Hpub. rewrite Hb in Hpub.
  apply bind_ok in Hpub as ([] & _ & Hpub). apply bind_ok in Hpub as (before & _ & Hpub). apply bind_ok in Hpub as (prev & _ & Hpub).
  rewrite Hp in Hpub. cbn [mbind verdict_bind] in Hpub. rewrite Hl in Hpub. cbn [ok_or mbind verdict_bind] in Hpub.
  rewrite Hf in Hpub. cbn [ok_or mbind verdict_bind] in Hpub. rewrite Hs in Hpub.
  apply bind_ok in Hpub as (live & Hlive & Hpub). apply bind_ok in Hpub as ([] & _ & Hpub).
  destruct (foldl _ _ jobs) as [ids jobs']. injection Hpub as <- <-. split; [|done].
  exists live. split; [done|]. cbn [jn_root jn_rows]. split_and!; [done|done|by exists path, h, r, s|]. exists path. split; [done|].
  rewrite Hl. f_equal. case_bool_decide as Hh; [by injection Hlive as <-|].
  apply bind_ok in Hlive as ([] & _ & [= <-]). apply find_row_Some in Hf as [Hin <-]. symmetry. by apply (ta_snap _ _ _ Ht).
Qed.

Lemma record_sound evs j ev j' : consistent depth b (ev :: evs) → sound evs j → recorded j ev j' → sound (ev :: evs) j'.
Proof.
  intros Hc Hs [branch tx working c jobs replay rcvd now pub Ho Hpar Hbr Hrank Hmsg Hpub].
  destruct (parent_sound _ _ _ _ (sat_sub (g_epoch (load working)) 1) now Hs Ho) as (Hroot & Ht0 & Hk0 & Hin0).
  eapply publish_sound; [exact Hroot| |exact Hpub]. cbn zeta. unfold publish_rows.
  set (rows0 := insert_row _ (jn_rows j)) in *. set (archive := λ r : BranchRow Snap, mkBranchRow _ _ _ _ _ _ _ _ _ _ _).
  assert (keeps_key (λ r, if bool_decide (br_branch r = tx_parent tx) then archive r else r)) as Hkey by by apply map_row_keeps.
  assert (∀ r, br_snapshot (if bool_decide (br_branch r = tx_parent tx) then archive r else r) = br_snapshot r) as Hsn
    by (intros r; by destruct (bool_decide _)).
  set (rows1 := map_row (tx_parent tx) archive rows0).
  assert (table b evs rows1) as Ht1.
  { apply table_map; [done| |done]. intros r s Hr. rewrite Hsn. by apply (ta_snap _ _ _ Ht0). }
  assert (head_kept b rows1) as Hk1 by (apply head_kept_map; [done| |done]; intros r _; by rewrite Hsn).
  assert (tx_parent tx ∈ (br_branch <$> rows1)) as Hin1 by (unfold rows1, map_row; by rewrite branches_map).
  unfold insert_row. cbn [br_branch]. destruct (find_row rows1 (branch_of load working)) as [r|] eqn:Hf.
  - split; [|done]. apply table_again; [done|done|]. rewrite <- Hbr. apply find_row_Some in Hf as [Hr <-]. by apply list_elem_of_fmap_2.
  - apply find_row_None in Hf. set (e := mkBranchRow _ _ _ _ _ _ _ _ _ _ _).
    assert (table b (ev :: evs) (rows1 ++ [e])) as Ht2.
    { apply table_snoc; cbn; [done|done|congruence|done|congruence|congruence|congruence|by intros s [= <-]]. }
    split; [done|]. apply (head_kept_snoc evs); [done|done|by apply (canonical_ok (ev :: evs))|done| |done]. by intros p [= <-].
Qed.

Lemma prune_sound evs j now j' : sound evs j → prune j now = Ok j' → sound evs j'.
Proof.
  intros (live & Hlive & Hs) Hp. unfold prune in Hp. apply bind_ok in Hp as (path & Hpath & Hp).
  destruct (jn_root j) as [root|] eqn:Hroot.
  - destruct Hs as (-> & Ht & (path0 & h & r & s & Hp0 & Hl0 & Hf & Hs) & (path1 & Hp1 & Hl1)).
    rewrite Hpath in Hp0, Hp1. injection Hp0 as <-. injection Hp1 as <-. rewrite Hl0 in Hl1, Hp. injection Hl1 as ->. injection Hp as <-.
    set (f := retire _ _). assert (keeps_key f) as Hkey by (intros r'; unfold f, retire; by destruct (_ && _)).
    exists live. cbn [jn_live jn_root jn_rows]. split; [done|]. split; [done|]. rewrite canonical_map by done. split_and!.
    + apply table_map; [done| |done]. intros r' s' Hr'. unfold f, retire. destruct (_ && _); [done|]. by apply (ta_snap _ _ _ Ht).
    + exists path, (branch_of load live), r, s. rewrite canonical_map, find_row_map, Hf by done. split_and!; [done|done| |done]. cbn. f_equal.
      unfold f, retire. apply find_row_Some in Hf as [_ ->]. by rewrite bool_decide_true.
    + by exists path.
  - cbn in Hpath. injection Hpath as <-. injection Hp as <-. exists live. by rewrite Hroot.
Qed.

Lemma quiet_sound evs j j' : sound evs j → quiet j j' → sound evs j'.
Proof.
  intros Hs [branch tx working jobs replay rcvd now pub Ho Hpub|now Hp|id ->|jobs ->].
  - destruct (parent_sound _ _ _ _ (g_epoch (load working)) now Hs Ho) as (Hroot & Ht0 & Hk0 & _).
    eapply publish_sound; [exact Hroot| |exact Hpub]. cbn zeta. unfold publish_rows.
    set (rows0 := insert_row _ (jn_rows j)) in *. set (save := λ r : BranchRow Snap, mkBranchRow _ _ _ _ _ _ _ _ _ _ _). split.
    + apply table_map; [by apply map_row_keeps| |done]. intros r s Hr. case_bool_decide as Hbr; [by intros [= <-]|]. by apply (ta_snap _ _ _ Ht0).
    + apply head_kept_map; [by apply map_row_keeps| |done]. intros r _ Hsn. by case_bool_decide.
  - by eapply prune_sound.
  - done.
  - done.
Qed.

Lemma consistent_sub evs evs' : (∀ e, e ∈ evs' → e ∈ evs) → consistent depth b evs → consistent depth b evs'.
Proof. intros Hsub [H1 H2 H3 H4]. split; eauto. Qed.

Lemma follows_sound all j l j' : follows j l j' → ∀ evs,
  (∀ e, e ∈ l ++ evs → e ∈ all) → consistent depth b all → sound evs j →
  ∃ evs', sound evs' j' ∧ ∀ e, e ∈ evs' ↔ e ∈ l ++ evs.
Proof.
  induction 1 as [j|j ev j1 l j2 Hrec _ IH|j j1 l j2 Hq _ IH]; intros evs Hall Hc Hs.
  - by exists evs.
  - destruct (IH (ev :: evs)) as (evs' & Hs' & Hiff).
    + intros e. rewrite elem_of_app, elem_of_cons. intros He. apply Hall. rewrite elem_of_app, elem_of_cons. tauto.
    + done.
    + eapply record_sound; [|done|done]. eapply consistent_sub; [|done]. intros e. rewrite elem_of_cons. intros He. apply Hall.
      rewrite elem_of_app, elem_of_cons. tauto.
    + exists evs'. split; [done|]. intros e. rewrite Hiff, !elem_of_app, !elem_of_cons. tauto.
  - apply IH; [done|done|]. by eapply quiet_sound.
Qed.
End consistent.

End runs.
