(* ===== verification/GroupInvitations.v ===== *)
(** * GroupInvitations: an invitation moves a device forward, or nowhere

    [accept_welcome] of libcore/src/mls/recovery.rs on a device that already has the
    group: which histories replace which. *)

From S2P Require Import Prelude Verdict Bytes Crypto Keyspace GroupPolicy Groups GroupHistory GroupJournal GroupJournalProps.
From Stdlib Require String.

(** The election keys along a history *)
Definition keys (hist : list GroupBranch) : list (Z * bytes) := (λ p, (gb_rank p, gb_commit_hash p)) <$> hist.

(** [new] goes further than [old], or wins the first election they differ in. *)
Fixpoint outranked (old new : list (Z * bytes)) : Prop :=
  match old, new with
  | _, [] => False
  | [], _ :: _ => True
  | o :: old, n :: new => beats n.1 n.2 o.1 o.2 = true ∨ o = n ∧ outranked old new
  end.

#[global] Instance outranked_strict : StrictOrder outranked.
Proof.
  split.
  - intros l. induction l as [|[r h] l IH]; [by intros []|]. cbn. intros [Hb|[_ Ho]]; [by rewrite beats_irrefl in Hb|by apply IH].
  - intros l1. induction l1 as [|[r1 h1] l1 IH]; intros [|[r2 h2] l2] [|[r3 h3] l3]; cbn; try done.
    intros [H12|[[= -> ->] H12]] [H23|[[= -> ->] H23]].
    + left. by eapply beats_trans.
    + by left.
    + by left.
    + right. split; [done|]. by eapply IH.
Qed.

Lemma preferred_outranked more old : ∀ new allow,
  preferred_entries allow old new = true → (allow = true → more = []) → outranked (keys (old ++ more)) (keys new).
Proof.
  induction old as [|o old IH]; intros [|n new] allow Hp Hm; cbn in *; try done.
  - subst allow. by rewrite Hm.
  - destruct (negb (bool_decide _)); [by left|]. destruct (_ || _) eqn:Hk; [done|]. breflect. right. split; [by f_equal|]. by eapply IH.
Qed.

Lemma append_proofs_prefix {Snap} (rows : list (BranchRow Snap)) path : ∀ hist res,
  append_proofs rows hist path = Ok res → ∃ more, res = hist ++ more.
Proof.
  induction path as [|b path IH]; intros hist res Ha; cbn in Ha.
  - injection Ha as <-. exists []. by rewrite app_nil_r.
  - case_bool_decide; [by apply IH|]. apply bind_ok in Ha as (p & _ & Ha). apply IH in Ha as [more ->].
    exists (p :: more). by rewrite <- app_assoc.
Qed.

Section invitations.
Context {Snap : Type} (load : Snap → MlsGroup).
Context `{Crypto} `{Prefixed MetaHead} `{Codec GroupState} `{Codec GroupChange} `{Codec PublicState} `{Codec ProofBody}.
Implicit Types (j : Journal Snap).

Lemma history_in_joined j b hist inviter old :
  history_in j b = Ok hist → jn_joined j = Some (inviter, old) → ∃ more, hist = old ++ more.
Proof.
  unfold history_in. intros Hh Hj. rewrite Hj in Hh. apply bind_ok in Hh as (path & _ & Hh). apply bind_ok in Hh as (res & Ha & Hh).
  apply bind_ok in Hh as ([] & _ & [= <-]). by apply append_proofs_prefix in Ha.
Qed.

(** C13: An invitation never takes a device back.  A device that has a group and accepts
    an invitation to it moves to a history that was verified from the founder on, that
    begins at the same entry, and that beats the one the device had: it wins the first
    election in which they differ, or goes further.  The order is strict, so no exchange of
    invitations, by whomever, returns a device to a history it has left. *)
Theorem welcome_moves_forward j snap hist sender kp_ref refresh anchor now j' old :
  jn_live j = Some old → accept_welcome load j snap hist sender kp_ref refresh anchor now = Ok j' →
  jn_live j' = Some snap ∧ jn_root j' = Some (branch_of load snap) ∧
  verify_history (g_id (load snap)) hist (load snap) = Ok tt ∧
  (∃ prev, history_in j (branch_of load old) = Ok prev ∧ head prev = head hist ∧ outranked (keys prev) (keys hist)) ∧
  StrictOrder outranked.
Proof.
  intros Hlive Ha. unfold accept_welcome in Ha. rewrite Hlive in Ha. apply bind_ok in Ha as (prev & Hprev & Ha).
  apply bind_ok in Hprev as (h & Hh & [= <-]). apply bind_ok in Ha as ([] & Hv & Ha). apply bind_ok in Ha as ([] & _ & Ha).
  apply bind_ok in Ha as ([] & Hpref & Ha). apply bind_ok in Ha as ([] & _ & Ha). apply bind_ok in Ha as ([] & _ & [= <-]).
  split; [done|]. split; [done|]. split; [done|]. split; [|apply _]. exists h. split; [done|].
  destruct (match refresh with Some _ => _ | None => false end).
  - apply ensure_ok in Hpref. unfold preferred_history in Hpref. destruct (negb _) eqn:Hhd; [done|]. breflect. split; [done|].
    rewrite <- (app_nil_r h). by eapply preferred_outranked.
  - apply bind_ok in Hpref as ([inviter jold] & Hj & Hpref). apply ok_or_ok in Hj. apply bind_ok in Hpref as ([] & _ & Hpref).
    apply ensure_ok in Hpref. unfold preferred_history in Hpref. destruct (negb _) eqn:Hhd; [done|]. breflect.
    destruct (history_in_joined _ _ _ _ _ Hh Hj) as [more ->]. destruct jold as [|o jold]; [by destruct hist|].
    split; [by rewrite <- Hhd|]. by eapply preferred_outranked.
Qed.

(** C37: A member that saw its own refresh refuses the keys it asked for.  The commit that
    carries a member's refresh request is sent to that member too; a device that can
    process it has the commit's entry at the end of its own history, with its old leaf
    removed, and then refuses every invitation to that state, the one that restores its
    keys included. *)
Theorem refreshed_member_locked_out j snap hist sender kp_ref request anchor now evicted :
  jn_live j = Some evicted → history_in j (branch_of load evicted) = Ok hist →
  verify_history (g_id (load snap)) hist (load snap) = Ok tt → gb_branch <$> head hist = Some anchor →
  (m ← group_meta (load snap); st ← gm_state m; c ← last_change st; Some (sc_change c)) = Some (ChMemberRequest request) →
  accept_welcome load j snap hist sender kp_ref (Some request) (Some anchor) now
  = Err "resync invitation moves onto a losing branch"%string.
Proof.
  intros Hlive Hh Hv Hanchor Hreq. unfold accept_welcome. rewrite Hlive, Hh, Hv. cbn [mbind verdict_bind].
  rewrite (bool_decide_true (gb_branch <$> head hist = Some anchor)) by done. cbn [ensure mbind verdict_bind].
  rewrite (bool_decide_true (_ = Some (ChMemberRequest request))) by done.
  assert (preferred_history hist hist true = false) as ->; [|done]. apply not_true_iff_false. unfold preferred_history.
  rewrite (bool_decide_true (head hist = head hist)) by done. cbn [negb]. intros Hp. apply (preferred_outranked []) in Hp; [|done].
  rewrite app_nil_r in Hp. by apply (irreflexivity outranked) in Hp.
Qed.
End invitations.
