(* ===== verification/GroupReceive.v ===== *)
(** * GroupReceive: a frame of a group arrives

    [receive] and [drain] of libcore/src/groups/recovery.rs.  OpenMLS decrypting a frame
    on a snapshot ([process]), merging a commit ([merge]) and opening the sealed proof
    that travels with it ([open_proof]) are parameters.  What the client's messages
    database does with the result (narrating changes, showing posts) is not modelled;
    [Effects] says what it is told. *)

From S2P Require Import Prelude Verdict Bytes Crypto Keyspace Proto MlsWire GroupPolicy Groups GroupHistory GroupAgreement GroupJournal GroupJournalProps.
From Stdlib Require String.

Definition MLS_ENVELOPE_VERSION : Z := 1.
Definition MAX_FRAMED_MLS_BYTES : Z := 1024 * 1024 - 16 * 1024.
Definition MAX_EPOCH_AHEAD : Z := 64.
Definition MAX_EPOCH_AHEAD_BUFFER : Z := 512.

(** [MlsApplicationEnvelopeP] *)
Record GroupFrame := mkFrame {
  fr_version : Z;
  fr_group_id : bytes;
  fr_epoch : Z;
  fr_message : bytes;
  fr_sig : bytes;
}.

(** A frame as it was dispatched: its branch and sealed proof, who sent it, the dispatch id
    and when the relay accepted it. *)
Record Arrival := mkArrival {
  ar_sender : bytes;
  ar_branch : bytes;
  ar_frame : GroupFrame;
  ar_proof : option bytes;
  ar_dispatch : bytes;
  ar_accepted_at_ms : Z;
}.

(** What OpenMLS makes of a frame, with the rows it leaves. *)
Inductive Processed (Snap : Type) :=
| PrMalformed
| PrFailed (spent_secret : bool)
| PrApplication (author : bytes) (s : Snap) (plaintext : bytes)
| PrCommit (author : bytes) (s : Snap) (staged : StagedCommit)
| PrOther.
Arguments PrMalformed {Snap}.
Arguments PrFailed {Snap}.
Arguments PrApplication {Snap}.
Arguments PrCommit {Snap}.
Arguments PrOther {Snap}.

(** [GroupMessage] *)
Record GroupMessage := mkGroupMessage {
  gg_id : bytes;
  gg_payload : bytes;
}.

Inductive InboundDecoded := ApplicationBuffered | ApplicationStale | ApplicationUndecryptable | ApplicationNoGroup.

(** What the rest of the client is told: the change to narrate, whether to ask for fresh
    keys, and whether the head moved. *)
Record Effects := mkEffects {
  ef_changed : option Changed;
  ef_refresh : bool;
  ef_resume : bool;
}.

(** A device: the group's journal and [mls_branch_inbox], each row with when it came. *)
Record Device (Snap : Type) := mkDevice {
  dv_journal : Journal Snap;
  dv_inbox : list (Arrival * Z);
}.
Arguments mkDevice {Snap}.
Arguments dv_journal {Snap}.
Arguments dv_inbox {Snap}.

(** The inbox's key *)
Definition ar_key (a : Arrival) : bytes * bytes := (ar_sender a, ar_dispatch a).

Section receive.
Context {Snap : Type} (load : Snap → MlsGroup) (fits : Snap → bool) (sha256 : bytes → bytes).
Context `{Crypto} `{Prefixed MetaHead} `{Codec GroupState} `{Codec GroupChange} `{Codec PublicState} `{Codec ProofBody} `{Codec GroupMessage}.
Context (process : Snap → bytes → Processed Snap) (merge : Snap → StagedCommit → option Snap)
        (open_proof : Snap → bytes → option (option GroupBranch * GroupBranch)) (payload_of : bytes → option AppPayload).
Implicit Types (j : Journal Snap) (d : Device Snap) (a : Arrival).

(** A frame for a branch that cannot be opened: kept until it can *)
Definition buffer_frame d (gid : bytes) a (now : Z) : verdict (Device Snap * InboundDecoded) :=
  match jn_live (dv_journal d) with
  | None => Ok (d, ApplicationNoGroup)
  | Some live =>
      if sat_sub (fr_epoch (ar_frame a)) (g_epoch (load live)) >? MAX_EPOCH_AHEAD then Ok (d, ApplicationStale)
      else
        ensure (len (dv_inbox d) <? MAX_EPOCH_AHEAD_BUFFER) "group recovery inbox full"%string;;
        Ok (mkDevice (dv_journal d)
              (if bool_decide (ar_key a ∈ ((λ x, ar_key x.1) <$> dv_inbox d)) then dv_inbox d else dv_inbox d ++ [(a, now)]),
            ApplicationBuffered)
  end.

(** The commit branch of [receive]: the rows it leaves, the candidate and the change *)
Definition receive_commit j (tx : Transaction Snap) (proof : option (option GroupBranch * GroupBranch)) a
    (author : bytes) (s : Snap) (staged : StagedCommit) (now : Z) : verdict (option (Journal Snap * Snap * Candidate * option Changed)) :=
  let g := load (tx_source tx) in
  meta ← ok_or (group_meta g) "not a group chat"%string;
  let before := effective meta in
  match commit_is_permitted g staged author with
  | Ok (Some signed) =>
      match sc_change signed with
      | ChMemberRequest _ => hist ← history_in j (tx_parent tx); ensure_new_request hist (Some signed)
      | _ => Ok tt
      end
  | _ => Ok tt
  end;;
  match judge g staged author with
  | Err _ => Ok None
  | Ok change =>
      working ← ok_or (merge s staged) "openmls"%string;
      let changed := signed ← change; Some (mkChanged signed before) in
      '(bootstrap, p) ← ok_or proof "group commit has no recovery proof"%string;
      verify_commit sha256 g (load working) p author (fr_message (ar_frame a));;
      j ← match jn_root j with
          | Some _ => Ok j
          | None => root ← ok_or bootstrap "group upgrade has no founder proof"%string; accept_root j (Some working) g root now
          end;
      Ok (Some (j, working, mkCandidate (role before author) (fr_message (ar_frame a)) change (Some p), changed))
  end.

(** The application branch of [receive]: what it stages *)
Definition receive_application (tx : Transaction Snap) (proof : option (option GroupBranch * GroupBranch)) a
    (author : bytes) (s : Snap) (plaintext : bytes) : verdict (option Received) :=
  ensure (bool_decide (proof = None)) "application carries a commit proof"%string;;
  ensure (bool_decide (author = ar_sender a)) "application carrier is not its author"%string;;
  message ← ok_or (deser plaintext : option GroupMessage) "malformed group message"%string;
  Ok (if application_is_permitted (load s) author (payload_of (gg_payload message)) then
        Some (mkReceived author (gg_id message) (ar_accepted_at_ms a) (gg_payload message))
      else None).

(** [receive], for the device of [ours] *)
Definition receive d (gid ours : bytes) a (now : Z) : verdict (Device Snap * InboundDecoded * Effects) :=
  let fr := ar_frame a in
  let quiet := mkEffects None false false in
  ensure (fr_version fr =? MLS_ENVELOPE_VERSION) "unsupported group envelope"%string;;
  ensure (len (fr_message fr) <=? MAX_FRAMED_MLS_BYTES) "group message too large"%string;;
  ensure (verify_versioned (ar_sender a) (fr_sig fr)
            (λ v, group_envelope_signing_input v ours gid (fr_epoch fr) (ar_branch a) (fr_message fr))) "invalid signature"%string;;
  opened ← open_transaction load fits (dv_journal d) (Some (ar_branch a));
  match opened with
  | None => '(d, out) ← buffer_frame d gid a now; Ok (d, out, quiet)
  | Some tx =>
      ensure (g_epoch (load (tx_source tx)) =? fr_epoch fr) "group epoch does not match its branch"%string;;
      proof ← match ar_proof a with
              | Some sealed => p ← ok_or (open_proof (tx_source tx) sealed) "invalid encrypted history"%string; Ok (Some p)
              | None => Ok None
              end;
      match process (tx_source tx) (fr_message fr) with
      | PrMalformed => Err "malformed"%string
      | PrFailed true => Ok (d, ApplicationUndecryptable, quiet)
      | PrFailed false => Err "openmls"%string
      | PrOther => Ok (d, ApplicationStale, quiet)
      | PrApplication author s plaintext =>
          rcvd ← receive_application tx proof a author s plaintext;
          '(j, pub) ← publish load fits sha256 (dv_journal d) tx s None [] None rcvd now;
          Ok (mkDevice j (dv_inbox d), ApplicationBuffered,
              mkEffects None (pb_needs_recovery pub) (negb (bool_decide (pb_previous pub = pb_head pub))))
      | PrCommit author s staged =>
          made ← receive_commit (dv_journal d) tx proof a author s staged now;
          match made with
          | None => Ok (d, ApplicationStale, quiet)
          | Some (j, working, candidate, changed) =>
              '(j, pub) ← publish load fits sha256 j tx working (Some candidate) [] None None now;
              Ok (mkDevice j (dv_inbox d), ApplicationBuffered,
                  mkEffects (if pb_canonical pub then changed else None) (pb_needs_recovery pub)
                    (negb (bool_decide (pb_previous pub = pb_head pub))))
          end
      end
  end.

(** One pass of [drain] over the frames that can be opened: a frame that fails stays. *)
Fixpoint drain_pass d (gid ours : bytes) (pending : list Arrival) (progressed : bool) (now : Z) : Device Snap * bool :=
  match pending with
  | [] => (d, progressed)
  | a :: pending =>
      match receive d gid ours a now with
      | Err _ => drain_pass d gid ours pending progressed now
      | Ok (d, _, _) =>
          drain_pass (mkDevice (dv_journal d) (filter (λ x, ar_key x.1 ≠ ar_key a) (dv_inbox d))) gid ours pending true now
      end
  end.

(** The frames of branches whose keys the device has *)
Definition drainable d : list Arrival :=
  fst <$> filter (λ x, is_Some (find_row (jn_rows (dv_journal d)) (ar_branch x.1) ≫= br_snapshot)) (dv_inbox d).

(** The loop of [drain]; every pass but the last takes a frame out of the inbox, so as many
    as it holds and one more are enough ([drain_ends]). *)
Fixpoint drain_loop (fuel : nat) d (gid ours : bytes) (now : Z) : option (Device Snap) :=
  match fuel with
  | O => None
  | S fuel =>
      let pending := drainable d in
      if bool_decide (pending = []) then Some d
      else
        let '(d, progressed) := drain_pass d gid ours pending false now in
        if progressed then drain_loop fuel d gid ours now else Some d
  end.

Definition drain d (gid ours : bytes) (now : Z) : option (Device Snap) := drain_loop (S (length (dv_inbox d))) d gid ours now.
End receive.
