(* ===== verification/GroupReceiveProps.v ===== *)
(** * GroupReceiveProps: what a device records, it can prove

    Facts about GroupReceive: the history of every commit a device records verifies, and
    the passes over its inbox come to an end. *)

From S2P Require Import Prelude Verdict Bytes Crypto Keyspace GroupPolicy Groups GroupHistory GroupAgreement GroupJournal GroupJournalProps GroupConverge GroupReceive.
From Stdlib Require String.

Section props.
Context {Snap : Type} (load : Snap → MlsGroup) (fits : Snap → bool) (sha256 : bytes → bytes).
Context `{Crypto} `{Prefixed MetaHead} `{Codec GroupState} `{Codec GroupChange} `{Codec PublicState} `{Codec ProofBody} `{Codec GroupMessage}.
Context (process : Snap → bytes → Processed Snap) (merge : Snap → StagedCommit → option Snap)
        (open_proof : Snap → bytes → option (option GroupBranch * GroupBranch)) (payload_of : bytes → option AppPayload).
Implicit Types (j : Journal Snap) (d : Device Snap) (a : Arrival).

(** Only a parent's branch and state count for what may follow it. *)
Lemma transition_parent gid p0 p0' p :
  gb_branch p0 = gb_branch p0' → context_of p0 = context_of p0' → transition gid p0 p = transition gid p0' p.
Proof.
  intros Hb Hc. unfold transition, request_of. rewrite Hb, Hc. done.
Qed.

(** An idle commit leaves the metadata alone. *)
Lemma permitted_idle_meta g staged author g' m :
  group_meta g = Some m → proper g → commit_is_permitted g staged author = Ok None → merged g staged author g' → group_meta g' = Some m.
Proof.
  intros Hmeta Hp Hc Hm. destruct (permitted_reads g staged author _ g' m Hmeta Hp Hc Hm) as (adds & removes & next & Hr & Hmeta' & _).
  destruct next as [next|]; [|done]. unfold commit_is_permitted in Hc. apply bind_ok in Hc as ([] & _ & Hc). rewrite Hr in Hc.
  cbn [mbind verdict_bind] in Hc. rewrite Hmeta in Hc.
  apply bind_ok in Hc as ([] & _ & Hc). apply bind_ok in Hc as (? & _ & Hc). apply bind_ok in Hc as (? & _ & Hc).
  apply bind_ok in Hc as (? & _ & Hc). apply bind_ok in Hc as ([] & _ & Hc). by apply bind_ok in Hc as ([] & _ & Hc).
Qed.

Lemma transition_facts gid p0 p (a b : PublicState) :
  transition gid p0 p = Ok tt → context_of p0 = Ok a → context_of p = Ok b →
  is_Some (ps_state b) ∧ gb_rank p = role (ps_effective a) (gb_author p).
Proof.
  intros Ht Ha Hb. unfold transition in Ht. apply bind_ok in Ht as ([] & _ & Ht). rewrite Ha in Ht. cbn [mbind verdict_bind] in Ht.
  rewrite Hb in Ht. cbn [mbind verdict_bind] in Ht. apply bind_ok in Ht as ([] & _ & Ht). apply bind_ok in Ht as ([] & _ & Ht).
  apply bind_ok in Ht as ([] & Hr & Ht). apply bind_ok in Ht as (new & Hn & _). rewrite ensure_ok in *. apply ok_or_ok in Hn. breflect. eauto.
Qed.

(** What [verify_commit] establishes, against any entry of the state before. *)
Lemma verify_commit_ok g g' p author message m q :
  verify_commit sha256 g g' p author message = Ok tt → group_meta g = Some m →
  context_of q = Ok (public_of g m) → gb_branch q = g_branch g →
  gb_author p = author ∧ gb_commit_hash p = sha256 message ∧ transition (g_id g) q p = Ok tt ∧ matches_group p g' = Ok tt.
Proof.
  intros Hv Hmeta Hq Hb. unfold verify_commit in Hv. apply bind_ok in Hv as ([] & Hau & Hv). apply bind_ok in Hv as ([] & Hhash & Hv).
  rewrite (read_state_ok _ m Hmeta) in Hv. cbn [mbind verdict_bind] in Hv. apply bind_ok in Hv as (raw & Hraw & Hv).
  apply ok_or_ok in Hraw. apply bind_ok in Hv as ([] & Ht & Hm). rewrite ensure_ok in *. breflect. split_and!; try done.
  rewrite <- Ht. apply transition_parent; [done|]. rewrite Hq. unfold context_of. cbn. by rewrite (deser_ser _ _ Hraw).
Qed.

Lemma matches_group_ok p g m : matches_group p g = Ok tt → group_meta g = Some m → gb_branch p = g_branch g ∧ context_of p = Ok (public_of g m).
Proof.
  intros Hm Hmeta. apply bind_ok in Hm as ([] & Hb & Hm). apply bind_ok in Hm as (s & Hs & Hm).
  rewrite (read_state_ok g m Hmeta) in Hm. cbn [mbind verdict_bind] in Hm. rewrite ensure_ok in *. breflect. by subst s.
Qed.

(** What [receive_commit] went through when it leaves a candidate. *)
Lemma receive_commit_ok j tx proof a author s staged now j1 working c changed :
  receive_commit load sha256 merge j tx proof a author s staged now = Ok (Some (j1, working, c, changed)) →
  ∃ m change p, group_meta (load (tx_source tx)) = Some m ∧ judge (load (tx_source tx)) staged author = Ok change ∧
    (∀ hist, history_in j (tx_parent tx) = Ok hist → ensure_new_request hist change = Ok tt) ∧
    merge s staged = Some working ∧ verify_commit sha256 (load (tx_source tx)) (load working) p author (fr_message (ar_frame a)) = Ok tt ∧
    c = mkCandidate (role (effective m) author) (fr_message (ar_frame a)) change (Some p) ∧
    changed = (signed ← change; Some (mkChanged signed (effective m))).
Proof.
  intros Hr. unfold receive_commit in Hr. apply bind_ok in Hr as (m & Hmeta & Hr). apply ok_or_ok in Hmeta.
  apply bind_ok in Hr as ([] & Hnew & Hr). destruct (judge _ _ _) as [change|] eqn:Hj; [|done].
  apply bind_ok in Hr as (w & Hmerge & Hr). apply ok_or_ok in Hmerge. cbn zeta in Hr.
  apply bind_ok in Hr as ([boot p] & Hproof & Hr). apply bind_ok in Hr as ([] & Hvc & Hr).
  apply bind_ok in Hr as (j2 & _ & [= <- <- <- <-]). exists m, change, p. split_and!; try done.
  intros hist Hh. unfold judge in Hj. destruct (_ >? _); [done|]. rewrite Hj in Hnew. destruct change as [signed|]; [|done].
  unfold ensure_new_request. cbn. destruct (sc_change signed) eqn:Hch; try done.
  rewrite Hh in Hnew. cbn [mbind verdict_bind] in Hnew. unfold ensure_new_request in Hnew. cbn in Hnew. by rewrite Hch in Hnew.
Qed.

(** A commit that roots the journal leaves the rows it made as its parent's. *)
Lemma receive_commit_roots j tx proof a author s staged now j1 working c changed :
  receive_commit load sha256 merge j tx proof a author s staged now = Ok (Some (j1, working, c, changed)) → jn_root j = None →
  ∃ r, find_row (jn_rows j1) (g_branch (load (tx_source tx))) = Some r ∧ br_snapshot r = Some working.
Proof.
  intros Hr Hroot. unfold receive_commit in Hr. apply bind_ok in Hr as (m & _ & Hr). apply bind_ok in Hr as ([] & _ & Hr).
  destruct (judge _ _ _) as [change|]; [|done]. apply bind_ok in Hr as (w & _ & Hr). cbn zeta in Hr.
  apply bind_ok in Hr as ([boot p] & _ & Hr). apply bind_ok in Hr as ([] & _ & Hr).
  apply bind_ok in Hr as (j2 & Hacc & [= <- <- _ _]). rewrite Hroot in Hacc. apply bind_ok in Hacc as (root & _ & Hacc).
  unfold accept_root in Hacc. apply bind_ok in Hacc as ([] & _ & Hacc). rewrite Hroot in Hacc.
  destruct (find_row _ _) eqn:Hf in Hacc; [done|]. injection Hacc as <-. cbn [jn_rows].
  rewrite find_row_snoc, Hf. cbn [br_branch]. rewrite decide_True by done. by eexists.
Qed.

Lemma publish_keeps_snapshot rows tx working c now b r :
  find_row rows b = Some r → b = tx_parent tx → ∃ r', find_row (publish_rows load sha256 rows tx working (Some c) now) b = Some r' ∧ br_snapshot r' = br_snapshot r.
Proof.
  intros Hr ->. unfold publish_rows. cbn zeta. unfold insert_row at 2. cbn [br_branch]. rewrite Hr.
  match goal with |- context [map_row (tx_parent tx) ?g rows] => set (f := g) end. assert (find_row (map_row (tx_parent tx) f rows) (tx_parent tx) = Some (f r)) as Hf.
  { unfold map_row. rewrite find_row_map; [rewrite Hr|].
    - cbn. apply find_row_Some in Hr as [_ Hb]. by rewrite bool_decide_true.
    - intros x. case_bool_decide; by repeat split. }
  exists (f r). split; [|done]. unfold insert_row. cbn [br_branch]. destruct (find_row _ (branch_of load working)); [done|]. by rewrite find_row_snoc, Hf.
Qed.

Lemma publish_journal j tx working candidate jobs replay rcvd now j' pub :
  publish load fits sha256 j tx working candidate jobs replay rcvd now = Ok (j', pub) →
  is_Some (jn_live j') ∧ jn_rows j' = publish_rows load sha256 (jn_rows j) tx working candidate now.
Proof.
  unfold publish. intros Hp. do 6 apply bind_ok in Hp as (? & _ & Hp). apply bind_ok in Hp as (live & _ & Hp).
  apply bind_ok in Hp as ([] & _ & Hp). destruct (foldl _ _ jobs) as [ids jobs']. injection Hp as <- _. cbn. eauto.
Qed.

(** C39: The epoch before a group's first signed commit is lost.  A device that receives
    the commit which converts a group records the group's root with the rows the commit
    has just left, not with those of the root: from then on it cannot open the root's
    branch, and every message or rival commit of that epoch that arrives later stays in
    its inbox. *)
Theorem upgrade_loses_root_epoch j tx proof a author s staged now j1 working c changed j2 pub :
  receive_commit load sha256 merge j tx proof a author s staged now = Ok (Some (j1, working, c, changed)) → jn_root j = None →
  tx_parent tx = g_branch (load (tx_source tx)) → g_branch (load working) ≠ tx_parent tx → fits working = true →
  publish load fits sha256 j1 tx working (Some c) [] None None now = Ok (j2, pub) →
  open_transaction load fits j2 (Some (tx_parent tx)) = Ok None.
Proof.
  intros Hr Hroot Hpar Hne Hfit Hpub. destruct (receive_commit_roots _ _ _ _ _ _ _ _ _ _ _ _ Hr Hroot) as (r & Hf & Hs).
  rewrite <- Hpar in Hf. apply publish_journal in Hpub as [[live Hlive] Hrows].
  destruct (publish_keeps_snapshot _ tx working c now _ _ Hf eq_refl) as (r' & Hf' & Hs'). rewrite Hs in Hs'.
  unfold open_transaction. rewrite Hlive, Hrows, Hf', Hs', Hfit. cbn [ensure mbind verdict_bind]. unfold branch_of.
  rewrite bool_decide_false by congruence. done.
Qed.

(** ** The inbox *)

Notation recv := (receive load fits sha256 process merge open_proof payload_of).
Notation pass := (drain_pass load fits sha256 process merge open_proof payload_of).

Definition inbox_keys d : list (bytes * bytes) := (λ x, ar_key x.1) <$> dv_inbox d.

(** A frame that arrives leaves the inbox alone, or waits in it as its last row. *)
Lemma receive_inbox d gid ours a now d' out ef :
  recv d gid ours a now = Ok (d', out, ef) →
  dv_inbox d' = dv_inbox d ∨
  dv_inbox d' = dv_inbox d ++ [(a, now)] ∧ ar_key a ∉ inbox_keys d ∧ len (dv_inbox d) < MAX_EPOCH_AHEAD_BUFFER.
Proof.
  intros Hr. unfold receive in Hr. do 3 apply bind_ok in Hr as ([] & _ & Hr). apply bind_ok in Hr as (opened & _ & Hr).
  destruct opened as [tx|].
  - left. apply bind_ok in Hr as ([] & _ & Hr). apply bind_ok in Hr as (proof & _ & Hr).
    destruct (process _ _) as [|[]|author s pt|author s staged|]; try done; try by injection Hr as <-.
    + apply bind_ok in Hr as (rcvd & _ & Hr). by apply bind_ok in Hr as ([j pub] & _ & [= <- _ _]).
    + apply bind_ok in Hr as ([[[[j w] c] ch]|] & _ & Hr); [|by injection Hr as <-].
      by apply bind_ok in Hr as ([j' pub] & _ & [= <- _ _]).
  - apply bind_ok in Hr as ([d1 out1] & Hb & [= <- _ _]). unfold buffer_frame in Hb.
    destruct (jn_live _); [|left; by injection Hb as <-]. destruct (_ >? _); [left; by injection Hb as <-|].
    apply bind_ok in Hb as ([] & Hfull & [= <- _]). apply ensure_ok in Hfull. breflect. cbn [dv_inbox].
    case_bool_decide as Hk; [by left|]. right. done.
Qed.

(** The inbox never holds more frames than it may, whoever sends them. *)
Lemma receive_inbox_bounded d gid ours a now d' out ef :
  recv d gid ours a now = Ok (d', out, ef) → len (dv_inbox d) <= MAX_EPOCH_AHEAD_BUFFER → len (dv_inbox d') <= MAX_EPOCH_AHEAD_BUFFER.
Proof. intros [-> |(-> & _ & Hlt)]%receive_inbox Hle; [done|]. rewrite len_app, len_cons, len_nil. lia. Qed.

(** What a pass leaves when it gets a frame through: the frame is gone. *)
Lemma received_leaves d gid ours a now d' out ef :
  recv d gid ours a now = Ok (d', out, ef) →
  let rest := filter (λ x, ar_key x.1 ≠ ar_key a) (dv_inbox d') in
  (length rest <= length (dv_inbox d))%nat ∧ (ar_key a ∈ inbox_keys d → (length rest < length (dv_inbox d))%nat).
Proof.
  intros Hr. cbn zeta. assert (filter (λ x, ar_key x.1 ≠ ar_key a) (dv_inbox d') = filter (λ x, ar_key x.1 ≠ ar_key a) (dv_inbox d)) as ->.
  { apply receive_inbox in Hr as [-> |(-> & _ & _)]; [done|]. rewrite filter_app, filter_cons_False, filter_nil, app_nil_r; [done|].
    cbn. intros Hne. by apply Hne. }
  split; [apply length_filter|]. intros Hk. apply list_elem_of_fmap in Hk as ([x t] & Hx & Hin). cbn in Hx.
  apply (length_filter_lt _ _ (x, t)); [done|]. cbn. rewrite Hx. tauto.
Qed.

Lemma pass_shrinks gid ours now pending : ∀ d progressed d' progressed',
  pass d gid ours pending progressed now = (d', progressed') →
  (length (dv_inbox d') <= length (dv_inbox d))%nat ∧ (progressed = true → progressed' = true) ∧
  (progressed = false → (∀ a, a ∈ pending → ar_key a ∈ inbox_keys d) →
   if progressed' then (length (dv_inbox d') < length (dv_inbox d))%nat
   else d' = d ∧ ∀ a, a ∈ pending → ∃ e, recv d gid ours a now = Err e).
Proof.
  induction pending as [|a pending IH]; intros d progressed d' progressed' Hp; cbn [drain_pass] in Hp.
  - injection Hp as <- <-. split_and!; [done|done|]. intros -> _. split; [done|]. intros a Ha. by apply not_elem_of_nil in Ha.
  - destruct (recv d gid ours a now) as [[[d1 out] ef]|e] eqn:Hr.
    + apply IH in Hp as (Hle & Ht & _). cbn [dv_inbox] in Hle. destruct (received_leaves _ _ _ _ _ _ _ _ Hr) as [Hl1 Hl2].
      split_and!; [lia|auto|]. intros _ Hin. rewrite (Ht eq_refl). specialize (Hl2 (Hin a (list_elem_of_here _ _))). lia.
    + apply IH in Hp as (Hle & Ht & Hf). split_and!; [done|done|]. intros -> Hin.
      specialize (Hf eq_refl (λ x Hx, Hin x (list_elem_of_further _ _ _ Hx))). destruct progressed'; [done|].
      destruct Hf as [-> Hf]. split; [done|]. intros x [-> |Hx]%elem_of_cons; eauto.
Qed.

Lemma drainable_keys d a : a ∈ drainable d → ar_key a ∈ inbox_keys d.
Proof.
  unfold drainable. intros ([x t] & -> & Hx)%list_elem_of_fmap. apply list_elem_of_filter in Hx as [_ Hx].
  apply list_elem_of_fmap. by exists (x, t).
Qed.

Lemma drain_loop_ends gid ours now fuel : ∀ d, (length (dv_inbox d) < fuel)%nat →
  ∃ d', drain_loop load fits sha256 process merge open_proof payload_of fuel d gid ours now = Some d' ∧
    ∀ a, a ∈ drainable d' → ∃ e, recv d' gid ours a now = Err e.
Proof.
  induction fuel as [|fuel IH]; intros d Hf; [lia|]. cbn [drain_loop]. cbn zeta. case_bool_decide as Hnil.
  - exists d. split; [done|]. rewrite Hnil. intros a Ha. by apply not_elem_of_nil in Ha.
  - destruct (pass d gid ours (drainable d) false now) as [d1 progressed] eqn:Hp.
    apply pass_shrinks in Hp as (_ & _ & Hp). specialize (Hp eq_refl (drainable_keys d)). destruct progressed.
    + apply IH. lia.
    + destruct Hp as [-> Hp]. eauto.
Qed.

(** Draining the inbox ends, and leaves nothing that could be taken: whatever waits in
    a device's inbox, the passes come to an end, and a frame still there afterwards is for
    a branch whose keys the device has not, or is one it refuses as things stand. *)
Theorem inbox_drain_settles d gid ours now :
  ∃ d', drain load fits sha256 process merge open_proof payload_of d gid ours now = Some d' ∧
    ∀ a t, (a, t) ∈ dv_inbox d' →
      (find_row (jn_rows (dv_journal d')) (ar_branch a) ≫= br_snapshot) = None ∨ ∃ e, recv d' gid ours a now = Err e.
Proof.
  destruct (drain_loop_ends gid ours now (S (length (dv_inbox d))) d) as (d' & Hd & Hr); [lia|]. exists d'. split; [done|].
  intros a t Hin. destruct (find_row _ _ ≫= br_snapshot) as [s|] eqn:Hs; [|by left]. right. apply Hr. unfold drainable.
  apply list_elem_of_fmap. exists (a, t). split; [done|]. apply list_elem_of_filter. split; [|done]. cbn. rewrite Hs. eauto.
Qed.
End props.
