(* ===== verification/GroupExamples.v ===== *)
(** * GroupExamples: the theorems on groups at work

    One group of Alice and Bob, followed through an appointment and a refresh of Bob's
    keys, a group that is converted, a full group, and two members that receive three
    rival commits in different orders. *)

From S2P Require Import Prelude Verdict Bytes Crypto Keyspace GroupPolicy Groups GroupHistory GroupAgreement GroupRequests GroupJournal GroupJournalProps GroupConverge GroupInvitations GroupReceive GroupReceiveProps.
From Stdlib Require String.

(** ** Encodings of finitely many values, and a cheap signature *)

Module Tables.
Definition tser {A} `{EqDecision A} (l : list A) (a : A) : option bytes := (λ x, [Z.of_nat x.1]) <$> list_find (a =.) l.

Definition tdeser {A} (l : list A) (b : bytes) : option A :=
  match b with [i] => l !! Z.to_nat i | _ => None end.

Lemma tdeser_tser {A} `{EqDecision A} (l : list A) a b : tser l a = Some b → tdeser l b = Some a.
Proof.
  unfold tser. destruct (list_find _ l) as [[i x]|] eqn:E; [|done]. cbn. intros [= <-].
  apply list_find_Some in E as (Hi & -> & _). cbn. by rewrite Nat2Z.id.
Qed.

Definition table {A} `{EqDecision A} (l : list A) : Codec A := {| ser := tser l; deser := tdeser l; deser_ser := tdeser_tser l |}.

Definition pser_head (h : MetaHead) : option bytes := Some (ToyCodec.enc (mh_title h) ++ ToyCodec.enc (mh_founder h)).

Definition take_head (b : bytes) : option (MetaHead * bytes) :=
  '(t, b) ← ToyCodec.dec b; '(f, b) ← ToyCodec.dec b; Some (mkHead t f, b).

Lemma take_pser_head a b rest : pser_head a = Some b → take_head (b ++ rest) = Some (a, rest).
Proof.
  intros Hb. assert (b = ToyCodec.enc (mh_title a) ++ ToyCodec.enc (mh_founder a)) as -> by (unfold pser_head in Hb; congruence).
  unfold take_head. rewrite <- app_assoc, ToyCodec.dec_enc. cbn [mbind option_bind]. rewrite ToyCodec.dec_enc.
  by destruct a.
Qed.

#[export] Instance heads : Prefixed MetaHead := {| pser := pser_head; take_from_bytes := take_head; take_pser := take_pser_head |}.

(** The end of a message, read backwards. *)
Definition digest (m : bytes) : bytes := Toy.public (reverse m).

#[export] Instance seals : Crypto := {|
  blake3 := digest;
  vk_ok := λ pk, bool_decide (length pk = 32%nat);
  verify_strict := λ pk m s, bool_decide (s = pk ++ digest m);
  verifying_key := Toy.public;
  sign := λ sk m, Toy.public sk ++ digest m;
  blake3_wf := λ m, Toy.public_wf (reverse m);
  verifying_key_wf := Toy.public_wf;
  sign_wf := λ sk m, wf_arr_app 32 32 _ _ (Toy.public_wf sk) (Toy.public_wf (reverse m));
  verifying_key_ok := λ sk, bool_decide_eq_true_2 _ (proj1 (Toy.public_wf sk));
  sign_verifies := λ sk m, bool_decide_eq_true_2 _ eq_refl;
|}.
End Tables.

Module Friends.
Import Tables.

Definition key (n : Z) : bytes := replicate 32 n.
Definition alice : bytes := key 1.
Definition bob : bytes := key 2.
Definition gid : bytes := key 9.
Definition branch (n : Z) : bytes := key (100 + n).

(** The leaf at [i] of the identity [sk], with the leaf key [k] *)
Definition leaf (i : Z) (sk : bytes) (k : Z) : Leaf := mkLeaf i (bound_credential sk (key k)) (key k).

Definition appoint : GroupChange := ChRole bob ROLE_ADMIN.
Definition request : GroupMemberRequest :=
  mkRequest bob (replicate 16 7) ActRefresh (sign bob (group_member_request_signing_input gid bob (replicate 16 7) ActRefresh)).
Definition refresh : GroupChange := ChMemberRequest request.

#[export] Instance changes : Codec GroupChange := table [appoint; refresh; ChUpgrade].

Definition signed_by (sk : bytes) (epoch : Z) (branch : bytes) (change : GroupChange) : SignedChange :=
  mkSigned sk epoch branch change (sign sk (default [] (group_change_signing_input gid epoch branch sk change))).

Definition appointed : SignedChange := signed_by alice 1 (branch 0) appoint.
Definition refreshed : SignedChange := signed_by alice 2 (branch 1) refresh.
Definition upgraded : SignedChange := signed_by alice 1 (branch 0) ChUpgrade.

Definition st0 : GroupState := founded alice.
Definition st1 : GroupState := set_last appointed (push_admin bob st0).
Definition st2 : GroupState := set_last refreshed st1.
Definition stu : GroupState := set_last upgraded (founded alice).

#[export] Instance states : Codec GroupState := table [st0; st1; st2; stu].

Definition meta (st : option GroupState) : GroupMeta := mkMeta [42] alice st.
Definition exts (st : option GroupState) : list Extension := default [] (extensions (meta st)).

Definition g0 : MlsGroup := mkMls gid 1 (branch 0) [leaf 0 alice 1; leaf 1 bob 2] (exts (Some st0)).
Definition g1 : MlsGroup := mkMls gid 2 (branch 1) [leaf 0 alice 1; leaf 1 bob 2] (exts (Some st1)).
Definition g2 : MlsGroup := mkMls gid 3 (branch 2) [leaf 0 alice 1; leaf 1 bob 3] (exts (Some st2)).
(** The group before its founder converts it, and after *)
Definition gl : MlsGroup := mkMls gid 1 (branch 0) [leaf 0 alice 1; leaf 1 bob 2] (exts None).
Definition gu : MlsGroup := mkMls gid 2 (branch 3) [leaf 0 alice 1; leaf 1 bob 2] (exts (Some stu)).

Definition public (g : MlsGroup) (st : option GroupState) : PublicState := mkPublic alice (g_epoch g) [42] [alice; bob] st.

#[export] Instance publics : Codec PublicState :=
  table [public g0 (Some st0); public g1 (Some st1); public g2 (Some st2); public gl None; public gu (Some stu)].

Definition message (n : Z) : bytes := [n].
Definition sha256 : bytes → bytes := Toy.public.
Definition body (b : bytes) (rank n context : Z) : ProofBody := (b, rank, sha256 (if n =? 0 then [] else message n), alice, [context]).

#[export] Instance bodies : Codec ProofBody :=
  table [body (branch 0) 0 0 0; body (branch 1) 2 1 1; body (branch 2) 2 2 2; body (branch 0) 0 0 3; body (branch 3) 2 3 4].

Definition entry (g : MlsGroup) (parent : option bytes) (rank : Z) (m : bytes) : GroupBranch :=
  match sign_proof sha256 g parent rank m alice with Ok p => p | Err _ => mkBranch [] 0 [] [] [] [] end.

Definition e0 : GroupBranch := entry g0 None 0 [].
Definition e1 : GroupBranch := entry g1 (Some (branch 0)) 2 (message 1).
Definition e2 : GroupBranch := entry g2 (Some (branch 1)) 2 (message 2).
Definition el : GroupBranch := entry gl None 0 [].
Definition eu : GroupBranch := entry gu (Some (branch 0)) 2 (message 3).

Definition staged2 : StagedCommit := mkStaged None [PRemove 1 None; PAdd (leaf 0 bob 3); PGroupContextExtensions (exts (Some st2))].
Definition stagedu : StagedCommit := mkStaged None [PGroupContextExtensions (exts (Some stu))].

Lemma history1 : verify_history gid [e0; e1] g1 = Ok tt.
Proof. vm_compute. reflexivity. Qed.

Lemma history2 : verify_history gid [e0; e1; e2] g2 = Ok tt.
Proof. vm_compute. reflexivity. Qed.

Lemma historyl : verify_history gid [el] gl = Ok tt.
Proof. vm_compute. reflexivity. Qed.

Lemma entry2 : sign_proof sha256 g2 (Some (branch 1)) 2 (message 2) alice = Ok e2.
Proof. vm_compute. reflexivity. Qed.

Lemma judge2 : judge g1 staged2 alice = Ok (Some refreshed).
Proof. vm_compute. reflexivity. Qed.

Lemma merged2 : merged g1 staged2 alice g2.
Proof.
  split; [reflexivity|reflexivity|vm_compute; reflexivity| |].
  - exists 0, [leaf 1 bob 3]. split_and!; [vm_compute; reflexivity| | |].
    + apply (bool_decide_unpack _). vm_compute. exact I.
    + vm_compute. repeat constructor.
    + assert (g_members g2 = (with_path staged2 0 <$> filter (λ l, lf_index l ∉ removed_leaves (sg_proposals staged2)) (g_members g1))
                ++ [leaf 1 bob 3]) as -> by (vm_compute; reflexivity). reflexivity.
  - apply (bool_decide_unpack _). vm_compute. exact I.
Qed.

Lemma proper1 : proper g1.
Proof. split; apply (bool_decide_unpack _); vm_compute; exact I. Qed.

Lemma meta1 : group_meta g1 = Some (meta (Some st1)).
Proof. vm_compute. reflexivity. Qed.

Lemma settled1 : settled [e0; e1] g1.
Proof.
  intros m st c Hm Hst Hc. rewrite meta1 in Hm. injection Hm as <-. injection Hst as <-. injection Hc as <-.
  split; [reflexivity|]. split; apply (bool_decide_unpack _); vm_compute; exact I.
Qed.



(** Bob's device, with Bob's keys or without *)
Definition row (g : MlsGroup) (parent : option bytes) (rank : Z) (m : bytes) (p : GroupBranch) : BranchRow MlsGroup :=
  mkBranchRow (g_branch g) parent (g_epoch g) rank (sha256 m) None (Some g) None (Some p) None 0.

Definition device (live : MlsGroup) (rows : list (BranchRow MlsGroup)) : Journal MlsGroup :=
  mkJournal (Some live) (Some (branch 0)) rows [] [] [] [] None [].

Definition rows1 : list (BranchRow MlsGroup) := [row g0 None 0 [] e0; row g1 (Some (branch 0)) 2 (message 1) e1].
Definition before : Journal MlsGroup := device g1 rows1.
Definition after : Journal MlsGroup := device g2 (rows1 ++ [row g2 (Some (branch 1)) 2 (message 2) e2]).

Definition arrival (branch_ m : bytes) (epoch : Z) : Arrival :=
  mkArrival alice branch_ (mkFrame MLS_ENVELOPE_VERSION gid epoch m []) (Some []) [] 0.

Lemma commit_received :
  receive_commit id sha256 (λ _ _, Some g2) before (mkTransaction g1 (branch 1)) (Some (None, e2)) (arrival (branch 1) (message 2) 2)
    alice g1 staged2 5
  = Ok (Some (before, g2, mkCandidate 2 (message 2) (Some refreshed) (Some e2), Some (mkChanged refreshed st1))).
Proof. vm_compute. reflexivity. Qed.

Lemma history_before : history_in before (branch 1) = Ok [e0; e1].
Proof. vm_compute. reflexivity. Qed.

Lemma history_after : history_in after (branch 2) = Ok [e0; e1; e2].
Proof. vm_compute. reflexivity. Qed.


(** Bob's keys come back. *)
Definition restored : verdict (Journal MlsGroup) :=
  accept_welcome id before g2 [e0; e1; e2] alice [77] (Some request) (Some (branch 0)) 6.

Definition restored_journal : Journal MlsGroup := match restored with Ok j => j | Err _ => before end.

Lemma restored_ok : restored = Ok restored_journal.
Proof. vm_compute. reflexivity. Qed.

Lemma welcome_moves_forward_witness :
  jn_live restored_journal = Some g2 ∧ jn_root restored_journal = Some (branch_of id g2) ∧
  verify_history gid [e0; e1; e2] g2 = Ok tt ∧
  (∃ prev, history_in before (branch_of id g1) = Ok prev ∧ head prev = head [e0; e1; e2] ∧ outranked (keys prev) (keys [e0; e1; e2])) ∧
  StrictOrder outranked.
Proof.
  exact (welcome_moves_forward id before g2 [e0; e1; e2] alice [77] (Some request) (Some (branch 0)) 6 restored_journal g1 eq_refl restored_ok).
Defined.

Lemma request_carried :
  (m ← group_meta g2; st ← gm_state m; c ← last_change st; Some (sc_change c)) = Some (ChMemberRequest request).
Proof. vm_compute. reflexivity. Qed.

Lemma refreshed_member_locked_out_witness :
  accept_welcome id after g2 [e0; e1; e2] alice [77] (Some request) (Some (branch 0)) 6
  = Err "resync invitation moves onto a losing branch"%string.
Proof.
  exact (refreshed_member_locked_out id after g2 [e0; e1; e2] alice [77] request (branch 0) 6 g2 eq_refl history_after history2 eq_refl
    request_carried).
Defined.

(** A member that receives the founder's conversion of the group *)
Definition unrooted : Journal MlsGroup := mkJournal (Some gl) None [] [] [] [] [] None [].
Definition conversion : Candidate := mkCandidate 2 (message 3) (Some upgraded) (Some eu).

Definition rooted : Journal MlsGroup :=
  match accept_root unrooted (Some gu) gl el 5 with Ok j => j | Err _ => unrooted end.

Lemma conversion_received :
  receive_commit id sha256 (λ _ _, Some gu) unrooted (mkTransaction gl (branch 0)) (Some (Some el, eu)) (arrival (branch 0) (message 3) 1)
    alice gl stagedu 5
  = Ok (Some (rooted, gu, conversion, Some (mkChanged upgraded (effective (meta None))))).
Proof. vm_compute. reflexivity. Qed.

Definition conversion_published : verdict (Journal MlsGroup * Published) :=
  publish id (λ _, true) sha256 rooted (mkTransaction gl (branch 0)) gu (Some conversion) [] None None 5.

Definition converted : Journal MlsGroup * Published :=
  match conversion_published with Ok r => r | Err _ => (rooted, mkPublished [] [] false false) end.

Lemma conversion_published_ok : conversion_published = Ok (converted.1, converted.2).
Proof. vm_compute. reflexivity. Qed.

Lemma upgrade_loses_root_epoch_witness : open_transaction id (λ _, true) converted.1 (Some (branch 0)) = Ok None.
Proof.
  refine (upgrade_loses_root_epoch id (λ _, true) sha256 (λ _ _, Some gu) unrooted (mkTransaction gl (branch 0)) (Some (Some el, eu))
    (arrival (branch 0) (message 3) 1) alice gl stagedu 5 rooted gu conversion (Some (mkChanged upgraded (effective (meta None))))
    converted.1 converted.2 conversion_received eq_refl eq_refl _ eq_refl conversion_published_ok).
  apply (bool_decide_unpack _). vm_compute. exact I.
Defined.

(** Alice founded the group, owns it alone and commits for it, and wants to leave. *)
Definition farewell : GroupMemberRequest := mkRequest alice (replicate 16 8) ActLeave [].

Lemma member_request_is_carried_witness :
  ∃ author next, author ∈ [alice; bob] ∧ author ≠ alice ∧ may_carry st0 author farewell = true ∧
    apply st0 [alice; bob] author (mkSigned author 1 (branch 0) (ChMemberRequest farewell) []) = Ok next ∧
    (ActLeave = ActLeave → role next alice = ROLE_MEMBER).
Proof.
  refine (member_request_is_carried st0 [alice; bob] farewell 1 (branch 0) [] _ _ _).
  - apply valid_founded. by left.
  - by left.
  - exists bob. split; [by right; left|]. apply (bool_decide_unpack _). vm_compute. exact I.
Defined.

(** The same group with everybody else in it *)
Definition others : list Leaf := (λ i, leaf i (key i) i) <$> seqZ 10 254.
Definition crowd : MlsGroup := mkMls gid 2 (branch 1) (g_members g1 ++ others) (g_exts g1).

Lemma crowd_full : member_count crowd = MAX_GROUP_MEMBERS.
Proof. vm_compute. reflexivity. Qed.

Lemma crowd_permits : commit_is_permitted crowd staged2 alice = Ok (Some refreshed).
Proof. vm_compute. reflexivity. Qed.

Lemma full_group_refuses_refresh_witness :
  commit_fits crowd (len (added_leaves (sg_proposals staged2))) refreshed = true ∧
  ∀ merge, merge_staged_commit_if_permitted merge crowd staged2 alice = Some (crowd, Refused).
Proof. exact (full_group_refuses_refresh crowd staged2 alice refreshed request crowd_full crowd_permits eq_refl eq_refl). Defined.
End Friends.

(** Two members, at the same state, receive a commit of an admin, one made on top of it,
    and a rival of the owner. *)
Module Rivals.
Import Friends.

Definition snap (epoch n : Z) : MlsGroup := mkMls gid epoch (branch n) [] [].
Definition ev1 : Event := mkEvent (branch 0) (message 1) (branch 1) ROLE_ADMIN.
Definition ev2 : Event := mkEvent (branch 0) (message 2) (branch 2) ROLE_OWNER.
Definition ev3 : Event := mkEvent (branch 1) (message 3) (branch 3) ROLE_OWNER.

Definition start : Journal MlsGroup := mkJournal (Some (snap 1 0)) None [] [] [] [] [] None [].

Definition take_branch (parent : MlsGroup) (made : MlsGroup) (ev : Event) (j : Journal MlsGroup) : verdict (Journal MlsGroup * Published) :=
  publish id (λ _, true) sha256 j (mkTransaction parent (g_branch parent)) made
    (Some (mkCandidate (ev_rank ev) (ev_message ev) None None)) [] None None 0.

Definition step (parent made : MlsGroup) (ev : Event) (j : Journal MlsGroup) : Journal MlsGroup :=
  match take_branch parent made ev j with Ok (j, _) => j | Err _ => j end.

(** One of them gets the owner's commit last, the other first. *)
Definition late1 : Journal MlsGroup := step (snap 1 0) (snap 2 1) ev1 start.
Definition late2 : Journal MlsGroup := step (snap 2 1) (snap 3 3) ev3 late1.
Definition late3 : Journal MlsGroup := step (snap 1 0) (snap 2 2) ev2 late2.
Definition soon1 : Journal MlsGroup := step (snap 1 0) (snap 2 2) ev2 start.
Definition soon2 : Journal MlsGroup := step (snap 1 0) (snap 2 1) ev1 soon1.
Definition soon3 : Journal MlsGroup := step (snap 2 1) (snap 3 3) ev3 soon2.

Lemma took parent made ev j j' pub :
  open_transaction id (λ _, true) j (Some (g_branch parent)) = Ok (Some (mkTransaction parent (g_branch parent))) →
  g_branch parent = ev_parent ev → g_branch made = ev_branch ev → take_branch parent made ev j = Ok (j', pub) →
  recorded id (λ _, true) sha256 j ev j'.
Proof.
  intros Ho Hp Hb Ht. by apply (recorded_intro id (λ _, true) sha256 j ev j' (Some (g_branch parent)) (mkTransaction parent (g_branch parent))
    made (mkCandidate (ev_rank ev) (ev_message ev) None None) [] None None 0 pub).
Qed.

Lemma late_runs : follows id (λ _, true) sha256 start [ev1; ev3; ev2] late3.
Proof.
  eapply follows_commit; [eapply (took (snap 1 0) (snap 2 1) ev1 start late1); vm_compute; reflexivity|].
  eapply follows_commit; [eapply (took (snap 2 1) (snap 3 3) ev3 late1 late2); vm_compute; reflexivity|].
  eapply follows_commit; [eapply (took (snap 1 0) (snap 2 2) ev2 late2 late3); vm_compute; reflexivity|]. constructor.
Qed.

Lemma soon_runs : follows id (λ _, true) sha256 start [ev2; ev1; ev3] soon3.
Proof.
  eapply follows_commit; [eapply (took (snap 1 0) (snap 2 2) ev2 start soon1); vm_compute; reflexivity|].
  eapply follows_commit; [eapply (took (snap 1 0) (snap 2 1) ev1 soon1 soon2); vm_compute; reflexivity|].
  eapply follows_commit; [eapply (took (snap 2 1) (snap 3 3) ev3 soon2 soon3); vm_compute; reflexivity|]. constructor.
Qed.

Lemma start_fresh : fresh id (branch 0) start.
Proof. split; [reflexivity|]. split; [reflexivity|]. by exists (snap 1 0). Qed.

Definition depth (b : bytes) : Z := if bool_decide (b = branch 0) then 0 else if bool_decide (b = branch 3) then 2 else 1.

Ltac one_of H := repeat (apply elem_of_cons in H as [->|H]); [..|by apply not_elem_of_nil in H].

Lemma rivals_consistent : consistent sha256 depth (branch 0) [ev1; ev3; ev2].
Proof.
  split.
  - intros e e' He He' Heq. one_of He; one_of He'; first [reflexivity|vm_compute in Heq; discriminate Heq].
  - intros e He. one_of He; vm_compute; discriminate.
  - intros e He. one_of He; vm_compute; reflexivity.
  - intros e e' He He' _ Heq. one_of He; one_of He'; first [reflexivity|vm_compute in Heq; discriminate Heq].
Qed.

End Rivals.
