(* ===== verification/Receipts.v ===== *)
(** * Receipts: who got a message, and who read it

    libcore/src/data/receipts.rs, with the two functions of libcore/src/data/message.rs
    that save a message: the per-recipient history of what this device sent, the receipts
    it owes for what it received, and the status a message shows.  The tables are lists in
    the order of their rows; statements the database itself can refuse (a failing disk)
    are not modelled, and an operation that answers an error leaves the tables as they
    were. *)

From S2P Require Import Prelude Verdict Bytes.

#[local] Open Scope Z_scope.

Definition STATUS_PENDING : Z := 0.
Definition STATUS_SENT : Z := 1.
Definition STATUS_FAILED : Z := 2.
Definition STATUS_DELIVERED : Z := 3.
Definition STATUS_READ : Z := 4.

Inductive ReceiptKind := RcDelivered | RcRead.

Record ReceiptEntry := mkEntry {
  en_message_id : bytes;
  en_delivered_at : option Z;
  en_read_at : option Z;
}.

#[global] Instance ReceiptEntry_eq_dec : EqDecision ReceiptEntry.
Proof. solve_decision. Defined.

(** The payloads [receive] is given; the others it ignores. *)
Inductive ReceiptPayload :=
| ReceiptDetails (entries : list ReceiptEntry)
| ReceiptUpto (kind : ReceiptKind) (upto : bytes)
| NotAReceipt.

(** ** Tables *)

(** [messages]: ids are ULIDs, so their order is the order of arrival. *)
Record MessageRow := mkMsg {
  ms_id : bytes;
  ms_conv : bytes;
  ms_sender : option bytes;
  ms_outgoing : bool;
  ms_status : Z;
  ms_dispatch : option bytes;
  ms_deleted : bool;
  ms_system : bool;
}.

(** [message_recipients] *)
Record RecipientRow := mkRecipient {
  rr_message : bytes;
  rr_member : bytes;
  rr_send_status : Z;
  rr_sent_at : option Z;
  rr_delivered_at : option Z;
  rr_read_at : option Z;
  rr_legacy_status : Z;
}.

(** [incoming_receipts] *)
Record IncomingRow := mkIncoming {
  ir_message : bytes;
  ir_delivered_at : option Z;
  ir_read_at : option Z;
  ir_is_read : bool;
  ir_pending : bool;
}.

(** Also [message_audiences], [receipt_peers], [conversation_members] with their [active],
    and [read_state]. *)
Record Tables := mkTables {
  tb_messages : list MessageRow;
  tb_audiences : list (bytes * bool);
  tb_recipients : list RecipientRow;
  tb_peers : list (bytes * bytes);
  tb_members : list (bytes * bytes * bool);
  tb_incoming : list IncomingRow;
  tb_read : list (bytes * bytes);
}.

Definition set_messages (l : list MessageRow) (t : Tables) : Tables :=
  mkTables l (tb_audiences t) (tb_recipients t) (tb_peers t) (tb_members t) (tb_incoming t) (tb_read t).
Definition set_audiences (l : list (bytes * bool)) (t : Tables) : Tables :=
  mkTables (tb_messages t) l (tb_recipients t) (tb_peers t) (tb_members t) (tb_incoming t) (tb_read t).
Definition set_recipients (l : list RecipientRow) (t : Tables) : Tables :=
  mkTables (tb_messages t) (tb_audiences t) l (tb_peers t) (tb_members t) (tb_incoming t) (tb_read t).
Definition set_peers (l : list (bytes * bytes)) (t : Tables) : Tables :=
  mkTables (tb_messages t) (tb_audiences t) (tb_recipients t) l (tb_members t) (tb_incoming t) (tb_read t).
Definition set_incoming (l : list IncomingRow) (t : Tables) : Tables :=
  mkTables (tb_messages t) (tb_audiences t) (tb_recipients t) (tb_peers t) (tb_members t) l (tb_read t).

(** ** What a message shows *)

Definition find_message (t : Tables) (id : bytes) : option MessageRow := head (filter (λ m, ms_id m = id) (tb_messages t)).

Definition is_peer (t : Tables) (conv member : bytes) : bool := bool_decide ((conv, member) ∈ tb_peers t).

(** The [status] column of [ROWS] *)
Definition row_status (t : Tables) (m : MessageRow) (r : RecipientRow) : Z :=
  if bool_decide (is_Some (rr_read_at r)) then STATUS_READ
  else if bool_decide (is_Some (rr_delivered_at r)) then STATUS_DELIVERED
  else if is_peer t (ms_conv m) (rr_member r) then rr_send_status r
  else Z.max (rr_send_status r) (rr_legacy_status r).

Definition recipients_of (t : Tables) (id : bytes) : list RecipientRow := filter (λ r, rr_message r = id) (tb_recipients t).

(** The [status] of [rows_tx], which joins [messages] *)
Definition statuses (t : Tables) (id : bytes) : list Z :=
  match find_message t id with
  | Some m => row_status t m <$> recipients_of t id
  | None => []
  end.

Definition combined_status (statuses : list Z) (complete : bool) : Z :=
  if bool_decide (statuses = []) then STATUS_PENDING
  else if complete && forallb (λ s, s =? STATUS_READ) statuses then STATUS_READ
  else if complete && forallb (λ s, STATUS_DELIVERED <=? s) statuses then STATUS_DELIVERED
  else if existsb (λ s, (s =? STATUS_SENT) || (STATUS_DELIVERED <=? s)) statuses then STATUS_SENT
  else if bool_decide (STATUS_PENDING ∈ statuses) then STATUS_PENDING
  else STATUS_FAILED.

Definition audience_of (t : Tables) (id : bytes) : option bool := snd <$> head (filter (λ x, x.1 = id) (tb_audiences t)).

Definition set_status (status : Z) (m : MessageRow) : MessageRow :=
  mkMsg (ms_id m) (ms_conv m) (ms_sender m) (ms_outgoing m) status (ms_dispatch m) (ms_deleted m) (ms_system m).

Definition aggregate_tx (t : Tables) (id : bytes) : verdict Tables :=
  let rows := statuses t id in
  if bool_decide (rows = []) then Ok t
  else
    complete ← ok_or (audience_of t id) "Query returned no rows"%string;
    let status := combined_status rows complete in
    Ok (set_messages ((λ m, if bool_decide (ms_id m = id) && negb (ms_status m =? status) && (complete || (ms_status m <? 3))
                            then set_status status m else m) <$> tb_messages t) t).

(** ** What was sent *)

Definition new_recipient (id peer : bytes) : RecipientRow := mkRecipient id peer 0 None None None 0.

(** The [INSERT]s of [snapshot_tx]: a recipient named twice breaks the key. *)
Fixpoint insert_recipients (id : bytes) (peers : list bytes) (l : list RecipientRow) : verdict (list RecipientRow) :=
  match peers with
  | [] => Ok l
  | peer :: peers =>
      if bool_decide ((id, peer) ∈ ((λ r, (rr_message r, rr_member r)) <$> l)) then Err "UNIQUE constraint failed"%string
      else insert_recipients id peers (l ++ [new_recipient id peer])
  end.

Definition snapshot_tx (t : Tables) (id : bytes) (recipients : list bytes) (complete : bool) : verdict Tables :=
  match audience_of t id with
  | Some _ => Ok t
  | None =>
      ensure (bool_decide (is_Some (find_message t id))) "FOREIGN KEY constraint failed"%string;;
      l ← insert_recipients id recipients (tb_recipients t);
      Ok (set_recipients l (set_audiences (tb_audiences t ++ [(id, complete)]) t))
  end.

Definition audience_tx (t : Tables) (id : bytes) (fallback : list bytes) : verdict (Tables * list bytes) :=
  t ← snapshot_tx t id fallback false;
  Ok (t, rr_member <$> recipients_of t id).

(** [save_outgoing_tx]: [id] and [dispatch] are freshly drawn, [recipients] is what
    [recipients_tx] reads. *)
Definition save_outgoing_tx (t : Tables) (id conv dispatch : bytes) (recipients : list bytes) : verdict Tables :=
  match find_message t id with
  | Some _ => Err "UNIQUE constraint failed"%string
  | None =>
      snapshot_tx (set_messages (tb_messages t ++ [mkMsg id conv None true STATUS_PENDING (Some dispatch) false false]) t)
        id recipients true
  end.

(** The [UPDATE] of [send_result_tx] *)
Definition sent_row (id member : bytes) (status : Z) (at_ : option Z) (r : RecipientRow) : RecipientRow :=
  if bool_decide (rr_message r = id) && bool_decide (rr_member r = member) then
    mkRecipient id member (if rr_send_status r =? 1 then 1 else status)
      (match rr_sent_at r with Some x => Some x | None => at_ end) (rr_delivered_at r) (rr_read_at r) (rr_legacy_status r)
  else r.

Definition send_result_tx (t : Tables) (dispatch member : bytes) (status : Z) (at_ : option Z) : verdict Tables :=
  match head (filter (λ m, ms_dispatch m = Some dispatch ∧ ms_outgoing m = true ∧ ms_deleted m = false) (tb_messages t)) with
  | None => Ok t
  | Some m =>
      let id := ms_id m in
      let t := match audience_of t id with Some _ => t | None => set_audiences (tb_audiences t ++ [(id, false)]) t end in
      let l := if bool_decide (audience_of t id = Some false)
                  && negb (bool_decide ((id, member) ∈ ((λ r, (rr_message r, rr_member r)) <$> tb_recipients t)))
               then tb_recipients t ++ [new_recipient id member] else tb_recipients t in
      aggregate_tx (set_recipients (sent_row id member status at_ <$> l) t) id
  end.

(** [send_result]; [logical] is [logical_dispatch]. *)
Definition send_result (logical : bytes → bytes) (t : Tables) (dispatch : bytes) (member : option bytes) (status : Z) (at_ : option Z) :
    verdict Tables :=
  match member with
  | None => Ok t
  | Some member =>
      send_result_tx t (logical dispatch) member status (x ← at_; if (0 <? x) && (x <=? 2 ^ 63 - 1) then Some x else None)
  end.

Definition failed_row (id : bytes) (r : RecipientRow) : RecipientRow :=
  if bool_decide (rr_message r = id) && (rr_send_status r =? 0) then
    mkRecipient (rr_message r) (rr_member r) 2 (rr_sent_at r) (rr_delivered_at r) (rr_read_at r) (rr_legacy_status r)
  else r.

Definition fail_pending_tx (t : Tables) (id : bytes) : verdict Tables :=
  let t := set_recipients (failed_row id <$> tb_recipients t) t in
  if bool_decide (recipients_of t id = []) then
    Ok (set_messages ((λ m, if bool_decide (ms_id m = id) && (ms_status m <? 3) then set_status 2 m else m) <$> tb_messages t) t)
  else aggregate_tx t id.

(** ** What recipients report *)

(** [CASE WHEN old IS NULL THEN new WHEN new IS NULL THEN old ELSE MIN(old,new) END] *)
Definition earliest (old new : option Z) : option Z :=
  match old, new with
  | None, _ => new
  | _, None => old
  | Some o, Some n => Some (Z.min o n)
  end.

Definition reported_row (id member : bytes) (e : ReceiptEntry) (r : RecipientRow) : RecipientRow :=
  if bool_decide (rr_message r = id) && bool_decide (rr_member r = member) then
    mkRecipient (rr_message r) (rr_member r) (rr_send_status r) (rr_sent_at r) (earliest (rr_delivered_at r) (en_delivered_at e))
      (earliest (rr_read_at r) (en_read_at e)) (rr_legacy_status r)
  else r.

(** The message [entry] is about, when it was ours and sent to [member] *)
Definition reported_message (t : Tables) (conv member dispatch : bytes) : option bytes :=
  ms_id <$> head (filter (λ m, ms_conv m = conv ∧ ms_dispatch m = Some dispatch ∧ ms_outgoing m = true ∧
                               (ms_id m, member) ∈ ((λ r, (rr_message r, rr_member r)) <$> tb_recipients t)) (tb_messages t)).

Fixpoint report_entries (t : Tables) (conv member : bytes) (entries : list ReceiptEntry) (changed : list bytes) : Tables * list bytes :=
  match entries with
  | [] => (t, changed)
  | e :: entries =>
      match reported_message t conv member (en_message_id e) with
      | None => report_entries t conv member entries changed
      | Some id => report_entries (set_recipients (reported_row id member e <$> tb_recipients t) t) conv member entries (changed ++ [id])
      end
  end.

Definition check_entry (e : ReceiptEntry) : verdict unit :=
  ensure (bool_decide (is_Some (en_delivered_at e)) || bool_decide (is_Some (en_read_at e))) "receipt has no event"%string;;
  ensure (forallb (λ n, (0 <? n) && (n <=? 2 ^ 63 - 1)) (omap id [en_delivered_at e; en_read_at e])) "invalid receipt time"%string.

Fixpoint check_entries (entries : list ReceiptEntry) : verdict unit :=
  match entries with
  | [] => Ok tt
  | e :: entries => check_entry e;; check_entries entries
  end.

(** The messages of [conv] sent to [member] *)
Definition addressed_to (t : Tables) (conv member : bytes) : list MessageRow :=
  filter (λ m, ms_conv m = conv ∧ (ms_id m, member) ∈ ((λ r, (rr_message r, rr_member r)) <$> tb_recipients t)) (tb_messages t).

Definition legacy_row (ids : list bytes) (member : bytes) (status : Z) (r : RecipientRow) : RecipientRow :=
  if bool_decide (rr_message r ∈ ids) && bool_decide (rr_member r = member) then
    mkRecipient (rr_message r) (rr_member r) (rr_send_status r) (rr_sent_at r) (rr_delivered_at r) (rr_read_at r)
      (Z.max (rr_legacy_status r) status)
  else r.

(** Ours, not after [upto], and not known to have come as far yet *)
Definition below_watermark (t : Tables) (member upto : bytes) (status : Z) (m : MessageRow) : bool :=
  match ms_dispatch m with Some d => bool_decide (bytes_le d upto) | None => false end && ms_outgoing m
  && existsb (λ r, bool_decide (rr_message r = ms_id m) && bool_decide (rr_member r = member) && (rr_legacy_status r <? status))
       (tb_recipients t).

Definition kind_status (kind : ReceiptKind) : Z := match kind with RcDelivered => STATUS_DELIVERED | RcRead => STATUS_READ end.

Fixpoint aggregate_all (t : Tables) (ids : list bytes) : verdict Tables :=
  match ids with
  | [] => Ok t
  | id :: ids => t ← aggregate_tx t id; aggregate_all t ids
  end.

Definition receive_tx (t : Tables) (conv member : bytes) (payload : ReceiptPayload) : verdict Tables :=
  match payload with
  | ReceiptDetails entries =>
      ensure (negb (bool_decide (entries = [])) && (len entries <=? 128)) "invalid receipt batch"%string;;
      check_entries entries;;
      if negb (bool_decide ((conv, member) ∈ (fst <$> tb_members t))) then Ok t
      else
        let activated := negb (is_peer t conv member) in
        let t := if activated then set_peers (tb_peers t ++ [(conv, member)]) t else t in
        let '(t, changed) := report_entries t conv member entries [] in
        aggregate_all t (if activated then ms_id <$> addressed_to t conv member else changed)
  | ReceiptUpto kind upto =>
      if is_peer t conv member then Ok t
      else if bool_decide (reported_message t conv member upto = None) then Ok t
      else
        let status := kind_status kind in
        let changed := ms_id <$> filter (λ m, below_watermark t member upto status m = true) (addressed_to t conv member) in
        aggregate_all (set_recipients (legacy_row changed member status <$> tb_recipients t) t) changed
  | NotAReceipt => Ok t
  end.

(** ** What this device owes *)

(** [save_incoming_tx]; [deleted_before] is whether the message's deletion came first. *)
Definition save_incoming_tx (t : Tables) (id conv sender dispatch : bytes) (deleted_before : bool) (now : Z) : verdict Tables :=
  if deleted_before || bool_decide ((conv, Some dispatch) ∈ ((λ m, (ms_conv m, ms_dispatch m)) <$> tb_messages t)) then Ok t
  else
    match find_message t id with
    | Some _ => Err "UNIQUE constraint failed"%string
    | None =>
        Ok (set_incoming (tb_incoming t ++ [mkIncoming id (Some now) None false true])
             (set_messages (tb_messages t ++ [mkMsg id conv (Some sender) false STATUS_SENT (Some dispatch) false false]) t))
    end.

(** The anchor of [read_tx]: the message the reader saw last *)
Definition anchor_id (t : Tables) (conv upto : bytes) : option bytes :=
  ms_id <$> head (filter (λ m, ms_conv m = conv ∧ ms_dispatch m = Some upto ∧ ms_outgoing m = false) (tb_messages t)).

Definition read_row (t : Tables) (conv upto : bytes) (now : Z) (r : IncomingRow) : IncomingRow :=
  match find_message t (ir_message r), anchor_id t conv upto with
  | Some m, Some anchor =>
      if negb (ir_is_read r) && bool_decide (ms_conv m = conv) && negb (ms_outgoing m) && negb (ms_deleted m) && negb (ms_system m)
         && bool_decide (bytes_le (ms_id m) anchor)
      then mkIncoming (ir_message r) (ir_delivered_at r) (Some now) true true else r
  | _, _ => r
  end.

Definition upsert_read (conv upto : bytes) (l : list (bytes * bytes)) : list (bytes * bytes) :=
  if bool_decide (conv ∈ (fst <$> l)) then
    (λ x, if bool_decide (x.1 = conv) then (conv, if bool_decide (bytes_le x.2 upto) then upto else x.2) else x) <$> l
  else l ++ [(conv, upto)].

Definition read_tx (t : Tables) (conv upto : bytes) (now : Z) : Tables :=
  mkTables (tb_messages t) (tb_audiences t) (tb_recipients t) (tb_peers t) (tb_members t)
    (read_row t conv upto now <$> tb_incoming t) (upsert_read conv upto (tb_read t)).

(** A row of a receipt batch *)
Record Owed := mkOwed {
  ow_id : bytes;
  ow_conv : bytes;
  ow_author : bytes;
  ow_entry : ReceiptEntry;
}.

Definition owes (t : Tables) (conv author : bytes) (r : IncomingRow) : option Owed :=
  m ← find_message t (ir_message r);
  d ← ms_dispatch m;
  if ir_pending r && negb (ms_deleted m) && bool_decide (ms_conv m = conv) && bool_decide (ms_sender m = Some author)
  then Some (mkOwed (ms_id m) conv author (mkEntry d (ir_delivered_at r) (ir_read_at r))) else None.

(** [pending_rows_tx]: a table without rowids is read in the order of its key. *)
Definition pending_rows_tx (t : Tables) (conv author : bytes) : list Owed :=
  take 128 (merge_sort (λ x y, bytes_le (ow_id x) (ow_id y)) (omap (owes t conv author) (tb_incoming t))).

Definition finished (row : Owed) (r : IncomingRow) : IncomingRow :=
  if bool_decide (ir_message r = ow_id row) && bool_decide (ir_delivered_at r = en_delivered_at (ow_entry row))
     && bool_decide (ir_read_at r = en_read_at (ow_entry row))
  then mkIncoming (ir_message r) (ir_delivered_at r) (ir_read_at r) (ir_is_read r) false else r.

Definition finish_batch_tx (t : Tables) (rows : list Owed) : Tables :=
  foldl (λ t row, set_incoming (finished row <$> tb_incoming t) t) t rows.
