(* ===== verification/ReceiptsProps.v ===== *)
(** * ReceiptsProps: a message shows what its recipients said

    Facts about Receipts, over every sequence of its operations. *)

From S2P Require Import Prelude Verdict Bytes Receipts.

#[local] Open Scope Z_scope.

(** ** Messages apart from what changes of them *)

Definition bare (m : MessageRow) : MessageRow :=
  mkMsg (ms_id m) (ms_conv m) (ms_sender m) (ms_outgoing m) 0 (ms_dispatch m) false (ms_system m).

Lemma find_bare t id : bare <$> find_message t id = head (filter (λ m, ms_id m = id) (bare <$> tb_messages t)).
Proof.
  unfold find_message. induction (tb_messages t) as [|m l IH]; [done|]. cbn [fmap list_fmap]. destruct (decide (ms_id m = id)).
  - by rewrite !filter_cons_True.
  - by rewrite !filter_cons_False.
Qed.

Lemma statuses_bare t id :
  statuses t id = match bare <$> find_message t id with Some m => row_status t m <$> recipients_of t id | None => [] end.
Proof. unfold statuses. by destruct (find_message t id). Qed.

(** The statuses of a message depend on its recipients, on who reports exactly, and on
    nothing else that changes. *)
Lemma find_message_in t id m : find_message t id = Some m → m ∈ tb_messages t ∧ ms_id m = id.
Proof.
  unfold find_message. intros Hf. assert (m ∈ filter (λ m, ms_id m = id) (tb_messages t)) as Hm.
  { destruct (filter _ _); [done|]. injection Hf as ->. by left. }
  by apply list_elem_of_filter in Hm as [? ?].
Qed.

Lemma statuses_ext t t' id :
  bare <$> find_message t' id = bare <$> find_message t id → recipients_of t' id = recipients_of t id →
  (∀ m r, find_message t id = Some m → r ∈ recipients_of t id → is_peer t' (ms_conv m) (rr_member r) = is_peer t (ms_conv m) (rr_member r)) →
  statuses t' id = statuses t id.
Proof.
  intros Hm Hr Hp. rewrite !statuses_bare, Hm, Hr. destruct (find_message t id) as [m|] eqn:Hf; [|done].
  cbn. apply list_fmap_ext. intros i r Hi. apply list_elem_of_lookup_2 in Hi. unfold row_status.
  change (ms_conv (bare m)) with (ms_conv m). by rewrite (Hp m r).
Qed.

(** ** Aggregation *)

(** A message to a complete audience shows what its recipients' rows add up to. *)
Definition agrees_at t id : Prop :=
  audience_of t id = Some true → statuses t id ≠ [] →
  ∀ m, m ∈ tb_messages t → ms_id m = id → ms_status m = combined_status (statuses t id) true.

Lemma agrees_frame t t' id :
  tb_messages t' = tb_messages t → audience_of t' id = audience_of t id → statuses t' id = statuses t id → agrees_at t id → agrees_at t' id.
Proof. unfold agrees_at. by intros -> -> ->. Qed.

Lemma aggregate_frame t id t' :
  aggregate_tx t id = Ok t' →
  bare <$> tb_messages t' = bare <$> tb_messages t ∧ tb_recipients t' = tb_recipients t ∧ tb_audiences t' = tb_audiences t ∧
  tb_peers t' = tb_peers t ∧ tb_members t' = tb_members t ∧ tb_incoming t' = tb_incoming t ∧ (∀ x, statuses t' x = statuses t x).
Proof.
  intros Ha. assert (bare <$> tb_messages t' = bare <$> tb_messages t ∧ tb_recipients t' = tb_recipients t ∧ tb_audiences t' = tb_audiences t ∧
    tb_peers t' = tb_peers t ∧ tb_members t' = tb_members t ∧ tb_incoming t' = tb_incoming t) as (Hm & Hr & Hau & Hp & Hmb & Hi).
  { unfold aggregate_tx in Ha. case_bool_decide; [by injection Ha as <-|]. apply bind_ok in Ha as (complete & _ & [= <-]). cbn.
    split; [|done]. rewrite <- list_fmap_compose. apply list_fmap_ext. intros i m _. cbn. by destruct (_ && _). }
  split_and!; try done. intros x. apply statuses_ext; [by rewrite !find_bare, Hm| |].
  - unfold recipients_of. by rewrite Hr.
  - intros. unfold is_peer. by rewrite Hp.
Qed.

Lemma audience_same t t' id : tb_audiences t' = tb_audiences t → audience_of t' id = audience_of t id.
Proof. unfold audience_of. by intros ->. Qed.

Lemma aggregate_agrees t id t' : aggregate_tx t id = Ok t' → agrees_at t' id ∧ ∀ x, agrees_at t x → agrees_at t' x.
Proof.
  intros Ha. pose proof (aggregate_frame _ _ _ Ha) as (_ & _ & Hau & _ & _ & _ & Hst).
  assert (agrees_at t' id) as Hid.
  { intros Hc Hne m Hm Hmid. rewrite (audience_same _ _ _ Hau) in Hc. rewrite Hst in Hne. rewrite Hst.
    unfold aggregate_tx in Ha. rewrite bool_decide_false, Hc in Ha by done. injection Ha as <-. cbn [tb_messages set_messages] in Hm.
    apply list_elem_of_fmap in Hm as (m0 & -> & Hm0). destruct (_ && _) eqn:Hb in *; [done|].
    rewrite (bool_decide_true (ms_id m0 = id)) in Hb by done. cbn in Hb. rewrite andb_true_r in Hb. by apply negb_false_iff, Z.eqb_eq in Hb. }
  split; [done|]. intros x Hx. destruct (decide (x = id)) as [->|Hne]; [done|].
  intros Hc Hnil m Hm Hmx. rewrite (audience_same _ _ _ Hau) in Hc. rewrite Hst in Hnil. rewrite Hst. apply Hx; [done|done| |done].
  unfold aggregate_tx in Ha. case_bool_decide; [by injection Ha as <-|]. apply bind_ok in Ha as (complete & _ & [= <-]).
  cbn [tb_messages set_messages] in Hm. apply list_elem_of_fmap in Hm as (m0 & -> & Hm0). destruct (_ && _ && _) eqn:Hb in *; [|done].
  breflect. by rewrite <- Hmx in Hne.
Qed.

Lemma aggregate_all_frame ids : ∀ t t',
  aggregate_all t ids = Ok t' →
  bare <$> tb_messages t' = bare <$> tb_messages t ∧ tb_recipients t' = tb_recipients t ∧ tb_audiences t' = tb_audiences t ∧
  tb_peers t' = tb_peers t ∧ tb_members t' = tb_members t ∧ tb_incoming t' = tb_incoming t.
Proof.
  induction ids as [|id ids IH]; intros t t' Ha; cbn in Ha; [by injection Ha as <-|].
  apply bind_ok in Ha as (t1 & H1 & Ha). apply IH in Ha as (? & ? & ? & ? & ? & ?).
  apply aggregate_frame in H1 as (? & ? & ? & ? & ? & ? & _). split_and!; congruence.
Qed.

Lemma aggregate_all_agrees ids : ∀ t t',
  aggregate_all t ids = Ok t' → (∀ x, x ∉ ids → agrees_at t x) → ∀ x, agrees_at t' x.
Proof.
  induction ids as [|id ids IH]; intros t t' Ha Hx; cbn in Ha.
  - injection Ha as <-. intros x. apply Hx, not_elem_of_nil.
  - apply bind_ok in Ha as (t1 & H1 & Ha). apply (IH t1 t' Ha). intros x Hn.
    apply aggregate_agrees in H1 as [Hid Hrest]. destruct (decide (x = id)) as [->|Hne]; [done|].
    apply Hrest, Hx. rewrite not_elem_of_cons. done.
Qed.

(** ** What was said *)

(** A receipt [p] says of the message [d] that it was delivered, or read. *)
Definition says (p : ReceiptPayload) (d : bytes) (kind : ReceiptKind) : Prop :=
  match p with
  | ReceiptDetails entries =>
      ∃ e, e ∈ entries ∧ en_message_id e = d ∧ (is_Some (en_read_at e) ∨ kind = RcDelivered ∧ is_Some (en_delivered_at e))
  | ReceiptUpto k upto => bytes_le d upto ∧ (kind = RcRead → k = RcRead)
  | NotAReceipt => False
  end.

Implicit Types (evs : list (bytes * bytes * ReceiptPayload)) (t : Tables).

(** [member] said so, in the message's conversation. *)
Definition told evs (m : MessageRow) (member : bytes) (kind : ReceiptKind) : Prop :=
  ∃ d p, ms_dispatch m = Some d ∧ (ms_conv m, member, p) ∈ evs ∧ says p d kind.

Record justified evs (m : MessageRow) (r : RecipientRow) : Prop := {
  ju_send : 0 <= rr_send_status r <= 2;
  ju_read : is_Some (rr_read_at r) → told evs m (rr_member r) RcRead;
  ju_delivered : is_Some (rr_delivered_at r) → told evs m (rr_member r) RcDelivered;
  ju_legacy : STATUS_DELIVERED <= rr_legacy_status r → told evs m (rr_member r) RcDelivered;
  ju_legacy_read : STATUS_READ <= rr_legacy_status r → told evs m (rr_member r) RcRead;
}.

Lemma told_more evs evs' m member kind : evs ⊆ evs' → told evs m member kind → told evs' m member kind.
Proof. intros Hs (d & p & ? & ? & ?). exists d, p. auto. Qed.

Lemma justified_more evs evs' m r : evs ⊆ evs' → justified evs m r → justified evs' m r.
Proof. intros Hs [? ? ? ? ?]. split; eauto using told_more. Qed.

Lemma justified_new evs m id peer : justified evs m (new_recipient id peer).
Proof. split; cbn; [lia|by intros []|by intros []|unfold STATUS_DELIVERED; lia|unfold STATUS_READ; lia]. Qed.

Record recorded evs t : Prop := {
  re_ids : NoDup (ms_id <$> tb_messages t);
  re_audience : ∀ x, x ∈ tb_audiences t → x.1 ∈ (ms_id <$> tb_messages t);
  re_rows : ∀ r, r ∈ tb_recipients t → rr_message r ∈ (fst <$> tb_audiences t);
  re_told : ∀ m r, m ∈ tb_messages t → r ∈ tb_recipients t → ms_id m = rr_message r → justified evs m r;
}.

Lemma ids_bare (l l' : list MessageRow) : bare <$> l' = bare <$> l → ms_id <$> l' = ms_id <$> l.
Proof. intros He. apply (f_equal (fmap ms_id)) in He. by rewrite <- !list_fmap_compose in He. Qed.

Lemma bare_in (l l' : list MessageRow) m : bare <$> l' = bare <$> l → m ∈ l' → ∃ m0, m0 ∈ l ∧ bare m0 = bare m.
Proof. intros He Hm. apply (list_elem_of_fmap_2 bare) in Hm. rewrite He in Hm. apply list_elem_of_fmap in Hm as (m0 & ? & ?). eauto. Qed.

Lemma justified_bare evs m m' r : bare m = bare m' → justified evs m r → justified evs m' r.
Proof.
  intros Hb Hj. assert (ms_conv m = ms_conv m' ∧ ms_dispatch m = ms_dispatch m') as [Hc Hd] by (unfold bare in Hb; split; congruence).
  destruct Hj. split; unfold told in *; rewrite <- ?Hc, <- ?Hd; done.
Qed.

(** Operations that leave the rows alone. *)
Lemma recorded_frame evs t t' :
  bare <$> tb_messages t' = bare <$> tb_messages t → tb_recipients t' = tb_recipients t → tb_audiences t' = tb_audiences t →
  recorded evs t → recorded evs t'.
Proof.
  intros Hm Hr Ha [Hid Hau Hro Ht]. split; rewrite ?Hr, ?Ha, ?(ids_bare _ _ Hm); try done.
  intros m r Hin Hrr He. destruct (bare_in _ _ _ Hm Hin) as (m0 & Hm0 & Hb). apply (justified_bare evs m0 m); [done|].
  apply Ht; [done|done|]. rewrite <- He. unfold bare in Hb. congruence.
Qed.

(** Operations that rewrite the rows, each under its key. *)
Lemma recorded_map evs evs' t f :
  recorded evs t → (∀ r, rr_message (f r) = rr_message r) →
  (∀ m r, m ∈ tb_messages t → r ∈ tb_recipients t → ms_id m = rr_message r → justified evs m r → justified evs' m (f r)) →
  recorded evs' (set_recipients (f <$> tb_recipients t) t).
Proof.
  intros [Hid Hau Hro Ht] Hk Hf. split; cbn [tb_messages tb_audiences tb_recipients set_recipients]; try done.
  - intros r Hr. apply list_elem_of_fmap in Hr as (r0 & -> & Hr). rewrite Hk. auto.
  - intros m r Hm Hr He. apply list_elem_of_fmap in Hr as (r0 & -> & Hr). rewrite Hk in He. auto.
Qed.

Lemma audience_known t id : id ∈ (fst <$> tb_audiences t) ↔ is_Some (audience_of t id).
Proof.
  unfold audience_of. rewrite list_elem_of_fmap. split.
  - intros (x & -> & Hx). assert (x ∈ filter (λ y, y.1 = x.1) (tb_audiences t)) as Hf by by apply list_elem_of_filter.
    destruct (filter _ _); [by apply not_elem_of_nil in Hf|by eexists].
  - intros [b Hb]. destruct (filter (λ x, x.1 = id) (tb_audiences t)) as [|x l] eqn:Hf; [done|].
    assert (x ∈ filter (λ x, x.1 = id) (tb_audiences t)) as Hx by (rewrite Hf; by left). apply list_elem_of_filter in Hx as [<- Hx]. eauto.
Qed.

(** ** Each operation keeps the tables honest *)

Definition honest evs t : Prop := recorded evs t ∧ ∀ id, agrees_at t id.

Lemma find_message_None t id : find_message t id = None ↔ id ∉ (ms_id <$> tb_messages t).
Proof.
  unfold find_message. split.
  - intros Hf (m & -> & Hm)%list_elem_of_fmap. assert (m ∈ filter (λ x, ms_id x = ms_id m) (tb_messages t)) as Hin by by apply list_elem_of_filter.
    destruct (filter _ _); [by apply not_elem_of_nil in Hin|done].
  - intros Hn. destruct (filter (λ m, ms_id m = id) (tb_messages t)) as [|m l] eqn:Hf; [done|]. destruct Hn.
    assert (m ∈ filter (λ m, ms_id m = id) (tb_messages t)) as Hm by (rewrite Hf; by left). apply list_elem_of_filter in Hm as [<- Hm].
    by apply list_elem_of_fmap_2.
Qed.

Lemma no_audience evs t id : recorded evs t → find_message t id = None → audience_of t id = None.
Proof.
  intros Hr Hf%find_message_None. destruct (audience_of t id) eqn:Ha; [|done]. destruct Hf.
  assert (id ∈ (fst <$> tb_audiences t)) as Hin by (apply audience_known; eauto). apply list_elem_of_fmap in Hin as (x & -> & Hx).
  by apply (re_audience _ _ Hr).
Qed.

Lemma no_recipients evs t id : recorded evs t → audience_of t id = None → recipients_of t id = [].
Proof.
  intros Hr Ha. unfold recipients_of. destruct (filter _ _) as [|r l] eqn:Hf; [done|].
  assert (r ∈ filter (λ r, rr_message r = id) (tb_recipients t)) as Hin by (rewrite Hf; by left).
  apply list_elem_of_filter in Hin as [<- Hin]. apply (re_rows _ _ Hr), audience_known in Hin. rewrite Ha in Hin. by destruct Hin.
Qed.

(** A new message *)
Lemma add_message_honest evs t m :
  honest evs t → find_message t (ms_id m) = None → honest evs (set_messages (tb_messages t ++ [m]) t).
Proof.
  intros [Hr Ha] Hnew. pose proof (no_audience _ _ _ Hr Hnew) as Hno. pose proof (no_recipients _ _ _ Hr Hno) as Hnr.
  pose proof Hr as [Hid Hau Hro Ht]. split.
  - split; cbn [tb_messages tb_audiences tb_recipients set_messages]; rewrite ?fmap_app.
    + apply NoDup_app. split_and!; [done| |apply NoDup_singleton]. intros x Hx [->|[]%not_elem_of_nil]%elem_of_cons.
      by apply find_message_None in Hnew.
    + intros x Hx. apply elem_of_app. left. auto.
    + done.
    + intros m0 r Hm Hrr He. apply elem_of_app in Hm as [Hm|Hm]; [auto|]. apply list_elem_of_singleton in Hm as ->.
      assert (r ∈ recipients_of t (ms_id m)) as Hin by by apply list_elem_of_filter. rewrite Hnr in Hin. by apply not_elem_of_nil in Hin.
  - intros id. destruct (decide (id = ms_id m)) as [->|Hne].
    + intros Hc. unfold audience_of in *. cbn in Hc. by rewrite Hno in Hc.
    + assert (statuses (set_messages (tb_messages t ++ [m]) t) id = statuses t id) as Hs.
      { apply statuses_ext; [|done|done]. f_equal. unfold find_message. cbn. rewrite filter_app, filter_cons_False, filter_nil, app_nil_r; [done|congruence]. }
      intros Hc Hnil m0 Hm He. rewrite Hs in *. apply (Ha id); [done|done| |done]. cbn in Hm. apply elem_of_app in Hm as [Hm|Hm]; [done|].
      apply list_elem_of_singleton in Hm. congruence.
Qed.

Lemma insert_recipients_ok id peers : ∀ l l', insert_recipients id peers l = Ok l' → l' = l ++ (new_recipient id <$> peers).
Proof.
  induction peers as [|p peers IH]; intros l l' Hi; cbn in Hi; [injection Hi as <-; by rewrite app_nil_r|].
  case_bool_decide; [done|]. apply IH in Hi as ->. by rewrite <- app_assoc.
Qed.

Lemma combined_new n : combined_status (replicate (S n) STATUS_PENDING) true = STATUS_PENDING.
Proof.
  unfold combined_status. rewrite bool_decide_false by done. cbn. rewrite (bool_decide_true (_ ∈ _)) by by left.
  assert (existsb (λ s, (s =? STATUS_SENT) || (STATUS_DELIVERED <=? s)) (replicate n STATUS_PENDING) = false) as ->; [|done].
  by induction n.
Qed.

(** A message's recipients are written down. *)
Lemma snapshot_honest evs t id recipients complete t' :
  honest evs t → snapshot_tx t id recipients complete = Ok t' →
  (complete = true → ∀ m, m ∈ tb_messages t → ms_id m = id → ms_status m = STATUS_PENDING) → honest evs t'.
Proof.
  intros [Hr Ha] Hs Hp. unfold snapshot_tx in Hs. destruct (audience_of t id) eqn:Hno; [by injection Hs as <-|].
  apply bind_ok in Hs as ([] & Hfk & Hs). apply bind_ok in Hs as (l & Hl & [= <-]). apply insert_recipients_ok in Hl as ->.
  apply ensure_ok in Hfk. breflect. destruct Hfk as [m0 Hm0]. pose proof (no_recipients _ _ _ Hr Hno) as Hnr.
  pose proof Hr as [Hid Hau Hro Ht]. split.
  - split; cbn [tb_messages tb_audiences tb_recipients set_recipients set_audiences]; try done.
    + intros x [Hx|Hx]%elem_of_app; [auto|]. apply list_elem_of_singleton in Hx as ->. cbn.
      apply find_message_in in Hm0 as [Hm0 <-]. by apply list_elem_of_fmap_2.
    + intros r Hrr. rewrite fmap_app, elem_of_app. apply elem_of_app in Hrr as [Hrr|Hrr]; [auto|right].
      apply list_elem_of_fmap in Hrr as (p & -> & _). by left.
    + intros m r Hm Hrr He. apply elem_of_app in Hrr as [Hrr|Hrr]; [auto|].
      apply list_elem_of_fmap in Hrr as (p & -> & _). apply justified_new.
  - intros x Hc Hnil m Hm He. cbn [tb_messages set_recipients set_audiences] in Hm.
    assert (audience_of t x = Some true ∨ x = id ∧ complete = true) as Hx.
    { unfold audience_of in Hc |- *. cbn [tb_audiences set_recipients set_audiences] in Hc. rewrite filter_app in Hc. destruct (filter (λ y, y.1 = x) (tb_audiences t)) eqn:Hf; [|by left].
      cbn [app] in Hc. destruct (decide (id = x)) as [->|]; [|by rewrite filter_cons_False in Hc].
      rewrite filter_cons_True in Hc by done. injection Hc as ->. by right. }
    set (t' := set_recipients _ _) in *. destruct (decide (x = id)) as [->|Hne].
    + destruct Hx as [Hx|[_ ->]]; [by rewrite Hno in Hx|].
      assert (statuses t' id = replicate (length recipients) STATUS_PENDING) as Hst.
      { unfold statuses. change (find_message t' id) with (find_message t id). rewrite Hm0.
        assert (recipients_of t' id = new_recipient id <$> recipients) as ->.
        { unfold recipients_of in *. cbn. rewrite filter_app, Hnr. cbn. apply filter_all, Forall_fmap, Forall_true. done. }
        clear -t'. induction recipients as [|p l IH]; [done|]. cbn. f_equal; [|done]. unfold row_status. cbn. by destruct (is_peer _ _ _). }
      rewrite Hst in *. destruct (length recipients) as [|n]; [done|]. rewrite combined_new. by apply (Hp eq_refl m).
    + assert (statuses t' x = statuses t x) as Hst.
      { apply statuses_ext; [done| |done]. unfold recipients_of, t'. cbn. rewrite filter_app.
        rewrite (filter_none _ (new_recipient id <$> recipients)), app_nil_r; [done|]. apply Forall_fmap, Forall_true. cbn. congruence. }
      rewrite Hst in *. destruct Hx as [Hx|[? _]]; [|done]. by apply (Ha x).
Qed.

(** The rows of some messages changed, and those messages are summed up again. *)
Lemma settle_honest evs t t1 ids t' :
  (∀ x, agrees_at t x) → recorded evs t1 → tb_messages t1 = tb_messages t →
  (∀ x, x ∉ ids → audience_of t1 x = audience_of t x ∧ statuses t1 x = statuses t x) →
  aggregate_all t1 ids = Ok t' → honest evs t'.
Proof.
  intros Ha Hr Hm Hx Hall. pose proof (aggregate_all_frame _ _ _ Hall) as (Hb & Hrr & Hau & _). split.
  - by apply (recorded_frame evs t1).
  - apply (aggregate_all_agrees ids t1); [done|]. intros x Hn. destruct (Hx x Hn). by apply (agrees_frame t).
Qed.

Lemma aggregate_one t id t' : aggregate_tx t id = Ok t' → aggregate_all t [id] = Ok t'.
Proof. intros Ha. cbn. by rewrite Ha. Qed.

Lemma recipients_map f (t : Tables) x :
  (∀ r, rr_message (f r) = rr_message r) → (∀ r, r ∈ tb_recipients t → rr_message r = x → f r = r) →
  filter (λ r, rr_message r = x) (f <$> tb_recipients t) = recipients_of t x.
Proof.
  intros Hk Hf. unfold recipients_of. induction (tb_recipients t) as [|r l IH]; [done|]. cbn [fmap list_fmap].
  assert (∀ r, r ∈ l → rr_message r = x → f r = r) as Hl by (intros; apply Hf; [by right|done]). destruct (decide (rr_message r = x)) as [He|Hne].
  - rewrite !filter_cons_True by (rewrite ?Hk; done). rewrite (Hf r) by (by left || done). f_equal. by apply IH.
  - rewrite !filter_cons_False by (rewrite ?Hk; done). by apply IH.
Qed.

Lemma recorded_audience evs t id b :
  recorded evs t → id ∈ (ms_id <$> tb_messages t) → recorded evs (set_audiences (tb_audiences t ++ [(id, b)]) t).
Proof.
  intros [Hid Hau Hro Ht] Hin. split; cbn [tb_messages tb_audiences tb_recipients set_audiences]; try done.
  - intros x [Hx|Hx]%elem_of_app; [auto|]. by apply list_elem_of_singleton in Hx as ->.
  - intros r Hr. rewrite fmap_app, elem_of_app. auto.
Qed.

Lemma recorded_row evs t id peer :
  recorded evs t → is_Some (audience_of t id) → recorded evs (set_recipients (tb_recipients t ++ [new_recipient id peer]) t).
Proof.
  intros [Hid Hau Hro Ht] Hin%audience_known. split; cbn [tb_messages tb_audiences tb_recipients set_recipients]; try done.
  - intros r [Hr|Hr]%elem_of_app; [auto|]. by apply list_elem_of_singleton in Hr as ->.
  - intros m r Hm [Hr|Hr]%elem_of_app He; [auto|]. apply list_elem_of_singleton in Hr as ->. apply justified_new.
Qed.

Lemma sent_row_key id member status at_ r : rr_message (sent_row id member status at_ r) = rr_message r.
Proof. unfold sent_row. destruct (_ && _) eqn:Hb; [|done]. by breflect. Qed.

Lemma sent_row_member id member status at_ r : rr_member (sent_row id member status at_ r) = rr_member r.
Proof. unfold sent_row. destruct (_ && _) eqn:Hb; [|done]. by breflect. Qed.

Lemma sent_row_justified evs id member status at_ m r :
  0 <= status <= 2 → justified evs m r → justified evs m (sent_row id member status at_ r).
Proof.
  intros Hs [Hsend ? ? ? ?]. unfold sent_row. destruct (_ && _) eqn:Hb; [|by split]. breflect. subst.
  split; cbn; try done. destruct (_ =? _); lia.
Qed.

(** The relay took a copy, or refused it. *)
Lemma send_result_honest evs t dispatch member status at_ t' :
  honest evs t → 0 <= status <= 2 → send_result_tx t dispatch member status at_ = Ok t' → honest evs t'.
Proof.
  intros [Hr Ha] Hs Hsend. unfold send_result_tx in Hsend. destruct (filter _ _) as [|m ms] eqn:Hf; [by injection Hsend as <-|].
  cbn [head] in Hsend. assert (m ∈ tb_messages t) as Hm.
  { assert (m ∈ m :: ms) as Hin by by left. rewrite <- Hf in Hin. by apply list_elem_of_filter in Hin as [_ ?]. }
  cbn zeta in Hsend. set (t1 := match audience_of t (ms_id m) with Some _ => t | None => _ end) in *.
  assert (recorded evs t1) as Hr1.
  { unfold t1. destruct (audience_of t (ms_id m)); [done|]. apply recorded_audience; [done|]. by apply list_elem_of_fmap_2. }
  assert (tb_messages t1 = tb_messages t ∧ tb_recipients t1 = tb_recipients t ∧ tb_peers t1 = tb_peers t) as (Hm1 & Hrr1 & Hp1).
  { unfold t1. by destruct (audience_of t (ms_id m)). }
  set (l := if _ && _ then _ else tb_recipients t1) in *. assert (recorded evs (set_recipients l t1)) as Hr2.
  { unfold l. destruct (_ && _) eqn:Hb; [|by destruct t1]. breflect. apply recorded_row; [done|].
    match goal with H : audience_of t1 _ = _ |- _ => rewrite H end. by eexists. }
  apply aggregate_one in Hsend. apply (settle_honest evs t _ [ms_id m] t' Ha) in Hsend; [done| |done|].
  - apply (recorded_map evs evs _ (sent_row (ms_id m) member status at_) Hr2); [intros; apply sent_row_key|].
    intros. by apply sent_row_justified.
  - intros x Hx. rewrite not_elem_of_cons in Hx. destruct Hx as [Hx _]. split.
    + change (audience_of t1 x = audience_of t x). unfold t1. destruct (audience_of t (ms_id m)); [done|].
      unfold audience_of. cbn [tb_audiences set_audiences]. rewrite filter_app, (filter_cons_False _ (_, _)), filter_nil, app_nil_r; [done|]. cbn. congruence.
    + apply statuses_ext.
      * unfold find_message. cbn [tb_messages set_recipients]. by rewrite Hm1.
      * change (filter (λ r, rr_message r = x) (sent_row (ms_id m) member status at_ <$> tb_recipients (set_recipients l t1)) = recipients_of t x).
        rewrite recipients_map; [| |].
        { unfold recipients_of. cbn [tb_recipients set_recipients]. unfold l. clear Hsend Hr2 l. rewrite Hrr1. destruct (_ && _); [|done].
          rewrite filter_app, (filter_cons_False _ (new_recipient _ _)), filter_nil, app_nil_r; [done|]. cbn. congruence. }
        { intros. apply sent_row_key. }
        { intros r _ <-. unfold sent_row. rewrite (bool_decide_false (rr_message r = _)) by done. done. }
      * intros. unfold is_peer. cbn [tb_peers set_recipients]. by rewrite Hp1.
Qed.

Lemma failed_row_key id r : rr_message (failed_row id r) = rr_message r.
Proof. unfold failed_row. by destruct (_ && _). Qed.

Lemma failed_row_justified evs id m r : justified evs m r → justified evs m (failed_row id r).
Proof. intros [Hsend ? ? ? ?]. unfold failed_row. destruct (_ && _) eqn:Hb; [|by split]. split; cbn; try done. Qed.

Lemma fail_pending_honest evs t id t' : honest evs t → fail_pending_tx t id = Ok t' → honest evs t'.
Proof.
  intros [Hr Ha] Hf. unfold fail_pending_tx in Hf. cbn zeta in Hf. set (t1 := set_recipients _ t) in *.
  assert (recorded evs t1) as Hr1.
  { apply (recorded_map evs evs); [done|intros; apply failed_row_key|]. intros. by apply failed_row_justified. }
  assert (∀ x, x ≠ id → statuses t1 x = statuses t x) as Hst.
  { intros x Hx. apply statuses_ext; [done| |done]. apply (recipients_map (failed_row id) t); [intros; apply failed_row_key|].
    intros r _ <-. unfold failed_row. by rewrite (bool_decide_false (rr_message r = id)). }
  case_bool_decide as Hnil.
  - injection Hf as <-. set (t2 := set_messages _ t1). assert (bare <$> tb_messages t2 = bare <$> tb_messages t1) as Hb.
    { cbn. rewrite <- list_fmap_compose. apply list_fmap_ext. intros i m _. cbn. by destruct (_ && _). }
    split; [by apply (recorded_frame evs t1)|]. intros x. assert (statuses t2 x = statuses t1 x) as Hst2.
    { apply statuses_ext; [by rewrite !find_bare, Hb|done|done]. }
    destruct (decide (x = id)) as [->|Hx].
    + intros _ Hne. destruct Hne. rewrite Hst2. unfold statuses. destruct (find_message t1 id); [|done].
      change (recipients_of t1 id = []) in Hnil. by rewrite Hnil.
    + intros Hc Hne m Hm He. rewrite Hst2, (Hst x Hx) in *. apply (Ha x); [done|done| |done]. cbn in Hm.
      apply list_elem_of_fmap in Hm as (m0 & -> & Hm0). destruct (_ && _) eqn:Hb0 in *; [|done]. breflect. cbn in He. congruence.
  - apply aggregate_one in Hf. apply (settle_honest evs t t1 [id] t' Ha) in Hf; [done|done|done|].
    intros x Hx. rewrite not_elem_of_cons in Hx. destruct Hx as [Hx _]. split; [done|by apply Hst].
Qed.

Lemma same_message (l : list MessageRow) m m' : NoDup (ms_id <$> l) → m ∈ l → m' ∈ l → ms_id m = ms_id m' → m = m'.
Proof.
  induction l as [|x l IH]; [by intros _ ?%not_elem_of_nil|]. cbn. rewrite NoDup_cons, !elem_of_cons.
  intros [Hn Hnd] [->|Hm] [->|Hm'] He; [done| | |by apply IH].
  - destruct Hn. rewrite He. by apply list_elem_of_fmap_2.
  - destruct Hn. rewrite <- He. by apply list_elem_of_fmap_2.
Qed.

Lemma reported_message_in t conv member d id :
  reported_message t conv member d = Some id →
  ∃ m, m ∈ addressed_to t conv member ∧ ms_id m = id ∧ ms_dispatch m = Some d.
Proof.
  unfold reported_message. destruct (filter _ _) as [|m l] eqn:Hf; [done|]. intros [= <-]. exists m.
  assert (m ∈ m :: l) as Hin by by left. rewrite <- Hf in Hin. apply list_elem_of_filter in Hin as [(? & ? & _ & ?) ?].
  split; [|done]. unfold addressed_to. by apply list_elem_of_filter.
Qed.

Lemma addressed_in t conv member m : m ∈ addressed_to t conv member → m ∈ tb_messages t ∧ ms_conv m = conv.
Proof. unfold addressed_to. intros [[? _] ?]%list_elem_of_filter. done. Qed.

Lemma reported_row_key id member e r : rr_message (reported_row id member e r) = rr_message r ∧ rr_member (reported_row id member e r) = rr_member r.
Proof. unfold reported_row. by destruct (_ && _). Qed.

Lemma earliest_some a b : is_Some (earliest a b) → is_Some a ∨ is_Some b.
Proof. destruct a, b; cbn; eauto. Qed.

Lemma reported_row_justified evs id member e m r :
  (rr_message r = id → rr_member r = member → is_Some (en_read_at e) → told evs m member RcRead) →
  (rr_message r = id → rr_member r = member → is_Some (en_delivered_at e) → told evs m member RcDelivered) →
  justified evs m r → justified evs m (reported_row id member e r).
Proof.
  intros Hread Hdel [? Hr Hd ? ?]. unfold reported_row. destruct (_ && _) eqn:Hb; [|by split]. breflect. subst.
  split; cbn; try done.
  - intros [?|?]%earliest_some; auto.
  - intros [?|?]%earliest_some; auto.
Qed.

Definition row_keys t : list (bytes * bytes) := (λ r, (rr_message r, rr_member r)) <$> tb_recipients t.

Lemma addressed_same t t' conv member :
  tb_messages t' = tb_messages t → row_keys t' = row_keys t → addressed_to t' conv member = addressed_to t conv member.
Proof. unfold addressed_to, row_keys. by intros -> ->. Qed.

Lemma reported_keys id member e t : row_keys (set_recipients (reported_row id member e <$> tb_recipients t) t) = row_keys t.
Proof.
  unfold row_keys. cbn. rewrite <- list_fmap_compose. apply list_fmap_ext. intros i r _. cbn.
  by destruct (reported_row_key id member e r) as [-> ->].
Qed.

(** The entries of a receipt, one after the other *)
Lemma report_entries_ok evs conv member all entries : ∀ t changed t' changed',
  recorded evs t → (∀ e, e ∈ entries → e ∈ all) → (conv, member, ReceiptDetails all) ∈ evs →
  report_entries t conv member entries changed = (t', changed') →
  recorded evs t' ∧ tb_messages t' = tb_messages t ∧ tb_audiences t' = tb_audiences t ∧ tb_peers t' = tb_peers t ∧ row_keys t' = row_keys t ∧
  (∀ x, x ∈ changed' → x ∈ changed ∨ x ∈ (ms_id <$> addressed_to t conv member)) ∧ (∀ x, x ∈ changed → x ∈ changed') ∧
  (∀ x, x ∉ changed' → recipients_of t' x = recipients_of t x).
Proof.
  induction entries as [|e entries IH]; intros t changed t' changed' Hr Hall Hev Hre; cbn [report_entries] in Hre.
  { injection Hre as <- <-. split_and!; auto. }
  destruct (reported_message t conv member (en_message_id e)) as [id|] eqn:Hid.
  2: { apply IH in Hre; auto. intros; apply Hall. by right. }
  apply reported_message_in in Hid as (m0 & Hm0 & <- & Hd). pose proof (addressed_in _ _ _ _ Hm0) as [Hin0 Hc0].
  pose proof (reported_keys (ms_id m0) member e t) as Hk. set (t1 := set_recipients _ t) in *.
  assert (∀ kind, says (ReceiptDetails all) (en_message_id e) kind → told evs m0 member kind) as Htold.
  { intros kind Hs. exists (en_message_id e), (ReceiptDetails all). by rewrite Hc0. }
  apply IH in Hre as (Hr' & Hm' & Ha' & Hp' & Hk' & Hch & Hin & Hx).
  - split_and!; try done; try congruence.
    + intros x Hx'. destruct (Hch x Hx') as [[?|Hx1]%elem_of_app|Hx1]; [by left| |].
      * apply list_elem_of_singleton in Hx1 as ->. right. by apply list_elem_of_fmap_2.
      * right. by rewrite (addressed_same t t1) in Hx1.
    + intros x Hx'. apply Hin, elem_of_app. by left.
    + intros x Hn. rewrite (Hx x Hn). apply (recipients_map (reported_row (ms_id m0) member e) t).
      * intros r. by destruct (reported_row_key (ms_id m0) member e r).
      * intros r _ <-. unfold reported_row. rewrite (bool_decide_false (rr_message r = ms_id m0)); [done|]. intros He. apply Hn, Hin, elem_of_app.
        right. rewrite He. by left.
  - apply (recorded_map evs evs); [done|intros r; by destruct (reported_row_key (ms_id m0) member e r)|].
    intros m r Hm Hrr He Hj. apply reported_row_justified; [| |done]; intros Hrm _ Hsome.
    + rewrite (same_message (tb_messages t) m m0 (re_ids _ _ Hr) Hm Hin0) by congruence. apply Htold. exists e.
      split; [apply Hall; by left|]. split; [done|by left].
    + rewrite (same_message (tb_messages t) m m0 (re_ids _ _ Hr) Hm Hin0) by congruence. apply Htold. exists e.
      split; [apply Hall; by left|]. split; [done|by right].
  - intros x Hx. apply Hall. by right.
  - done.
Qed.

Lemma recorded_peers evs t l : recorded evs t → recorded evs (set_peers l t).
Proof. intros Hr. by apply (recorded_frame evs t). Qed.

(** A member that begins to report exactly changes what is inferred for it only. *)
Lemma statuses_peers t conv member x :
  x ∉ (ms_id <$> addressed_to t conv member) → statuses (set_peers (tb_peers t ++ [(conv, member)]) t) x = statuses t x.
Proof.
  intros Hx. apply statuses_ext; [done|done|]. intros m r Hm Hr. unfold is_peer. cbn [tb_peers set_peers].
  apply bool_decide_ext. rewrite elem_of_app, list_elem_of_singleton. split; [|by left]. intros [?|[= Hc Hmem]]; [done|].
  destruct Hx. apply find_message_in in Hm as [Hm <-]. apply list_elem_of_fmap_2. unfold addressed_to. apply list_elem_of_filter.
  split; [split; [done|]|done]. apply list_elem_of_filter in Hr as [Hr1 Hr2]. rewrite <- Hr1, <- Hmem.
  by apply (list_elem_of_fmap_2 (λ r, (rr_message r, rr_member r))).
Qed.

Lemma statuses_same t t' x :
  tb_messages t' = tb_messages t → tb_peers t' = tb_peers t → recipients_of t' x = recipients_of t x → statuses t' x = statuses t x.
Proof.
  intros Hm Hp Hr. apply statuses_ext; [|done|].
  - unfold find_message. by rewrite Hm.
  - intros. unfold is_peer. by rewrite Hp.
Qed.

Lemma details_honest evs t conv member entries t' :
  honest evs t → receive_tx t conv member (ReceiptDetails entries) = Ok t' → honest ((conv, member, ReceiptDetails entries) :: evs) t'.
Proof.
  intros [Hr Ha] Hrec. cbn [receive_tx] in Hrec. apply bind_ok in Hrec as ([] & _ & Hrec). apply bind_ok in Hrec as ([] & _ & Hrec).
  assert (recorded ((conv, member, ReceiptDetails entries) :: evs) t) as Hr0.
  { destruct Hr as [? ? ? Ht]. split; try done. intros m r Hm Hrr He. apply (justified_more evs); [by right|]. auto. }
  destruct (negb _); [by injection Hrec as <-|]. cbn zeta in Hrec. set (activated := negb (is_peer t conv member)) in *.
  set (t1 := if activated then _ else t) in *. assert (recorded ((conv, member, ReceiptDetails entries) :: evs) t1) as Hr1.
  { unfold t1. destruct activated; [by apply recorded_peers|done]. }
  assert (tb_messages t1 = tb_messages t ∧ tb_audiences t1 = tb_audiences t ∧ tb_recipients t1 = tb_recipients t) as (Hm1 & Ha1 & Hrr1).
  { unfold t1. by destruct activated. }
  destruct (report_entries t1 conv member entries []) as [t2 changed] eqn:Hre.
  pose proof (report_entries_ok _ _ _ entries entries _ _ _ _ Hr1 (λ _ He, He) (list_elem_of_here _ _) Hre)
    as (Hr2 & Hm2 & Ha2 & Hp2 & Hk2 & Hch & _ & Hx).
  assert (addressed_to t2 conv member = addressed_to t conv member) as Hadd.
  { apply addressed_same; [congruence|]. rewrite Hk2. unfold row_keys. by rewrite Hrr1. }
  refine (settle_honest _ t t2 _ t' Ha Hr2 _ _ Hrec); [congruence|]. intros x Hn. split.
  { unfold audience_of. by rewrite Ha2, Ha1. }
  assert (x ∉ changed) as Hnc.
  { destruct activated; [|done]. intros Hc. rewrite Hadd in Hn. destruct (Hch x Hc) as [?%not_elem_of_nil|Hc1]; [done|].
    rewrite (addressed_same t t1) in Hc1; [done|done|]. unfold row_keys. by rewrite Hrr1. }
  rewrite (statuses_same t1 t2 x Hm2 Hp2 (Hx x Hnc)). unfold t1. destruct activated; [|done].
  apply statuses_peers. by rewrite <- Hadd.
Qed.

Lemma legacy_row_key ids member status r : rr_message (legacy_row ids member status r) = rr_message r.
Proof. unfold legacy_row. by destruct (_ && _). Qed.

Lemma legacy_row_justified evs ids member kind m r :
  (rr_message r ∈ ids → rr_member r = member → ∀ k, (k = RcRead → kind = RcRead) → told evs m member k) →
  justified evs m r → justified evs m (legacy_row ids member (kind_status kind) r).
Proof.
  intros Htold [? ? ? Hl Hlr]. unfold legacy_row. destruct (_ && _) eqn:Hb; [|by split]. breflect. subst.
  split; cbn; try done.
  - intros _. by apply Htold.
  - intros Hmax. destruct (decide (STATUS_READ <= rr_legacy_status r)) as [Hold|Hnew]; [auto|]. apply Htold; [done|done|].
    intros _. destruct kind; [|done]. unfold kind_status, STATUS_READ, STATUS_DELIVERED in *. lia.
Qed.

Lemma upto_honest evs t conv member kind upto t' :
  honest evs t → receive_tx t conv member (ReceiptUpto kind upto) = Ok t' → honest ((conv, member, ReceiptUpto kind upto) :: evs) t'.
Proof.
  intros [Hr Ha] Hrec. cbn [receive_tx] in Hrec.
  assert (recorded ((conv, member, ReceiptUpto kind upto) :: evs) t) as Hr0.
  { destruct Hr as [? ? ? Ht]. split; try done. intros m r Hm Hrr He. apply (justified_more evs); [by right|]. auto. }
  destruct (is_peer t conv member); [by injection Hrec as <-|]. case_bool_decide; [by injection Hrec as <-|]. cbn zeta in Hrec.
  set (ids := ms_id <$> filter _ _) in *. refine (settle_honest _ t (set_recipients _ t) _ t' Ha _ _ _ Hrec); [|done|].
  - apply (recorded_map _ ((conv, member, ReceiptUpto kind upto) :: evs) _ _ Hr0); [intros; apply legacy_row_key|].
    intros m r Hm Hrr He Hj. apply legacy_row_justified; [|done]. intros Hin _ k Hk.
    unfold ids in Hin. apply list_elem_of_fmap in Hin as (m0 & Hid & Hin). apply list_elem_of_filter in Hin as [Hbelow Hin].
    apply addressed_in in Hin as [Hin Hc]. rewrite (same_message (tb_messages t) m m0 (re_ids _ _ Hr) Hm Hin) by congruence.
    unfold below_watermark in Hbelow. destruct (ms_dispatch m0) as [d|] eqn:Hd; [|done]. breflect.
    exists d, (ReceiptUpto kind upto). rewrite Hc. split; [done|]. split; [by left|]. done.
  - intros x Hn. split; [done|]. apply statuses_same; [done|done|]. apply (recipients_map (legacy_row ids member (kind_status kind)) t).
    + intros. apply legacy_row_key.
    + intros r _ <-. unfold legacy_row. by rewrite (bool_decide_false (rr_message r ∈ ids)).
Qed.

(** ** Runs *)

Inductive Op :=
| OSave (id conv dispatch : bytes) (recipients : list bytes)
| OAudience (id : bytes) (fallback : list bytes)
| OSent (dispatch : bytes) (member : option bytes) (ok : bool) (at_ : option Z)
| OFail (id : bytes)
| OReceive (conv member : bytes) (payload : ReceiptPayload)
| OArrive (id conv sender dispatch : bytes) (deleted_before : bool) (now : Z)
| ORead (conv upto : bytes) (now : Z)
| OFinish (rows : list Owed)
| OMembers (l : list (bytes * bytes * bool))
| OErase (id : bytes)
| ODelete (id : bytes).

Section runs.
Context (logical : bytes → bytes).

(** An operation that fails is rolled back; a message's row takes its dependents along
    ([ON DELETE CASCADE]). *)
Definition exec (op : Op) t : Tables :=
  let kept (r : verdict Tables) := match r with Ok t' => t' | Err _ => t end in
  match op with
  | OSave id conv dispatch recipients => kept (save_outgoing_tx t id conv dispatch recipients)
  | OAudience id fallback => kept (r ← audience_tx t id fallback; Ok r.1)
  | OSent dispatch member ok at_ => kept (send_result logical t dispatch member (if ok then STATUS_SENT else STATUS_FAILED) at_)
  | OFail id => kept (fail_pending_tx t id)
  | OReceive conv member payload => kept (receive_tx t conv member payload)
  | OArrive id conv sender dispatch deleted_before now => kept (save_incoming_tx t id conv sender dispatch deleted_before now)
  | ORead conv upto now => read_tx t conv upto now
  | OFinish rows => finish_batch_tx t rows
  | OMembers l => mkTables (tb_messages t) (tb_audiences t) (tb_recipients t) (tb_peers t) l (tb_incoming t) (tb_read t)
  | OErase id =>
      set_messages ((λ m, if bool_decide (ms_id m = id)
                          then mkMsg (ms_id m) (ms_conv m) (ms_sender m) (ms_outgoing m) (ms_status m) (ms_dispatch m) true (ms_system m)
                          else m) <$> tb_messages t) t
  | ODelete id =>
      mkTables (filter (λ m, ms_id m ≠ id) (tb_messages t)) (filter (λ x, x.1 ≠ id) (tb_audiences t))
        (filter (λ r, rr_message r ≠ id) (tb_recipients t)) (tb_peers t) (tb_members t)
        (filter (λ r, ir_message r ≠ id) (tb_incoming t)) (tb_read t)
  end.

Definition run (ops : list Op) t : Tables := foldl (λ t op, exec op t) t ops.

Definition start (members : list (bytes * bytes * bool)) : Tables := mkTables [] [] [] [] members [] [].

Lemma start_honest members : honest [] (start members).
Proof.
  split; [split|]; cbn.
  - constructor.
  - by intros x ?%not_elem_of_nil.
  - by intros r ?%not_elem_of_nil.
  - by intros m r ?%not_elem_of_nil.
  - intros id _ _ m Hm. by apply not_elem_of_nil in Hm.
Qed.

Lemma honest_more evs ev t : honest evs t → honest (ev :: evs) t.
Proof.
  intros [[? ? ? Ht] Ha]. split; [|done]. split; try done. intros m r Hm Hrr He. apply (justified_more evs); [by right|]. auto.
Qed.

(** Tables that differ in what is owed or in the members only *)
Lemma honest_frame evs t t' :
  tb_messages t' = tb_messages t → tb_audiences t' = tb_audiences t → tb_recipients t' = tb_recipients t → tb_peers t' = tb_peers t →
  honest evs t → honest evs t'.
Proof.
  intros Hm Ha Hr Hp [Hrec Hag]. split.
  - apply (recorded_frame evs t); congruence.
  - intros id. apply (agrees_frame t); [done|by apply audience_same| |done]. apply statuses_same; [done|done|].
    unfold recipients_of. by rewrite Hr.
Qed.

Lemma finish_frame rows : ∀ t,
  tb_messages (finish_batch_tx t rows) = tb_messages t ∧ tb_audiences (finish_batch_tx t rows) = tb_audiences t ∧
  tb_recipients (finish_batch_tx t rows) = tb_recipients t ∧ tb_peers (finish_batch_tx t rows) = tb_peers t.
Proof.
  induction rows as [|row rows IH]; intros t; [done|].
  destruct (IH (set_incoming (finished row <$> tb_incoming t) t)) as (? & ? & ? & ?). by split_and!.
Qed.

Lemma erase_honest evs t id : honest evs t → honest evs (exec (OErase id) t).
Proof.
  intros [Hr Ha]. cbn [exec]. set (t' := set_messages _ t). assert (bare <$> tb_messages t' = bare <$> tb_messages t) as Hb.
  { cbn. rewrite <- list_fmap_compose. apply list_fmap_ext. intros i m _. cbn. by case_bool_decide. }
  split; [by apply (recorded_frame evs t)|]. intros x Hc Hne m Hm He.
  assert (statuses t' x = statuses t x) as Hs by (apply statuses_ext; [by rewrite !find_bare, Hb|done|done]). rewrite Hs in *.
  cbn in Hm. apply list_elem_of_fmap in Hm as (m0 & -> & Hm0). assert (ms_id m0 = x) as He0 by by case_bool_decide.
  rewrite <- (Ha x Hc Hne m0 Hm0 He0). by case_bool_decide.
Qed.

Lemma head_filter_filter {A} (P Q : A → Prop) `{!∀ x, Decision (P x), !∀ x, Decision (Q x)} (l : list A) :
  (∀ x, P x → Q x) → filter P (filter Q l) = filter P l.
Proof.
  intros Hpq. induction l as [|x l IH]; [done|]. destruct (decide (Q x)).
  - rewrite (filter_cons_True Q) by done. destruct (decide (P x)); [by rewrite !filter_cons_True, IH|by rewrite !filter_cons_False, IH].
  - rewrite (filter_cons_False Q) by done. rewrite (filter_cons_False P); [done|]. auto.
Qed.

Lemma delete_honest evs t id : honest evs t → honest evs (exec (ODelete id) t).
Proof.
  intros [[Hid Hau Hro Ht] Ha]. cbn [exec]. set (t' := mkTables _ _ _ _ _ _ _). split.
  - split; cbn [tb_messages tb_audiences tb_recipients t'].
    + clear -Hid. induction (tb_messages t) as [|m l IH]; [done|]. cbn in Hid. apply NoDup_cons in Hid as [Hn Hid].
      destruct (decide (ms_id m ≠ id)); [rewrite filter_cons_True by done|by rewrite filter_cons_False; auto]. cbn. constructor; [|auto].
      intros (y & Hy & Hin)%list_elem_of_fmap. apply list_elem_of_filter in Hin as [_ Hin]. apply Hn. rewrite Hy. by apply list_elem_of_fmap_2.
    + intros x [Hx Hin]%list_elem_of_filter. apply Hau in Hin. apply list_elem_of_fmap in Hin as (m & He & Hm).
      rewrite He. apply list_elem_of_fmap_2, list_elem_of_filter. by rewrite <- He.
    + intros r [Hr Hin]%list_elem_of_filter. apply Hro in Hin. apply list_elem_of_fmap in Hin as (x & He & Hx).
      rewrite He. apply list_elem_of_fmap_2, list_elem_of_filter. by rewrite <- He.
    + intros m r [_ Hm]%list_elem_of_filter [_ Hr]%list_elem_of_filter. auto.
  - intros x Hc Hne m Hm He. unfold t' in Hm. cbn in Hm. apply list_elem_of_filter in Hm as [Hmid Hm].
    assert (x ≠ id) as Hx by congruence.
    assert (statuses t' x = statuses t x) as Hs.
    { apply statuses_ext; [|by apply head_filter_filter; intros ? ->|done]. f_equal. unfold find_message, t'. cbn [tb_messages].
      by rewrite head_filter_filter by (intros ? ->; done). }
    rewrite Hs in *. apply (Ha x); [|done|done|done]. unfold audience_of, t' in *. cbn [tb_audiences] in Hc.
    by rewrite head_filter_filter in Hc by (intros ? ->; done).
Qed.

Definition heard (op : Op) evs : list (bytes * bytes * ReceiptPayload) :=
  match op with OReceive conv member p => (conv, member, p) :: evs | _ => evs end.

Lemma exec_honest op evs t : honest evs t → honest (heard op evs) (exec op t).
Proof.
  intros Hh. destruct op as [id conv dispatch recipients|id fallback|dispatch member ok at_|id|conv member p|id conv sender dispatch db now
                            |conv upto now|rows|l|id|id]; cbn [heard].
  - cbn. destruct (save_outgoing_tx t id conv dispatch recipients) as [t'|] eqn:Hs; [|done]. unfold save_outgoing_tx in Hs.
    destruct (find_message t id) eqn:Hf; [done|]. apply (snapshot_honest evs _ id recipients true) in Hs; [done| |].
    + by apply (add_message_honest evs t).
    + intros _ m Hm He. cbn in Hm. apply elem_of_app in Hm as [Hm|Hm]; [|by apply list_elem_of_singleton in Hm as ->].
      apply find_message_None in Hf. destruct Hf. rewrite <- He. by apply list_elem_of_fmap_2.
  - cbn. unfold audience_tx. destruct (snapshot_tx t id fallback false) as [t'|] eqn:Hs; cbn; [|done].
    by apply (snapshot_honest evs _ id fallback false) in Hs.
  - cbn. unfold send_result. destruct member as [member|]; [|done].
    destruct (send_result_tx _ _ _ _ _) as [t'|] eqn:Hs; [|done]. apply (send_result_honest evs) in Hs; [done|done|].
    destruct ok; unfold STATUS_SENT, STATUS_FAILED; lia.
  - cbn. destruct (fail_pending_tx t id) as [t'|] eqn:Hf; [|done]. by apply (fail_pending_honest evs) in Hf.
  - cbn [exec]. destruct (receive_tx t conv member p) as [t'|] eqn:Hr; [|by apply honest_more]. destruct p as [entries|kind upto|].
    + by apply (details_honest evs t).
    + by apply (upto_honest evs t).
    + injection Hr as <-. by apply honest_more.
  - cbn. destruct (save_incoming_tx _ _ _ _ _ _ _) as [t'|] eqn:Hs; [|done]. unfold save_incoming_tx in Hs.
    destruct (_ || _); [by injection Hs as <-|]. destruct (find_message t id) eqn:Hf; [done|]. injection Hs as <-.
    match goal with |- honest _ (set_incoming _ ?x) => apply (honest_frame evs x); try done end. by apply (add_message_honest evs t).
  - by apply (honest_frame evs t).
  - cbn [exec]. destruct (finish_frame rows t) as (? & ? & ? & ?). by apply (honest_frame evs t).
  - by apply (honest_frame evs t).
  - by apply erase_honest.
  - by apply delete_honest.
Qed.

Lemma run_honest ops : ∀ evs t, honest evs t → honest (foldl (λ evs op, heard op evs) evs ops) (run ops t).
Proof. induction ops as [|op ops IH]; intros evs t Hh; [done|]. cbn. by apply IH, exec_honest. Qed.

(** The receipts of a run, the last one first *)
Definition receipts (ops : list Op) : list (bytes * bytes * ReceiptPayload) := foldl (λ evs op, heard op evs) [] ops.

(** *** The audience of a message stays what it was *)

(** Whom [id] was sent to *)
Definition sent_to t (id : bytes) : list bytes := rr_member <$> recipients_of t id.

Lemma sent_to_keys t id : sent_to t id = snd <$> filter (λ k, k.1 = id) (row_keys t).
Proof.
  unfold sent_to, recipients_of, row_keys. induction (tb_recipients t) as [|r l IH]; [done|]. cbn [fmap list_fmap].
  destruct (decide (rr_message r = id)); [rewrite !filter_cons_True by done|rewrite !filter_cons_False by done; done]. cbn. by f_equal.
Qed.

Definition same_audience t t' (id : bytes) : Prop := audience_of t' id = audience_of t id ∧ sent_to t' id = sent_to t id.

Lemma same_audience_keys t t' id : audience_of t' id = audience_of t id → row_keys t' = row_keys t → same_audience t t' id.
Proof. intros Ha Hk. split; [done|]. by rewrite !sent_to_keys, Hk. Qed.

Lemma same_trans t1 t2 t3 id : same_audience t1 t2 id → same_audience t2 t3 id → same_audience t1 t3 id.
Proof. intros [? ?] [? ?]. split; congruence. Qed.

Lemma aggregate_same ids t t' id : aggregate_all t ids = Ok t' → same_audience t t' id.
Proof. intros (_ & Hr & Ha & _)%aggregate_all_frame. apply same_audience_keys; [by apply audience_same|]. unfold row_keys. by rewrite Hr. Qed.

Lemma row_keys_map f t : (∀ r, rr_message (f r) = rr_message r ∧ rr_member (f r) = rr_member r) → row_keys (set_recipients (f <$> tb_recipients t) t) = row_keys t.
Proof.
  intros Hf. unfold row_keys. cbn. rewrite <- list_fmap_compose. apply list_fmap_ext. intros i r _. cbn. by destruct (Hf r) as [-> ->].
Qed.

Lemma snapshot_same t x recipients complete t' id :
  is_Some (audience_of t id) → snapshot_tx t x recipients complete = Ok t' → same_audience t t' id.
Proof.
  intros Hs Hsn. unfold snapshot_tx in Hsn. destruct (audience_of t x) eqn:Hx; [by injection Hsn as <-|].
  apply bind_ok in Hsn as ([] & _ & Hsn). apply bind_ok in Hsn as (l & Hl & [= <-]). apply insert_recipients_ok in Hl as ->.
  assert (x ≠ id) as Hne by (intros ->; rewrite Hx in Hs; by destruct Hs). split.
  - unfold audience_of. cbn [tb_audiences set_recipients set_audiences]. rewrite filter_app, (filter_cons_False _ (x, complete)), filter_nil, app_nil_r; done.
  - unfold sent_to, recipients_of. cbn [tb_recipients set_recipients]. rewrite filter_app, (filter_none _ (new_recipient x <$> recipients)), app_nil_r; [done|].
    apply Forall_fmap, Forall_true. done.
Qed.

Lemma send_result_same t dispatch member status at_ t' id :
  audience_of t id = Some true → send_result_tx t dispatch member status at_ = Ok t' → same_audience t t' id.
Proof.
  intros Hs Hsend. unfold send_result_tx in Hsend. destruct (filter _ _) as [|m ms]; [by injection Hsend as <-|]. cbn [head] in Hsend.
  cbn zeta in Hsend. apply aggregate_one, (aggregate_same _ _ _ id) in Hsend.
  set (t1 := match audience_of t (ms_id m) with Some _ => t | None => _ end) in *. assert (same_audience t t1 id) as H1.
  { unfold t1. destruct (audience_of t (ms_id m)) eqn:Hm; [done|]. split; [|done]. unfold audience_of. cbn [tb_audiences set_audiences].
    rewrite filter_app, (filter_cons_False _ (ms_id m, false)), filter_nil, app_nil_r; [done|]. cbn. intros He. congruence. }
  set (l := if _ && _ then _ else tb_recipients t1) in *. assert (same_audience t1 (set_recipients l t1) id) as H2.
  { split; [done|]. unfold sent_to, recipients_of. cbn [tb_recipients set_recipients]. unfold l. clear Hsend l. destruct (_ && _) eqn:Hb; [|done].
    breflect. rewrite filter_app, (filter_cons_False _ (new_recipient _ _)), filter_nil, app_nil_r; [done|]. cbn. intros He.
    destruct H1 as [H1 _]. congruence. }
  assert (same_audience (set_recipients l t1) (set_recipients (sent_row (ms_id m) member status at_ <$> l) t1) id) as H3.
  { apply same_audience_keys; [done|]. apply (row_keys_map _ (set_recipients l t1)). intros r. split; [apply sent_row_key|apply sent_row_member]. }
  by apply (same_trans _ _ _ _ H1), (same_trans _ _ _ _ H2), (same_trans _ _ _ _ H3).
Qed.

Lemma report_same conv member entries : ∀ t changed t' changed',
  report_entries t conv member entries changed = (t', changed') → tb_audiences t' = tb_audiences t ∧ row_keys t' = row_keys t.
Proof.
  induction entries as [|e entries IH]; intros t changed t' changed' Hre; cbn in Hre; [by injection Hre as <- _|].
  destruct (reported_message _ _ _ _); [|by eapply IH]. apply IH in Hre as [-> ->]. split; [done|]. apply reported_keys.
Qed.

Lemma receive_incoming t conv member p t' : receive_tx t conv member p = Ok t' → tb_incoming t' = tb_incoming t.
Proof.
  intros Hr. destruct p as [entries|kind upto|]; cbn [receive_tx] in Hr.
  - apply bind_ok in Hr as ([] & _ & Hr). apply bind_ok in Hr as ([] & _ & Hr). destruct (negb _) in Hr; [by injection Hr as <-|]. cbn zeta in Hr.
    destruct (report_entries _ _ _ _ _) as [t2 changed] eqn:Hre. apply aggregate_all_frame in Hr as (_ & _ & _ & _ & _ & ->).
    assert (∀ t ch, report_entries t conv member entries ch = (t2, changed) → tb_incoming t2 = tb_incoming t) as Hin.
    { clear. induction entries as [|e l IH]; intros t ch He; cbn in He; [by injection He as <- _|]. destruct (reported_message _ _ _ _); [|by eapply IH].
      by rewrite (IH _ _ He). }
    rewrite (Hin _ _ Hre). by destruct (negb _).
  - destruct (is_peer _ _ _); [by injection Hr as <-|]. case_bool_decide; [by injection Hr as <-|]. cbn zeta in Hr.
    by apply aggregate_all_frame in Hr as (_ & _ & _ & _ & _ & ->).
  - by injection Hr as <-.
Qed.

Lemma receive_same t conv member p t' id : receive_tx t conv member p = Ok t' → same_audience t t' id.
Proof.
  intros Hr. destruct p as [entries|kind upto|]; cbn [receive_tx] in Hr.
  - apply bind_ok in Hr as ([] & _ & Hr). apply bind_ok in Hr as ([] & _ & Hr). destruct (negb _) in Hr; [by injection Hr as <-|]. cbn zeta in Hr.
    destruct (report_entries _ _ _ _ _) as [t2 changed] eqn:Hre. apply (aggregate_same _ _ _ id) in Hr. refine (same_trans _ _ _ _ _ Hr).
    apply report_same in Hre as [Ha Hk]. apply same_audience_keys; [by rewrite (audience_same _ _ _ Ha); destruct (negb _)|].
    rewrite Hk. by destruct (negb _).
  - destruct (is_peer _ _ _); [by injection Hr as <-|]. case_bool_decide; [by injection Hr as <-|]. cbn zeta in Hr.
    apply (aggregate_same _ _ _ id) in Hr. refine (same_trans _ _ _ _ _ Hr). apply same_audience_keys; [done|]. apply row_keys_map. intros r.
    split; [apply legacy_row_key|]. unfold legacy_row. by destruct (_ && _).
  - by injection Hr as <-.
Qed.

Lemma exec_same evs op t id :
  honest evs t → audience_of t id = Some true → op ≠ ODelete id → same_audience t (exec op t) id.
Proof.
  intros [Hr _] Hs Hop. assert (is_Some (audience_of t id)) as Hs' by by rewrite Hs.
  destruct op as [x conv dispatch recipients|x fallback|dispatch member ok at_|x|conv member p|x conv sender dispatch db now
                 |conv upto now|rows|l|x|x]; cbn [exec]; try done.
  - destruct (save_outgoing_tx _ _ _ _ _) as [t'|] eqn:Hsv; [|done]. unfold save_outgoing_tx in Hsv. destruct (find_message t x); [done|].
    by apply (snapshot_same _ _ _ _ _ id) in Hsv.
  - unfold audience_tx. destruct (snapshot_tx t x fallback false) as [t'|] eqn:Hsn; [|done]. by apply (snapshot_same _ _ _ _ _ id) in Hsn.
  - unfold send_result. destruct member; [|done]. destruct (send_result_tx _ _ _ _ _) as [t'|] eqn:Hsd; [|done]. by eapply send_result_same.
  - destruct (fail_pending_tx t x) as [t'|] eqn:Hf; [|done]. unfold fail_pending_tx in Hf. cbn zeta in Hf.
    assert (same_audience t (set_recipients (failed_row x <$> tb_recipients t) t) id) as H1.
    { apply same_audience_keys; [done|]. apply row_keys_map. intros r. split; [apply failed_row_key|]. unfold failed_row. by destruct (_ && _). }
    case_bool_decide; [by injection Hf as <-|]. apply aggregate_one, (aggregate_same _ _ _ id) in Hf. by apply (same_trans _ _ _ _ H1).
  - destruct (receive_tx _ _ _ _) as [t'|] eqn:Hrc; [|done]. by eapply receive_same.
  - destruct (save_incoming_tx _ _ _ _ _ _ _) as [t'|] eqn:Hsv; [|done]. unfold save_incoming_tx in Hsv.
    destruct (_ || _); [by injection Hsv as <-|]. destruct (find_message t x); [done|]. by injection Hsv as <-.
  - destruct (finish_frame rows t) as (_ & Ha & Hrr & _). apply same_audience_keys; [by apply audience_same|]. unfold row_keys. by rewrite Hrr.
  - split.
    + unfold audience_of. cbn [tb_audiences]. rewrite head_filter_filter; [done|]. intros y -> ->. done.
    + unfold sent_to, recipients_of. cbn [tb_recipients]. rewrite head_filter_filter; [done|]. intros r -> ->. done.
Qed.

Lemma run_same ops : ∀ evs t id,
  honest evs t → audience_of t id = Some true → ODelete id ∉ ops → same_audience t (run ops t) id.
Proof.
  induction ops as [|op ops IH]; intros evs t id Hh Hs Hn; [done|]. rewrite not_elem_of_cons in Hn. destruct Hn as [Hop Hn].
  pose proof (exec_same evs op t id Hh Hs (λ He, Hop (eq_sym He))) as H1. cbn. apply (same_trans _ _ _ _ H1).
  apply (IH (heard op evs)); [by apply exec_honest| |done]. destruct H1 as [-> _]. done.
Qed.

Lemma combined_read l : combined_status l true = STATUS_READ → ∀ s, s ∈ l → s = STATUS_READ.
Proof.
  unfold combined_status. case_bool_decide; [done|]. cbn [andb]. destruct (forallb _ l) eqn:Hf.
  - intros _ s Hs. rewrite forallb_forall in Hf. apply list_elem_of_In, Hf in Hs. by apply Z.eqb_eq in Hs.
  - by repeat (destruct (forallb _ _) || destruct (existsb _ _) || case_bool_decide).
Qed.

Lemma combined_delivered l : combined_status l true = STATUS_DELIVERED → ∀ s, s ∈ l → STATUS_DELIVERED <= s.
Proof.
  unfold combined_status. case_bool_decide; [done|]. cbn [andb]. destruct (forallb _ l); [done|]. destruct (forallb _ l) eqn:Hf.
  - intros _ s Hs. rewrite forallb_forall in Hf. apply list_elem_of_In, Hf in Hs. by apply Z.leb_le in Hs.
  - by repeat (destruct (existsb _ _) || case_bool_decide).
Qed.

Lemma status_told evs t m r :
  justified evs m r →
  (row_status t m r = STATUS_READ → told evs m (rr_member r) RcRead) ∧ (STATUS_DELIVERED <= row_status t m r → told evs m (rr_member r) RcDelivered).
Proof.
  intros [Hsend Hr Hd Hl Hlr].
  assert (told evs m (rr_member r) RcRead → told evs m (rr_member r) RcDelivered) as Hrd.
  { intros (d & p & ? & ? & Hs). exists d, p. split; [done|]. split; [done|]. destruct p; cbn in *; [|naive_solver|done].
    destruct Hs as (e & ? & ? & [?|[? ?]]); [eauto 6|done]. }
  unfold row_status, STATUS_READ, STATUS_DELIVERED in *. case_bool_decide; [auto|]. case_bool_decide; [split; [lia|auto]|].
  destruct (is_peer _ _ _); [lia|]. split; intros; [apply Hlr|apply Hl]; lia.
Qed.

Lemma saved t id conv dispatch recipients t' :
  save_outgoing_tx t id conv dispatch recipients = Ok t' → audience_of t id = None → recipients_of t id = [] →
  audience_of t' id = Some true ∧ sent_to t' id = recipients.
Proof.
  intros Hs Hno Hnr. unfold save_outgoing_tx in Hs. destruct (find_message t id); [done|]. unfold snapshot_tx in Hs.
  change (audience_of (set_messages _ t) id) with (audience_of t id) in Hs. rewrite Hno in Hs.
  apply bind_ok in Hs as ([] & _ & Hs). apply bind_ok in Hs as (l & Hl & [= <-]). apply insert_recipients_ok in Hl as ->. split.
  - unfold audience_of in *. cbn [tb_audiences set_recipients set_audiences set_messages]. rewrite filter_app.
    destruct (filter _ (tb_audiences t)); [|done]. by rewrite filter_cons_True.
  - unfold sent_to, recipients_of in *. cbn [tb_recipients set_recipients set_messages]. rewrite filter_app, Hnr. cbn [app].
    rewrite filter_all by by apply Forall_fmap, Forall_true. rewrite <- list_fmap_compose. cbn. apply list_fmap_id.
Qed.

Lemma shown evs t id m :
  honest evs t → audience_of t id = Some true → recipients_of t id ≠ [] → m ∈ tb_messages t → ms_id m = id →
  ms_status m = combined_status (statuses t id) true.
Proof.
  intros [Hr Ha] Hau Hne Hm Hid. apply (Ha id); [done| |done|done]. unfold statuses. destruct (find_message t id) eqn:Hf.
  - by destruct (recipients_of t id).
  - apply find_message_None in Hf. destruct Hf. rewrite <- Hid. by apply list_elem_of_fmap_2.
Qed.

(** C15: A message shows what its recipients said, never more.  Whatever a device sends,
    receives, fails, erases or restarts in between, and whatever receipts arrive from
    whomever in whatever order: the recipients of a message stay those it was sent to, the
    status it shows is the one their rows add up to, it shows as read only when every one
    of them said that it was read, and as delivered only when every one said so. *)
Theorem shown_status_is_told members ops id conv dispatch recipients t ops' m :
  save_outgoing_tx (run ops (start members)) id conv dispatch recipients = Ok t → recipients ≠ [] → ODelete id ∉ ops' →
  let t' := run ops' t in let evs := receipts (ops ++ OSave id conv dispatch recipients :: ops') in
  m ∈ tb_messages t' → ms_id m = id →
  sent_to t' id = recipients ∧ ms_status m = combined_status (statuses t' id) true ∧
  (ms_status m = STATUS_READ → ∀ peer, peer ∈ recipients → told evs m peer RcRead) ∧
  (ms_status m = STATUS_DELIVERED → ∀ peer, peer ∈ recipients → told evs m peer RcDelivered).
Proof.
  intros Hsv Hne Hdel t' evs Hm Hid. pose proof (run_honest ops [] _ (start_honest members)) as Hh0.
  assert (exec (OSave id conv dispatch recipients) (run ops (start members)) = t) as Hex by (cbn; by rewrite Hsv).
  pose proof (exec_honest (OSave id conv dispatch recipients) _ _ Hh0) as Hh1. rewrite Hex in Hh1. cbn [heard] in Hh1.
  pose proof (run_honest ops' _ _ Hh1) as Hh. fold t' in Hh.
  assert (find_message (run ops (start members)) id = None) as Hnew by (unfold save_outgoing_tx in Hsv; by destruct (find_message _ id)).
  pose proof (no_audience _ _ _ (proj1 Hh0) Hnew) as Hno.
  destruct (saved _ _ _ _ _ _ Hsv Hno (no_recipients _ _ _ (proj1 Hh0) Hno)) as [Hau Hto].
  destruct (run_same ops' _ _ id Hh1 Hau Hdel) as [Hau' Hto']. fold t' in Hau', Hto'. rewrite Hau in Hau'. rewrite Hto in Hto'.
  assert (foldl (λ evs op, heard op evs) (foldl (λ evs op, heard op evs) [] ops) ops' = evs) as Hevs.
  { unfold evs, receipts. by rewrite foldl_app. }
  rewrite Hevs in Hh. destruct Hh as [Hr Ha].
  assert (find_message t' id = Some m) as Hf.
  { destruct (find_message t' id) as [m0|] eqn:Hf; [|apply find_message_None in Hf; destruct Hf; rewrite <- Hid; by apply list_elem_of_fmap_2].
    apply find_message_in in Hf as [Hin0 Hid0]. f_equal. apply (same_message _ _ _ (re_ids _ _ Hr)); [done|done|congruence]. }
  assert (statuses t' id = row_status t' m <$> recipients_of t' id) as Hst by (unfold statuses; by rewrite Hf).
  assert (recipients_of t' id ≠ []) as Hnil by (intros Hnil; unfold sent_to in Hto'; by rewrite Hnil in Hto'; rewrite <- Hto' in Hne).
  pose proof (shown evs t' id m (conj Hr Ha) Hau' Hnil Hm Hid) as Hag.
  assert (∀ peer, peer ∈ recipients → ∃ r, r ∈ recipients_of t' id ∧ rr_member r = peer ∧ justified evs m r) as Hpeer.
  { intros peer Hp. rewrite <- Hto' in Hp. apply list_elem_of_fmap in Hp as (r & -> & Hrr). exists r. split; [done|]. split; [done|].
    apply list_elem_of_filter in Hrr as [Hrm Hrr]. apply (re_told _ _ Hr); [done|done|congruence]. }
  split; [done|]. split; [done|]. split; intros Hs peer Hp; destruct (Hpeer peer Hp) as (r & Hrr & <- & Hj); rewrite Hag in Hs;
    destruct (status_told evs t' m r Hj) as [Hread Hdeliv].
  - apply Hread, (combined_read _ Hs). rewrite Hst. by apply list_elem_of_fmap_2.
  - apply Hdeliv, (combined_delivered _ Hs). rewrite Hst. by apply list_elem_of_fmap_2.
Qed.

(** *** Receipts in any order *)

(** Of an operation that is commutative, associative and idempotent, only the set of what
    it is applied to counts. *)
Lemma foldl_absorb {A} (f : A → A → A) `{!Comm (=) f, !Assoc (=) f, !IdemP (=) f} x l : ∀ a, x ∈ l → f (foldl f a l) x = foldl f a l.
Proof.
  induction l as [|y l IH] using rev_ind; intros a Hx; [by apply not_elem_of_nil in Hx|]. rewrite foldl_app. cbn.
  apply elem_of_app in Hx as [Hx|Hx].
  - rewrite <- (assoc_L f), (comm_L f y x), (assoc_L f). by rewrite IH.
  - apply list_elem_of_singleton in Hx as ->. by rewrite <- (assoc_L f), (idemp_L f).
Qed.

Lemma foldl_set {A} (f : A → A → A) `{!Comm (=) f, !Assoc (=) f, !IdemP (=) f} (l1 l2 : list A) a :
  (∀ x, x ∈ l1 ↔ x ∈ l2) → foldl f a l1 = foldl f a l2.
Proof.
  assert (∀ l k b, (∀ x, x ∈ k → x ∈ l) → foldl f (foldl f b l) k = foldl f b l) as Hsub.
  { intros l k b. induction k as [|x k IH]; [done|]. intros Hk. cbn. rewrite (foldl_absorb f); [|apply Hk; by left]. apply IH.
    intros y Hy. apply Hk. by right. }
  assert (∀ l k b, foldl f (foldl f b l) k = foldl f (foldl f b k) l) as Hswap.
  { intros l k. induction l as [|x l IH]; intros b; [done|]. cbn. rewrite IH. f_equal. clear IH. revert b.
    induction k as [|y k IH]; intros b; [done|]. cbn. rewrite <- IH. f_equal. by rewrite <- !(assoc_L f), (comm_L f x y). }
  intros Hl. rewrite <- (Hsub l1 l2) by (intros; by apply Hl). rewrite Hswap. rewrite Hsub by (intros; by apply Hl). done.
Qed.

Definition times (r : RecipientRow) : option Z * option Z := (rr_delivered_at r, rr_read_at r).
Definition set_times (r : RecipientRow) (x : option Z * option Z) : RecipientRow :=
  mkRecipient (rr_message r) (rr_member r) (rr_send_status r) (rr_sent_at r) x.1 x.2 (rr_legacy_status r).
Definition merge (x y : option Z * option Z) : option Z * option Z := (earliest x.1 y.1, earliest x.2 y.2).

#[local] Instance merge_comm : Comm (=) merge.
Proof. intros [[a|] [b|]] [[c|] [d|]]; unfold merge; cbn; rewrite ?(Z.min_comm a), ?(Z.min_comm b); done. Qed.
#[local] Instance merge_assoc : Assoc (=) merge.
Proof. intros [[a|] [b|]] [[c|] [d|]] [[e|] [f|]]; unfold merge; cbn; rewrite ?Z.min_assoc; done. Qed.
#[local] Instance merge_idemp : IdemP (=) merge.
Proof. intros [[a|] [b|]]; unfold merge; cbn; rewrite ?Z.min_id; done. Qed.

Lemma set_times_id r : set_times r (times r) = r.
Proof. by destruct r. Qed.

(** What an entry says about the row [r]. *)
Definition applies t (conv member : bytes) (r : RecipientRow) (e : ReceiptEntry) : option (option Z * option Z) :=
  if bool_decide (reported_message t conv member (en_message_id e) = Some (rr_message r)) && bool_decide (rr_member r = member)
  then Some (en_delivered_at e, en_read_at e) else None.

Lemma reported_message_ext t t' conv member d :
  bare <$> tb_messages t' = bare <$> tb_messages t → row_keys t' = row_keys t →
  reported_message t' conv member d = reported_message t conv member d.
Proof.
  intros Hm Hk. unfold reported_message. fold (row_keys t) (row_keys t'). rewrite Hk.
  revert Hm. generalize (tb_messages t'). induction (tb_messages t) as [|m l IH]; intros [|m' l'] Hm; try done. cbn in Hm. injection Hm as Hb Hm.
  assert (ms_id m' = ms_id m ∧ ms_conv m' = ms_conv m ∧ ms_dispatch m' = ms_dispatch m ∧ ms_outgoing m' = ms_outgoing m) as (Hi & Hc & Hd & Ho).
  { unfold bare in Hb. split_and!; congruence. }
  destruct (decide (ms_conv m = conv ∧ ms_dispatch m = Some d ∧ ms_outgoing m = true ∧ (ms_id m, member) ∈ row_keys t)) as [Hp|Hp].
  - rewrite !filter_cons_True by (rewrite ?Hi, ?Hc, ?Hd, ?Ho; done). cbn. by rewrite Hi.
  - rewrite !filter_cons_False by (rewrite ?Hi, ?Hc, ?Hd, ?Ho; done). by apply IH.
Qed.

Lemma omap_same {A B} (f g : A → option B) (l : list A) : (∀ x, f x = g x) → omap f l = omap g l.
Proof. intros Hfg. induction l as [|x l IH]; [done|]. cbn. by rewrite Hfg, IH. Qed.

Lemma report_entries_rows conv member entries : ∀ t changed t' changed',
  report_entries t conv member entries changed = (t', changed') →
  tb_messages t' = tb_messages t ∧ tb_members t' = tb_members t ∧ tb_peers t' = tb_peers t ∧
  tb_recipients t' = (λ r, set_times r (foldl merge (times r) (omap (applies t conv member r) entries))) <$> tb_recipients t.
Proof.
  induction entries as [|e entries IH]; intros t changed t' changed' Hre; cbn [report_entries] in Hre.
  { injection Hre as <- _. split_and!; try done. rewrite <- (list_fmap_id (tb_recipients t)) at 1. apply list_fmap_ext.
    intros i r _. cbn. by rewrite set_times_id. }
  destruct (reported_message t conv member (en_message_id e)) as [id|] eqn:Hid.
  - pose proof (reported_keys id member e t) as Hk. set (t1 := set_recipients _ t) in *. apply IH in Hre as (Hm & Hmb & Hp & Hr).
    split_and!; try done. rewrite Hr. change (tb_recipients t1) with (reported_row id member e <$> tb_recipients t).
    rewrite <- list_fmap_compose. apply list_fmap_ext. intros i r _. cbn [compose omap list_omap]. assert (∀ x, applies t1 conv member (reported_row id member e r) x = applies t conv member r x) as Hap.
    { intros x. unfold applies. rewrite (reported_message_ext t t1) by done. by destruct (reported_row_key id member e r) as [-> ->]. }
    rewrite (omap_same _ _ entries Hap).
    unfold applies at 2. rewrite Hid. unfold reported_row.
    rewrite (bool_decide_ext (Some id = Some (rr_message r)) (rr_message r = id)) by (split; congruence).
    destruct (_ && _); [|done]. cbn. done.
  - apply IH in Hre as (Hm & Hmb & Hp & Hr). split_and!; try done. rewrite Hr. apply list_fmap_ext. intros i r _. cbn [omap list_omap].
    unfold applies at 2. rewrite Hid. by rewrite (bool_decide_false (None = Some _)).
Qed.

(** A receipt of exact events, by whom and where *)
Definition Report : Type := bytes * bytes * list ReceiptEntry.
Definition report_op (x : Report) : Op := OReceive x.1.1 x.1.2 (ReceiptDetails x.2).

(** Whether [receive_tx] takes the receipt *)
Definition accepted t (x : Report) : bool :=
  negb (bool_decide (x.2 = [])) && (len x.2 <=? 128) && is_ok (check_entries x.2) && bool_decide (x.1 ∈ (fst <$> tb_members t)).

Definition said t (r : RecipientRow) (x : Report) : list (option Z * option Z) :=
  if accepted t x then omap (applies t x.1.1 x.1.2 r) x.2 else [].

(** Nothing a receipt is judged by changes with receipts. *)
Definition steady t t' : Prop :=
  bare <$> tb_messages t' = bare <$> tb_messages t ∧ row_keys t' = row_keys t ∧ tb_members t' = tb_members t.

Lemma aggregate_total evs ids : ∀ t, recorded evs t → ∃ t', aggregate_all t ids = Ok t'.
Proof.
  induction ids as [|id ids IH]; intros t Hr; [by eexists|]. cbn. assert (∃ t1, aggregate_tx t id = Ok t1) as [t1 Ht1].
  { unfold aggregate_tx. case_bool_decide as Hnil; [by eexists|]. destruct (audience_of t id) eqn:Ha; [by eexists|]. destruct Hnil.
    unfold statuses. destruct (find_message t id); [|done]. by rewrite (no_recipients _ _ _ Hr Ha). }
  rewrite Ht1. cbn. apply IH. pose proof (aggregate_frame _ _ _ Ht1) as (? & ? & ? & _). by apply (recorded_frame evs t).
Qed.

Lemma exec_report evs t x :
  honest evs t →
  steady t (exec (report_op x) t) ∧
  tb_recipients (exec (report_op x) t) = (λ r, set_times r (foldl merge (times r) (said t r x))) <$> tb_recipients t ∧
  (∀ k, k ∈ tb_peers (exec (report_op x) t) ↔ k ∈ tb_peers t ∨ k = x.1 ∧ accepted t x = true).
Proof.
  intros Hh. destruct x as [[conv member] entries]. cbn [exec report_op fst snd].
  assert (∀ l : list RecipientRow, (λ r, set_times r (foldl merge (times r) [])) <$> l = l) as Hnone.
  { intros l. rewrite <- (list_fmap_id l) at 2. apply list_fmap_ext. intros i r _. apply set_times_id. }
  unfold said, accepted. cbn [fst snd receive_tx]. destruct (negb (bool_decide (entries = [])) && (len entries <=? 128)); cbn [ensure mbind verdict_bind andb].
  2: { rewrite Hnone. split; [done|]. split; [done|]. naive_solver. }
  destruct (check_entries entries) as [[]|e]; cbn [mbind verdict_bind is_ok andb].
  2: { rewrite Hnone. split; [done|]. split; [done|]. naive_solver. }
  destruct (bool_decide ((conv, member) ∈ (fst <$> tb_members t))); cbn [negb].
  2: { rewrite Hnone. split; [done|]. split; [done|]. naive_solver. }
  cbn zeta. set (t1 := if negb _ then _ else t).
  assert (tb_messages t1 = tb_messages t ∧ tb_members t1 = tb_members t ∧ tb_recipients t1 = tb_recipients t ∧
          ∀ k, k ∈ tb_peers t1 ↔ k ∈ tb_peers t ∨ k = (conv, member)) as (Hm1 & Hmb1 & Hr1 & Hp1).
  { unfold t1, is_peer. case_bool_decide; cbn [negb]; split_and!; try done; intros k.
    - naive_solver.
    - cbn [tb_peers set_peers]. by rewrite elem_of_app, list_elem_of_singleton. }
  destruct (report_entries t1 conv member entries []) as [t2 changed] eqn:Hre.
  pose proof (report_entries_rows _ _ _ _ _ _ _ Hre) as (Hm2 & Hmb2 & Hp2 & Hr2). pose proof (report_same _ _ _ _ _ _ _ Hre) as [Ha2 Hk2].
  assert (recorded ((conv, member, ReceiptDetails entries) :: evs) t2) as Hrec.
  { refine (proj1 (report_entries_ok _ conv member entries entries t1 [] t2 changed _ (λ _ He, He) (list_elem_of_here _ _) Hre)).
    apply (recorded_frame _ t); [by rewrite Hm1|done|by unfold t1; destruct (negb _)|]. apply (honest_more evs (conv, member, _) t Hh). }
  destruct (aggregate_total _ (if negb (is_peer t conv member) then ms_id <$> addressed_to t2 conv member else changed) t2 Hrec) as [t3 Ht3].
  rewrite Ht3. pose proof (aggregate_all_frame _ _ _ Ht3) as (Hb3 & Hr3 & _ & Hp3 & Hmb3 & _).
  assert (row_keys t1 = row_keys t) as Hk1 by (unfold row_keys; by rewrite Hr1). split; [|split].
  - split_and!; [by rewrite Hb3, Hm2, Hm1| |congruence]. rewrite <- Hk1, <- Hk2. unfold row_keys. by rewrite Hr3.
  - rewrite Hr3, Hr2, Hr1. apply list_fmap_ext. intros i r _. do 2 f_equal. apply omap_same. intros e. unfold applies.
    by rewrite (reported_message_ext t t1) by (rewrite ?Hm1; done).
  - intros k. rewrite Hp3, Hp2, Hp1. naive_solver.
Qed.

Lemma steady_said t t' r r' (l : list Report) :
  steady t t' → rr_message r' = rr_message r → rr_member r' = rr_member r → l ≫= said t' r' = l ≫= said t r.
Proof.
  intros (Hm & Hk & Hmb) Hr Hme. induction l as [|x l IH]; [done|]. cbn. rewrite IH. f_equal.
  unfold said, accepted. rewrite Hmb. destruct (_ && _); [|done]. apply omap_same. intros e. unfold applies.
  by rewrite (reported_message_ext t t'), Hr, Hme.
Qed.

Lemma run_reports l : ∀ evs t,
  honest evs t →
  let t' := run (report_op <$> l) t in
  steady t t' ∧ tb_recipients t' = (λ r, set_times r (foldl merge (times r) (l ≫= said t r))) <$> tb_recipients t ∧
  (∀ k, k ∈ tb_peers t' ↔ k ∈ tb_peers t ∨ ∃ x, x ∈ l ∧ k = x.1 ∧ accepted t x = true).
Proof.
  induction l as [|x l IH]; intros evs t Hh; cbn zeta.
  { cbn. split; [done|]. split; [|intros k; split; [by left|intros [?|(y & ?%not_elem_of_nil & _)]; done]].
    rewrite <- (list_fmap_id (tb_recipients t)) at 1. apply list_fmap_ext. intros i r _. by rewrite set_times_id. }
  destruct (exec_report evs t x Hh) as (Hst & Hrr & Hp). specialize (IH (heard (report_op x) evs) (exec (report_op x) t) (exec_honest _ _ _ Hh)).
  cbn zeta in IH. cbn [fmap list_fmap run foldl]. fold (run (report_op <$> l) (exec (report_op x) t)). destruct IH as (Hst' & Hrr' & Hp'). split; [|split].
  - destruct Hst as (? & ? & ?), Hst' as (? & ? & ?). split_and!; congruence.
  - rewrite Hrr', Hrr, <- list_fmap_compose. apply list_fmap_ext. intros i r _. cbn [compose mbind list_bind]. rewrite foldl_app.
    rewrite (steady_said t (exec (report_op x) t) r) by done.
    by destruct (foldl merge (times r) (said t r x)).
  - intros k. rewrite Hp', Hp. assert (∀ y, accepted (exec (report_op x) t) y = accepted t y) as Hac.
    { intros y. unfold accepted. by destruct Hst as (_ & _ & ->). }
    setoid_rewrite Hac. setoid_rewrite elem_of_cons. naive_solver.
Qed.


(** *** Receipts owed *)

(** The event of [r] is still to be reported, or exactly it was. *)
Definition settled_by (sent : list Owed) (r : IncomingRow) : Prop :=
  ir_pending r = true ∨
  ∃ row, row ∈ sent ∧ ow_id row = ir_message r ∧ en_delivered_at (ow_entry row) = ir_delivered_at r ∧ en_read_at (ow_entry row) = ir_read_at r.

Lemma settled_more sent sent' r : (∀ x, x ∈ sent → x ∈ sent') → settled_by sent r → settled_by sent' r.
Proof. intros Hs [?|(row & ? & ?)]; [by left|right; eauto]. Qed.

Lemma finish_settles rows : ∀ t sent,
  (∀ r, r ∈ tb_incoming t → settled_by sent r) → ∀ r, r ∈ tb_incoming (finish_batch_tx t rows) → settled_by (sent ++ rows) r.
Proof.
  induction rows as [|row rows IH]; intros t sent Ht r Hr; [rewrite app_nil_r; auto|].
  replace (sent ++ row :: rows) with ((sent ++ [row]) ++ rows) by by rewrite <- app_assoc. revert r Hr.
  apply (IH (set_incoming (finished row <$> tb_incoming t) t)). cbn. intros r Hr. apply list_elem_of_fmap in Hr as (r0 & -> & Hr0). unfold finished.
  destruct (_ && _) eqn:Hb.
  - breflect. right. exists row. split; [apply elem_of_app; right; by left|]. done.
  - apply (settled_more sent); [intros; apply elem_of_app; by left|auto].
Qed.

(** The rows of the batches a run reported *)
Definition reported (op : Op) : list Owed := match op with OFinish rows => rows | _ => [] end.

Lemma exec_settles op t sent :
  (∀ r, r ∈ tb_incoming t → settled_by sent r) → ∀ r, r ∈ tb_incoming (exec op t) → settled_by (sent ++ reported op) r.
Proof.
  intros Ht. assert (∀ r, r ∈ tb_incoming t → settled_by (sent ++ []) r) as Ht0 by by rewrite app_nil_r.
  destruct op as [x conv dispatch recipients|x fallback|dispatch member ok at_|x|conv member p|x conv sender dispatch db now
                 |conv upto now|rows|l|x|x]; cbn [exec reported]; try done.
  - destruct (save_outgoing_tx _ _ _ _ _) as [t'|] eqn:Hs; [|done]. unfold save_outgoing_tx in Hs. destruct (find_message t x); [done|].
    unfold snapshot_tx in Hs. destruct (audience_of _ _); [by injection Hs as <-|].
    apply bind_ok in Hs as ([] & _ & Hs). by apply bind_ok in Hs as (l & _ & [= <-]).
  - unfold audience_tx. destruct (snapshot_tx t x fallback false) as [t'|] eqn:Hs; [|done]. unfold snapshot_tx in Hs.
    destruct (audience_of _ _); [by injection Hs as <-|]. apply bind_ok in Hs as ([] & _ & Hs). by apply bind_ok in Hs as (l & _ & [= <-]).
  - unfold send_result. destruct member; [|done]. destruct (send_result_tx _ _ _ _ _) as [t'|] eqn:Hs; [|done]. unfold send_result_tx in Hs.
    destruct (filter _ _); [by injection Hs as <-|]. cbn [head] in Hs. cbn zeta in Hs. apply aggregate_frame in Hs as (_ & _ & _ & _ & _ & -> & _).
    cbn. by destruct (audience_of t _).
  - destruct (fail_pending_tx t x) as [t'|] eqn:Hf; [|done]. unfold fail_pending_tx in Hf. cbn zeta in Hf.
    case_bool_decide; [by injection Hf as <-|]. by apply aggregate_frame in Hf as (_ & _ & _ & _ & _ & -> & _).
  - destruct (receive_tx _ _ _ _) as [t'|] eqn:Hr; [|done]. apply receive_incoming in Hr as ->. done.
  - destruct (save_incoming_tx _ _ _ _ _ _ _) as [t'|] eqn:Hs; [|done]. unfold save_incoming_tx in Hs. destruct (_ || _); [by injection Hs as <-|].
    destruct (find_message t x); [done|]. injection Hs as <-. cbn. intros r [Hr|Hr]%elem_of_app; [auto|].
    apply list_elem_of_singleton in Hr as ->. by left.
  - cbn. intros r Hr. apply list_elem_of_fmap in Hr as (r0 & -> & Hr0). unfold read_row.
    destruct (find_message _ _) as [m|]; [|auto]. destruct (anchor_id _ _ _) as [anchor|]; [|auto]. destruct (_ && _); [by left|auto].
  - by apply finish_settles.
  - cbn. intros r [_ Hr]%list_elem_of_filter. auto.
Qed.

(** A reader's news is never dropped: however reading, sending receipts and everything else
    interleave, every message this device received is still to be reported, or was reported
    exactly as it stands; an event that comes while an older one is being reported is not
    marked off with it. *)
Theorem owed_until_reported members ops r :
  r ∈ tb_incoming (run ops (start members)) → settled_by (ops ≫= reported) r.
Proof.
  assert (∀ t sent, (∀ r, r ∈ tb_incoming t → settled_by sent r) → ∀ r, r ∈ tb_incoming (run ops t) → settled_by (sent ++ (ops ≫= reported)) r) as Hall.
  { induction ops as [|op ops IH]; intros t sent Ht; [cbn; by rewrite app_nil_r|]. cbn [mbind list_bind run foldl]. rewrite app_assoc.
    apply IH. by apply exec_settles. }
  apply (Hall (start members) []). by intros x ?%not_elem_of_nil.
Qed.
End runs.
