(* ===== verification/Outbox.v ===== *)
(** * Outbox: what the client sends, until somebody answers for it

    libcore/src/delivery/mod.rs and the table of libcore/src/db/outbox.rs.  A copy of a
    message, one per recipient, is written to the outbox before it is sent, sent again by
    every pass of [reconcile], and leaves when a relay's answer settles it; what became of
    a message's copy is recorded in Receipts first.  What comes back over the network is an
    input ([Answer]), and so is whether the messages database takes a result. *)

From S2P Require Import Prelude Verdict Bytes Crypto Keyspace Proto Client Receipts.

#[local] Open Scope Z_scope.

Inductive OpType := OpMessage | OpWelcome | OpKpPublish | OpControl.

#[global] Instance OpType_eq_dec : EqDecision OpType.
Proof. solve_decision. Defined.

Definition op_u8 (op : OpType) : Z := match op with OpMessage => 0 | OpWelcome => 1 | OpKpPublish => 2 | OpControl => 3 end.

(** [OpType::from_u8] *)
Definition op_from_u8 (v : Z) : option OpType :=
  if v =? 0 then Some OpMessage else if v =? 1 then Some OpWelcome else if v =? 2 then Some OpKpPublish
  else if v =? 3 then Some OpControl else None.

(** [OutboxRow], with its [state] *)
Record OutboxRow := mkOutbox {
  ob_id : bytes;
  ob_op : Z;
  ob_target : option bytes;
  ob_payload : bytes;
  ob_created_at : Z;
  ob_attempts : Z;
  ob_next_attempt : Z;
  ob_dead : bool;
}.

(** The tables [outbox] and [commit_left] *)
Record Outbox := mkOutboxDb {
  ox_rows : list OutboxRow;
  ox_left : gmap bytes Z;
}.

(** The unique key [(id, COALESCE(target_ipk, X''))] *)
Definition ob_key (r : OutboxRow) : bytes * bytes := (ob_id r, default [] (ob_target r)).

(** ** Outcomes *)

Inductive LastOutcome := Durable | Reachable | Terminal | Silence.

#[global] Instance LastOutcome_eq_dec : EqDecision LastOutcome.
Proof. solve_decision. Defined.

Definition outcome_for_ack (ack : DispatchAckP) : LastOutcome :=
  match ack with
  | AckForwarded _ | AckDelivered _ | AckQueued _ => Durable
  | AckQueueFull | AckError _ => Reachable
  | AckNotFound | AckInvalidSig => Terminal
  end.

Definition accepted_at_secs (ack : DispatchAckP) : option Z :=
  match ack with
  | AckForwarded t | AckDelivered t | AckQueued t => Some (t / 1000)
  | _ => None
  end.

Definition ms_i64 (ms : Z) : Z := Z.min ms (2 ^ 63 - 1).

Definition BASE_BACKOFF_MS : Z := 1000.
Definition CAP_BACKOFF_MS : Z := 300000.
Definition DEAD_TTL_MS : Z := 7 * 24 * 60 * 60 * 1000.
Definition MESSAGE_SILENCE_MAX : Z := 6.

Inductive Next := KeepRetrying | Retire | Dead.

#[global] Instance Next_eq_dec : EqDecision Next.
Proof. solve_decision. Defined.

Definition classify (op : OpType) (last : LastOutcome) (attempts age_ms : Z) : Next :=
  match last with
  | Durable | Terminal => Retire
  | Reachable => KeepRetrying
  | Silence =>
      if bool_decide (op = OpMessage) && (MESSAGE_SILENCE_MAX <=? attempts) then Dead
      else if DEAD_TTL_MS <? age_ms then Dead
      else KeepRetrying
  end.

Definition next_backoff (attempts : Z) : Z := Z.min (Z.shiftl BASE_BACKOFF_MS (Z.min attempts 32)) CAP_BACKOFF_MS.

(** ** Rows *)

Definition enqueue_tx (db : Outbox) (id : bytes) (op : OpType) (target : option bytes) (payload : bytes) (now : Z) : Outbox :=
  if bool_decide ((id, default [] target) ∈ (ob_key <$> ox_rows db)) then db
  else mkOutboxDb (ox_rows db ++ [mkOutbox id (op_u8 op) target payload (ms_i64 now) 0 0 false]) (ox_left db).

(** One member's copy: to whom, its id, what it is and the framed bytes *)
Definition Copy : Type := bytes * bytes * OpType * bytes.

Definition stored_payload (db : Outbox) (id to : bytes) : option bytes :=
  ob_payload <$> head (filter (λ r, ob_id r = id ∧ ob_target r = Some to) (ox_rows db)).

(** [batch_tx]: each copy is queued, and gets the bytes the row holds. *)
Fixpoint batch_tx (db : Outbox) (copies : list Copy) (now : Z) : verdict (Outbox * list Copy) :=
  match copies with
  | [] => Ok (db, [])
  | (to, id, op, payload) :: copies =>
      let db := enqueue_tx db id op (Some to) payload now in
      kept ← ok_or (stored_payload db id to) "Query returned no rows"%string;
      '(db, copies) ← batch_tx db copies now;
      Ok (db, (to, id, op, kept) :: copies)
  end.

(** [enqueue_batch_in]: one transaction *)
Definition enqueue_batch_in (db : Outbox) (copies : list Copy) (now : Z) : verdict (Outbox * list Copy) := batch_tx db copies now.

Definition enqueue_commit (db : Outbox) (copies : list Copy) (group : bytes) (epoch now : Z) : verdict (Outbox * list Copy) :=
  batch_tx (mkOutboxDb (ox_rows db) (<[group := epoch]> (ox_left db))) copies now.

Definition commit_left (db : Outbox) (group : bytes) (epoch : Z) : bool := bool_decide (ox_left db !! group = Some epoch).

Definition retire_tx (db : Outbox) (id : bytes) (target : option bytes) : Outbox :=
  mkOutboxDb (filter (λ r, ob_key r ≠ (id, default [] target)) (ox_rows db)) (ox_left db).

Definition retire_all_tx (db : Outbox) (id : bytes) : Outbox := mkOutboxDb (filter (λ r, ob_id r ≠ id) (ox_rows db)) (ox_left db).

Definition any_pending_tx (db : Outbox) (id : bytes) : bool := existsb (λ r, bool_decide (ob_id r = id) && negb (ob_dead r)) (ox_rows db).

Definition forget_target_tx (db : Outbox) (ipk : bytes) : Outbox :=
  mkOutboxDb (filter (λ r, ob_target r ≠ Some ipk) (ox_rows db)) (ox_left db).

Definition pending_ops_for_tx (db : Outbox) (ipk : bytes) : Z :=
  len (filter (λ r, ob_target r = Some ipk ∧ ob_dead r = false) (ox_rows db)).

(** [ORDER BY created_at] *)
Definition older (x y : OutboxRow) : Prop := ob_created_at x <= ob_created_at y.

#[global] Instance older_dec : RelDecision older.
Proof. intros x y. unfold older. apply _. Defined.

Definition due_tx (db : Outbox) (now_ms : Z) : list OutboxRow :=
  merge_sort older
    (filter (λ r, ob_dead r = false ∧ ob_next_attempt r <= ms_i64 now_ms) (ox_rows db)).

Definition map_key (k : bytes * bytes) (f : OutboxRow → OutboxRow) (db : Outbox) : Outbox :=
  mkOutboxDb ((λ r, if bool_decide (ob_key r = k) then f r else r) <$> ox_rows db) (ox_left db).

Definition record_attempt_tx (db : Outbox) (id : bytes) (target : option bytes) (next_attempt : Z) : Outbox :=
  map_key (id, default [] target)
    (λ r, mkOutbox (ob_id r) (ob_op r) (ob_target r) (ob_payload r) (ob_created_at r) (ob_attempts r + 1) (ms_i64 next_attempt) (ob_dead r)) db.

Definition mark_dead_tx (db : Outbox) (id : bytes) (target : option bytes) : Outbox :=
  map_key (id, default [] target)
    (λ r, mkOutbox (ob_id r) (ob_op r) (ob_target r) (ob_payload r) (ob_created_at r) (ob_attempts r) (ob_next_attempt r) true) db.

(** ** Sending *)

(** The outbox and the messages database. *)
Record Deliveries := mkDeliveries {
  dl_outbox : Outbox;
  dl_tables : Tables;
}.

(** What comes of sending a row: an acknowledgement, what the homes answered to a
    publication, a payload that does not decode, or nothing. *)
Inductive Answer := Acked (ack : DispatchAckP) | Published (ok : bool) | Poison | NoAnswer.

Section sending.
(** [logical_dispatch] *)
Context (logical : bytes → bytes).

(** [send_result], when the database works *)
Definition record_result (t : Tables) (id : bytes) (target : option bytes) (status : Z) (at_ : option Z) (disk : bool) : option Tables :=
  if disk then match send_result logical t id target status at_ with Ok t' => Some t' | Err _ => None end else None.

(** The [outcome] of a row, and when it was accepted *)
Definition row_outcome (op : OpType) (answer : Answer) : LastOutcome * option Z :=
  match op, answer with
  | OpKpPublish, Published true => (Durable, None)
  | OpKpPublish, _ => (Reachable, None)
  | _, Acked ack => (outcome_for_ack ack, accepted_at_secs ack)
  | _, _ => (Silence, None)
  end.

(** One turn of the loop of [reconcile_in], for the row as it was read, begun at [now] *)
Definition settle_row (d : Deliveries) (row : OutboxRow) (answer : Answer) (now : Z) (disk : bool) : Deliveries :=
  let op := default OpMessage (op_from_u8 (ob_op row)) in
  let target := t ← ob_target row; if decide (length t = 32%nat) then Some t else None in
  let outbox := dl_outbox d in
  if bool_decide (op = OpKpPublish) && match answer with Poison => true | _ => false end
  then mkDeliveries (retire_tx outbox (ob_id row) target) (dl_tables d)
  else
    let '(outcome, accepted_timestamp) := row_outcome op answer in
    let age := sat_sub now (ob_created_at row) in
    match classify op outcome (ob_attempts row) age with
    | Retire =>
        if bool_decide (op = OpMessage) then
          let status := if bool_decide (outcome = Terminal) then STATUS_FAILED else STATUS_SENT in
          match record_result (dl_tables d) (ob_id row) target status accepted_timestamp disk with
          | None => d
          | Some t => mkDeliveries (retire_tx outbox (ob_id row) target) t
          end
        else mkDeliveries (retire_tx outbox (ob_id row) target) (dl_tables d)
    | Dead =>
        if bool_decide (op = OpMessage) then
          match record_result (dl_tables d) (ob_id row) target STATUS_FAILED None disk with
          | None => d
          | Some t => mkDeliveries (mark_dead_tx outbox (ob_id row) target) t
          end
        else mkDeliveries (mark_dead_tx outbox (ob_id row) target) (dl_tables d)
    | KeepRetrying => mkDeliveries (record_attempt_tx outbox (ob_id row) target (now + next_backoff (ob_attempts row))) (dl_tables d)
    end.

(** [dispatch_queued]: a copy just queued is sent at once. *)
Definition dispatch_queued (d : Deliveries) (to id : bytes) (op : OpType) (answer : option DispatchAckP) (disk : bool) : Deliveries * LastOutcome :=
  match answer with
  | None => (d, Silence)
  | Some ack =>
      let outcome := outcome_for_ack ack in
      if bool_decide (outcome = Durable) || bool_decide (outcome = Terminal) then
        if bool_decide (op = OpMessage) then
          let status := if bool_decide (outcome = Durable) then STATUS_SENT else STATUS_FAILED in
          match record_result (dl_tables d) id (Some to) status (accepted_at_secs ack) disk with
          | None => (d, Silence)
          | Some t => (mkDeliveries (retire_tx (dl_outbox d) id (Some to)) t, outcome)
          end
        else (mkDeliveries (retire_tx (dl_outbox d) id (Some to)) (dl_tables d), outcome)
      else (d, outcome)
  end.
End sending.

(** ** Framing *)

Section framing.
Context `{Crypto} (pack : DispatchP → option bytes).

(** [prepare_dispatch]; [pack] frames the packet. *)
Definition prepare_dispatch (to our_ipk sk id payload : bytes) (wake : Wake) (ttl_ms : Z) : option bytes :=
  let sig := sign sk (dispatch_sig_message PROTOCOL_VERSION to our_ipk id payload) in
  pack (mkDispatch to our_ipk id payload sig 0 wake ttl_ms).
End framing.
