(* ===== verification/OutboxProps.v ===== *)
(** * OutboxProps: a copy waits until its fate is known

    Facts about Outbox, over every interleaving of queueing, live sends and passes. *)

From S2P Require Import Prelude Verdict Bytes Crypto Keyspace Proto Client Receipts ReceiptsProps Outbox.

#[local] Open Scope Z_scope.

(** ** Backoff *)

Lemma next_backoff_bounds attempts : 0 <= attempts → BASE_BACKOFF_MS <= next_backoff attempts <= CAP_BACKOFF_MS.
Proof.
  intros Ha. unfold next_backoff. rewrite Z.shiftl_mul_pow2 by lia. unfold BASE_BACKOFF_MS, CAP_BACKOFF_MS.
  assert (1 <= 2 ^ Z.min attempts 32) by (apply (Z.pow_le_mono_r 2 0); lia). lia.
Qed.

Lemma next_backoff_fits attempts : 0 <= attempts → 0 <= Z.shiftl BASE_BACKOFF_MS (Z.min attempts 32) <= u64_max.
Proof.
  intros Ha. rewrite Z.shiftl_mul_pow2 by lia. unfold BASE_BACKOFF_MS, u64_max.
  assert (0 <= 2 ^ Z.min attempts 32 <= 2 ^ 32) by (split; [lia|apply Z.pow_le_mono_r; lia]). lia.
Qed.

(** Only silence kills a row: a message's after six attempts, any after a week. *)
Lemma classify_dead op last attempts age :
  classify op last attempts age = Dead ↔ last = Silence ∧ (op = OpMessage ∧ MESSAGE_SILENCE_MAX <= attempts ∨ DEAD_TTL_MS < age).
Proof.
  unfold classify. destruct last; try naive_solver. destruct (_ && _) eqn:Hb; breflect; [naive_solver|].
  destruct (DEAD_TTL_MS <? age) eqn:Ht; breflect; [naive_solver lia|]. split; [done|]. intros [_ [[-> Hm]|?]]; [|lia].
  apply andb_false_iff in Hb as [Hb|Hb]; breflect; [done|lia].
Qed.

Lemma classify_retire op last attempts age : classify op last attempts age = Retire ↔ last = Durable ∨ last = Terminal.
Proof. unfold classify. destruct last; try naive_solver. repeat case_match; naive_solver. Qed.

(** ** Runs *)

Section runs.
Context (logical : bytes → bytes).

(** The client with the rows its running pass has still to send. *)
Record Sender := mkSender {
  sd_now : Deliveries;
  sd_pass : list OutboxRow;
}.

(** Queueing copies; a live send; a pass that begins, takes a turn or is cut off; the
    messages database changing for other reasons. *)
Inductive Act :=
| AEnqueue (id : bytes) (op : OpType) (target : option bytes) (payload : bytes) (now : Z)
| AQueue (copies : list Copy) (now : Z)
| AQueueCommit (copies : list Copy) (group : bytes) (epoch now : Z)
| ASend (to id : bytes) (op : OpType) (answer : option DispatchAckP) (disk : bool)
| ABegin (now : Z)
| ATurn (answer : Answer) (now : Z) (disk : bool)
| ACut
| ATables (t : Tables).

Definition act (s : Sender) (a : Act) : Sender :=
  let d := sd_now s in
  let with_outbox (r : verdict (Outbox * list Copy)) :=
    match r with Ok (o, _) => mkSender (mkDeliveries o (dl_tables d)) (sd_pass s) | Err _ => s end in
  match a with
  | AEnqueue id op target payload now => mkSender (mkDeliveries (enqueue_tx (dl_outbox d) id op target payload now) (dl_tables d)) (sd_pass s)
  | AQueue copies now => with_outbox (enqueue_batch_in (dl_outbox d) copies now)
  | AQueueCommit copies group epoch now => with_outbox (enqueue_commit (dl_outbox d) copies group epoch now)
  | ASend to id op answer disk => mkSender (dispatch_queued logical d to id op answer disk).1 (sd_pass s)
  | ABegin now => match sd_pass s with [] => mkSender d (due_tx (dl_outbox d) now) | _ => s end
  | ATurn answer now disk =>
      match sd_pass s with
      | [] => s
      | row :: rest => mkSender (settle_row logical d row answer now disk) rest
      end
  | ACut => mkSender d []
  | ATables t => mkSender (mkDeliveries (dl_outbox d) t) (sd_pass s)
  end.

Definition acts (s : Sender) (l : list Act) : Sender := foldl act s l.

(** A copy for [to] is pending under [id], and [P] is true of whatever has its key, in the
    table or in a running pass. *)
Definition held (P : option bytes → Z → bytes → Prop) (s : Sender) (id to : bytes) : Prop :=
  (∃ r, r ∈ ox_rows (dl_outbox (sd_now s)) ∧ ob_key r = (id, to) ∧ ob_dead r = false) ∧
  ∀ r, r ∈ ox_rows (dl_outbox (sd_now s)) ∨ r ∈ sd_pass s → ob_key r = (id, to) → P (ob_target r) (ob_op r) (ob_payload r).

(** The copy [payload] waits under [id]: it is pending, and there is no other. *)
Definition waiting (s : Sender) (id to : bytes) (op : OpType) (payload : bytes) : Prop :=
  held (λ target o p, target = Some to ∧ o = op_u8 op ∧ p = payload) s id to.

(** What a step knew when it let the copy go: an answer that settles it, a silence long enough
    to give it up, or a publication that does not decode; and for a message, that its fate went
    into the tables with it. *)
Definition fate (s : Sender) (a : Act) (id to : bytes) (op : OpType) : Prop :=
  ∃ outcome at_,
    match a with
    | ASend to' id' _ answer _ =>
        to' = to ∧ id' = id ∧ (outcome = Durable ∨ outcome = Terminal) ∧
        ∃ ack, answer = Some ack ∧ outcome = outcome_for_ack ack ∧ at_ = accepted_at_secs ack
    | ATurn answer now _ =>
        ∃ row, head (sd_pass s) = Some row ∧ ob_key row = (id, to) ∧
          (op = OpKpPublish ∧ answer = Poison ∨
           row_outcome op answer = (outcome, at_) ∧
             (outcome = Durable ∨ outcome = Terminal ∨
              outcome = Silence ∧ (op = OpMessage ∧ MESSAGE_SILENCE_MAX <= ob_attempts row ∨ DEAD_TTL_MS < sat_sub now (ob_created_at row))))
    | _ => False
    end ∧
    (op = OpMessage →
       send_result logical (dl_tables (sd_now s)) id (Some to) (if bool_decide (outcome = Durable) then STATUS_SENT else STATUS_FAILED) at_
       = Ok (dl_tables (sd_now (act s a)))).

(** The operation a step is about *)
Definition step_op (s : Sender) (a : Act) (op : OpType) : Prop :=
  match a with
  | ASend _ _ op' _ _ => op = op'
  | ATurn _ _ _ => ∃ row, head (sd_pass s) = Some row ∧ op = default OpMessage (op_from_u8 (ob_op row))
  | _ => False
  end.

Lemma row_outcome_silent op answer at_ : row_outcome op answer = (Silence, at_) → at_ = None.
Proof. destruct op, answer as [[]|[]| |]; cbn; congruence. Qed.

Lemma record_result_ok t id target status at_ disk t' :
  record_result logical t id target status at_ disk = Some t' → send_result logical t id target status at_ = Ok t'.
Proof. unfold record_result. destruct disk; [|done]. destruct (send_result _ _ _ _ _ _); [|done]. by intros [= ->]. Qed.

Lemma op_from_u8_u8 op : op_from_u8 (op_u8 op) = Some op.
Proof. by destruct op. Qed.

Lemma enqueue_new_rows db id op target payload now r :
  r ∈ ox_rows (enqueue_tx db id op target payload now) →
  r ∈ ox_rows db ∨ ob_key r = (id, default [] target) ∧ (id, default [] target) ∉ (ob_key <$> ox_rows db).
Proof.
  unfold enqueue_tx. case_bool_decide as Hk; [by left|]. cbn. intros [?|Hr]%elem_of_app; [by left|]. apply list_elem_of_singleton in Hr as ->. by right.
Qed.

Lemma enqueue_keeps db id op target payload now r : r ∈ ox_rows db → r ∈ ox_rows (enqueue_tx db id op target payload now).
Proof. unfold enqueue_tx. case_bool_decide; [done|]. cbn. intros. apply elem_of_app. by left. Qed.

Lemma batch_rows copies now : ∀ db db' out,
  batch_tx db copies now = Ok (db', out) →
  (∀ r, r ∈ ox_rows db → r ∈ ox_rows db') ∧ (∀ r, r ∈ ox_rows db' → r ∈ ox_rows db ∨ ob_key r ∉ (ob_key <$> ox_rows db)).
Proof.
  induction copies as [|[[[to id] op] payload] copies IH]; intros db db' out Hb; cbn [batch_tx] in Hb; [injection Hb as <- _; auto|].
  cbn zeta in Hb. apply bind_ok in Hb as (kept & _ & Hb). apply bind_ok in Hb as ([db1 copies1] & Hb & [= <- _]).
  apply IH in Hb as [Hk Hn]. split; [eauto using enqueue_keeps|]. intros r Hr. destruct (Hn r Hr) as [Hin|Hout].
  - apply enqueue_new_rows in Hin as [?|[-> ?]]; auto.
  - right. intros Hin. apply Hout. apply list_elem_of_fmap in Hin as (r0 & -> & Hr0). apply list_elem_of_fmap_2. by apply enqueue_keeps.
Qed.

Section step.
Context (P : option bytes → Z → bytes → Prop) (s : Sender) (id to : bytes).
Context (Hlen : length to = 32%nat) (Hw : held P s id to).

(** Nothing about the copy changes while other rows do. *)
Lemma waiting_rows (rows : list OutboxRow) left t pass :
  (∀ r, r ∈ ox_rows (dl_outbox (sd_now s)) → ob_key r = (id, to) → ∃ r', r' ∈ rows ∧ ob_key r' = (id, to) ∧ ob_dead r' = ob_dead r) →
  (∀ r, r ∈ rows ∨ r ∈ pass → ob_key r = (id, to) → ∃ r', (r' ∈ ox_rows (dl_outbox (sd_now s)) ∨ r' ∈ sd_pass s) ∧ ob_key r' = (id, to) ∧
     ob_target r' = ob_target r ∧ ob_op r' = ob_op r ∧ ob_payload r' = ob_payload r) →
  held P (mkSender (mkDeliveries (mkOutboxDb rows left) t) pass) id to.
Proof.
  destruct Hw as [(r & Hr & Hk & Hd) Hall]. intros Hkeep Hfrom. split; cbn.
  - destruct (Hkeep r Hr Hk) as (r' & Hr' & Hk' & Hd'). exists r'. by rewrite Hd'.
  - intros r0 Hr0 Hk0. destruct (Hfrom r0 Hr0 Hk0) as (r' & Hr' & Hk' & Ht & Ho & Hp). rewrite <- Ht, <- Ho, <- Hp. by apply Hall.
Qed.

Lemma waiting_pass pass : (∀ r, r ∈ pass → r ∈ sd_pass s) → held P (mkSender (sd_now s) pass) id to.
Proof. destruct Hw as [Hr Hall]. intros Hp. split; [done|]. intros r [?|?]; apply Hall; auto. Qed.

Lemma queue_waits copies now db out left :
  batch_tx (mkOutboxDb (ox_rows (dl_outbox (sd_now s))) left) copies now = Ok (db, out) →
  held P (mkSender (mkDeliveries db (dl_tables (sd_now s))) (sd_pass s)) id to.
Proof.
  intros [Hk Hn]%batch_rows. destruct db as [rows left']. apply waiting_rows.
  - intros r Hr Hkr. exists r. split; [by apply Hk|done].
  - intros r [Hr|Hr] Hkr; [|exists r; auto]. destruct (Hn r Hr) as [?|Hout]; [exists r; auto|]. exfalso. apply Hout. rewrite Hkr.
    destruct Hw as [(r0 & Hr0 & <- & _) _]. by apply list_elem_of_fmap_2.
Qed.

Lemma enqueue_waits id' op' target payload' now :
  held P (mkSender (mkDeliveries (enqueue_tx (dl_outbox (sd_now s)) id' op' target payload' now) (dl_tables (sd_now s))) (sd_pass s)) id to.
Proof.
  pose proof (enqueue_new_rows (dl_outbox (sd_now s)) id' op' target payload' now) as Hn.
  pose proof (enqueue_keeps (dl_outbox (sd_now s)) id' op' target payload' now) as Hk.
  destruct (enqueue_tx _ _ _ _ _ _) as [rows left]. apply waiting_rows.
  - intros r Hr Hkr. exists r. split; [by apply Hk|done].
  - intros r [Hr|Hr] Hkr; [|exists r; auto]. destruct (Hn r Hr) as [?|[Heq Hout]]; [exists r; auto|]. exfalso. apply Hout. rewrite <- Heq, Hkr.
    destruct Hw as [(r0 & Hr0 & <- & _) _]. by apply list_elem_of_fmap_2.
Qed.

Lemma retire_waits id' target t pass :
  (id', default [] target) ≠ (id, to) → (∀ r, r ∈ pass → r ∈ sd_pass s) →
  held P (mkSender (mkDeliveries (retire_tx (dl_outbox (sd_now s)) id' target) t) pass) id to.
Proof.
  intros Hne Hpass. apply waiting_rows.
  - intros r Hr Hk. exists r. split; [|done]. apply list_elem_of_filter. split; [congruence|done].
  - intros r [Hr|Hr] Hk; exists r; [|by auto]. apply list_elem_of_filter in Hr as [_ Hr]. auto.
Qed.

Lemma map_waits k f t pass :
  (∀ r, ob_key (f r) = ob_key r ∧ ob_target (f r) = ob_target r ∧ ob_op (f r) = ob_op r ∧ ob_payload (f r) = ob_payload r) →
  (k ≠ (id, to) ∨ ∀ r, ob_dead (f r) = ob_dead r) → (∀ r, r ∈ pass → r ∈ sd_pass s) →
  held P (mkSender (mkDeliveries (map_key k f (dl_outbox (sd_now s))) t) pass) id to.
Proof.
  intros Hf Hd Hpass. unfold map_key. apply waiting_rows.
  - intros r Hr Hk. eexists. split; [apply list_elem_of_fmap_2, Hr|]. cbn beta.
    case_bool_decide as Hb; [|done]. destruct (Hf r) as (-> & _). split; [done|]. destruct Hd as [Hd|Hd]; [congruence|done].
  - intros r [Hr|Hr] Hk; [|exists r; auto]. apply list_elem_of_fmap in Hr as (r0 & -> & Hr0). exists r0. destruct (Hf r0) as (H1 & H2 & H3 & H4).
    case_bool_decide; rewrite ?H1, ?H2, ?H3, ?H4 in *; auto.
Qed.

Lemma send_step to' id' op' answer disk :
  held P (act s (ASend to' id' op' answer disk)) id to ∨ fate s (ASend to' id' op' answer disk) id to op'.
Proof.
  unfold fate. cbn [act sd_now]. unfold dispatch_queued. destruct answer as [ack|]; [|left; exact Hw].
  cbn zeta. destruct (_ || _) eqn:Hset; [|left; exact Hw].
  assert (outcome_for_ack ack = Durable ∨ outcome_for_ack ack = Terminal) as Hout by (apply orb_true_iff in Hset as [?|?]; breflect; auto).
  destruct (decide ((id', to') = (id, to))) as [Heq|Hne].
  - injection Heq as -> ->. destruct (bool_decide (op' = OpMessage)) eqn:Hm; breflect.
    + destruct (record_result _ _ _ _ _ _ _) as [t|] eqn:Hr; [|left; exact Hw]. right. exists (outcome_for_ack ack), (accepted_at_secs ack).
      split; [eauto 10|]. intros _. by apply record_result_ok in Hr.
    + right. exists (outcome_for_ack ack), (accepted_at_secs ack). split; [eauto 10|]. done.
  - left. destruct (bool_decide (op' = OpMessage)); [|by apply retire_waits]. destruct (record_result _ _ _ _ _ _ _); [by apply retire_waits|exact Hw].
Qed.

(** A turn for another row. *)
Lemma other_turn row rest answer now disk :
  sd_pass s = row :: rest → ob_key row ≠ (id, to) → held P (act s (ATurn answer now disk)) id to.
Proof.
  intros Hp Hne. cbn [act]. rewrite Hp. unfold settle_row. set (target := ob_target row ≫= _).
  assert ((ob_id row, default [] target) ≠ (id, to)) as Hk.
  { unfold target, ob_key in *. destruct (ob_target row) as [t|]; cbn in *; [|congruence]. destruct (decide _); cbn; [done|]. intros [= _ <-]. done. }
  assert (∀ r, r ∈ rest → r ∈ sd_pass s) as Hrest by (intros r Hr; rewrite Hp; by right).
  clearbody target. cbn zeta. destruct (_ && _); [by apply retire_waits|]. destruct (row_outcome _ _) as [outcome at_]. destruct (classify _ _ _ _).
  - by apply map_waits; auto.
  - destruct (bool_decide (_ = OpMessage)); [|by apply retire_waits]. destruct (record_result _ _ _ _ _ _ _); [by apply retire_waits|]. apply waiting_pass; auto.
  - destruct (bool_decide (_ = OpMessage)); [|by apply map_waits; auto]. destruct (record_result _ _ _ _ _ _ _); [by apply map_waits; auto|]. apply waiting_pass; auto.
Qed.

Lemma own_turn row rest answer now disk :
  sd_pass s = row :: rest → ob_key row = (id, to) →
  held P (act s (ATurn answer now disk)) id to ∨ fate s (ATurn answer now disk) id to (default OpMessage (op_from_u8 (ob_op row))).
Proof.
  intros Hp Hk. set (op := default OpMessage _). assert (ob_target row = Some to) as Ht.
  { unfold ob_key in Hk. destruct (ob_target row); cbn in Hk; [congruence|]. injection Hk as _ <-. done. }
  assert (∀ r, r ∈ rest → r ∈ sd_pass s) as Hrest by (intros r Hr; rewrite Hp; by right).
  assert (ob_id row = id) as Hid by (unfold ob_key in Hk; congruence).
  unfold fate. cbn [act]. rewrite Hp. cbn [sd_now head]. unfold settle_row. rewrite Ht, Hid. fold op. clearbody op. cbn [mbind option_bind]. rewrite decide_True by done.
  cbn zeta. destruct (_ && _) eqn:Hpoison.
  - right. apply andb_true_iff in Hpoison as [Hop Ha]. breflect. destruct answer; try done. exists Durable, None. split; [|by rewrite Hop]. exists row. auto.
  - destruct (row_outcome op answer) as [outcome at_] eqn:Hro. destruct (classify _ _ _ _) eqn:Hc.
    + left. by apply map_waits; auto.
    + apply classify_retire in Hc. destruct (bool_decide (op = OpMessage)) eqn:Hm; breflect.
      * destruct (record_result _ _ _ _ _ _ _) eqn:Hr; [|left; by apply waiting_pass]. right. exists outcome, at_.
        split; [exists row; tauto|]. intros _. apply record_result_ok in Hr. by destruct Hc as [-> | ->].
      * right. exists outcome, at_. split; [exists row; tauto|done].
    + apply classify_dead in Hc as [-> Hlong]. destruct (bool_decide (op = OpMessage)) eqn:Hm; breflect.
      * destruct (record_result _ _ _ _ _ _ _) eqn:Hr; [|left; by apply waiting_pass]. right. exists Silence, at_.
        split; [exists row; tauto|]. intros _. apply record_result_ok in Hr. by apply row_outcome_silent in Hro as ->.
      * right. exists Silence, at_. split; [exists row; tauto|done].
Qed.

(** No step loses the copy without its fate. *)
Lemma act_held a : held P (act s a) id to ∨ ∃ op, step_op s a op ∧ fate s a id to op.
Proof.
  destruct a as [id' op' target payload' now|copies now|copies group epoch now|to' id' op' ans disk|now|answer now disk| |t].
  - left. apply enqueue_waits.
  - left. cbn [act]. unfold enqueue_batch_in. destruct (batch_tx _ _ _) as [[db out]|] eqn:Hb; [|exact Hw]. apply (queue_waits copies now db out (ox_left (dl_outbox (sd_now s)))). by destruct (dl_outbox (sd_now s)).
  - left. cbn [act]. unfold enqueue_commit. destruct (batch_tx _ _ _) as [[db out]|] eqn:Hb; [|exact Hw]. by apply (queue_waits copies now db out (<[group:=epoch]> (ox_left (dl_outbox (sd_now s))))).
  - destruct (send_step to' id' op' ans disk); [by left|right; by exists op'].
  - left. cbn [act]. destruct (sd_pass s) eqn:Hp; [|exact Hw]. destruct Hw as [Hr Hall]. split; [done|]. intros r [?|Hd]; [by auto|].
    apply Hall. left. cbn [sd_pass] in Hd. unfold due_tx in Hd. rewrite merge_sort_Permutation in Hd. by apply list_elem_of_filter in Hd as [_ ?].
  - destruct (sd_pass s) as [|row rest] eqn:Hp; [left; cbn [act]; by rewrite Hp|].
    destruct (decide (ob_key row = (id, to))) as [Hk|]; [|left; by eapply other_turn].
    destruct (own_turn row rest answer now disk Hp Hk); [by left|right]. eexists. split; [|done]. cbn. rewrite Hp. eauto.
  - left. apply waiting_pass. by intros r ?%elem_of_nil.
  - left. exact Hw.
Qed.
End step.

Lemma act_waits s id to op payload a :
  length to = 32%nat → waiting s id to op payload → (∀ o ans disk, a = ASend to id o ans disk → o = op) →
  waiting (act s a) id to op payload ∨ fate s a id to op.
Proof.
  intros Hlen Hw Hop. destruct (act_held _ s id to Hlen Hw a) as [?|(o & Ho & Hf)]; [by left|right].
  destruct a as [| | |to' id' o' ans disk| |answer now disk| |]; try done; cbn in Ho.
  - subst o'. pose proof Hf as (? & ? & (-> & -> & ?) & ?). by rewrite <- (Hop o ans disk).
  - destruct Ho as (row & Hrow & ->). destruct Hf as (outcome & at_ & (row' & Hrow' & Hk & Hres) & Hrec). cbn in Hrow'.
    rewrite Hrow in Hrow'. injection Hrow' as <-. destruct Hw as [_ Hall]. destruct (Hall row) as (_ & Hro & _); [right|done|].
    { destruct (sd_pass s); [done|]. injection Hrow as ->. by left. }
    rewrite Hro, op_from_u8_u8 in *. exists outcome, at_. split; [|done]. exists row. auto.
Qed.

(** C17: through any interleaving of queueing, live sends, passes over the due rows (cut off
    anywhere) and changes of the messages, a copy queued for a peer stays pending, unaltered,
    until a step that knew its fate: an answer of the relay that takes or refuses it, or
    silence, after six attempts of a message or a week. For a message that step also put the
    fate, and nothing else, into the tables the screen reads. *)
Theorem copy_waits_for_its_fate s id to op payload l :
  length to = 32%nat → waiting s id to op payload →
  (∀ o ans disk, ASend to id o ans disk ∈ l → o = op) →
  waiting (acts s l) id to op payload ∨
  ∃ l1 a l2, l = l1 ++ a :: l2 ∧ waiting (acts s l1) id to op payload ∧ fate (acts s l1) a id to op.
Proof.
  intros Hlen. revert s. induction l as [|a l IH]; intros s Hw Hop; [by left|].
  destruct (act_waits s id to op payload a Hlen Hw) as [Hw'|Hf]; [intros o ans disk ->; eapply Hop; by left| |right; by exists [], a, l].
  destruct (IH (act s a) Hw') as [?|(l1 & b & l2 & -> & ? & ?)]; [intros o ans disk ?; eapply Hop; right; eauto|by left|right].
  by exists (a :: l1), b, l2.
Qed.

(** ** Retries *)

(** When a step happens, for those that read the clock, and the peers it queues for. *)
Definition at_most (T : Z) (a : Act) : Prop :=
  match a with AEnqueue _ _ _ _ now | AQueue _ now | AQueueCommit _ _ _ now | ABegin now | ATurn _ now _ => now <= T | _ => True end.

Definition addressed (a : Act) : Prop :=
  match a with
  | AEnqueue _ _ target _ _ => ∀ to, target = Some to → length to = 32%nat
  | AQueue copies _ | AQueueCommit copies _ _ _ => ∀ c, c ∈ copies → length c.1.1.1 = 32%nat
  | _ => True
  end.

(** A row's next attempt is never far. *)
Definition soon (T : Z) (r : OutboxRow) : Prop :=
  0 <= ob_attempts r ∧ ob_next_attempt r <= Z.max 0 (T + CAP_BACKOFF_MS) ∧ ∀ to, ob_target r = Some to → length to = 32%nat.

Definition timely (T : Z) (s : Sender) : Prop :=
  Forall (soon T) (ox_rows (dl_outbox (sd_now s))) ∧ Forall (soon T) (sd_pass s).

Lemma filter_Forall_keep {A} (P Q : A → Prop) `{∀ x, Decision (Q x)} l : Forall P l → Forall P (filter Q l).
Proof. rewrite !Forall_forall. intros Hf x [_ ?]%list_elem_of_filter. auto. Qed.

Lemma enqueue_soon T db id op target payload now :
  (∀ to, target = Some to → length to = 32%nat) → Forall (soon T) (ox_rows db) → Forall (soon T) (ox_rows (enqueue_tx db id op target payload now)).
Proof.
  intros Ht Hf. unfold enqueue_tx. case_bool_decide; [done|]. cbn. apply Forall_app. split; [done|]. apply Forall_singleton. repeat split; cbn; [lia|lia|done].
Qed.

Lemma batch_soon T copies now : ∀ db db' out,
  (∀ c, c ∈ copies → length c.1.1.1 = 32%nat) → Forall (soon T) (ox_rows db) → batch_tx db copies now = Ok (db', out) → Forall (soon T) (ox_rows db').
Proof.
  induction copies as [|[[[to id] op] payload] copies IH]; intros db db' out Hl Hf Hb; cbn [batch_tx] in Hb; [by injection Hb as <- _|].
  cbn zeta in Hb. apply bind_ok in Hb as (kept & _ & Hb). apply bind_ok in Hb as ([db1 copies1] & Hb & [= <- _]).
  eapply IH, Hb; [intros c ?; apply Hl; by right|]. apply enqueue_soon; [|done]. intros to' [= <-]. apply (Hl (to, id, op, payload)). by left.
Qed.

Lemma retire_soon T db id target : Forall (soon T) (ox_rows db) → Forall (soon T) (ox_rows (retire_tx db id target)).
Proof. cbn. intros. by apply filter_Forall_keep. Qed.

Lemma map_soon T k f db :
  (∀ r, soon T r → soon T (f r)) → Forall (soon T) (ox_rows db) → Forall (soon T) (ox_rows (map_key k f db)).
Proof. intros Hf Hr. cbn. apply Forall_fmap. eapply Forall_impl; [done|]. intros r ?. cbn. case_bool_decide; auto. Qed.

Lemma settle_soon T d row answer now disk :
  now <= T → soon T row → Forall (soon T) (ox_rows (dl_outbox d)) → Forall (soon T) (ox_rows (dl_outbox (settle_row logical d row answer now disk))).
Proof.
  intros Hnow (Ha & _ & _) Hf. unfold settle_row. cbn zeta. destruct (_ && _); [by apply retire_soon|]. destruct (row_outcome _ _) as [outcome at_]. destruct (classify _ _ _ _).
  - apply map_soon; [|done]. intros r (Hr & _ & Ht). pose proof (next_backoff_bounds (ob_attempts row) Ha). repeat split; cbn; [lia| |done].
    unfold ms_i64. lia.
  - destruct (bool_decide (_ = OpMessage)); [|by apply retire_soon]. destruct (record_result _ _ _ _ _ _ _); [by apply retire_soon|done].
  - assert (Forall (soon T) (ox_rows (mark_dead_tx (dl_outbox d) (ob_id row) (t ← ob_target row; if decide (length t = 32%nat) then Some t else None)))).
    { apply map_soon; [|done]. intros r (? & ? & ?). done. }
    destruct (bool_decide (_ = OpMessage)); [|done]. by destruct (record_result _ _ _ _ _ _ _).
Qed.

Lemma act_timely T s a : at_most T a → addressed a → timely T s → timely T (act s a).
Proof.
  intros Hat Had [Hr Hp]. destruct a; cbn [act at_most addressed] in *.
  - split; [by apply enqueue_soon|done].
  - unfold enqueue_batch_in. destruct (batch_tx _ _ _) as [[db out]|] eqn:Hb; [|done]. split; [by eapply batch_soon, Hb|done].
  - unfold enqueue_commit. destruct (batch_tx _ _ _) as [[db out]|] eqn:Hb; [|done]. split; [by eapply batch_soon, Hb|done].
  - split; [|done]. unfold dispatch_queued. repeat (case_match; cbn; try done; try by apply filter_Forall_keep).
  - destruct (sd_pass s) eqn:E; [|split; [done|by rewrite E]]. split; [done|]. cbn. unfold due_tx. rewrite merge_sort_Permutation. by apply filter_Forall_keep.
  - destruct (sd_pass s) as [|row rest] eqn:E; [split; [done|by rewrite E]|]. apply Forall_cons in Hp as [? ?]. split; [by apply settle_soon|done].
  - split; [done|constructor].
  - done.
Qed.

Lemma acts_timely T l : ∀ s, Forall (at_most T) l → Forall addressed l → timely T s → timely T (acts s l).
Proof.
  induction l as [|a l IH]; intros s Ht Ha Hs; [done|]. apply Forall_cons in Ht as [? ?]. apply Forall_cons in Ha as [? ?]. apply IH; [done..|]. by apply act_timely.
Qed.

(** ** A relay that is back *)

Lemma aggregate_known t id : is_Some (audience_of t id) → ∃ t', aggregate_tx t id = Ok t'.
Proof. intros [b Hb]. unfold aggregate_tx. rewrite Hb. cbn zeta. case_bool_decide; cbn; eauto. Qed.

Lemma send_result_total t dispatch member status at_ : ∃ t', send_result logical t dispatch member status at_ = Ok t'.
Proof.
  unfold send_result. destruct member as [member|]; [|eauto]. unfold send_result_tx. destruct (head _) as [m|]; [|eauto]. cbn zeta.
  apply aggregate_known. rewrite (audience_same (match audience_of t (ms_id m) with Some _ => t | None => set_audiences (tb_audiences t ++ [(ms_id m, false)]) t end) _ (ms_id m)) by done.
  destruct (audience_of t (ms_id m)) eqn:Ha; [eauto|]. apply audience_known. cbn. rewrite fmap_app. apply elem_of_app. right. by left.
Qed.

(** A turn whose answer takes the row. *)
Definition takes (row : OutboxRow) (answer : Answer) : Prop :=
  ∃ at_, row_outcome (default OpMessage (op_from_u8 (ob_op row))) answer = (Durable, at_).

Lemma taken_turn d row answer now :
  (∀ to, ob_target row = Some to → length to = 32%nat) → takes row answer →
  dl_outbox (settle_row logical d row answer now true) = mkOutboxDb (filter (λ r, ob_key r ≠ ob_key row) (ox_rows (dl_outbox d))) (ox_left (dl_outbox d)).
Proof.
  intros Hlen [at_ Hro]. unfold settle_row. cbn zeta.
  assert ((t ← ob_target row; if decide (length t = 32%nat) then Some t else None) = ob_target row) as Ht.
  { destruct (ob_target row) as [t|]; [|done]. cbn. by rewrite decide_True by auto. }
  rewrite Ht. destruct (_ && _) eqn:Hpoison.
  - done.
  - rewrite Hro. cbn [classify]. destruct (bool_decide (_ = OpMessage)); [|done]. unfold record_result.
    destruct (send_result_total (dl_tables d) (ob_id row) (ob_target row) STATUS_SENT at_) as [t' Ht'].
    rewrite bool_decide_false by done. by rewrite Ht'.
Qed.

Lemma taken_pass now : ∀ answers s,
  (∀ r, r ∈ ox_rows (dl_outbox (sd_now s)) → ob_dead r = false → ob_key r ∈ (ob_key <$> sd_pass s)) →
  (∀ r, r ∈ sd_pass s → ∀ to, ob_target r = Some to → length to = 32%nat) →
  Forall2 takes (sd_pass s) answers →
  ∀ r, r ∈ ox_rows (dl_outbox (sd_now (acts s ((λ a, ATurn a now true) <$> answers)))) → ob_dead r = true.
Proof.
  induction answers as [|a answers IH]; intros s Hdue Hlen Htakes r Hr.
  - apply Forall2_nil_inv_r in Htakes. rewrite Htakes in Hdue. destruct (ob_dead r) eqn:Hd; [done|]. by apply Hdue, elem_of_nil in Hr.
  - destruct (sd_pass s) as [|row rest] eqn:Hp; [by apply Forall2_nil_cons_inv in Htakes|]. apply Forall2_cons in Htakes as [Ha Hrest].
    assert (act s (ATurn a now true) = mkSender (settle_row logical (sd_now s) row a now true) rest) as Hact by (cbn [act]; by rewrite Hp).
    revert r Hr. cbn [fmap list_fmap acts foldl]. change (foldl act ?x ?l) with (acts x l). rewrite Hact. apply IH; cbn [sd_now sd_pass]; [|intros ? ?; apply Hlen; by right|done].
    rewrite taken_turn by (done || (apply Hlen; by left)). cbn. intros r [Hne Hr]%list_elem_of_filter Hd.
    destruct (proj1 (elem_of_cons _ _ _) (Hdue r Hr Hd)); [congruence|done].
Qed.

(** C18: whatever the client queued and however its attempts went, five minutes after the last
    of them every pending copy is due, and one pass in which the relay takes what it is sent
    leaves nothing pending. *)
Theorem outbox_drains t l T now answers :
  0 <= T → T + CAP_BACKOFF_MS <= now → now <= 2 ^ 63 - 1 → Forall (at_most T) l → Forall addressed l →
  let s := act (act (acts (mkSender (mkDeliveries (mkOutboxDb [] ∅) t) []) l) ACut) (ABegin now) in
  Forall2 takes (sd_pass s) answers →
  ∀ r, r ∈ ox_rows (dl_outbox (sd_now (acts s ((λ a, ATurn a now true) <$> answers)))) → ob_dead r = true.
Proof.
  intros HT Hnow Hmax Ht Ha s Htakes. pose proof (acts_timely T l (mkSender (mkDeliveries (mkOutboxDb [] ∅) t) []) Ht Ha) as [Hr _]; [by split|].
  rewrite Forall_forall in Hr. apply taken_pass; [..|done].
  - intros r Hin Hd. apply list_elem_of_fmap_2. cbn. unfold due_tx. rewrite merge_sort_Permutation. apply list_elem_of_filter. split; [|done].
    split; [done|]. destruct (Hr r Hin) as (_ & ? & _). unfold ms_i64, CAP_BACKOFF_MS in *. lia.
  - intros r Hin. cbn in Hin. unfold due_tx in Hin. rewrite merge_sort_Permutation in Hin. apply list_elem_of_filter in Hin as [_ Hin]. by apply (Hr r Hin).
Qed.
End runs.
