(* ===== verification/MessageExamples.v ===== *)
(** * MessageExamples: sending a message to two friends

    A device that sends one message, hears of it, and retries a copy, with the theorems of
    ReceiptsProps and OutboxProps at these runs. *)

From S2P Require Import Prelude Verdict Bytes Crypto Keyspace Proto Client Receipts ReceiptsProps Outbox OutboxProps.

#[local] Open Scope Z_scope.

(** ** Receipts *)

Module Told.
Definition ana : bytes := [65].
Definition bob : bytes := [66].
Definition conv : bytes := [9].
Definition note : bytes := [1].
Definition dispatch : bytes := [101].

Definition members : list (bytes * bytes * bool) := [(conv, ana, true); (conv, bob, true)].
Definition sent : Tables := run (λ d, d) [OSave note conv dispatch [ana; bob]] (start members).

Definition got (at_ : Z) : ReceiptEntry := mkEntry dispatch (Some at_) None.
Definition saw (at_ : Z) : ReceiptEntry := mkEntry dispatch (Some at_) (Some (at_ + 5)).

(** Ana reads it, Bob's delivery comes twice and his reading last. *)
Definition news : list Op :=
  [OReceive conv ana (ReceiptDetails [saw 10]); OSent dispatch (Some bob) true (Some 3); OReceive conv bob (ReceiptDetails [got 12]);
   OReceive conv bob (ReceiptDetails [got 12]); OFail note; OReceive conv bob (ReceiptDetails [saw 11])].

(** [shown_status_is_told], once everybody has read the note *)
Lemma shown_status_is_told_witness :
  ms_status <$> tb_messages (run (λ d, d) news sent) = [STATUS_READ] ∧
  told (receipts ([] ++ OSave note conv dispatch [ana; bob] :: news)) (mkMsg note conv None true STATUS_READ (Some dispatch) false false) bob RcRead.
Proof.
  split; [reflexivity|].
  refine (proj1 (proj2 (proj2 (shown_status_is_told (λ d, d) members [] note conv dispatch [ana; bob] sent news _ _ _ _ _ _))) _ bob _).
  - reflexivity.
  - discriminate.
  - cbn. intros H. repeat (apply elem_of_cons in H as [[=]|H]). by apply elem_of_nil in H.
  - assert (tb_messages (run (λ d, d) news sent) = [mkMsg note conv None true STATUS_READ (Some dispatch) false false]) as -> by reflexivity. by left.
  - reflexivity.
  - reflexivity.
  - right. by left.
Defined.

End Told.

(** ** The outbox *)

Module Retried.
Definition bob : bytes := replicate 32 66.
Definition note : bytes := [101].
Definition frame : bytes := [1; 2; 3].

Definition idle : Sender := mkSender (mkDeliveries (mkOutboxDb [] ∅) (start [])) [].
Definition queued : Sender := act (λ d, d) idle (AQueue [(bob, note, OpMessage, frame)] 1000).

Lemma queued_waits : waiting queued note bob OpMessage frame.
Proof.
  split.
  - eexists. split; [by left|done].
  - intros r [Hr|Hr] _; cbn in Hr; [|by apply elem_of_nil in Hr]. apply list_elem_of_singleton in Hr as ->. done.
Qed.

(** The first pass gets no answer, the second is refused for now, the third is taken. *)
Definition tries : list Act :=
  [ABegin 1000; ATurn NoAnswer 1000 true; ABegin 2000; ATurn (Acked AckQueueFull) 2000 true; ABegin 9000; ATurn (Acked (AckQueued 9000)) 9000 true].

(** [copy_waits_for_its_fate]: after the first two passes the copy still waits, and the third
    settles it. *)
Lemma copy_waits_for_its_fate_witness :
  ox_rows (dl_outbox (sd_now (acts (λ d, d) queued tries))) = [] ∧
  (waiting (acts (λ d, d) queued tries) note bob OpMessage frame ∨
   ∃ l1 a l2, tries = l1 ++ a :: l2 ∧ waiting (acts (λ d, d) queued l1) note bob OpMessage frame ∧ fate (λ d, d) (acts (λ d, d) queued l1) a note bob OpMessage).
Proof.
  split; [reflexivity|].
  apply (copy_waits_for_its_fate (λ d, d) queued note bob OpMessage frame tries); [reflexivity|exact queued_waits|].
  intros o ans disk H. cbn in H. repeat (apply elem_of_cons in H as [[=]|H]). by apply elem_of_nil in H.
Defined.

Definition queue_and_miss : list Act := [AQueue [(bob, note, OpMessage, frame)] 1000; ABegin 1000; ATurn NoAnswer 1000 true].

(** [outbox_drains], for a copy whose first attempt got no answer *)
Lemma outbox_drains_witness :
  let s := act (λ d, d) (act (λ d, d) (acts (λ d, d) (mkSender (mkDeliveries (mkOutboxDb [] ∅) (start [])) []) queue_and_miss) ACut) (ABegin 301000) in
  length (sd_pass s) = 1%nat ∧
  ∀ r, r ∈ ox_rows (dl_outbox (sd_now (acts (λ d, d) s ((λ a, ATurn a 301000 true) <$> [Acked (AckQueued 301000)])))) → ob_dead r = true.
Proof.
  split; [reflexivity|].
  apply (outbox_drains (λ d, d) (start []) queue_and_miss 1000 301000 [Acked (AckQueued 301000)]).
  - discriminate.
  - discriminate.
  - discriminate.
  - repeat constructor; discriminate.
  - repeat constructor. intros c Hc. by apply list_elem_of_singleton in Hc as ->.
  - constructor; [|constructor]. by eexists.
Defined.

(** Six answers that only put it off, then one silence: the message is failed although the
    relay answered every retry but the last. *)
Definition busy : list Act :=
  ([1; 2; 3; 4; 5; 6] ≫= λ n, [ABegin (400000 * n); ATurn (Acked AckQueueFull) (400000 * n) true]) ++ [ABegin 2800000; ATurn NoAnswer 2800000 true].

Lemma answered_attempts_count : ob_dead <$> ox_rows (dl_outbox (sd_now (acts (λ d, d) queued busy))) = [true].
Proof. reflexivity. Qed.
End Retried.
