(* ===== verification/GroupSend.v ===== *)
(** * GroupSend: a post leaves a member of a group

    [copies], [addressed], [queue_locked], [flush_jobs], [deliver_with] and the replays of
    [reconcile] in libcore/src/groups/recovery.rs, [queue_application] and [SealedMessage]
    in libcore/src/messaging/send.rs, [dispatch_id] and [logical_dispatch] in
    libcore/src/mls/recovery.rs.  The group's journal and the outbox are two databases: the
    device may die between any two of their transactions ([Cut]).  OpenMLS sealing a
    plaintext on a snapshot ([encrypt]), the payloads' codec ([payload_of]) and the framing
    of a packet ([pack]) are parameters. *)

From S2P Require Import Prelude Verdict Bytes Crypto Keyspace Proto MlsWire Client GroupPolicy Groups GroupHistory GroupAgreement GroupJournal GroupJournalProps GroupReceive Receipts ReceiptsProps Outbox OutboxProps.
From Stdlib Require String.

#[local] Open Scope Z_scope.

Record SealedMessage := mkSealed {
  sl_group_id : bytes;
  sl_epoch : Z;
  sl_mls_bytes : bytes;
  sl_branch : option bytes;
  sl_proof : option bytes;
}.

(** The [MlsEnvelopeP]s that carry sealed messages *)
Inductive SealedEnvelope :=
| EnApplication (frame : GroupFrame)
| EnGroupApplication (branch : bytes) (frame : GroupFrame) (proof : option bytes).

(** [wake as i64], and back as [reconcile] reads it *)
Definition wake_code (w : Wake) : Z := match w with WakeNo => 0 | WakeMessage => 1 | WakeCall => 2 end.
Definition wake_of (z : Z) : Wake := if z =? 0 then WakeNo else if z =? 1 then WakeMessage else WakeCall.

(** What is sent: the message's id, its bytes, to whom and how. *)
Record Post := mkPost {
  po_id : bytes;
  po_payload : bytes;
  po_recipients : list bytes;
  po_kind : OpType;
  po_wake : Wake;
  po_ttl_ms : Z;
  po_durable : bool;
}.

(** How far a send or a flush gets: the journal's transaction, then the outbox's, then the
    journal's again. *)
Inductive Cut := AtJournal | AtOutbox | Whole.

(** The journal of a group, and the client's outbox. *)
Record Member (Snap : Type) := mkMember {
  mb_journal : Journal Snap;
  mb_sender : Sender;
}.
Arguments mkMember {Snap}.
Arguments mb_journal {Snap}.
Arguments mb_sender {Snap}.

Definition set_live {Snap} (s : Snap) (j : Journal Snap) : Journal Snap :=
  mkJournal (Some s) (jn_root j) (jn_rows j) (jn_replay j) (jn_ids j) (jn_jobs j) (jn_received j) (jn_joined j) (jn_spent j).

Definition outbox_of (s : Sender) : Outbox := dl_outbox (sd_now s).
Definition set_outbox (o : Outbox) (s : Sender) : Sender := mkSender (mkDeliveries o (dl_tables (sd_now s))) (sd_pass s).

(** [copies]; an unknown kind panics. *)
Definition copy_of (job : DispatchJob) : option Copy :=
  op ← op_from_u8 (dj_kind job `mod` 256); Some (dj_recipient job, dj_id job, op, dj_frame job).
Definition copies (jobs : list DispatchJob) : option (list Copy) := mapM copy_of jobs.

Section send.
Context {Snap : Type} (load : Snap → MlsGroup) (fits : Snap → bool) (sha256 : bytes → bytes).
Context `{Crypto} `{Prefixed MetaHead} `{Codec GroupState} `{Codec GroupChange} `{Codec PublicState} `{Codec ProofBody}
  `{Codec GroupMessage} `{Codec SealedEnvelope}.
Context (encrypt : Snap → bytes → option (Snap * bytes)) (payload_of : bytes → option AppPayload) (pack : DispatchP → option bytes).
Implicit Types (j : Journal Snap) (m : Member Snap) (sk : bytes).

Definition dispatch_id (branch logical_id : bytes) : bytes :=
  take 16 (sha256 (List.concat [str "promtuz group dispatch v1"; branch; logical_id])).

Definition logical_dispatch j (id : bytes) : bytes :=
  default id (snd <$> head (filter (λ x, x.1 = id) (jn_ids j))).

(** ** Sealing *)

Definition seal_application_message (s : Snap) (plaintext : bytes) : verdict (Snap * SealedMessage) :=
  '(s', mls_bytes) ← ok_or (encrypt s plaintext) "openmls"%string;
  ensure (len mls_bytes <=? MAX_FRAMED_MLS_BYTES) "mls_bytes exceeds MAX_FRAMED_MLS_BYTES"%string;;
  Ok (s', mkSealed (g_id (load s')) (g_epoch (load s')) mls_bytes None None).

Definition on_branch (branch : bytes) (sealed : SealedMessage) : SealedMessage :=
  mkSealed (sl_group_id sealed) (sl_epoch sealed) (sl_mls_bytes sealed) (Some branch) (sl_proof sealed).

(** [SealedMessage::address_to] *)
Definition address_to (sealed : SealedMessage) (to sk : bytes) : option bytes :=
  let transcript :=
    match sl_branch sealed with
    | Some branch => group_envelope_signing_input PROTOCOL_VERSION to (sl_group_id sealed) (sl_epoch sealed) branch (sl_mls_bytes sealed)
    | None => envelope_signing_input PROTOCOL_VERSION to (sl_group_id sealed) (sl_epoch sealed) (sl_mls_bytes sealed)
    end in
  let env := mkFrame MLS_ENVELOPE_VERSION (sl_group_id sealed) (sl_epoch sealed) (sl_mls_bytes sealed) (sign sk transcript) in
  ser (match sl_branch sealed with Some branch => EnGroupApplication branch env (sl_proof sealed) | None => EnApplication env end).

Definition job_for (sealed : SealedMessage) (id logical_id to sk : bytes) (kind : OpType) (wake : Wake) (ttl_ms : Z) : verdict DispatchJob :=
  payload ← ok_or (address_to sealed to sk) "postcard ser envelope"%string;
  frame ← ok_or (prepare_dispatch pack to (verifying_key sk) sk id payload wake ttl_ms) "frame dispatch"%string;
  Ok (mkJob to id logical_id (op_u8 kind) frame).

Fixpoint jobs_for (sealed : SealedMessage) (id logical_id : bytes) (recipients : list bytes) (sk : bytes) (kind : OpType) (wake : Wake) (ttl_ms : Z) :
    verdict (list DispatchJob) :=
  match recipients with
  | [] => Ok []
  | to :: recipients =>
      job ← job_for sealed id logical_id to sk kind wake ttl_ms;
      jobs ← jobs_for sealed id logical_id recipients sk kind wake ttl_ms;
      Ok (job :: jobs)
  end.

(** [addressed] *)
Definition addressed (sealed : SealedMessage) (logical_id : bytes) (recipients : list bytes) (sk : bytes) (kind : OpType) (wake : Wake) (ttl_ms : Z) :
    verdict (list DispatchJob) :=
  let id := match sl_branch sealed with Some b => dispatch_id b logical_id | None => logical_id end in
  jobs_for sealed id logical_id recipients sk kind wake ttl_ms.

(** Requests and forwarded invitations are not sent again on another branch. *)
Definition replayable (p : Post) : bool :=
  po_durable p && match payload_of (po_payload p) with
                  | Some PlGroupRequest | Some PlGroupWelcome | Some PlGroupInvitation => false
                  | _ => true
                  end.

(** The recipients a post still goes to *)
Definition reached (g : MlsGroup) (me : bytes) (recipients : list bytes) : list bytes :=
  filter (λ r, r ∈ roster g ∧ r ≠ me) recipients.

(** [queue_locked] up to its first transaction; [shown] is whether the message is there and
    not deleted ([None]: the group has no conversation). *)
Definition seal_post j (p : Post) (sk : bytes) (shown : option bool) (now : Z) : verdict (Journal Snap * list DispatchJob) :=
  opened ← open_transaction load fits j None;
  tx ← ok_or opened "no group state"%string;
  (if bool_decide (po_kind p = OpMessage) then
     there ← ok_or shown "group has no conversation"%string; ensure there "message was deleted"%string
   else Ok tt);;
  let g := load (tx_source tx) in
  let me := verifying_key sk in
  ensure (application_is_permitted g me (payload_of (po_payload p))) "this action is not permitted in the group"%string;;
  ensure (bool_decide (me ∈ roster g)) "you are no longer in this group"%string;;
  let recipients := reached g me (po_recipients p) in
  ensure (negb (bool_decide (recipients = []))) "no original recipients remain in the group"%string;;
  plain ← ok_or (ser (mkGroupMessage (po_id p) (po_payload p))) "postcard"%string;
  '(working, sealed) ← seal_application_message (tx_source tx) plain;
  jobs ← addressed (on_branch (tx_parent tx) sealed) (po_id p) recipients sk (po_kind p) (po_wake p) (po_ttl_ms p);
  let replay := mkReplay (po_id p) (po_payload p) recipients (wake_code (po_wake p)) (op_u8 (po_kind p)) in
  '(j, _) ← publish load fits sha256 j tx working None (if po_durable p then jobs else [])
              (if replayable p then Some replay else None) None now;
  Ok (j, jobs).

(** The outbox's transaction, and what follows it in the journal *)
Definition hand_over m j (jobs : list DispatchJob) (tick : bool) (now_ms : Z) (cut : Cut) : verdict (Member Snap * list Copy) :=
  match cut with
  | AtJournal => Ok (mkMember j (mb_sender m), [])
  | _ =>
      cs ← ok_or (copies jobs) "known dispatch kind"%string;
      '(o, cs) ← enqueue_batch_in (outbox_of (mb_sender m)) cs now_ms;
      let j := match cut with Whole => if tick then materialized j jobs else j | _ => j end in
      Ok (mkMember j (set_outbox o (mb_sender m)), cs)
  end.

(** [queue_locked] *)
Definition queue_locked m (p : Post) (sk : bytes) (shown : option bool) (now now_ms : Z) (cut : Cut) : verdict (Member Snap * list Copy) :=
  '(j, jobs) ← seal_post (mb_journal m) p sk shown now;
  hand_over m j jobs (po_durable p) now_ms cut.

(** [flush_jobs] *)
Definition flush_jobs m (now_ms : Z) (cut : Cut) : verdict (Member Snap * list Copy) :=
  hand_over m (mb_journal m) (snd <$> jn_jobs (mb_journal m)) true now_ms cut.

(** [queue_application]; sealing in a group without signed rules is not part of a
    transaction, so the ratchet has moved even when the rest fails. *)
Definition queue_application m (p : Post) (sk : bytes) (shown : option bool) (now now_ms : Z) (cut : Cut) : Member Snap * verdict (list Copy) :=
  match jn_live (mb_journal m) with
  | None => (m, Err "no local group state"%string)
  | Some live =>
      if bool_decide (is_Some (meta ← group_meta (load live); gm_state meta)) then
        match queue_locked m p sk shown now now_ms cut with Ok (m, cs) => (m, Ok cs) | Err e => (m, Err e) end
      else
        match seal_application_message live (po_payload p) with
        | Err e => (m, Err e)
        | Ok (s, sealed) =>
            let m := mkMember (set_live s (mb_journal m)) (mb_sender m) in
            match jobs ← addressed sealed (po_id p) (po_recipients p) sk (po_kind p) (po_wake p) (po_ttl_ms p);
                  hand_over m (mb_journal m) jobs false now_ms cut with
            | Ok (m, cs) => (m, Ok cs)
            | Err e => (m, Err e)
            end
        end
  end.

(** One turn of the replay loop of [reconcile], and whether the loop goes on; a refused
    replay is discarded, one that fails stays. *)
Definition replay_turn m (rp : Replay) (sk : bytes) (shown : option bool) (now now_ms : Z) (cut : Cut) : verdict (Member Snap * bool) :=
  kind ← ok_or (op_from_u8 (rp_kind rp `mod` 256)) "unknown group dispatch kind"%string;
  match jn_live (mb_journal m) with
  | None => Ok (m, false)
  | Some live =>
      let g := load live in
      let me := verifying_key sk in
      let available := negb (bool_decide (kind = OpMessage)) || bool_decide (shown = Some true) in
      if negb available || negb (bool_decide (me ∈ roster g)) || negb (application_is_permitted g me (payload_of (rp_payload rp)))
         || negb (existsb (λ r, bool_decide (r ∈ roster g)) (rp_recipients rp))
      then Ok (mkMember (discard_replay (mb_journal m) (rp_id rp)) (mb_sender m), true)
      else
        let p := mkPost (rp_id rp) (rp_payload rp) (rp_recipients rp) kind (wake_of (rp_wake rp)) 0 true in
        Ok ((queue_application m p sk shown now now_ms cut).1, true)
  end.

(** The replay loop of [reconcile]; [shown] and [cuts] answer for each replay. *)
Fixpoint replay_loop m (l : list Replay) (sk : bytes) (shown : Replay → option bool) (now now_ms : Z) (cuts : Replay → Cut) : verdict (Member Snap) :=
  match l with
  | [] => Ok m
  | rp :: l =>
      turn ← replay_turn m rp sk (shown rp) now now_ms (cuts rp);
      if (snd turn : bool) then replay_loop (fst turn) l sk shown now now_ms cuts else Ok (fst turn)
  end.

Definition replays m (sk : bytes) (shown : Replay → option bool) (now now_ms : Z) (cuts : Replay → Cut) : verdict (Member Snap) :=
  l ← replay_needed (mb_journal m);
  replay_loop m l sk shown now now_ms cuts.

(** ** What arrived *)

(** What storing a payload comes to: done, refused, or the database failed. *)
Inductive Applied := Stored | Rejected | StorageFailed.

Definition mark_applied (rd : Received) (l : list (bytes * Received * bool)) : list (bytes * Received * bool) :=
  (λ x, if bool_decide ((rd_author x.1.2, rd_id x.1.2) = (rd_author rd, rd_id rd))
        then (x.1.1, mkReceived (rd_author x.1.2) (rd_id x.1.2) (rd_accepted_at_ms x.1.2) [], true) else x) <$> l.

(** The loop of [deliver_with], with what [apply] does to the rest of the client *)
Fixpoint deliver_loop {St : Type} (apply : St → Received → St * Applied) (st : St) (l : list (bytes * Received * bool)) (pending : list Received) :
    St * list (bytes * Received * bool) * bool :=
  match pending with
  | [] => (st, l, true)
  | rd :: pending =>
      let '(st, out) := apply st rd in
      match out with
      | StorageFailed => (st, l, false)
      | _ => deliver_loop apply st (mark_applied rd l) pending
      end
  end.

Definition staged_payloads (l : list (bytes * Received * bool)) : list Received := (λ x, x.1.2) <$> filter (λ x, x.2 = false) l.

Definition deliver_with {St : Type} (apply : St → Received → St * Applied) (st : St) j : St * Journal Snap * bool :=
  let '(st, l, ok) := deliver_loop apply st (jn_received j) (staged_payloads (jn_received j)) in
  (st, mkJournal (jn_live j) (jn_root j) (jn_rows j) (jn_replay j) (jn_ids j) (jn_jobs j) l (jn_joined j) (jn_spent j), ok).
End send.
