(* ===== verification/GroupSendProps.v ===== *)
(** * GroupSendProps: a post survives the death of the device, and stays with its audience

    Facts about GroupSend, over every interleaving of sends, flushes, replays, other
    operations on the group's journal and steps of the outbox, each cut off between any two
    transactions. *)

From S2P Require Import Prelude Verdict Bytes Crypto Keyspace Proto MlsWire Client GroupPolicy Groups GroupHistory GroupAgreement GroupJournal GroupJournalProps GroupReceive Receipts ReceiptsProps Outbox OutboxProps GroupSend.

#[local] Open Scope Z_scope.

(** ** Rows of the outbox *)

Definition keys_of (o : Outbox) : list (bytes * bytes) := ob_key <$> ox_rows o.

(** Each key once, and none of [k] given up. *)
Definition tidy (k : bytes * bytes) (o : Outbox) : Prop :=
  NoDup (keys_of o) ∧ ∀ r, r ∈ ox_rows o → ob_key r = k → ob_dead r = false.

Lemma enqueue_tidy k o id op target payload now : tidy k o → tidy k (enqueue_tx o id op target payload now).
Proof.
  intros [Hn Hd]. unfold enqueue_tx. case_bool_decide as Hk; [done|]. split.
  - unfold keys_of. cbn. rewrite fmap_app. apply NoDup_app. split; [done|]. split; [|apply NoDup_singleton].
    intros x Hx ->%list_elem_of_singleton. by apply Hk.
  - cbn. intros r [Hr|Hr]%elem_of_app Hrk; [by apply Hd|]. by apply list_elem_of_singleton in Hr as ->.
Qed.

Lemma enqueue_key o id op target payload now : (id, default [] target) ∈ keys_of (enqueue_tx o id op target payload now).
Proof.
  unfold enqueue_tx. case_bool_decide as Hk; [done|]. unfold keys_of. cbn. rewrite fmap_app. apply elem_of_app. right. by left.
Qed.

Lemma batch_tidy k copies now : ∀ o o' out, batch_tx o copies now = Ok (o', out) → tidy k o → tidy k o'.
Proof.
  induction copies as [|[[[to id] op] payload] copies IH]; intros o o' out Hb Ht; cbn [batch_tx] in Hb; [by injection Hb as <- _|].
  cbn zeta in Hb. apply bind_ok in Hb as (kept & _ & Hb). apply bind_ok in Hb as ([o1 copies1] & Hb & [= <- _]).
  eapply IH, enqueue_tidy, Ht. exact Hb.
Qed.

Lemma batch_keys copies now : ∀ o o' out,
  batch_tx o copies now = Ok (o', out) → ∀ to id op payload, (to, id, op, payload) ∈ copies → (id, to) ∈ keys_of o'.
Proof.
  induction copies as [|[[[to id] op] payload] copies IH]; intros o o' out Hb to' id' op' payload' Hin; cbn [batch_tx] in Hb.
  { by apply elem_of_nil in Hin. }
  cbn zeta in Hb. apply bind_ok in Hb as (kept & _ & Hb). apply bind_ok in Hb as ([o1 copies1] & Hb & [= <- _]).
  apply elem_of_cons in Hin as [[= -> -> -> ->]|Hin]; [|by eapply IH]. apply batch_rows in Hb as [Hk _].
  pose proof (enqueue_key o id op (Some to) payload now) as Hkey. apply list_elem_of_fmap in Hkey as (r & Heq & Hr).
  cbn in Heq. rewrite Heq. by apply list_elem_of_fmap_2, Hk.
Qed.

(** What an operation of the outbox can do to its rows: queue, take some out, or change some
    in place. *)
Inductive tweak (o : Outbox) : Outbox → Prop :=
| tweak_same : tweak o o
| tweak_enqueue id op target payload now : tweak o (enqueue_tx o id op target payload now)
| tweak_batch left copies now o' out : batch_tx (mkOutboxDb (ox_rows o) left) copies now = Ok (o', out) → tweak o o'
| tweak_retire id target : tweak o (retire_tx o id target)
| tweak_map k f : (∀ r, ob_key (f r) = ob_key r) → tweak o (map_key k f o).

#[local] Hint Constructors tweak : core.

Lemma act_tweak logical s a : tweak (outbox_of s) (outbox_of (act logical s a)).
Proof.
  unfold outbox_of. destruct a; cbn [act sd_now dl_outbox]; auto.
  - unfold enqueue_batch_in. destruct (batch_tx _ _ _) as [[o out]|] eqn:Hb; [|done]. apply (tweak_batch _ (ox_left (dl_outbox (sd_now s))) copies now _ out).
    by destruct (dl_outbox (sd_now s)).
  - unfold enqueue_commit. destruct (batch_tx _ _ _) as [[o out]|] eqn:Hb; [|done]. by eapply tweak_batch.
  - unfold dispatch_queued. repeat (case_match; cbn [fst dl_outbox]; auto).
  - by destruct (sd_pass s).
  - destruct (sd_pass s) as [|row rest]; [done|]. cbn [sd_now]. unfold settle_row. cbn zeta. destruct (_ && _); [by cbn; auto|]. destruct (row_outcome _ _). destruct (classify _ _ _ _).
    + cbn [dl_outbox]. by apply tweak_map.
    + destruct (bool_decide _); [|by cbn; auto]. destruct (record_result _ _ _ _ _ _ _); cbn; auto.
    + destruct (bool_decide _); [|by apply tweak_map]. destruct (record_result _ _ _ _ _ _ _); [by apply tweak_map|done].
Qed.

Lemma map_keys k f o : (∀ r, ob_key (f r) = ob_key r) → keys_of (map_key k f o) = keys_of o.
Proof.
  intros Hf. unfold keys_of, map_key. cbn. rewrite <- list_fmap_compose. apply list_fmap_ext. intros i r _. cbn. case_bool_decide; [apply Hf|done].
Qed.

Lemma tweak_tidy k o o' :
  tidy k o → tweak o o' → NoDup (keys_of o') ∧ (k ∉ keys_of o → ∀ r, r ∈ ox_rows o' → ob_key r = k → ob_dead r = false).
Proof.
  intros Ht Htw. pose proof Ht as [Hn Hd]. destruct Htw as [|id op target payload now|left copies now o' out Hb|id target|k' f Hf].
  - by split; [|intros _].
  - destruct (enqueue_tidy k o id op target payload now Ht) as [? Hd']. by split; [|intros _].
  - destruct (batch_tidy k copies now _ _ _ Hb) as [? Hd']; [done|]. by split; [|intros _].
  - split; [|intros _ r [_ Hr]%list_elem_of_filter; by apply Hd]. eapply sublist_NoDup; [exact Hn|]. unfold keys_of. cbn. f_equiv. apply sublist_filter.
  - split; [by rewrite map_keys|]. intros Hk r Hr Hrk. destruct Hk. rewrite <- (map_keys k' f) by done. rewrite <- Hrk. by apply list_elem_of_fmap_2.
Qed.

(** ** Jobs of the journal *)

Definition job_key (job : DispatchJob) : bytes * bytes := (dj_id job, dj_recipient job).

Section runs.
Context (logical : bytes → bytes).
Context {Snap : Type} (load : Snap → MlsGroup) (fits : Snap → bool) (sha256 : bytes → bytes).
Context `{Crypto} `{Prefixed MetaHead} `{Codec GroupState} `{Codec GroupChange} `{Codec PublicState} `{Codec ProofBody}
  `{Codec GroupMessage} `{Codec SealedEnvelope}.
Context (encrypt : Snap → bytes → option (Snap * bytes)) (payload_of : bytes → option AppPayload) (pack : DispatchP → option bytes).
Implicit Types (j : Journal Snap) (m : Member Snap) (k : bytes * bytes).

Definition jobs_of j : list (bytes * bytes) := (λ x, job_key x.2) <$> jn_jobs j.

Lemma add_jobs branch jobs : ∀ ids old k,
  k ∈ ((λ x, job_key x.2) <$> (foldl (add_job branch) (ids, old) jobs).2) ↔ k ∈ ((λ x, job_key x.2) <$> old) ∨ k ∈ (job_key <$> jobs).
Proof.
  induction jobs as [|job jobs IH]; intros ids old k; cbn [foldl fmap list_fmap].
  { cbn. rewrite elem_of_nil. tauto. }
  cbn [add_job]. rewrite IH, elem_of_cons. case_bool_decide as Hin.
  - assert (job_key job ∈ ((λ x, job_key x.2) <$> old)) as Hold.
    { apply list_elem_of_fmap in Hin as (x & Hx & Hxin). apply list_elem_of_fmap. exists x. unfold job_key. split; [congruence|done]. }
    naive_solver.
  - rewrite fmap_app, elem_of_app. cbn. rewrite list_elem_of_singleton. tauto.
Qed.

Lemma publish_jobs j tx working candidate jobs replay rcvd now j' pub k :
  publish load fits sha256 j tx working candidate jobs replay rcvd now = Ok (j', pub) →
  k ∈ jobs_of j' ↔ k ∈ jobs_of j ∨ k ∈ (job_key <$> jobs).
Proof.
  unfold publish. intros Hp. repeat (apply bind_ok in Hp as (? & _ & Hp)).
  destruct (foldl _ _ _) as [ids jobs'] eqn:Hf. injection Hp as <- _. unfold jobs_of. cbn [jn_jobs].
  rewrite <- (add_jobs (branch_of load working) jobs (jn_ids j)). by rewrite Hf.
Qed.

(** ** A copy is in the journal or in the outbox *)

Definition kept k m : Prop :=
  tidy k (outbox_of (mb_sender m)) ∧ (k ∈ jobs_of (mb_journal m) ∨ k ∈ keys_of (outbox_of (mb_sender m))).

Lemma copies_cover jobs cs : copies jobs = Some cs → ∀ k, k ∈ (job_key <$> jobs) → ∃ op frame, (k.2, k.1, op, frame) ∈ cs.
Proof.
  intros Hc k Hk. apply list_elem_of_fmap in Hk as (job & -> & Hjob). apply mapM_Some in Hc.
  apply list_elem_of_lookup in Hjob as [i Hi]. destruct (Forall2_lookup_l _ _ _ _ _ Hc Hi) as (c & Hci & Hcopy).
  unfold copy_of in Hcopy. destruct (op_from_u8 _) as [op|]; [|done]. injection Hcopy as <-. exists op, (dj_frame job).
  by eapply list_elem_of_lookup_2.
Qed.

Lemma materialized_jobs j jobs k : k ∈ jobs_of j → k ∈ (job_key <$> jobs) ∨ k ∈ jobs_of (materialized j jobs).
Proof.
  intros Hk. destruct (decide (k ∈ (job_key <$> jobs))) as [|Hn]; [by left|right]. apply list_elem_of_fmap in Hk as (x & -> & Hx).
  apply (list_elem_of_fmap_2 (λ x, job_key x.2)). cbn. apply list_elem_of_filter. split; [|done]. intros Hin. apply Hn.
  apply list_elem_of_fmap in Hin as (job & Heq & Hjob). apply list_elem_of_fmap. exists job. unfold job_key. split; [congruence|done].
Qed.

Lemma hand_over_kept m j jobs tick now_ms cut m' cs k :
  hand_over m j jobs tick now_ms cut = Ok (m', cs) → tidy k (outbox_of (mb_sender m)) →
  k ∈ jobs_of j ∨ k ∈ keys_of (outbox_of (mb_sender m)) → kept k m'.
Proof.
  intros Hh Ht Hk. assert (cut = AtJournal ∨ cut ≠ AtJournal) as [->|Hcut] by (destruct cut; auto).
  { cbn in Hh. by injection Hh as <- _. }
  assert (∃ cs0 o cs1, copies jobs = Some cs0 ∧ batch_tx (outbox_of (mb_sender m)) cs0 now_ms = Ok (o, cs1) ∧
    m' = mkMember (match cut with Whole => if tick then materialized j jobs else j | _ => j end) (set_outbox o (mb_sender m))) as (cs0 & o & cs1 & Hc & Hb & ->).
  { destruct cut; [done|..]; cbn [hand_over] in Hh; apply bind_ok in Hh as (cs0 & Hc%ok_or_ok & Hh); apply bind_ok in Hh as ([o cs1] & Hb & [= <- _]); eauto 10. }
  split; [by eapply batch_tidy|]. cbn [mb_journal mb_sender].
  assert (∀ x, x ∈ keys_of (outbox_of (mb_sender m)) → x ∈ keys_of o) as Hmore.
  { intros x Hx. apply list_elem_of_fmap in Hx as (r & -> & Hr). apply batch_rows in Hb as [Hrows _]. by apply list_elem_of_fmap_2, Hrows. }
  destruct Hk as [Hk|Hk]; [|right; by apply Hmore]. destruct cut; [done|by left|]. destruct tick; [|by left].
  destruct (materialized_jobs j jobs k Hk) as [Hin|]; [|by left]. right. destruct (copies_cover _ _ Hc k Hin) as (op & frame & Hcs).
  destruct k as [id to]. by apply (batch_keys _ _ _ _ _ Hb to id op frame).
Qed.

Lemma open_live j tx :
  open_transaction load fits j None = Ok (Some tx) → jn_live j = Some (tx_source tx) ∧ tx_parent tx = branch_of load (tx_source tx).
Proof.
  unfold open_transaction. destruct (jn_live j) as [live|]; [|done]. cbn [ensure mbind verdict_bind]. intros Ho.
  apply bind_ok in Ho as (? & _ & [= <-]). done.
Qed.

(** What sealing a post comes to, when it does not fail *)
Lemma seal_post_ok j p sk shown now j' jobs :
  seal_post load fits sha256 encrypt payload_of pack j p sk shown now = Ok (j', jobs) →
  ∃ tx working sealed pub,
    jn_live j = Some (tx_source tx) ∧ tx_parent tx = branch_of load (tx_source tx) ∧
    (∃ plain, ser (mkGroupMessage (po_id p) (po_payload p)) = Some plain ∧ seal_application_message load encrypt (tx_source tx) plain = Ok (working, sealed)) ∧
    addressed sha256 pack (on_branch (tx_parent tx) sealed) (po_id p) (reached (load (tx_source tx)) (verifying_key sk) (po_recipients p)) sk
      (po_kind p) (po_wake p) (po_ttl_ms p) = Ok jobs ∧
    publish load fits sha256 j tx working None (if po_durable p then jobs else [])
      (if replayable payload_of p
       then Some (mkReplay (po_id p) (po_payload p) (reached (load (tx_source tx)) (verifying_key sk) (po_recipients p)) (wake_code (po_wake p)) (op_u8 (po_kind p)))
       else None) None now = Ok (j', pub).
Proof.
  intros Hs. unfold seal_post in Hs. apply bind_ok in Hs as (opened & Ho & Hs). apply bind_ok in Hs as (tx & Htx%ok_or_ok & Hs). subst opened.
  apply open_live in Ho as [Hlive Hpar]. do 4 (apply bind_ok in Hs as ([] & _ & Hs)).
  apply bind_ok in Hs as (plain & Hplain%ok_or_ok & Hs). apply bind_ok in Hs as ([working sealed] & Hseal & Hs).
  apply bind_ok in Hs as (jobs' & Hjobs & Hs). apply bind_ok in Hs as ([j1 pub] & Hpub & [= <- <-]).
  exists tx, working, sealed, pub. eauto 10.
Qed.

Lemma seal_post_jobs j p sk shown now j' jobs k :
  seal_post load fits sha256 encrypt payload_of pack j p sk shown now = Ok (j', jobs) →
  k ∈ jobs_of j' ↔ k ∈ jobs_of j ∨ po_durable p = true ∧ k ∈ (job_key <$> jobs).
Proof.
  intros (tx & working & sealed & pub & _ & _ & _ & _ & Hpub)%seal_post_ok. rewrite (publish_jobs _ _ _ _ _ _ _ _ _ _ k Hpub).
  destruct (po_durable p); [tauto|]. cbn. rewrite elem_of_nil. naive_solver.
Qed.

Notation queue_locked := (queue_locked load fits sha256 encrypt payload_of pack).
Notation queue_application := (queue_application load fits sha256 encrypt payload_of pack).

Lemma queue_locked_kept m p sk shown now now_ms cut m' cs k :
  queue_locked m p sk shown now now_ms cut = Ok (m', cs) → kept k m → kept k m'.
Proof.
  intros Hq [Ht Hk]. unfold GroupSend.queue_locked in Hq. apply bind_ok in Hq as ([j jobs] & Hs & Hh).
  eapply hand_over_kept; [exact Hh|done|]. rewrite (seal_post_jobs _ _ _ _ _ _ _ _ Hs). tauto.
Qed.

Lemma queue_application_kept m p sk shown now now_ms cut k :
  kept k m → kept k (queue_application m p sk shown now now_ms cut).1.
Proof.
  intros Hk. unfold GroupSend.queue_application. destruct (jn_live (mb_journal m)) as [live|]; [|done]. destruct (bool_decide _).
  - destruct (queue_locked _ _ _ _ _ _ _) as [[m' cs]|] eqn:Hq; [|done]. by eapply queue_locked_kept.
  - destruct (seal_application_message _ _ _ _) as [[s sealed]|]; [|done]. cbn zeta.
    destruct (_ ← _; _) as [[m' cs]|] eqn:Hq; [|exact Hk]. apply bind_ok in Hq as (jobs & _ & Hh). destruct Hk as [Ht Hk].
    by eapply hand_over_kept; [exact Hh|..].
Qed.

Lemma replay_loop_kept sk shown now now_ms cuts k l : ∀ m m',
  replay_loop load fits sha256 encrypt payload_of pack m l sk shown now now_ms cuts = Ok m' → kept k m → kept k m'.
Proof.
  induction l as [|rp l IH]; intros m m' Hr Hk; [by injection Hr as <-|]. cbn [replay_loop] in Hr. apply bind_ok in Hr as (turn & Ht & Hr).
  assert (kept k (fst turn)) as Hk'.
  { unfold replay_turn in Ht. apply bind_ok in Ht as (kind & _ & Ht). destruct (jn_live (mb_journal m)); [|by injection Ht as <-]. cbn zeta in Ht.
    destruct (_ || _ || _ || _); injection Ht as <-; [exact Hk|]. by apply queue_application_kept. }
  destruct (snd turn); [by eapply IH|by injection Hr as <-].
Qed.

(** ** Runs *)

(** A send; a flush; the replays of a reconciliation; a commit or a message recorded with the
    copies that announce it; pruning and discarding; a step of the outbox. *)
Inductive GAct :=
| GQueue (p : Post) (sk : bytes) (shown : option bool) (now now_ms : Z) (cut : Cut)
| GFlush (now_ms : Z) (cut : Cut)
| GReplays (sk : bytes) (shown : Replay → option bool) (now now_ms : Z) (cuts : Replay → Cut)
| GRecord (branch : option bytes) (working : Snap) (candidate : option Candidate) (jobs : list DispatchJob) (rcvd : option Received) (now : Z)
| GPrune (now : Z)
| GDiscard (id : bytes)
| GOutbox (a : Act).

Definition gact m (a : GAct) : Member Snap :=
  let j := mb_journal m in
  let kept_of (r : verdict (Member Snap * list Copy)) := match r with Ok (m', _) => m' | Err _ => m end in
  match a with
  | GQueue p sk shown now now_ms cut => (queue_application m p sk shown now now_ms cut).1
  | GFlush now_ms cut => kept_of (flush_jobs m now_ms cut)
  | GReplays sk shown now now_ms cuts =>
      match replays load fits sha256 encrypt payload_of pack m sk shown now now_ms cuts with Ok m' => m' | Err _ => m end
  | GRecord branch working candidate jobs rcvd now =>
      match open_transaction load fits j branch with
      | Ok (Some tx) =>
          match publish load fits sha256 j tx working candidate jobs None rcvd now with Ok (j', _) => mkMember j' (mb_sender m) | Err _ => m end
      | _ => m
      end
  | GPrune now => match prune j now with Ok j' => mkMember j' (mb_sender m) | Err _ => m end
  | GDiscard id => mkMember (discard_replay j id) (mb_sender m)
  | GOutbox a => mkMember j (act logical (mb_sender m) a)
  end.

Definition gacts m (l : list GAct) : Member Snap := foldl gact m l.

Lemma prune_jobs j now j' : prune j now = Ok j' → jn_jobs j' = jn_jobs j.
Proof.
  unfold prune. intros Hp. apply bind_ok in Hp as (path & _ & Hp). destruct (last path); by injection Hp as <-.
Qed.

(** A pending copy is one the outbox will still send. *)
Definition pending (s : Sender) k : Prop := ∃ r, r ∈ ox_rows (outbox_of s) ∧ ob_key r = k ∧ ob_dead r = false.

Lemma tidy_pending k s : tidy k (outbox_of s) → k ∈ keys_of (outbox_of s) → pending s k.
Proof. intros [_ Hd] Hk. apply list_elem_of_fmap in Hk as (r & -> & Hr). exists r. auto. Qed.

Lemma outbox_step_kept m id to a :
  length to = 32%nat → kept (id, to) m →
  kept (id, to) (gact m (GOutbox a)) ∨ ∃ op, step_op (mb_sender m) a op ∧ fate logical (mb_sender m) a id to op.
Proof.
  intros Hlen [Ht Hk]. destruct (tweak_tidy _ _ _ Ht (act_tweak logical (mb_sender m) a)) as [Hn Hnew].
  destruct (decide ((id, to) ∈ keys_of (outbox_of (mb_sender m)))) as [Hin|Hout].
  - destruct (tidy_pending _ _ Ht Hin) as (r & Hr & Hrk & Hd).
    destruct (act_held logical (λ _ _ _, True) (mb_sender m) id to Hlen) with (a := a) as [[(r' & Hr' & Hrk' & Hd') _]|Hf]; [by split; eauto| |by right].
    left. split; [split; [done|]|right; rewrite <- Hrk'; by apply list_elem_of_fmap_2].
    intros r0 Hr0 Hrk0. assert (r0 = r') as ->; [|done]. cbn in Hr0.
    apply list_elem_of_lookup in Hr0 as [i0 Hi0], Hr' as [i Hi].
    assert (i0 = i) as ->; [|change (outbox_of (act logical (mb_sender m) a)) with (dl_outbox (sd_now (act logical (mb_sender m) a))) in Hi0; congruence].
    eapply (NoDup_lookup (keys_of (outbox_of (act logical (mb_sender m) a)))); [done|..]; unfold keys_of; rewrite list_lookup_fmap.
    + rewrite Hi0. cbn. by rewrite Hrk0.
    + unfold outbox_of. rewrite Hi. cbn. by rewrite Hrk'.
  - left. destruct Hk as [Hk|]; [|done]. split; [|by left]. split; [done|]. by apply Hnew.
Qed.

(** No step loses the copy but one that knows its fate. *)
Lemma gact_kept m id to a :
  length to = 32%nat → kept (id, to) m →
  kept (id, to) (gact m a) ∨ ∃ oa op, a = GOutbox oa ∧ step_op (mb_sender m) oa op ∧ fate logical (mb_sender m) oa id to op.
Proof.
  intros Hlen Hk. destruct a as [p sk shown now now_ms cut|now_ms cut|sk shown now now_ms cuts|branch working candidate jobs rcvd now|now|id'|oa]; cbn [gact].
  - left. by apply queue_application_kept.
  - left. destruct (flush_jobs m now_ms cut) as [[m' cs]|] eqn:Hf; [|done]. destruct Hk. by eapply hand_over_kept; [exact Hf|..].
  - left. destruct (replays _ _ _ _ _ _ _ _ _ _ _ _) as [m'|] eqn:Hr; [|done]. apply bind_ok in Hr as (l & _ & Hr). by eapply replay_loop_kept.
  - left. destruct (open_transaction _ _ _ _) as [[tx|]|]; [|done..]. destruct (publish _ _ _ _ _ _ _ _ _ _ _) as [[j' pub]|] eqn:Hp; [|done].
    destruct Hk as [? Hk]. split; [done|]. cbn [mb_journal mb_sender]. rewrite (publish_jobs _ _ _ _ _ _ _ _ _ _ _ Hp). tauto.
  - left. destruct (prune _ _) as [j'|] eqn:Hp; [|done]. destruct Hk as [? Hk]. split; [done|]. cbn [mb_journal mb_sender]. unfold jobs_of. by rewrite (prune_jobs _ _ _ Hp).
  - left. exact Hk.
  - destruct (outbox_step_kept m id to oa Hlen Hk) as [?|(op & ? & ?)]; [by left|right; eauto].
Qed.

Lemma gacts_kept id to l : ∀ m,
  length to = 32%nat → kept (id, to) m →
  kept (id, to) (gacts m l) ∨
  ∃ l1 oa l2 op, l = l1 ++ GOutbox oa :: l2 ∧ step_op (mb_sender (gacts m l1)) oa op ∧ fate logical (mb_sender (gacts m l1)) oa id to op.
Proof.
  induction l as [|a l IH]; intros m Hlen Hk; [by left|].
  destruct (gact_kept m id to a Hlen Hk) as [Hk'|(oa & op & -> & ? & ?)]; [|right; by exists [], oa, l, op].
  destruct (IH (gact m a) Hlen Hk') as [?|(l1 & oa & l2 & op & -> & ? & ?)]; [by left|right]. by exists (a :: l1), oa, l2, op.
Qed.

(** ** What is sealed is sent *)

Lemma jobs_for_shape sealed id lid sk kind wake ttl_ms recipients : ∀ jobs,
  jobs_for pack sealed id lid recipients sk kind wake ttl_ms = Ok jobs →
  job_key <$> jobs = (λ to, (id, to)) <$> recipients ∧
  ∀ job, job ∈ jobs → job_for pack sealed id lid (dj_recipient job) sk kind wake ttl_ms = Ok job.
Proof.
  induction recipients as [|to recipients IH]; intros jobs Hj; cbn [jobs_for] in Hj.
  { injection Hj as <-. split; [done|]. by intros job ?%elem_of_nil. }
  apply bind_ok in Hj as (job & Hjob & Hj). apply bind_ok in Hj as (jobs' & Hjobs & [= <-]). destruct (IH _ Hjobs) as [Hk Hall].
  assert (job_key job = (id, to)) as Hkey.
  { unfold job_for in Hjob. apply bind_ok in Hjob as (? & _ & Hjob). apply bind_ok in Hjob as (? & _ & [= <-]). done. }
  split; [cbn; by rewrite Hk, Hkey|]. intros job' [->|?]%elem_of_cons; [|by apply Hall]. unfold job_key in Hkey. by injection Hkey as _ ->.
Qed.

Lemma flush_empties m now_ms m' cs : flush_jobs m now_ms Whole = Ok (m', cs) → jobs_of (mb_journal m') = [].
Proof.
  unfold flush_jobs, hand_over. intros Hf. apply bind_ok in Hf as (cs0 & _ & Hf). apply bind_ok in Hf as ([o cs1] & _ & [= <- _]).
  unfold jobs_of. cbn [mb_journal materialized jn_jobs]. rewrite filter_none; [done|]. apply Forall_forall. intros x Hx. cbn. intros Hn. apply Hn.
  apply list_elem_of_fmap. exists x.2. split; [done|]. apply list_elem_of_fmap. by exists x.
Qed.

(** C19: A post to a group is not lost when the device dies.  The copies of a durable post are
    recorded with the state it was sealed on; wherever between the two databases the device
    stops, then or in any later send, replay, flush, commit or pass of the outbox, once a
    flush completes the copy for each member of the group that was named is pending in the
    outbox, unless a step before knew its fate. *)
Theorem group_copy_survives m p sk shown now now_ms cut m1 cs live to l now_ms' m2 cs' :
  queue_locked m p sk shown now now_ms cut = Ok (m1, cs) → po_durable p = true → jn_live (mb_journal m) = Some live →
  to ∈ po_recipients p → to ∈ roster (load live) → to ≠ verifying_key sk → length to = 32%nat →
  let id := dispatch_id sha256 (branch_of load live) (po_id p) in
  tidy (id, to) (outbox_of (mb_sender m)) → flush_jobs (gacts m1 l) now_ms' Whole = Ok (m2, cs') →
  pending (mb_sender m2) (id, to) ∨
  ∃ l1 oa l2 op, l = l1 ++ GOutbox oa :: l2 ∧ step_op (mb_sender (gacts m1 l1)) oa op ∧ fate logical (mb_sender (gacts m1 l1)) oa id to op.
Proof.
  intros Hq Hdur Hlive Hto Hroster Hme Hlen id Htidy Hflush. unfold GroupSend.queue_locked in Hq. apply bind_ok in Hq as ([j jobs] & Hs & Hh).
  assert ((id, to) ∈ jobs_of j) as Hjob.
  { rewrite (seal_post_jobs _ _ _ _ _ _ _ _ Hs). right. split; [done|].
    apply seal_post_ok in Hs as (tx & working & sealed & pub & Hl & Hpar & _ & Ha & _). rewrite Hl in Hlive. injection Hlive as <-.
    unfold addressed in Ha. cbn [on_branch sl_branch] in Ha. rewrite Hpar in Ha. apply jobs_for_shape in Ha as [-> _].
    apply (list_elem_of_fmap_2 (λ to, (id, to))). by apply list_elem_of_filter. }
  assert (kept (id, to) m1) as Hk by (eapply hand_over_kept; [exact Hh|done|by left]).
  destruct (gacts_kept id to l m1 Hlen Hk) as [[Ht Hin]|?]; [left|by right].
  destruct (hand_over_kept _ _ _ _ _ _ _ _ (id, to) Hflush Ht Hin) as [Ht2 Hin2].
  apply tidy_pending; [done|]. destruct Hin2 as [Hin2|]; [|done]. rewrite (flush_empties _ _ _ _ Hflush) in Hin2. by apply elem_of_nil in Hin2.
Qed.

(** ** Who gets it *)

(** Whatever the journal holds of the message [id], to be sent or to be sent again, is for
    [R] only. *)
Definition audience (id : bytes) (R : list bytes) j : Prop :=
  (∀ x, x ∈ jn_jobs j → dj_logical_id x.2 = id → dj_recipient x.2 ∈ R) ∧
  (∀ x, x ∈ jn_replay j → rp_id x.1.1 = id → ∀ r, r ∈ rp_recipients x.1.1 → r ∈ R).

(** What the user and the group's commits send under [id] is for [R]. *)
Definition meant_for (id : bytes) (R : list bytes) (a : GAct) : Prop :=
  match a with
  | GQueue p _ _ _ _ _ => po_id p = id → ∀ r, r ∈ po_recipients p → r ∈ R
  | GRecord _ _ _ jobs _ _ => ∀ job, job ∈ jobs → dj_logical_id job = id → dj_recipient job ∈ R
  | _ => True
  end.

Lemma add_jobs_from branch jobs : ∀ ids old x,
  x ∈ (foldl (add_job branch) (ids, old) jobs).2 → x ∈ old ∨ x.2 ∈ jobs.
Proof.
  induction jobs as [|job jobs IH]; intros ids old x Hx; [by left|]. cbn [foldl add_job] in Hx. apply IH in Hx as [Hx|?]; [|right; by right].
  revert Hx. case_bool_decide; [by left|]. intros [?|Hx]%elem_of_app; [by left|]. apply list_elem_of_singleton in Hx as ->. right. by left.
Qed.

Lemma publish_audience id R j tx working candidate jobs replay rcvd now j' pub :
  publish load fits sha256 j tx working candidate jobs replay rcvd now = Ok (j', pub) → audience id R j →
  (∀ job, job ∈ jobs → dj_logical_id job = id → dj_recipient job ∈ R) →
  (∀ rp, replay = Some rp → rp_id rp = id → ∀ r, r ∈ rp_recipients rp → r ∈ R) → audience id R j'.
Proof.
  unfold publish. intros Hp [Hj Hr] Hjobs Hreplay. repeat (apply bind_ok in Hp as (? & _ & Hp)).
  destruct (foldl _ _ _) as [ids jobs'] eqn:Hf. injection Hp as <- _. split; cbn [jn_jobs jn_replay].
  - intros z Hx. pose proof (add_jobs_from (branch_of load working) jobs (jn_ids j) (jn_jobs j) z) as Hfrom. rewrite Hf in Hfrom.
    destruct (Hfrom Hx); auto.
  - destruct replay as [rp|]; [|done]. unfold upsert_replay. case_bool_decide.
    + intros z Hx. apply list_elem_of_fmap in Hx as (y & -> & Hy). case_bool_decide; cbn; by apply Hr.
    + intros z [Hx|Hx]%elem_of_app; [by apply Hr|]. apply list_elem_of_singleton in Hx as ->. cbn. by apply Hreplay.
Qed.

Lemma seal_post_audience id R j p sk shown now j' jobs :
  seal_post load fits sha256 encrypt payload_of pack j p sk shown now = Ok (j', jobs) → audience id R j →
  (po_id p = id → ∀ r, r ∈ po_recipients p → r ∈ R) → audience id R j'.
Proof.
  intros (tx & working & sealed & pub & _ & _ & _ & Ha & Hpub)%seal_post_ok Hau Hp. unfold addressed in Ha. cbn [on_branch sl_branch] in Ha.
  apply jobs_for_shape in Ha as [Hk Hall].
  assert (∀ job, job ∈ jobs → dj_logical_id job = id → dj_recipient job ∈ R) as Hjobs.
  { intros job Hjob Hlid. pose proof (Hall job Hjob) as Hmade. unfold job_for in Hmade. apply bind_ok in Hmade as (? & _ & Hmade).
    apply bind_ok in Hmade as (? & _ & [= Hmade]). rewrite <- Hmade in Hlid. cbn in Hlid. apply Hp; [done|].
    apply (list_elem_of_fmap_2 job_key) in Hjob. rewrite Hk in Hjob. apply list_elem_of_fmap in Hjob as (to & Heq & Hto).
    unfold job_key in Heq. injection Heq as _ ->. by apply list_elem_of_filter in Hto as [_ ?]. }
  eapply publish_audience; [exact Hpub|done|..].
  - destruct (po_durable p); [done|]. by intros job ?%elem_of_nil.
  - destruct (replayable payload_of p); [|done]. intros rp [= <-]. cbn. intros Hid r [_ Hr]%list_elem_of_filter. by apply Hp.
Qed.

Lemma hand_over_audience id R m j jobs tick now_ms cut m' cs :
  hand_over m j jobs tick now_ms cut = Ok (m', cs) → audience id R j → audience id R (mb_journal m').
Proof.
  intros Hh Hau. assert (audience id R (materialized j jobs)) as Hmat.
  { destruct Hau as [Hj Hr]. split; [|done]. intros x [_ Hx]%list_elem_of_filter. by apply Hj. }
  destruct cut; cbn [hand_over] in Hh; [by injection Hh as <- _|..].
  all: apply bind_ok in Hh as (cs0 & _ & Hh); apply bind_ok in Hh as ([o cs1] & _ & [= <- _]); by destruct tick.
Qed.

Lemma queue_application_audience id R m p sk shown now now_ms cut :
  audience id R (mb_journal m) → (po_id p = id → ∀ r, r ∈ po_recipients p → r ∈ R) →
  audience id R (mb_journal (queue_application m p sk shown now now_ms cut).1).
Proof.
  intros Hau Hp. unfold GroupSend.queue_application. destruct (jn_live (mb_journal m)) as [live|]; [|done]. destruct (bool_decide _).
  - destruct (queue_locked _ _ _ _ _ _ _) as [[m' cs]|] eqn:Hq; [|done]. apply bind_ok in Hq as ([j jobs] & Hs & Hh).
    eapply hand_over_audience; [exact Hh|]. by eapply seal_post_audience.
  - destruct (seal_application_message _ _ _ _) as [[s sealed]|]; [|done]. cbn zeta.
    destruct (_ ← _; _) as [[m' cs]|] eqn:Hq; [|exact Hau]. apply bind_ok in Hq as (jobs & _ & Hh). by eapply hand_over_audience.
Qed.

Lemma replay_loop_audience id R sk shown now now_ms cuts l : ∀ m m',
  replay_loop load fits sha256 encrypt payload_of pack m l sk shown now now_ms cuts = Ok m' →
  (∀ rp, rp ∈ l → rp_id rp = id → ∀ r, r ∈ rp_recipients rp → r ∈ R) → audience id R (mb_journal m) → audience id R (mb_journal m').
Proof.
  induction l as [|rp l IH]; intros m m' Hr Hl Hau; [by injection Hr as <-|]. cbn [replay_loop] in Hr. apply bind_ok in Hr as (turn & Ht & Hr).
  assert (audience id R (mb_journal (fst turn))) as Hau'.
  { unfold replay_turn in Ht. apply bind_ok in Ht as (kind & _ & Ht). destruct (jn_live (mb_journal m)); [|by injection Ht as <-]. cbn zeta in Ht.
    destruct (_ || _ || _ || _); injection Ht as <-.
    - destruct Hau as [Hj Hrp]. split; [done|]. intros x [_ Hx]%list_elem_of_filter. by apply Hrp.
    - apply queue_application_audience; [done|]. cbn. apply Hl. by left. }
  destruct (snd turn); [|by injection Hr as <-]. eapply IH; [exact Hr| |done]. intros rp' ?. apply Hl. by right.
Qed.

Lemma prune_audience id R j now j' : prune j now = Ok j' → audience id R j → audience id R j'.
Proof.
  unfold prune. intros Hp [Hj Hr]. apply bind_ok in Hp as (path & _ & Hp). destruct (last path); injection Hp as <-; [|done].
  split; [done|]. cbn. intros x [_ Hx]%list_elem_of_filter. by apply Hr.
Qed.

Lemma gact_audience id R m a : meant_for id R a → audience id R (mb_journal m) → audience id R (mb_journal (gact m a)).
Proof.
  intros Ha Hau. destruct a as [p sk shown now now_ms cut|now_ms cut|sk shown now now_ms cuts|branch working candidate jobs rcvd now|now|id'|oa]; cbn [gact meant_for] in *.
  - by apply queue_application_audience.
  - destruct (flush_jobs m now_ms cut) as [[m' cs]|] eqn:Hf; [|done]. by eapply hand_over_audience.
  - destruct (replays _ _ _ _ _ _ _ _ _ _ _ _) as [m'|] eqn:Hr; [|done]. apply bind_ok in Hr as (l & Hl & Hr). eapply replay_loop_audience; [exact Hr| |done].
    unfold replay_needed in Hl. apply bind_ok in Hl as (path & _ & [= <-]). intros rp Hrp. apply list_elem_of_fmap in Hrp as (x & -> & Hx).
    apply list_elem_of_filter in Hx as [_ Hx]. by apply Hau.
  - destruct (open_transaction _ _ _ _) as [[tx|]|]; [|done..]. destruct (publish _ _ _ _ _ _ _ _ _ _ _) as [[j' pub]|] eqn:Hp; [|done].
    by eapply publish_audience.
  - destruct (prune _ _) as [j'|] eqn:Hp; [|done]. by eapply prune_audience.
  - destruct Hau as [Hj Hr]. split; [done|]. intros x [_ Hx]%list_elem_of_filter. by apply Hr.
  - done.
Qed.

(** C20: A post stays with those it was sent to.  Through sends, flushes, replays on whatever
    branch wins, commits, pruning and the outbox, every copy of a message the device records,
    and every copy it would replay, is for a member that was named when it was sent: members
    that joined since never get it. *)
Theorem replay_stays_with_audience id R m l :
  audience id R (mb_journal m) → Forall (meant_for id R) l → audience id R (mb_journal (gacts m l)).
Proof.
  intros Hau Hl. revert m Hau. induction Hl as [|a l Ha Hl IH]; intros m Hau; [done|]. cbn. by apply IH, gact_audience.
Qed.

(** ** What arrived is applied *)

Definition received_key (x : bytes * Received * bool) : bytes * bytes := (rd_author x.1.2, rd_id x.1.2).

Lemma mark_applied_others rd l : (rd_author rd, rd_id rd) ∉ (received_key <$> l) → mark_applied rd l = l.
Proof.
  intros Hn. unfold mark_applied. rewrite <- (list_fmap_id l) at 2. apply list_fmap_ext. intros i x Hi. rewrite bool_decide_false; [done|].
  intros He. apply Hn. rewrite <- He. apply (list_elem_of_fmap_2 received_key). by eapply list_elem_of_lookup_2.
Qed.

Lemma mark_applied_keys rd l : received_key <$> mark_applied rd l = received_key <$> l.
Proof. unfold mark_applied. rewrite <- list_fmap_compose. apply list_fmap_ext. intros i x _. cbn. by case_bool_decide. Qed.

Lemma mark_applied_staged rd rest : ∀ l,
  NoDup (received_key <$> l) → staged_payloads l = rd :: rest → staged_payloads (mark_applied rd l) = rest.
Proof.
  induction l as [|x l IH]; intros Hn Hs; [done|]. apply NoDup_cons in Hn as [Hx Hn]. unfold staged_payloads in *. destruct (x.2) eqn:Hx2.
  - rewrite filter_cons_False in Hs by congruence. specialize (IH Hn Hs). cbn [mark_applied fmap list_fmap]. rewrite bool_decide_false.
    + rewrite filter_cons_False by congruence. exact IH.
    + intros He. apply Hx. change (received_key x = (rd_author rd, rd_id rd)) in He. rewrite He.
      assert (rd ∈ (λ x, x.1.2) <$> filter (λ x, x.2 = false) l) as Hin by (rewrite Hs; by left).
      apply list_elem_of_fmap in Hin as (y & -> & Hy). apply list_elem_of_filter in Hy as [_ Hy]. by apply (list_elem_of_fmap_2 received_key).
  - rewrite filter_cons_True in Hs by done. cbn in Hs. injection Hs as <- <-. cbn [mark_applied fmap list_fmap]. rewrite bool_decide_true by done.
    rewrite filter_cons_False by done. f_equal. change (filter (λ x : bytes * Received * bool, x.2 = false) (mark_applied x.1.2 l) = filter (λ x, x.2 = false) l).
    by rewrite (mark_applied_others x.1.2 l).
Qed.

Lemma deliver_loop_spec {St : Type} (store : St → Received → St * Applied) pending : ∀ l st st' l' ok,
  NoDup (received_key <$> l) → staged_payloads l = pending → deliver_loop store st l pending = (st', l', ok) →
  ∃ through rest, pending = through ++ rest ∧ staged_payloads l' = rest ∧ received_key <$> l' = received_key <$> l ∧
    let st1 := foldl (λ st rd, (store st rd).1) st through in
    if ok then rest = [] ∧ st' = st1 else ∃ rd rest', rest = rd :: rest' ∧ store st1 rd = (st', StorageFailed).
Proof.
  induction pending as [|rd pending IH]; intros l st st' l' ok Hn Hs Hd; cbn [deliver_loop] in Hd.
  { injection Hd as <- <- <-. by exists [], []. }
  destruct (store st rd) as [st1 out] eqn:Hst. assert (out = StorageFailed ∨ out ≠ StorageFailed) as [->|Hout] by (destruct out; auto).
  { injection Hd as <- <- <-. exists [], (rd :: pending). cbn. eauto 10. }
  assert (deliver_loop store st1 (mark_applied rd l) pending = (st', l', ok)) as Hd' by (by destruct out).
  destruct (IH _ _ _ _ _ ltac:(by rewrite mark_applied_keys) (mark_applied_staged _ _ _ Hn Hs) Hd') as (through & rest & -> & Hs' & Hk & Hend).
  exists (rd :: through), rest. split; [done|]. split; [done|]. split; [by rewrite Hk, mark_applied_keys|]. cbn. by rewrite Hst.
Qed.

(** What arrived for a group is stored in the order it came: delivering applies a prefix of
    the staged payloads, a refused one included, and when the database fails keeps that
    payload and everything behind it for the next time. *)
Theorem delivered_in_order {St : Type} (store : St → Received → St * Applied) st j st' j' ok :
  NoDup (received_key <$> jn_received j) → deliver_with store st j = (st', j', ok) →
  ∃ through rest, staged_payloads (jn_received j) = through ++ rest ∧ staged_payloads (jn_received j') = rest ∧
    NoDup (received_key <$> jn_received j') ∧
    let st1 := foldl (λ st rd, (store st rd).1) st through in
    if ok then rest = [] ∧ st' = st1 else ∃ rd rest', rest = rd :: rest' ∧ store st1 rd = (st', StorageFailed).
Proof.
  intros Hn. unfold deliver_with. destruct (deliver_loop _ _ _ _) as [[st1 l] ok1] eqn:Hd. intros [= <- <- <-].
  destruct (deliver_loop_spec _ _ _ _ _ _ _ Hn eq_refl Hd) as (through & rest & ? & ? & Hk & ?). exists through, rest. cbn. by rewrite Hk.
Qed.
End runs.
