(* ===== verification/GroupSendExamples.v ===== *)
(** * GroupSendExamples: a post whose sender dies

    Alice posts to the group of GroupExamples and her device dies before the outbox has the
    copy; the theorems of GroupSendProps at that run. *)

From S2P Require Import Prelude Verdict Bytes Crypto Keyspace Proto MlsWire Client GroupPolicy Groups GroupHistory GroupAgreement GroupJournal GroupJournalProps GroupReceive GroupExamples Receipts ReceiptsProps Outbox OutboxProps GroupSend GroupSendProps.

#[local] Open Scope Z_scope.

Module Posted.
Import Tables Friends.

Definition load (g : MlsGroup) : MlsGroup := g.
Definition fits (g : MlsGroup) : bool := true.
Definition encrypt (g : MlsGroup) (plain : bytes) : option (MlsGroup * bytes) := Some (g, plain).
Definition payload_of (b : bytes) : option AppPayload := Some PlText.
Definition pack (d : DispatchP) : option bytes := Some (d_payload d).

#[export] Instance GroupMessage_eq_dec : EqDecision GroupMessage.
Proof. solve_decision. Defined.

#[export] Instance GroupFrame_eq_dec : EqDecision GroupFrame.
Proof. solve_decision. Defined.

#[export] Instance SealedEnvelope_eq_dec : EqDecision SealedEnvelope.
Proof. solve_decision. Defined.

Definition hello : Post := mkPost [7] [8] [bob] OpMessage WakeMessage 0 true.

#[export] Instance texts : Codec GroupMessage := table [mkGroupMessage [7] [8]].

(** What Alice seals is the index of her message; the envelope that carries it to Bob *)
Definition envelope : SealedEnvelope :=
  EnGroupApplication (branch 0)
    (mkFrame MLS_ENVELOPE_VERSION gid 1 [0] (sign alice (group_envelope_signing_input PROTOCOL_VERSION bob gid 1 (branch 0) [0]))) None.

#[export] Instance envelopes : Codec SealedEnvelope := table [envelope].

Definition journal : Journal MlsGroup := mkJournal (Some g0) None [] [] [] [] [] None [].
Definition idle : Sender := mkSender (mkDeliveries (mkOutboxDb [] ∅) (start [])) [].
Definition device : Member MlsGroup := mkMember journal idle.

Notation step := (gact (λ d, d) load fits sha256 encrypt payload_of pack).
Notation steps := (gacts (λ d, d) load fits sha256 encrypt payload_of pack).

(** The journal has the post, the outbox has not. *)
Definition died : Member MlsGroup :=
  match queue_locked load fits sha256 encrypt payload_of pack device hello alice (Some true) 5 5000 AtJournal with
  | Ok (m, _) => m
  | Err _ => device
  end.

(** A flush that dies too, and a pass over the outbox it filled that nobody answers *)
Definition afterwards : list (GAct (Snap := MlsGroup)) := [GFlush 6000 AtOutbox; GOutbox (ABegin 6000); GOutbox (ATurn NoAnswer 6000 true)].

Definition flushed : Member MlsGroup := match flush_jobs (steps died afterwards) 7000 Whole with Ok (m, _) => m | Err _ => died end.

Definition wire_id : bytes := dispatch_id sha256 (branch 0) [7].

Lemma group_copy_survives_witness :
  length (jn_jobs (mb_journal died)) = 1%nat ∧ ox_rows (outbox_of (mb_sender died)) = [] ∧
  (pending (mb_sender flushed) (wire_id, bob) ∨
   ∃ l1 oa l2 op, afterwards = l1 ++ GOutbox oa :: l2 ∧ step_op (mb_sender (steps died l1)) oa op ∧
     fate (λ d, d) (mb_sender (steps died l1)) oa wire_id bob op).
Proof.
  split; [vm_compute; reflexivity|]. split; [vm_compute; reflexivity|].
  apply (group_copy_survives (λ d, d) load fits sha256 encrypt payload_of pack device hello alice (Some true) 5 5000 AtJournal died [] g0 bob afterwards
           7000 flushed [(bob, wire_id, OpMessage, [0])]).
  - vm_compute. reflexivity.
  - reflexivity.
  - reflexivity.
  - by left.
  - apply (bool_decide_unpack _). vm_compute. exact I.
  - vm_compute. discriminate.
  - reflexivity.
  - split; [constructor|]. cbn. by intros r ?%elem_of_nil.
  - vm_compute. reflexivity.
Defined.

(** What Alice posted to Bob stays with Bob through a replay. *)
Lemma replay_stays_with_audience_witness :
  length (jn_replay (mb_journal died)) = 1%nat ∧
  audience [7] [bob] (mb_journal (steps device [GQueue hello alice (Some true) 5 5000 AtJournal; GReplays alice (λ _, Some true) 8 8000 (λ _, Whole)])).
Proof.
  split; [vm_compute; reflexivity|].
  apply (replay_stays_with_audience (λ d, d) load fits sha256 encrypt payload_of pack [7] [bob] device).
  - split; cbn; by intros x ?%elem_of_nil.
  - constructor; [by intros _ r Hr|]. constructor; [exact I|constructor].
Defined.
End Posted.
