(* ===== verification/Call.v ===== *)
(** * Call: the call a device is in

    libcore/src/call/mod.rs: one call per device, moved by [step].  Of the media session
    (libcore/src/call/rtc.rs, over str0m) a call holds only its command channel, so a [Turn]
    lists the commands sent on it; of the audio path only the mute is kept, of the
    certificate nothing.  Times are milliseconds: [clock] is the monotonic clock
    ([Instant::now]), [now_ms] in an input the wall clock. *)

From S2P Require Import Prelude Verdict Bytes.

#[local] Open Scope Z_scope.

Definition OFFER_LIFE : Z := 40000.
Definition CLOCK_SKEW_MS : Z := 5000.
Definition RING_TIMEOUT : Z := 45000.
Definition CONNECT_TIMEOUT : Z := 20000.
Definition RECONNECT_TIMEOUT : Z := 20000.

Inductive Phase := Offering | Ringing | Connecting | Connected | Reconnecting.

#[global] Instance Phase_eq_dec : EqDecision Phase.
Proof. solve_decision. Defined.

(** Socket addresses are opaque. *)
Inductive CallCandidate :=
| Host (addr : bytes)
| ServerReflexive (addr base : bytes)
| Relayed (addr : bytes).

Inductive CallEnd := EndHangup | EndDeclined | EndBusy | EndUnanswered | EndFailed.

Inductive CallEndReason := RsHangup | RsCancelled | RsDeclined | RsBusy | RsUnanswered | RsMissed | RsFailed.

Record Remote := mkRemote {
  rm_ufrag : bytes;
  rm_pwd : bytes;
  rm_fingerprint : bytes;
  rm_ssrc : Z;
  rm_video_ssrc : Z;
  rm_candidates : list CallCandidate;
}.

(** [rtc::Params] *)
Record Params := mkParams {
  pm_ufrag : bytes;
  pm_pwd : bytes;
  pm_fingerprint : bytes;
  pm_ssrc : Z;
  pm_video_ssrc : Z;
}.

Inductive CallMsg :=
| MsgOffer (call : bytes) (expires_at_ms : Z) (video : bool) (remote : Remote)
| MsgRinging (call : bytes)
| MsgAnswer (call : bytes) (remote : Remote)
| MsgCandidate (call : bytes) (candidate : CallCandidate)
| MsgMedia (call : bytes) (muted : bool)
| MsgCamera (call : bytes) (on : bool)
| MsgRestart (call : bytes) (generation : Z) (ufrag pwd : bytes) (candidates : list CallCandidate)
| MsgEnd (call : bytes) (reason : CallEnd).

(** [rtc::Cmd], but for the media itself *)
Inductive Cmd :=
| CmdRemote (remote : Remote)
| CmdCandidate (candidate : CallCandidate)
| CmdRestart
| CmdStop.

(** [rtc::Event] *)
Inductive Event :=
| EvLocal (params : Params) (candidates : list CallCandidate)
| EvConnected
| EvDisconnected
| EvVideo (frame : bytes) (keyframe : bool)
| EvKeyframeNeeded
| EvBitrate (kbps : Z)
| EvExpiring
| EvFailed.

Inductive Role := Caller | Callee.

Record Call := mkCall {
  cl_id : bytes;
  cl_peer : bytes;
  cl_conversation : bytes;
  cl_outgoing : bool;
  cl_video : bool;
  cl_phase : Phase;
  cl_connected_at : option Z;
  cl_peer_muted : bool;
  cl_muted : bool;
  cl_session : bool;
  cl_remote : option Remote;
  cl_early : list CallCandidate;
  cl_restart_gen : Z;
}.

Definition set_phase (p : Phase) (c : Call) : Call :=
  mkCall (cl_id c) (cl_peer c) (cl_conversation c) (cl_outgoing c) (cl_video c) p (cl_connected_at c) (cl_peer_muted c) (cl_muted c)
    (cl_session c) (cl_remote c) (cl_early c) (cl_restart_gen c).
Definition set_connected_at (t : option Z) (c : Call) : Call :=
  mkCall (cl_id c) (cl_peer c) (cl_conversation c) (cl_outgoing c) (cl_video c) (cl_phase c) t (cl_peer_muted c) (cl_muted c)
    (cl_session c) (cl_remote c) (cl_early c) (cl_restart_gen c).
Definition set_peer_muted (b : bool) (c : Call) : Call :=
  mkCall (cl_id c) (cl_peer c) (cl_conversation c) (cl_outgoing c) (cl_video c) (cl_phase c) (cl_connected_at c) b (cl_muted c)
    (cl_session c) (cl_remote c) (cl_early c) (cl_restart_gen c).
Definition set_muted (b : bool) (c : Call) : Call :=
  mkCall (cl_id c) (cl_peer c) (cl_conversation c) (cl_outgoing c) (cl_video c) (cl_phase c) (cl_connected_at c) (cl_peer_muted c) b
    (cl_session c) (cl_remote c) (cl_early c) (cl_restart_gen c).
(** The session's channel, the peer's parameters, candidates still to hand over, and the
    restart round *)
Definition set_media (session : bool) (remote : option Remote) (early : list CallCandidate) (gen : Z) (c : Call) : Call :=
  mkCall (cl_id c) (cl_peer c) (cl_conversation c) (cl_outgoing c) (cl_video c) (cl_phase c) (cl_connected_at c) (cl_peer_muted c) (cl_muted c)
    session remote early gen.

(** [format!] of [finish] *)
Inductive Outcome := OcAnswered (secs : Z) | OcCancelled | OcDeclined | OcBusy | OcUnanswered | OcMissed | OcFailed.

Inductive CallEvent :=
| Outgoing (call peer conversation : bytes)
| Incoming (call peer conversation : bytes) (video : bool)
| PeerRinging (call : bytes)
| Switched (from to : bytes) (video : bool)
| NowConnecting (call : bytes)
| NowConnected (call : bytes)
| NowReconnecting (call : bytes)
| PeerMuted (call : bytes) (muted : bool)
| PeerCamera (call : bytes) (on : bool)
| Ended (call peer conversation : bytes) (reason : CallEndReason) (duration_ms : Z).

(** What a timer does if the call is still where it left it. *)
Inductive Expiry := Unanswered | Failed | Missed.

Inductive Effect :=
| Signal (conversation : bytes) (msg : CallMsg)
| Emit (event : CallEvent)
| Arm (delay : Z) (call : bytes) (phase : Phase) (expiry : Expiry)
| StartSession (call : bytes) (role : Role) (video : bool)
| RecordCall (conversation peer call : bytes) (outcome : Outcome) (outgoing : bool)
| Video (frame : bytes) (keyframe : bool)
| Keyframe
| Bitrate (kbps : Z).

(** An offer and what deciding on it needs from outside the call; [of_media] is whether the
    media for a call that will ring could be built. *)
Record Offer := mkOffer {
  of_from : bytes;
  of_conversation : bytes;
  of_call : bytes;
  of_expires_at_ms : Z;
  of_video : bool;
  of_remote : Remote;
  of_paired : bool;
  of_me : bytes;
  of_now_ms : Z;
  of_media : bool;
}.

Inductive Input :=
| Start (call : Call)
| Accept (id : bytes)
| Reject (id : bytes)
| Hangup (id : bytes)
| Muted (muted : bool)
| Camera (on : bool)
| NetworkChanged
| InOffer (offer : Offer)
| InSignal (msg : CallMsg)
| Expired (id : bytes) (phase : Phase) (expiry : Expiry)
| Session (id : bytes) (event : Event) (now_ms : Z)
| OfferLost (id : bytes).

(** What one transition does: the call it leaves, the commands sent to the session of the
    call it found, and the effects to run once the state is unlocked. *)
Record Turn := mkTurn {
  tn_call : option Call;
  tn_sent : list Cmd;
  tn_fx : list Effect;
}.

Definition stay (st : option Call) : Turn := mkTurn st [] [].

(** ** Parts of [step] *)

Definition named (id : bytes) (st : option Call) : option Call := c ← st; if bool_decide (cl_id c = id) then Some c else None.

(** A command reaches the session if there is one. *)
Definition send (c : Call) (cmds : list Cmd) : list Cmd := if cl_session c then cmds else [].

Definition outcome_of (reason : CallEndReason) (answered : bool) (duration_ms : Z) : Outcome :=
  match reason with
  | RsHangup => if answered then OcAnswered (duration_ms / 1000) else OcCancelled
  | RsFailed => if answered then OcAnswered (duration_ms / 1000) else OcFailed
  | RsCancelled => OcCancelled
  | RsDeclined => OcDeclined
  | RsBusy => OcBusy
  | RsUnanswered => OcUnanswered
  | RsMissed => OcMissed
  end.

(** [finish], after the effects [fx], with [c] the call that ends *)
Definition finish (c : Call) (reason : CallEndReason) (fx : list Effect) (clock : Z) : Turn :=
  let duration_ms := match cl_connected_at c with Some t => sat_sub clock t | None => 0 end in
  let outcome := outcome_of reason (bool_decide (is_Some (cl_connected_at c))) duration_ms in
  mkTurn None (send c [CmdStop])
    (fx ++ [RecordCall (cl_conversation c) (cl_peer c) (cl_id c) outcome (cl_outgoing c);
            Emit (Ended (cl_id c) (cl_peer c) (cl_conversation c) reason duration_ms)]).

Definition offer_remote (c : Call) (remote : Remote) : Call * list Cmd :=
  if cl_session c
  then (set_media true (Some remote) [] (cl_restart_gen c) c, CmdRemote remote :: (CmdCandidate <$> cl_early c))
  else (set_media false (Some remote) (cl_early c ++ rm_candidates remote) (cl_restart_gen c) c, []).

Definition clear_candidates (r : Remote) : Remote :=
  mkRemote (rm_ufrag r) (rm_pwd r) (rm_fingerprint r) (rm_ssrc r) (rm_video_ssrc r) [].

Definition begin_restart (c : Call) (theirs : option Remote) : Turn :=
  let '(c, fx) :=
    if bool_decide (cl_phase c = Connected)
    then (set_phase Reconnecting c, [Emit (NowReconnecting (cl_id c)); Arm RECONNECT_TIMEOUT (cl_id c) Reconnecting Failed])
    else (c, []) in
  let c := set_media (cl_session c) (cl_remote c) [] (cl_restart_gen c) c in
  match theirs with
  | Some theirs => let '(c', sent) := offer_remote c theirs in mkTurn (Some c') (send c [CmdRestart] ++ sent) fx
  | None =>
      mkTurn (Some (set_media (cl_session c) (clear_candidates <$> cl_remote c) (cl_early c) ((cl_restart_gen c + 1) `mod` 2 ^ 32) c))
        (send c [CmdRestart]) fx
  end.

Definition in_media (p : Phase) : bool := match p with Connected | Reconnecting => true | _ => false end.

(** [End] from the peer, by where our call stands *)
Definition ended_by_peer (reason : CallEnd) (p : Phase) : CallEndReason :=
  match reason, p with
  | EndBusy, _ => RsBusy
  | EndDeclined, _ => RsDeclined
  | EndFailed, _ => RsFailed
  | EndHangup, Ringing | EndUnanswered, Ringing => RsMissed
  | EndUnanswered, _ => RsUnanswered
  | EndHangup, Offering | EndHangup, Connecting => RsCancelled
  | EndHangup, _ => RsHangup
  end.

(** The peer's half of a restart: what it does not name is kept from the first exchange. *)
Definition restart_remote (c : Call) (ufrag pwd : bytes) (candidates : list CallCandidate) : Remote :=
  mkRemote ufrag pwd (from_option rm_fingerprint (replicate 32 0) (cl_remote c)) (from_option rm_ssrc 0 (cl_remote c))
    (from_option rm_video_ssrc 0 (cl_remote c)) candidates.

(** [on_signal_step] *)
Definition on_signal_step (st : option Call) (msg : CallMsg) (clock : Z) : Turn :=
  match msg with
  | MsgOffer _ _ _ _ => stay st
  | MsgRinging call =>
      match named call st with
      | Some c => mkTurn st [] (if bool_decide (cl_phase c = Offering) then [Emit (PeerRinging call)] else [])
      | None => stay st
      end
  | MsgAnswer call remote =>
      let arm := [Arm CONNECT_TIMEOUT call Connecting Failed] in
      match named call st with
      | Some c =>
          if bool_decide (cl_phase c = Offering) then
            let '(c, sent) := offer_remote (set_phase Connecting c) remote in
            mkTurn (Some c) sent (Emit (NowConnecting call) :: arm)
          else mkTurn st [] arm
      | None => mkTurn st [] arm
      end
  | MsgCandidate call candidate =>
      match named call st with
      | Some c =>
          if cl_session c then mkTurn st [CmdCandidate candidate] []
          else stay (Some (set_media false (cl_remote c) (cl_early c ++ [candidate]) (cl_restart_gen c) c))
      | None => stay st
      end
  | MsgMedia call muted =>
      match named call st with
      | Some c => mkTurn (Some (set_peer_muted muted c)) [] [Emit (PeerMuted call muted)]
      | None => stay st
      end
  | MsgCamera call on => mkTurn st [] (match named call st with Some _ => [Emit (PeerCamera call on)] | None => [] end)
  | MsgRestart call generation ufrag pwd candidates =>
      match named call st with
      | Some c =>
          if in_media (cl_phase c) then
            let remote := restart_remote c ufrag pwd candidates in
            if cl_restart_gen c <? generation
            then begin_restart (set_media (cl_session c) (cl_remote c) (cl_early c) generation c) (Some remote)
            else let '(c, sent) := offer_remote c remote in mkTurn (Some c) sent []
          else stay st
      | None => stay st
      end
  | MsgEnd call reason =>
      match named call st with
      | Some c => finish c (ended_by_peer reason (cl_phase c)) [] clock
      | None => stay st
      end
  end.

(** A call the peer offered: it rings, or takes the place of ours. *)
Definition incoming (o : Offer) (phase : Phase) (muted : bool) : Call :=
  mkCall (of_call o) (of_from o) (of_conversation o) false (of_video o) phase None false muted false (Some (of_remote o)) [] 0.

Definition offer_expired (o : Offer) : bool := sat_add (of_expires_at_ms o) CLOCK_SKEW_MS <? of_now_ms o.

(** [on_offer] *)
Definition on_offer (st : option Call) (o : Offer) : Turn :=
  let call := of_call o in
  if negb (of_paired o) then stay st
  else if offer_expired o then
    mkTurn st []
      [RecordCall (of_conversation o) (of_from o) call OcMissed false;
       Emit (Ended call (of_from o) (of_conversation o) RsMissed 0)]
  else
    match st with
    | Some c =>
        if bool_decide (cl_id c = call) then stay st
        else if bool_decide (cl_phase c = Offering) && bool_decide (cl_peer c = of_from o) then
          if bool_decide (bytes_lt (of_from o) (of_me o)) then
            mkTurn (Some (incoming o Connecting (cl_muted c))) (send c [CmdStop])
              [Emit (Switched (cl_id c) call (of_video o)); Emit (NowConnecting call);
               StartSession call Callee (of_video o); Arm CONNECT_TIMEOUT call Connecting Failed]
          else stay st
        else mkTurn st [] [Signal (of_conversation o) (MsgEnd call EndBusy)]
    | None =>
        if of_media o then
          mkTurn (Some (incoming o Ringing false)) []
            [Signal (of_conversation o) (MsgRinging call);
             Emit (Incoming call (of_from o) (of_conversation o) (of_video o));
             Arm (Z.min (sat_sub (of_expires_at_ms o) (of_now_ms o)) RING_TIMEOUT) call Ringing Missed]
        else stay st
    end.

Definition remote_of (p : Params) (candidates : list CallCandidate) : Remote :=
  mkRemote (pm_ufrag p) (pm_pwd p) (pm_fingerprint p) (pm_ssrc p) (pm_video_ssrc p) candidates.

(** What our half of the parameters goes out as *)
Definition local_msg (c : Call) (p : Params) (candidates : list CallCandidate) (now_ms : Z) : option CallMsg :=
  match cl_phase c with
  | Offering => Some (MsgOffer (cl_id c) (now_ms + OFFER_LIFE) (cl_video c) (remote_of p candidates))
  | Connecting => if cl_outgoing c then None else Some (MsgAnswer (cl_id c) (remote_of p candidates))
  | Reconnecting | Connected => Some (MsgRestart (cl_id c) (cl_restart_gen c) (pm_ufrag p) (pm_pwd p) candidates)
  | Ringing => None
  end.

(** [on_session_event] *)
Definition on_session_event (st : option Call) (id : bytes) (ev : Event) (now_ms clock : Z) : Turn :=
  match named id st with
  | None => stay st
  | Some c =>
      match ev with
      | EvLocal p candidates =>
          mkTurn st [] (match local_msg c p candidates now_ms with Some msg => [Signal (cl_conversation c) msg] | None => [] end)
      | EvConnected =>
          match cl_phase c with
          | Connecting | Reconnecting =>
              mkTurn (Some (set_connected_at (Some (default clock (cl_connected_at c))) (set_phase Connected c))) [] [Emit (NowConnected id)]
          | _ => stay st
          end
      | EvDisconnected => if bool_decide (cl_phase c = Connected) then begin_restart c None else stay st
      | EvExpiring => if in_media (cl_phase c) then begin_restart c None else stay st
      | EvVideo frame keyframe => mkTurn st [] [Video frame keyframe]
      | EvKeyframeNeeded => mkTurn st [] [Keyframe]
      | EvBitrate kbps => mkTurn st [] [Bitrate kbps]
      | EvFailed => finish c RsFailed [Signal (cl_conversation c) (MsgEnd id EndFailed)] clock
      end
  end.

(** What [hangup] tells the peer and records, by where the call stands *)
Definition hangup_reason (p : Phase) : CallEnd * CallEndReason :=
  match p with
  | Offering => (EndHangup, RsCancelled)
  | Ringing => (EndDeclined, RsDeclined)
  | _ => (EndHangup, RsHangup)
  end.

(** A timer of the phase the call is still in *)
Definition on_expiry (c : Call) (expiry : Expiry) (clock : Z) : Turn :=
  match expiry with
  | Unanswered => finish c RsUnanswered [Signal (cl_conversation c) (MsgEnd (cl_id c) EndUnanswered)] clock
  | Failed => finish c RsFailed [Signal (cl_conversation c) (MsgEnd (cl_id c) EndFailed)] clock
  | Missed => finish c RsMissed [] clock
  end.

(** ** [step] *)

Definition step (st : option Call) (i : Input) (clock : Z) : verdict Turn :=
  match i with
  | Start c =>
      match st with
      | Some _ => Err "already in a call"%string
      | None =>
          Ok (mkTurn (Some c) []
                [Emit (Outgoing (cl_id c) (cl_peer c) (cl_conversation c)); StartSession (cl_id c) Caller (cl_video c);
                 Arm RING_TIMEOUT (cl_id c) Offering Unanswered])
      end
  | Accept id =>
      match named id st with
      | Some c =>
          if bool_decide (cl_phase c = Ringing) then
            Ok (mkTurn (Some (set_phase Connecting c)) []
                  [Emit (NowConnecting id); StartSession id Callee (cl_video c); Arm CONNECT_TIMEOUT id Connecting Failed])
          else Err "nothing to accept"%string
      | None => Err "nothing to accept"%string
      end
  | Reject id =>
      Ok (match named id st with
          | Some c =>
              if bool_decide (cl_phase c = Ringing)
              then finish c RsDeclined [Signal (cl_conversation c) (MsgEnd (cl_id c) EndDeclined)] clock
              else stay st
          | None => stay st
          end)
  | Hangup id =>
      Ok (match named id st with
          | Some c =>
              let '(wire, reason) := hangup_reason (cl_phase c) in
              finish c reason [Signal (cl_conversation c) (MsgEnd (cl_id c) wire)] clock
          | None => stay st
          end)
  | Muted muted =>
      Ok (match st with
          | Some c =>
              mkTurn (Some (set_muted muted c)) []
                (if in_media (cl_phase c) then [Signal (cl_conversation c) (MsgMedia (cl_id c) muted)] else [])
          | None => stay st
          end)
  | Camera on =>
      Ok (mkTurn st []
            (match st with
             | Some c => if cl_video c && in_media (cl_phase c) then [Signal (cl_conversation c) (MsgCamera (cl_id c) on)] else []
             | None => []
             end))
  | NetworkChanged =>
      Ok (match st with
          | Some c => if in_media (cl_phase c) then begin_restart c None else stay st
          | None => stay st
          end)
  | InOffer o => Ok (on_offer st o)
  | InSignal msg => Ok (on_signal_step st msg clock)
  | Expired id phase expiry =>
      Ok (match named id st with
          | Some c => if bool_decide (cl_phase c = phase) then on_expiry c expiry clock else stay st
          | None => stay st
          end)
  | Session id ev now_ms => Ok (on_session_event st id ev now_ms clock)
  | OfferLost id => Ok (match named id st with Some c => finish c RsFailed [] clock | None => stay st end)
  end.

(** ** Around [step] *)

(** The call [start] places, under the id it drew; the certificate and the audio path may
    not be built, the conversation not be found. *)
Definition start (st : option Call) (peer : bytes) (video paired : bool) (conversation : verdict bytes) (cert audio : verdict unit)
    (id : bytes) (clock : Z) : verdict Turn :=
  _ ← ensure paired "not a paired contact"%string;
  conversation ← conversation;
  _ ← cert;
  _ ← ensure (bool_decide (st = None)) "already in a call"%string;
  _ ← audio;
  step st (Start (mkCall id peer conversation true video Offering None false false false None [] 0)) clock.

(** The locked part of [spawn_session]: the call, if it is still there, gets its session. *)
Definition attach_session (st : option Call) (id : bytes) : Turn :=
  match named id st with
  | None => stay st
  | Some c =>
      let c := set_media true (cl_remote c) (cl_early c) (cl_restart_gen c) c in
      match cl_remote c with
      | Some remote => let '(c, sent) := offer_remote c remote in mkTurn (Some c) sent []
      | None => stay (Some c)
      end
  end.

(** The input [on_signal] makes of a message *)
Definition input_of (from conversation : bytes) (local_ipk : option bytes) (paired media : bool) (now_ms : Z) (msg : CallMsg) : Input :=
  match msg with
  | MsgOffer call expires_at_ms video remote =>
      let me := if paired then default (replicate 32 255) local_ipk else replicate 32 255 in
      InOffer (mkOffer from conversation call expires_at_ms video remote paired me now_ms media)
  | other => InSignal other
  end.

(** ** Facts the proofs share *)

Lemma named_some id st c : named id st = Some c → st = Some c ∧ cl_id c = id.
Proof. destruct st as [c'|]; cbn; [|done]. case_bool_decide; naive_solver. Qed.

Lemma named_self c : named (cl_id c) (Some c) = Some c.
Proof. cbn. by rewrite bool_decide_true. Qed.

Lemma offer_remote_call c r :
  let c' := (offer_remote c r).1 in
  cl_id c' = cl_id c ∧ cl_peer c' = cl_peer c ∧ cl_conversation c' = cl_conversation c ∧ cl_outgoing c' = cl_outgoing c ∧
  cl_video c' = cl_video c ∧ cl_phase c' = cl_phase c ∧ cl_restart_gen c' = cl_restart_gen c ∧ cl_remote c' = Some r ∧ cl_session c' = cl_session c.
Proof. unfold offer_remote. destruct (cl_session c); done. Qed.

(** What [begin_restart] does to the call *)
Lemma begin_restart_call c theirs :
  ∃ c', tn_call (begin_restart c theirs) = Some c' ∧
    cl_id c' = cl_id c ∧ cl_peer c' = cl_peer c ∧ cl_conversation c' = cl_conversation c ∧ cl_outgoing c' = cl_outgoing c ∧
    cl_video c' = cl_video c ∧ cl_session c' = cl_session c ∧
    (cl_phase c = Connected ∧ cl_phase c' = Reconnecting ∧
       tn_fx (begin_restart c theirs) = [Emit (NowReconnecting (cl_id c)); Arm RECONNECT_TIMEOUT (cl_id c) Reconnecting Failed] ∨
     cl_phase c ≠ Connected ∧ cl_phase c' = cl_phase c ∧ tn_fx (begin_restart c theirs) = []).
Proof.
  unfold begin_restart. destruct (bool_decide (cl_phase c = Connected)) eqn:Hp; breflect.
  all: destruct theirs as [r|]; cbn; [|eexists; split_and!; [done..|naive_solver]].
  all: match goal with |- context [offer_remote ?x ?y] => pose proof (offer_remote_call x y) as H; destruct (offer_remote x y) as [c' sent] end.
  all: cbn in *; destruct_and!; exists c'; split_and!; [done..|naive_solver].
Qed.
