(* ===== verification/CallScreen.v ===== *)
(** * CallScreen: effects, threads and the call screen

    How the transitions of [Call] reach the user.  [apply] of libcore/src/call/mod.rs queues
    the effects of a transition under the state lock, and the thread that finds nobody running
    them becomes the runner; the moves of [Device] are the lock-protected sections of its
    threads, in any interleaving.  Events go to the Android [CallController], whose state the
    call screen shows. *)

From S2P Require Import Prelude Verdict Bytes Call.

#[local] Open Scope Z_scope.

(** ** CallController.kt *)

Inductive UiPhase := UiOutgoing | UiIncoming | UiRinging | UiConnecting | UiConnected | UiReconnecting.

(** [Ui], without the name, the speaker and the time of the first connect *)
Record Ui := mkUi {
  ui_call : bytes;
  ui_peer : bytes;
  ui_conversation : bytes;
  ui_outgoing : bool;
  ui_video : bool;
  ui_phase : UiPhase;
  ui_muted : bool;
  ui_peer_muted : bool;
  ui_peer_camera : bool;
  ui_camera : bool;
}.

Definition ui_with (call : bytes) (outgoing video camera : bool) (phase : UiPhase) (u : Ui) : Ui :=
  mkUi call (ui_peer u) (ui_conversation u) outgoing video phase (ui_muted u) (ui_peer_muted u) (ui_peer_camera u) camera.
Definition ui_at (phase : UiPhase) (u : Ui) : Ui := ui_with (ui_call u) (ui_outgoing u) (ui_video u) (ui_camera u) phase u.
Definition ui_peer_is (muted camera : bool) (u : Ui) : Ui :=
  mkUi (ui_call u) (ui_peer u) (ui_conversation u) (ui_outgoing u) (ui_video u) (ui_phase u) (ui_muted u) muted camera (ui_camera u).

(** [toggleMute], its half on the screen *)
Definition ui_toggle (u : Ui) : Ui :=
  mkUi (ui_call u) (ui_peer u) (ui_conversation u) (ui_outgoing u) (ui_video u) (ui_phase u) (negb (ui_muted u)) (ui_peer_muted u)
    (ui_peer_camera u) (ui_camera u).

Definition begin (call peer conversation : bytes) (outgoing video : bool) (phase : UiPhase) : option Ui :=
  Some (mkUi call peer conversation outgoing video phase false false true video).

Definition update (call : bytes) (f : Ui → Ui) (s : option Ui) : option Ui :=
  match s with Some u => Some (if bool_decide (ui_call u = call) then f u else u) | None => None end.

(** [videoNow]: what [current] says when the event arrives *)
Definition videoNow (current : option Call) (call : bytes) : bool := from_option cl_video false (named call current).

Definition onEvent (current : option Call) (event : CallEvent) (s : option Ui) : option Ui :=
  match event with
  | Outgoing call peer conversation => begin call peer conversation true (videoNow current call) UiOutgoing
  | Incoming call peer conversation video => begin call peer conversation false video UiIncoming
  | PeerRinging call => update call (ui_at UiRinging) s
  | Switched from to video => update from (λ u, ui_with to false video (ui_video u) UiConnecting u) s
  | NowConnecting call => update call (ui_at UiConnecting) s
  | NowConnected call => update call (ui_at UiConnected) s
  | NowReconnecting call => update call (ui_at UiReconnecting) s
  | PeerMuted call muted => update call (λ u, ui_peer_is muted (ui_peer_camera u) u) s
  | PeerCamera call on => update call (λ u, ui_peer_is (ui_peer_muted u) on u) s
  | Ended call _ _ _ _ =>
      match s with
      | Some u => if bool_decide (ui_call u = call) then None else s
      | None => None
      end
  end.

(** ** [apply] *)

(** [Calls], with the threads inside the loop of [apply], each with the effect it took from the
    queue and has not run yet; what was run so far, and the screen. *)
Record Device := mkDevice {
  dv_call : option Call;
  dv_queue : list Effect;
  dv_claimed : bool;
  dv_runners : list (option Effect);
  dv_ran : list Effect;
  dv_ui : option Ui;
}.

Definition idle : Device := mkDevice None [] false [] [] None.

(** The locked section of [apply] *)
Definition enter (i : Input) (clock : Z) (d : Device) : Device :=
  match step (dv_call d) i clock with
  | Err _ => d
  | Ok t =>
      mkDevice (tn_call t) (dv_queue d ++ tn_fx t) true (if dv_claimed d then dv_runners d else dv_runners d ++ [None]) (dv_ran d) (dv_ui d)
  end.

(** A runner takes the next effect, or finds none and leaves. *)
Definition take_effect (k : nat) (d : Device) : Device :=
  match dv_runners d !! k with
  | Some None =>
      match dv_queue d with
      | e :: q => mkDevice (dv_call d) q (dv_claimed d) (<[k := Some e]> (dv_runners d)) (dv_ran d) (dv_ui d)
      | [] => mkDevice (dv_call d) [] false (delete k (dv_runners d)) (dv_ran d) (dv_ui d)
      end
  | _ => d
  end.

(** [run], as the screen sees it *)
Definition show (current : option Call) (e : Effect) (s : option Ui) : option Ui :=
  match e with Emit event => onEvent current event s | _ => s end.

(** A runner runs what it took. *)
Definition run_effect (k : nat) (d : Device) : Device :=
  match dv_runners d !! k with
  | Some (Some e) =>
      mkDevice (dv_call d) (dv_queue d) (dv_claimed d) (<[k := None]> (dv_runners d)) (dv_ran d ++ [e]) (show (dv_call d) e (dv_ui d))
  | _ => d
  end.

Inductive Move :=
| Enter (i : Input) (clock : Z)
| Attach (id : bytes)
| Take (k : nat)
| Run (k : nat)
| ToggleMute.

Definition move (d : Device) (m : Move) : Device :=
  match m with
  | Enter i clock => enter i clock d
  | Attach id =>
      mkDevice (tn_call (attach_session (dv_call d) id)) (dv_queue d) (dv_claimed d) (dv_runners d) (dv_ran d) (dv_ui d)
  | Take k => take_effect k d
  | Run k => run_effect k d
  | ToggleMute => mkDevice (dv_call d) (dv_queue d) (dv_claimed d) (dv_runners d) (dv_ran d) (ui_toggle <$> dv_ui d)
  end.

Definition moves (d : Device) (ms : list Move) : Device := foldl move d ms.

(** ** One thread at a time *)

(** The same transitions one after the other: the call they leave and the effects they ask for. *)
Definition serial (s : option Call * list Effect) (m : Move) : option Call * list Effect :=
  match m with
  | Enter i clock => match step s.1 i clock with Ok t => (tn_call t, s.2 ++ tn_fx t) | Err _ => s end
  | Attach id => (tn_call (attach_session s.1 id), s.2)
  | _ => s
  end.

Definition serially (ms : list Move) : option Call * list Effect := foldl serial (None, []) ms.

(** Taken or queued, and not run *)
Definition unrun (d : Device) : list Effect := omap id (dv_runners d) ++ dv_queue d.

(** What the screen must show of the call *)
Definition shows (u : Ui) (c : Call) : Prop :=
  ui_call u = cl_id c ∧ ui_peer u = cl_peer c ∧ ui_conversation u = cl_conversation c ∧
  ui_outgoing u = cl_outgoing c ∧ ui_video u = cl_video c ∧
  match cl_phase c with
  | Offering => ui_phase u = UiOutgoing ∨ ui_phase u = UiRinging
  | Ringing => ui_phase u = UiIncoming
  | Connecting => ui_phase u = UiConnecting
  | Connected => ui_phase u = UiConnected
  | Reconnecting => ui_phase u = UiReconnecting
  end.

(** Calls are placed by [start]; an offer that has expired does not name the call under way;
    and, as receive.rs hands over only what comes in the direct chat with its sender, an offer
    of the peer we are in a call with comes in the conversation of that call. *)
Definition plausible (st : option Call) (i : Input) : Prop :=
  match i with
  | Start c => cl_phase c = Offering ∧ cl_outgoing c = true
  | InOffer o =>
      (offer_expired o = true → named (of_call o) st = None) ∧
      match st with Some c => cl_peer c = of_from o → cl_conversation c = of_conversation o | None => True end
  | _ => True
  end.

Definition plausible_move (d : Device) (m : Move) : Prop :=
  match m with Enter i _ => plausible (dv_call d) i | _ => True end.

(** A run all of whose inputs are plausible where they arrive *)
Fixpoint plausible_run (d : Device) (ms : list Move) : Prop :=
  match ms with [] => True | m :: ms => plausible_move d m ∧ plausible_run (move d m) ms end.
