(* ===== verification/CallScreenProps.v ===== *)
(** * CallScreenProps: the screen follows the call

    Whatever threads interleave in [apply], the effects run in the order of the transitions
    that asked for them, and once no thread is left the screen shows the call the core is in. *)

From S2P Require Import Prelude Verdict Bytes Call CallScreen.

#[local] Open Scope Z_scope.

(** ** One runner *)

(** The queue is claimed by exactly one thread, or empty. *)
Definition claimed_once (d : Device) : Prop :=
  if dv_claimed d then ∃ h, dv_runners d = [h] else dv_runners d = [] ∧ dv_queue d = [].

Lemma runner_lookup (h h' : option Effect) k : [h] !! k = Some h' → k = 0%nat ∧ h' = h.
Proof. by intros [-> ->]%list_lookup_singleton_Some. Qed.

Lemma move_claimed_once d m : claimed_once d → claimed_once (move d m).
Proof.
  unfold claimed_once. intros Hd. destruct m as [i clock|id|k|k|]; cbn; [|done..| | |done].
  - unfold enter. destruct (step _ i clock) as [t|e]; [|done]. cbn.
    destruct (dv_claimed d); [done|]. destruct Hd as [-> _]. eauto.
  - unfold take_effect. destruct (dv_runners d !! k) as [[e|]|] eqn:Hk; [done| |done].
    destruct (dv_claimed d) eqn:Hc; [|destruct Hd as [Hd _]; by rewrite Hd in Hk].
    destruct Hd as [h Hh]. rewrite Hh in Hk |- *. apply runner_lookup in Hk as [-> <-].
    destruct (dv_queue d); cbn; [done|]. rewrite ?Hc. eauto.
  - unfold run_effect. destruct (dv_runners d !! k) as [[e|]|] eqn:Hk; [|done..].
    cbn. destruct (dv_claimed d) eqn:Hc; [|destruct Hd as [Hd _]; by rewrite Hd in Hk].
    destruct Hd as [h Hh]. rewrite Hh in Hk |- *. apply runner_lookup in Hk as [-> <-]. cbn. eauto.
Qed.

Lemma moves_claimed_once d ms : claimed_once d → claimed_once (moves d ms).
Proof. revert d. induction ms as [|m ms IH]; intros d Hd; cbn; [done|]. by apply IH, move_claimed_once. Qed.

(** Taking moves an effect from the queue to the runner's hand. *)
Lemma take_unrun d k : claimed_once d → unrun (take_effect k d) = unrun d.
Proof.
  unfold claimed_once, take_effect, unrun. intros Hd. destruct (dv_runners d !! k) as [[e|]|] eqn:Hk; [done| |done].
  destruct (dv_claimed d); [|destruct Hd as [Hd _]; by rewrite Hd in Hk].
  destruct Hd as [h Hh]. rewrite Hh in Hk |- *. apply runner_lookup in Hk as [-> <-]. by destruct (dv_queue d).
Qed.

(** What runs is the oldest effect not run yet. *)
Lemma run_unrun d k :
  claimed_once d →
  run_effect k d = d ∨
  ∃ e, unrun d = e :: unrun (run_effect k d) ∧ dv_ran (run_effect k d) = dv_ran d ++ [e] ∧
       dv_ui (run_effect k d) = show (dv_call d) e (dv_ui d) ∧ dv_call (run_effect k d) = dv_call d.
Proof.
  unfold claimed_once, run_effect, unrun. intros Hd. destruct (dv_runners d !! k) as [[e|]|] eqn:Hk; [|by left..].
  destruct (dv_claimed d); [|destruct Hd as [Hd _]; by rewrite Hd in Hk].
  destruct Hd as [h Hh]. rewrite Hh in Hk |- *. apply runner_lookup in Hk as [-> <-]. right. by exists e.
Qed.

(** A transition adds its effects behind the others. *)
Lemma enter_unrun d i clock t : step (dv_call d) i clock = Ok t → unrun (enter i clock d) = unrun d ++ tn_fx t.
Proof.
  intros Hs. unfold enter, unrun. rewrite Hs. cbn. destruct (dv_claimed d); [by rewrite app_assoc|].
  by rewrite omap_app, !app_assoc, app_nil_r.
Qed.

(** [apply] is serial: the call is the one the transitions leave one after the other, and what
    has run, then what is still to run, are their effects in that order. *)
Lemma apply_is_serial ms : let d := moves idle ms in serially ms = (dv_call d, dv_ran d ++ unrun d).
Proof.
  induction ms as [|m ms IH] using rev_ind; [done|]. cbn zeta in *.
  unfold moves, serially in *. rewrite !foldl_app. cbn. rewrite IH. clear IH.
  assert (claimed_once (foldl move idle ms)) as Hd by (apply moves_claimed_once; by split).
  set (d := foldl move idle ms) in *. destruct m as [i clock|id|k|k|]; cbn; [|done| | |done].
  - destruct (step (dv_call d) i clock) as [t|e] eqn:Hs.
    + rewrite (enter_unrun d i clock t Hs). unfold enter. rewrite Hs. cbn. by rewrite app_assoc.
    + unfold enter. by rewrite Hs.
  - rewrite take_unrun by done. unfold take_effect.
    destruct (dv_runners d !! k) as [[e|]|]; [done| |done]. by destruct (dv_queue d).
  - destruct (run_unrun d k Hd) as [->|(e & -> & -> & _ & ->)]; [done|]. by rewrite <- app_assoc.
Qed.

(** ** The screen *)

(** What of the screen a call settles, its video apart *)
Definition face (u : Ui) : bytes * bytes * bytes * bool * UiPhase := (ui_call u, ui_peer u, ui_conversation u, ui_outgoing u, ui_phase u).

(** Screens that show the same call *)
Definition alike (s s' : option Ui) : Prop := face <$> s = face <$> s'.

(** Screens that show the same call with the same video *)
Definition same (s s' : option Ui) : Prop := (λ u, (face u, ui_video u)) <$> s = (λ u, (face u, ui_video u)) <$> s'.

Definition reads (current : option Call) (fx : list Effect) (s : option Ui) : option Ui := foldl (λ s e, show current e s) s fx.

Lemma update_proj {A} (p : Ui → A) call f s s' :
  (∀ u u', p u = p u' → ui_call u = ui_call u' ∧ p (f u) = p (f u')) →
  p <$> s = p <$> s' → p <$> update call f s = p <$> update call f s'.
Proof.
  intros Hf. destruct s as [u|], s' as [u'|]; cbn; try done. intros [= Hp].
  destruct (Hf _ _ Hp) as [-> Hp']. by case_bool_decide; f_equal.
Qed.

Lemma ended_proj {A} (p : Ui → A) call s s' :
  (∀ u u', p u = p u' → ui_call u = ui_call u') → p <$> s = p <$> s' →
  p <$> (match s with Some u => if bool_decide (ui_call u = call) then None else s | None => None end) =
  p <$> (match s' with Some u => if bool_decide (ui_call u = call) then None else s' | None => None end).
Proof.
  intros Hf. destruct s as [u|], s' as [u'|]; cbn; try done. intros [= Hp]. rewrite (Hf _ _ Hp).
  case_bool_decide; cbn; by rewrite ?Hp.
Qed.

Lemma onEvent_alike cur cur' ev s s' : alike s s' → alike (onEvent cur ev s) (onEvent cur' ev s').
Proof.
  unfold alike. intros Hs. destruct ev; cbn; try done;
    try (apply update_proj; [|done]; unfold face; intros [] []; cbn; naive_solver).
  apply ended_proj; [|done]. unfold face. naive_solver.
Qed.

Lemma onEvent_same cur cur' ev s s' :
  (∀ id, videoNow cur id = videoNow cur' id) → same s s' → same (onEvent cur ev s) (onEvent cur' ev s').
Proof.
  unfold same. intros Hv Hs. destruct ev; cbn; rewrite ?Hv; try done;
    try (apply update_proj; [|done]; unfold face; intros [] []; cbn; naive_solver).
  apply ended_proj; [|done]. unfold face. naive_solver.
Qed.

Lemma reads_alike cur cur' fx s s' : alike s s' → alike (reads cur fx s) (reads cur' fx s').
Proof.
  revert s s'. induction fx as [|e fx IH]; intros s s' Hs; [done|]. cbn. apply IH.
  destruct e; cbn; try done. by apply onEvent_alike.
Qed.

Lemma reads_same cur cur' fx s s' :
  (∀ id, videoNow cur id = videoNow cur' id) → same s s' → same (reads cur fx s) (reads cur' fx s').
Proof.
  intros Hv. revert s s'. induction fx as [|e fx IH]; intros s s' Hs; [done|]. cbn. apply IH.
  destruct e; cbn; try done. by apply onEvent_same.
Qed.

(** The screen shows the call, and nothing when there is none. *)
Definition agree (st : option Call) (s : option Ui) : Prop :=
  match st, s with Some c, Some u => shows u c | None, None => True | _, _ => False end.

Lemma agree_same st s s' : same s s' → agree st s → agree st s'.
Proof.
  unfold same, agree, shows, face. destruct st as [c|], s as [u|], s' as [u'|]; cbn; try done.
  intros [= -> -> -> -> -> ->]. done.
Qed.

(** The screen shows the call, but for its video *)
Definition agree_but_video (st : option Call) (s : option Ui) : Prop := ∃ s', alike s' s ∧ agree st s'.

Lemma agree_alike st s s' : alike s s' → agree st s → agree_but_video st s'.
Proof. by exists s. Qed.

Lemma agree_none s : agree_but_video None s → s = None.
Proof. intros (s' & Ha & Hg). destruct s' as [u|]; [done|]. by destruct s. Qed.

(** The call's own screen *)
Lemma agree_some c s : agree_but_video (Some c) s → ∃ u, s = Some u ∧ ui_call u = cl_id c ∧ ui_peer u = cl_peer c ∧ ui_conversation u = cl_conversation c.
Proof.
  intros (s' & Ha & Hg). destruct s' as [u'|]; [|done]. unfold alike in Ha. destruct s as [u|]; [|done].
  injection Ha as Hc Hp Hv _ _. exists u. destruct Hg as (-> & -> & -> & _) in Hc, Hp, Hv. done.
Qed.

(** An ended call leaves the screen. *)
Lemma finish_agree c reason fx clock s :
  (∀ cur, reads cur fx s = s) → agree_but_video (Some c) s →
  agree (tn_call (finish c reason fx clock)) (reads (tn_call (finish c reason fx clock)) (tn_fx (finish c reason fx clock)) s).
Proof.
  intros Hfx (u & -> & Hu & _)%agree_some. cbn. unfold reads in *. rewrite foldl_app, Hfx. cbn.
  by rewrite bool_decide_true.
Qed.

(** A transition that keeps the call and its video, and moves the screen with the phase *)
Lemma kept_agree c c' fx s :
  cl_id c' = cl_id c → cl_peer c' = cl_peer c → cl_conversation c' = cl_conversation c →
  cl_outgoing c' = cl_outgoing c → cl_video c' = cl_video c →
  ((∀ id, videoNow (Some c) id = videoNow (Some c') id) → agree (Some c) s) →
  (∀ u, shows u c → agree (Some c') (reads (Some c') fx (Some u))) →
  agree (Some c') (reads (Some c') fx s).
Proof.
  intros Hi Hp Hc Ho Hv Hs Hf. destruct s as [u|].
  - apply Hf, Hs. intros id. unfold videoNow. cbn. rewrite Hi. case_bool_decide; [|done]. by cbn.
  - exfalso. apply Hs. intros id. unfold videoNow. cbn. rewrite Hi. case_bool_decide; [|done]. by cbn.
Qed.

Lemma restart_agree c theirs s :
  ((∀ id, videoNow (Some c) id = videoNow (tn_call (begin_restart c theirs)) id) → agree (Some c) s) →
  agree (tn_call (begin_restart c theirs)) (reads (tn_call (begin_restart c theirs)) (tn_fx (begin_restart c theirs)) s).
Proof.
  destruct (begin_restart_call c theirs) as (c' & -> & Hi & Hp & Hc & Ho & Hv & _ & Hf). intros Hs.
  apply (kept_agree c); [done..|]. intros u (?&?&?&?&?&Hu).
  destruct Hf as [(Hph & Hph' & ->)|(Hph & Hph' & ->)]; cbn.
  - rewrite bool_decide_true by done. unfold agree, shows. rewrite Hph'. cbn. split_and!; congruence.
  - unfold shows. rewrite Hph'. split_and!; congruence.
Qed.

#[local] Arguments agree : simpl never.
#[local] Arguments reads : simpl never.
#[local] Arguments videoNow : simpl never.
#[local] Arguments finish : simpl never.

(** The tactic of the transitions that keep the call: the screen's fields one by one *)
Ltac kept :=
  eapply kept_agree; [..|eassumption|]; [done..|];
  let u := fresh "u" in
  intros u (?&?&?&?&?&?); unfold agree, reads; cbn in *; rewrite ?bool_decide_true by congruence; unfold shows; cbn;
  repeat match goal with H : cl_phase _ = _ |- _ => rewrite H in * end; cbn in *; split_and!; try congruence; eauto.

Lemma signal_agree st msg clock s :
  let t := on_signal_step st msg clock in
  agree_but_video st s → ((∀ id, videoNow st id = videoNow (tn_call t) id) → agree st s) →
  agree (tn_call t) (reads (tn_call t) (tn_fx t) s).
Proof.
  cbn zeta. intros Hb Hs.
  destruct msg as [| |call r|call cd|call m|call on|call g uf pw cs|call rs]; cbn in *; [by apply Hs|..];
    destruct (named call st) as [c|] eqn:Hn; try by apply Hs.
  all: apply named_some in Hn as [-> <-].
  - destruct (bool_decide (cl_phase c = Offering)) eqn:Hp; breflect; cbn in *; [|by apply Hs]. kept.
  - destruct (bool_decide (cl_phase c = Offering)) eqn:Hp; breflect; cbn in *; [|by apply Hs].
    pose proof (offer_remote_call (set_phase Connecting c) r) as Hr.
    destruct (offer_remote (set_phase Connecting c) r) as [c' sent]. cbn in *. destruct Hr as (?&?&?&?&?&?&_). kept.
  - destruct (cl_session c); [by apply Hs|]. cbn in *. kept.
  - kept.
  - kept.
  - destruct (in_media (cl_phase c)); [|by apply Hs]. destruct (cl_restart_gen c <? g).
    + apply restart_agree. intros Hv. apply Hs. intros id. rewrite <- Hv. unfold videoNow. cbn. by case_bool_decide.
    + pose proof (offer_remote_call c (restart_remote c uf pw cs)) as Hr.
      destruct (offer_remote c _) as [c' sent]. cbn in *. destruct Hr as (?&?&?&?&?&?&_). kept.
  - by apply finish_agree.
Qed.

Lemma offer_agree st o s :
  let t := on_offer st o in
  plausible st (InOffer o) → agree_but_video st s → ((∀ id, videoNow st id = videoNow (tn_call t) id) → agree st s) →
  agree (tn_call t) (reads (tn_call t) (tn_fx t) s).
Proof.
  cbn zeta. unfold on_offer, plausible. intros [Hpl Hcv] Hb Hs. destruct (of_paired o); cbn in *; [|by apply Hs].
  destruct (offer_expired o); cbn in *.
  { destruct st as [c|]; [|by apply agree_none in Hb as ->].
    specialize (Hpl eq_refl). cbn in Hpl. case_bool_decide as Hi; [done|].
    apply (kept_agree c); [done..|]. intros u Hu. unfold agree, reads. cbn.
    destruct Hu as (Hu & ?). by rewrite bool_decide_false by congruence. }
  destruct st as [c|]; cbn in *.
  - destruct (bool_decide (cl_id c = of_call o)); [by apply Hs|].
    destruct (bool_decide (cl_phase c = Offering)); cbn in *; [|by apply Hs].
    destruct (bool_decide (cl_peer c = of_from o)) eqn:Hp; cbn in *; [|by apply Hs]. breflect.
    case_bool_decide; [|by apply Hs]. cbn.
    apply agree_some in Hb as (u & -> & Hu & Hpe & Hco). unfold agree, reads, shows. cbn.
    rewrite (bool_decide_true (ui_call u = cl_id c)) by done. cbn. rewrite bool_decide_true by done. cbn. naive_solver congruence.
  - apply agree_none in Hb as ->. by destruct (of_media o).
Qed.

Lemma step_agree st i clock t s :
  plausible st i → step st i clock = Ok t → agree_but_video st s →
  ((∀ id, videoNow st id = videoNow (tn_call t) id) → agree st s) →
  agree (tn_call t) (reads (tn_call t) (tn_fx t) s).
Proof.
  intros Hpl Hst Hb Hs. destruct i as [c|id|id|id|m|on| |o|msg|id p e|id ev now|id]; cbn in Hst.
  - destruct st; [done|]. injection Hst as <-. apply agree_none in Hb as ->. destruct Hpl as [Hp Ho].
    unfold agree, shows, reads. cbn. unfold videoNow. cbn. rewrite bool_decide_true, Hp by done. cbn. naive_solver.
  - destruct (named id st) as [c|] eqn:Hn; [|done]. apply named_some in Hn as [-> <-].
    case_bool_decide; [|done]. injection Hst as <-. cbn in *. kept.
  - injection Hst as <-. destruct (named id st) as [c|] eqn:Hn; [|by apply Hs]. apply named_some in Hn as [-> <-].
    case_bool_decide; [|by apply Hs]. by apply finish_agree.
  - injection Hst as <-. destruct (named id st) as [c|] eqn:Hn; [|by apply Hs]. apply named_some in Hn as [-> <-].
    destruct (hangup_reason _). by apply finish_agree.
  - injection Hst as <-. destruct st as [c|]; [|by apply Hs]. cbn in *. destruct (in_media _); kept.
  - injection Hst as <-. cbn in *. destruct st as [c|]; [|by apply Hs]. destruct (_ && _); by apply Hs.
  - injection Hst as <-. destruct st as [c|]; [|by apply Hs]. destruct (in_media _); [|by apply Hs]. by apply restart_agree.
  - injection Hst as <-. by apply offer_agree.
  - injection Hst as <-. by apply signal_agree.
  - injection Hst as <-. destruct (named id st) as [c|] eqn:Hn; [|by apply Hs]. apply named_some in Hn as [-> <-].
    case_bool_decide; [|by apply Hs]. destruct e; by apply finish_agree.
  - injection Hst as <-. unfold on_session_event in *. destruct (named id st) as [c|] eqn:Hn; [|by apply Hs].
    apply named_some in Hn as [-> <-].
    destruct ev; cbn in *; try by apply Hs.
    + destruct (local_msg _ _ _ _); by apply Hs.
    + destruct (cl_phase c) eqn:Hp; try (by apply Hs); cbn in *; kept.
    + case_bool_decide; [|by apply Hs]. by apply restart_agree.
    + destruct (in_media _); [|by apply Hs]. by apply restart_agree.
    + by apply finish_agree.
  - injection Hst as <-. destruct (named id st) as [c|] eqn:Hn; [|by apply Hs]. apply named_some in Hn as [-> <-].
    by apply finish_agree.
Qed.

(** ** Runs *)

Lemma attach_agree st id s : agree st s → agree (tn_call (attach_session st id)) s.
Proof.
  unfold attach_session. intros Hs. destruct (named id st) as [c|] eqn:Hn; [|done]. apply named_some in Hn as [-> _].
  cbn. by destruct (cl_remote c).
Qed.

Lemma attach_video st id j : videoNow st j = videoNow (tn_call (attach_session st id)) j.
Proof.
  unfold attach_session. destruct (named id st) as [c|] eqn:Hn; [|done]. apply named_some in Hn as [-> _].
  unfold videoNow. cbn. destruct (cl_remote c); cbn; by case_bool_decide.
Qed.

(** Once what is still to run has run, the screen shows the call. *)
Definition on_its_way (d : Device) : Prop := claimed_once d ∧ agree (dv_call d) (reads (dv_call d) (unrun d) (dv_ui d)).

Lemma move_on_its_way d m : plausible_move d m → on_its_way d → on_its_way (move d m).
Proof.
  intros Hpl [Hc Ha]. split; [by apply move_claimed_once|]. destruct m as [i clock|id|k|k|]; cbn in *.
  - destruct (step (dv_call d) i clock) as [t|e] eqn:Hs; [|unfold enter; by rewrite Hs].
    rewrite (enter_unrun d i clock t Hs). unfold enter. rewrite Hs. cbn. unfold reads. rewrite foldl_app. fold (reads (tn_call t)).
    apply (step_agree (dv_call d) i clock); [done..| |].
    + eapply agree_alike; [|exact Ha]. by apply reads_alike.
    + intros Hv. eapply agree_same; [|exact Ha]. by apply reads_same.
  - apply attach_agree. eapply agree_same; [|exact Ha]. apply reads_same; [|done]. intros j. apply attach_video.
  - rewrite take_unrun by done. unfold take_effect.
    destruct (dv_runners d !! k) as [[e|]|]; [done| |done]. by destruct (dv_queue d).
  - destruct (run_unrun d k Hc) as [->|(e & He & _ & -> & ->)]; [done|]. by rewrite He in Ha.
  - eapply agree_same; [|exact Ha]. apply reads_same; [done|]. by destruct (dv_ui d).
Qed.

Lemma moves_on_its_way d ms : plausible_run d ms → on_its_way d → on_its_way (moves d ms).
Proof.
  revert d. induction ms as [|m ms IH]; intros d; [done|]. intros [Hm Hms] Hd. cbn. apply IH; [done|].
  by apply move_on_its_way.
Qed.

