(* ===== verification/CallProps.v ===== *)
(** * CallProps: what a call promises

    No phase but the connected one lasts: each is entered with a timer that ends it.  Nothing
    but the user's own hand starts media.  Offers that cross leave both devices in one call. *)

From S2P Require Import Prelude Verdict Bytes Call CallScreen.

#[local] Open Scope Z_scope.

(** ** Timers *)

(** A sleeping task of [run], to feed [Expired] back at [tm_at] *)
Record Timer := mkTimer {
  tm_at : Z;
  tm_call : bytes;
  tm_phase : Phase;
  tm_expiry : Expiry;
}.

(** A device with its clock and timers; [ck_since] is when the call took the phase it is in.
    Effects run at once: a timer starts when the transition asks for it. *)
Record Clocked := mkClocked {
  ck_now : Z;
  ck_call : option Call;
  ck_timers : list Timer;
  ck_since : Z;
}.

Definition armed (now : Z) (e : Effect) : option Timer :=
  match e with Arm delay call phase expiry => Some (mkTimer (now + delay) call phase expiry) | _ => None end.

Definition stands (st : option Call) : option (bytes * Phase) := (λ c, (cl_id c, cl_phase c)) <$> st.

Definition ck_turn (w : Clocked) (t : Turn) : Clocked :=
  mkClocked (ck_now w) (tn_call t) (ck_timers w ++ omap (armed (ck_now w)) (tn_fx t))
    (if bool_decide (stands (tn_call t) = stands (ck_call w)) then ck_since w else ck_now w).

Definition ck_input (i : Input) (w : Clocked) : Clocked :=
  match step (ck_call w) i (ck_now w) with Ok t => ck_turn w t | Err _ => w end.

Inductive Tick :=
| Pass (ms : Z)
| In (i : Input)
| Joins (id : bytes)
| Fire (k : nat).

(** A timer fires no earlier than it is due. *)
Definition tick (w : Clocked) (m : Tick) : Clocked :=
  match m with
  | Pass ms => mkClocked (ck_now w + Z.max 0 ms) (ck_call w) (ck_timers w) (ck_since w)
  | In i => ck_input i w
  | Joins id => ck_turn w (attach_session (ck_call w) id)
  | Fire k =>
      match ck_timers w !! k with
      | Some t =>
          if tm_at t <=? ck_now w
          then ck_input (Expired (tm_call t) (tm_phase t) (tm_expiry t)) (mkClocked (ck_now w) (ck_call w) (delete k (ck_timers w)) (ck_since w))
          else w
      | None => w
      end
  end.

Definition ticks (w : Clocked) (ms : list Tick) : Clocked := foldl tick w ms.

(** How long a phase may last *)
Definition patience (p : Phase) : Z :=
  match p with Offering | Ringing => RING_TIMEOUT | Connecting => CONNECT_TIMEOUT | _ => RECONNECT_TIMEOUT end.

(** Calls are placed by [start]. *)
Definition placed (i : Input) : Prop := match i with Start c => cl_phase c = Offering | _ => True end.

Definition placed_tick (m : Tick) : Prop := match m with In i => placed i | _ => True end.

(** A transition leaves the call where it stood, ends it, connects it, or arms the timer of the
    phase it enters. *)
Definition arms (st : option Call) (t : Turn) : Prop :=
  ∀ c, tn_call t = Some c → cl_phase c ≠ Connected → stands st ≠ stands (Some c) →
    ∃ delay expiry, Arm delay (cl_id c) (cl_phase c) expiry ∈ tn_fx t ∧ delay ≤ patience (cl_phase c).

Lemma arms_same st t : stands (tn_call t) = stands st → arms st t.
Proof. intros H c Hc _ Hn. by rewrite <- H, Hc in Hn. Qed.

Lemma arms_none st t : tn_call t = None → arms st t.
Proof. by intros H c ?; simplify_eq. Qed.

Lemma arms_new st t c delay expiry :
  tn_call t = Some c → Arm delay (cl_id c) (cl_phase c) expiry ∈ tn_fx t → delay ≤ patience (cl_phase c) → arms st t.
Proof. intros Hc Hin Hd c' ? _ _. simplify_eq. eauto. Qed.

Lemma restart_arms c theirs : arms (Some c) (begin_restart c theirs).
Proof.
  destruct (begin_restart_call c theirs) as (c' & Hc & Hi & _ & _ & _ & _ & _ & [(Hp & Hp' & Hf)|(Hp & Hp' & _)]).
  - eapply arms_new; [done| |]; rewrite Hp'; [rewrite Hf, Hi|done]. right. left.
  - apply arms_same. rewrite Hc. cbn. by rewrite Hi, Hp'.
Qed.

Lemma signal_arms st msg clock : arms st (on_signal_step st msg clock).
Proof.
  destruct msg as [| |call r|call cd|call m|call on|call g uf pw cs|call rs]; cbn; [by apply arms_same|..];
    destruct (named call st) as [c|] eqn:Hn; try by apply arms_same.
  all: apply named_some in Hn as [-> <-].
  - case_bool_decide; [|by apply arms_same]. pose proof (offer_remote_call (set_phase Connecting c) r) as Hr.
    destruct (offer_remote _ _) as [c' sent]. cbn in Hr. destruct Hr as (Hi&_&_&_&_&Hp&_).
    eapply arms_new; [done| |]; rewrite Hp, ?Hi; [|done]. cbn. right. left.
  - destruct (cl_session c); by apply arms_same.
  - by apply arms_same.
  - destruct (in_media (cl_phase c)); [|by apply arms_same]. destruct (_ <? g).
    + apply (restart_arms (set_media (cl_session c) (cl_remote c) (cl_early c) g c)).
    + pose proof (offer_remote_call c (restart_remote c uf pw cs)) as Hr. destruct (offer_remote _ _) as [c' sent]. cbn in Hr.
      destruct Hr as (Hi&_&_&_&_&Hp&_). apply arms_same. cbn. by rewrite Hi, Hp.
  - by apply arms_none.
Qed.

Lemma offer_arms st o : arms st (on_offer st o).
Proof.
  unfold on_offer. destruct (of_paired o); cbn; [|by apply arms_same]. destruct (offer_expired o); [by apply arms_same|].
  destruct st as [c|].
  - case_bool_decide; [by apply arms_same|]. destruct (_ && _); [|by apply arms_same].
    case_bool_decide; [|by apply arms_same]. eapply arms_new; [done| |done]. cbn. do 3 right. left.
  - destruct (of_media o); [|by apply arms_same]. eapply arms_new; [done|cbn; do 2 right; left|]. cbn. lia.
Qed.

Lemma step_arms st i clock t : placed i → step st i clock = Ok t → arms st t.
Proof.
  intros Hpl Hs. destruct i as [c|id|id|id|m|on| |o|msg|id p e|id ev now|id]; cbn in Hs.
  - destruct st; [done|]. simplify_eq. cbn in Hpl. eapply arms_new; [done| |]; rewrite Hpl; [cbn; do 2 right; left|done].
  - destruct (named id st) as [c|] eqn:Hn; [|done]. apply named_some in Hn as [-> <-].
    case_bool_decide; [|done]. simplify_eq. eapply arms_new; [done| |done]. cbn. do 2 right. left.
  - simplify_eq. destruct (named id st); [|by apply arms_same]. case_bool_decide; [by apply arms_none|by apply arms_same].
  - simplify_eq. destruct (named id st); [|by apply arms_same]. destruct (hangup_reason _). by apply arms_none.
  - simplify_eq. destruct st; by apply arms_same.
  - simplify_eq. by apply arms_same.
  - simplify_eq. destruct st as [c|]; [|by apply arms_same]. destruct (in_media _); [apply restart_arms|by apply arms_same].
  - simplify_eq. apply offer_arms.
  - simplify_eq. apply signal_arms.
  - simplify_eq. destruct (named id st); [|by apply arms_same]. case_bool_decide; [|by apply arms_same].
    destruct e; by apply arms_none.
  - simplify_eq. unfold on_session_event. destruct (named id st) as [c|] eqn:Hn; [|by apply arms_same].
    apply named_some in Hn as [-> <-]. destruct ev; try by apply arms_same.
    + destruct (cl_phase c); try (by apply arms_same); by intros ? [= <-].
    + case_bool_decide; [apply restart_arms|by apply arms_same].
    + destruct (in_media _); [apply restart_arms|by apply arms_same].
    + by apply arms_none.
  - simplify_eq. destruct (named id st); [by apply arms_none|by apply arms_same].
Qed.

(** A call that is not connected has a timer for where it stands. *)
Definition watched (w : Clocked) : Prop :=
  ∀ c, ck_call w = Some c → cl_phase c ≠ Connected →
    ∃ t, t ∈ ck_timers w ∧ tm_call t = cl_id c ∧ tm_phase t = cl_phase c ∧ tm_at t ≤ ck_since w + patience (cl_phase c).

Lemma turn_watched w t : arms (ck_call w) t → watched w → watched (ck_turn w t).
Proof.
  intros Ha Hw c Hc Hp. cbn in *. case_bool_decide as Hk.
  - rewrite Hc in Hk. destruct (ck_call w) as [c0|] eqn:Hc0; [|done]. injection Hk as Hi Hph.
    destruct (Hw c0 Hc0) as (tm & Hin & Hcall & Hph' & Hat); [congruence|]. exists tm. rewrite Hi, Hph.
    split_and!; [apply elem_of_app; by left|done..].
  - destruct (Ha c Hc Hp) as (delay & expiry & Hin & Hd); [by rewrite <- Hc|].
    exists (mkTimer (ck_now w + delay) (cl_id c) (cl_phase c) expiry). cbn. split_and!; [|done..|lia].
    apply elem_of_app. right. apply list_elem_of_omap. by exists (Arm delay (cl_id c) (cl_phase c) expiry).
Qed.

(** A timer for where the call stands ends it. *)
Lemma expired_ends c phase expiry clock :
  cl_phase c = phase → ∃ t, step (Some c) (Expired (cl_id c) phase expiry) clock = Ok t ∧ tn_call t = None.
Proof.
  intros Hp. cbn. rewrite (bool_decide_true (cl_id c = cl_id c)) by done. rewrite bool_decide_true by done.
  by destruct expiry; eexists.
Qed.

(** A timer for any other place does nothing. *)
Lemma expired_stays st id phase expiry clock :
  (∀ c, st = Some c → (cl_id c, cl_phase c) ≠ (id, phase)) → step st (Expired id phase expiry) clock = Ok (stay st).
Proof.
  intros Hn. cbn. destruct (named id st) as [c|] eqn:Hc; [|done]. apply named_some in Hc as [-> <-].
  rewrite bool_decide_false; [done|]. intros Hp. apply (Hn c eq_refl). congruence.
Qed.

Lemma fire_watched w k : watched w → watched (tick w (Fire k)).
Proof.
  intros Hw. cbn [tick]. destruct (ck_timers w !! k) as [t|] eqn:Hk; [|done]. destruct (_ <=? _); [|done].
  unfold ck_input. cbn [ck_call ck_now].
  destruct (decide (stands (ck_call w) = Some (tm_call t, tm_phase t))) as [Hs|Hs].
  - destruct (ck_call w) as [c|] eqn:Hc; [|done]. injection Hs as Hi Hp. rewrite <- Hi.
    destruct (expired_ends c (tm_phase t) (tm_expiry t) (ck_now w) Hp) as (tt & -> & Hn).
    intros c' Hc'. cbn in Hc'. by rewrite Hn in Hc'.
  - rewrite expired_stays; [|by intros c Hc; rewrite Hc in Hs; cbn in Hs; congruence].
    intros c Hc Hp. cbn in Hc. destruct (Hw c Hc Hp) as (t' & Hin & Hcall & Hph & Hat). exists t'.
    split_and!; [|done..|].
    + cbn. rewrite app_nil_r. apply list_elem_of_lookup in Hin as [j Hj]. apply list_elem_of_lookup.
      destruct (decide (j < k)%nat); [exists j; by rewrite list_lookup_delete_lt|].
      assert (j ≠ k) by (intros ->; rewrite Hc in Hs; cbn in Hs; congruence).
      exists (j - 1)%nat. rewrite list_lookup_delete_ge by lia. by replace (S (j - 1)) with j by lia.
    + cbn. by rewrite bool_decide_true.
Qed.

Lemma attach_stands st id : stands (tn_call (attach_session st id)) = stands st.
Proof.
  unfold attach_session. destruct (named id st) as [c|] eqn:Hn; [|done]. apply named_some in Hn as [-> _].
  cbn. by destruct (cl_remote c).
Qed.

Lemma tick_watched w m : placed_tick m → watched w → watched (tick w m).
Proof.
  intros Hpl Hw. destruct m as [ms|i|id|k]; [done| | |by apply fire_watched].
  - cbn. unfold ck_input. destruct (step _ _ _) as [t|e] eqn:Hs; [|done]. apply turn_watched; [|done]. by eapply step_arms.
  - cbn. apply turn_watched; [|done]. apply arms_same, attach_stands.
Qed.

Lemma ticks_watched w ms : Forall placed_tick ms → watched w → watched (ticks w ms).
Proof. intros Hms. revert w. induction Hms; intros w Hw; cbn; [done|]. by apply IHHms, tick_watched. Qed.

(** C25: No call hangs.  Whatever the user, the peer, the network and the media session do, in
    any order and at any time, a call that is placed, ringing, connecting or reconnecting
    leaves that phase in time: while no timer is overdue, it has been in its phase for less
    than 45 seconds where it rings and 20 seconds where media is coming up or back. *)
Theorem no_call_hangs now ms (w := ticks (mkClocked now None [] now) ms) c :
  Forall placed_tick ms → Forall (λ t, ck_now w < tm_at t) (ck_timers w) →
  ck_call w = Some c → cl_phase c ≠ Connected → ck_now w - ck_since w < patience (cl_phase c).
Proof.
  subst w. intros Hms Hdue Hc Hp.
  destruct (ticks_watched (mkClocked now None [] now) ms Hms) with c as (t & Hin & _ & _ & Hat); [by intros ?|done..|].
  rewrite Forall_forall in Hdue. specialize (Hdue t Hin). lia.
Qed.

(** A connected call loses its path. *)
Lemma lost_tick w c :
  ck_call w = Some c → cl_phase c = Connected →
  ∃ c', tick w (In (Session (cl_id c) EvDisconnected 0)) =
          mkClocked (ck_now w) (Some c') (ck_timers w ++ [mkTimer (ck_now w + RECONNECT_TIMEOUT) (cl_id c) Reconnecting Failed]) (ck_now w) ∧
        cl_id c' = cl_id c ∧ cl_phase c' = Reconnecting.
Proof.
  intros Hc Hp. cbn [tick]. unfold ck_input. cbn [step]. unfold on_session_event. rewrite Hc, named_self, bool_decide_true by done.
  destruct (begin_restart_call c None) as (c' & Hc' & Hi & _ & _ & _ & _ & _ & Hf). exists c'.
  destruct Hf as [(_ & Hp' & Hf)|(Hn & _)]; [|done]. split_and!; [|done..].
  unfold ck_turn. rewrite Hc', Hf, Hc. cbn [omap list_omap armed]. rewrite bool_decide_false; [done|]. cbn. congruence.
Qed.

(** Its path comes back. *)
Lemma back_tick w c :
  ck_call w = Some c → cl_phase c = Reconnecting →
  ∃ c', tick w (In (Session (cl_id c) EvConnected 0)) = mkClocked (ck_now w) (Some c') (ck_timers w) (ck_now w) ∧
        cl_id c' = cl_id c ∧ cl_phase c' = Connected.
Proof.
  intros Hc Hp. cbn [tick]. unfold ck_input. cbn [step]. unfold on_session_event. rewrite Hc, named_self, Hp. eexists.
  split_and!; [|shelve|shelve]. { unfold ck_turn. cbn. rewrite app_nil_r, Hc, bool_decide_false; [done|]. cbn. congruence. }
  Unshelve. all: done.
Qed.

(** C40: A reconnect timer outlives the round it was armed for.  A call loses its path,
    recovers [x] milliseconds later, and loses it again after [y] more, within twenty seconds of
    the first loss: the first loss's timer ends the call, although the second round has only
    lasted what is left of those twenty seconds and its own timer is not due. *)
Theorem stale_reconnect_timer c now since x y :
  cl_phase c = Connected → 0 ≤ x → 0 ≤ y → x + y ≤ RECONNECT_TIMEOUT →
  let lost := In (Session (cl_id c) EvDisconnected 0) in
  let back := In (Session (cl_id c) EvConnected 0) in
  let w := ticks (mkClocked now (Some c) [] since) [lost; Pass x; back; Pass y; lost; Pass (RECONNECT_TIMEOUT - x - y)] in
  cl_phase <$> ck_call w = Some Reconnecting ∧ ck_now w - ck_since w = RECONNECT_TIMEOUT - x - y ∧ ck_call (tick w (Fire 0)) = None.
Proof.
  intros Hp Hx Hy Hxy lost back. unfold ticks. cbn [foldl]. subst lost back.
  destruct (lost_tick (mkClocked now (Some c) [] since) c eq_refl Hp) as (c1 & -> & Hi1 & Hp1).
  rewrite <- Hi1. cbn [tick ck_now ck_call ck_timers ck_since app].
  edestruct (back_tick (mkClocked (now + 0 `max` x) (Some c1) [mkTimer (now + RECONNECT_TIMEOUT) (cl_id c1) Reconnecting Failed] now) c1)
    as (c2 & Hb & Hi2 & Hp2); [done..|]. cbn [tick] in Hb. rewrite Hb. clear Hb.
  rewrite <- Hi2. cbn [ck_now ck_call ck_timers ck_since].
  edestruct (lost_tick (mkClocked (now + 0 `max` x + 0 `max` y) (Some c2) [mkTimer (now + RECONNECT_TIMEOUT) (cl_id c2) Reconnecting Failed]
    (now + 0 `max` x)) c2) as (c3 & Hb & Hi3 & Hp3); [done..|]. cbn [tick] in Hb. rewrite Hb. clear Hb.
  cbn [ck_now ck_call ck_timers ck_since app lookup list_lookup tm_at tm_call tm_phase tm_expiry delete list_delete].
  split_and!; [cbn; by rewrite Hp3|lia|]. rewrite (proj2 (Z.leb_le _ _)) by lia. unfold ck_input.
  rewrite <- Hi3. cbn [ck_call ck_now]. by destruct (expired_ends c3 Reconnecting Failed
    (now + 0 `max` x + 0 `max` y + 0 `max` (RECONNECT_TIMEOUT - x - y)) Hp3) as (t & -> & Ht).
Qed.

(** ** Consent *)

(** The user called [peer]. *)
Definition user_called (ms : list Move) (peer : bytes) : Prop := ∃ c clock, Enter (Start c) clock ∈ ms ∧ cl_peer c = peer.

(** The user picked up the call [id]. *)
Definition user_took (ms : list Move) (id : bytes) : Prop := ∃ clock, Enter (Accept id) clock ∈ ms.

(** A live offer of a paired contact came in. *)
Definition offered (ms : list Move) (id peer : bytes) : Prop :=
  ∃ o clock, Enter (InOffer o) clock ∈ ms ∧ of_call o = id ∧ of_from o = peer ∧ of_paired o = true ∧ offer_expired o = false.

(** Where the call a transition leaves comes from *)
Inductive origin (st : option Call) (i : Input) (c' : Call) : Prop :=
| OrKept c : st = Some c → cl_id c' = cl_id c → cl_peer c' = cl_peer c → (cl_phase c' ≠ Ringing → cl_phase c ≠ Ringing) →
    (cl_phase c' = Offering → cl_phase c = Offering) → origin st i c'
| OrPlaced : i = Start c' → origin st i c'
| OrTaken : i = Accept (cl_id c') → cl_phase c' = Connecting → origin st i c'
| OrRings : cl_phase c' = Ringing → origin st i c'
| OrCrossed c : st = Some c → cl_phase c = Offering → cl_peer c' = cl_peer c → cl_phase c' = Connecting → origin st i c'.

(** What a transition may ask for *)
Definition warranted (st : option Call) (i : Input) (e : Effect) : Prop :=
  match e with
  | StartSession id _ _ =>
      i = Accept id ∨ (∃ c, i = Start c ∧ cl_id c = id) ∨
      (∃ o c, i = InOffer o ∧ of_call o = id ∧ of_paired o = true ∧ offer_expired o = false ∧
              st = Some c ∧ cl_phase c = Offering ∧ cl_peer c = of_from o)
  | Emit (Incoming id peer _ _) => ∃ o, i = InOffer o ∧ of_call o = id ∧ of_from o = peer ∧ of_paired o = true ∧ offer_expired o = false
  | _ => True
  end.

Definition sound (st : option Call) (i : Input) (t : Turn) : Prop :=
  (∀ c', tn_call t = Some c' → origin st i c') ∧ Forall (warranted st i) (tn_fx t).

Lemma sound_stay st i sent fx : Forall (warranted st i) fx → sound st i (mkTurn st sent fx).
Proof. intros Hf. split; [|done]. cbn. intros c Hc. by eapply OrKept. Qed.

Lemma sound_kept c c' i sent fx :
  cl_id c' = cl_id c → cl_peer c' = cl_peer c → (cl_phase c' ≠ Ringing → cl_phase c ≠ Ringing) →
  (cl_phase c' = Offering → cl_phase c = Offering) → Forall (warranted (Some c) i) fx → sound (Some c) i (mkTurn (Some c') sent fx).
Proof. intros ????. split; [|done]. cbn. intros ? [= <-]. by eapply OrKept. Qed.

Lemma sound_finish st i c reason fx clock : Forall (warranted st i) fx → sound st i (finish c reason fx clock).
Proof. intros Hf. split; [done|]. cbn. apply Forall_app. split; [done|]. by repeat constructor. Qed.

Lemma sound_restart c i theirs : sound (Some c) i (begin_restart c theirs).
Proof.
  destruct (begin_restart_call c theirs) as (c' & Hc & Hi & Hp & _ & _ & _ & _ & Hf). split.
  - intros c'' Hc''. rewrite Hc in Hc''. injection Hc'' as <-. apply (OrKept _ _ _ c); naive_solver congruence.
  - destruct Hf as [(_ & _ & ->)|(_ & _ & ->)]; by repeat constructor.
Qed.

Create HintDb call.
#[local] Hint Resolve sound_stay sound_finish sound_restart : call.
#[local] Hint Extern 2 (Forall (warranted _ _) _) => (by repeat constructor) : call.

Lemma sound_signal st msg clock : sound st (InSignal msg) (on_signal_step st msg clock).
Proof.
  destruct msg as [| |call r|call cd|call m|call on|call g uf pw cs|call rs]; cbn; [by apply sound_stay|..];
    destruct (named call st) as [c|] eqn:Hn; try (by apply sound_stay; repeat constructor).
  all: apply named_some in Hn as [-> <-].
  - case_bool_decide; apply sound_stay; by repeat constructor.
  - case_bool_decide as Hp; [|apply sound_stay; by repeat constructor].
    pose proof (offer_remote_call (set_phase Connecting c) r) as Hr. destruct (offer_remote _ _) as [c' sent]. cbn in Hr.
    destruct Hr as (?&?&_&_&_&Hp'&_). apply sound_kept; try done; [congruence..|by repeat constructor].
  - destruct (cl_session c); [by apply sound_stay|]. by apply sound_kept.
  - apply sound_kept; try done. by repeat constructor.
  - destruct (in_media (cl_phase c)); [|by apply sound_stay]. destruct (_ <? g).
    + destruct (sound_restart (set_media (cl_session c) (cl_remote c) (cl_early c) g c) (InSignal (MsgRestart (cl_id c) g uf pw cs))
        (Some (restart_remote c uf pw cs))) as [Ho Hf]. split.
      * intros c' Hc'. destruct (Ho c' Hc') as [c0 Hc0| | | |c0 Hc0]; try done; [|by apply OrRings|].
        -- injection Hc0 as <-. by apply (OrKept _ _ _ c).
        -- injection Hc0 as <-. by apply (OrCrossed _ _ _ c).
      * eapply Forall_impl; [exact Hf|]. intros [| | | | | | |]; cbn; try done; naive_solver.
    + pose proof (offer_remote_call c (restart_remote c uf pw cs)) as Hr. destruct (offer_remote _ _) as [c' sent]. cbn in Hr.
      destruct Hr as (?&?&_&_&_&Hp'&_). apply sound_kept; try done; congruence.
  - by apply sound_finish.
Qed.

Lemma sound_offer st o : sound st (InOffer o) (on_offer st o).
Proof.
  unfold on_offer. destruct (of_paired o) eqn:Hpa; cbn; [|by apply sound_stay].
  destruct (offer_expired o) eqn:Hex; [apply sound_stay; by repeat constructor|]. destruct st as [c|].
  - case_bool_decide; [by apply sound_stay|]. destruct (bool_decide (cl_phase c = Offering)) eqn:Hp; cbn; [|apply sound_stay; by repeat constructor].
    destruct (bool_decide (cl_peer c = of_from o)) eqn:Hpe; [|apply sound_stay; by repeat constructor]. breflect.
    case_bool_decide; [|by apply sound_stay]. split.
    + intros c' [= <-]. by apply (OrCrossed _ _ _ c).
    + cbn. rewrite !Forall_cons. split_and!; try done. cbn. right. right. by exists o, c.
  - destruct (of_media o); [|by apply sound_stay]. split; [intros c' [= <-]; by apply OrRings|].
    cbn. rewrite !Forall_cons. split_and!; try done. cbn. eauto 10.
Qed.

Lemma sound_step st i clock t : step st i clock = Ok t → sound st i t.
Proof.
  intros Hs. destruct i as [c|id|id|id|m|on| |o|msg|id p e|id ev now|id]; cbn in Hs.
  - destruct st; [done|]. simplify_eq. split; [intros ? [= <-]; by apply OrPlaced|]. cbn. rewrite !Forall_cons. split_and!; try done. cbn. eauto.
  - destruct (named id st) as [c|] eqn:Hn; [|done]. apply named_some in Hn as [-> <-]. case_bool_decide; [|done]. simplify_eq.
    split; [intros ? [= <-]; by apply OrTaken|]. cbn. rewrite !Forall_cons. split_and!; try done. cbn. eauto.
  - simplify_eq. destruct (named id st); [|by apply sound_stay]. case_bool_decide; [auto with call|by apply sound_stay].
  - simplify_eq. destruct (named id st); [|by apply sound_stay]. destruct (hangup_reason _). auto with call.
  - simplify_eq. destruct st; [|by apply sound_stay]. apply sound_kept; try done. destruct (in_media _); auto with call.
  - simplify_eq. apply sound_stay. destruct st as [c|]; [|done]. destruct (_ && _); auto with call.
  - simplify_eq. destruct st as [c|]; [|by apply sound_stay]. destruct (in_media _); [apply sound_restart|by apply sound_stay].
  - simplify_eq. apply sound_offer.
  - simplify_eq. apply sound_signal.
  - simplify_eq. destruct (named id st); [|by apply sound_stay]. case_bool_decide; [|by apply sound_stay]. unfold on_expiry. destruct e; auto with call.
  - simplify_eq. unfold on_session_event. destruct (named id st) as [c|] eqn:Hn; [|by apply sound_stay].
    apply named_some in Hn as [-> <-]. destruct ev; try (apply sound_stay; by repeat constructor).
    + apply sound_stay. destruct (local_msg _ _ _ _); auto with call.
    + destruct (cl_phase c) eqn:Hp; try (by apply sound_stay); apply sound_kept; cbn; try done; try congruence; by repeat constructor.
    + case_bool_decide; [apply sound_restart|by apply sound_stay].
    + destruct (in_media _); [apply sound_restart|by apply sound_stay].
    + auto with call.
  - simplify_eq. destruct (named id st); [auto with call|by apply sound_stay].
Qed.

(** Where the sessions, the rings and the call of a run come from *)
Definition consented (ms : list Move) (s : option Call * list Effect) : Prop :=
  (∀ c, s.1 = Some c →
     (cl_phase c = Offering → user_called ms (cl_peer c)) ∧
     (cl_phase c ≠ Ringing → user_called ms (cl_peer c) ∨ user_took ms (cl_id c))) ∧
  (∀ id role video, StartSession id role video ∈ s.2 →
     user_took ms id ∨ (∃ c clock, Enter (Start c) clock ∈ ms ∧ cl_id c = id) ∨
     (∃ peer, offered ms id peer ∧ user_called ms peer)) ∧
  (∀ id peer conversation video, Emit (Incoming id peer conversation video) ∈ s.2 → offered ms id peer).

(** Consent is not forgotten as the run goes on. *)
Lemma consented_grows ms m s : consented ms s → consented (ms ++ [m]) s.
Proof.
  unfold consented, user_called, user_took, offered. setoid_rewrite elem_of_app.
  intros (Hc & Hs & Hi). split_and!; [intros c Hst; destruct (Hc c Hst)|intros * H; destruct (Hs _ _ _ H)|intros * H; destruct (Hi _ _ _ _ H)];
    naive_solver.
Qed.

Lemma here ms (m : Move) : m ∈ ms ++ [m].
Proof. apply elem_of_app. right. left. Qed.

Lemma enter_consented ms i clock st fx t :
  step st i clock = Ok t → consented ms (st, fx) → consented (ms ++ [Enter i clock]) (tn_call t, fx ++ tn_fx t).
Proof.
  intros Hst (Hc & Hx & Hy)%(consented_grows _ (Enter i clock)). cbn in Hc. destruct (sound_step _ _ _ _ Hst) as [Ho Hw].
  rewrite Forall_forall in Hw. split; [|split]; cbn.
  - intros c' Hc'. destruct (Ho c' Hc') as [c Hs Hi Hp Hr Hof| -> | -> Hp | Hp | c Hs Hpc Hpe Hp].
    + destruct (Hc c Hs) as [Hc1 Hc2]. rewrite Hi, Hp. split; intros H; [by apply Hc1, Hof|by apply Hc2, Hr].
    + assert (user_called (ms ++ [Enter (Start c') clock]) (cl_peer c')) by (exists c', clock; split; [apply here|done]). auto.
    + split; [congruence|]. intros _. right. exists clock. apply here.
    + split; congruence.
    + split; [congruence|]. intros _. left. rewrite Hpe. by apply (Hc c Hs).
  - intros id role video [H|H]%elem_of_app; [by eapply Hx|].
    destruct (Hw _ H) as [->|[(c & -> & <-)|(o & c & -> & <- & Hpa & Hex & Hs & Hp & Hpe)]].
    + left. exists clock. apply here.
    + right. left. exists c, clock. split; [apply here|done].
    + right. right. exists (of_from o). split; [exists o, clock; split_and!; try done; apply here|].
      rewrite <- Hpe. by apply (Hc c Hs).
  - intros id peer conv video [H|H]%elem_of_app; [by eapply Hy|].
    destruct (Hw _ H) as (o & -> & <- & <- & Hpa & Hex). exists o, clock. split_and!; try done. apply here.
Qed.

Lemma attach_call st id c' :
  tn_call (attach_session st id) = Some c' → ∃ c, st = Some c ∧ cl_id c' = cl_id c ∧ cl_peer c' = cl_peer c ∧ cl_phase c' = cl_phase c.
Proof.
  unfold attach_session. destruct (named id st) as [c|] eqn:Hn; [|cbn; by exists c'].
  apply named_some in Hn as [-> _]. cbn. destruct (cl_remote c); cbn; intros [= <-]; by exists c.
Qed.

(** C22: No call without consent.  In every run of a device, however its inputs interleave: a
    media session starts only for a call the user placed or picked up, or for the offer of a
    paired contact whom the user called; the phone rings only for an offer of a paired
    contact that has not expired; and a call that is past ringing is one the user picked up, or
    one with a peer the user called. *)
Theorem no_call_without_consent ms : consented ms (serially ms).
Proof.
  induction ms as [|m ms IH] using rev_ind; [split_and!; [done|intros * H; by apply elem_of_nil in H..]|].
  unfold serially in *. rewrite foldl_app. cbn. destruct (foldl serial (None, []) ms) as [st fx].
  destruct m as [i clock|id|k|k|]; cbn; try by apply consented_grows.
  - destruct (step st i clock) as [t|e] eqn:Hs; [by eapply enter_consented|by apply consented_grows].
  - destruct (consented_grows _ (Attach id) _ IH) as [Hc Hx]. split; [|done]. cbn in *. intros c' Hc'.
    apply attach_call in Hc' as (c & Hst & -> & -> & ->). by apply Hc.
Qed.

(** ** Crossed offers *)

(** The call an input leaves, and what it asks for *)
Definition after (st : option Call) (i : Input) (clock : Z) : option Call :=
  match step st i clock with Ok t => tn_call t | Err _ => st end.
Definition asks (st : option Call) (i : Input) (clock : Z) : list Effect :=
  match step st i clock with Ok t => tn_fx t | Err _ => [] end.

(** The device is connecting the call [id] with [peer], by the parameters [remote]. *)
Definition joining (st : option Call) (id peer : bytes) (remote : Remote) : Prop :=
  ∃ c, st = Some c ∧ cl_id c = id ∧ cl_peer c = peer ∧ cl_phase c = Connecting ∧ cl_remote c = Some remote.

Lemma live_offer o : of_now_ms o ≤ of_expires_at_ms o → of_expires_at_ms o + CLOCK_SKEW_MS ≤ u64_max → offer_expired o = false.
Proof. unfold offer_expired, sat_add, CLOCK_SKEW_MS. lia. Qed.

(** The higher key takes the lower key's call, and answers it once gathered. *)
Lemma higher_yields c o p candidates now_ms clock (b1 := tn_call (on_offer (Some c) o)) (b2 := tn_call (attach_session b1 (of_call o))) :
  of_paired o = true → offer_expired o = false → cl_id c ≠ of_call o → cl_phase c = Offering → cl_peer c = of_from o →
  bytes_lt (of_from o) (of_me o) →
  joining b2 (of_call o) (of_from o) (of_remote o) ∧
  on_session_event b2 (of_call o) (EvLocal p candidates) now_ms clock =
    mkTurn b2 [] [Signal (of_conversation o) (MsgAnswer (of_call o) (remote_of p candidates))].
Proof.
  intros Hpa Hex Hid Hp Hpe Hlt. subst b2 b1. unfold on_offer. rewrite Hpa, Hex.
  rewrite (bool_decide_false (cl_id c = of_call o)), (bool_decide_true (cl_phase c = Offering)), (bool_decide_true (cl_peer c = of_from o)),
    (bool_decide_true (bytes_lt _ _)) by done.
  unfold attach_session. cbn [tn_call negb andb].
  assert (named (of_call o) (Some (incoming o Connecting (cl_muted c))) = Some (incoming o Connecting (cl_muted c))) as -> by apply named_self.
  cbn. split; [by eexists|]. unfold on_session_event. cbn. by rewrite bool_decide_true.
Qed.

(** The lower key keeps its call. *)
Lemma lower_keeps c o :
  of_paired o = true → offer_expired o = false → cl_id c ≠ of_call o → cl_phase c = Offering → cl_peer c = of_from o →
  ¬ bytes_lt (of_from o) (of_me o) → on_offer (Some c) o = stay (Some c).
Proof.
  intros Hpa Hex Hid Hp Hpe Hlt. unfold on_offer. rewrite Hpa, Hex.
  by rewrite (bool_decide_false (cl_id c = of_call o)), (bool_decide_true (cl_phase c = Offering)), (bool_decide_true (cl_peer c = of_from o)),
    (bool_decide_false (bytes_lt _ _)) by done.
Qed.

(** A call under way refuses another one. *)
Lemma under_way_refuses c o :
  of_paired o = true → offer_expired o = false → cl_id c ≠ of_call o → cl_phase c ≠ Offering →
  on_offer (Some c) o = mkTurn (Some c) [] [Signal (of_conversation o) (MsgEnd (of_call o) EndBusy)].
Proof.
  intros Hpa Hex Hid Hp. unfold on_offer. rewrite Hpa, Hex.
  by rewrite (bool_decide_false (cl_id c = of_call o)), (bool_decide_false (cl_phase c = Offering)) by done.
Qed.

(** The caller takes the answer. *)
Lemma answer_joins c r clock : cl_phase c = Offering → joining (tn_call (on_signal_step (Some c) (MsgAnswer (cl_id c) r) clock)) (cl_id c) (cl_peer c) r.
Proof.
  intros Hp. cbn [on_signal_step]. rewrite named_self, bool_decide_true by done.
  pose proof (offer_remote_call (set_phase Connecting c) r) as Hr. destruct (offer_remote _ _) as [c' sent].
  cbn in Hr. destruct Hr as (Hi & Hpe & _ & _ & _ & Hph & _ & Hre & _). by exists c'.
Qed.

(** C23: Two users who call each other at once end up in one call.  Device [a], with the lower
    identity key, offers the call [ca] to [b] while [b] offers [cb] to [a], and each offer
    reaches the other device before it expires.  Device [b] drops its own call for [ca] and, once
    its session has gathered, answers it.  Device [a] keeps [ca] and takes the answer, whether the
    offer of [b] comes before the answer or after it; coming after, it is refused as busy, which
    [b] ignores, as it names a call [b] has left.  Both devices then connect the call [ca], each
    with the parameters the other sent. *)
Theorem crossed_offers_agree (a b : bytes) ca cb ea eb va vb ra rb p candidates conv_a conv_b now_a now_b clock media
  (at_b := input_of a conv_b (Some b) true media now_b (MsgOffer (cl_id ca) ea va ra))
  (at_a := input_of b conv_a (Some a) true media now_a (MsgOffer (cl_id cb) eb vb rb))
  (gathered := Session (cl_id ca) (EvLocal p candidates) now_b)
  (answer := MsgAnswer (cl_id ca) (remote_of p candidates))
  (b1 := tn_call (attach_session (after (Some cb) at_b clock) (cl_id ca))) (b2 := after b1 gathered clock)
  (a1 := after (Some ca) at_a clock) (a1' := after (Some ca) (InSignal answer) clock) :
  bytes_lt a b → cl_id ca ≠ cl_id cb →
  cl_phase ca = Offering → cl_peer ca = b → cl_phase cb = Offering → cl_peer cb = a →
  now_b ≤ ea → ea + CLOCK_SKEW_MS ≤ u64_max → now_a ≤ eb → eb + CLOCK_SKEW_MS ≤ u64_max →
  asks b1 gathered clock = [Signal conv_b answer] ∧ joining b2 (cl_id ca) a ra ∧
  joining (after a1 (InSignal answer) clock) (cl_id ca) b (remote_of p candidates) ∧
  after a1' at_a clock = after a1 (InSignal answer) clock ∧
  asks a1' at_a clock = [Signal conv_a (MsgEnd (cl_id cb) EndBusy)] ∧ after b2 (InSignal (MsgEnd (cl_id cb) EndBusy)) clock = b2.
Proof.
  intros Hlt Hid Hpa Hpea Hpb Hpeb Hea Heam Heb Hebm.
  assert (¬ bytes_lt b a) as Hnlt by (intros H; eapply (irreflexivity bytes_lt a); by etrans).
  pose (ob := mkOffer a conv_b (cl_id ca) ea va ra true b now_b media).
  pose (oa := mkOffer b conv_a (cl_id cb) eb vb rb true a now_a media).
  assert (offer_expired ob = false) as Hxb by by apply live_offer.
  assert (offer_expired oa = false) as Hxa by by apply live_offer.
  destruct (higher_yields cb ob p candidates now_b clock) as [Hjb Hev]; [done..|].
  change (tn_call (attach_session _ (of_call ob))) with b1 in Hjb, Hev.
  assert (a1 = Some ca) as Ha1 by (subst a1; unfold after; change at_a with (InOffer oa); cbn [step]; by rewrite (lower_keeps ca oa)).
  pose proof (answer_joins ca (remote_of p candidates) clock Hpa) as Hja. fold answer in Hja. rewrite Hpea in Hja.
  change (tn_call (on_signal_step (Some ca) answer clock)) with a1' in Hja.
  assert (b2 = b1) as Hb2 by (subst b2; unfold after; cbn [step gathered]; change (cl_id ca) with (of_call ob); by rewrite Hev).
  pose proof Hja as (ca' & Ha' & Hi & _ & Hp & _). pose proof Hjb as (cb' & Hb' & Hib & _).
  assert (step a1' at_a clock = Ok (mkTurn (Some ca') [] [Signal conv_a (MsgEnd (cl_id cb) EndBusy)])) as Hlate.
  { rewrite Ha'. change at_a with (InOffer oa). cbn [step]. by rewrite (under_way_refuses ca' oa) by (cbn; congruence). }
  split_and!.
  - unfold asks. cbn [step gathered]. change (cl_id ca) with (of_call ob). by rewrite Hev.
  - by rewrite Hb2.
  - by rewrite Ha1.
  - unfold after at 1. by rewrite Hlate, Ha1, <- Ha'.
  - unfold asks. by rewrite Hlate.
  - rewrite Hb2, Hb'. unfold after. cbn. rewrite bool_decide_false; [done|]. cbn in Hib. congruence.
Qed.
