(* ===== verification/CallRestart.v ===== *)
(** * CallRestart: restarts of both ends settle

    Two devices in a call, each of which may lose its path, change network or renew its relay
    credentials at any time.  Each restart makes the session gather afresh, and what it
    gathered goes to the other end as a [Restart] of the round it belongs to (the generation
    of libcore/src/call/mod.rs).  Signals between the two are delivered in order. *)

From S2P Require Import Prelude Verdict Bytes Call.

#[local] Open Scope Z_scope.

(** ** The two ends *)

(** One end: its call, how often its session has yet to report what it gathered, the signals on
    their way to the other end, the credentials it announced last, and how often it restarted. *)
Record End := mkEnd {
  en_call : Call;
  en_owed : nat;
  en_out : list CallMsg;
  en_last : option (bytes * bytes);
  en_restarts : nat;
}.

Definition signal_of (e : Effect) : option CallMsg := match e with Signal _ m => Some m | _ => None end.

Definition restarts_in (sent : list Cmd) : nat := length (omap (λ cmd, match cmd with CmdRestart => Some () | _ => None end) sent).

(** An input at one end; [Event::Local] comes once per restart. *)
Definition en_input (i : Input) (clock : Z) (e : End) : End :=
  match step (Some (en_call e)) i clock with
  | Ok t =>
      mkEnd (default (en_call e) (tn_call t)) (en_owed e + restarts_in (tn_sent t)) (en_out e ++ omap signal_of (tn_fx t)) (en_last e)
        (en_restarts e + restarts_in (tn_sent t))
  | Err _ => e
  end.

Inductive Hop :=
| Moved (clock : Z)
| Lost (clock : Z)
| Renew (clock : Z)
| Recover (clock : Z)
| Gather (p : Params) (candidates : list CallCandidate) (clock : Z)
| Hear (clock : Z).

(** The end [x.1] acts; it hears from [x.2]. *)
Definition act (h : Hop) (x : End * End) : End * End :=
  let '(own, other) := x in
  let session ev clock := en_input (Session (cl_id (en_call own)) ev 0) clock own in
  match h with
  | Moved clock => (en_input NetworkChanged clock own, other)
  | Lost clock => (session EvDisconnected clock, other)
  | Renew clock => (session EvExpiring clock, other)
  | Recover clock => (session EvConnected clock, other)
  | Gather p candidates clock =>
      match en_owed own with
      | S n =>
          let e := session (EvLocal p candidates) clock in
          (mkEnd (en_call e) n (en_out e) (Some (pm_ufrag p, pm_pwd p)) (en_restarts e), other)
      | O => x
      end
  | Hear clock =>
      match en_out other with
      | m :: out => (en_input (InSignal m) clock own, mkEnd (en_call other) (en_owed other) out (en_last other) (en_restarts other))
      | [] => x
      end
  end.

Definition swap (x : End * End) : End * End := (x.2, x.1).

(** [true] acts first in the pair, [false] second. *)
Definition hop (x : End * End) (h : bool * Hop) : End * End := if h.1 then act h.2 x else swap (act h.2 (swap x)).

Definition hops (x : End * End) (hs : list (bool * Hop)) : End * End := foldl hop x hs.

(** A disturbance of one end's own: what may open a round *)
Definition disturbs (h : Hop) : bool := match h with Moved _ | Lost _ | Renew _ => true | _ => false end.

Fixpoint disturbances (hs : list (bool * Hop)) : Z :=
  match hs with [] => 0 | (_, h) :: hs => (if disturbs h then 1 else 0) + disturbances hs end.

Definition fresh (c : Call) : End := mkEnd c 0 [] None 0.

Definition gen (e : End) : Z := cl_restart_gen (en_call e).

Definition creds (r : Remote) : bytes * bytes := (rm_ufrag r, rm_pwd r).

(** Nothing gathered is unannounced, nothing announced is undelivered. *)
Definition quiet (e : End) : Prop := en_owed e = 0%nat ∧ en_out e = [].

(** ** The invariant *)

Record up (id : bytes) (g0 most : Z) (e : End) : Prop := mkUp {
  up_id : cl_id (en_call e) = id;
  up_media : in_media (cl_phase (en_call e)) = true;
  up_session : cl_session (en_call e) = true;
  up_gen : g0 ≤ gen e ≤ most;
  up_restarts : Z.of_nat (en_restarts e) ≤ gen e - g0;
  up_out : Forall (λ m, ∃ g u w cs, m = MsgRestart id g u w cs ∧ g ≤ gen e) (en_out e);
}.

(** The other end is in our round, or will hear of it. *)
Definition told (own other : End) : Prop :=
  gen own ≤ gen other ∨ (0 < en_owed own)%nat ∨ ∃ u w cs, MsgRestart (cl_id (en_call own)) (gen own) u w cs ∈ en_out own.

(** The other end has the credentials we announced last, or they are the last under way. *)
Definition known (own other : End) : Prop :=
  match en_last own with
  | None => en_out own = []
  | Some uw =>
      match last (en_out own) with
      | Some m => ∃ id g cs, m = MsgRestart id g uw.1 uw.2 cs
      | None => creds <$> cl_remote (en_call other) = Some uw
      end
  end.

Definition good (id : bytes) (g0 most : Z) (x : End * End) : Prop :=
  up id g0 most x.1 ∧ up id g0 most x.2 ∧ told x.1 x.2 ∧ told x.2 x.1 ∧ known x.1 x.2 ∧ known x.2 x.1.

Lemma good_swap id g0 most x : good id g0 most x → good id g0 most (swap x).
Proof. intros (?&?&?&?&?&?). by split_and!. Qed.

Lemma up_more id g0 most most' e : most ≤ most' → up id g0 most e → up id g0 most' e.
Proof. intros Hm []. constructor; try done. lia. Qed.

(** ** What one end does *)

Lemma restarts_in_app l l' : restarts_in (l ++ l') = (restarts_in l + restarts_in l')%nat.
Proof. unfold restarts_in. by rewrite omap_app, length_app. Qed.

Lemma restarts_in_candidates l : restarts_in (CmdCandidate <$> l) = 0%nat.
Proof. induction l as [|c l IH]; [done|]. exact IH. Qed.

(** Our own round: the generation rises, and the peer's credentials stay. *)
Lemma own_restart c t :
  begin_restart c None = t → cl_session c = true → in_media (cl_phase c) = true →
  ∃ c', tn_call t = Some c' ∧ cl_id c' = cl_id c ∧ in_media (cl_phase c') = true ∧ cl_session c' = true ∧
    cl_restart_gen c' = (cl_restart_gen c + 1) `mod` 2 ^ 32 ∧ creds <$> cl_remote c' = creds <$> cl_remote c ∧
    restarts_in (tn_sent t) = 1%nat ∧ omap signal_of (tn_fx t) = [].
Proof.
  intros <- Hs Hm. unfold begin_restart. destruct (bool_decide _); cbn -[Z.pow Z.modulo]; eexists; unfold send; cbn -[Z.pow Z.modulo];
    rewrite Hs; split_and!; try done; by destruct (cl_remote c).
Qed.

(** A peer's announcement: we join its round if it is ahead, and take its credentials. *)
Lemma hear_restart c g u w cs clock t :
  on_signal_step (Some c) (MsgRestart (cl_id c) g u w cs) clock = t → cl_session c = true → in_media (cl_phase c) = true →
  ∃ c', tn_call t = Some c' ∧ cl_id c' = cl_id c ∧ in_media (cl_phase c') = true ∧ cl_session c' = true ∧
    cl_restart_gen c' = Z.max g (cl_restart_gen c) ∧ creds <$> cl_remote c' = Some (u, w) ∧
    restarts_in (tn_sent t) = (if cl_restart_gen c <? g then 1%nat else 0%nat) ∧ omap signal_of (tn_fx t) = [].
Proof.
  intros <- Hs Hm. cbn [on_signal_step]. rewrite named_self, Hm. destruct (cl_restart_gen c <? g) eqn:Hg.
  - unfold begin_restart, offer_remote, send. cbn [cl_phase set_media].
    destruct (bool_decide _); cbn; rewrite Hs; cbn; eexists; split_and!; try done; cbn; lia.
  - unfold offer_remote. rewrite Hs. cbn. eexists. split_and!; try done; [cbn; lia|].
    pose proof (restarts_in_candidates (cl_early c)) as Hr. exact Hr.
Qed.

(** ** Each hop keeps the invariant *)

(** An end that opens a round of its own, or does nothing *)
Lemma disturb_good id g0 most own other own' :
  0 ≤ g0 → most + 1 < 2 ^ 32 → good id g0 most (own, other) →
  (own' = own ∨ ∃ c' t, begin_restart (en_call own) None = t ∧ tn_call t = Some c' ∧
     own' = mkEnd c' (en_owed own + restarts_in (tn_sent t)) (en_out own ++ omap signal_of (tn_fx t)) (en_last own) (en_restarts own + restarts_in (tn_sent t))) →
  good id g0 (most + 1) (own', other).
Proof.
  intros Hg0 Hm (Hu & Hu' & Ht & Ht' & Hk & Hk') [->|(c' & t & Ht0 & Hc' & ->)].
  { split_and!; try done; eapply up_more; [|done| |done]; lia. }
  destruct Hu as [Hi Hme Hse Hge Hre Hou].
  destruct (own_restart _ _ Ht0 Hse Hme) as (c'' & Hc'' & Hi' & Hm' & Hs' & Hg' & Hr' & -> & ->).
  rewrite Hc' in Hc''. injection Hc'' as <-. rewrite app_nil_r. unfold gen in *. cbn [fst snd] in *.
  rewrite Z.mod_small in Hg' by lia.
  assert (up id g0 (most + 1) (mkEnd c' (en_owed own + 1) (en_out own) (en_last own) (en_restarts own + 1))) as Hup.
  { constructor; unfold gen; cbn; try congruence; try lia. eapply Forall_impl; [exact Hou|]. intros m (g & u & w & cs & -> & ?).
    exists g, u, w, cs. split; [done|]. lia. }
  split_and!; cbn; [done|by apply (up_more _ _ most); [lia|]| | |done|].
  - right. left. cbn. lia.
  - unfold told, gen in *. cbn. destruct Ht' as [H|[H|H]]; [left; cbn in H; lia|by right; left|by right; right].
  - unfold known in *. cbn. by rewrite Hr'.
Qed.

(** Media comes back. *)
Lemma recover_good id g0 most own other c' :
  good id g0 most (own, other) → cl_id c' = cl_id (en_call own) → in_media (cl_phase c') = true → cl_session c' = cl_session (en_call own) →
  cl_restart_gen c' = cl_restart_gen (en_call own) → cl_remote c' = cl_remote (en_call own) →
  good id g0 most (mkEnd c' (en_owed own) (en_out own) (en_last own) (en_restarts own), other).
Proof.
  intros ([] & Hu' & Ht & Ht' & Hk & Hk') Hi Hm Hs Hg Hr. unfold good, told, known, gen in *. cbn in *.
  rewrite Hi, Hg, Hr. split_and!; try done. constructor; unfold gen; cbn; rewrite ?Hg; congruence || done.
Qed.

(** The session has gathered: we announce our round. *)
Lemma gather_good id g0 most own other n u w cs :
  good id g0 most (own, other) →
  good id g0 most (mkEnd (en_call own) n (en_out own ++ [MsgRestart (cl_id (en_call own)) (gen own) u w cs]) (Some (u, w)) (en_restarts own), other).
Proof.
  intros ([] & Hu' & Ht & Ht' & Hk & Hk'). unfold good, told, known, gen in *. cbn in *. split_and!; try done.
  - constructor; unfold gen; cbn; try done. apply Forall_app. split; [done|]. constructor; [|done].
    do 4 eexists. split; [by rewrite up_id0|]. done.
  - right. right. do 3 eexists. apply elem_of_app. right. left.
  - rewrite last_snoc. by do 3 eexists.
Qed.

(** The other end's announcement arrives. *)
Lemma hear_good id g0 most own other m out clock t c' :
  good id g0 most (own, other) → en_out other = m :: out → on_signal_step (Some (en_call own)) m clock = t → tn_call t = Some c' →
  good id g0 most
    (mkEnd c' (en_owed own + restarts_in (tn_sent t)) (en_out own ++ omap signal_of (tn_fx t)) (en_last own) (en_restarts own + restarts_in (tn_sent t)),
     mkEnd (en_call other) (en_owed other) out (en_last other) (en_restarts other)).
Proof.
  intros (Hu & Hu' & Ht & Ht' & Hk & Hk') Hout Hst Hc'. destruct Hu as [Hi Hme Hse Hge Hre Hou]. destruct Hu' as [Hi' Hme' Hse' Hge' Hre' Hou'].
  cbn [fst snd] in *. rewrite Hout in Hou'. apply Forall_cons in Hou' as [(g & u & w & cs & -> & Hg) Hou']. rewrite <- Hi in Hst.
  destruct (hear_restart _ _ _ _ _ _ _ Hst Hse Hme) as (c'' & Hc'' & Hci & Hcm & Hcs & Hcg & Hcr & -> & ->).
  rewrite Hc' in Hc''. injection Hc'' as <-. rewrite app_nil_r. unfold good, told, known, gen in *. cbn [fst snd en_call en_owed en_out en_last en_restarts].
  rewrite Hcg, Hcr, Hci. cbn. split_and!.
  - constructor; unfold gen; cbn; rewrite ?Hcg; try congruence; try lia; try (destruct (_ <? _) eqn:Hlt; lia).
    eapply Forall_impl; [exact Hou|]. intros m (g' & u' & w' & cs' & -> & ?). do 4 eexists. split; [done|]. lia.
  - by constructor.
  - destruct (cl_restart_gen (en_call own) <? g) eqn:Hlt; [left; lia|].
    replace (g `max` cl_restart_gen (en_call own)) with (cl_restart_gen (en_call own)) by lia. rewrite Nat.add_0_r. exact Ht.
  - destruct Ht' as [H|[H|(u' & w' & cs' & H)]]; [left; cbn in H; lia|by right; left|].
    cbn in H. rewrite Hout in H. apply elem_of_cons in H as [H|H]; [injection H as _ <- _ _ _; left; lia|]. right. right. eauto.
  - exact Hk.
  - cbn in Hk'. rewrite Hout in Hk'. destruct (en_last other) as [uw|]; [|done].
    destruct out as [|m' out]; [cbn in *|cbn [last] in *; destruct (last (m' :: out)) eqn:Hl; [exact Hk'|by apply last_None in Hl]]. destruct Hk' as (? & ? & ? & [=]). subst. by destruct uw.
Qed.

(** ** Runs *)

Lemma act_good id g0 most own other h :
  0 ≤ g0 → most + 1 < 2 ^ 32 → good id g0 most (own, other) →
  good id g0 (if disturbs h then most + 1 else most) (act h (own, other)).
Proof.
  intros Hg0 Hm Hg. pose proof Hg as ([Hi Hme Hse _ _ _] & _). cbn [fst] in *.
  assert (∀ clock, begin_restart (en_call own) None = clock → ∃ c', tn_call clock = Some c') as Hb.
  { intros t Ht. destruct (own_restart _ _ Ht Hse Hme) as (c' & ? & _). by exists c'. }
  destruct (Hb _ eq_refl) as [cb Hcb].
  destruct h as [clock|clock|clock|clock|p cs clock|clock]; cbn [act disturbs].
  - apply (disturb_good _ _ _ own); [done..|]. right. exists cb. eexists. split_and!; [done..|].
    unfold en_input. cbn [step]. by rewrite Hme, Hcb.
  - apply (disturb_good _ _ _ own); [done..|]. unfold en_input. cbn [step]. unfold on_session_event. rewrite named_self.
    case_bool_decide; [right; exists cb; eexists; split_and!; [done..|]; by rewrite Hcb|].
    left. destruct own. cbn. by rewrite !Nat.add_0_r, app_nil_r.
  - apply (disturb_good _ _ _ own); [done..|]. right. exists cb. eexists. split_and!; [done..|].
    unfold en_input. cbn [step]. unfold on_session_event. by rewrite named_self, Hme, Hcb.
  - unfold en_input. cbn [step]. unfold on_session_event. rewrite named_self.
    destruct (cl_phase (en_call own)) eqn:Hp; try done; cbn [tn_call tn_sent tn_fx stay restarts_in default omap list_omap signal_of length];
      rewrite !Nat.add_0_r, app_nil_r; apply recover_good; try done; unfold Datatypes.id; by rewrite Hp.
  - destruct (en_owed own) as [|n] eqn:Hn; [done|]. unfold en_input. cbn [step]. unfold on_session_event. rewrite named_self.
    unfold local_msg. destruct (cl_phase (en_call own)) eqn:Hp; try done;
      cbn [tn_call tn_sent tn_fx restarts_in default omap list_omap signal_of length en_call en_out en_restarts];
      rewrite Nat.add_0_r; by apply gather_good.
  - destruct (en_out other) as [|m out] eqn:Ho; [done|]. unfold en_input. cbn [step].
    pose proof Hg as (_ & [_ _ _ _ _ Hou] & _). cbn [snd] in Hou. rewrite Ho in Hou.
    apply Forall_cons in Hou as [(g & u & w & cs & -> & _) _].
    destruct (hear_restart (en_call own) g u w cs clock _ eq_refl Hse Hme) as (c' & Hc' & _). rewrite Hi in Hc'. rewrite Hc'.
    eapply hear_good; done.
Qed.

Lemma disturbances_pos hs : 0 ≤ disturbances hs.
Proof. induction hs as [|[who h] hs IH]; cbn; [done|]. destruct (disturbs h); lia. Qed.

Lemma hops_good id g0 most x hs :
  0 ≤ g0 → most + disturbances hs < 2 ^ 32 - 1 → good id g0 most x → good id g0 (most + disturbances hs) (hops x hs).
Proof.
  intros Hg0. revert most x. induction hs as [|[who h] hs IH]; intros most [a b] Hm Hx; cbn [disturbances hops foldl] in *.
  { by rewrite Z.add_0_r. }
  pose proof (disturbances_pos hs) as Hpos. fold (hops (hop (a, b) (who, h)) hs).
  assert (good id g0 (most + if disturbs h then 1 else 0) (hop (a, b) (who, h))) as Hh.
  { replace (most + if disturbs h then 1 else 0) with (if disturbs h then most + 1 else most) by (destruct (disturbs h); lia).
    assert (most + 1 < 2 ^ 32) by (destruct (disturbs h); lia).
    destruct who; unfold hop; cbn [fst snd]; [by apply act_good|]. by apply good_swap, act_good, (good_swap _ _ _ (a, b)). }
  rewrite Z.add_assoc. apply IH; [lia|done].
Qed.

Lemma fresh_good a b :
  cl_id a = cl_id b → in_media (cl_phase a) = true → in_media (cl_phase b) = true → cl_session a = true → cl_session b = true →
  cl_restart_gen a = cl_restart_gen b → good (cl_id a) (cl_restart_gen a) (cl_restart_gen a) (fresh a, fresh b).
Proof.
  intros. split_and!; try done; try (constructor; unfold gen; cbn; (done || lia)); left; unfold gen; cbn; lia.
Qed.

