(* ===== verification/CallExamples.v ===== *)
(** * CallExamples: calls at work

    Concrete calls: two users who call each other at once, a call whose path drops twice, and
    two ends that change network in the same moment. *)

From S2P Require Import Prelude Verdict Bytes Call CallScreen CallScreenProps CallProps CallRestart.

#[local] Open Scope Z_scope.

Module Talks.

Definition low : bytes := [3].
Definition high : bytes := [7].
Definition chat : bytes := [9].
Definition first : bytes := [1].
Definition second : bytes := [2].

Definition remote (ufrag : Z) : Remote := mkRemote [ufrag] [4] [5] 11 0 [].
Definition params (ufrag : Z) : Params := mkParams [ufrag] [6] [5] 11 0.

(** The call [start] places *)
Definition placed_call (id peer : bytes) (video : bool) : Call :=
  mkCall id peer chat true video Offering None false false false None [] 0.

Definition talking (id peer : bytes) (r : Remote) : Call :=
  mkCall id peer chat true false Connected (Some 0) false false true (Some r) [] 0.

(** [high] calls [low]; while its effects are still queued, the offer of [low] comes in. *)
Definition crossing : list Move :=
  [Enter (Start (placed_call first low true)) 0; Take 0;
   Enter (input_of low chat (Some high) true true 1000 (MsgOffer second 40000 false (remote 1))) 1; Run 0;
   ToggleMute; Take 0; Run 0; Take 0; Run 0; Take 0; Run 0; Attach second; Take 0; Run 0; Take 0; Run 0; Take 0; Run 0; Take 0].

(** The call of [low], being answered *)
Definition answering : Call := mkCall second low chat false false Connecting None false false true (Some (remote 1)) [] 0.


(** A call rings for nobody; 44 seconds on, it still rings, and only for one second more. *)
Definition unanswered : list Tick := [In (Start (placed_call first low false)); Pass 44000].

Lemma no_call_hangs_witness :
  ck_call (ticks (mkClocked 0 None [] 0) unanswered) = Some (placed_call first low false) ∧
  ck_now (ticks (mkClocked 0 None [] 0) unanswered) - ck_since (ticks (mkClocked 0 None [] 0) unanswered) < RING_TIMEOUT ∧
  ck_call (ticks (mkClocked 0 None [] 0) (unanswered ++ [Pass 1000; Fire 0])) = None.
Proof.
  split; [reflexivity|]. split; [|reflexivity].
  apply (no_call_hangs 0 unanswered (placed_call first low false)); [by repeat constructor|by repeat constructor|reflexivity|discriminate].
Defined.

(** Two drops, ten seconds apart: the call ends seven seconds into the second. *)
Lemma stale_reconnect_timer_witness :
  cl_phase (talking first low (remote 1)) = Connected ∧ 3000 + 10000 ≤ RECONNECT_TIMEOUT ∧
  ck_call (tick (ticks (mkClocked 0 (Some (talking first low (remote 1))) [] 0)
    [In (Session first EvDisconnected 0); Pass 3000; In (Session first EvConnected 0); Pass 10000;
     In (Session first EvDisconnected 0); Pass (RECONNECT_TIMEOUT - 3000 - 10000)]) (Fire 0)) = None.
Proof.
  split; [reflexivity|]. split; [by unfold RECONNECT_TIMEOUT; lia|].
  apply (stale_reconnect_timer (talking first low (remote 1)) 0 0 3000 10000); [reflexivity|lia|lia|unfold RECONNECT_TIMEOUT; lia].
Defined.

Lemma crossed_offers_agree_witness :
  joining (after (Some (placed_call first high true)) (InSignal (MsgAnswer first (remote_of (params 8) []))) 5) first high (remote_of (params 8) []).
Proof.
  apply (crossed_offers_agree low high (placed_call first high true) (placed_call second low false) 41000 42000 true false
    (remote 1) (remote 2) (params 8) [] chat chat 2000 2500 5 true); first [reflexivity | discriminate | lia | by vm_compute].
Defined.

(** Both ends change network at once, and both announce before they hear. *)
Definition both_move : list (bool * Hop) :=
  [(true, Moved 0); (false, Moved 0); (true, Gather (params 21) [] 1); (false, Gather (params 22) [] 1); (true, Hear 2); (false, Hear 2);
   (true, Recover 3); (false, Recover 3)].

Definition moved : End * End := hops (fresh (talking first high (remote 1)), fresh (talking first low (remote 2))) both_move.


End Talks.
